(* ===== verification/_CoqProject ===== *)
-Q . S2P
Prelude.v
Coroutine.v
Counting.v
CxxString.v
HttpHeaders.v
HttpForm.v
HttpUrl.v
Stream.v
HttpBody.v
HttpConnection.v
HttpExchange.v
HttpSession.v
Multipart.v
WebRouter.v
Sql.v
SqlOrm.v
SqlLibrary.v
SqlSqlite.v
SqlPostgres.v
SqlMysql.v
SqlBackends.v
AsyncWait.v
AsyncReturned.v
AsyncSemaphore.v
AsyncMutex.v
ScopedLock.v
AsyncQueue.v
NetWait.v
NetTcp.v
NetListen.v
NetUdp.v
Transport.v
TlsConfig.v
NetHttp.v
UvExecutor.v
SocketOwner.v
Runtime.v
Cancel.v
AsyncEvent.v
TaskGroup.v
HttpServer.v
WebClient.v
ServerEndpoint.v
FileIo.v
Paths.v
FileSystem.v
FileWatcher.v
IoErased.v
DatagramChannel.v
