(* ===== verification/Prelude.v ===== *)
(** * corouv: a verification development

    corouv is a C++20 library of coroutine-based networking on top of libuv
    and async_simple.  At the bottom is the executor of the libuv loop
    (uv_executor.cpp) with timers, poll and blocking work, owned by a runtime
    (runtime.h, loop.h, sync_wait.h).  Cancellation and timeouts (cancel.h,
    timeout.h) reach every task.  On the executor run the
    primitives by which coroutines wait for each other (async_mutex.h,
    async_semaphore.h, async_queue.h, event.h, task_group.h), TCP and UDP
    (net.cpp), files and directories (fs.h, file.h, filesystem.h), and the
    TLS transport over BearSSL (transport.cpp).  io.h hides the concrete
    streams and sockets behind type-erased ones.  An HTTP/1.x implementation
    (http.cpp, https.cpp) runs over these streams: a [Connection] reads and
    writes messages, a server hands requests to a handler, typically a router
    (web.h), whose handlers may parse URL-encoded and multipart forms
    (multipart.cpp) or run SQL statements (sql/orm.h) on a database (sql.cpp)
    through a driver for SQLite, PostgreSQL or MySQL.

    ** Files

    The base.
    - [Prelude]: byte strings, [std::size_t] at 64 bits, exceptions and the
      [result] type, tactics, the hint database [corouv].
    - [Coroutine]: the monad of a coroutine on its own state, with rules for
      invariants and for destructors; [Counting]: counting lemmas for the
      invariants of concurrent components.
    - [CxxString]: what the sources use of the C++ library on strings ([find],
      [substr], [from_chars], [to_string], character classes, trimming,
      case-insensitive comparison) with the loops over separated tokens.

    HTTP and web.
    - [HttpHeaders], [HttpForm], [HttpUrl]: header lists and message framing,
      URL-encoded forms, URLs (http.cpp).
    - [Stream]: the byte-stream interface as a class ([ByteStream] with the
      operations, [ReliableStream] with the laws of an ordered reliable
      transport), the state of a [Connection] and the state-and-exception
      monad in which its methods are written.
    - [HttpBody]: the buffer cursor and the body readers and writers.
    - [HttpConnection]: reading and writing of messages, the server's
      connection loop, the client.  picohttpparser is a parameter
      ([PhrParser]) with laws ([PhrLaws]) that a reference parser satisfies.
    - [HttpExchange]: the theorems about whole messages and connections;
      [HttpSession]: a client and a server on the two ends of a connection.
    - [Multipart]: multipart.cpp; [WebRouter]: the router of web.h.
    - [HttpServer]: [Server::serve] of HTTP and HTTPS over the task group, and
      the HTTPS client and connection.
    - [WebClient]: the client and the builders of web.h; [ServerEndpoint]:
      where the servers listen, and the overloads without an executor.

    Databases.
    - [Sql], [SqlOrm]: values, URLs, registry and connection of sql.cpp over
      drivers as an interface ([DriverOps]); sql/orm.h.
    - [SqlLibrary]: loading of a client library, and the accounting of live
      handles ([Handles]); [SqlSqlite], [SqlPostgres], [SqlMysql]: the three
      drivers, each over a class of the C functions it calls, with laws that
      an executable stand-in satisfies; [SqlBackends]: the instance of
      [DriverOps] made of them.

    Waiting.
    - [AsyncWait], [AsyncSemaphore], [AsyncMutex]: the waiting machine that
      the two classes share, over an interface [Gate] for the resource, and
      the classes; [AsyncReturned]: acquisitions that have returned;
      [ScopedLock]: the owners of a mutex; [AsyncQueue]: the queue over two
      semaphores; [AsyncEvent],
      [TaskGroup]: event.h and task_group.h; [UvExecutor]: the executor, timers,
      poll and blocking work; [Runtime]: the loop, the runtime and [run];
      [Cancel]: signals chained by [with_cancellation], timeouts.

    Network.
    - [NetWait]: the pattern that the awaiters of net.cpp share, as a class
      ([WaitCell]) with laws, and its invariant; [NetTcp], [NetListen],
      [NetUdp]: its three instances with the operations of the classes over
      libuv as an interface; [SocketOwner]: the objects that own them.
    - [Transport]: the codecs and [CodecStream] of transport.cpp; [TlsConfig]:
      PEM texts, certificates, keys and the making of the codecs.
    - [NetHttp]: HTTP over TCP and over codec streams.
    - [IoErased]: the concepts of io.h as type classes and the type-erased
      streams, listeners and sockets as dependent sums; [DatagramChannel]:
      datagram_channel.h.

    Files.
    - [FileIo]: the requests on descriptors (fs.h) and [io::File] (file.h).
    - [Paths], [FileSystem], [FileWatcher]: normalization of paths, requests on
      paths with [io::Directory] and the functions of filesystem.h, and the
      watcher.

    ** What the theorems show

    Round trips: requests, responses, chunked bodies, forms, multipart forms,
    URLs, connection URLs, connection strings, JSON strings and files read
    back as what was written.  Refinement: a client and a server that exchange
    bytes behave as a caller and a handler that exchange messages, the server
    loop implements a sequential specification, the buffer cursor a byte queue, path matching a
    declarative matcher; the type-erased streams, around TCP streams for
    example, implement the interface against which the HTTP theorems are
    proved.  Exactness: the framing headers accepted, the routes chosen, the
    placeholders of statements, the rows that each driver returns, what
    [remove_all] removes and [create_directories] makes, the certificates and
    keys of a TLS configuration, the origin a fetch goes to.
    Interleavings: in all reachable states of the semaphore and the mutex
    units are conserved, no wakeup is lost and waiters are served in order;
    the queue delivers in order and keeps its capacity; reads, accepts and
    receives return what arrived; the executor runs what it accepted in order;
    a task group waits for its children and reports the first error; a server
    waits for its connections; a file's descriptor is not closed under a
    request; [run] gives what its task completed with and destroying the
    runtime closes the loop; a task under [with_cancellation] sees exactly the
    cancellations of its token and of the enclosing task; the events of a file
    watcher arrive in order and its close
    completes.  Resources: whatever the operations and their failures, a
    database connection holds its library and its connection and nothing
    else; connect and listen keep or close every handle; a server has at most
    one listener; an open socket has exactly one owner.
    Some theorems are about behaviour that is not intended; they are listed
    as findings with the code they concern.

    ** Modelling conventions

    A coroutine that awaits one operation after the other is a function in
    the monad of [Coroutine] (of [Stream] for HTTP connections); exceptions
    are values of [result].  Where several coroutines or threads share state,
    each critical section or atomic operation is one transition of a relation,
    and the relation interleaves them freely.  Third-party code is a class of
    operations; what is relied on of it is a class of laws, with an executable
    instance.  [std::size_t] is [Z] (or [N]) with the wrap-around written out
    where the code can overflow; [int] and [unsigned] are cut to their width
    where the code converts.  Loops that are not structural carry fuel;
    running out of it is the separate outcome [OutOfFuel], and the theorems
    about such loops state an amount of fuel with which the result is reached:
    linear in the input for parsers, one more than the rows, results or entries
    for loops over an answer.  A timeout fires or not before the awaited
    operation has an effect, as the stream decides.

    ** Not modelled

    The libraries themselves (libuv, async_simple, BearSSL, picohttpparser,
    the database clients), which are parameters, or whose steps are the
    environment's part of a transition relation: what [uv_run] and the
    handles do in [Runtime], how a [Signal] hands its bits on in [Cancel].
    How async_simple delivers a signal to a suspended coroutine is not
    modelled; in the waiting machines it is a step.  Branches for Windows,
    failing allocations, and tests and examples. *)

From Stdlib Require Export Ascii ZArith Lia.
From stdpp Require Export base list list_numbers numbers option strings gmap.

#[export] Set Default Goal Selector "!".

(** ** Byte strings

    A C++ [std::string] or [std::string_view] is a sequence of bytes; it is a
    [list ascii] here, with string literals in [bytes_scope]. *)

Abbreviation bytes := (list ascii).

Declare Scope bytes_scope.
Delimit Scope bytes_scope with bs.

Definition bytes_of_literal (l : list Byte.byte) : bytes := map ascii_of_byte l.
Definition literal_of_bytes (s : bytes) : option (list Byte.byte) :=
  Some (map byte_of_ascii s).
String Notation bytes bytes_of_literal literal_of_bytes : bytes_scope.

Definition CR : ascii := "013"%char.
Definition LF : ascii := "010"%char.
Definition SP : ascii := "032"%char.
Definition QUOTE : ascii := "034"%char.
Definition APOS : ascii := "039"%char.
Definition BACKSLASH : ascii := "092"%char.
Definition crlf : bytes := [CR; LF].

(** Numeric value of a byte, as an [unsigned char]. *)
Definition code (c : ascii) : Z := Z.of_N (N_of_ascii c).
Definition chr (z : Z) : ascii := ascii_of_N (Z.to_N (z mod 256)).

#[export] Instance ascii_eq_dec : EqDecision ascii := ascii_dec.

(** ** [std::size_t] at 64 bits *)

Definition W64 : Z := 2 ^ 64.
Definition SIZE_MAX : Z := W64 - 1.
Definition u64 (z : Z) : Z := z mod W64.
Definition sz_add (a b : Z) : Z := u64 (a + b).
Definition sz_sub (a b : Z) : Z := u64 (a - b).
Definition is_size (z : Z) : Prop := (0 <= z < W64)%Z.

(** Conversion of a wider integer to [int] (32 bits). *)
Definition to_int (z : Z) : Z := let r := (z mod 2 ^ 32)%Z in if (r <? 2 ^ 31)%Z then r else (r - 2 ^ 32)%Z.

Lemma to_int_small z : (0 <= z < 2 ^ 31)%Z -> to_int z = z.
Proof.
  intros Hz. unfold to_int. rewrite Z.mod_small by lia. destruct (Z.ltb_spec z (2 ^ 31)); [done | lia].
Qed.

(** [s.size()] *)
Definition size_of {A} (s : list A) : Z := Z.of_nat (length s).

Lemma u64_range z : is_size (u64 z).
Proof. unfold is_size, u64. apply Z.mod_pos_bound. reflexivity. Qed.

Lemma u64_id z : is_size z -> u64 z = z.
Proof. intros H. apply Z.mod_small. exact H. Qed.

Lemma sz_add_small a b : (0 <= a)%Z -> (0 <= b)%Z -> (a + b < W64)%Z -> sz_add a b = (a + b)%Z.
Proof. intros. apply u64_id. unfold is_size. lia. Qed.

Lemma sz_sub_small a b : (0 <= b <= a)%Z -> (a < W64)%Z -> sz_sub a b = (a - b)%Z.
Proof. intros. apply u64_id. unfold is_size. lia. Qed.

Lemma sz_add_wraps a b : is_size a -> is_size b -> (W64 <= a + b)%Z -> sz_add a b = (a + b - W64)%Z.
Proof.
  intros Ha Hb H. unfold sz_add, u64, is_size in *.
  symmetry. apply (Z.mod_unique_pos _ _ 1); lia.
Qed.

Lemma size_of_nonneg {A} (s : list A) : (0 <= size_of s)%Z.
Proof. unfold size_of. lia. Qed.

Lemma size_of_app {A} (s t : list A) : size_of (s ++ t) = (size_of s + size_of t)%Z.
Proof. unfold size_of. rewrite length_app. lia. Qed.

Lemma size_of_nil_inv {A} (s : list A) : size_of s = 0%Z -> s = [].
Proof. unfold size_of. destruct s; simpl; [done | lia]. Qed.

Lemma size_of_take {A} n (s : list A) :
  (0 <= n <= size_of s)%Z -> size_of (take (Z.to_nat n) s) = n.
Proof. unfold size_of. rewrite length_take. lia. Qed.

Lemma size_of_drop {A} n (s : list A) :
  (0 <= n <= size_of s)%Z -> size_of (drop (Z.to_nat n) s) = (size_of s - n)%Z.
Proof. unfold size_of. rewrite length_drop. lia. Qed.

(** ** Exceptions and results

    The C++ exceptions the modelled code throws, with the text of [what()].
    [OutOfFuel] is the outcome of a loop whose fuel ran out; every loop comes
    with a theorem that enough fuel avoids it. *)

Inductive backend := Unknown | SQLite | PostgreSQL | MySQL.

Inductive exn :=
| HttpError (status : Z) (what : bytes)       (** [corouv::http::Error] *)
| SqlError (b : backend) (c : Z) (what : bytes) (** [corouv::sql::Error] *)
| InvalidArgument (what : bytes)              (** [std::invalid_argument] *)
| RuntimeError (what : bytes)                 (** [std::runtime_error] *)
| LogicError (what : bytes)                   (** [std::logic_error] *)
| OverflowError (what : bytes)                (** [std::overflow_error] *)
| OutOfRange (what : bytes)                   (** [std::out_of_range] *)
| TimeoutError                                (** [corouv::TimeoutError] *)
| SignalException (what : bytes)              (** [async_simple::SignalException] *)
| OtherException.                             (** anything else *)

(** [std::exception::what()]; [None] for a thrown object that is not a
    [std::exception]. *)
Definition what (e : exn) : option bytes :=
  match e with
  | HttpError _ w | SqlError _ _ w | InvalidArgument w | RuntimeError w | LogicError w
  | OverflowError w | OutOfRange w | SignalException w => Some w
  | TimeoutError => Some "corouv timeout"%bs
  | OtherException => None
  end.

#[export] Instance backend_eq_dec : EqDecision backend.
Proof. solve_decision. Defined.

#[export] Instance exn_eq_dec : EqDecision exn.
Proof. solve_decision. Defined.

Inductive result (A : Type) :=
| Ok (a : A)
| Throw (e : exn)
| OutOfFuel.
Arguments Ok {A} _.
Arguments Throw {A} _.
Arguments OutOfFuel {A}.

#[export] Instance result_ret : MRet result := @Ok.
#[export] Instance result_bind : MBind result := fun A B f m =>
  match m with Ok a => f a | Throw e => Throw e | OutOfFuel => OutOfFuel end.
#[export] Instance result_fmap : FMap result := fun A B f m =>
  match m with Ok a => Ok (f a) | Throw e => Throw e | OutOfFuel => OutOfFuel end.

#[export] Instance result_eq_dec {A} `{EqDecision A} : EqDecision (result A).
Proof. solve_decision. Defined.

Definition is_ok {A} (r : result A) : bool := match r with Ok _ => true | _ => false end.

Lemma result_bind_ok {A B} (m : result A) (f : A -> result B) b :
  mbind f m = Ok b <-> exists a, m = Ok a /\ f a = Ok b.
Proof.
  split.
  - destruct m; simpl; try discriminate. eauto.
  - intros (a & -> & H). exact H.
Qed.

Lemma result_fmap_ok {A B} (m : result A) (f : A -> B) b :
  fmap f m = Ok b <-> exists a, m = Ok a /\ b = f a.
Proof.
  split.
  - destruct m; simpl; try discriminate. intros [= <-]. eauto.
  - intros (a & -> & ->). reflexivity.
Qed.

(** ** Automation *)

Create HintDb corouv discriminated.
#[export] Hint Resolve size_of_nonneg u64_range : corouv.

(** Split every [match] and [if] of the goal, closing the easy branches. *)
Ltac crush_match :=
  repeat (case_match; simplify_eq/=; try done).

(** Decide a statement about one byte by trying all 256 of them. *)
Ltac all_bytes c :=
  destruct c as [[] [] [] [] [] [] [] []]; vm_compute; try done.

(** Turn [Ok]-results of binds in hypotheses into their pieces. *)
Ltac inv_result :=
  repeat match goal with
  | H : mbind _ _ = Ok _ |- _ =>
      let a := fresh "a" in let Ha := fresh "Ha" in
      apply result_bind_ok in H as (a & Ha & H)
  | H : fmap _ _ = Ok _ |- _ =>
      let a := fresh "a" in let Ha := fresh "Ha" in
      apply result_fmap_ok in H as (a & Ha & H)
  | H : Ok _ = Ok _ |- _ => injection H as H
  | H : Throw _ = Ok _ |- _ => discriminate H
  | H : OutOfFuel = Ok _ |- _ => discriminate H
  end; subst.
