(* ===== verification/Coroutine.v ===== *)
(** * Coroutines

    A coroutine that owns its state while it runs is a state-passing function
    with exceptions.  [Stream.v] has the same monad at the type of HTTP
    connections; this one is for any state. *)

From S2P Require Import Prelude.

Definition Co (X A : Type) : Type := X -> result A * X.
Definition co_ret {X A} (a : A) : Co X A := fun x => (Ok a, x).
Definition co_throw {X A} (e : exn) : Co X A := fun x => (Throw e, x).
Definition co_fuel {X A} : Co X A := fun x => (OutOfFuel, x).
Definition co_get {X A} (f : X -> A) : Co X A := fun x => (Ok (f x), x).
Definition co_bind {X A B} (m : Co X A) (f : A -> Co X B) : Co X B := fun x =>
  match m x with
  | (Ok a, y) => f a y
  | (Throw e, y) => (Throw e, y)
  | (OutOfFuel, y) => (OutOfFuel, y)
  end.
Definition co_if {X A} (b : X -> bool) (m n : Co X A) : Co X A := fun x => if b x then m x else n x.

Declare Scope co_scope.
Delimit Scope co_scope with co.
Notation "x <- m ;; f" := (co_bind m (fun x => f)) (at level 100, m at next level, right associativity) : co_scope.
Notation "m ;;; f" := (co_bind m (fun _ => f)) (at level 100, right associativity) : co_scope.
Local Open Scope co_scope.

Lemma co_bind_inv {X A B} (m : Co X A) (f : A -> Co X B) x r y :
  co_bind m f x = (r, y) ->
  (exists a z, m x = (Ok a, z) /\ f a z = (r, y)) \/ (exists e, m x = (Throw e, y) /\ r = Throw e) \/ (m x = (OutOfFuel, y) /\ r = OutOfFuel).
Proof.
  unfold co_bind. destruct (m x) as [[a|e|] z] eqn:E; [eauto | |]; intros [= <- <-]; eauto.
Qed.

(** Equations that run a bind on a known result. *)
Lemma co_bind_ok {X A B} (m : Co X A) (f : A -> Co X B) x a y : m x = (Ok a, y) -> co_bind m f x = f a y.
Proof. intros H. unfold co_bind. by rewrite H. Qed.

Lemma co_bind_throw {X A B} (m : Co X A) (f : A -> Co X B) x e y : m x = (Throw e, y) -> co_bind m f x = (Throw e, y).
Proof. intros H. unfold co_bind. by rewrite H. Qed.

(** [try { m } catch (...) { cleanup; throw; }] *)
Definition co_cleanup {X A} (m : Co X A) (cleanup : X -> X) : Co X A := fun x =>
  match m x with
  | (Throw e, y) => (Throw e, cleanup y)
  | r => r
  end.

(** A destructor that runs on every way out of a scope. *)
Definition co_finally {X A} (m : Co X A) (cleanup : X -> X) : Co X A := fun x => let '(r, y) := m x in (r, cleanup y).

(** ** Invariants of a coroutine

    [co_inv P m]: [P] holds after [m], however it ends, when it held before. *)
Definition co_inv {X A} (P : X -> Prop) (m : Co X A) : Prop := forall x, P x -> P (snd (m x)).

Section Invariants.
Context {X : Type} (P : X -> Prop).

Lemma co_inv_ret {A} (a : A) : co_inv P (co_ret a).
Proof. by intros x Hx. Qed.
Lemma co_inv_throw {A} e : co_inv P (@co_throw X A e).
Proof. by intros x Hx. Qed.
Lemma co_inv_fuel {A} : co_inv P (@co_fuel X A).
Proof. by intros x Hx. Qed.
Lemma co_inv_get {A} (f : X -> A) : co_inv P (co_get f).
Proof. by intros x Hx. Qed.
Lemma co_inv_bind {A B} (m : Co X A) (f : A -> Co X B) : co_inv P m -> (forall a, co_inv P (f a)) -> co_inv P (co_bind m f).
Proof.
  intros Hm Hf x Hx. specialize (Hm x Hx). unfold co_bind. destruct (m x) as [[a|e|] y]; simpl in *; [by apply Hf | done | done].
Qed.
Lemma co_inv_cleanup {A} (m : Co X A) g : co_inv P m -> (forall x, P x -> P (g x)) -> co_inv P (co_cleanup m g).
Proof. intros Hm Hg x Hx. specialize (Hm x Hx). unfold co_cleanup. destruct (m x) as [[a|e|] y]; simpl in *; auto. Qed.
End Invariants.

(** A scope that owns something in addition: the invariant is [Q] inside. *)
Lemma co_inv_finally {X A} (P Q : X -> Prop) (m : Co X A) g x :
  Q x -> co_inv Q m -> (forall y, Q y -> P (g y)) -> P (snd (co_finally m g x)).
Proof. intros Hx Hm Hg. unfold co_finally. specialize (Hm x Hx). destruct (m x) as [r y]. simpl in *. by apply Hg. Qed.

Create HintDb co_inv discriminated.
#[export] Hint Resolve co_inv_ret co_inv_throw co_inv_fuel co_inv_get : co_inv.
