(* ===== verification/Counting.v ===== *)
(** * Counting the elements of a list

    The invariants of the concurrent components count: waiters, actions under
    way, operations in a phase.  Shared by the files that need it. *)

From S2P Require Import Prelude.

Definition count {A} (f : A -> bool) (l : list A) : nat := length (List.filter f l).

Lemma count_split {A} (f : A -> bool) l1 l2 : count f (l1 ++ l2) = count f l1 + count f l2.
Proof. unfold count. by rewrite List.filter_app, length_app. Qed.

Lemma count_snoc {A} (f : A -> bool) l x : count f (l ++ [x]) = count f l + (if f x then 1 else 0).
Proof. rewrite count_split. unfold count at 2. simpl. by destruct (f x). Qed.

Lemma count_insert {A} (f : A -> bool) l k x y :
  l !! k = Some x -> count f (<[k := y]> l) + (if f x then 1 else 0) = count f l + (if f y then 1 else 0).
Proof.
  unfold count. revert k. induction l as [|z l IH]; intros [|k]; simpl; [done | done | |].
  - intros [= ->]. destruct (f x), (f y); simpl; lia.
  - intros Hk. specialize (IH k Hk). destruct (f z); simpl; lia.
Qed.

Lemma count_mono {A} (f g : A -> bool) l : (forall x, f x = true -> g x = true) -> count f l <= count g l.
Proof.
  intros Hfg. unfold count. induction l as [|x l IH]; simpl; [lia|].
  destruct (f x) eqn:E; [rewrite (Hfg x E); simpl; lia | destruct (g x); simpl; lia].
Qed.

Lemma count_one {A} (f : A -> bool) x : count f [x] = if f x then 1 else 0.
Proof. unfold count. simpl. by destruct (f x). Qed.

Lemma count_zero {A} (f : A -> bool) l x : x ∈ l -> f x = true -> count f l <> 0.
Proof.
  intros Hx Hf. unfold count. intros Hz. apply nil_length_inv in Hz.
  assert (In x (List.filter f l)) as Hin by (apply List.filter_In; split; [by apply list_elem_of_In | done]). by rewrite Hz in Hin.
Qed.

Lemma count_filter i (keep : nat -> bool) l :
  count (Nat.eqb i) (List.filter keep l) = if keep i then count (Nat.eqb i) l else 0.
Proof.
  unfold count. induction l as [|x l IH]; simpl; [by destruct (keep i)|]. destruct (keep x) eqn:Ek; simpl.
  - destruct (Nat.eqb_spec i x) as [->|]; simpl; [|done]. rewrite IH, Ek. done.
  - rewrite IH. destruct (keep i) eqn:Ei; [|done]. destruct (Nat.eqb_spec i x) as [->|]; [congruence | done].
Qed.

Lemma count_remove {A} (f : A -> bool) l k a :
  l !! k = Some a -> count f l = count f (take k l ++ drop (S k) l) + (if f a then 1 else 0).
Proof.
  intros H. rewrite <- (take_drop_middle l k a H) at 1. rewrite !count_split.
  change (a :: drop (S k) l) with ([a] ++ drop (S k) l). rewrite count_split, count_one. lia.
Qed.

Lemma count_pos {A} (f : A -> bool) l : 1 <= count f l -> exists x, x ∈ l /\ f x = true.
Proof.
  unfold count. intros H. destruct (List.filter f l) as [|x t] eqn:E; simpl in H; [lia|]. exists x.
  assert (In x (List.filter f l)) as Hin by (rewrite E; by left). apply List.filter_In in Hin as [Hin ?]. split; [by apply list_elem_of_In | done].
Qed.
