(* ===== verification/CxxString.v ===== *)
(** * The C++ string operations the library uses

    [std::string_view::find], [rfind], [find_first_of], [substr],
    [starts_with], the [<cctype>] predicates in the "C" locale,
    [std::from_chars] on unsigned types and [std::to_string], with the lemmas
    the components share.  [npos] is [None].  Also [iequals] and [trim_copy],
    which http.cpp, multipart.cpp, sql.cpp and web.h each define in the same
    words. *)

From S2P Require Import Prelude.

Local Open Scope Z_scope.

(** ** Searching *)

Fixpoint find_char (c : ascii) (s : bytes) : option nat :=
  match s with
  | [] => None
  | x :: s' => if decide (x = c) then Some 0%nat else S <$> find_char c s'
  end.

(** [s.find(c, start)], with [start <= s.size()] at every call. *)
Definition find_char_from (c : ascii) (s : bytes) (start : nat) : option nat :=
  Nat.add start <$> find_char c (drop start s).

(** [s.rfind(c)] *)
Fixpoint rfind_char (c : ascii) (s : bytes) : option nat :=
  match s with
  | [] => None
  | x :: s' =>
      match rfind_char c s' with
      | Some i => Some (S i)
      | None => if decide (x = c) then Some 0%nat else None
      end
  end.

Fixpoint starts_with (p s : bytes) : bool :=
  match p, s with
  | [], _ => true
  | _ :: _, [] => false
  | x :: p', y :: s' => if decide (x = y) then starts_with p' s' else false
  end.

(** [s.find(needle)] *)
Fixpoint find_str (needle s : bytes) : option nat :=
  if starts_with needle s then Some 0%nat
  else match s with
       | [] => None
       | _ :: s' => S <$> find_str needle s'
       end.

Definition find_str_from (needle s : bytes) (start : nat) : option nat :=
  Nat.add start <$> find_str needle (drop start s).

Fixpoint find_first_of (set s : bytes) : option nat :=
  match s with
  | [] => None
  | x :: s' => if decide (x ∈ set) then Some 0%nat else S <$> find_first_of set s'
  end.

(** [s.substr(pos, n)]: [n] is clamped; [pos > size] throws, which the code
    never does. *)
Definition substr (pos n : nat) (s : bytes) : bytes := take n (drop pos s).

(** The loops [while (!remaining.empty())] and [while (start < s.size())] that
    cut a string at a separator: the parts they visit, in order. *)
Fixpoint loop_parts (fuel : nat) (c : ascii) (remaining : bytes) : list bytes :=
  match fuel with
  | O => []
  | S fuel' =>
      match remaining with
      | [] => []
      | _ =>
          match find_char c remaining with
          | None => [remaining]
          | Some i => take i remaining :: loop_parts fuel' c (drop (S i) remaining)
          end
      end
  end.
Definition visited_parts (c : ascii) (s : bytes) : list bytes :=
  loop_parts (S (length s)) c s.

(** The loop [while (start <= s.size())], which also visits an empty last part. *)
Fixpoint loop_tokens (fuel : nat) (c : ascii) (s : bytes) : list bytes :=
  match fuel with
  | O => []
  | S fuel' =>
      match find_char c s with
      | None => [s]
      | Some i => take i s :: loop_tokens fuel' c (drop (S i) s)
      end
  end.
Definition all_tokens (c : ascii) (s : bytes) : list bytes :=
  loop_tokens (S (length s)) c s.

(** ** Characters ("C" locale) *)

Definition in_range (lo hi : Z) (c : ascii) : bool := (lo <=? code c) && (code c <=? hi).
Definition isdigit (c : ascii) : bool := in_range 48 57 c.
Definition isupper (c : ascii) : bool := in_range 65 90 c.
Definition islower (c : ascii) : bool := in_range 97 122 c.
Definition isalnum (c : ascii) : bool := isdigit c || isupper c || islower c.
Definition isspace (c : ascii) : bool := in_range 9 13 c || (code c =? 32).
Definition tolower (c : ascii) : ascii := if isupper c then chr (code c + 32) else c.

(** The lambda [hex_value] of the percent-decoders. *)
Definition hex_value (c : ascii) : Z :=
  if isdigit c then code c - 48
  else if in_range 97 102 c then 10 + (code c - 97)
  else if in_range 65 70 c then 10 + (code c - 65)
  else -1.

(** ** [iequals] and [trim_copy] *)

Fixpoint iequals_loop (lhs rhs : bytes) : bool :=
  match lhs, rhs with
  | a :: lhs', b :: rhs' =>
      if decide (tolower a = tolower b) then iequals_loop lhs' rhs' else false
  | _, _ => true
  end.
Definition iequals (lhs rhs : bytes) : bool :=
  if decide (length lhs = length rhs) then iequals_loop lhs rhs else false.

Definition to_lower_copy (s : bytes) : bytes := map tolower s.

Fixpoint skip_space (s : bytes) : bytes :=
  match s with
  | c :: s' => if isspace c then skip_space s' else s
  | [] => []
  end.
Definition trim_copy (s : bytes) : bytes := rev (skip_space (rev (skip_space s))).

(** ** Numbers *)

(** [std::errc] of a conversion. *)
Inductive errc := errc_ok | errc_invalid_argument | errc_result_out_of_range.
#[export] Instance errc_eq_dec : EqDecision errc.
Proof. solve_decision. Defined.

(** The value of a digit in a base of at most 16. *)
Definition digit_in (base : Z) (c : ascii) : option Z :=
  let d := hex_value c in
  if (0 <=? d) && (d <? base) then Some d else None.

(** [std::from_chars] on an unsigned type of [limit] values (no sign is
    accepted): value, error, and what is left of the input at [ptr]. *)
Fixpoint digits_value (base acc : Z) (s : bytes) : Z * bytes :=
  match s with
  | c :: s' =>
      match digit_in base c with
      | Some d => digits_value base (acc * base + d) s'
      | None => (acc, s)
      end
  | [] => (acc, [])
  end.
Definition from_chars (limit base : Z) (s : bytes) : Z * errc * bytes :=
  match s with
  | c :: _ =>
      match digit_in base c with
      | None => (0, errc_invalid_argument, s)
      | Some _ =>
          let '(v, rest) := digits_value base 0 s in
          if v <? limit then (v, errc_ok, rest)
          else (0, errc_result_out_of_range, rest)
      end
  | [] => (0, errc_invalid_argument, s)
  end.

(** The idiom [ec == std::errc{} && ptr == end]. *)
Definition parse_full (limit base : Z) (s : bytes) : option Z :=
  match from_chars limit base s with
  | (v, errc_ok, []) => Some v
  | _ => None
  end.

Definition digit_char (d : Z) : ascii := if d <? 10 then chr (48 + d) else chr (87 + d).

Fixpoint print_loop (fuel : nat) (base n : Z) (acc : bytes) : bytes :=
  match fuel with
  | O => acc
  | S fuel' =>
      let acc' := digit_char (n mod base) :: acc in
      if n / base =? 0 then acc' else print_loop fuel' base (n / base) acc'
  end.
(** [std::to_string] on an unsigned value ([base] 10) and [snprintf "%zx"]
    ([base] 16). *)
Definition print_base (base n : Z) : bytes := print_loop (S (Z.to_nat (Z.log2 n))) base n [].
Definition to_string (n : Z) : bytes :=
  if n <? 0 then "-"%char :: print_base 10 (- n) else print_base 10 n.

(** What a C function sees of a [std::string]: the bytes up to the first NUL. *)
Definition c_string (s : bytes) : bytes :=
  match find_char "000"%char s with None => s | Some i => take i s end.

(** ** Lemmas on searching *)

Lemma find_char_None c s : find_char c s = None <-> c ∉ s.
Proof.
  induction s as [|x s IH]; simpl.
  - split; [intros _ H; inversion H | done].
  - rewrite not_elem_of_cons. case_decide as Hx.
    + split; [done | naive_solver].
    + rewrite fmap_None, IH. naive_solver.
Qed.

Lemma find_char_Some c s i :
  find_char c s = Some i <->
  c ∉ take i s /\ s = take i s ++ c :: drop (S i) s.
Proof.
  revert i. induction s as [|x s IH]; intros i; simpl.
  - split; [done | rewrite take_nil; naive_solver].
  - case_decide as Hx.
    + subst x. split.
      * intros [= <-]. simpl. split; [by apply not_elem_of_nil | done].
      * intros [Hn Heq]. destruct i; [done|]. simpl in Hn.
        rewrite not_elem_of_cons in Hn. naive_solver.
    + rewrite fmap_Some. split.
      * intros (j & Hj & ->). apply IH in Hj as [Hn Heq]. simpl.
        rewrite not_elem_of_cons. split; [done|]. by f_equal.
      * intros [Hn Heq]. destruct i as [|i]; simpl in *.
        -- simplify_eq.
        -- apply not_elem_of_cons in Hn as [_ Hn]. simplify_eq.
           exists i. split; [apply IH; done | done].
Qed.

Lemma find_char_lt c s i : find_char c s = Some i -> (i < length s)%nat.
Proof.
  revert i. induction s as [|x s IH]; intros i; simpl; [done|].
  case_decide; [intros [= <-]; lia|].
  intros (j & Hj & ->)%fmap_Some. apply IH in Hj. lia.
Qed.

Lemma find_char_app c a b : c ∉ a -> find_char c (a ++ c :: b) = Some (length a).
Proof.
  intros Hn. apply find_char_Some.
  rewrite take_app_length, drop_app_ge by lia.
  by replace (S (length a) - length a)%nat with 1%nat by lia.
Qed.

Lemma find_char_app_None c a b : c ∉ a -> find_char c (a ++ b) = Nat.add (length a) <$> find_char c b.
Proof.
  induction a as [|x a IH]; simpl.
  - intros _. destruct (find_char c b); done.
  - rewrite not_elem_of_cons. intros [Hx Ha]. case_decide; [naive_solver|].
    rewrite IH by done. destruct (find_char c b); done.
Qed.

Lemma starts_with_spec p s : starts_with p s = true <-> exists t, s = p ++ t.
Proof.
  revert s. induction p as [|x p IH]; intros [|y s]; simpl.
  - naive_solver.
  - naive_solver.
  - naive_solver.
  - case_decide as Hxy; subst.
    + rewrite IH. naive_solver.
    + naive_solver.
Qed.

Lemma starts_with_app p t : starts_with p (p ++ t) = true.
Proof. apply starts_with_spec. eauto. Qed.

Lemma find_str_app_here needle t : find_str needle (needle ++ t) = Some 0%nat.
Proof.
  pose proof (starts_with_app needle t) as H.
  destruct (needle ++ t); simpl; by rewrite H.
Qed.

Lemma find_str_Some needle s i :
  find_str needle s = Some i -> exists t, s = take i s ++ needle ++ t.
Proof.
  revert i. induction s as [|x s IH]; intros i; simpl.
  - destruct (starts_with needle []) eqn:E; [|done]. intros [= <-].
    apply starts_with_spec in E as [t Ht]. exists t. done.
  - destruct (starts_with needle (x :: s)) eqn:E.
    + intros [= <-]. apply starts_with_spec in E as [t Ht]. exists t. done.
    + intros (j & Hj & ->)%fmap_Some. apply IH in Hj as [t Ht]. exists t. simpl. by f_equal.
Qed.

(** [needle] occurs nowhere in [s] at a position before its end. *)
Definition occurs (needle s : bytes) : Prop := exists a b, s = a ++ needle ++ b.

Lemma find_str_None needle s : find_str needle s = None <-> ~ occurs needle s.
Proof.
  induction s as [|x s IH]; simpl.
  - destruct (starts_with needle []) eqn:E.
    + apply starts_with_spec in E as [t Ht]. split; [done|]. intros H. exfalso. apply H.
      exists [], t. done.
    + split; [|done]. intros _ (a & b & H). symmetry in H. apply app_nil in H as [-> H].
      apply app_nil in H as [-> ->]. done.
  - destruct (starts_with needle (x :: s)) eqn:E.
    + apply starts_with_spec in E as [t Ht]. split; [done|]. intros H. exfalso. apply H.
      exists [], t. done.
    + rewrite fmap_None, IH. split.
      * intros H (a & b & Hab). destruct a as [|y a]; simpl in Hab.
        -- rewrite Hab, starts_with_app in E. done.
        -- simplify_eq. apply H. exists a, b. done.
      * intros H (a & b & ->). apply H. exists (x :: a), b. done.
Qed.

(** The first occurrence is found when [needle] does not occur earlier. *)
Lemma find_str_first needle a b :
  (forall i, (i < length a)%nat -> starts_with needle (drop i (a ++ needle ++ b)) = false) ->
  find_str needle (a ++ needle ++ b) = Some (length a).
Proof.
  induction a as [|x a IH]; intros H; simpl.
  - pose proof (find_str_app_here needle b) as Hn. done.
  - pose proof (H 0%nat ltac:(simpl; lia)) as H0. simpl in H0. rewrite H0.
    rewrite IH; [done|]. intros i Hi. apply (H (S i)). simpl. lia.
Qed.

Lemma find_first_of_None set s : find_first_of set s = None <-> Forall (fun c => c ∉ set) s.
Proof.
  induction s as [|x s IH]; simpl; [done|].
  rewrite Forall_cons. case_decide; [naive_solver|]. rewrite fmap_None, IH. naive_solver.
Qed.

Lemma find_first_of_app set a x b :
  Forall (fun c => c ∉ set) a -> x ∈ set -> find_first_of set (a ++ x :: b) = Some (length a).
Proof.
  induction a as [|y a IH]; simpl; intros Ha Hx.
  - by rewrite decide_True.
  - apply Forall_cons in Ha as [Hy Ha]. rewrite decide_False by done. by rewrite IH.
Qed.

Lemma find_first_of_Some set s i :
  find_first_of set s = Some i -> exists x rest, drop i s = x :: rest /\ x ∈ set.
Proof.
  revert i. induction s as [|y s IH]; intros i; simpl; [done|].
  case_decide.
  - intros [= <-]. simpl. eauto.
  - intros (j & Hj & ->)%fmap_Some. by apply IH.
Qed.

Lemma rfind_char_None c s : c ∉ s -> rfind_char c s = None.
Proof.
  induction s as [|x s IH]; simpl; [done|].
  rewrite not_elem_of_cons. intros [Hx Hs]. rewrite IH by done. by rewrite decide_False.
Qed.

Lemma rfind_char_app c a b : c ∉ b -> rfind_char c (a ++ c :: b) = Some (length a).
Proof.
  intros Hb. induction a as [|x a IH]; simpl.
  - rewrite rfind_char_None by done. by rewrite decide_True.
  - by rewrite IH.
Qed.

(** ** Lemmas on cutting *)

Fixpoint join_with (c : ascii) (parts : list bytes) : bytes :=
  match parts with
  | [] => []
  | [p] => p
  | p :: ps => p ++ c :: join_with c ps
  end.

Lemma join_with_cons c p q qs :
  join_with c (p :: q :: qs) = p ++ c :: join_with c (q :: qs).
Proof. done. Qed.

Lemma drop_past (c : ascii) (p s : bytes) : drop (S (length p)) (p ++ c :: s) = s.
Proof.
  rewrite drop_app_ge by lia.
  by replace (S (length p) - length p)%nat with 1%nat by lia.
Qed.

Lemma loop_tokens_join fuel c parts :
  parts <> [] -> Forall (fun p => c ∉ p) parts -> (length (join_with c parts) < fuel)%nat ->
  loop_tokens fuel c (join_with c parts) = parts.
Proof.
  revert fuel. induction parts as [|p ps IH]; intros fuel Hne Hall Hf; [done|].
  destruct fuel as [|fuel]; [lia|].
  apply Forall_cons in Hall as [Hp Hps].
  destruct ps as [|q qs].
  - simpl. apply find_char_None in Hp as ->. done.
  - rewrite join_with_cons in *. rewrite length_app in Hf. cbn [length] in Hf.
    cbn [loop_tokens]. rewrite find_char_app, take_app_length, drop_past by done.
    f_equal. apply IH; [done | done | lia].
Qed.

Lemma all_tokens_join c parts :
  parts <> [] -> Forall (fun p => c ∉ p) parts -> all_tokens c (join_with c parts) = parts.
Proof. intros. apply loop_tokens_join; [done | done | lia]. Qed.

Lemma loop_parts_join fuel c parts :
  Forall (fun p => c ∉ p) parts -> (forall p, last parts = Some p -> p <> []) ->
  (length (join_with c parts) < fuel)%nat ->
  loop_parts fuel c (join_with c parts) = parts.
Proof.
  revert fuel. induction parts as [|p ps IH]; intros fuel Hall Hlast Hf.
  - destruct fuel; done.
  - destruct fuel as [|fuel]; [lia|].
    apply Forall_cons in Hall as [Hp Hps].
    destruct ps as [|q qs].
    + simpl. specialize (Hlast p eq_refl). apply find_char_None in Hp as ->. by destruct p.
    + rewrite join_with_cons in *. rewrite length_app in Hf. cbn [length] in Hf.
      cbn [loop_parts]. destruct (p ++ c :: join_with c (q :: qs)) as [|y ys] eqn:E.
      { by apply app_nil in E as [_ E]. }
      rewrite <- E, find_char_app, take_app_length, drop_past by done.
      f_equal. apply IH; [done | | lia]. intros r Hr. apply Hlast. done.
Qed.

Lemma visited_parts_join c parts :
  Forall (fun p => c ∉ p) parts -> (forall p, last parts = Some p -> p <> []) ->
  visited_parts c (join_with c parts) = parts.
Proof. intros. apply loop_parts_join; [done | done | lia]. Qed.

(** ** Lemmas on [iequals] and [trim_copy] *)

Lemma iequals_loop_spec a b :
  length a = length b -> iequals_loop a b = true <-> to_lower_copy a = to_lower_copy b.
Proof.
  revert b. induction a as [|x a IH]; intros [|y b]; simpl; try done.
  intros Hlen. case_decide as Hxy.
  - rewrite IH by lia. split; [intros ->; by rewrite Hxy | by intros [= _ ->]].
  - split; [done | intros [= H _]; done].
Qed.

Lemma iequals_spec a b : iequals a b = true <-> to_lower_copy a = to_lower_copy b.
Proof.
  unfold iequals. case_decide as Hlen.
  - by apply iequals_loop_spec.
  - split; [done|]. intros H. exfalso. apply Hlen.
    apply (f_equal length) in H. unfold to_lower_copy in H. by rewrite !length_map in H.
Qed.

Lemma iequals_refl a : iequals a a = true.
Proof. by apply iequals_spec. Qed.

Lemma iequals_sym a b : iequals a b = iequals b a.
Proof.
  destruct (iequals a b) eqn:E; symmetry.
  - apply iequals_spec. apply iequals_spec in E. done.
  - apply not_true_is_false. intros H. apply iequals_spec in H.
    apply not_true_iff_false in E. apply E. by apply iequals_spec.
Qed.

Lemma iequals_trans a b c : iequals a b = true -> iequals b c = iequals a c.
Proof.
  intros H%iequals_spec. apply eq_true_iff_eq. rewrite !iequals_spec, H. done.
Qed.

(** No blank at either end. *)
Definition trimmed (s : bytes) : Prop :=
  (forall c s', s = c :: s' -> isspace c = false) /\
  (forall c s', rev s = c :: s' -> isspace c = false).

Lemma trimmed_no_space s : (forall c, c ∈ s -> isspace c = false) -> trimmed s.
Proof.
  intros Hs. split; intros c s' E; apply Hs.
  - rewrite E. apply list_elem_of_here.
  - apply elem_of_reverse. unfold reverse. rewrite <- rev_alt, E. apply list_elem_of_here.
Qed.

Lemma skip_space_id s : (forall c s', s = c :: s' -> isspace c = false) -> skip_space s = s.
Proof. destruct s as [|c s]; [done|]. intros H. simpl. by rewrite (H c s eq_refl). Qed.

Lemma trim_copy_id s : trimmed s -> trim_copy s = s.
Proof.
  intros [Hl Hr]. unfold trim_copy.
  by rewrite (skip_space_id s), (skip_space_id (rev s)), rev_involutive.
Qed.

Lemma skip_space_head s c s' : skip_space s = c :: s' -> isspace c = false.
Proof.
  induction s as [|x s IH]; simpl; [done|].
  destruct (isspace x) eqn:E; [done | by intros [= <- <-]].
Qed.

Lemma skip_space_suffix s : exists p, s = p ++ skip_space s /\ Forall (fun c => isspace c = true) p.
Proof.
  induction s as [|x s (p & Hp & Hall)]; simpl.
  - exists []. done.
  - destruct (isspace x) eqn:E.
    + exists (x :: p). split; [by rewrite Hp at 1 | by constructor].
    + exists []. done.
Qed.

Lemma trim_copy_trimmed s : trimmed (trim_copy s).
Proof.
  unfold trim_copy. split.
  - intros c s' H. destruct (skip_space_suffix (rev (skip_space s))) as (p & Hp & _).
    apply (f_equal (@rev ascii)) in Hp. rewrite rev_involutive, rev_app_distr, H in Hp.
    by apply skip_space_head in Hp.
  - intros c s' H. rewrite rev_involutive in H. by apply skip_space_head in H.
Qed.

Lemma trim_copy_nil : trim_copy [] = [].
Proof. done. Qed.

Lemma trim_copy_sp s : trim_copy (SP :: s) = trim_copy s.
Proof. done. Qed.

(** ** Lemmas on numbers *)

Lemma digit_in_char base d : 0 < base <= 16 -> 0 <= d < base -> digit_in base (digit_char d) = Some d.
Proof.
  intros Hb Hd.
  assert (d = 0 \/ d = 1 \/ d = 2 \/ d = 3 \/ d = 4 \/ d = 5 \/ d = 6 \/ d = 7 \/ d = 8 \/ d = 9 \/
          d = 10 \/ d = 11 \/ d = 12 \/ d = 13 \/ d = 14 \/ d = 15) as Hc by lia.
  unfold digit_in.
  replace (hex_value (digit_char d)) with d.
  - replace (0 <=? d) with true by lia. replace (d <? base) with true by lia. done.
  - decompose [or] Hc; subst d; vm_compute; done.
Qed.

Lemma digits_value_app base acc s rest :
  Forall (fun c => is_Some (digit_in base c)) s ->
  digits_value base acc (s ++ rest) =
  digits_value base (fst (digits_value base acc s)) rest.
Proof.
  revert acc. induction s as [|c s IH]; intros acc H; simpl; [done|].
  apply Forall_cons in H as [[d Hd] H]. rewrite Hd. by apply IH.
Qed.

Lemma print_loop_value fuel base n acc :
  1 < base <= 16 -> 0 <= n < base ^ (Z.of_nat fuel) ->
  exists ds, print_loop fuel base n acc = ds ++ acc /\
    Forall (fun c => is_Some (digit_in base c)) ds /\
    (fuel <> O -> ds <> []) /\
    forall m rest, digits_value base m (ds ++ rest) = digits_value base (m * base ^ (size_of ds) + n) rest.
Proof.
  intros Hb. revert n acc. induction fuel as [|fuel IH]; intros n acc Hn.
  - exists []. simpl. split_and!; [done | constructor | done |]. intros m rest.
    change (Z.of_nat 0) with 0 in Hn. unfold size_of. simpl. f_equal. lia.
  - simpl. set (c := digit_char (n mod base)).
    assert (Hd : digit_in base c = Some (n mod base)).
    { apply digit_in_char; [lia|]. apply Z.mod_pos_bound. lia. }
    pose proof (Z.div_mod n base ltac:(lia)) as Hdm.
    destruct (Z.eqb_spec (n / base) 0) as [Hz|Hz].
    + exists [c]. split_and!; [done | by repeat constructor | done |].
      intros m rest. simpl. rewrite Hd. f_equal. unfold size_of. simpl. lia.
    + destruct (IH (n / base) (c :: acc)) as (ds & Hds & Hall & Hne & Hval).
      { rewrite Nat2Z.inj_succ, Z.pow_succ_r in Hn by lia. split.
        - apply Z.div_pos; lia.
        - apply Z.div_lt_upper_bound; lia. }
      exists (ds ++ [c]). split_and!.
      * rewrite Hds, <- app_assoc. done.
      * apply Forall_app. split; [done | by repeat constructor].
      * intros _. by destruct ds.
      * intros m rest. rewrite <- app_assoc. rewrite Hval. simpl. rewrite Hd. f_equal.
        rewrite size_of_app. replace (size_of [c]) with 1 by done.
        rewrite Z.pow_add_r by (unfold size_of; lia). lia.
Qed.

Lemma print_base_fuel base n :
  1 < base -> 0 <= n -> n < base ^ (Z.of_nat (S (Z.to_nat (Z.log2 n)))).
Proof.
  intros Hb Hn. rewrite Nat2Z.inj_succ, Z2Nat.id by apply Z.log2_nonneg.
  destruct (Z.eq_dec n 0) as [->|Hz]; [simpl; lia|].
  apply Z.lt_le_trans with (2 ^ Z.succ (Z.log2 n)).
  - apply Z.log2_spec. lia.
  - apply Z.pow_le_mono_l. lia.
Qed.

Lemma print_base_digits base n :
  1 < base <= 16 -> 0 <= n ->
  print_base base n <> [] /\
  Forall (fun c => is_Some (digit_in base c)) (print_base base n) /\
  forall rest, digits_value base 0 (print_base base n ++ rest) = digits_value base n rest.
Proof.
  intros Hb Hn.
  destruct (print_loop_value (S (Z.to_nat (Z.log2 n))) base n []) as (ds & Hds & Hall & Hne & Hval).
  { done. }
  { split; [lia | apply print_base_fuel; lia]. }
  unfold print_base. rewrite Hds, app_nil_r. split_and!; [by apply Hne | done |].
  intros rest. rewrite Hval. by rewrite Z.mul_0_l, Z.add_0_l.
Qed.

(** Printing a number and parsing it back gives the number. *)
Lemma parse_print limit base n :
  1 < base <= 16 -> 0 <= n < limit -> parse_full limit base (print_base base n) = Some n.
Proof.
  intros Hb Hn. destruct (print_base_digits base n Hb ltac:(lia)) as (Hne & Hall & Hval).
  specialize (Hval []). rewrite app_nil_r in Hval. simpl in Hval.
  unfold parse_full, from_chars. destruct (print_base base n) as [|c ds]; [done|].
  apply Forall_cons in Hall as [[d Hd] _]. rewrite Hd, Hval.
  replace (n <? limit) with true by lia. done.
Qed.

Lemma digits_value_range base acc s v rest :
  1 < base -> 0 <= acc -> digits_value base acc s = (v, rest) -> 0 <= v.
Proof.
  intros Hb. revert acc. induction s as [|c s IH]; intros acc Ha; simpl.
  - by intros [= <- _].
  - destruct (digit_in base c) as [d|] eqn:Hd.
    + intros H. apply IH in H; [done|]. unfold digit_in in Hd.
      destruct (_ && _) eqn:E; [|done]. simplify_eq. apply andb_true_iff in E as [E _]. lia.
    + by intros [= <- _].
Qed.

Lemma parse_full_range limit base s v :
  1 < base -> parse_full limit base s = Some v -> 0 <= v < limit.
Proof.
  intros Hb. unfold parse_full, from_chars. destruct s as [|c s]; [done|].
  destruct (digit_in base c); [|done].
  destruct (digits_value base 0 (c :: s)) as [w rest] eqn:E.
  apply digits_value_range in E; [|lia|lia].
  destruct (Z.ltb_spec w limit); [|done]. destruct rest; [|done]. intros [= <-]. lia.
Qed.

Lemma print_loop_length fuel base n acc k :
  1 < base -> (0 < k)%nat -> 0 <= n < base ^ (Z.of_nat k) ->
  (length (print_loop fuel base n acc) <= k + length acc)%nat.
Proof.
  intros Hb. revert n acc k. induction fuel as [|fuel IH]; intros n acc k Hk Hn; simpl; [lia|].
  destruct (Z.eqb_spec (n / base) 0) as [|Hz]; [simpl; lia|].
  destruct k as [|[|k]]; [lia | |].
  - exfalso. apply Hz. apply Z.div_small. change (Z.of_nat 1) with 1 in Hn. lia.
  - specialize (IH (n / base) (digit_char (n mod base) :: acc) (S k)). simpl in IH.
    etransitivity; [apply IH; [lia|] | simpl; lia].
    rewrite Nat2Z.inj_succ, Z.pow_succ_r in Hn by lia. split.
    + apply Z.div_pos; lia.
    + apply Z.div_lt_upper_bound; lia.
Qed.

(** A 64-bit value prints in at most 16 hexadecimal digits. *)
Lemma print_hex_length n : is_size n -> size_of (print_base 16 n) <= 16.
Proof.
  intros Hn. unfold is_size in Hn. unfold size_of, print_base.
  pose proof (print_loop_length (S (Z.to_nat (Z.log2 n))) 16 n [] 16) as Hl. simpl length in Hl.
  rewrite Nat.add_0_r in Hl. apply inj_le in Hl; [done | lia | lia |].
  change (16 ^ Z.of_nat 16) with W64. lia.
Qed.

Lemma digit_in_hex base c : is_Some (digit_in base c) -> 0 <= hex_value c.
Proof.
  intros [d Hd]. unfold digit_in in Hd. by destruct (Z.leb_spec 0 (hex_value c)).
Qed.

(** Printed numbers hold no separator and no white space. *)
Lemma print_base_clean base n c :
  1 < base <= 16 -> 0 <= n -> hex_value c < 0 -> c ∉ print_base base n.
Proof.
  intros Hb Hn Hc Hin. destruct (print_base_digits base n Hb Hn) as (_ & Hall & _).
  rewrite Forall_forall in Hall. specialize (Hall c Hin).
  apply digit_in_hex in Hall. lia.
Qed.

Lemma print_base_trimmed base n : 1 < base <= 16 -> 0 <= n -> trimmed (print_base base n).
Proof.
  intros Hb Hn. apply trimmed_no_space. intros c Hc. destruct (isspace c) eqn:E; [|done].
  exfalso. revert Hc. apply print_base_clean; [done | done |]. revert E. all_bytes c.
Qed.

#[export] Hint Resolve iequals_refl trim_copy_trimmed : corouv.
#[export] Hint Rewrite @size_of_app : corouv.
