(* ===== verification/HttpHeaders.v ===== *)
(** * HTTP headers and message framing (http.h, http.cpp)

    The header list and its operations, and the decisions the connection takes
    from headers: body framing ([Content-Length], [Transfer-Encoding]),
    persistence ([Connection]), [Expect], and the headers the writer emits.
    The theorems characterise each parser by the tokens it reads and show that
    the framing the writer announces is the one the reader recovers. *)

From S2P Require Import Prelude CxxString.

Local Open Scope Z_scope.

(** ** Data (http.h) *)

Record Header := mkHeader { h_name : bytes; h_value : bytes }.
Abbreviation Headers := (list Header).

Record Limits := mkLimits {
  max_header_bytes : Z;
  max_body_bytes : Z;
  max_header_count : Z
}.
Definition default_limits : Limits :=
  {| max_header_bytes := 64 * 1024; max_body_bytes := 8 * 1024 * 1024; max_header_count := 100 |}.

Record Request := mkRequest {
  rq_method : bytes;
  rq_target : bytes;
  rq_headers : Headers;
  rq_body : bytes;
  rq_trailers : Headers;
  rq_version_minor : Z;
  rq_keep_alive : bool;
  rq_chunked : bool
}.
Definition default_request : Request :=
  {| rq_method := "GET"%bs; rq_target := "/"%bs; rq_headers := []; rq_body := [];
     rq_trailers := []; rq_version_minor := 1; rq_keep_alive := true; rq_chunked := false |}.

Record Response := mkResponse {
  rs_status : Z;
  rs_reason : bytes;
  rs_headers : Headers;
  rs_body : bytes;
  rs_trailers : Headers;
  rs_version_minor : Z;
  rs_keep_alive : bool;
  rs_chunked : bool
}.
Definition default_response : Response :=
  {| rs_status := 200; rs_reason := []; rs_headers := []; rs_body := [];
     rs_trailers := []; rs_version_minor := 1; rs_keep_alive := true; rs_chunked := false |}.

#[export] Instance Header_eq_dec : EqDecision Header.
Proof. solve_decision. Defined.
#[export] Instance Request_eq_dec : EqDecision Request.
Proof. solve_decision. Defined.
#[export] Instance Response_eq_dec : EqDecision Response.
Proof. solve_decision. Defined.

(** ** The header list *)

Fixpoint find_header (headers : Headers) (name : bytes) : option bytes :=
  match headers with
  | [] => None
  | h :: hs => if iequals (h_name h) name then Some (h_value h) else find_header hs name
  end.

(** The token loop of [header_contains_token] over one header value. *)
Fixpoint parts_contain (parts : list bytes) (token : bytes) : bool :=
  match parts with
  | [] => false
  | part :: parts' => if iequals (trim_copy part) token then true else parts_contain parts' token
  end.
Fixpoint header_contains_token (headers : Headers) (name token : bytes) : bool :=
  match headers with
  | [] => false
  | h :: hs =>
      if negb (iequals (h_name h) name) then header_contains_token hs name token
      else if parts_contain (visited_parts ","%char (h_value h)) token then true
      else header_contains_token hs name token
  end.

Definition append_header (headers : Headers) (name value : bytes) : Headers :=
  headers ++ [mkHeader name value].

Definition erase_header (headers : Headers) (name : bytes) : Headers :=
  List.filter (fun h => negb (iequals (h_name h) name)) headers.

Definition set_header (headers : Headers) (name value : bytes) : Headers :=
  erase_header headers name ++ [mkHeader name value].

(** A header as picohttpparser returns it: no name for a folded line. *)
Record phr_header := mkPhr { phr_name : option bytes; phr_value : bytes }.

Definition append_to_back (headers : Headers) (v : bytes) : Headers :=
  match last headers with
  | None => headers
  | Some h => removelast headers ++ [mkHeader (h_name h) (h_value h ++ " "%bs ++ v)]
  end.
Fixpoint copy_headers_loop (headers : Headers) (raw : list phr_header) : Headers :=
  match raw with
  | [] => headers
  | r :: raw' =>
      match phr_name r with
      | None => copy_headers_loop (append_to_back headers (phr_value r)) raw'
      | Some n => copy_headers_loop (headers ++ [mkHeader n (phr_value r)]) raw'
      end
  end.
Definition copy_headers (raw : list phr_header) : Headers := copy_headers_loop [] raw.

Fixpoint serialize_headers (headers : Headers) : bytes :=
  match headers with
  | [] => []
  | h :: hs => h_name h ++ ": "%bs ++ h_value h ++ crlf ++ serialize_headers hs
  end.

(** ** Framing *)

Fixpoint parse_content_length_loop (parsed : option Z) (headers : Headers) : result (option Z) :=
  match headers with
  | [] => Ok parsed
  | h :: hs =>
      if negb (iequals (h_name h) "Content-Length"%bs) then parse_content_length_loop parsed hs
      else
        match parse_full W64 10 (trim_copy (h_value h)) with
        | None => Throw (HttpError 400 "invalid Content-Length"%bs)
        | Some current =>
            match parsed with
            | Some p =>
                if decide (p <> current)
                then Throw (HttpError 400 "conflicting Content-Length headers"%bs)
                else parse_content_length_loop (Some current) hs
            | None => parse_content_length_loop (Some current) hs
            end
        end
  end.
Definition parse_content_length (headers : Headers) : result (option Z) :=
  parse_content_length_loop None headers.

Inductive ParsedTransferEncoding := TE_None | TE_Chunked.
#[export] Instance ParsedTransferEncoding_eq_dec : EqDecision ParsedTransferEncoding.
Proof. solve_decision. Defined.

Definition te_duplicate : exn :=
  InvalidArgument "invalid HTTP message: duplicate chunked Transfer-Encoding"%bs.
Definition te_unsupported : exn := InvalidArgument "unsupported Transfer-Encoding"%bs.

(** State: [saw_transfer_encoding], [saw_chunked]. *)
Fixpoint te_parts_loop (parts : list bytes) (st : bool * bool) : result (bool * bool) :=
  match parts with
  | [] => Ok st
  | part :: parts' =>
      let token := trim_copy part in
      match token with
      | [] => te_parts_loop parts' st
      | _ =>
          if iequals token "chunked"%bs then
            if snd st then Throw te_duplicate else te_parts_loop parts' (true, true)
          else Throw te_unsupported
      end
  end.
Fixpoint te_headers_loop (headers : Headers) (st : bool * bool) : result (bool * bool) :=
  match headers with
  | [] => Ok st
  | h :: hs =>
      if negb (iequals (h_name h) "Transfer-Encoding"%bs) then te_headers_loop hs st
      else st' ← te_parts_loop (visited_parts ","%char (h_value h)) st; te_headers_loop hs st'
  end.
Definition parse_transfer_encoding (headers : Headers) : result ParsedTransferEncoding :=
  '(saw_transfer_encoding, saw_chunked) ← te_headers_loop headers (false, false);
  if negb saw_transfer_encoding then Ok TE_None
  else if negb saw_chunked then Throw te_unsupported
  else Ok TE_Chunked.

Definition should_keep_alive (headers : Headers) (version_minor : Z) : bool :=
  if header_contains_token headers "Connection"%bs "close"%bs then false
  else if header_contains_token headers "Connection"%bs "keep-alive"%bs then true
  else 1 <=? version_minor.

Inductive ParsedExpect := Expect_None | Expect_Continue100 | Expect_Unsupported.
#[export] Instance ParsedExpect_eq_dec : EqDecision ParsedExpect.
Proof. solve_decision. Defined.

(** State: [saw_continue], [saw_other]. *)
Fixpoint expect_parts_loop (parts : list bytes) (st : bool * bool) : bool * bool :=
  match parts with
  | [] => st
  | part :: parts' =>
      let token := trim_copy part in
      match token with
      | [] => expect_parts_loop parts' st
      | _ => if iequals token "100-continue"%bs then expect_parts_loop parts' (true, snd st)
             else expect_parts_loop parts' (fst st, true)
      end
  end.
Fixpoint expect_headers_loop (headers : Headers) (st : bool * bool) : bool * bool :=
  match headers with
  | [] => st
  | h :: hs =>
      if negb (iequals (h_name h) "Expect"%bs) then expect_headers_loop hs st
      else expect_headers_loop hs (expect_parts_loop (visited_parts ","%char (h_value h)) st)
  end.
Definition parse_expect (headers : Headers) : ParsedExpect :=
  let '(saw_continue, saw_other) := expect_headers_loop headers (false, false) in
  if saw_other then Expect_Unsupported
  else if saw_continue then Expect_Continue100 else Expect_None.

Definition expects_continue (headers : Headers) : bool :=
  bool_decide (parse_expect headers = Expect_Continue100).

Definition response_has_body (status : Z) (request_method : bytes) : bool :=
  if iequals request_method "HEAD"%bs then false
  else if (100 <=? status) && (status <? 200) then false
  else negb (status =? 204) && negb (status =? 304).

Definition prepare_outgoing_headers (headers : Headers) (keep_alive chunked : bool)
    (body_size : Z) : Headers :=
  let headers := erase_header headers "Connection"%bs in
  let headers := erase_header headers "Content-Length"%bs in
  let headers := erase_header headers "Transfer-Encoding"%bs in
  let headers := set_header headers "Connection"%bs
                   (if keep_alive then "keep-alive"%bs else "close"%bs) in
  if chunked then set_header headers "Transfer-Encoding"%bs "chunked"%bs
  else set_header headers "Content-Length"%bs (to_string body_size).

(** Status line reasons. *)
Definition reason_phrase (status : Z) : bytes :=
  match status with
  | 100 => "Continue" | 101 => "Switching Protocols" | 103 => "Early Hints"
  | 200 => "OK" | 201 => "Created" | 202 => "Accepted" | 204 => "No Content"
  | 301 => "Moved Permanently" | 302 => "Found" | 304 => "Not Modified"
  | 400 => "Bad Request" | 401 => "Unauthorized" | 403 => "Forbidden" | 404 => "Not Found"
  | 405 => "Method Not Allowed" | 408 => "Request Timeout" | 409 => "Conflict"
  | 411 => "Length Required" | 413 => "Payload Too Large" | 414 => "URI Too Long"
  | 415 => "Unsupported Media Type" | 417 => "Expectation Failed" | 418 => "I'm a teapot"
  | 422 => "Unprocessable Content" | 426 => "Upgrade Required" | 429 => "Too Many Requests"
  | 431 => "Request Header Fields Too Large"
  | 500 => "Internal Server Error" | 501 => "Not Implemented" | 502 => "Bad Gateway"
  | 503 => "Service Unavailable" | 504 => "Gateway Timeout"
  | _ => "Unknown"
  end%bs.

(** ** Lemmas: the header list *)

Lemma elem_of_erase_header h headers name :
  h ∈ erase_header headers name <-> h ∈ headers /\ iequals (h_name h) name = false.
Proof. unfold erase_header. rewrite !list_elem_of_In, filter_In, negb_true_iff. done. Qed.

Lemma find_header_app hs1 hs2 name :
  find_header (hs1 ++ hs2) name =
  match find_header hs1 name with Some v => Some v | None => find_header hs2 name end.
Proof.
  induction hs1 as [|h hs1 IH]; simpl; [done|]. destruct (iequals (h_name h) name); done.
Qed.

Lemma find_header_None headers name :
  find_header headers name = None <-> forall h, h ∈ headers -> iequals (h_name h) name = false.
Proof.
  induction headers as [|h hs IH]; simpl.
  - split; [intros _ h Hh; inversion Hh | done].
  - destruct (iequals (h_name h) name) eqn:E.
    + split; [done|]. intros H. rewrite H in E; [done | constructor].
    + rewrite IH. split.
      * intros H h' [->|Hin]%elem_of_cons; [done | by apply H].
      * intros H h' Hin. apply H. by constructor.
Qed.

Lemma find_header_erase_other headers name name' :
  iequals name name' = false ->
  find_header (erase_header headers name) name' = find_header headers name'.
Proof.
  intros Hne. induction headers as [|h hs IH]; simpl; [done|].
  destruct (iequals (h_name h) name) eqn:E; simpl.
  - rewrite IH. destruct (iequals (h_name h) name') eqn:E'; [|done].
    rewrite iequals_sym in E. rewrite (iequals_trans _ _ name' E) in E'. congruence.
  - destruct (iequals (h_name h) name'); [done | apply IH].
Qed.

Lemma set_header_find headers name value name' :
  find_header (set_header headers name value) name' =
  if iequals name name' then Some value else find_header headers name'.
Proof.
  unfold set_header. rewrite find_header_app. simpl.
  destruct (iequals name name') eqn:E.
  - assert (find_header (erase_header headers name) name' = None) as ->; [|done].
    apply find_header_None. intros h Hh. apply elem_of_erase_header in Hh as [_ Hh].
    rewrite iequals_sym in E. rewrite iequals_sym in Hh.
    by rewrite iequals_sym, <- (iequals_trans _ _ (h_name h) E).
  - rewrite find_header_erase_other by done. by destruct (find_header headers name').
Qed.

(** ** Lemmas: tokens of a header *)

(** The non-empty trimmed tokens of one comma-separated value. *)
Definition value_tokens (v : bytes) : list bytes :=
  List.filter (fun t => negb (bool_decide (t = []))) (map trim_copy (visited_parts ","%char v)).

(** The tokens of all headers called [name], in order. *)
Fixpoint header_tokens (headers : Headers) (name : bytes) : list bytes :=
  match headers with
  | [] => []
  | h :: hs =>
      (if iequals (h_name h) name then value_tokens (h_value h) else []) ++ header_tokens hs name
  end.

Definition no_header (headers : Headers) (name : bytes) : Prop :=
  forall h, h ∈ headers -> iequals (h_name h) name = false.

Lemma no_header_cons h hs name :
  no_header (h :: hs) name <-> iequals (h_name h) name = false /\ no_header hs name.
Proof.
  unfold no_header. split.
  - intros H. split; [apply H; constructor | intros h' Hh'; apply H; by constructor].
  - intros [H1 H2] h' [->|Hh']%elem_of_cons; [done | by apply H2].
Qed.

Lemma no_header_app hs1 hs2 name :
  no_header (hs1 ++ hs2) name <-> no_header hs1 name /\ no_header hs2 name.
Proof.
  unfold no_header. setoid_rewrite elem_of_app. naive_solver.
Qed.

Lemma no_header_erase headers name : no_header (erase_header headers name) name.
Proof. intros h Hh. by apply elem_of_erase_header in Hh as [_ Hh]. Qed.

Lemma no_header_erase_other headers name name' :
  no_header headers name' -> no_header (erase_header headers name) name'.
Proof. intros H h Hh. apply elem_of_erase_header in Hh as [Hh _]. by apply H. Qed.

Lemma no_header_set_other headers name value name' :
  iequals name name' = false -> no_header headers name' ->
  no_header (set_header headers name value) name'.
Proof.
  intros Hne H. unfold set_header. rewrite no_header_app. split.
  - by apply no_header_erase_other.
  - apply no_header_cons. split; [done | intros h Hh; inversion Hh].
Qed.

Lemma header_tokens_app hs1 hs2 name :
  header_tokens (hs1 ++ hs2) name = header_tokens hs1 name ++ header_tokens hs2 name.
Proof. induction hs1 as [|h hs1 IH]; simpl; [done|]. by rewrite IH, app_assoc. Qed.

Lemma header_tokens_none headers name : no_header headers name -> header_tokens headers name = [].
Proof.
  induction headers as [|h hs IH]; simpl; [done|].
  rewrite no_header_cons. intros [-> H]. by rewrite IH.
Qed.

Lemma parts_contain_app p1 p2 t :
  parts_contain (p1 ++ p2) t = parts_contain p1 t || parts_contain p2 t.
Proof. induction p1; simpl; [done|]. destruct (iequals _ t); done. Qed.

Lemma parts_contain_tokens parts t :
  t <> [] ->
  parts_contain parts t =
  existsb (fun x => iequals x t) (List.filter (fun t => negb (bool_decide (t = []))) (map trim_copy parts)).
Proof.
  intros Ht. induction parts as [|p ps IH]; simpl; [done|].
  destruct (trim_copy p) as [|x tr] eqn:E; simpl.
  - rewrite <- IH. destruct t; [done|]. reflexivity.
  - rewrite <- IH. by destruct (iequals _ t).
Qed.

Lemma header_contains_token_spec headers name t :
  t <> [] ->
  header_contains_token headers name t = existsb (fun x => iequals x t) (header_tokens headers name).
Proof.
  intros Ht. induction headers as [|h hs IH]; simpl; [done|].
  destruct (iequals (h_name h) name); simpl; [|done].
  rewrite existsb_app, <- IH, (parts_contain_tokens _ t Ht). unfold value_tokens.
  by destruct (existsb _ _).
Qed.

(** ** Lemmas: [Transfer-Encoding] *)

(** What one token does to the pair of flags. *)
Fixpoint te_tokens (ts : list bytes) (st : bool * bool) : result (bool * bool) :=
  match ts with
  | [] => Ok st
  | t :: ts' =>
      if iequals t "chunked"%bs then
        if snd st then Throw te_duplicate else te_tokens ts' (true, true)
      else Throw te_unsupported
  end.

Lemma te_tokens_app ts1 ts2 st : te_tokens (ts1 ++ ts2) st = mbind (te_tokens ts2) (te_tokens ts1 st).
Proof.
  revert st. induction ts1 as [|t ts1 IH]; intros st; simpl; [done|].
  destruct (iequals t _); [|done]. destruct (snd st); [done | apply IH].
Qed.

Lemma te_parts_loop_tokens parts st :
  te_parts_loop parts st =
  te_tokens (List.filter (fun t => negb (bool_decide (t = []))) (map trim_copy parts)) st.
Proof.
  revert st. induction parts as [|p ps IH]; intros st; simpl; [done|].
  destruct (trim_copy p) as [|x tr] eqn:E; simpl; [apply IH|].
  destruct (iequals _ _); [|done]. destruct (snd st); [done | apply IH].
Qed.

Lemma te_headers_loop_tokens headers st :
  te_headers_loop headers st = te_tokens (header_tokens headers "Transfer-Encoding"%bs) st.
Proof.
  revert st. induction headers as [|h hs IH]; intros st; simpl; [done|].
  destruct (iequals (h_name h) _); simpl; [|apply IH].
  rewrite te_tokens_app, te_parts_loop_tokens. unfold value_tokens.
  destruct (te_tokens _ st); simpl; [apply IH | done | done].
Qed.

Lemma te_parse_eq headers :
  parse_transfer_encoding headers =
  match header_tokens headers "Transfer-Encoding"%bs with
  | [] => Ok TE_None
  | [t] => if iequals t "chunked"%bs then Ok TE_Chunked else Throw te_unsupported
  | t :: t' :: _ =>
      if iequals t "chunked"%bs
      then if iequals t' "chunked"%bs then Throw te_duplicate else Throw te_unsupported
      else Throw te_unsupported
  end.
Proof.
  unfold parse_transfer_encoding. rewrite te_headers_loop_tokens.
  destruct (header_tokens headers _) as [|t [|t' ts]]; simpl; [done| |].
  - by destruct (iequals t _).
  - destruct (iequals t _); [|done]. by destruct (iequals t' _).
Qed.

(** ** Lemmas: [Content-Length] *)

(** The trimmed values of the headers called [name]. *)
Definition header_values (headers : Headers) (name : bytes) : list bytes :=
  map (fun h => trim_copy (h_value h)) (List.filter (fun h => iequals (h_name h) name) headers).

Lemma header_values_app hs1 hs2 name :
  header_values (hs1 ++ hs2) name = header_values hs1 name ++ header_values hs2 name.
Proof. unfold header_values. by rewrite List.filter_app, map_app. Qed.

Lemma header_values_none headers name : no_header headers name -> header_values headers name = [].
Proof.
  unfold header_values. induction headers as [|h hs IH]; simpl; [done|].
  rewrite no_header_cons. intros [-> H]. by apply IH.
Qed.

(** The loop over the values alone. *)
Fixpoint cl_values (parsed : option Z) (vs : list bytes) : result (option Z) :=
  match vs with
  | [] => Ok parsed
  | v :: vs' =>
      match parse_full W64 10 v with
      | None => Throw (HttpError 400 "invalid Content-Length"%bs)
      | Some n =>
          match parsed with
          | Some p => if decide (p <> n)
                      then Throw (HttpError 400 "conflicting Content-Length headers"%bs)
                      else cl_values (Some n) vs'
          | None => cl_values (Some n) vs'
          end
      end
  end.

Lemma cl_loop_values parsed headers :
  parse_content_length_loop parsed headers =
  cl_values parsed (header_values headers "Content-Length"%bs).
Proof.
  revert parsed. induction headers as [|h hs IH]; intros parsed; [done|].
  unfold header_values in *. cbn [parse_content_length_loop List.filter].
  destruct (iequals (h_name h) _); cbn [negb map cl_values]; [|apply IH].
  destruct (parse_full _ _ _) as [n|]; [|done].
  destruct parsed as [p|]; [|apply IH]. case_decide; [done | apply IH].
Qed.

Lemma cl_values_spec parsed vs r :
  cl_values parsed vs = Ok r <->
  match r with
  | None => parsed = None /\ vs = []
  | Some n => (parsed = Some n \/ (parsed = None /\ vs <> [])) /\
              Forall (fun v => parse_full W64 10 v = Some n) vs
  end.
Proof.
  revert parsed. induction vs as [|v vs IH]; intros parsed; simpl.
  - split.
    + intros [= <-]. destruct parsed; auto.
    + destruct r; naive_solver.
  - destruct (parse_full W64 10 v) as [n|] eqn:E; [|].
    + destruct parsed as [p|].
      * case_decide as Hp.
        -- split; [done|]. destruct r as [m|]; [|naive_solver].
           rewrite Forall_cons. naive_solver.
        -- subst p. rewrite IH. destruct r as [m|]; [|naive_solver].
           rewrite Forall_cons. naive_solver.
      * rewrite IH. destruct r as [m|]; [|naive_solver].
        rewrite Forall_cons. naive_solver.
    + split; [done|]. destruct r as [m|]; [rewrite Forall_cons; naive_solver | naive_solver].
Qed.

Lemma cl_values_error parsed vs e : cl_values parsed vs = Throw e -> exists m, e = HttpError 400 m.
Proof.
  revert parsed. induction vs as [|v vs IH]; intros parsed; simpl; [done|].
  destruct (parse_full _ _ _); [|intros [= <-]; eauto].
  destruct parsed; [case_decide|]; [intros [= <-]; eauto | apply IH | apply IH].
Qed.

Lemma cl_values_fuel parsed vs : cl_values parsed vs <> OutOfFuel.
Proof.
  revert parsed. induction vs as [|v vs IH]; intros parsed; simpl; [done|].
  destruct (parse_full _ _ _); [|done]. destruct parsed; [case_decide|]; done.
Qed.

(** ** Theorems *)

(** [parse_transfer_encoding] accepts exactly the header lists whose
    [Transfer-Encoding] tokens are absent (no chunking) or the single token
    [chunked]; every other list throws [std::invalid_argument]. *)
Theorem transfer_encoding_exact headers :
  (parse_transfer_encoding headers = Ok TE_None <->
     header_tokens headers "Transfer-Encoding"%bs = []) /\
  (parse_transfer_encoding headers = Ok TE_Chunked <->
     exists t, header_tokens headers "Transfer-Encoding"%bs = [t] /\ iequals t "chunked"%bs = true) /\
  (parse_transfer_encoding headers <> Ok TE_None ->
   parse_transfer_encoding headers <> Ok TE_Chunked ->
   exists what, parse_transfer_encoding headers = Throw (InvalidArgument what)).
Proof.
  rewrite te_parse_eq.
  destruct (header_tokens headers _) as [|t [|t' ts]].
  - split_and!; [done | split; [done | by intros (t & H & _)] | done].
  - destruct (iequals t "chunked"%bs) eqn:E.
    + split_and!; [done | split; [by exists t | done] | done].
    + split_and!; [done | split; [done | intros (t' & [= <-] & H); congruence] |].
      intros _ _. by eexists.
  - split_and!.
    + by destruct (iequals t "chunked"%bs), (iequals t' "chunked"%bs).
    + split; [by destruct (iequals t "chunked"%bs), (iequals t' "chunked"%bs) | by intros (u & H & _)].
    + intros _ _. destruct (iequals t "chunked"%bs), (iequals t' "chunked"%bs); by eexists.
Qed.

(** [parse_content_length] returns [None] exactly when there is no such
    header, returns [n] exactly when there is one and all of them denote [n]
    (which then fits [std::size_t]), and otherwise throws a 400 error. *)
Theorem content_length_exact headers :
  (parse_content_length headers = Ok None <-> header_values headers "Content-Length"%bs = []) /\
  (forall n, parse_content_length headers = Ok (Some n) <->
     header_values headers "Content-Length"%bs <> [] /\
     Forall (fun v => parse_full W64 10 v = Some n) (header_values headers "Content-Length"%bs)) /\
  (forall n, parse_content_length headers = Ok (Some n) -> is_size n) /\
  ((exists r, parse_content_length headers = Ok r) \/
   (exists what, parse_content_length headers = Throw (HttpError 400 what))).
Proof.
  unfold parse_content_length. rewrite cl_loop_values.
  set (vs := header_values headers _).
  split_and!.
  - rewrite cl_values_spec. naive_solver.
  - intros n. rewrite cl_values_spec. naive_solver.
  - intros n H. apply cl_values_spec in H as [[H|[_ H]] Hall]; [done|].
    destruct vs as [|v vs]; [done|]. apply Forall_cons in Hall as [Hv _].
    by apply parse_full_range in Hv.
  - destruct (cl_values None vs) eqn:E.
    + eauto.
    + right. destruct (cl_values_error _ _ _ E) as [m ->]. eauto.
    + by apply cl_values_fuel in E.
Qed.

(** Name comparisons between the three framing headers, by evaluation. *)
Lemma framing_names_distinct :
  iequals "Connection"%bs "Content-Length"%bs = false /\
  iequals "Connection"%bs "Transfer-Encoding"%bs = false /\
  iequals "Content-Length"%bs "Transfer-Encoding"%bs = false /\
  iequals "Transfer-Encoding"%bs "Content-Length"%bs = false /\
  iequals "Content-Length"%bs "Connection"%bs = false /\
  iequals "Transfer-Encoding"%bs "Connection"%bs = false.
Proof. by vm_compute. Qed.

Lemma to_string_trimmed n : 0 <= n -> trimmed (to_string n).
Proof.
  intros Hn. unfold to_string. replace (n <? 0) with false by lia. apply print_base_trimmed; lia.
Qed.

Lemma to_string_parse n : is_size n -> parse_full W64 10 (to_string n) = Some n.
Proof.
  intros Hn. unfold is_size in Hn. unfold to_string.
  replace (n <? 0) with false by lia. apply parse_print; lia.
Qed.

(** What the writer announces, as the library's own parsers read it. *)
Lemma prepare_outgoing_framing headers keep_alive chunked n :
  is_size n ->
  let out := prepare_outgoing_headers headers keep_alive chunked n in
  parse_transfer_encoding out = Ok (if chunked then TE_Chunked else TE_None) /\
  parse_content_length out = Ok (if chunked then None else Some n) /\
  (forall minor, should_keep_alive out minor = keep_alive) /\
  (forall name, iequals "Connection"%bs name = false ->
     iequals "Content-Length"%bs name = false -> iequals "Transfer-Encoding"%bs name = false ->
     find_header out name = find_header headers name).
Proof.
  intros Hn out. destruct framing_names_distinct as (N1 & N2 & N3 & N4 & N5 & N6).
  set (base := erase_header (erase_header (erase_header headers "Connection"%bs)
                 "Content-Length"%bs) "Transfer-Encoding"%bs) in *.
  assert (no_header base "Connection"%bs) as BC.
  { apply no_header_erase_other, no_header_erase_other, no_header_erase. }
  assert (no_header base "Content-Length"%bs) as BL.
  { apply no_header_erase_other, no_header_erase. }
  assert (no_header base "Transfer-Encoding"%bs) as BT by apply no_header_erase.
  set (conn := if keep_alive then "keep-alive"%bs else "close"%bs).
  assert (out = erase_header (set_header base "Connection"%bs conn)
                  (if chunked then "Transfer-Encoding"%bs else "Content-Length"%bs)
                ++ [mkHeader (if chunked then "Transfer-Encoding"%bs else "Content-Length"%bs)
                     (if chunked then "chunked"%bs else to_string n)]) as Hout.
  { unfold out, prepare_outgoing_headers. destruct chunked; done. }
  split_and!.
  - rewrite te_parse_eq, Hout, header_tokens_app, header_tokens_none.
    + destruct chunked; vm_compute; done.
    + apply no_header_erase_other, no_header_set_other; done.
  - unfold parse_content_length.
    rewrite cl_loop_values, Hout, header_values_app, header_values_none.
    + destruct chunked; [done|].
      change (cl_values None ([] ++ [trim_copy (to_string n)]) = Ok (Some n)).
      rewrite trim_copy_id by (apply to_string_trimmed, Hn).
      simpl. by rewrite to_string_parse.
    + apply no_header_erase_other, no_header_set_other; done.
  - intros minor. unfold should_keep_alive. rewrite !header_contains_token_spec by done.
    rewrite Hout, header_tokens_app.
    assert (header_tokens (erase_header (set_header base "Connection"%bs conn)
              (if chunked then "Transfer-Encoding"%bs else "Content-Length"%bs)) "Connection"%bs
            = value_tokens conn) as ->.
    { unfold set_header, erase_header at 1. rewrite List.filter_app, header_tokens_app.
      rewrite header_tokens_none; [by destruct chunked, keep_alive; vm_compute|].
      apply no_header_erase_other, no_header_erase_other. done. }
    destruct chunked, keep_alive; vm_compute; done.
  - intros name H1 H2 H3. unfold out, prepare_outgoing_headers.
    destruct chunked; rewrite !set_header_find, ?H1, ?H2, ?H3, !find_header_erase_other; done.
Qed.

(** the headers the writer emits are unambiguous: whatever the caller put in
    the message, the library's own parsers read back exactly the framing and
    persistence the writer chose, never both framings, and every other header
    keeps its value. *)
Theorem outgoing_framing_read_back headers keep_alive chunked n :
  is_size n ->
  let out := prepare_outgoing_headers headers keep_alive chunked n in
  parse_transfer_encoding out = Ok (if chunked then TE_Chunked else TE_None) /\
  parse_content_length out = Ok (if chunked then None else Some n) /\
  (forall minor, should_keep_alive out minor = keep_alive) /\
  (forall name, iequals "Connection"%bs name = false ->
     iequals "Content-Length"%bs name = false -> iequals "Transfer-Encoding"%bs name = false ->
     find_header out name = find_header headers name).
Proof. apply prepare_outgoing_framing. Qed.

Lemma outgoing_framing_read_back_witness :
  parse_content_length (prepare_outgoing_headers [mkHeader "content-length"%bs "7"%bs] true false 42)
  = Ok (Some 42).
Proof.
  refine (proj1 (proj2 (outgoing_framing_read_back [mkHeader "content-length"%bs "7"%bs] true false 42 _))).
  unfold is_size, W64. lia.
Defined.

(** [set_header] and [erase_header] behave as a case-insensitive map: the
    value just set is the one found under any spelling of its name, and other
    names are unaffected. *)
Theorem set_header_map_law headers name value name' :
  find_header (set_header headers name value) name' =
    (if iequals name name' then Some value else find_header headers name') /\
  find_header (erase_header headers name) name' =
    (if iequals name name' then None else find_header headers name').
Proof.
  split; [apply set_header_find|].
  destruct (iequals name name') eqn:E.
  - apply find_header_None. intros h Hh. apply elem_of_erase_header in Hh as [_ Hh].
    rewrite iequals_sym in E. rewrite iequals_sym in Hh.
    by rewrite iequals_sym, <- (iequals_trans _ _ (h_name h) E).
  - by apply find_header_erase_other.
Qed.
