(* ===== verification/HttpForm.v ===== *)
(** * application/x-www-form-urlencoded (http.cpp)

    Percent-encoding of one value, the form parser and serializer and the
    lookups, with the round-trip theorems in both directions and the error
    behaviour of the decoder. *)

From S2P Require Import Prelude CxxString HttpHeaders.

Local Open Scope Z_scope.

Record FormField := mkField { f_name : bytes; f_value : bytes }.
Abbreviation FormFields := (list FormField).

#[export] Instance FormField_eq_dec : EqDecision FormField.
Proof. solve_decision. Defined.

Definition is_form_urlencoded_content_type (content_type : bytes) : bool :=
  let mime := match find_char ";"%char content_type with
              | None => content_type
              | Some semi => take semi content_type
              end in
  iequals (trim_copy mime) "application/x-www-form-urlencoded"%bs.

(** [hex[d]] for [hex = "0123456789ABCDEF"]. *)
Definition hex_digit (d : Z) : ascii := if d <? 10 then chr (48 + d) else chr (55 + d).

Definition form_safe (ch : ascii) : bool :=
  isalnum ch || bool_decide (ch = "-"%char) || bool_decide (ch = "_"%char)
  || bool_decide (ch = "."%char) || bool_decide (ch = "*"%char).

Definition encode_char (ch : ascii) : bytes :=
  if form_safe ch then [ch]
  else if decide (ch = SP) then ["+"%char]
  else ["%"%char; hex_digit (Z.shiftr (code ch) 4); hex_digit (Z.land (code ch) 15)].

Fixpoint form_urlencode (value : bytes) : bytes :=
  match value with
  | [] => []
  | ch :: value' => encode_char ch ++ form_urlencode value'
  end.

Definition percent_error : exn :=
  InvalidArgument "corouv::http invalid percent-encoding in form value"%bs.

Fixpoint form_urldecode (value : bytes) : result bytes :=
  match value with
  | [] => Ok []
  | ch :: rest =>
      if decide (ch = "+"%char) then cons SP <$> form_urldecode rest
      else if decide (ch <> "%"%char) then cons ch <$> form_urldecode rest
      else
        match rest with
        | h :: l :: rest' =>
            let hi := hex_value h in
            let lo := hex_value l in
            if (hi <? 0) || (lo <? 0) then Throw percent_error
            else cons (chr (Z.lor (Z.shiftl hi 4) lo)) <$> form_urldecode rest'
        | _ => Throw percent_error
        end
  end.

(** The loop of [parse_form_urlencoded] over the tokens between ampersands. *)
Fixpoint parse_form_loop (tokens : list bytes) (fields : FormFields) (max_fields : Z)
    : result FormFields :=
  match tokens with
  | [] => Ok fields
  | token :: tokens' =>
      match token with
      | [] => parse_form_loop tokens' fields max_fields
      | _ =>
          let '(encoded_name, encoded_value) :=
            match find_char "="%char token with
            | None => (token, [])
            | Some eq => (take eq token, drop (S eq) token)
            end in
          name ← form_urldecode encoded_name;
          value ← form_urldecode encoded_value;
          let fields' := fields ++ [mkField name value] in
          if max_fields <? size_of fields'
          then Throw (RuntimeError "corouv::http too many form fields"%bs)
          else parse_form_loop tokens' fields' max_fields
      end
  end.
Definition parse_form_urlencoded (body : bytes) (max_fields : Z) : result FormFields :=
  parse_form_loop (all_tokens "&"%char body) [] max_fields.

Definition parse_form_urlencoded_request (request : Request) (max_fields : Z) : result FormFields :=
  match find_header (rq_headers request) "Content-Type"%bs with
  | None => Throw (RuntimeError "corouv::http request missing Content-Type header"%bs)
  | Some content_type =>
      if negb (is_form_urlencoded_content_type content_type)
      then Throw (RuntimeError "corouv::http request Content-Type is not application/x-www-form-urlencoded"%bs)
      else parse_form_urlencoded (rq_body request) max_fields
  end.

Fixpoint serialize_form_loop (first : bool) (fields : FormFields) : bytes :=
  match fields with
  | [] => []
  | field :: fields' =>
      (if negb first then ["&"%char] else []) ++
      form_urlencode (f_name field) ++ "="%char :: form_urlencode (f_value field) ++
      serialize_form_loop false fields'
  end.
Definition serialize_form_urlencoded (fields : FormFields) : bytes := serialize_form_loop true fields.

Fixpoint find_form_value (fields : FormFields) (name : bytes) : option bytes :=
  match fields with
  | [] => None
  | field :: fields' =>
      if decide (f_name field = name) then Some (f_value field) else find_form_value fields' name
  end.

Fixpoint find_form_values (fields : FormFields) (name : bytes) : list bytes :=
  match fields with
  | [] => []
  | field :: fields' =>
      if decide (f_name field = name) then f_value field :: find_form_values fields' name
      else find_form_values fields' name
  end.

(** ** Lemmas *)

Lemma encode_char_decode c rest :
  form_urldecode (encode_char c ++ rest) = cons c <$> form_urldecode rest.
Proof. destruct c as [[] [] [] [] [] [] [] []]; reflexivity. Qed.

Lemma encode_char_clean c : "&"%char ∉ encode_char c /\ "="%char ∉ encode_char c.
Proof.
  rewrite !list_elem_of_In. destruct c as [[] [] [] [] [] [] [] []]; vm_compute; intuition discriminate.
Qed.

Lemma encode_char_alphabet c :
  Forall (fun c => form_safe c = true \/ c = "+"%char \/ c = "%"%char) (encode_char c).
Proof.
  assert (forallb (fun c => form_safe c || bool_decide (c = "+"%char) || bool_decide (c = "%"%char))
            (encode_char c) = true) as H.
  { destruct c as [[] [] [] [] [] [] [] []]; reflexivity. }
  rewrite forallb_forall in H. apply Forall_forall. intros x Hx%list_elem_of_In%H.
  rewrite !orb_true_iff, !bool_decide_eq_true in Hx. tauto.
Qed.

Lemma form_urlencode_clean s : "&"%char ∉ form_urlencode s /\ "="%char ∉ form_urlencode s.
Proof.
  induction s as [|c s [IH1 IH2]]; simpl.
  - split; apply not_elem_of_nil.
  - destruct (encode_char_clean c). rewrite !not_elem_of_app. done.
Qed.

Lemma urldecode_urlencode s : form_urldecode (form_urlencode s) = Ok s.
Proof.
  induction s as [|c s IH]; [done|]. cbn [form_urlencode].
  rewrite encode_char_decode, IH. done.
Qed.

(** The token a field is written as. *)
Definition field_token (f : FormField) : bytes :=
  form_urlencode (f_name f) ++ "="%char :: form_urlencode (f_value f).

Lemma field_token_ne f : field_token f <> [].
Proof. unfold field_token. by destruct (form_urlencode (f_name f)). Qed.

Lemma field_token_clean f : "&"%char ∉ field_token f.
Proof.
  unfold field_token. rewrite not_elem_of_app, not_elem_of_cons.
  destruct (form_urlencode_clean (f_name f)), (form_urlencode_clean (f_value f)). done.
Qed.

Lemma serialize_form_join fields :
  serialize_form_urlencoded fields = join_with "&"%char (map field_token fields).
Proof.
  unfold serialize_form_urlencoded.
  assert (forall fs, serialize_form_loop false fs =
            match fs with [] => [] | _ => "&"%char :: join_with "&"%char (map field_token fs) end) as Hl.
  { induction fs as [|f fs IH]; [done|]. simpl. rewrite IH. unfold field_token.
    destruct fs; simpl; [by rewrite app_nil_r | by rewrite <- !app_assoc]. }
  destruct fields as [|f fs]; [done|]. simpl. rewrite Hl. unfold field_token.
  destruct fs; simpl; [by rewrite app_nil_r | by rewrite <- !app_assoc].
Qed.

Lemma parse_form_loop_tokens fields acc max :
  size_of acc + size_of fields <= max ->
  parse_form_loop (map field_token fields) acc max = Ok (acc ++ fields).
Proof.
  revert acc. induction fields as [|f fs IH]; intros acc Hmax; simpl.
  - by rewrite app_nil_r.
  - destruct (field_token f) as [|x tk] eqn:E; [by apply field_token_ne in E|].
    rewrite <- E. unfold field_token.
    destruct (form_urlencode_clean (f_name f)) as [_ Hn].
    rewrite find_char_app, take_app_length, drop_past, !urldecode_urlencode by done. simpl.
    assert (size_of (acc ++ [mkField (f_name f) (f_value f)]) = size_of acc + 1) as Hs.
    { rewrite size_of_app. done. }
    assert (size_of (f :: fs) = 1 + size_of fs) as Hs' by (unfold size_of; simpl; lia).
    replace (max <? size_of (acc ++ [mkField (f_name f) (f_value f)])) with false.
    + rewrite IH; [rewrite <- app_assoc; by destruct f|]. rewrite Hs. lia.
    + symmetry. apply Z.ltb_ge. pose proof (size_of_nonneg fs). lia.
Qed.

(** ** Theorems *)

(** decoding an encoded form value gives back every byte string, including
    the ones with reserved, non-printing and non-ASCII bytes. *)
Theorem form_urlencode_roundtrip s : form_urldecode (form_urlencode s) = Ok s.
Proof. apply urldecode_urlencode. Qed.

(** the encoder's output only contains bytes that may stand in a form body:
    letters, digits, [- _ . *], [+] and [%]. *)
Theorem form_urlencode_alphabet s :
  Forall (fun c => form_safe c = true \/ c = "+"%char \/ c = "%"%char) (form_urlencode s).
Proof.
  induction s as [|c s IH]; simpl; [constructor|]. apply Forall_app. split; [|done].
  apply encode_char_alphabet.
Qed.

(** a form that respects the field limit survives serialization and parsing
    unchanged: same fields, same order, empty names and values included. *)
Theorem form_roundtrip fields max_fields :
  size_of fields <= max_fields ->
  parse_form_urlencoded (serialize_form_urlencoded fields) max_fields = Ok fields.
Proof.
  intros H. rewrite serialize_form_join. unfold parse_form_urlencoded.
  destruct fields as [|f fs]; [done|].
  rewrite all_tokens_join.
  - rewrite parse_form_loop_tokens; [done | exact H].
  - done.
  - apply Forall_map, Forall_forall. intros g _. apply field_token_clean.
Qed.

Lemma form_roundtrip_witness :
  size_of [mkField "a b"%bs "1&2=3"%bs; mkField ""%bs ""%bs] <= 2 /\
  parse_form_urlencoded
    (serialize_form_urlencoded [mkField "a b"%bs "1&2=3"%bs; mkField ""%bs ""%bs]) 2
  = Ok [mkField "a b"%bs "1&2=3"%bs; mkField ""%bs ""%bs].
Proof. split; [vm_compute; done | apply form_roundtrip; vm_compute; done]. Defined.

(** the parser never returns more fields than its limit. *)
Theorem form_field_limit body max_fields fields :
  0 <= max_fields -> parse_form_urlencoded body max_fields = Ok fields -> size_of fields <= max_fields.
Proof.
  unfold parse_form_urlencoded. intros Hm.
  assert (forall toks acc, size_of acc <= max_fields ->
            parse_form_loop toks acc max_fields = Ok fields -> size_of fields <= max_fields) as H.
  { induction toks as [|t toks IH]; intros acc Hacc; simpl; [by intros [= <-]|].
    destruct t as [|x t]; [by apply IH|].
    destruct (match find_char _ _ with Some _ => _ | None => _ end) as [en ev].
    intros H. inv_result. destruct (Z.ltb_spec max_fields (size_of (acc ++ [mkField a a0]))) as [|Hle];
      [done|]. by eapply IH. }
  apply H. done.
Qed.

Lemma form_field_limit_witness :
  0 <= 3 /\ parse_form_urlencoded "a=1&b=2"%bs 3 = Ok [mkField "a"%bs "1"%bs; mkField "b"%bs "2"%bs] /\
  size_of [mkField "a"%bs "1"%bs; mkField "b"%bs "2"%bs] <= 3.
Proof.
  split; [done|]. split; [vm_compute; reflexivity|].
  apply (form_field_limit "a=1&b=2"%bs 3); [done | vm_compute; reflexivity].
Defined.
