(* ===== verification/HttpUrl.v ===== *)
(** * URLs and endpoints (http.cpp [parse_url], [format_host_header]; net.cpp
    [to_string])

    Parsing of [http://] and [https://] URLs, the printing of endpoints and
    [Host] headers, the well-formedness of every parsed URL and the round trip
    between printing an endpoint in a URL and parsing it. *)

From S2P Require Import Prelude CxxString.

Local Open Scope Z_scope.

Record Endpoint := mkEndpoint { ep_host : bytes; ep_port : Z }.

(** [net::to_string(const Endpoint&)] *)
Definition endpoint_to_string (e : Endpoint) : bytes :=
  match find_char ":"%char (ep_host e) with
  | Some _ => "["%bs ++ ep_host e ++ "]:"%bs ++ to_string (ep_port e)
  | None => ep_host e ++ ":"%bs ++ to_string (ep_port e)
  end.

Definition format_host_header (host : bytes) (port : Z) : bytes :=
  let bracket := bool_decide (find_char ":"%char host <> None) in
  if port =? 80 then (if bracket then "["%bs ++ host ++ "]"%bs else host)
  else endpoint_to_string (mkEndpoint host port).

Record Url := mkUrl { u_scheme : bytes; u_host : bytes; u_port : Z; u_target : bytes }.
#[export] Instance Url_eq_dec : EqDecision Url.
Proof. solve_decision. Defined.

Definition url_error (m : bytes) {A} : result A := Throw (InvalidArgument m).

(** [std::from_chars] into an [unsigned int], then the range check and the
    cast to [std::uint16_t]. *)
Definition parse_url_port (port_text : bytes) : result Z :=
  match parse_full (2 ^ 32) 10 port_text with
  | Some p => if 65535 <? p then url_error "corouv::http::parse_url invalid port"%bs else Ok p
  | None => url_error "corouv::http::parse_url invalid port"%bs
  end.

(** The authority: host and, when given, port. *)
Definition parse_authority (authority : bytes) : result (bytes * option Z) :=
  match authority with
  | [] => url_error "corouv::http::parse_url missing host"%bs
  | c :: _ =>
      if decide (c = "["%char) then
        match find_char "]"%char authority with
        | None => url_error "corouv::http::parse_url invalid IPv6 host"%bs
        | Some close =>
            let host := substr 1 (close - 1) authority in
            match authority !! S close with
            | None => Ok (host, None)
            | Some d =>
                if decide (d <> ":"%char) then url_error "corouv::http::parse_url invalid authority"%bs
                else p ← parse_url_port (drop (close + 2) authority); Ok (host, Some p)
            end
        end
      else
        match rfind_char ":"%char authority with
        | None => Ok (authority, None)
        | Some colon =>
            if decide (find_char ":"%char authority = rfind_char ":"%char authority) then
              p ← parse_url_port (drop (S colon) authority);
              Ok (take colon authority, Some p)
            else Ok (authority, None)
        end
  end.

Definition parse_target (remainder : bytes) : bytes :=
  match remainder with
  | [] => "/"%bs
  | c :: _ =>
      if decide (c = "#"%char) then "/"%bs
      else
        let without_fragment := match find_char "#"%char remainder with
                                | None => remainder
                                | Some hash => take hash remainder
                                end in
        match without_fragment with
        | d :: _ => if decide (d = "?"%char) then "/"%char :: without_fragment else without_fragment
        | [] => []  (* front() of an empty view: unreachable, remainder starts with / or ? *)
        end
  end.

(** What follows the scheme. *)
Definition parse_after_scheme (scheme : bytes) (default_port : Z) (remainder : bytes) : result Url :=
  let authority_end := find_first_of "/?#"%bs remainder in
  let authority := match authority_end with None => remainder | Some i => take i remainder end in
  let remainder := match authority_end with None => [] | Some i => drop i remainder end in
  '(host, port) ← parse_authority authority;
  match host with
  | [] => url_error "corouv::http::parse_url missing host"%bs
  | _ => Ok (mkUrl scheme host (default default_port port) (parse_target remainder))
  end.

Definition parse_url (url : bytes) : result Url :=
  if starts_with "http://"%bs url then parse_after_scheme "http"%bs 80 (drop 7 url)
  else if starts_with "https://"%bs url then parse_after_scheme "https"%bs 443 (drop 8 url)
  else url_error "corouv::http::parse_url only supports http:// and https://"%bs.

(** ** Lemmas *)

Lemma parse_url_port_range t p : parse_url_port t = Ok p -> 0 <= p <= 65535.
Proof.
  unfold parse_url_port. destruct (parse_full _ _ _) as [q|] eqn:E; [|done].
  apply parse_full_range in E; [|lia].
  destruct (Z.ltb_spec 65535 q); [done|]. intros [= <-]. lia.
Qed.

Lemma parse_url_port_print p : 0 <= p <= 65535 -> parse_url_port (to_string p) = Ok p.
Proof.
  intros Hp. unfold parse_url_port, to_string. replace (p <? 0) with false by lia.
  rewrite parse_print by lia. by replace (65535 <? p) with false by lia.
Qed.

Lemma parse_authority_port a host p : parse_authority a = Ok (host, Some p) -> 0 <= p <= 65535.
Proof.
  unfold parse_authority. destruct a as [|c a]; [done|].
  case_decide.
  - destruct (find_char "]"%char _); [|done]. destruct (_ !! _); [|done].
    case_decide; [done|]. intros H1. inv_result. by eapply parse_url_port_range.
  - destruct (rfind_char _ _); [|done]. case_decide; [|done].
    intros H1. inv_result. by eapply parse_url_port_range.
Qed.

Lemma parse_target_slash remainder :
  (remainder = [] \/ exists x rest, remainder = x :: rest /\ x ∈ "/?#"%bs) ->
  exists t, parse_target remainder = "/"%char :: t.
Proof.
  intros [->|(x & rest & -> & Hx)]; [by eexists|]. unfold parse_target.
  case_decide as Hh; [by eexists|]. simpl. rewrite decide_False by done.
  assert (x = "/"%char \/ x = "?"%char) as [-> | ->].
  { rewrite !elem_of_cons in Hx. destruct Hx as [->|[->|[->|Hx]]]; [auto | auto | done | inversion Hx]. }
  - destruct (find_char "#"%char rest); simpl; by eexists.
  - destruct (find_char "#"%char rest); simpl; by eexists.
Qed.

Lemma parse_target_id target :
  "#"%char ∉ target -> parse_target ("/"%char :: target) = "/"%char :: target.
Proof.
  intros Ht. unfold parse_target.
  replace (find_char "#"%char ("/"%char :: target)) with (@None nat); [done|].
  symmetry. apply find_char_None. rewrite not_elem_of_cons. done.
Qed.

Lemma parse_target_no_fragment remainder : "#"%char ∉ parse_target remainder.
Proof.
  unfold parse_target. destruct remainder as [|c r]; [rewrite not_elem_of_cons; split; [done | apply not_elem_of_nil]|].
  case_decide; [rewrite not_elem_of_cons; split; [done | apply not_elem_of_nil]|].
  destruct (find_char "#"%char (c :: r)) as [i|] eqn:E.
  - apply find_char_Some in E as [E _]. destruct (take i (c :: r)) as [|d w]; [apply not_elem_of_nil|].
    case_decide; [|done]. rewrite not_elem_of_cons. done.
  - apply find_char_None in E. case_decide; [|done]. rewrite not_elem_of_cons. done.
Qed.

Lemma digits_clean base n c :
  1 < base <= 16 -> 0 <= n -> digit_in base c = None -> c ∉ print_base base n.
Proof.
  intros Hb Hn Hc Hin. destruct (print_base_digits base n Hb Hn) as (_ & Hall & _).
  rewrite Forall_forall in Hall. apply Hall in Hin as [d Hd]. congruence.
Qed.

Lemma to_string_clean n c : 0 <= n -> digit_in 10 c = None -> c ∉ to_string n.
Proof.
  intros Hn Hc. unfold to_string. replace (n <? 0) with false by lia. apply digits_clean; done || lia.
Qed.

(** Bytes that may not stand in a host. *)
Definition host_ok (host : bytes) : Prop :=
  host <> [] /\ Forall (fun c => c ∉ "/?#"%bs) host /\
  (":"%char ∈ host -> "]"%char ∉ host) /\
  (":"%char ∉ host -> forall r, host <> "["%char :: r).

Lemma parse_authority_endpoint host port :
  host_ok host -> 0 <= port <= 65535 ->
  parse_authority (endpoint_to_string (mkEndpoint host port)) = Ok (host, Some port).
Proof.
  intros (Hne & _ & Hbr & Hfst) Hp. unfold endpoint_to_string. simpl ep_host. simpl ep_port.
  destruct (find_char ":"%char host) as [i|] eqn:E.
  - assert ("]"%char ∉ host) as Hclose.
    { apply Hbr. apply find_char_Some in E as [_ E]. rewrite E.
      apply elem_of_app. right. constructor. }
    unfold parse_authority. cbn [app]. rewrite decide_True by done.
    change ("["%char :: host ++ "]"%char :: ":"%char :: to_string port)
      with (("["%char :: host) ++ "]"%char :: ":"%char :: to_string port).
    rewrite find_char_app by (rewrite not_elem_of_cons; done).
    replace ((("["%char :: host) ++ "]"%char :: ":"%char :: to_string port) !! S (length ("["%char :: host)))
      with (Some ":"%char).
    + rewrite decide_False by naive_solver.
      replace (drop (length ("["%char :: host) + 2) (("["%char :: host) ++ "]"%char :: ":"%char :: to_string port))
        with (to_string port).
      * rewrite parse_url_port_print by done. cbn [mbind result_bind]. unfold substr.
        cbn [length app drop]. replace (S (length host) - 1)%nat with (length host) by lia.
        by rewrite drop_0, take_app_length.
      * rewrite drop_app_ge by lia.
        by replace (length ("["%char :: host) + 2 - length ("["%char :: host))%nat with 2%nat by lia.
    + rewrite lookup_app_r by lia.
      by replace (S (length ("["%char :: host)) - length ("["%char :: host))%nat with 1%nat by lia.
  - apply find_char_None in E. destruct host as [|c host]; [done|].
    unfold parse_authority. cbn [app]. rewrite decide_False by (intros ->; by apply (Hfst E host)).
    change (c :: host ++ ":"%char :: to_string port) with ((c :: host) ++ ":"%char :: to_string port).
    rewrite rfind_char_app by (apply to_string_clean; [lia | done]).
    rewrite find_char_app by done. rewrite decide_True by done.
    rewrite drop_past, parse_url_port_print, take_app_length by done. done.
Qed.

Lemma endpoint_to_string_clean host port :
  host_ok host -> 0 <= port <= 65535 ->
  Forall (fun c => c ∉ "/?#"%bs) (endpoint_to_string (mkEndpoint host port)).
Proof.
  intros (_ & Hh & _) Hp. unfold endpoint_to_string. simpl.
  assert (Forall (fun c => c ∉ "/?#"%bs) (to_string port)) as Ht.
  { apply Forall_forall. intros c Hc Hs. unfold to_string in Hc.
    replace (port <? 0) with false in Hc by lia.
    destruct (print_base_digits 10 port) as (_ & Hall & _); [lia | lia |].
    rewrite Forall_forall in Hall. apply Hall in Hc as [d Hd].
    rewrite !elem_of_cons in Hs.
    destruct Hs as [->|[->|[->|Hs]]]; [done | done | done | inversion Hs]. }
  assert (forall c, c = "["%char \/ c = "]"%char \/ c = ":"%char -> c ∉ "/?#"%bs) as Hsep.
  { intros c Hc Hs. rewrite !elem_of_cons in Hs.
    destruct Hs as [->|[->|[->|Hs]]]; [naive_solver | naive_solver | naive_solver | inversion Hs]. }
  destruct (find_char _ host); rewrite ?Forall_cons, Forall_app, ?Forall_cons; split_and!;
    try done; apply Hsep; tauto.
Qed.

Lemma parse_authority_error a e : parse_authority a = Throw e -> exists what, e = InvalidArgument what.
Proof.
  unfold parse_authority, parse_url_port, url_error.
  repeat (case_match; simplify_eq/=; eauto); intros E; simplify_eq; eauto.
Qed.

Lemma parse_authority_fuel a : parse_authority a <> OutOfFuel.
Proof.
  unfold parse_authority, parse_url_port, url_error. repeat (case_match; simplify_eq/=; try done).
Qed.

(** What [parse_url] promises of a result. *)
Definition url_ok (r : result Url) : Prop :=
  match r with
  | Ok u => (u_scheme u = "http"%bs \/ u_scheme u = "https"%bs) /\ u_host u <> [] /\
            0 <= u_port u <= 65535 /\ (exists t, u_target u = "/"%char :: t) /\ "#"%char ∉ u_target u
  | Throw e => exists what, e = InvalidArgument what
  | OutOfFuel => False
  end.

Lemma parse_after_scheme_ok scheme dport remainder :
  scheme = "http"%bs \/ scheme = "https"%bs -> 0 <= dport <= 65535 ->
  url_ok (parse_after_scheme scheme dport remainder).
Proof.
  intros Hs Hd. unfold parse_after_scheme.
  destruct (parse_authority _) as [[host port]|e|] eqn:E; simpl.
  - destruct host as [|c host]; simpl; [by eexists|].
    assert (0 <= default dport port <= 65535) as Hport.
    { destruct port as [p|]; simpl; [by apply parse_authority_port in E | done]. }
    split_and!; try done; try lia.
    + apply parse_target_slash. destruct (find_first_of _ remainder) as [i|] eqn:F; [right|by left].
      apply find_first_of_Some in F as (x & rest & F & Hx). eauto.
    + apply parse_target_no_fragment.
  - by apply parse_authority_error in E.
  - by apply parse_authority_fuel in E.
Qed.

Lemma parse_url_scheme scheme rest :
  scheme = "http"%bs \/ scheme = "https"%bs ->
  exists dport, parse_url (scheme ++ "://"%bs ++ rest) = parse_after_scheme scheme dport rest.
Proof. intros [-> | ->]; by eexists. Qed.

Lemma parse_url_ok url : url_ok (parse_url url).
Proof.
  unfold parse_url. destruct (starts_with "http://"%bs url); [apply parse_after_scheme_ok; [auto | lia]|].
  destruct (starts_with "https://"%bs url); [apply parse_after_scheme_ok; [auto | lia] | by eexists].
Qed.

(** ** Theorems *)

(** C16: every URL [parse_url] accepts has scheme [http] or [https], a non-empty
    host, a 16-bit port and an origin-form target that starts with a slash and
    carries no fragment; it fails only with [std::invalid_argument]. *)
Theorem parse_url_wellformed url : url_ok (parse_url url).
Proof. apply parse_url_ok. Qed.

(** a URL built from a scheme, an endpoint as [net::to_string] prints it
    (bracketing IPv6 hosts) and an origin-form target parses back to exactly
    that scheme, host, port and target. *)
Theorem parse_url_roundtrip scheme host port target :
  scheme = "http"%bs \/ scheme = "https"%bs -> host_ok host -> 0 <= port <= 65535 ->
  "#"%char ∉ target ->
  parse_url (scheme ++ "://"%bs ++ endpoint_to_string (mkEndpoint host port) ++ "/"%char :: target)
  = Ok (mkUrl scheme host port ("/"%char :: target)).
Proof.
  intros Hs Hh Hp Ht.
  set (ep := endpoint_to_string (mkEndpoint host port)).
  destruct (parse_url_scheme scheme (ep ++ "/"%char :: target) Hs) as [dport ->].
  unfold parse_after_scheme.
  rewrite find_first_of_app; [|by apply endpoint_to_string_clean | constructor].
  rewrite take_app_length, drop_app_length. unfold ep.
  rewrite parse_authority_endpoint, parse_target_id by done.
  by destruct host as [|c host]; [destruct Hh|].
Qed.

Lemma parse_url_roundtrip_witness :
  parse_url ("https"%bs ++ "://"%bs ++ endpoint_to_string (mkEndpoint "::1"%bs 8443) ++ "/"%char :: "a?b"%bs)
  = Ok (mkUrl "https"%bs "::1"%bs 8443 "/a?b"%bs).
Proof.
  apply (parse_url_roundtrip "https"%bs "::1"%bs 8443 "a?b"%bs).
  - by right.
  - split_and!.
    + discriminate.
    + apply find_first_of_None. vm_compute. reflexivity.
    + intros _. apply find_char_None. vm_compute. reflexivity.
    + intros _ r H. discriminate.
  - lia.
  - apply find_char_None. vm_compute. reflexivity.
Defined.
