(* ===== verification/Stream.v ===== *)
(** * Byte streams, the connection state and its monad (io.h, http.h, timeout.h)

    [ByteStream] is the interface [io::ByteStream] gives its clients
    (io.h, [ByteStream::Concept]): [recv_some], [send_all], [close] and
    [is_open].  Whether a timer of so many milliseconds beats the next
    operation is a question to the environment (libuv and async_simple),
    [recv_expires] and [send_expires].  [LiveStream] states what the HTTP
    theorems rely on: [recv_some] hands out the incoming bytes in order, at
    most as many as asked, and nothing only at end of stream; a closed stream
    is not open.  [ReliableStream] adds that all the peer's bytes are on their
    way, so that reads never wait.  [script] is a
    stream whose peer sends given segments; it discharges the laws.

    [conn] is the state of [http::Connection] (stream, buffer, offset,
    prefetched response) together with the state [K] of the caller's body
    callbacks; [M] is the state and exception monad of its coroutines. *)

From S2P Require Import Prelude CxxString HttpHeaders.

Local Open Scope Z_scope.

(** ** The stream interface *)

Class ByteStream (S : Type) := {
  bs_is_open : S -> bool;
  bs_recv_some : Z -> S -> result bytes * S;
  bs_send_all : bytes -> S -> result unit * S;
  bs_close : S -> S;
  bs_recv_expires : Z -> S -> bool;
  bs_send_expires : Z -> S -> bool
}.

(** What a peer at the other end may do: [bs_incoming] is what it has sent and
    nobody has received yet, [bs_sent] what was sent to it, [bs_ended] says
    that it will send no more.  A receive hands out incoming bytes in order;
    with none there it returns only when the peer has ended, with nothing.  A
    stream may count the bytes it has handed out ([bs_handed]).  What a send
    makes the peer say is left open. *)
Class LiveStream (S : Type) `{ByteStream S} := {
  bs_incoming : S -> bytes;
  bs_sent : S -> bytes;
  bs_ended : S -> Prop;
  bs_handed : S -> option nat;
  recv_ok : forall cap s, bs_is_open s = true -> 0 < cap -> bs_incoming s <> [] \/ bs_ended s ->
    exists d s', bs_recv_some cap s = (Ok d, s') /\ bs_is_open s' = true /\
      bs_incoming s = d ++ bs_incoming s' /\ size_of d <= cap /\
      (d = [] -> bs_incoming s = []) /\ bs_sent s' = bs_sent s /\
      bs_handed s' = Nat.add (length d) <$> bs_handed s;
  send_ok : forall data s, bs_is_open s = true ->
    exists s', bs_send_all data s = (Ok tt, s') /\ bs_is_open s' = true /\
      bs_sent s' = bs_sent s ++ data /\ bs_handed s' = bs_handed s;
  close_ok : forall s, bs_is_open (bs_close s) = false /\ bs_sent (bs_close s) = bs_sent s;
  recv_prompt : forall d s, bs_recv_expires d s = false;
  send_prompt : forall d s, bs_send_expires d s = false
}.

(** A peer whose bytes are all on their way: it says nothing more, whatever it
    is sent, and has ended behind what is incoming. *)
Class ReliableStream (S : Type) `{ByteStream S} := {
  #[global] reliable_live :: LiveStream S;
  peer_ended : forall s, bs_ended s;
  send_keeps : forall data s, bs_is_open s = true -> bs_incoming (snd (bs_send_all data s)) = bs_incoming s
}.

Lemma recv_reliable {S} `{ReliableStream S} cap s :
  bs_is_open s = true -> 0 < cap ->
  exists d s', bs_recv_some cap s = (Ok d, s') /\ bs_is_open s' = true /\
    bs_incoming s = d ++ bs_incoming s' /\ size_of d <= cap /\
    (d = [] -> bs_incoming s = []) /\ bs_sent s' = bs_sent s.
Proof.
  intros Ho Hc. destruct (recv_ok cap s Ho Hc (or_intror (peer_ended s))) as (d & s' & E1 & E2 & E3 & E4 & E5 & E6 & _).
  exists d, s'. by split_and!.
Qed.

Lemma send_reliable {S} `{ReliableStream S} data s :
  bs_is_open s = true ->
  exists s', bs_send_all data s = (Ok tt, s') /\ bs_is_open s' = true /\
    bs_incoming s' = bs_incoming s /\ bs_sent s' = bs_sent s ++ data.
Proof.
  intros Ho. pose proof (send_keeps data s Ho) as Hk. destruct (send_ok data s Ho) as (s' & E & E1 & E2 & _).
  exists s'. rewrite E in Hk. by split_and!.
Qed.

(** A stream is reliable when its reads and writes keep to what is incoming
    and sent. *)
Definition reliable_stream {S} `{ByteStream S} (incoming sent : S -> bytes)
    (recv : forall cap s, bs_is_open s = true -> 0 < cap ->
       exists d s', bs_recv_some cap s = (Ok d, s') /\ bs_is_open s' = true /\
         incoming s = d ++ incoming s' /\ size_of d <= cap /\ (d = [] -> incoming s = []) /\ sent s' = sent s)
    (send : forall data s, bs_is_open s = true ->
       exists s', bs_send_all data s = (Ok tt, s') /\ bs_is_open s' = true /\
         incoming s' = incoming s /\ sent s' = sent s ++ data)
    (close : forall s, bs_is_open (bs_close s) = false /\ sent (bs_close s) = sent s)
    (recv_never : forall d s, bs_recv_expires d s = false) (send_never : forall d s, bs_send_expires d s = false) :
  ReliableStream S.
Proof.
  unshelve refine {| reliable_live := {| bs_incoming := incoming; bs_sent := sent; bs_ended _ := True; bs_handed _ := None |} |}.
  - intros cap s Ho Hc _. destruct (recv cap s Ho Hc) as (d & s' & E1 & E2 & E3 & E4 & E5 & E6). exists d, s'. by split_and!.
  - intros data s Ho. destruct (send data s Ho) as (s' & E1 & E2 & E3 & E4). exists s'. by split_and!.
  - exact close.
  - exact recv_never.
  - exact send_never.
  - done.
  - intros data s Ho. simpl. destruct (send data s Ho) as (s' & -> & E2 & E3 & E4). done.
Defined.

(** ** Connection state *)

Record conn (S K : Type) := mkConn {
  c_stream : S;
  c_buffer : bytes;          (* _buffer *)
  c_offset : Z;              (* _buffer_offset *)
  c_prefetched : option Response;
  c_env : K                  (* what the body callbacks keep *)
}.
Arguments mkConn {S K} _ _ _ _ _.
Arguments c_stream {S K} _.
Arguments c_buffer {S K} _.
Arguments c_offset {S K} _.
Arguments c_prefetched {S K} _.
Arguments c_env {S K} _.

Record IoTimeouts := mkTimeouts {
  t_read_headers : option Z;
  t_read_body : option Z;
  t_write : option Z
}.
Definition no_timeouts : IoTimeouts := mkTimeouts None None None.

(** ** The monad *)

Definition M (S K A : Type) : Type := conn S K -> result A * conn S K.

Section Monad.
Context {S K : Type}.

Definition m_ret {A} (a : A) : M S K A := fun c => (Ok a, c).
Definition m_throw {A} (e : exn) : M S K A := fun c => (Throw e, c).
Definition m_fuel {A} : M S K A := fun c => (OutOfFuel, c).
Definition m_bind {A B} (m : M S K A) (f : A -> M S K B) : M S K B := fun c =>
  match m c with
  | (Ok a, c') => f a c'
  | (Throw e, c') => (Throw e, c')
  | (OutOfFuel, c') => (OutOfFuel, c')
  end.
Definition m_lift {A} (r : result A) : M S K A := fun c => (r, c).
Definition m_get {A} (f : conn S K -> A) : M S K A := fun c => (Ok (f c), c).
Definition m_try {A} (m : M S K A) (h : exn -> M S K A) : M S K A := fun c =>
  match m c with
  | (Throw e, c') => h e c'
  | r => r
  end.

Definition set_stream (s : S) (c : conn S K) : conn S K :=
  mkConn s (c_buffer c) (c_offset c) (c_prefetched c) (c_env c).
Definition set_buffer (b : bytes) (o : Z) (c : conn S K) : conn S K :=
  mkConn (c_stream c) b o (c_prefetched c) (c_env c).
Definition set_prefetched (p : option Response) (c : conn S K) : conn S K :=
  mkConn (c_stream c) (c_buffer c) (c_offset c) p (c_env c).
Definition set_env (k : K) (c : conn S K) : conn S K :=
  mkConn (c_stream c) (c_buffer c) (c_offset c) (c_prefetched c) k.

Definition m_put_prefetched (p : option Response) : M S K unit :=
  fun c => (Ok tt, set_prefetched p c).

(** A body callback: it sees its own state only. *)
Definition m_env {A} (f : K -> result A * K) : M S K A := fun c =>
  let '(r, k) := f (c_env c) in (r, set_env k c).

Context `{ByteStream S}.

Definition m_recv_some (cap : Z) : M S K bytes := fun c =>
  let '(r, s) := bs_recv_some cap (c_stream c) in (r, set_stream s c).
Definition m_send_all (data : bytes) : M S K unit := fun c =>
  let '(r, s) := bs_send_all data (c_stream c) in (r, set_stream s c).
Definition m_close : M S K unit := fun c => (Ok tt, set_stream (bs_close (c_stream c)) c).

(** [corouv::with_timeout]: the task races a timer of [dur] milliseconds. *)
Definition with_timeout {A} (expires : Z -> S -> bool) (task : M S K A) (dur : Z) : M S K A :=
  fun c => if expires dur (c_stream c) then (Throw TimeoutError, c) else task c.

Definition with_optional_timeout {A} (expires : Z -> S -> bool) (task : M S K A)
    (dur : option Z) (status : Z) (message : bytes) : M S K A :=
  match dur with
  | None => task
  | Some d =>
      m_try (with_timeout expires task d) (fun e =>
        match e with
        | TimeoutError => m_throw (HttpError status message)
        | _ => m_throw e
        end)
  end.

Definition timed_recv (cap : Z) (timeout : option Z) (status : Z) (message : bytes) : M S K bytes :=
  with_optional_timeout bs_recv_expires (m_recv_some cap) timeout status message.
Definition timed_send (data : bytes) (timeout : option Z) (status : Z) (message : bytes) : M S K unit :=
  with_optional_timeout bs_send_expires (m_send_all data) timeout status message.
End Monad.

Declare Scope conn_scope.
Delimit Scope conn_scope with conn.
Notation "x <- m ;; f" := (m_bind m (fun x => f))
  (at level 100, m at next level, right associativity) : conn_scope.
Notation "' p <- m ;; f" := (m_bind m (fun x => match x with p => f end))
  (at level 100, p pattern, m at next level, right associativity) : conn_scope.
Notation "m ;;; f" := (m_bind m (fun _ => f))
  (at level 100, right associativity) : conn_scope.

(** ** A stream whose peer follows a script *)

Record script := mkScript { sc_open : bool; sc_rx : list bytes; sc_tx : bytes }.

Fixpoint script_recv (cap : nat) (rx : list bytes) : bytes * list bytes :=
  match rx with
  | [] => ([], [])
  | seg :: rx' =>
      match seg with
      | [] => script_recv cap rx'
      | _ => match drop cap seg with
             | [] => (take cap seg, rx')
             | rest => (take cap seg, rest :: rx')
             end
      end
  end.

Definition closed_stream_error : exn := LogicError "corouv::net::TcpStream is closed"%bs.

#[export] Instance script_stream : ByteStream script := {
  bs_is_open := sc_open;
  bs_recv_some cap s :=
    if sc_open s then
      let '(d, rx) := script_recv (Z.to_nat cap) (sc_rx s) in
      (Ok d, mkScript true rx (sc_tx s))
    else (Throw closed_stream_error, s);
  bs_send_all data s :=
    if sc_open s then (Ok tt, mkScript true (sc_rx s) (sc_tx s ++ data))
    else (Throw closed_stream_error, s);
  bs_close s := mkScript false (sc_rx s) (sc_tx s);
  bs_recv_expires _ _ := false;
  bs_send_expires _ _ := false
}.

Lemma script_recv_spec cap rx d rx' :
  (0 < cap)%nat -> script_recv cap rx = (d, rx') ->
  concat rx = d ++ concat rx' /\ (length d <= cap)%nat /\ (d = [] -> concat rx = []).
Proof.
  intros Hcap. revert d rx'. induction rx as [|seg rx IH]; intros d rx'; simpl.
  - intros [= <- <-]. split_and!; [done | simpl; lia | done].
  - destruct seg as [|x seg]; [by apply IH|].
    destruct (drop cap (x :: seg)) as [|y rest] eqn:E; intros [= <- <-].
    + split_and!.
      * change (x :: seg ++ concat rx) with ((x :: seg) ++ concat rx).
        rewrite <- (take_drop cap (x :: seg)) at 1. by rewrite E, app_nil_r.
      * rewrite length_take. lia.
      * destruct cap; [lia | done].
    + split_and!.
      * change (x :: seg ++ concat rx) with ((x :: seg) ++ concat rx).
        rewrite <- (take_drop cap (x :: seg)) at 1. by rewrite E, <- app_assoc.
      * rewrite length_take. lia.
      * destruct cap; [lia | done].
Qed.

#[export] Instance script_reliable : ReliableStream script.
Proof.
  refine (reliable_stream (fun s => concat (sc_rx s)) sc_tx _ _ _ _ _).
  - intros cap [o rx tx] Ho Hcap. simpl in *. subst o.
    destruct (script_recv (Z.to_nat cap) rx) as [d rx'] eqn:E.
    apply script_recv_spec in E as (E1 & E2 & E3); [|lia].
    exists d, (mkScript true rx' tx). split_and!; try done. unfold size_of. lia.
  - intros data [o rx tx] Ho. simpl in *. subst o. eexists. by split_and!.
  - done.
  - done.
  - done.
Defined.
