(* ===== verification/HttpBody.v ===== *)
(** * Message bodies on a buffered connection (http.cpp)

    [BufferCursor] over [_buffer] and [_buffer_offset], the reading loops
    ([read_more], [ensure_buffer], [read_line_crlf]), the three body framings
    and the chunked writer.  Sizes are 64-bit and wrap around.  The theorems:
    the cursor implements a byte queue; on a reliable stream the fixed and the
    chunked reader return exactly the announced payload, however the bytes are
    split into segments, and leave the rest of the stream untouched; the
    chunked reader inverts the chunked writer; and the size check of the
    chunked reader can be bypassed by a chunk size that makes it wrap. *)

From S2P Require Import Prelude CxxString HttpHeaders Stream.

Local Open Scope Z_scope.

(** [take] and [drop] by a 64-bit count, by recursion on the string. *)
Fixpoint ztake {A} (n : Z) (s : list A) : list A :=
  match s with
  | [] => []
  | x :: s' => if n <=? 0 then [] else x :: ztake (n - 1) s'
  end.
Fixpoint zdrop {A} (n : Z) (s : list A) : list A :=
  match s with
  | [] => []
  | x :: s' => if n <=? 0 then s else zdrop (n - 1) s'
  end.

(** ** [BufferCursor] *)

Definition cursor_size (storage : bytes) (offset : Z) : Z := sz_sub (size_of storage) offset.
Definition cursor_view (storage : bytes) (offset : Z) : bytes := zdrop offset storage.

Definition cursor_compact (storage : bytes) (offset : Z) : bytes * Z :=
  if offset =? 0 then (storage, offset)
  else if size_of storage <=? offset then ([], 0)
  else if (4096 <? offset) && (size_of storage <=? u64 (offset * 2)) then (zdrop offset storage, 0)
  else (storage, offset).

Definition cursor_consume (len : Z) (storage : bytes) (offset : Z) : bytes * Z :=
  cursor_compact storage (sz_add offset len).

Section Body.
Context {S K : Type} `{ByteStream S}.
Local Open Scope conn_scope.

Definition buf_size (c : conn S K) : Z := cursor_size (c_buffer c) (c_offset c).
Definition buf_view (c : conn S K) : bytes := cursor_view (c_buffer c) (c_offset c).
Definition buf_append (data : bytes) : M S K unit := fun c =>
  (Ok tt, set_buffer (c_buffer c ++ data) (c_offset c) c).
Definition buf_consume (len : Z) : M S K unit := fun c =>
  let '(b, o) := cursor_consume len (c_buffer c) (c_offset c) in (Ok tt, set_buffer b o c).

(** ** Reading *)

Definition read_more (max_buffered error_status : Z) (message : bytes) (max_read : Z)
    (timeout : option Z) (timeout_status : Z) (timeout_message : bytes) : M S K Z :=
  if max_read =? 0 then m_ret 0
  else
    let read_cap := Z.min max_read 4096 in
    data <- timed_recv read_cap timeout timeout_status timeout_message ;;
    let n := size_of data in
    if n =? 0 then m_ret 0
    else
      size <- m_get buf_size ;;
      if max_buffered <? sz_add size n then m_throw (HttpError error_status message)
      else buf_append data ;;; m_ret n.

Fixpoint ensure_buffer (fuel : nat) (wanted max_buffered error_status : Z)
    (message eof_message : bytes) (timeout : option Z) (timeout_status : Z)
    (timeout_message : bytes) : M S K unit :=
  size <- m_get buf_size ;;
  if wanted <=? size then m_ret tt
  else
    match fuel with
    | O => m_fuel
    | Datatypes.S fuel' =>
        let need := sz_sub wanted size in
        n <- read_more max_buffered error_status message need timeout timeout_status
               timeout_message ;;
        if n =? 0 then m_throw (HttpError 400 eof_message)
        else ensure_buffer fuel' wanted max_buffered error_status message eof_message
               timeout timeout_status timeout_message
    end.

Fixpoint read_line_crlf (fuel : nat) (max_line error_status : Z)
    (too_large_message eof_message : bytes) (timeout : option Z) (timeout_status : Z)
    (timeout_message : bytes) : M S K bytes :=
  view <- m_get buf_view ;;
  match find_str crlf view with
  | Some pos => buf_consume (Z.of_nat pos + 2) ;;; m_ret (take pos view)
  | None =>
      size <- m_get buf_size ;;
      if max_line <=? size then m_throw (HttpError error_status too_large_message)
      else
        match fuel with
        | O => m_fuel
        | Datatypes.S fuel' =>
            n <- read_more max_line error_status too_large_message (sz_sub max_line size)
                   timeout timeout_status timeout_message ;;
            if n =? 0 then m_throw (HttpError 400 eof_message)
            else read_line_crlf fuel' max_line error_status too_large_message eof_message
                   timeout timeout_status timeout_message
        end
  end.

(** The caller's [BodySink]. *)
Variable on_chunk : bytes -> K -> result unit * K.

Definition too_large : exn := HttpError 413 "HTTP body too large"%bs.

Fixpoint fixed_body_loop (fuel : nat) (remaining : Z) (timeout : option Z)
    (timeout_status : Z) (timeout_message : bytes) : M S K unit :=
  if remaining <=? 0 then m_ret tt
  else
    match fuel with
    | O => m_fuel
    | Datatypes.S fuel' =>
        size <- m_get buf_size ;;
        if negb (size =? 0) then
          let n := Z.min remaining size in
          view <- m_get buf_view ;;
          m_env (on_chunk (ztake n view)) ;;;
          buf_consume n ;;;
          fixed_body_loop fuel' (sz_sub remaining n) timeout timeout_status timeout_message
        else
          n <- read_more remaining 413 "HTTP body too large"%bs (Z.min remaining 4096)
                 timeout timeout_status timeout_message ;;
          if n =? 0
          then m_throw (HttpError 400 "unexpected eof while reading HTTP body"%bs)
          else fixed_body_loop fuel' remaining timeout timeout_status timeout_message
    end.

Definition read_fixed_body_stream (fuel : nat) (limits : Limits) (size : Z)
    (timeout : option Z) (timeout_status : Z) (timeout_message : bytes) : M S K unit :=
  if max_body_bytes limits <? size then m_throw too_large
  else fixed_body_loop fuel size timeout timeout_status timeout_message.

(** [append_trailer]; [None] is [trailers_out == nullptr]. *)
Definition append_trailer (trailers_out : option Headers) (line : bytes) : result (option Headers) :=
  match trailers_out with
  | None => Ok None
  | Some trailers =>
      match find_char ":"%char line with
      | None => Throw (HttpError 400 "invalid chunk trailer header"%bs)
      | Some colon =>
          Ok (Some (trailers ++ [mkHeader (trim_copy (take colon line))
                                          (trim_copy (drop (Datatypes.S colon) line))]))
      end
  end.

Fixpoint trailer_loop (fuel : nat) (limits : Limits) (trailers_out : option Headers)
    (timeout : option Z) (timeout_status : Z) (timeout_message : bytes) : M S K (option Headers) :=
  match fuel with
  | O => m_fuel
  | Datatypes.S fuel' =>
      trailer <- read_line_crlf fuel' (max_header_bytes limits) 431
                   "trailer headers too large"%bs
                   "unexpected eof while reading trailer headers"%bs
                   timeout timeout_status timeout_message ;;
      match trailer with
      | [] => m_ret trailers_out
      | _ =>
          trailers_out' <- m_lift (append_trailer trailers_out trailer) ;;
          match trailers_out' with
          | Some ts =>
              if max_header_count limits <? size_of ts
              then m_throw (HttpError 431 "too many chunk trailer headers"%bs)
              else trailer_loop fuel' limits trailers_out' timeout timeout_status timeout_message
          | None => trailer_loop fuel' limits trailers_out' timeout timeout_status timeout_message
          end
      end
  end.

(** The chunk size field of a chunk header line. *)
Definition chunk_size_text (line : bytes) : bytes :=
  trim_copy (match find_char ";"%char line with None => line | Some semi => take semi line end).

Fixpoint chunked_loop (fuel : nat) (limits : Limits) (total : Z) (trailers_out : option Headers)
    (timeout : option Z) (timeout_status : Z) (timeout_message : bytes) : M S K (option Headers) :=
  match fuel with
  | O => m_fuel
  | Datatypes.S fuel' =>
      line <- read_line_crlf fuel' (max_header_bytes limits) 431 "chunk header too large"%bs
                "unexpected eof while reading chunk header"%bs
                timeout timeout_status timeout_message ;;
      match parse_full W64 16 (chunk_size_text line) with
      | None => m_throw (HttpError 400 "invalid chunk size"%bs)
      | Some chunk_size =>
          if chunk_size =? 0
          then trailer_loop fuel' limits trailers_out timeout timeout_status timeout_message
          else if max_body_bytes limits <? sz_add total chunk_size then m_throw too_large
          else
            let max_buffered :=
              Z.min (sz_add (sz_sub (max_body_bytes limits) total) 2)
                    (sz_add (max_body_bytes limits) (max_header_bytes limits)) in
            ensure_buffer fuel' (sz_add chunk_size 2) max_buffered 413 "HTTP body too large"%bs
              "unexpected eof while reading chunk data"%bs timeout timeout_status timeout_message ;;;
            view <- m_get buf_view ;;
            m_env (on_chunk (ztake chunk_size view)) ;;;
            buf_consume chunk_size ;;;
            tail <- m_get buf_view ;;
            match tail with
            | a :: b :: _ =>
                if decide (a <> CR) then m_throw (HttpError 400 "invalid chunk terminator"%bs)
                else if decide (b <> LF) then m_throw (HttpError 400 "invalid chunk terminator"%bs)
                else buf_consume 2 ;;;
                     chunked_loop fuel' limits (sz_add total chunk_size) trailers_out
                       timeout timeout_status timeout_message
            | _ => m_throw (HttpError 400 "invalid chunk terminator"%bs)
            end
      end
  end.

(** [want_trailers]: whether the caller passed somewhere to put them. *)
Definition read_chunked_body_stream (fuel : nat) (limits : Limits) (timeout : option Z)
    (timeout_status : Z) (timeout_message : bytes) (want_trailers : bool) : M S K Headers :=
  ts <- chunked_loop fuel limits 0 (if want_trailers then Some [] else None)
          timeout timeout_status timeout_message ;;
  m_ret (default [] ts).

Fixpoint until_close_loop (fuel : nat) (limits : Limits) (total : Z) (timeout : option Z)
    (timeout_status : Z) (timeout_message : bytes) : M S K unit :=
  match fuel with
  | O => m_fuel
  | Datatypes.S fuel' =>
      data <- timed_recv 4096 timeout timeout_status timeout_message ;;
      let n := size_of data in
      if n =? 0 then m_close
      else if max_body_bytes limits <? sz_add total n then m_throw too_large
      else
        m_env (on_chunk data) ;;;
        until_close_loop fuel' limits (sz_add total n) timeout timeout_status timeout_message
  end.

Definition read_until_close_body_stream (fuel : nat) (limits : Limits) (timeout : option Z)
    (timeout_status : Z) (timeout_message : bytes) : M S K unit :=
  total <- m_get buf_size ;;
  if max_body_bytes limits <? total then m_throw too_large
  else
    (if total =? 0 then m_ret tt
     else
       view <- m_get buf_view ;;
       m_env (on_chunk view) ;;;
       buf_consume total) ;;;
    until_close_loop fuel limits total timeout timeout_status timeout_message.
End Body.

(** ** Writing *)

Section Write.
Context {S K : Type} `{ByteStream S}.
Local Open Scope conn_scope.

Definition write_chunk (chunk : bytes) (timeout : option Z) (timeout_status : Z)
    (timeout_message : bytes) : M S K unit :=
  timed_send (print_base 16 (size_of chunk) ++ crlf) timeout timeout_status timeout_message ;;;
  (match chunk with
   | [] => m_ret tt
   | _ => timed_send chunk timeout timeout_status timeout_message
   end) ;;;
  timed_send crlf timeout timeout_status timeout_message.

(** The caller's [BodyChunkSource]. *)
Variable body_source : K -> result (option bytes) * K.

Fixpoint write_chunks_loop (fuel : nat) (timeout : option Z) (timeout_status : Z)
    (timeout_message : bytes) : M S K unit :=
  match fuel with
  | O => m_fuel
  | Datatypes.S fuel' =>
      next <- m_env body_source ;;
      match next with
      | None => m_ret tt
      | Some chunk =>
          write_chunk chunk timeout timeout_status timeout_message ;;;
          write_chunks_loop fuel' timeout timeout_status timeout_message
      end
  end.

Definition write_chunked_body_stream (fuel : nat) (trailers : Headers) (timeout : option Z)
    (timeout_status : Z) (timeout_message : bytes) : M S K unit :=
  write_chunks_loop fuel timeout timeout_status timeout_message ;;;
  timed_send ("0"%bs ++ crlf) timeout timeout_status timeout_message ;;;
  (match trailers with
   | [] => m_ret tt
   | _ => timed_send (serialize_headers trailers) timeout timeout_status timeout_message
   end) ;;;
  timed_send crlf timeout timeout_status timeout_message.
End Write.

(** The sink of [read_request] and [read_response]: append to a string. *)
Definition collect (chunk body : bytes) : result unit * bytes := (Ok tt, body ++ chunk).

(** A source that yields a list of chunks. *)
Definition list_source (chunks : list bytes) : result (option bytes) * list bytes :=
  match chunks with
  | [] => (Ok None, [])
  | c :: cs => (Ok (Some c), cs)
  end.

(** ** Lemmas: the cursor *)

Lemma ztake_take {A} n (s : list A) : ztake n s = take (Z.to_nat n) s.
Proof.
  revert n. induction s as [|x s IH]; intros n; simpl; [by rewrite take_nil|].
  destruct (Z.leb_spec n 0); [by replace (Z.to_nat n) with 0%nat by lia|].
  rewrite IH. by replace (Z.to_nat n) with (Datatypes.S (Z.to_nat (n - 1))) by lia.
Qed.

Lemma zdrop_drop {A} n (s : list A) : zdrop n s = drop (Z.to_nat n) s.
Proof.
  revert n. induction s as [|x s IH]; intros n; simpl; [by rewrite drop_nil|].
  destruct (Z.leb_spec n 0); [by replace (Z.to_nat n) with 0%nat by lia|].
  rewrite IH. by replace (Z.to_nat n) with (Datatypes.S (Z.to_nat (n - 1))) by lia.
Qed.

(** The representation invariant of the buffer, with room for any 64-bit
    arithmetic the cursor does. *)
Definition cursor_ok (storage : bytes) (offset : Z) : Prop :=
  0 <= offset <= size_of storage /\ size_of storage < 2 ^ 62.

Lemma pow62_W64 : 2 ^ 62 + 2 ^ 62 < W64.
Proof. by vm_compute. Qed.

Lemma cursor_size_view b o : cursor_ok b o -> cursor_size b o = size_of (cursor_view b o).
Proof.
  intros [Ho Hb]. pose proof pow62_W64.
  unfold cursor_size, cursor_view. rewrite zdrop_drop, size_of_drop by lia.
  apply sz_sub_small; lia.
Qed.

Lemma cursor_view_append b o d :
  cursor_ok b o -> cursor_view (b ++ d) o = cursor_view b o ++ d.
Proof.
  intros [Ho Hb]. unfold cursor_view. rewrite !zdrop_drop.
  apply drop_app_le. unfold size_of in Ho. lia.
Qed.

Lemma cursor_consume_ok n b o :
  cursor_ok b o -> 0 <= n <= size_of (cursor_view b o) ->
  let '(b', o') := cursor_consume n b o in
  cursor_ok b' o' /\ cursor_view b' o' = drop (Z.to_nat n) (cursor_view b o) /\ size_of b' <= size_of b.
Proof.
  intros [Ho Hb] Hn. pose proof pow62_W64. unfold cursor_view in *. rewrite !zdrop_drop in *.
  rewrite size_of_drop in Hn by lia. unfold cursor_consume, cursor_compact.
  rewrite sz_add_small by lia. rewrite drop_drop.
  replace (Z.to_nat o + Z.to_nat n)%nat with (Z.to_nat (o + n)) by lia.
  destruct (Z.eqb_spec (o + n) 0) as [Hz|Hz].
  { rewrite zdrop_drop. split_and!; unfold cursor_ok; done || lia. }
  destruct (Z.leb_spec (size_of b) (o + n)) as [Hge|Hlt].
  { split_and!; [unfold cursor_ok, size_of; simpl; lia | | unfold size_of; simpl; lia].
    symmetry. apply drop_ge. unfold size_of in Hge. lia. }
  destruct (_ && _).
  - rewrite !zdrop_drop. rewrite drop_0. split_and!; [|done|].
    + unfold cursor_ok. pose proof (size_of_nonneg (drop (Z.to_nat (o + n)) b)).
      rewrite size_of_drop in * by lia. lia.
    + rewrite size_of_drop by lia. lia.
  - rewrite zdrop_drop. unfold cursor_ok. split_and!; done || lia.
Qed.

(** ** Lemmas: reading from a reliable stream *)

Section Reliable.
Context {S K : Type} `{LiveStream S}.
Local Open Scope conn_scope.
Implicit Types c : conn S K.

(** Everything the peer sent and the connection has not consumed yet. *)
Definition input (c : conn S K) : bytes := buf_view c ++ bs_incoming (c_stream c).

Definition conn_ok (c : conn S K) : Prop :=
  bs_is_open (c_stream c) = true /\ cursor_ok (c_buffer c) (c_offset c) /\
  size_of (c_buffer c) + size_of (bs_incoming (c_stream c)) < 2 ^ 62.

Definition pending_len (c : conn S K) : nat := length (bs_incoming (c_stream c)).

(** [c'] is [c] after receiving only: nothing was sent, every byte that left
    the stream was handed out, and the buffer holds no more than was there. *)
Definition keeps (c c' : conn S K) : Prop :=
  bs_sent (c_stream c') = bs_sent (c_stream c) /\
  Nat.add (pending_len c') <$> bs_handed (c_stream c') = Nat.add (pending_len c) <$> bs_handed (c_stream c) /\
  size_of (c_buffer c') + size_of (bs_incoming (c_stream c')) <= size_of (c_buffer c) + size_of (bs_incoming (c_stream c)).

Lemma keeps_refl c : keeps c c.
Proof. unfold keeps. split_and!; done || lia. Qed.

Lemma keeps_trans c1 c2 c3 : keeps c1 c2 -> keeps c2 c3 -> keeps c1 c3.
Proof. unfold keeps. intros (A1 & A2 & A3) (B1 & B2 & B3). split_and!; congruence || lia. Qed.

(** [c'] is [c] with nothing consumed, sent or called back. *)
Definition quiet (c c' : conn S K) : Prop :=
  conn_ok c' /\ input c' = input c /\ c_env c' = c_env c /\
  c_prefetched c' = c_prefetched c /\ keeps c c'.

(** [c'] is [c] after consuming [n] bytes of input. *)
Definition consumed (n : nat) (c c' : conn S K) : Prop :=
  conn_ok c' /\ input c' = drop n (input c) /\
  c_prefetched c' = c_prefetched c /\ keeps c c'.

Lemma conn_ok_size c : conn_ok c -> buf_size c = size_of (buf_view c).
Proof. intros (_ & Hc & _). by apply cursor_size_view. Qed.

Lemma buf_view_prefix c : exists t, input c = buf_view c ++ t.
Proof. by eexists. Qed.

Lemma conn_ok_input c : conn_ok c -> size_of (input c) < 2 ^ 62.
Proof.
  intros (_ & (Ho & _) & Hr). unfold input, buf_view, cursor_view.
  rewrite size_of_app, zdrop_drop, size_of_drop by lia. lia.
Qed.

Lemma buf_consume_ok n c :
  conn_ok c -> 0 <= n <= size_of (buf_view c) ->
  exists c', buf_consume n c = (Ok tt, c') /\ consumed (Z.to_nat n) c c' /\ c_env c' = c_env c /\
    buf_view c' = drop (Z.to_nat n) (buf_view c) /\ c_stream c' = c_stream c.
Proof.
  intros (Hopen & Hcur & Hroom) Hn. pose proof (cursor_consume_ok n _ _ Hcur Hn) as Hc.
  unfold buf_consume. destruct (cursor_consume n (c_buffer c) (c_offset c)) as [b o].
  destruct Hc as (Hok & Hview & Hsz). eexists. split; [done|].
  unfold consumed, keeps, conn_ok, input, buf_view in *. simpl in *. split_and!; try done; try lia.
  rewrite Hview. rewrite drop_app_le; [done|]. unfold size_of in Hn. lia.
Qed.

Lemma timed_recv_ok cap timeout st msg c :
  conn_ok c -> 0 < cap -> bs_incoming (c_stream c) <> [] \/ bs_ended (c_stream c) ->
  exists d s', timed_recv cap timeout st msg c = (Ok d, set_stream s' c) /\
    bs_is_open s' = true /\ bs_incoming (c_stream c) = d ++ bs_incoming s' /\
    size_of d <= cap /\ (d = [] -> bs_incoming (c_stream c) = []) /\ bs_sent s' = bs_sent (c_stream c) /\
    bs_handed s' = Nat.add (length d) <$> bs_handed (c_stream c).
Proof.
  intros (Hopen & _) Hcap Hav. destruct (recv_ok cap _ Hopen Hcap Hav) as (d & s' & Hr & Hrest).
  exists d, s'. split; [|exact Hrest].
  unfold timed_recv, with_optional_timeout, m_try, with_timeout, m_recv_some.
  destruct timeout; [rewrite recv_prompt|]; by rewrite Hr.
Qed.

(** One read: the bytes move from the stream to the buffer. *)
Lemma read_more_ok max_buffered es msg max_read timeout ts tm c :
  conn_ok c -> 0 < max_read -> size_of (buf_view c) + Z.min max_read 4096 <= max_buffered ->
  bs_incoming (c_stream c) <> [] \/ bs_ended (c_stream c) ->
  exists d c', read_more max_buffered es msg max_read timeout ts tm c = (Ok (size_of d), c') /\
    quiet c c' /\ buf_view c' = buf_view c ++ d /\ size_of d <= max_read /\
    bs_incoming (c_stream c) = d ++ bs_incoming (c_stream c') /\
    (d = [] -> bs_incoming (c_stream c) = []).
Proof.
  intros Hok Hmr Hmax Hav. unfold read_more, m_bind. replace (max_read =? 0) with false by lia.
  destruct (timed_recv_ok (Z.min max_read 4096) timeout ts tm c Hok) as
    (d & s' & -> & Hopen' & Hin & Hle & Hnil & Hsent & Hhand); [lia | done |].
  assert (Nat.add (length (bs_incoming s')) <$> bs_handed s' = Nat.add (pending_len c) <$> bs_handed (c_stream c)) as Htot.
  { rewrite Hhand. unfold pending_len. rewrite Hin, length_app. destruct (bs_handed (c_stream c)); simpl; f_equal; lia. }
  pose proof (conn_ok_size c Hok) as Hsz. destruct Hok as (Hopen & Hcur & Hroom).
  rewrite Hin, size_of_app in Hroom. pose proof pow62_W64 as Hp.
  pose proof (size_of_nonneg (bs_incoming s')) as Hnn. pose proof (size_of_nonneg d) as Hd0.
  destruct (Z.eqb_spec (size_of d) 0) as [Hz|Hz].
  - apply size_of_nil_inv in Hz. subst d. exists [], (set_stream s' c).
    rewrite app_nil_r. split; [done|].
    unfold quiet, keeps, pending_len, conn_ok, input, buf_view in *. simpl in *. rewrite Hin in *.
    split_and!; auto; lia.
  - assert (size_of (buf_view c) <= size_of (c_buffer c)) as Hbv.
    { unfold buf_view, cursor_view. rewrite zdrop_drop. destruct Hcur.
      rewrite size_of_drop by lia. lia. }
    unfold m_get. change (buf_size (set_stream s' c)) with (buf_size c). rewrite Hsz.
    rewrite sz_add_small by (pose proof (size_of_nonneg (buf_view c)); lia).
    destruct (Z.ltb_spec max_buffered (size_of (buf_view c) + size_of d)) as [Hgt|_]; [lia|].
    exists d. eexists. split; [unfold buf_append, m_ret; done|].
    assert (cursor_ok (c_buffer c ++ d) (c_offset c)) as Hcur'.
    { destruct Hcur. unfold cursor_ok. rewrite size_of_app. lia. }
    unfold quiet, keeps, pending_len, conn_ok, input, buf_view in *. simpl.
    rewrite cursor_view_append by done. rewrite size_of_app, Hin.
    split_and!; try done; try lia; [by rewrite <- app_assoc | by rewrite Htot, Hin | rewrite size_of_app; lia | by intros ->].
Qed.

Lemma quiet_trans c1 c2 c3 : quiet c1 c2 -> quiet c2 c3 -> quiet c1 c3.
Proof.
  unfold quiet. intros (? & -> & -> & -> & K1) (? & -> & -> & -> & K2). split_and!; try done. by eapply keeps_trans.
Qed.

Lemma quiet_refl c : conn_ok c -> quiet c c.
Proof. unfold quiet. intros Hok. split_and!; done || apply keeps_refl. Qed.

Lemma quiet_consumed c1 c2 c3 n : quiet c1 c2 -> consumed n c2 c3 -> consumed n c1 c3.
Proof.
  unfold quiet, consumed. intros (_ & -> & _ & -> & K1) (? & -> & -> & K2). split_and!; try done. by eapply keeps_trans.
Qed.

Lemma consumed_trans c1 c2 c3 n m : consumed n c1 c2 -> consumed m c2 c3 -> consumed (n + m) c1 c3.
Proof.
  unfold consumed. intros (_ & -> & -> & K1) (? & -> & -> & K2). rewrite drop_drop. split_and!; try done. by eapply keeps_trans.
Qed.

Lemma consumed_refl c : conn_ok c -> consumed 0 c c.
Proof. unfold consumed. intros Hok. split_and!; done || apply keeps_refl. Qed.
End Reliable.

(** ** Lemmas: lines *)

Lemma starts_with_app_l needle a b :
  (length needle <= length a)%nat -> starts_with needle (a ++ b) = starts_with needle a.
Proof.
  revert a. induction needle as [|x needle IH]; intros [|y a]; simpl; try done; [lia|].
  intros Hlen. destruct (decide (x = y)); [|done]. apply IH. lia.
Qed.

Lemma starts_with_length needle s : starts_with needle s = true -> (length needle <= length s)%nat.
Proof. intros [t ->]%starts_with_spec. rewrite length_app. lia. Qed.

Lemma find_str_prefix needle a b i :
  find_str needle a = Some i -> find_str needle (a ++ b) = Some i.
Proof.
  revert i. induction a as [|x a IH]; intros i; simpl.
  - destruct (starts_with needle []) eqn:E; [|done]. intros [= <-].
    destruct needle; [|done]. by destruct b.
  - destruct (starts_with needle (x :: a)) eqn:E.
    + intros [= <-]. pose proof (starts_with_length _ _ E) as Hl.
      change (x :: a ++ b) with ((x :: a) ++ b). by rewrite starts_with_app_l, E.
    + intros (j & Hj & ->)%fmap_Some.
      destruct (starts_with needle (x :: a ++ b)) eqn:E'.
      * exfalso. apply find_str_Some in Hj as [t Ht]. 
        assert (length needle <= length a)%nat as Hl.
        { rewrite Ht, !length_app. lia. }
        change (x :: a ++ b) with ((x :: a) ++ b) in E'.
        rewrite starts_with_app_l in E' by (simpl; lia). congruence.
      * by rewrite (IH j Hj).
Qed.

Lemma find_str_restrict needle a b i :
  find_str needle (a ++ b) = Some i -> (i + length needle <= length a)%nat ->
  find_str needle a = Some i.
Proof.
  revert i. induction a as [|x a IH]; intros i Hf Hl.
  - simpl in Hl. destruct needle; [|simpl in Hl; lia]. by destruct i; [|lia].
  - cbn [find_str app] in *. destruct (starts_with needle (x :: a ++ b)) eqn:E.
    + injection Hf as <-. change (x :: a ++ b) with ((x :: a) ++ b) in E.
      rewrite starts_with_app_l in E by lia. by rewrite E.
    + apply fmap_Some in Hf as (j & Hj & ->). rewrite (IH j Hj) by (simpl in Hl; lia).
      destruct (starts_with needle (x :: a)) eqn:E'; [|done].
      apply starts_with_length in E' as Hlen. 
      change (x :: a ++ b) with ((x :: a) ++ b) in E.
      rewrite starts_with_app_l in E by done. congruence.
Qed.

Lemma find_crlf line rest : LF ∉ line -> find_str crlf (line ++ crlf ++ rest) = Some (length line).
Proof.
  intros Hl. apply find_str_first. revert Hl. 
  induction line as [|x line IH]; intros Hl i Hi; simpl in Hi; [lia|].
  apply not_elem_of_cons in Hl as [Hx Hl].
  destruct i as [|i]; [|apply IH; [done | lia]].
  simpl. case_decide; [|done]. destruct line as [|y line]; simpl; [done|].
  apply not_elem_of_cons in Hl as [Hy _]. by rewrite decide_False.
Qed.

Section ReliableLoops.
Context {S K : Type} `{LiveStream S}.
Local Open Scope conn_scope.
Implicit Types c : conn S K.

(** A read while the peer still has something to say makes progress. *)
Lemma read_more_some maxb es msg max_read timeout ts tm c :
  conn_ok c -> 0 < max_read -> size_of (buf_view c) + Z.min max_read 4096 <= maxb ->
  bs_incoming (c_stream c) <> [] ->
  exists n c', read_more maxb es msg max_read timeout ts tm c = (Ok n, c') /\ (n =? 0) = false /\
    quiet c c' /\ (pending_len c' < pending_len c)%nat /\
    exists d, buf_view c' = buf_view c ++ d /\ d <> [] /\ size_of d <= max_read.
Proof.
  intros Hok Hmr Hmax Hne.
  destruct (read_more_ok maxb es msg max_read timeout ts tm c Hok Hmr Hmax (or_introl Hne))
    as (d & c' & Hr & Hq & Hview & Hd & Hinc & Hnil).
  assert (d <> []) as Hd0 by auto.
  exists (size_of d), c'. split_and!; try done.
  - apply Z.eqb_neq. intros Hz. by apply size_of_nil_inv in Hz.
  - unfold pending_len. rewrite Hinc, length_app. destruct d; [done | simpl; lia].
  - eauto.
Qed.

Lemma ensure_buffer_ok fuel wanted maxb es msg eof timeout ts tm c :
  conn_ok c -> 0 <= wanted <= size_of (input c) -> wanted <= maxb ->
  (pending_len c <= fuel)%nat ->
  exists c', ensure_buffer fuel wanted maxb es msg eof timeout ts tm c = (Ok tt, c') /\
    quiet c c' /\ wanted <= size_of (buf_view c') /\ (pending_len c' <= pending_len c)%nat.
Proof.
  revert c. induction fuel as [|fuel IH]; intros c Hok Hw Hm Hf;
    cbn [ensure_buffer]; unfold m_bind at 1, m_get at 1; rewrite (conn_ok_size c Hok);
    destruct (Z.leb_spec wanted (size_of (buf_view c))) as [Hle|Hgt];
    try (exists c; split_and!; [done | by apply quiet_refl | done | lia]);
    unfold input in Hw; rewrite size_of_app in Hw; unfold pending_len in *.
  - exfalso. unfold size_of in *. lia.
  - pose proof (conn_ok_input c Hok) as Hin. unfold input in Hin. rewrite size_of_app in Hin.
    pose proof pow62_W64 as Hp. pose proof (size_of_nonneg (buf_view c)) as Hv.
    rewrite sz_sub_small by lia.
    destruct (read_more_some maxb es msg (wanted - size_of (buf_view c)) timeout ts tm c Hok)
      as (n & c' & Hr & Hn & Hq & Hlt & _); [lia | lia | |].
    { intros Hnil. rewrite Hnil in Hw. unfold size_of in *. simpl in Hw. lia. }
    unfold m_bind. rewrite Hr, Hn. destruct Hq as (Hok' & Hinput & Hq). unfold pending_len in *.
    destruct (IH c') as (c'' & Hc'' & Hq'' & Hw'' & Hl''); [done | | done | lia |].
    { rewrite Hinput. unfold input. by rewrite size_of_app. }
    exists c''. split_and!; [done | | done | lia].
    eapply quiet_trans; [|exact Hq'']. done.
Qed.

(** [c'] is [c] with the input up to [rest] consumed and nothing else done. *)
Definition read_to (rest : bytes) (c c' : conn S K) : Prop :=
  conn_ok c' /\ input c' = rest /\ c_env c' = c_env c /\ c_prefetched c' = c_prefetched c /\
  keeps c c' /\ (pending_len c' <= pending_len c)%nat.

Lemma quiet_read_to rest c1 c2 c3 :
  quiet c1 c2 -> (pending_len c2 <= pending_len c1)%nat -> read_to rest c2 c3 -> read_to rest c1 c3.
Proof.
  unfold quiet, read_to. intros (_ & _ & E1 & E2 & E3) Hl (? & ? & E4 & E5 & E6 & ?).
  split_and!; congruence || lia || by eapply keeps_trans.
Qed.

Lemma buf_consume_read_to n rest c :
  conn_ok c -> (n <= length (buf_view c))%nat -> drop n (input c) = rest ->
  exists c', buf_consume (Z.of_nat n) c = (Ok tt, c') /\ read_to rest c c' /\
    buf_view c' = drop n (buf_view c).
Proof.
  intros Hok Hn Hrest.
  destruct (buf_consume_ok (Z.of_nat n) c Hok) as (c' & Hc & (Hok' & Hin & Hp & Hs) & He & Hv & Hst);
    [unfold size_of; lia|]. rewrite Nat2Z.id in *.
  exists c'. split_and!; try done. unfold read_to, pending_len. rewrite Hst in *. split_and!; done || congruence.
Qed.

(** The line is already in the buffer. *)
Lemma read_line_found line rest pos c :
  conn_ok c -> input c = line ++ crlf ++ rest -> LF ∉ line ->
  find_str crlf (buf_view c) = Some pos ->
  exists c', (buf_consume (Z.of_nat pos + 2) ;;; m_ret (take pos (buf_view c))) c = (Ok line, c') /\
    read_to rest c c'.
Proof.
  intros Hok Hin Hlf E.
  pose proof (find_crlf line rest Hlf) as Hfind. rewrite <- Hin in Hfind.
  pose proof (find_str_prefix _ _ (bs_incoming (c_stream c)) _ E) as E'.
  change (buf_view c ++ bs_incoming (c_stream c)) with (input c) in E'.
  rewrite Hfind in E'. injection E' as <-.
  assert (length line + 2 <= length (buf_view c))%nat as Hlen.
  { destruct (find_str_Some _ _ _ E) as [t Ht]. apply (f_equal length) in Ht.
    rewrite !length_app, length_take in Ht. simpl in Ht. lia. }
  destruct (buf_consume_read_to (length line + 2) rest c Hok Hlen) as (c' & Hc & Hto & _).
  { rewrite Hin, app_assoc. apply drop_app_length'. rewrite length_app. simpl. lia. }
  exists c'. split; [|done]. unfold m_bind. rewrite Nat2Z.inj_add in Hc. change (Z.of_nat 2) with 2 in Hc. rewrite Hc.
  unfold m_ret. do 2 f_equal. transitivity (take (length line) (input c)).
  - unfold input. by rewrite take_app_le by lia.
  - rewrite Hin. apply take_app_length.
Qed.

Lemma read_line_ok fuel maxl es big eof timeout ts tm c line rest :
  conn_ok c -> input c = line ++ crlf ++ rest -> LF ∉ line ->
  size_of line + 2 <= maxl < W64 -> (pending_len c <= fuel)%nat ->
  exists c', read_line_crlf fuel maxl es big eof timeout ts tm c = (Ok line, c') /\
    read_to rest c c'.
Proof.
  revert c. induction fuel as [|fuel IH]; intros c Hok Hin Hlf Hmax Hf;
    cbn [read_line_crlf]; unfold m_bind at 1, m_get at 1;
    destruct (find_str crlf (buf_view c)) as [pos|] eqn:E; try by eapply read_line_found.
  all: pose proof (find_crlf line rest Hlf) as Hfind; rewrite <- Hin in Hfind.
  all: assert (bs_incoming (c_stream c) <> []) as Hne
      by (intros Hnil; unfold input in Hfind; rewrite Hnil, app_nil_r in Hfind; congruence).
  - destruct (bs_incoming (c_stream c)) eqn:Ei; [done|]. unfold pending_len in Hf.
    rewrite Ei in Hf. simpl in Hf. lia.
  - assert (length (buf_view c) < length line + 2)%nat as Hshort.
    { destruct (Nat.lt_ge_cases (length (buf_view c)) (length line + 2)) as [|Hge]; [done|].
      exfalso. unfold input in Hfind. apply find_str_restrict in Hfind; [congruence|]. simpl. lia. }
    unfold m_bind at 1, m_get at 1. rewrite (conn_ok_size c Hok).
    assert (0 <= size_of (buf_view c) < maxl) as Hlt by (unfold size_of in *; lia).
    destruct (Z.leb_spec maxl (size_of (buf_view c))) as [|_]; [lia|].
    rewrite sz_sub_small by lia.
    destruct (read_more_some maxl es big (maxl - size_of (buf_view c)) timeout ts tm c Hok)
      as (n & c' & Hr & Hn & Hq & Hl & _); [lia | lia | done |].
    unfold m_bind. rewrite Hr, Hn. destruct (IH c') as (c'' & Hc'' & Hto); [apply Hq | by rewrite (proj1 (proj2 Hq)) | done | done | lia |].
    exists c''. split; [done|]. eapply quiet_read_to; [| |exact Hto]; [done | lia].
Qed.
End ReliableLoops.

(** ** Lemmas: bodies, collected into a string *)

Section Collect.
Context {S : Type} `{LiveStream S}.
Local Open Scope conn_scope.
Implicit Types c : conn S bytes.

(** [c'] is [c] with [body] delivered to the sink and [rest] left to read. *)
Definition delivered (body rest : bytes) (c c' : conn S bytes) : Prop :=
  conn_ok c' /\ input c' = rest /\ c_env c' = c_env c ++ body /\ c_prefetched c' = c_prefetched c /\
  keeps c c' /\ (pending_len c' <= pending_len c)%nat.

Lemma delivered_refl c : conn_ok c -> delivered [] (input c) c c.
Proof. intros Hok. unfold delivered. rewrite app_nil_r. split_and!; done || apply keeps_refl. Qed.

Lemma delivered_trans b1 r1 b2 r2 c1 c2 c3 :
  delivered b1 r1 c1 c2 -> delivered b2 r2 c2 c3 -> delivered (b1 ++ b2) r2 c1 c3.
Proof.
  unfold delivered. intros (_ & _ & E1 & E2 & E3 & L1) (? & ? & E4 & E5 & E6 & L2).
  split_and!; try done; try congruence; [by rewrite E4, E1, app_assoc | by eapply keeps_trans | lia].
Qed.

Lemma read_to_delivered rest c c' : read_to rest c c' -> delivered [] rest c c'.
Proof. unfold read_to, delivered. rewrite app_nil_r. done. Qed.

Lemma quiet_delivered c c' :
  quiet c c' -> (pending_len c' <= pending_len c)%nat -> delivered [] (input c) c c'.
Proof. unfold quiet, delivered. rewrite app_nil_r. naive_solver. Qed.

(** Hand [n] buffered bytes to the sink and consume them. *)
Lemma deliver_buffered n c :
  conn_ok c -> 0 <= n <= size_of (buf_view c) ->
  exists c1 c2, m_env (collect (ztake n (buf_view c))) c = (Ok tt, c1) /\
    buf_consume n c1 = (Ok tt, c2) /\
    delivered (take (Z.to_nat n) (input c)) (drop (Z.to_nat n) (input c)) c c2 /\
    buf_view c2 = drop (Z.to_nat n) (buf_view c).
Proof.
  intros Hok Hn. eexists. unfold m_env, collect.
  set (c1 := set_env (c_env c ++ ztake n (buf_view c)) c).
  assert (conn_ok c1) as Hok1 by exact Hok.
  destruct (buf_consume_ok n c1 Hok1 Hn) as (c2 & Hc & (Hok2 & Hin & Hp & Hs) & He & Hv & Hst).
  exists c2. split_and!; [done | done | | done].
  unfold delivered, pending_len. rewrite Hst. split_and!; try done.
  rewrite He. unfold c1. simpl. rewrite ztake_take. f_equal. unfold input. symmetry. apply take_app_le.
  unfold size_of in Hn. lia.
Qed.

Lemma fixed_body_loop_ok fuel n timeout ts tm c :
  conn_ok c -> 0 <= n <= size_of (input c) ->
  2 * n + (if decide (buf_view c = []) then 1 else 0) <= Z.of_nat fuel ->
  exists c', fixed_body_loop collect fuel n timeout ts tm c = (Ok tt, c') /\
    delivered (take (Z.to_nat n) (input c)) (drop (Z.to_nat n) (input c)) c c'.
Proof.
  revert n c. induction fuel as [|fuel IH]; intros n c Hok Hn Hf; cbn [fixed_body_loop];
    destruct (Z.leb_spec n 0) as [Hz|Hz]; try (case_decide; lia);
    try (exists c; replace n with 0 by lia; split; [done | by apply delivered_refl]).
  pose proof (conn_ok_input c Hok) as Hin62. pose proof pow62_W64 as Hp.
  unfold m_bind at 1, m_get at 1. rewrite (conn_ok_size c Hok).
  destruct (Z.eqb_spec (size_of (buf_view c)) 0) as [He|Hne]; cbn [negb].
  - apply size_of_nil_inv in He. rewrite decide_True in Hf by done.
    destruct (read_more_some n 413 "HTTP body too large"%bs (Z.min n 4096) timeout ts tm c Hok)
      as (k & c1 & Hr & Hk & Hq & Hlt & d & Hview & Hd & _);
      [lia | rewrite He; unfold size_of; simpl; lia | |].
    { intros Hnil. unfold input in Hn. rewrite He, Hnil in Hn. unfold size_of in Hn. simpl in Hn. lia. }
    unfold m_bind. rewrite Hr, Hk.
    destruct (IH n c1) as (c2 & Hc2 & Hd2); [apply Hq | by rewrite (proj1 (proj2 Hq)) | |].
    { rewrite Hview, He. rewrite decide_False by (by destruct d). lia. }
    exists c2. split; [done|]. rewrite (proj1 (proj2 Hq)) in Hd2.
    apply (delivered_trans [] (input c) _ _ c c1); [|done]. apply quiet_delivered; [done | lia].
  - assert (buf_view c <> []) as Hvne by (intros E; by rewrite E in Hne).
    rewrite decide_False in Hf by done.
    set (k := Z.min n (size_of (buf_view c))).
    pose proof (size_of_nonneg (buf_view c)) as Hv0.
    destruct (deliver_buffered k c Hok) as (c1 & c2 & H1 & H2 & Hd1 & Hview); [lia|].
    unfold m_bind, m_get. rewrite H1, H2. rewrite sz_sub_small by lia.
    destruct (IH (n - k) c2) as (c3 & Hc3 & Hd3).
    { apply Hd1. }
    { rewrite (proj1 (proj2 Hd1)). rewrite size_of_drop by lia. lia. }
    { case_decide; lia. }
    exists c3. split; [done|]. rewrite (proj1 (proj2 Hd1)) in Hd3.
    pose proof (delivered_trans _ _ _ _ _ _ _ Hd1 Hd3) as Hd.
    rewrite drop_drop in Hd. replace (Z.to_nat k + Z.to_nat (n - k))%nat with (Z.to_nat n) in Hd by lia.
    replace (take (Z.to_nat n) (input c)) with
      (take (Z.to_nat k) (input c) ++ take (Z.to_nat (n - k)) (drop (Z.to_nat k) (input c))); [done|].
    rewrite take_take_drop. f_equal. lia.
Qed.

(** When the peer closes early everything it sent is delivered first. *)
Lemma fixed_body_loop_eof fuel n timeout ts tm c :
  (forall s : S, bs_ended s) ->
  conn_ok c -> size_of (input c) < n < W64 ->
  2 * size_of (input c) + (if decide (buf_view c = []) then 1 else 0) <= Z.of_nat fuel ->
  exists c', fixed_body_loop collect fuel n timeout ts tm c =
      (Throw (HttpError 400 "unexpected eof while reading HTTP body"%bs), c') /\
    delivered (input c) [] c c'.
Proof.
  intros Hend. revert n c. induction fuel as [|fuel IH]; intros n c Hok Hn Hf;
    pose proof (size_of_nonneg (input c)) as Hi0; cbn [fixed_body_loop];
    (destruct (Z.leb_spec n 0) as [Hz|Hz]; [lia|]).
  { case_decide as Hv; [lia|]. exfalso. apply Hv. unfold input in *. rewrite size_of_app in *.
    pose proof (size_of_nonneg (buf_view c)). pose proof (size_of_nonneg (bs_incoming (c_stream c))).
    apply size_of_nil_inv. lia. }
  pose proof (conn_ok_input c Hok) as Hin62. pose proof pow62_W64 as Hp.
  unfold m_bind at 1, m_get at 1. rewrite (conn_ok_size c Hok).
  destruct (Z.eqb_spec (size_of (buf_view c)) 0) as [He|Hne]; cbn [negb].
  - apply size_of_nil_inv in He. rewrite decide_True in Hf by done.
    destruct (read_more_ok n 413 "HTTP body too large"%bs (Z.min n 4096) timeout ts tm c Hok)
      as (d & c1 & Hr & Hq & Hview & Hd & Hinc & Hnil);
      [lia | rewrite He; unfold size_of; simpl; lia | by right |].
    assert (pending_len c1 <= pending_len c)%nat as Hl by (unfold pending_len; rewrite Hinc, length_app; lia).
    pose proof (quiet_delivered c c1 Hq Hl) as D1.
    unfold m_bind. rewrite Hr. destruct (Z.eqb_spec (size_of d) 0) as [Hd0|Hd0].
    + apply size_of_nil_inv in Hd0. exists c1. split; [done|].
      assert (input c = []) as Hi by (unfold input; by rewrite He, (Hnil Hd0)).
      by rewrite Hi in *.
    + destruct (IH n c1) as (c2 & H2 & D2); [apply Hq | by rewrite (proj1 (proj2 Hq)) | |].
      { rewrite (proj1 (proj2 Hq)), Hview, He. rewrite decide_False by (by destruct d). lia. }
      exists c2. split; [done|]. rewrite (proj1 (proj2 Hq)) in D2.
      by apply (delivered_trans [] (input c) (input c) [] c c1).
  - assert (buf_view c <> []) as Hvne by (intros E; by rewrite E in Hne).
    rewrite decide_False in Hf by done.
    pose proof (size_of_nonneg (buf_view c)) as Hv0.
    assert (size_of (buf_view c) <= size_of (input c)) as Hvi.
    { unfold input. rewrite size_of_app. pose proof (size_of_nonneg (bs_incoming (c_stream c))). lia. }
    rewrite Z.min_r by lia.
    destruct (deliver_buffered (size_of (buf_view c)) c Hok) as (c1 & c2 & H1 & H2 & D1 & Hview); [lia|].
    unfold m_bind, m_get. rewrite H1, H2. rewrite sz_sub_small by lia.
    destruct (IH (n - size_of (buf_view c)) c2) as (c3 & H3 & D3); [apply D1 | | |].
    { rewrite (proj1 (proj2 D1)), size_of_drop by lia. lia. }
    { rewrite (proj1 (proj2 D1)), size_of_drop by lia. case_decide; lia. }
    exists c3. split; [done|]. rewrite (proj1 (proj2 D1)) in D3.
    pose proof (delivered_trans _ _ _ _ _ _ _ D1 D3) as D. by rewrite take_drop in D.
Qed.

(** ** The chunked wire format *)

Definition chunk_wire (chunk : bytes) : bytes :=
  print_base 16 (size_of chunk) ++ crlf ++ chunk ++ crlf.
Definition trailer_line (h : Header) : bytes := h_name h ++ ": "%bs ++ h_value h.

(** A header that reads back as itself from a header line. *)
Definition trailer_ok (h : Header) : Prop :=
  trimmed (h_name h) /\ trimmed (h_value h) /\ ":"%char ∉ h_name h /\ LF ∉ h_name h /\ LF ∉ h_value h.

Lemma serialize_headers_cons h hs :
  serialize_headers (h :: hs) = trailer_line h ++ crlf ++ serialize_headers hs.
Proof. unfold trailer_line. simpl. by rewrite <- !app_assoc. Qed.

Lemma trailer_line_read h :
  trailer_ok h ->
  append_trailer (Some []) (trailer_line h) = Ok (Some [h]) /\ LF ∉ trailer_line h /\ trailer_line h <> [].
Proof.
  intros (Hn & Hv & Hc & L1 & L2). unfold trailer_line. split_and!.
  - unfold append_trailer. change (": "%bs ++ h_value h) with (":"%char :: SP :: h_value h).
    rewrite find_char_app, take_app_length, drop_past by done.
    rewrite trim_copy_sp, !trim_copy_id by done. by destruct h.
  - rewrite !not_elem_of_app. split_and!; try done. apply find_char_None. by vm_compute.
  - by destruct (h_name h).
Qed.

Lemma append_trailer_app ts h :
  trailer_ok h -> append_trailer (Some ts) (trailer_line h) = Ok (Some (ts ++ [h])).
Proof.
  intros Hh. destruct (trailer_line_read h Hh) as [Ha _]. unfold append_trailer in *.
  destruct (find_char _ _); [|done]. simpl in Ha. injection Ha as Ha. by rewrite Ha.
Qed.

Lemma trailer_loop_ok fuel limits acc hs timeout ts tm c rest :
  conn_ok c -> input c = serialize_headers hs ++ crlf ++ rest ->
  Forall trailer_ok hs -> Forall (fun h => size_of (trailer_line h) + 2 <= max_header_bytes limits) hs ->
  2 <= max_header_bytes limits < W64 -> size_of acc + size_of hs <= max_header_count limits ->
  (pending_len c + length hs + 1 <= fuel)%nat ->
  exists c', trailer_loop fuel limits (Some acc) timeout ts tm c = (Ok (Some (acc ++ hs)), c') /\
    read_to rest c c'.
Proof.
  revert fuel acc c. induction hs as [|h hs IH]; intros fuel acc c Hok Hin Hall Hlen Hmax Hcount Hf;
    (destruct fuel as [|fuel]; [lia|]); cbn [trailer_loop]; unfold m_bind at 1.
  - destruct (read_line_ok fuel (max_header_bytes limits) 431 "trailer headers too large"%bs
      "unexpected eof while reading trailer headers"%bs timeout ts tm c [] rest) as (c' & Hr & Hto);
      [done | done | apply not_elem_of_nil | by unfold size_of | lia |].
    rewrite Hr, app_nil_r. by exists c'.
  - apply Forall_cons in Hall as [Hh Hall]. apply Forall_cons in Hlen as [Hl Hlen].
    rewrite serialize_headers_cons, <- !app_assoc in Hin.
    destruct (trailer_line_read h Hh) as (_ & Hlf & Hne).
    destruct (read_line_ok fuel (max_header_bytes limits) 431 "trailer headers too large"%bs
      "unexpected eof while reading trailer headers"%bs timeout ts tm c (trailer_line h)
      (serialize_headers hs ++ crlf ++ rest)) as (c1 & Hr & Hto);
      [done | done | done | done || lia | simpl in Hf; lia |].
    rewrite Hr. destruct (trailer_line h) as [|x tl] eqn:E; [done|]. rewrite <- E in *.
    unfold m_bind at 1, m_lift. rewrite append_trailer_app by done.
    assert (size_of (h :: hs) = 1 + size_of hs) as Hs by (unfold size_of; simpl; lia).
    assert (size_of (acc ++ [h]) = size_of acc + 1) as Hs' by (rewrite size_of_app; done).
    pose proof (size_of_nonneg hs).
    destruct (Z.ltb_spec (max_header_count limits) (size_of (acc ++ [h]))) as [|_]; [lia|].
    destruct Hto as (Hok1 & Hin1 & Hrest1).
    destruct (IH fuel (acc ++ [h]) c1) as (c2 & Hc2 & Hto2); [done | done | done | done | done | lia | |].
    { destruct Hrest1 as (_ & _ & _ & Hp). simpl in Hf. lia. }
    exists c2. rewrite Hc2, <- app_assoc. split; [done|].
    destruct Hrest1 as (E1 & E2 & E3 & L), Hto2 as (? & ? & E4 & E5 & E6 & L2).
    unfold read_to. split_and!; try done; try congruence; [by eapply keeps_trans | lia].
Qed.

Lemma chunk_size_text_print n : is_size n -> chunk_size_text (print_base 16 n) = print_base 16 n.
Proof.
  intros Hn. unfold is_size in Hn. unfold chunk_size_text.
  assert (find_char ";"%char (print_base 16 n) = None) as ->.
  { apply find_char_None, print_base_clean; [lia | lia | done]. }
  apply trim_copy_id, print_base_trimmed; lia.
Qed.

(** The header line of a chunk of [n] bytes is read and parsed back. *)
Lemma chunk_line_ok fuel maxl es big eof timeout ts tm c n rest :
  conn_ok c -> input c = print_base 16 n ++ crlf ++ rest -> is_size n ->
  18 <= maxl < W64 -> (pending_len c <= fuel)%nat ->
  exists c', read_line_crlf fuel maxl es big eof timeout ts tm c = (Ok (print_base 16 n), c') /\
    read_to rest c c' /\ parse_full W64 16 (chunk_size_text (print_base 16 n)) = Some n.
Proof.
  intros Hok Hin Hn Hmax Hf. pose proof (print_hex_length n Hn) as Hlen.
  rewrite chunk_size_text_print, parse_print by (done || unfold is_size in Hn; lia).
  destruct (read_line_ok fuel maxl es big eof timeout ts tm c (print_base 16 n) rest)
    as (c' & Hr & Hto); [done | done | | lia | done | by exists c'].
  apply print_base_clean; [lia | unfold is_size in Hn; lia | done].
Qed.

(** The data of a chunk is delivered and its terminator consumed. *)
Lemma chunk_data_ok fuel chunk rest maxb es msg eof timeout ts tm c :
  conn_ok c -> input c = chunk ++ crlf ++ rest -> size_of chunk + 2 <= maxb ->
  (pending_len c <= fuel)%nat ->
  exists c1 c2 c3 c4 tl,
    ensure_buffer fuel (sz_add (size_of chunk) 2) maxb es msg eof timeout ts tm c = (Ok tt, c1) /\
    m_env (collect (ztake (size_of chunk) (buf_view c1))) c1 = (Ok tt, c2) /\
    buf_consume (size_of chunk) c2 = (Ok tt, c3) /\ buf_view c3 = CR :: LF :: tl /\
    buf_consume 2 c3 = (Ok tt, c4) /\ delivered chunk rest c c4.
Proof.
  intros Hok Hin Hmax Hf. pose proof (conn_ok_input c Hok) as H62. pose proof pow62_W64 as Hp.
  pose proof (size_of_nonneg chunk) as Hc0.
  assert (size_of (input c) = size_of chunk + 2 + size_of rest) as Hsz.
  { rewrite Hin, !size_of_app. change (size_of crlf) with 2. lia. }
  pose proof (size_of_nonneg rest) as Hr0. rewrite sz_add_small by lia.
  destruct (ensure_buffer_ok fuel (size_of chunk + 2) maxb es msg eof timeout ts tm c)
    as (c1 & He & Hq & Hw & Hl); [done | lia | lia | done |].
  pose proof (quiet_delivered c c1 Hq Hl) as D1. destruct Hq as (Hok1 & Hin1 & _).
  destruct (deliver_buffered (size_of chunk) c1 Hok1) as (c2 & c3 & H2 & H3 & D3 & Hview); [lia|].
  rewrite Hin1, Hin in D3. unfold size_of in D3. rewrite Nat2Z.id, take_app_length, drop_app_length in D3.
  assert (2 <= length (buf_view c3))%nat as Hlen3.
  { rewrite Hview, length_drop. unfold size_of in Hw |- *. lia. }
  destruct (buf_consume_read_to 2 rest c3) as (c4 & H4 & Hto & _).
  { apply D3. }
  { done. }
  { by rewrite (proj1 (proj2 D3)). }
  assert (exists tl, buf_view c3 = CR :: LF :: tl) as [tl Htl].
  { destruct D3 as (_ & E & _). unfold input in E.
    destruct (buf_view c3) as [|a [|b tl]]; [simpl in Hlen3; lia .. |].
    simpl in E. injection E as -> -> _. by eexists. }
  exists c1, c2, c3, c4, tl. split_and!; try done.
  rewrite <- (app_nil_l chunk), <- (app_nil_r chunk).
  eapply delivered_trans; [exact D1|]. eapply delivered_trans; [exact D3|].
  by apply read_to_delivered.
Qed.

Definition chunked_wire (chunks : list bytes) (trailers : Headers) : bytes :=
  concat (map chunk_wire chunks) ++ "0"%bs ++ crlf ++ serialize_headers trailers ++ crlf.

(** Trailers the reader accepts under [limits]. *)
Definition trailers_fit (limits : Limits) (hs : Headers) : Prop :=
  Forall trailer_ok hs /\
  Forall (fun h => size_of (trailer_line h) + 2 <= max_header_bytes limits) hs /\
  size_of hs <= max_header_count limits.

Lemma chunked_loop_ok limits hs timeout ts tm rest chunks fuel total c :
  conn_ok c -> input c = chunked_wire chunks hs ++ rest ->
  Forall (fun chunk => chunk <> []) chunks -> trailers_fit limits hs ->
  18 <= max_header_bytes limits < 2 ^ 62 ->
  0 <= total -> total + size_of (concat chunks) <= max_body_bytes limits -> max_body_bytes limits < 2 ^ 62 ->
  (pending_len c + length chunks + length hs + 2 <= fuel)%nat ->
  exists c', chunked_loop collect fuel limits total (Some []) timeout ts tm c = (Ok (Some hs), c') /\
    delivered (concat chunks) rest c c'.
Proof.
  intros Hok Hin Hne Hts Hmh. revert fuel total c Hok Hin. pose proof pow62_W64 as Hp.
  induction chunks as [|chunk chunks IH]; intros fuel total c Hok Hin Ht Hb Hmb Hf;
    (destruct fuel as [|fuel]; [simpl in Hf; lia|]); cbn [chunked_loop]; unfold m_bind at 1.
  - unfold chunked_wire in Hin. simpl concat in Hin. rewrite app_nil_l, <- !app_assoc in Hin.
    change "0"%bs with (print_base 16 0) in Hin.
    edestruct (chunk_line_ok fuel (max_header_bytes limits)) as (c1 & Hr & Hto & Hparse); [done | exact Hin | done | lia | |].
    { simpl in Hf. lia. }
    rewrite Hr, Hparse. cbn [Z.eqb]. destruct Hto as (Hok1 & Hin1 & E1 & E2 & E3 & L).
    destruct Hts as (Ho & Hl & Hcnt).
    destruct (trailer_loop_ok fuel limits [] hs timeout ts tm c1 rest) as (c2 & Hc2 & Hto2);
      [done | done | done | done | lia | unfold size_of in *; simpl; lia | simpl in Hf; lia |].
    exists c2. split; [done|]. apply (delivered_trans [] (input c1) [] rest c c1 c2).
    + by apply read_to_delivered; rewrite Hin1.
    + by apply read_to_delivered.
  - apply Forall_cons in Hne as [Hc Hne].
    unfold chunked_wire in Hin. simpl concat in Hin.
    unfold chunk_wire at 1 in Hin. rewrite <- !app_assoc in Hin.
    simpl concat in Hb. rewrite size_of_app in Hb.
    pose proof (size_of_nonneg chunk) as Hc0. pose proof (size_of_nonneg (concat chunks)) as Hcs0.
    edestruct (chunk_line_ok fuel (max_header_bytes limits)) as (c1 & Hr & Hto & Hparse);
      [done | exact Hin | unfold is_size; lia | lia | simpl in Hf; lia |].
    rewrite Hr, Hparse. destruct (Z.eqb_spec (size_of chunk) 0) as [Hz|Hz]; [by apply size_of_nil_inv in Hz|].
    rewrite (sz_add_small total), (sz_add_small (max_body_bytes limits)) by lia.
    destruct (Z.ltb_spec (max_body_bytes limits) (total + size_of chunk)) as [|_]; [lia|].
    rewrite sz_sub_small by lia. rewrite (sz_add_small (_ - _)) by lia.
    pose proof (read_to_delivered _ _ _ Hto) as D1. destruct Hto as (Hok1 & Hin1 & _ & _ & _ & L1).
    edestruct (chunk_data_ok fuel chunk) with (maxb := Z.min (max_body_bytes limits - total + 2) (max_body_bytes limits + max_header_bytes limits)) as (c2 & c3 & c4 & c5 & tl & H2 & H3 & H4 & Htl & H5 & D5);
      [done | exact Hin1 | | simpl in Hf; lia |].
    2: { unfold m_bind. rewrite H2. unfold m_get at 1. rewrite H3, H4. unfold m_get at 1. rewrite Htl.
         rewrite !decide_False by (intros E; by apply E). rewrite H5.
         edestruct (IH Hne fuel (total + size_of chunk) c5) as (c6 & H6 & D6);
           [apply D5 | | lia | lia | done | destruct D5 as (_ & _ & _ & _ & _ & L5); simpl in Hf; lia |].
         { rewrite (proj1 (proj2 D5)). unfold chunked_wire. by rewrite <- !app_assoc. }
         exists c6. split; [done|]. rewrite <- (app_nil_l (concat (chunk :: chunks))). 
         eapply delivered_trans; [exact D1|]. eapply delivered_trans; [exact D5 | exact D6]. }
    lia.
Qed.
End Collect.

(** ** Lemmas: writing *)

Section Writing.
Context {S K : Type} `{LiveStream S}.
Local Open Scope conn_scope.
Implicit Types c : conn S K.

(** A peer that answers nothing. *)
Definition mute_peer : Prop :=
  forall d (s : S), bs_is_open s = true -> bs_incoming (snd (bs_send_all d s)) = bs_incoming s.

(** [c'] is [c] with [data] sent. *)
Definition sent (data : bytes) (c c' : conn S K) : Prop :=
  bs_is_open (c_stream c') = true /\ bs_sent (c_stream c') = bs_sent (c_stream c) ++ data /\
  bs_handed (c_stream c') = bs_handed (c_stream c) /\
  (mute_peer -> bs_incoming (c_stream c') = bs_incoming (c_stream c)) /\
  c_buffer c' = c_buffer c /\ c_offset c' = c_offset c /\ c_prefetched c' = c_prefetched c.

Lemma sent_trans d1 d2 c1 c2 c3 : sent d1 c1 c2 -> sent d2 c2 c3 -> sent (d1 ++ d2) c1 c3.
Proof.
  unfold sent. intros (_ & E1 & E2 & E3 & E4 & E5 & E6) (? & E7 & E8 & E9 & E10 & E11 & E12).
  split_and!; try done; try congruence; [by rewrite E7, E1, app_assoc | by intros Hk; rewrite E9, E3].
Qed.

Lemma sent_nil c : bs_is_open (c_stream c) = true -> sent [] c c.
Proof. unfold sent. rewrite app_nil_r. done. Qed.

Lemma timed_send_ok data timeout st msg c :
  bs_is_open (c_stream c) = true ->
  exists c', timed_send data timeout st msg c = (Ok tt, c') /\ sent data c c' /\ c_env c' = c_env c.
Proof.
  intros Ho. destruct (send_ok data _ Ho) as (s' & Hs & Ho' & Hsent & Hh).
  exists (set_stream s' c). split.
  - unfold timed_send, with_optional_timeout, m_try, with_timeout, m_send_all.
    destruct timeout; [rewrite send_prompt|]; by rewrite Hs.
  - unfold sent. simpl. split_and!; try done. intros Hk. rewrite <- (Hk data (c_stream c) Ho), Hs. done.
Qed.

(** Sending [data] unless it is empty. *)
Lemma send_nonempty_ok {A} (l : list A) data timeout st msg c :
  bs_is_open (c_stream c) = true -> (l = [] -> data = []) ->
  exists c', match l with [] => m_ret tt | _ => timed_send data timeout st msg end c = (Ok tt, c') /\
    sent data c c' /\ c_env c' = c_env c.
Proof.
  intros Ho Hd. destruct l; [|by apply timed_send_ok].
  exists c. rewrite Hd by done. split_and!; [done | by apply sent_nil | done].
Qed.

Lemma write_chunk_ok chunk timeout st msg c :
  bs_is_open (c_stream c) = true ->
  exists c', write_chunk chunk timeout st msg c = (Ok tt, c') /\
    sent (chunk_wire chunk) c c' /\ c_env c' = c_env c.
Proof.
  intros Ho. unfold write_chunk, chunk_wire, m_bind.
  destruct (timed_send_ok (print_base 16 (size_of chunk) ++ crlf) timeout st msg c Ho)
    as (c1 & H1 & S1 & E1). rewrite H1.
  destruct (send_nonempty_ok chunk chunk timeout st msg c1) as (c2 & H2 & S2 & E2);
    [apply S1 | done |]. rewrite H2.
  destruct (timed_send_ok crlf timeout st msg c2) as (c3 & H3 & S3 & E3); [apply S2|].
  exists c3. split_and!; [done | | congruence]. rewrite app_assoc.
  eapply sent_trans; [exact S1|]. by eapply sent_trans.
Qed.
End Writing.

Section WritingList.
Context {S : Type} `{LiveStream S}.
Local Open Scope conn_scope.

Lemma write_chunks_loop_ok fuel chunks timeout st msg (c : conn S (list bytes)) :
  bs_is_open (c_stream c) = true -> c_env c = chunks -> (length chunks < fuel)%nat ->
  exists c', write_chunks_loop list_source fuel timeout st msg c = (Ok tt, c') /\
    sent (concat (map chunk_wire chunks)) c c' /\ c_env c' = [].
Proof.
  revert fuel c. induction chunks as [|chunk chunks IH]; intros fuel c Ho He Hf;
    (destruct fuel as [|fuel]; [lia|]); cbn [write_chunks_loop]; unfold m_bind at 1, m_env;
    rewrite He; cbn [list_source].
  - eexists. split; [done|]. split; [|done]. unfold sent. simpl. by rewrite app_nil_r.
  - destruct (write_chunk_ok chunk timeout st msg (set_env chunks c)) as (c1 & H1 & S1 & E1); [done|].
    unfold m_bind. rewrite H1.
    destruct (IH fuel c1) as (c2 & H2 & S2 & E2); [apply S1 | done | simpl in Hf; lia |].
    exists c2. split_and!; [done | | done]. simpl. by eapply sent_trans; [exact S1|].
Qed.

Lemma write_chunked_ok fuel chunks trailers timeout st msg (c : conn S (list bytes)) :
  bs_is_open (c_stream c) = true -> c_env c = chunks -> (length chunks < fuel)%nat ->
  exists c', write_chunked_body_stream list_source fuel trailers timeout st msg c = (Ok tt, c') /\
    sent (chunked_wire chunks trailers) c c'.
Proof.
  intros Ho He Hf. unfold write_chunked_body_stream, chunked_wire, m_bind.
  destruct (write_chunks_loop_ok fuel chunks timeout st msg c Ho He Hf) as (c1 & H1 & S1 & E1).
  rewrite H1. destruct (timed_send_ok ("0"%bs ++ crlf) timeout st msg c1) as (c2 & H2 & S2 & _); [apply S1|].
  rewrite H2. destruct (send_nonempty_ok trailers (serialize_headers trailers) timeout st msg c2)
    as (c3 & H3 & S3 & _); [apply S2 | by intros -> |].
  rewrite H3. destruct (timed_send_ok crlf timeout st msg c3) as (c4 & H4 & S4 & _); [apply S3|].
  exists c4. split; [done|]. eapply sent_trans; [exact S1|]. rewrite app_assoc.
  eapply sent_trans; [exact S2|]. by eapply sent_trans; [exact S3|].
Qed.
End WritingList.

(** ** Theorems *)

(** The specification of [BufferCursor]: a byte queue, on which taking more
    than there is has no meaning. *)
Inductive cursor_op := CAppend (data : bytes) | CConsume (len : Z).

Definition queue_step (op : cursor_op) (q : bytes) : option bytes :=
  match op with
  | CAppend d => Some (q ++ d)
  | CConsume n => if (0 <=? n) && (n <=? size_of q) then Some (zdrop n q) else None
  end.
Fixpoint queue_run (ops : list cursor_op) (q : bytes) : option bytes :=
  match ops with
  | [] => Some q
  | op :: ops' => match queue_step op q with None => None | Some q' => queue_run ops' q' end
  end.

Definition cursor_step (op : cursor_op) (t : bytes * Z) : bytes * Z :=
  match op with
  | CAppend d => (fst t ++ d, snd t)
  | CConsume n => cursor_consume n (fst t) (snd t)
  end.
Definition cursor_run (ops : list cursor_op) (t : bytes * Z) : bytes * Z :=
  fold_left (fun t op => cursor_step op t) ops t.

Definition appended (ops : list cursor_op) : Z :=
  fold_right (fun op n => match op with CAppend d => size_of d + n | CConsume _ => n end) 0 ops.

(** The dead prefix of the storage is short or shorter than the rest. *)
Definition cursor_compacted (t : bytes * Z) : Prop := snd t <= 4096 \/ 2 * snd t < size_of (fst t).

Lemma cursor_consume_compacted n b o :
  cursor_ok b o -> 0 <= n <= size_of (cursor_view b o) -> cursor_compacted (cursor_consume n b o).
Proof.
  intros [Ho Hb] Hn. pose proof pow62_W64. unfold cursor_view in Hn. rewrite zdrop_drop, size_of_drop in Hn by lia.
  unfold cursor_consume, cursor_compact, cursor_compacted. rewrite sz_add_small, u64_id by (unfold is_size; lia).
  crush_match; simpl in *; lia.
Qed.

Lemma appended_nonneg ops : 0 <= appended ops.
Proof.
  induction ops as [|[d|n] ops IH]; simpl; [lia | | done]. pose proof (size_of_nonneg d). lia.
Qed.

Lemma cursor_step_refines op t q q' room :
  cursor_ok (fst t) (snd t) -> cursor_compacted t -> cursor_view (fst t) (snd t) = q ->
  queue_step op q = Some q' -> 0 <= room -> size_of (fst t) + appended [op] + room < 2 ^ 62 ->
  let t' := cursor_step op t in
  cursor_ok (fst t') (snd t') /\ cursor_compacted t' /\ cursor_view (fst t') (snd t') = q' /\
  size_of (fst t') + room < 2 ^ 62.
Proof.
  destruct t as [b o]. intros Hok Hcomp <- Hq Hr0 Hroom.
  destruct op as [d|n]; cbn [queue_step cursor_step fst snd appended fold_right] in *.
  - injection Hq as <-. pose proof (size_of_nonneg d).
    rewrite cursor_view_append by done. unfold cursor_ok, cursor_compacted in *. simpl in *.
    rewrite size_of_app. split_and!; done || lia.
  - destruct (Z.leb_spec 0 n); [|done]. destruct (Z.leb_spec n (size_of (cursor_view b o))); [|done].
    simpl in Hq. injection Hq as <-. pose proof (cursor_consume_ok n b o Hok ltac:(lia)) as Hc.
    pose proof (cursor_consume_compacted n b o Hok ltac:(lia)) as Hcc.
    destruct (cursor_consume n b o) as [b' o']. destruct Hc as (Hok' & Hv & Hsz).
    simpl. rewrite zdrop_drop. split_and!; done || lia.
Qed.

Lemma cursor_run_refines ops t q q' :
  cursor_ok (fst t) (snd t) -> cursor_compacted t -> cursor_view (fst t) (snd t) = q ->
  queue_run ops q = Some q' -> size_of (fst t) + appended ops < 2 ^ 62 ->
  let t' := cursor_run ops t in
  cursor_ok (fst t') (snd t') /\ cursor_compacted t' /\ cursor_view (fst t') (snd t') = q'.
Proof.
  revert t q. induction ops as [|op ops IH]; intros t q Hok Hcomp Hv Hq Hroom; simpl in *.
  - injection Hq as <-. done.
  - destruct (queue_step op q) as [q1|] eqn:E; [|done].
    destruct (cursor_step_refines op t q q1 (appended ops)) as (Hok1 & Hcomp1 & Hv1 & Hroom1); try done.
    + apply appended_nonneg.
    + destruct op; simpl in *; lia.
    + by apply (IH (cursor_step op t) q1).
Qed.

(** [BufferCursor] over [_buffer] and [_buffer_offset] implements a byte
    queue: after any sequence of appends and of consumes of available bytes
    (less than 2^62 bytes in all), [view()] is the contents of the queue,
    [size()] their number, and compaction keeps the storage below twice that
    number plus 4096 bytes. *)
Theorem cursor_refines_queue ops q :
  queue_run ops [] = Some q -> appended ops < 2 ^ 62 ->
  let '(storage, offset) := cursor_run ops ([], 0) in
  cursor_view storage offset = q /\ cursor_size storage offset = size_of q /\
  size_of storage <= 2 * size_of q + 4096.
Proof.
  intros Hq Hroom.
  destruct (cursor_run_refines ops ([], 0) [] q) as (Hok & Hcomp & Hv); try done.
  { left. simpl. lia. }
  destruct (cursor_run ops ([], 0)) as [b o]. simpl in *.
  rewrite cursor_size_view, Hv by done. split_and!; [done | done |].
  rewrite <- Hv. unfold cursor_view. destruct Hok as [Ho _]. rewrite zdrop_drop, size_of_drop by lia.
  destruct Hcomp; simpl in *; lia.
Qed.

Lemma cursor_refines_queue_witness :
  cursor_run [CAppend "GET /"%bs; CConsume 4; CAppend "x"%bs] ([], 0) = ("GET /x"%bs, 4) /\
  cursor_view "GET /x"%bs 4 = "/x"%bs.
Proof.
  split; [reflexivity|].
  refine (proj1 (cursor_refines_queue [CAppend "GET /"%bs; CConsume 4; CAppend "x"%bs] "/x"%bs _ _)).
  - reflexivity.
  - vm_compute. reflexivity.
Defined.

(** A body framed by Content-Length is read exactly, whatever segments the
    stream delivers: an announced size above the limit throws 413 and touches
    nothing; otherwise exactly the first [n] bytes of the input are handed to
    the sink, in order, and the rest stays on the connection; if the peer
    closes before, everything received is delivered and the call throws 400. *)
Theorem fixed_body_exact {S} `{ReliableStream S} (c : conn S bytes) fuel limits n timeout ts tm :
  conn_ok c -> is_size n -> 2 * n + 2 <= Z.of_nat fuel ->
  let '(r, c') := read_fixed_body_stream collect fuel limits n timeout ts tm c in
  if max_body_bytes limits <? n then r = Throw (HttpError 413 "HTTP body too large"%bs) /\ c' = c
  else if n <=? size_of (input c) then
    r = Ok tt /\ c_env c' = c_env c ++ take (Z.to_nat n) (input c) /\
    input c' = drop (Z.to_nat n) (input c) /\ conn_ok c'
  else
    r = Throw (HttpError 400 "unexpected eof while reading HTTP body"%bs) /\
    c_env c' = c_env c ++ input c /\ input c' = [].
Proof.
  intros Hok Hn Hf. unfold is_size in Hn. unfold read_fixed_body_stream.
  destruct (Z.ltb_spec (max_body_bytes limits) n) as [|_]; [done|].
  destruct (Z.leb_spec n (size_of (input c))) as [Hle|Hgt].
  - destruct (fixed_body_loop_ok fuel n timeout ts tm c) as (c' & -> & D); [done | lia | case_decide; lia |].
    unfold delivered in D. naive_solver.
  - destruct (fixed_body_loop_eof fuel n timeout ts tm c) as (c' & -> & D); [apply peer_ended | done | lia | case_decide; lia |].
    unfold delivered in D. naive_solver.
Qed.

Definition script_conn {K} (segments : list bytes) (env : K) : conn script K :=
  mkConn (mkScript true segments []) [] 0 None env.
Definition test_limits : Limits := mkLimits 64 16 4096.

Lemma fixed_body_exact_witness :
  let '(r, c') := read_fixed_body_stream collect 20 test_limits 5 (Some 10) 408 []
                    (script_conn ["he"%bs; "lloGET"%bs] []) in
  r = Ok tt /\ c_env c' = "hello"%bs /\ input c' = "GET"%bs /\ conn_ok c'.
Proof.
  refine (fixed_body_exact (script_conn ["he"%bs; "lloGET"%bs] []) 20 test_limits 5 (Some 10) 408 [] _ _ _).
  - unfold conn_ok, cursor_ok, size_of. simpl. lia.
  - unfold is_size, W64. lia.
  - simpl. lia.
Defined.



(** The size check of the chunked reader wraps around.  With
    [max_body_bytes = 4] (or any limit from 2 up), a chunk of two bytes
    followed by a chunk size line [FFFFFFFFFFFFFFFE] passes
    [total + chunk_size > max_body_bytes] ([2 + (2^64 - 2) = 0]) and
    [ensure(chunk_size + 2)] (which asks for 0 bytes); everything buffered,
    here the request pipelined behind it, is delivered as body, above the
    limit, and the call returns normally. *)
Theorem chunk_size_overflow_bypasses_limit :
  let limits := mkLimits 200 4 10 in
  let wire := ("2"%bs ++ crlf ++ "ab"%bs ++ crlf ++ "FFFFFFFFFFFFFFFE"%bs ++ crlf ++
               "0"%bs ++ crlf ++ crlf ++ "GET /admin HTTP/1.1"%bs) in
  exists c', read_chunked_body_stream collect 50 limits None 408 [] true (script_conn [wire] [])
             = (Ok [], c') /\
    c_env c' = ("ab0"%bs ++ crlf ++ crlf ++ "GET /admin HTTP/1.1"%bs) /\
    max_body_bytes limits < size_of (c_env c').
Proof. eexists. vm_compute. split_and!; reflexivity. Qed.
