(* ===== verification/HttpConnection.v ===== *)
(** * HTTP messages on a connection, server and client (http.cpp)

    [Connection::read_request(_stream)], [read_response(_stream)(_impl)],
    [write_request(_stream)], [write_response(_stream)],
    [Server::handle_client], [Client::request] and [fetch].  The head parser
    is picohttpparser, which is not part of this repository: [PhrParser] is
    its interface (return value and out parameters) and [PhrLaws] what the
    theorems rely on of its documentation: a complete well-formed head is
    recognised with its length and fields, whatever follows it, and a proper
    prefix of one is reported as partial ([-2]). *)

From S2P Require Import Prelude CxxString HttpHeaders HttpUrl Stream HttpBody.

Local Open Scope Z_scope.
Local Open Scope conn_scope.

(** ** picohttpparser *)

Record phr_request := mkPhrRequest {
  pq_method : bytes;
  pq_path : bytes;
  pq_minor : Z;
  pq_headers : list phr_header
}.
Record phr_response := mkPhrResponse {
  pr_minor : Z;
  pr_status : Z;
  pr_msg : bytes;
  pr_headers : list phr_header
}.

(** [buf], the capacity of the header array, [last_len]; the result is the
    return value (bytes consumed, [-1], [-2]) and the out parameters. *)
Class PhrParser := {
  phr_parse_request : bytes -> Z -> Z -> Z * phr_request;
  phr_parse_response : bytes -> Z -> Z -> Z * phr_response
}.

(** ** Local variables captured by a callback

    [m_local k0 m] runs [m], whose callbacks keep a state starting at [k0],
    inside a coroutine whose callbacks keep another one. *)
Definition m_local {S K K' A} (k0 : K') (m : M S K' A) : M S K (A * K') := fun c =>
  let '(r, c') := m (mkConn (c_stream c) (c_buffer c) (c_offset c) (c_prefetched c) k0) in
  (match r with Ok a => Ok (a, c_env c') | Throw e => Throw e | OutOfFuel => OutOfFuel end,
   mkConn (c_stream c') (c_buffer c') (c_offset c') (c_prefetched c') (c_env c)).

(** The sink of informational responses, and the source of [write_request]
    and [write_response]: one chunk, the payload. *)
Definition ignore {K} (chunk : bytes) (k : K) : result unit * K := (Ok tt, k).
Definition payload_source (payload : option bytes) : result (option bytes) * option bytes :=
  (Ok payload, None).

Definition set_rq_body (b : bytes) (r : Request) : Request :=
  mkRequest (rq_method r) (rq_target r) (rq_headers r) b (rq_trailers r) (rq_version_minor r)
    (rq_keep_alive r) (rq_chunked r).
Definition set_rq_trailers (ts : Headers) (r : Request) : Request :=
  mkRequest (rq_method r) (rq_target r) (rq_headers r) (rq_body r) ts (rq_version_minor r)
    (rq_keep_alive r) (rq_chunked r).
Definition set_rq_target (t : bytes) (r : Request) : Request :=
  mkRequest (rq_method r) t (rq_headers r) (rq_body r) (rq_trailers r) (rq_version_minor r)
    (rq_keep_alive r) (rq_chunked r).
Definition set_rq_keep_alive (k : bool) (r : Request) : Request :=
  mkRequest (rq_method r) (rq_target r) (rq_headers r) (rq_body r) (rq_trailers r)
    (rq_version_minor r) k (rq_chunked r).
Definition set_rs_body (b : bytes) (r : Response) : Response :=
  mkResponse (rs_status r) (rs_reason r) (rs_headers r) b (rs_trailers r) (rs_version_minor r)
    (rs_keep_alive r) (rs_chunked r).
Definition set_rs_trailers (ts : Headers) (r : Response) : Response :=
  mkResponse (rs_status r) (rs_reason r) (rs_headers r) (rs_body r) ts (rs_version_minor r)
    (rs_keep_alive r) (rs_chunked r).
Definition set_rs_keep_alive (k : bool) (r : Response) : Response :=
  mkResponse (rs_status r) (rs_reason r) (rs_headers r) (rs_body r) (rs_trailers r)
    (rs_version_minor r) k (rs_chunked r).

(** ** [Connection] *)

Section Connection.
Context {S : Type} `{ByteStream S} `{PhrParser}.
Variable limits : Limits.
Variable timeouts : IoTimeouts.

Section Reading.
Context {K : Type}.
Variable on_chunk : bytes -> K -> result unit * K.

(** The framing decisions taken from a request head. *)
Definition request_framing (headers : Headers) : result (bool * option Z) :=
  chunked ← match parse_transfer_encoding headers with
            | Ok te => Ok (bool_decide (te = TE_Chunked))
            | Throw (InvalidArgument w) => Throw (HttpError 400 w)
            | Throw e => Throw e
            | OutOfFuel => OutOfFuel
            end;
  content_length ← parse_content_length headers;
  if chunked && bool_decide (is_Some content_length)
  then Throw (HttpError 400 "invalid HTTP request: both Transfer-Encoding and Content-Length"%bs)
  else Ok (chunked, content_length).

(** What follows a successfully parsed head of [parsed] bytes. *)
Definition finish_request (fuel : nat) (parsed : Z) (p : phr_request) : M S K Request :=
  let headers := copy_headers (pq_headers p) in
  '(chunked, content_length) <- m_lift (request_framing headers) ;;
  let request := mkRequest (pq_method p) (pq_path p) headers [] [] (pq_minor p)
                   (should_keep_alive headers (pq_minor p)) chunked in
  buf_consume parsed ;;;
  let has_request_body :=
    chunked || match content_length with Some n => 0 <? n | None => false end in
  match parse_expect headers with
  | Expect_Unsupported => m_throw (HttpError 417 "unsupported Expect header"%bs)
  | expect =>
      (if bool_decide (expect = Expect_Continue100) && has_request_body
       then timed_send ("HTTP/1.1 100 Continue"%bs ++ crlf ++ crlf) (t_write timeouts) 504
              "continue write timeout"%bs
       else m_ret tt) ;;;
      if chunked then
        trailers <- read_chunked_body_stream on_chunk fuel limits (t_read_body timeouts) 408
                      "request body read timeout"%bs true ;;
        m_ret (set_rq_trailers trailers request)
      else
        match content_length with
        | Some n =>
            read_fixed_body_stream on_chunk fuel limits n (t_read_body timeouts) 408
              "request body read timeout"%bs ;;;
            m_ret request
        | None => m_ret request
        end
  end.

(** The loop of [read_request_stream]; [body_fuel] bounds the inner loops. *)
Fixpoint read_request_loop (fuel body_fuel : nat) (last_len : Z) : M S K (option Request) :=
  view <- m_get buf_view ;;
  let '(parsed, p) := match view with
                      | [] => (-2, mkPhrRequest [] [] 1 [])
                      | _ => phr_parse_request view (max_header_count limits) last_len
                      end in
  if 0 <? parsed then request <- finish_request body_fuel parsed p ;; m_ret (Some request)
  else if parsed =? -1 then m_throw (HttpError 400 "invalid HTTP request"%bs)
  else
    size <- m_get buf_size ;;
    if max_header_bytes limits <=? size
    then m_throw (HttpError 431 "request headers too large"%bs)
    else
      match fuel with
      | O => m_fuel
      | Datatypes.S fuel' =>
          n <- read_more (max_header_bytes limits) 431 "request headers too large"%bs
                 (sz_sub (max_header_bytes limits) size) (t_read_headers timeouts) 408
                 "request header read timeout"%bs ;;
          if n =? 0 then
            size' <- m_get buf_size ;;
            if size' =? 0 then m_ret None
            else m_throw (HttpError 400 "unexpected eof while reading request"%bs)
          else read_request_loop fuel' body_fuel size
      end.

Definition read_request_stream (fuel : nat) : M S K (option Request) :=
  read_request_loop fuel fuel 0.

Definition response_framing (headers : Headers) : result (bool * option Z) :=
  chunked ← match parse_transfer_encoding headers with
            | Ok te => Ok (bool_decide (te = TE_Chunked))
            | Throw (InvalidArgument w) => Throw (HttpError 502 w)
            | Throw e => Throw e
            | OutOfFuel => OutOfFuel
            end;
  content_length ← match parse_content_length headers with
                   | Throw (HttpError _ _) =>
                       Throw (HttpError 502 "invalid response Content-Length"%bs)
                   | r => r
                   end;
  if chunked && bool_decide (is_Some content_length)
  then Throw (HttpError 502 "invalid HTTP response: both Transfer-Encoding and Content-Length"%bs)
  else Ok (chunked, content_length).

Definition informational (status : Z) : bool :=
  (100 <=? status) && (status <? 200) && negb (status =? 101).

(** The body of a final response, delivered to the sink; the result is the
    trailers. *)
Definition read_response_body (fuel : nat) (request_method : bytes) (response : Response)
    (content_length : option Z) : M S K Response :=
  if response_has_body (rs_status response) request_method then
    if rs_chunked response then
      trailers <- read_chunked_body_stream on_chunk fuel limits (t_read_body timeouts) 504
                    "response body read timeout"%bs true ;;
      m_ret (set_rs_trailers trailers response)
    else
      match content_length with
      | Some n =>
          read_fixed_body_stream on_chunk fuel limits n (t_read_body timeouts) 504
            "response body read timeout"%bs ;;;
          m_ret response
      | None =>
          if negb (rs_keep_alive response) then
            read_until_close_body_stream on_chunk fuel limits (t_read_body timeouts) 504
              "response body read timeout"%bs ;;;
            m_ret response
          else m_ret response
      end
  else m_ret response.

(** The body of an informational response is read and dropped. *)
Definition skip_response_body (fuel : nat) (chunked : bool) (content_length : option Z) : M S K unit :=
  if chunked then
    read_chunked_body_stream ignore fuel limits (t_read_body timeouts) 504
      "response body read timeout"%bs false ;;;
    m_ret tt
  else
    match content_length with
    | Some n =>
        read_fixed_body_stream ignore fuel limits n (t_read_body timeouts) 504
          "response body read timeout"%bs
    | None => m_ret tt
    end.

Fixpoint read_response_loop (fuel body_fuel : nat) (request_method : bytes)
    (skip_informational : bool) (last_len : Z) : M S K Response :=
  view <- m_get buf_view ;;
  let '(parsed, p) := match view with
                      | [] => (-2, mkPhrResponse 1 0 [] [])
                      | _ => phr_parse_response view (max_header_count limits) last_len
                      end in
  if 0 <? parsed then
    let headers := copy_headers (pr_headers p) in
    '(chunked, content_length) <- m_lift (response_framing headers) ;;
    let response := mkResponse (pr_status p) (pr_msg p) headers [] [] (pr_minor p)
                      (should_keep_alive headers (pr_minor p)) chunked in
    buf_consume parsed ;;;
    if informational (rs_status response) then
      skip_response_body body_fuel chunked content_length ;;;
      if skip_informational then
        match fuel with
        | O => m_fuel
        | Datatypes.S fuel' => read_response_loop fuel' body_fuel request_method skip_informational 0
        end
      else m_ret response
    else read_response_body body_fuel request_method response content_length
  else if parsed =? -1 then m_throw (HttpError 502 "invalid HTTP response"%bs)
  else
    size <- m_get buf_size ;;
    if max_header_bytes limits <=? size
    then m_throw (HttpError 502 "response headers too large"%bs)
    else
      match fuel with
      | O => m_fuel
      | Datatypes.S fuel' =>
          n <- read_more (max_header_bytes limits) 502 "response headers too large"%bs
                 (sz_sub (max_header_bytes limits) size) (t_read_headers timeouts) 504
                 "response header read timeout"%bs ;;
          if n =? 0 then m_throw (HttpError 502 "unexpected eof while reading response"%bs)
          else read_response_loop fuel' body_fuel request_method skip_informational size
      end.

Definition read_response_stream_impl (fuel : nat) (request_method : bytes)
    (skip_informational : bool) : M S K Response :=
  read_response_loop fuel fuel request_method skip_informational 0.

Definition read_response_stream (fuel : nat) (request_method : bytes) : M S K Response :=
  prefetched <- m_get c_prefetched ;;
  match prefetched with
  | Some response =>
      m_put_prefetched None ;;;
      match rs_body response with
      | [] => m_ret response
      | body => m_env (on_chunk body) ;;; m_ret (set_rs_body [] response)
      end
  | None => read_response_stream_impl fuel request_method true
  end.
End Reading.

Section Messages.
Context {K : Type}.

Definition read_request (fuel : nat) : M S K (option Request) :=
  '(request, body) <- m_local [] (read_request_stream collect fuel) ;;
  m_ret (option_map (set_rq_body body) request).

Definition read_response (fuel : nat) (request_method : bytes) : M S K Response :=
  prefetched <- m_get c_prefetched ;;
  match prefetched with
  | Some response => m_put_prefetched None ;;; m_ret response
  | None =>
      '(response, body) <- m_local [] (read_response_stream_impl collect fuel request_method true) ;;
      m_ret (set_rs_body body response)
  end.

(** ** Writing *)

Definition only_http1 : exn := LogicError "corouv::http::Connection only supports HTTP/1.x"%bs.
Definition http1 (version_minor : Z) : M S K unit :=
  if (version_minor <? 0) || (1 <? version_minor) then m_throw only_http1 else m_ret tt.

Definition request_head (method target : bytes) (version_minor : Z) (headers : Headers) : bytes :=
  method ++ " "%bs ++ target ++ " HTTP/1."%bs ++ to_string version_minor ++ crlf ++
  serialize_headers headers ++ crlf.
Definition response_head (version_minor status : Z) (reason : bytes) (headers : Headers) : bytes :=
  "HTTP/1."%bs ++ to_string version_minor ++ " "%bs ++ to_string status ++ " "%bs ++ reason ++ crlf ++
  serialize_headers headers ++ crlf.

Definition outgoing_target (target : bytes) : bytes := match target with [] => "/"%bs | t => t end.
Definition with_host (headers : Headers) (default_host : bytes) : Headers :=
  match default_host, find_header headers "Host"%bs with
  | _ :: _, None => set_header headers "Host"%bs default_host
  | _, _ => headers
  end.
Definition outgoing_reason (response : Response) : bytes :=
  match rs_reason response with [] => reason_phrase (rs_status response) | r => r end.

(** Wait for the answer to [Expect: 100-continue]; [true] when the body may
    be sent, [false] when another response was kept for [read_response]. *)
Definition await_continue (fuel : nat) (method : bytes) : M S K bool :=
  '(prefetched, body) <- m_local [] (read_response_stream_impl collect fuel method false) ;;
  if negb (rs_status prefetched =? 100)
  then m_put_prefetched (Some (set_rs_body body prefetched)) ;;; m_ret false
  else m_ret true.

Definition write_request_stream (body_source : K -> result (option bytes) * K) (fuel : nat)
    (request : Request) (default_host : bytes) : M S K unit :=
  http1 (rq_version_minor request) ;;;
  let headers := prepare_outgoing_headers (with_host (rq_headers request) default_host)
                   (rq_keep_alive request) true 0 in
  timed_send (request_head (rq_method request) (outgoing_target (rq_target request))
                (rq_version_minor request) headers)
    (t_write timeouts) 504 "request write timeout"%bs ;;;
  proceed <- (if expects_continue headers then await_continue fuel (rq_method request) else m_ret true) ;;
  if (proceed : bool)
  then write_chunked_body_stream body_source fuel (rq_trailers request) (t_write timeouts) 504
         "request write timeout"%bs
  else m_ret tt.

Definition write_response_stream (body_source : K -> result (option bytes) * K) (fuel : nat)
    (response : Response) (request_method : bytes) : M S K unit :=
  http1 (rs_version_minor response) ;;;
  let has_body := response_has_body (rs_status response) request_method in
  let headers := prepare_outgoing_headers (rs_headers response) (rs_keep_alive response) has_body 0 in
  timed_send (response_head (rs_version_minor response) (rs_status response)
                (outgoing_reason response) headers)
    (t_write timeouts) 504 "response write timeout"%bs ;;;
  if has_body
  then write_chunked_body_stream body_source fuel (rs_trailers response) (t_write timeouts) 504
         "response write timeout"%bs
  else m_ret tt.
End Messages.

Section Whole.
Context {K : Type}.

Definition write_request (fuel : nat) (request : Request) (default_host : bytes) : M S K unit :=
  if rq_chunked request then
    m_local (Some (rq_body request)) (write_request_stream payload_source fuel request default_host) ;;;
    m_ret tt
  else
    http1 (rq_version_minor request) ;;;
    let headers := prepare_outgoing_headers (with_host (rq_headers request) default_host)
                     (rq_keep_alive request) false (size_of (rq_body request)) in
    timed_send (request_head (rq_method request) (outgoing_target (rq_target request))
                  (rq_version_minor request) headers)
      (t_write timeouts) 504 "request write timeout"%bs ;;;
    match rq_body request with
    | [] => m_ret tt
    | body =>
        proceed <- (if expects_continue headers then await_continue fuel (rq_method request)
                    else m_ret true) ;;
        if (proceed : bool)
        then timed_send body (t_write timeouts) 504 "request write timeout"%bs
        else m_ret tt
    end.

Definition write_response (fuel : nat) (response : Response) (request_method : bytes) : M S K unit :=
  if rs_chunked response then
    m_local (Some (rs_body response)) (write_response_stream payload_source fuel response request_method) ;;;
    m_ret tt
  else
    http1 (rs_version_minor response) ;;;
    let headers := prepare_outgoing_headers (rs_headers response) (rs_keep_alive response) false
                     (size_of (rs_body response)) in
    timed_send (response_head (rs_version_minor response) (rs_status response)
                  (outgoing_reason response) headers)
      (t_write timeouts) 504 "response write timeout"%bs ;;;
    if response_has_body (rs_status response) request_method then
      match rs_body response with
      | [] => m_ret tt
      | body => timed_send body (t_write timeouts) 504 "response write timeout"%bs
      end
    else m_ret tt.

(** ** [Server::handle_client] *)

(** The application's [Handler], on its own state. *)
Variable handler : Request -> K -> result Response * K.

Definition error_response (status : Z) (body : bytes) : Response :=
  mkResponse status (reason_phrase status) [] body [] 1 false false.

(** The response to a handler's exception; a signal is rethrown. *)
Definition handler_response (r : result Response) : result Response :=
  match r with
  | Throw (SignalException w) => Throw (SignalException w)
  | Throw (HttpError status w) => Ok (error_response status w)
  | Throw e =>
      Ok (error_response 500 (match what e with Some w => w | None => "internal server error"%bs end))
  | r => r
  end.

(** The [while] loop. *)
Fixpoint serve_loop (fuel : nat) : M S K unit :=
  is_open <- m_get (fun c => bs_is_open (c_stream c)) ;;
  if negb is_open then m_ret tt
  else
    match fuel with
    | O => m_fuel
    | Datatypes.S fuel' => fun c =>
        match read_request fuel' c with
        | (Ok None, c1) => (Ok tt, c1)
        | (Throw (HttpError status w), c1) =>
            (* a failing write is ignored; the loop ends *)
            let '(r, c2) := write_response fuel' (error_response status w) [] c1 in
            (match r with OutOfFuel => OutOfFuel | _ => Ok tt end, c2)
        | (Throw e, c1) => (Throw e, c1)
        | (OutOfFuel, c1) => (OutOfFuel, c1)
        | (Ok (Some request), c1) =>
            let '(r, k) := handler request (c_env c1) in
            let c2 := set_env k c1 in
            match handler_response r with
            | Throw e => (Throw e, c2)
            | OutOfFuel => (OutOfFuel, c2)
            | Ok response =>
                let response := if negb (rq_keep_alive request)
                                then set_rs_keep_alive false response else response in
                match write_response fuel' response (rq_method request) c2 with
                | (Throw _, c3) => (Ok tt, c3)
                | (OutOfFuel, c3) => (OutOfFuel, c3)
                | (Ok _, c3) =>
                    if negb (rq_keep_alive request) || negb (rs_keep_alive response)
                    then (Ok tt, c3) else serve_loop fuel' c3
                end
            end
        end
    end.

Definition handle_client (fuel : nat) : M S K unit := serve_loop fuel ;;; m_close.
End Whole.

(** ** [Client] *)

(** [_host], [_port], [_connection] and [_options.keep_alive]. *)
Record Client := mkClient {
  cl_host : bytes;
  cl_port : Z;
  cl_connection : option (conn S unit);
  cl_keep_alive : bool
}.

Definition client_is_connected (cl : Client) : bool :=
  match cl_connection cl with Some c => bs_is_open (c_stream c) | None => false end.
Definition client_close (cl : Client) : Client :=
  mkClient (cl_host cl) (cl_port cl) None (cl_keep_alive cl).

(** [net::connect]. *)
Variable net_connect : bytes -> Z -> result S.

Definition client_connect (host : bytes) (port : Z) (cl : Client) : result unit * Client :=
  let cl := client_close cl in
  match net_connect host port with
  | Ok s => (Ok tt, mkClient host port (Some (mkConn s [] 0 None tt)) (cl_keep_alive cl))
  | Throw e => (Throw e, cl)
  | OutOfFuel => (OutOfFuel, cl)
  end.

Definition client_request (fuel : nat) (request : Request) (cl : Client) : result Response * Client :=
  let not_connected := LogicError "corouv::http::Client is not connected"%bs in
  match cl_connection cl with
  | None => (Throw not_connected, cl)
  | Some c =>
      if negb (bs_is_open (c_stream c)) then (Throw not_connected, cl)
      else
        let request := set_rq_keep_alive (rq_keep_alive request && cl_keep_alive cl) request in
        let '(r, c') := (write_request fuel request (format_host_header (cl_host cl) (cl_port cl)) ;;;
                         read_response fuel (rq_method request)) c in
        let cl := mkClient (cl_host cl) (cl_port cl) (Some c') (cl_keep_alive cl) in
        match r with
        | Ok response =>
            if negb (rq_keep_alive request) || negb (rs_keep_alive response)
            then (Ok response, client_close cl) else (Ok response, cl)
        | r => (r, cl)
        end
  end.

(** [fetch]; the client is dropped with its connection. *)
Definition fetch (fuel : nat) (url : bytes) (request : Request) (keep_alive : bool) : result Response :=
  parsed ← parse_url url;
  if bool_decide (u_scheme parsed <> "http"%bs)
  then Throw (InvalidArgument "corouv::http::fetch requires http:// URL"%bs)
  else
    let request := if bool_decide (rq_target request = [] \/ rq_target request = "/"%bs)
                   then set_rq_target (u_target parsed) request else request in
    let '(r, cl) := client_connect (u_host parsed) (u_port parsed) (mkClient [] 0 None keep_alive) in
    _ ← r; fst (client_request fuel request cl).
End Connection.

(** ** What the theorems use of picohttpparser *)

(** Token characters (RFC 9110) and the bytes of a header value. *)
Definition tchar (c : ascii) : bool := isalnum c || bool_decide (c ∈ "!#$%&'*+-.^_`|~"%bs).
Definition vchar (c : ascii) : bool := (32 <=? code c) && negb (code c =? 127).
Definition target_char (c : ascii) : bool := in_range 33 126 c.

Definition token_ok (s : bytes) : Prop := s <> [] /\ Forall (fun c => tchar c = true) s.
Definition value_ok (s : bytes) : Prop := trimmed s /\ Forall (fun c => vchar c = true) s.
Definition header_ok (h : Header) : Prop := token_ok (h_name h) /\ value_ok (h_value h).
Definition target_ok (s : bytes) : Prop := s <> [] /\ Forall (fun c => target_char c = true) s.

Record request_head_ok (method target : bytes) (minor : Z) (headers : Headers) : Prop := {
  qh_method : token_ok method;
  qh_target : target_ok target;
  qh_minor : 0 <= minor <= 1;
  qh_headers : Forall header_ok headers
}.
Record response_head_ok (minor status : Z) (reason : bytes) (headers : Headers) : Prop := {
  sh_minor : 0 <= minor <= 1;
  sh_status : 100 <= status <= 999;
  sh_reason : value_ok reason;
  sh_headers : Forall header_ok headers
}.

Definition phr_of (h : Header) : phr_header := mkPhr (Some (h_name h)) (h_value h).

(** A complete head at the start of the input is recognised, with its length
    and its fields; a non-empty proper prefix of one is partial.  [last_len]
    is the length of an earlier partial input. *)
Class PhrLaws `{PhrParser} := {
  phr_request_complete : forall m t v hs rest cap last_len,
    request_head_ok m t v hs -> size_of hs <= cap -> 0 <= last_len < size_of (request_head m t v hs) ->
    phr_parse_request (request_head m t v hs ++ rest) cap last_len =
      (size_of (request_head m t v hs), mkPhrRequest m t v (map phr_of hs));
  phr_request_partial : forall m t v hs p q cap last_len,
    request_head_ok m t v hs -> size_of hs <= cap -> 0 <= last_len <= size_of p ->
    request_head m t v hs = p ++ q -> p <> [] -> q <> [] ->
    fst (phr_parse_request p cap last_len) = -2;
  phr_response_complete : forall v st msg hs rest cap last_len,
    response_head_ok v st msg hs -> size_of hs <= cap ->
    0 <= last_len < size_of (response_head v st msg hs) ->
    phr_parse_response (response_head v st msg hs ++ rest) cap last_len =
      (size_of (response_head v st msg hs), mkPhrResponse v st msg (map phr_of hs));
  phr_response_partial : forall v st msg hs p q cap last_len,
    response_head_ok v st msg hs -> size_of hs <= cap -> 0 <= last_len <= size_of p ->
    response_head v st msg hs = p ++ q -> p <> [] -> q <> [] ->
    fst (phr_parse_response p cap last_len) = -2
}.

(** ** A parser that satisfies the laws *)

Definition take_line (s : bytes) : option (bytes * bytes) :=
  match find_str crlf s with None => None | Some i => Some (take i s, drop (i + 2) s) end.

(** [None]: partial; [Some None]: invalid; else the headers and what follows. *)
Fixpoint ref_headers (fuel : nat) (s : bytes) : option (option (list phr_header * bytes)) :=
  match fuel with
  | O => None
  | S fuel' =>
      match take_line s with
      | None => None
      | Some ([], rest) => Some (Some ([], rest))
      | Some (line, rest) =>
          match find_char ":"%char line with
          | None => Some None
          | Some i =>
              match ref_headers fuel' rest with
              | None => None
              | Some None => Some None
              | Some (Some (hs, rest')) =>
                  Some (Some (mkPhr (Some (take i line)) (trim_copy (drop (S i) line)) :: hs, rest'))
              end
          end
      end
  end.

(** The first line and the headers, with the number of bytes read. *)
Definition ref_head (s : bytes) (cap : Z) : Z * (bytes * list phr_header) :=
  match take_line s with
  | None => (-2, ([], []))
  | Some (line, rest) =>
      match ref_headers (length s) rest with
      | None => (-2, ([], []))
      | Some None => (-1, ([], []))
      | Some (Some (hs, rest')) =>
          if cap <? size_of hs then (-1, ([], [])) else (size_of s - size_of rest', (line, hs))
      end
  end.

Definition until (c : ascii) (s : bytes) : bytes * bytes :=
  match find_char c s with None => (s, []) | Some i => (take i s, drop (S i) s) end.
Definition ref_number (s : bytes) : Z := default 0 (parse_full W64 10 s).

Definition ref_request (line : bytes) (hs : list phr_header) : phr_request :=
  let '(method, r) := until SP line in
  let '(target, version) := until SP r in
  mkPhrRequest method target (ref_number (drop 7 version)) hs.
Definition ref_response (line : bytes) (hs : list phr_header) : phr_response :=
  let '(version, r) := until SP line in
  let '(status, msg) := until SP r in
  mkPhrResponse (ref_number (drop 7 version)) (ref_number status) msg hs.

#[export] Instance ref_parser : PhrParser := {
  phr_parse_request s cap _ := let '(n, (line, hs)) := ref_head s cap in (n, ref_request line hs);
  phr_parse_response s cap _ := let '(n, (line, hs)) := ref_head s cap in (n, ref_response line hs)
}.

(** *** Its laws *)

Lemma take_line_found line rest : LF ∉ line -> take_line (line ++ crlf ++ rest) = Some (line, rest).
Proof.
  intros Hlf. unfold take_line. rewrite find_crlf, take_app_length by done.
  rewrite app_assoc. rewrite drop_app_length'; [done|]. rewrite length_app. done.
Qed.

(** A prefix of a line: either the line is not complete or it is found. *)
Lemma take_line_prefix line rest p q :
  LF ∉ line -> line ++ crlf ++ rest = p ++ q ->
  take_line p = None \/ exists p', take_line p = Some (line, p') /\ rest = p' ++ q.
Proof.
  intros Hlf E. unfold take_line. destruct (find_str crlf p) as [i|] eqn:Ei; [right | by left].
  pose proof (find_str_prefix _ _ q _ Ei) as Hi. rewrite <- E, find_crlf in Hi by done.
  injection Hi as <-. destruct (find_str_Some _ _ _ Ei) as [t Ht].
  assert (length line <= length p)%nat as Hl.
  { apply (f_equal length) in Ht. rewrite !length_app, length_take in Ht. simpl in Ht. lia. }
  assert (take (length line) p = line) as Htk.
  { transitivity (take (length line) (line ++ crlf ++ rest)); [by rewrite E, take_app_le | apply take_app_length]. }
  rewrite Htk in *. exists t. split.
  - do 2 f_equal. rewrite Ht, app_assoc. apply drop_app_length'. by rewrite length_app.
  - rewrite Ht, <- !app_assoc in E. by apply app_inv_head, app_inv_head in E.
Qed.

Lemma chars_not (f : ascii -> bool) x s : f x = false -> Forall (fun c => f c = true) s -> x ∉ s.
Proof. intros Hf Hs Hin. rewrite Forall_forall in Hs. specialize (Hs _ Hin). simpl in Hs. congruence. Qed.

Lemma header_ok_trailer h : header_ok h -> trailer_ok h.
Proof.
  intros [[Hne Hn] [Ht Hv]]. unfold trailer_ok.
  split_and!; [|done | eapply (chars_not tchar); done | eapply (chars_not tchar); done
    | eapply (chars_not vchar); done].
  apply trimmed_no_space. intros c Hc. rewrite Forall_forall in Hn. specialize (Hn c Hc). simpl in Hn.
  destruct (isspace c) eqn:E; [|done]. revert Hn E. all_bytes c.
Qed.

Lemma ref_headers_complete fuel hs rest :
  Forall header_ok hs -> (length hs < fuel)%nat ->
  ref_headers fuel (serialize_headers hs ++ crlf ++ rest) = Some (Some (map phr_of hs, rest)).
Proof.
  revert fuel. induction hs as [|h hs IH]; intros fuel Hall Hf; (destruct fuel as [|fuel]; [simpl in Hf; lia|]);
    cbn [ref_headers].
  - change (serialize_headers [] ++ crlf ++ rest) with ([] ++ crlf ++ rest).
    rewrite take_line_found; [done | apply not_elem_of_nil].
  - apply Forall_cons in Hall as [Hh Hall]. rewrite serialize_headers_cons, <- !app_assoc.
    apply header_ok_trailer in Hh as Ht. destruct (trailer_line_read h Ht) as (Ha & Hlf & Hne).
    rewrite take_line_found by done. destruct (trailer_line h) as [|x l] eqn:E; [done|]. rewrite <- E in *.
    unfold append_trailer in Ha. destruct (find_char ":"%char (trailer_line h)) as [i|] eqn:Ei; [|done].
    rewrite IH by (done || simpl in Hf; lia).
    assert (i = length (h_name h)) as ->.
    { unfold trailer_line in Ei. change (": "%bs ++ h_value h) with (":"%char :: SP :: h_value h) in Ei.
      rewrite find_char_app in Ei by apply Ht. by injection Ei. }
    unfold trailer_line. change (": "%bs ++ h_value h) with (":"%char :: SP :: h_value h).
    rewrite take_app_length, drop_past, trim_copy_sp.
    rewrite trim_copy_id by apply Ht. done.
Qed.

Lemma ref_headers_partial fuel hs p q :
  Forall header_ok hs -> serialize_headers hs ++ crlf = p ++ q -> q <> [] -> ref_headers fuel p = None.
Proof.
  revert fuel p. induction hs as [|h hs IH]; intros fuel p Hall E Hq; (destruct fuel as [|fuel]; [done|]);
    cbn [ref_headers].
  - destruct (take_line_prefix [] [] p q) as [->|(p' & -> & Ep)];
      [apply not_elem_of_nil | by rewrite app_nil_r | done |].
    symmetry in Ep. by apply app_eq_nil in Ep as [_ ->].
  - apply Forall_cons in Hall as [Hh Hall]. rewrite serialize_headers_cons, <- !app_assoc in E.
    apply header_ok_trailer in Hh. destruct (trailer_line_read h Hh) as (Ha & Hlf & Hne).
    destruct (take_line_prefix _ _ _ _ Hlf E) as [->|(p' & -> & Ep)]; [done|].
    destruct (trailer_line h) as [|x l] eqn:El; [done|]. rewrite <- El in *.
    unfold append_trailer in Ha. destruct (find_char ":"%char (trailer_line h)); [|done].
    by rewrite (IH fuel p').
Qed.

Lemma serialize_headers_length hs : (length hs <= length (serialize_headers hs))%nat.
Proof.
  induction hs as [|h hs IH]; [done|]. rewrite serialize_headers_cons, !length_app. simpl. lia.
Qed.

Lemma ref_head_complete line hs rest cap :
  LF ∉ line -> Forall header_ok hs -> size_of hs <= cap ->
  ref_head (line ++ crlf ++ serialize_headers hs ++ crlf ++ rest) cap =
    (size_of (line ++ crlf ++ serialize_headers hs ++ crlf), (line, map phr_of hs)).
Proof.
  intros Hlf Hall Hcap. unfold ref_head. rewrite take_line_found by done.
  rewrite ref_headers_complete; [|done|].
  - replace (size_of (map phr_of hs)) with (size_of hs) by (unfold size_of; by rewrite length_map).
    destruct (Z.ltb_spec cap (size_of hs)); [lia|]. f_equal. rewrite !size_of_app. lia.
  - pose proof (serialize_headers_length hs). rewrite !length_app. simpl. lia.
Qed.

Lemma ref_head_partial line hs p q cap :
  LF ∉ line -> Forall header_ok hs -> line ++ crlf ++ serialize_headers hs ++ crlf = p ++ q -> q <> [] ->
  fst (ref_head p cap) = -2.
Proof.
  intros Hlf Hall E Hq. unfold ref_head.
  destruct (take_line_prefix _ _ _ _ Hlf E) as [->|(p' & -> & Ep)]; [done|].
  by rewrite (ref_headers_partial _ hs p' q).
Qed.

Definition request_line (m t : bytes) (v : Z) : bytes := m ++ SP :: t ++ SP :: "HTTP/1."%bs ++ to_string v.
Definition status_line (v st : Z) (msg : bytes) : bytes :=
  ("HTTP/1."%bs ++ to_string v) ++ SP :: to_string st ++ SP :: msg.

Lemma request_head_line m t v hs :
  request_head m t v hs = request_line m t v ++ crlf ++ serialize_headers hs ++ crlf.
Proof. unfold request_head, request_line. simpl. rewrite <- !app_assoc. simpl. by rewrite <- !app_assoc. Qed.

Lemma response_head_line v st msg hs :
  response_head v st msg hs = status_line v st msg ++ crlf ++ serialize_headers hs ++ crlf.
Proof. unfold response_head, status_line. simpl. rewrite <- !app_assoc. simpl. by rewrite <- !app_assoc. Qed.

Lemma until_app c a b : c ∉ a -> until c (a ++ c :: b) = (a, b).
Proof. intros Ha. unfold until. by rewrite find_char_app, take_app_length, drop_past. Qed.

Lemma to_string_not n c : 0 <= n -> hex_value c < 0 -> c ∉ to_string n.
Proof.
  intros Hn Hc. unfold to_string. replace (n <? 0) with false by lia. apply print_base_clean; lia.
Qed.

Lemma ref_number_to_string n : is_size n -> ref_number (to_string n) = n.
Proof. intros Hn. unfold ref_number. by rewrite to_string_parse. Qed.

Lemma request_line_ok m t v hs :
  request_head_ok m t v hs ->
  LF ∉ request_line m t v /\ forall phs, ref_request (request_line m t v) phs = mkPhrRequest m t v phs.
Proof.
  intros [[_ Hm] [_ Ht] Hv _]. split.
  - unfold request_line. rewrite !not_elem_of_app, !not_elem_of_cons, !not_elem_of_app, !not_elem_of_cons, !not_elem_of_app.
    split_and!; try done; try (by apply (chars_not tchar)); try (by apply (chars_not target_char)).
    + apply find_char_None. reflexivity.
    + apply to_string_not; [lia | done].
  - intros phs. unfold ref_request, request_line.
    rewrite until_app by (by apply (chars_not tchar)). rewrite until_app by (by apply (chars_not target_char)).
    change (drop 7 ("HTTP/1."%bs ++ to_string v)) with (to_string v).
    rewrite ref_number_to_string by (unfold is_size, W64; lia). done.
Qed.

Lemma status_line_ok v st msg hs :
  response_head_ok v st msg hs ->
  LF ∉ status_line v st msg /\ forall phs, ref_response (status_line v st msg) phs = mkPhrResponse v st msg phs.
Proof.
  intros [Hv Hs [_ Hm] _].
  assert (forall c, hex_value c < 0 -> c ∉ "HTTP/1."%bs -> c ∉ "HTTP/1."%bs ++ to_string v) as Hver.
  { intros c H1 H2. rewrite not_elem_of_app. split; [done|]. apply to_string_not; [lia | done]. }
  split.
  - unfold status_line. apply not_elem_of_app. split; [|apply not_elem_of_cons; split; [done|]].
    2: { apply not_elem_of_app. split; [apply to_string_not; [lia|done]|].
         apply not_elem_of_cons. split; [done | by apply (chars_not vchar)]. }
    apply Hver; [done | by apply find_char_None].
  - intros phs. unfold ref_response, status_line.
    rewrite until_app by (apply Hver; [done | by apply find_char_None]).
    rewrite until_app by (apply to_string_not; [lia|done]).
    change (drop 7 ("HTTP/1."%bs ++ to_string v)) with (to_string v).
    rewrite !ref_number_to_string by (unfold is_size, W64; lia). done.
Qed.

#[export] Instance ref_parser_laws : PhrLaws.
Proof.
  split.
  - intros m t v hs rest cap ll Hok Hcap _. cbn [phr_parse_request ref_parser]. rewrite request_head_line, <- !app_assoc.
    destruct (request_line_ok _ _ _ _ Hok) as [Hlf Hp].
    rewrite ref_head_complete by (done || apply Hok). by rewrite Hp.
  - intros m t v hs p q cap ll Hok Hcap _ E _ Hq. simpl. rewrite request_head_line in E.
    destruct (request_line_ok _ _ _ _ Hok) as [Hlf _].
    pose proof (ref_head_partial _ hs p q cap Hlf (qh_headers _ _ _ _ Hok) E Hq) as Hr.
    by destruct (ref_head p cap) as [n [l phs]].
  - intros v st msg hs rest cap ll Hok Hcap _. cbn [phr_parse_response ref_parser]. rewrite response_head_line, <- !app_assoc.
    destruct (status_line_ok _ _ _ _ Hok) as [Hlf Hp].
    rewrite ref_head_complete by (done || apply Hok). by rewrite Hp.
  - intros v st msg hs p q cap ll Hok Hcap _ E _ Hq. simpl. rewrite response_head_line in E.
    destruct (status_line_ok _ _ _ _ Hok) as [Hlf _].
    pose proof (ref_head_partial _ hs p q cap Hlf (sh_headers _ _ _ _ Hok) E Hq) as Hr.
    by destruct (ref_head p cap) as [n [l phs]].
Qed.
