(* ===== verification/HttpExchange.v ===== *)
(** * HTTP exchanges: theorems on messages, server and client

    What the connection of HttpConnection.v puts on the wire, as pure
    functions ([request_wire], [response_wire]), and the theorems: a request
    or response written by one peer is read back by the other as the same
    message, through any segmentation and with anything behind it; a server
    answers pipelined requests in order, one response each, exactly as the
    sequential specification [serve_spec] says, and closes the stream; what a
    handler throws becomes a response; and the cases in which the two sides
    do not agree. *)

From S2P Require Import Prelude CxxString HttpHeaders HttpUrl Stream HttpBody HttpConnection.

Local Open Scope Z_scope.
Local Open Scope conn_scope.

(** ** What is on the wire *)

Definition body_wire (chunked : bool) (body : bytes) (trailers : Headers) : bytes :=
  if chunked then chunked_wire [body] trailers else body.

Definition request_headers (q : Request) (host : bytes) : Headers :=
  prepare_outgoing_headers (with_host (rq_headers q) host) (rq_keep_alive q) (rq_chunked q)
    (if rq_chunked q then 0 else size_of (rq_body q)).
Definition request_wire (q : Request) (host : bytes) : bytes :=
  request_head (rq_method q) (outgoing_target (rq_target q)) (rq_version_minor q) (request_headers q host)
  ++ body_wire (rq_chunked q) (rq_body q) (rq_trailers q).

(** The request as the peer sees it. *)
Definition received_request (q : Request) (host : bytes) : Request :=
  mkRequest (rq_method q) (outgoing_target (rq_target q)) (request_headers q host) (rq_body q)
    (if rq_chunked q then rq_trailers q else []) (rq_version_minor q) (rq_keep_alive q) (rq_chunked q).

(** Whether the response announces chunking: [write_response_stream] does so
    only for a response that has a body. *)
Definition response_chunks (r : Response) (method : bytes) : bool :=
  rs_chunked r && response_has_body (rs_status r) method.
Definition response_headers (r : Response) (method : bytes) : Headers :=
  prepare_outgoing_headers (rs_headers r) (rs_keep_alive r) (response_chunks r method)
    (if rs_chunked r then 0 else size_of (rs_body r)).
Definition response_wire (r : Response) (method : bytes) : bytes :=
  response_head (rs_version_minor r) (rs_status r) (outgoing_reason r) (response_headers r method)
  ++ if response_has_body (rs_status r) method
     then body_wire (rs_chunked r) (rs_body r) (rs_trailers r) else [].

Definition received_response (r : Response) (method : bytes) : Response :=
  mkResponse (rs_status r) (outgoing_reason r) (response_headers r method)
    (if response_has_body (rs_status r) method then rs_body r else [])
    (if response_chunks r method then rs_trailers r else []) (rs_version_minor r) (rs_keep_alive r)
    (response_chunks r method).

(** ** Lemmas: headers *)

Lemma copy_headers_phr hs : copy_headers (map phr_of hs) = hs.
Proof.
  unfold copy_headers.
  assert (forall acc, copy_headers_loop acc (map phr_of hs) = acc ++ hs) as ->; [|done].
  induction hs as [|h hs IH]; intros acc; simpl; [by rewrite app_nil_r|].
  rewrite IH, <- app_assoc. by destruct h.
Qed.

Lemma expect_headers_none hs st : no_header hs "Expect"%bs -> expect_headers_loop hs st = st.
Proof.
  revert st. induction hs as [|h hs IH]; intros st Hn; simpl; [done|].
  apply no_header_cons in Hn as [Hh Hn]. rewrite Hh. by apply IH.
Qed.

Lemma no_expect hs : no_header hs "Expect"%bs -> parse_expect hs = Expect_None /\ expects_continue hs = false.
Proof. intros Hn. unfold expects_continue, parse_expect. by rewrite expect_headers_none. Qed.

Lemma with_host_no_header hs host name :
  iequals "Host"%bs name = false -> no_header hs name -> no_header (with_host hs host) name.
Proof.
  intros He Hn. unfold with_host. destruct host; [done|].
  destruct (find_header hs _); [done|]. by apply no_header_set_other.
Qed.

Lemma prepare_no_header hs keep ch n name :
  iequals "Connection"%bs name = false -> iequals "Content-Length"%bs name = false ->
  iequals "Transfer-Encoding"%bs name = false -> no_header hs name ->
  no_header (prepare_outgoing_headers hs keep ch n) name.
Proof.
  intros H1 H2 H3 Hn. unfold prepare_outgoing_headers.
  destruct ch; repeat (apply no_header_set_other; [done|]); by repeat apply no_header_erase_other.
Qed.

Lemma erase_header_ok hs name : Forall header_ok hs -> Forall header_ok (erase_header hs name).
Proof.
  rewrite !Forall_forall. intros Hall h Hh. apply elem_of_erase_header in Hh as [Hh _]. by apply Hall.
Qed.

Lemma set_header_ok hs name value :
  header_ok (mkHeader name value) -> Forall header_ok hs -> Forall header_ok (set_header hs name value).
Proof.
  intros Hh Hall. apply Forall_app. split; [by apply erase_header_ok | by constructor].
Qed.

(** A literal name and value are checked by evaluation. *)
Definition header_okb (h : Header) : bool :=
  negb (bool_decide (h_name h = [])) && forallb tchar (h_name h) &&
  bool_decide (trim_copy (h_value h) = h_value h) && forallb vchar (h_value h).

Lemma forallb_ok (f : ascii -> bool) s : forallb f s = true <-> Forall (fun c => f c = true) s.
Proof.
  induction s as [|c s IH]; simpl; [done|]. rewrite andb_true_iff, Forall_cons, IH. done.
Qed.

Lemma header_okb_ok h : header_okb h = true -> header_ok h.
Proof.
  unfold header_okb, header_ok, token_ok, value_ok. rewrite !andb_true_iff, negb_true_iff, !forallb_ok.
  intros [[[H1 H2] H3] H4]. apply bool_decide_eq_false in H1. apply bool_decide_eq_true in H3.
  split_and!; try done. rewrite <- H3. apply trim_copy_trimmed.
Qed.

Lemma to_string_vchar n : 0 <= n -> Forall (fun c => vchar c = true) (to_string n).
Proof.
  intros Hn. apply Forall_forall. intros c Hc. destruct (vchar c) eqn:E; [done|]. exfalso. revert Hc.
  apply to_string_not; [done|]. revert E. all_bytes c.
Qed.

Lemma prepare_headers_ok hs keep ch n :
  0 <= n -> Forall header_ok hs -> Forall header_ok (prepare_outgoing_headers hs keep ch n).
Proof.
  intros Hn Hall. unfold prepare_outgoing_headers.
  assert (Forall header_ok (set_header (erase_header (erase_header (erase_header hs "Connection"%bs)
    "Content-Length"%bs) "Transfer-Encoding"%bs) "Connection"%bs
    (if keep then "keep-alive"%bs else "close"%bs))) as Hc.
  { apply set_header_ok; [destruct keep; by apply header_okb_ok | by repeat apply erase_header_ok]. }
  destruct ch; apply set_header_ok; [by apply header_okb_ok | done | | done].
  split; [by split; [done | apply forallb_ok] | split; [by apply to_string_trimmed | by apply to_string_vchar]].
Qed.

Lemma size_of_set_header hs name value : size_of (set_header hs name value) <= size_of hs + 1.
Proof.
  unfold set_header, erase_header. rewrite size_of_app. unfold size_of. simpl.
  pose proof (List.filter_length_le (fun h => negb (iequals (h_name h) name)) hs). lia.
Qed.

Lemma size_of_erase_header hs name : size_of (erase_header hs name) <= size_of hs.
Proof.
  unfold erase_header, size_of.
  pose proof (List.filter_length_le (fun h => negb (iequals (h_name h) name)) hs). lia.
Qed.

Lemma size_of_prepare hs keep ch n : size_of (prepare_outgoing_headers hs keep ch n) <= size_of hs + 2.
Proof.
  unfold prepare_outgoing_headers.
  destruct ch; (etransitivity; [apply size_of_set_header|]); (etransitivity;
    [apply Z.add_le_mono_r, size_of_set_header|]);
    pose proof (size_of_erase_header hs "Connection"%bs);
    pose proof (size_of_erase_header (erase_header hs "Connection"%bs) "Content-Length"%bs);
    pose proof (size_of_erase_header (erase_header (erase_header hs "Connection"%bs) "Content-Length"%bs)
      "Transfer-Encoding"%bs); lia.
Qed.

(** ** Lemmas: reading a head *)

Section Heads.
Context {S K : Type} `{LiveStream S} `{PhrLaws}.
Variable limits : Limits.
Variable timeouts : IoTimeouts.
Implicit Types c : conn S K.

(** Either the head is in the buffer or more of it is to come. *)
Lemma head_split head rest c :
  input c = head ++ rest ->
  (exists x, buf_view c = head ++ x) \/
  (exists q, head = buf_view c ++ q /\ q <> [] /\ bs_incoming (c_stream c) <> []).
Proof.
  unfold input. intros Hin.
  destruct (Nat.le_gt_cases (length head) (length (buf_view c))) as [Hle|Hgt].
  - left. exists (drop (length head) (buf_view c)).
    rewrite <- (take_drop (length head) (buf_view c)) at 1. f_equal.
    transitivity (take (length head) (buf_view c ++ bs_incoming (c_stream c))).
    + by rewrite take_app_le.
    + rewrite Hin. apply take_app_length.
  - right. exists (drop (length (buf_view c)) head). split_and!.
    + rewrite <- (take_drop (length (buf_view c)) head) at 1. f_equal.
      transitivity (take (length (buf_view c)) (head ++ rest)).
      * rewrite take_app_le by lia. done.
      * rewrite <- Hin. apply take_app_length.
    + intros E. apply (f_equal length) in E. rewrite length_drop in E. simpl in E. lia.
    + intros E. rewrite E, app_nil_r in Hin. apply (f_equal length) in Hin.
      rewrite length_app in Hin. lia.
Qed.

Lemma size_of_lt_app (p q head : bytes) : head = p ++ q -> q <> [] -> size_of p < size_of head.
Proof. intros -> Hq. rewrite size_of_app. destruct q; [done|]. unfold size_of. simpl. lia. Qed.

(** [c'] is [c] with at least [n] bytes buffered. *)
Definition buffered (n : Z) (c c' : conn S K) : Prop :=
  quiet c c' /\ n <= size_of (buf_view c') /\ (pending_len c' <= pending_len c)%nat.

Lemma buffered_step n c1 c2 c3 :
  quiet c1 c2 -> (pending_len c2 <= pending_len c1)%nat -> buffered n c2 c3 -> buffered n c1 c3.
Proof. intros Hq Hl (Hq' & Hn & Hl'). split_and!; [by eapply quiet_trans | done | lia]. Qed.

(** The read between two parse attempts. *)
Lemma head_read_more head rest q es msg timeout ts tm c :
  conn_ok c -> input c = head ++ rest -> head = buf_view c ++ q -> q <> [] ->
  bs_incoming (c_stream c) <> [] -> size_of head <= max_header_bytes limits < W64 ->
  exists n c', read_more (max_header_bytes limits) es msg
      (sz_sub (max_header_bytes limits) (size_of (buf_view c))) timeout ts tm c = (Ok n, c') /\
    (n =? 0) = false /\ quiet c c' /\ (pending_len c' < pending_len c)%nat /\
    size_of (buf_view c) <= size_of (buf_view c').
Proof.
  intros Hok Hin Hq Hne Hinc Hmax. pose proof (size_of_lt_app _ _ _ Hq Hne) as Hlt.
  pose proof (size_of_nonneg (buf_view c)) as H0'.
  rewrite sz_sub_small by lia.
  destruct (read_more_some (max_header_bytes limits) es msg (max_header_bytes limits - size_of (buf_view c))
    timeout ts tm c Hok) as (n & c' & Hr & Hn & Hqt & Hl & d & Hv & _); [lia | lia | done |].
  exists n, c'. split_and!; try done. rewrite Hv, size_of_app. pose proof (size_of_nonneg d). lia.
Qed.

Variable on_chunk : bytes -> K -> result unit * K.

(** One parse attempt on the buffer. *)
Lemma request_attempt m t v hs rest last_len c :
  let head := request_head m t v hs in
  input c = head ++ rest -> request_head_ok m t v hs -> size_of hs <= max_header_count limits ->
  0 <= last_len <= size_of (buf_view c) -> last_len < size_of head ->
  let r := match buf_view c with
           | [] => (-2, mkPhrRequest [] [] 1 [])
           | _ => phr_parse_request (buf_view c) (max_header_count limits) last_len
           end in
  (r = (size_of head, mkPhrRequest m t v (map phr_of hs)) /\ size_of head <= size_of (buf_view c)) \/
  (fst r = -2 /\ exists q, head = buf_view c ++ q /\ q <> [] /\ bs_incoming (c_stream c) <> []).
Proof.
  intros head Hin Hh Hcap Hl1 Hl2 r. destruct (head_split head rest c Hin) as [[x Hx]|(q & Hq & Hne & Hinc)].
  - left. rewrite Hx, size_of_app. pose proof (size_of_nonneg x). split; [|lia].
    unfold r. rewrite Hx. unfold head in *. rewrite phr_request_complete by (done || lia).
    destruct (request_head m t v hs ++ x) as [|y ys] eqn:E; [|done].
    apply app_eq_nil in E as [E _]. rewrite E in Hl2. unfold size_of in Hl2. simpl in Hl2. lia.
  - right. split; [|by exists q]. unfold r. destruct (buf_view c) as [|y ys] eqn:E; [done|].
    by apply (phr_request_partial m t v hs (y :: ys) q).
Qed.

Lemma response_attempt v st msg hs rest last_len c :
  let head := response_head v st msg hs in
  input c = head ++ rest -> response_head_ok v st msg hs -> size_of hs <= max_header_count limits ->
  0 <= last_len <= size_of (buf_view c) -> last_len < size_of head ->
  let r := match buf_view c with
           | [] => (-2, mkPhrResponse 1 0 [] [])
           | _ => phr_parse_response (buf_view c) (max_header_count limits) last_len
           end in
  (r = (size_of head, mkPhrResponse v st msg (map phr_of hs)) /\ size_of head <= size_of (buf_view c)) \/
  (fst r = -2 /\ exists q, head = buf_view c ++ q /\ q <> [] /\ bs_incoming (c_stream c) <> []).
Proof.
  intros head Hin Hh Hcap Hl1 Hl2 r. destruct (head_split head rest c Hin) as [[x Hx]|(q & Hq & Hne & Hinc)].
  - left. rewrite Hx, size_of_app. pose proof (size_of_nonneg x). split; [|lia].
    unfold r. rewrite Hx. unfold head in *. rewrite phr_response_complete by (done || lia).
    destruct (response_head v st msg hs ++ x) as [|y ys] eqn:E; [|done].
    apply app_eq_nil in E as [E _]. rewrite E in Hl2. unfold size_of in Hl2. simpl in Hl2. lia.
  - right. split; [|by exists q]. unfold r. destruct (buf_view c) as [|y ys] eqn:E; [done|].
    by apply (phr_response_partial v st msg hs (y :: ys) q).
Qed.

Lemma not_pending_0 c : bs_incoming (c_stream c) <> [] -> ~ (pending_len c <= 0)%nat.
Proof. unfold pending_len. destruct (bs_incoming (c_stream c)); [done | simpl; lia]. Qed.

Lemma read_request_loop_ok m t v hs rest fuel bfuel last_len c :
  let head := request_head m t v hs in
  conn_ok c -> input c = head ++ rest -> request_head_ok m t v hs ->
  size_of hs <= max_header_count limits -> size_of head <= max_header_bytes limits < W64 ->
  0 <= last_len <= size_of (buf_view c) -> last_len < size_of head -> (pending_len c <= fuel)%nat ->
  exists c', read_request_loop limits timeouts on_chunk fuel bfuel last_len c =
      (request <- finish_request limits timeouts on_chunk bfuel (size_of head)
                    (mkPhrRequest m t v (map phr_of hs)) ;; m_ret (Some request)) c' /\
    buffered (size_of head) c c'.
Proof.
  intros head Hok Hin Hh Hcap Hmax. revert last_len c Hok Hin.
  induction fuel as [|fuel IH]; intros last_len c Hok Hin Hl1 Hl2 Hf; cbn [read_request_loop];
    unfold m_bind at 1, m_get at 1;
    destruct (request_attempt m t v hs rest last_len c Hin Hh Hcap Hl1 Hl2) as [[Hr Hb]|(Hr & q & Hq & Hne & Hinc)].
  1, 3: rewrite Hr; fold head; destruct (Z.ltb_spec 0 (size_of head)); [|lia]; exists c;
    (split; [done|]); split_and!; [by apply quiet_refl | done | done].
  { by apply not_pending_0 in Hinc. }
  match type of Hr with fst ?r = _ => destruct r as [n p]; simpl in Hr; subst n end.
  cbn [Z.ltb Z.compare Z.eqb Pos.eqb].
  unfold m_bind at 1, m_get at 1. rewrite (conn_ok_size c Hok).
  pose proof (size_of_lt_app _ _ _ Hq Hne) as Hlt. fold head in Hlt.
  destruct (Z.leb_spec (max_header_bytes limits) (size_of (buf_view c))); [lia|].
  edestruct (head_read_more head rest q) as (n & c1 & Hrm & Hn & Hqt & Hl & Hv); [done | done | done | done | done | lia |].
  unfold m_bind at 1. rewrite Hrm, Hn.
  destruct (IH (size_of (buf_view c)) c1) as (c2 & Hc2 & B2); [apply Hqt | by rewrite (proj1 (proj2 Hqt)) | | done | lia |].
  { pose proof (size_of_nonneg (buf_view c)). lia. }
  exists c2. split; [done|]. eapply buffered_step; [done | lia | done].
Qed.
End Heads.

(** ** Lemmas: reading a message *)

Record body_fits (limits : Limits) (chunked : bool) (body : bytes) (trailers : Headers) : Prop := {
  bf_body : size_of body <= max_body_bytes limits < 2 ^ 62;
  bf_header : 18 <= max_header_bytes limits < 2 ^ 62;
  bf_chunked : chunked = true -> body <> [] /\ trailers_fit limits trailers
}.

(** Fuel that is enough to read a message body. *)
Definition body_fuel (body : bytes) (trailers : Headers) : nat :=
  (2 * length body + length trailers + 4)%nat.

Section Bodies.
Context {S : Type} `{LiveStream S}.
Variable limits : Limits.
Implicit Types c : conn S bytes.

Lemma read_chunked_ok body trailers rest fuel timeout ts tm c :
  conn_ok c -> input c = body_wire true body trailers ++ rest -> body_fits limits true body trailers ->
  (pending_len c + body_fuel body trailers <= fuel)%nat ->
  exists c', read_chunked_body_stream collect fuel limits timeout ts tm true c = (Ok trailers, c') /\
    delivered body rest c c'.
Proof.
  intros Hok Hin [Hb Hh Hc] Hf. destruct (Hc eq_refl) as [Hne Ht]. unfold body_fuel in Hf.
  destruct (chunked_loop_ok limits trailers timeout ts tm rest [body] fuel 0 c) as (c' & Hr & D);
    try done; try lia.
  - by constructor.
  - simpl. rewrite app_nil_r. lia.
  - simpl. lia.
  - exists c'. simpl in D. rewrite app_nil_r in D. split; [|done].
    unfold read_chunked_body_stream, m_bind. by rewrite Hr.
Qed.

Lemma read_fixed_ok chunked body trailers rest fuel timeout ts tm c :
  conn_ok c -> input c = body ++ rest -> body_fits limits chunked body trailers ->
  (pending_len c + body_fuel body trailers <= fuel)%nat ->
  exists c', read_fixed_body_stream collect fuel limits (size_of body) timeout ts tm c = (Ok tt, c') /\
    delivered body rest c c'.
Proof.
  intros Hok Hin [Hb Hh _] Hf. unfold body_fuel in Hf. unfold read_fixed_body_stream.
  destruct (Z.ltb_spec (max_body_bytes limits) (size_of body)) as [|_]; [lia|].
  pose proof (size_of_nonneg rest) as Hr0. pose proof (size_of_nonneg body) as Hb0.
  destruct (fixed_body_loop_ok fuel (size_of body) timeout ts tm c) as (c' & Hr & D).
  - done.
  - rewrite Hin, size_of_app. lia.
  - unfold size_of in *. case_decide; lia.
  - exists c'. split; [done|]. rewrite Hin in D. unfold size_of in D.
    by rewrite Nat2Z.id, take_app_length, drop_app_length in D.
Qed.
End Bodies.

(** The head of a message that fits the limits of its reader. *)
Definition head_fits (limits : Limits) (head : bytes) (headers : Headers) : Prop :=
  size_of headers <= max_header_count limits /\ size_of head <= max_header_bytes limits.

Record request_fits (limits : Limits) (q : Request) (host : bytes) : Prop := {
  qf_method : token_ok (rq_method q);
  qf_target : target_ok (outgoing_target (rq_target q));
  qf_minor : 0 <= rq_version_minor q <= 1;
  qf_headers : Forall header_ok (rq_headers q);
  qf_host : value_ok host;
  qf_expect : no_header (rq_headers q) "Expect"%bs;
  qf_head : head_fits limits (request_head (rq_method q) (outgoing_target (rq_target q))
              (rq_version_minor q) (request_headers q host)) (request_headers q host);
  qf_body : body_fits limits (rq_chunked q) (rq_body q) (rq_trailers q)
}.

Lemma body_size_ok limits ch body ts : body_fits limits ch body ts -> is_size (size_of body).
Proof.
  intros [[Hb Hb'] _ _]. pose proof pow62_W64. pose proof (size_of_nonneg body). unfold is_size. lia.
Qed.

Lemma with_host_ok hs host : Forall header_ok hs -> value_ok host -> Forall header_ok (with_host hs host).
Proof.
  intros Hh Hv. unfold with_host. destruct host as [|x host'] eqn:E; [done|]. rewrite <- E in *.
  destruct (find_header hs _); [done|]. apply set_header_ok; [|done].
  split; [|done]. split; [done | by apply forallb_ok].
Qed.

(** What the peer's parsers make of the headers of a request that fits. *)
Lemma request_headers_ok limits q host :
  request_fits limits q host ->
  Forall header_ok (request_headers q host) /\
  request_framing (request_headers q host) =
    Ok (rq_chunked q, if rq_chunked q then None else Some (size_of (rq_body q))) /\
  parse_expect (request_headers q host) = Expect_None /\
  expects_continue (request_headers q host) = false /\
  (forall minor, should_keep_alive (request_headers q host) minor = rq_keep_alive q).
Proof.
  intros [_ _ _ Hh Hhost He _ Hb]. unfold request_headers.
  pose proof (body_size_ok _ _ _ _ Hb) as Hs.
  set (n := if rq_chunked q then 0 else size_of (rq_body q)).
  assert (is_size n) as Hn by (unfold n; destruct (rq_chunked q); [by unfold is_size, W64 | done]).
  destruct (prepare_outgoing_framing (with_host (rq_headers q) host) (rq_keep_alive q) (rq_chunked q) n Hn)
    as (Ht & Hc & Hk & _).
  split_and!; [| | | | done].
  - apply prepare_headers_ok; [apply Hn | by apply with_host_ok].
  - unfold request_framing. rewrite Ht, Hc. unfold n. by destruct (rq_chunked q).
  - apply no_expect, prepare_no_header, with_host_no_header; done.
  - apply no_expect, prepare_no_header, with_host_no_header; done.
Qed.

Section ReadMessage.
Context {S K : Type} `{LiveStream S} `{PhrLaws}.
Variable limits : Limits.
Variable timeouts : IoTimeouts.

(** The connection seen by a callback with its own state. *)
Definition inner (c : conn S K) : conn S bytes :=
  mkConn (c_stream c) (c_buffer c) (c_offset c) (c_prefetched c) [].

Lemma m_local_read {A} (m : M S bytes A) a body rest c c1 :
  m (inner c) = (Ok a, c1) -> delivered body rest (inner c) c1 ->
  exists c', m_local [] m c = (Ok (a, body), c') /\ read_to rest c c'.
Proof.
  intros Hm (Hok & Hin & He & Hp & Hs & Hl). unfold m_local. fold (inner c). rewrite Hm, He.
  eexists. split; [done|]. unfold read_to, conn_ok, input, buf_view, pending_len in *. simpl in *. done.
Qed.

(** The body of a request behind its head. *)
Lemma finish_request_ok q host rest fuel (c : conn S bytes) :
  let head := request_head (rq_method q) (outgoing_target (rq_target q)) (rq_version_minor q)
                (request_headers q host) in
  conn_ok c -> input c = request_wire q host ++ rest -> size_of head <= size_of (buf_view c) ->
  request_fits limits q host -> (pending_len c + body_fuel (rq_body q) (rq_trailers q) <= fuel)%nat ->
  exists c', finish_request limits timeouts collect fuel (size_of head)
      (mkPhrRequest (rq_method q) (outgoing_target (rq_target q)) (rq_version_minor q)
         (map phr_of (request_headers q host))) c
    = (Ok (set_rq_body [] (received_request q host)), c') /\ delivered (rq_body q) rest c c'.
Proof.
  intros head Hok Hin Hb Hfit Hf. destruct (request_headers_ok limits q host Hfit) as (_ & Hfr & He & _ & Hk).
  unfold request_wire in Hin. fold head in Hin. rewrite <- app_assoc in Hin.
  destruct (buf_consume_read_to (length head) (body_wire (rq_chunked q) (rq_body q) (rq_trailers q) ++ rest) c)
    as (c1 & Hr1 & Hto1 & _); [done | unfold size_of in Hb; lia | rewrite Hin; apply drop_app_length |].
  pose proof (read_to_delivered _ _ _ Hto1) as D1. destruct Hto1 as (Hok1 & Hin1 & _ & _ & _ & Hl1).
  unfold finish_request. cbn [pq_headers pq_method pq_path pq_minor]. rewrite copy_headers_phr.
  unfold m_bind, m_lift. rewrite Hfr. unfold size_of at 1. rewrite Hr1, He, Hk.
  rewrite bool_decide_eq_false_2 by done. simpl andb.
  unfold received_request, set_rq_body. pose proof (qf_body _ _ _ Hfit) as Hbf.
  destruct (rq_chunked q).
  - destruct (read_chunked_ok limits (rq_body q) (rq_trailers q) rest fuel (t_read_body timeouts) 408
      "request body read timeout"%bs c1) as (c2 & Hr2 & D2); [done | done | done | lia |].
    simpl. rewrite Hr2. exists c2. split; [done|]. by apply (delivered_trans [] _ _ _ c c1 _ D1).
  - destruct (read_fixed_ok limits false (rq_body q) (rq_trailers q) rest fuel (t_read_body timeouts) 408
      "request body read timeout"%bs c1) as (c2 & Hr2 & D2); [done | done | done | lia |].
    simpl. rewrite Hr2. exists c2. split; [done|]. by apply (delivered_trans [] _ _ _ c c1 _ D1).
Qed.

Lemma size_of_head_pos line hs : 0 < size_of (line ++ crlf ++ serialize_headers hs ++ crlf).
Proof.
  rewrite !size_of_app. change (size_of crlf) with 2. pose proof (size_of_nonneg line).
  pose proof (size_of_nonneg (serialize_headers hs)). lia.
Qed.

(** A request that fits is read exactly, and nothing behind it is touched. *)
Lemma read_request_ok q host rest fuel (c : conn S K) :
  conn_ok c -> input c = request_wire q host ++ rest -> request_fits limits q host ->
  (pending_len c + body_fuel (rq_body q) (rq_trailers q) <= fuel)%nat ->
  exists c', read_request limits timeouts fuel c = (Ok (Some (received_request q host)), c') /\
    read_to rest c c'.
Proof.
  intros Hok Hin Hfit Hf. destruct (request_headers_ok limits q host Hfit) as (Hh & _).
  pose proof Hfit as [Hm Ht Hv _ _ _ [Hcnt Hsz] Hb].
  destruct (read_request_loop_ok limits timeouts collect (rq_method q) (outgoing_target (rq_target q))
    (rq_version_minor q) (request_headers q host)
    (body_wire (rq_chunked q) (rq_body q) (rq_trailers q) ++ rest) fuel fuel 0 (inner c))
    as (c1 & Hr1 & (Hq1 & Hb1 & Hl1)).
  1: done.
  1: { change (input (inner c)) with (input c). rewrite Hin. unfold request_wire. by rewrite <- app_assoc. }
  1: by constructor.
  1: done.
  1: { pose proof (bf_header _ _ _ _ Hb). pose proof pow62_W64. lia. }
  1: { pose proof (size_of_nonneg (buf_view (inner c))). lia. }
  1: { rewrite request_head_line. apply size_of_head_pos. }
  1: { change (pending_len (inner c)) with (pending_len c). lia. }
  destruct (finish_request_ok q host rest fuel c1) as (c2 & Hr2 & D2); [apply Hq1 | | done | done | |].
  { by rewrite (proj1 (proj2 Hq1)). }
  { change (pending_len (inner c)) with (pending_len c) in Hl1. lia. }
  pose proof (quiet_delivered _ _ Hq1 Hl1) as D1.
  unfold m_bind in Hr1. rewrite Hr2 in Hr1.
  destruct (m_local_read _ _ _ _ _ _ Hr1 (delivered_trans _ _ _ _ _ _ _ D1 D2)) as (c3 & Hr3 & Hto3).
  exists c3. split; [|done]. unfold read_request, read_request_stream, m_bind. by rewrite Hr3.
Qed.
End ReadMessage.

Section ReadResponse.
Context {S K : Type} `{LiveStream S} `{PhrLaws}.
Variable limits : Limits.
Variable timeouts : IoTimeouts.

Lemma read_response_loop_ok (on_chunk : bytes -> K -> result unit * K) v st msg hs rest ch cl
    fuel bfuel method skip last_len (c : conn S K) :
  let head := response_head v st msg hs in
  conn_ok c -> input c = head ++ rest -> response_head_ok v st msg hs -> informational st = false ->
  size_of hs <= max_header_count limits -> size_of head <= max_header_bytes limits < W64 ->
  response_framing hs = Ok (ch, cl) ->
  0 <= last_len <= size_of (buf_view c) -> last_len < size_of head -> (pending_len c <= fuel)%nat ->
  exists c', read_response_loop limits timeouts on_chunk fuel bfuel method skip last_len c =
      read_response_body limits timeouts on_chunk bfuel method
        (mkResponse st msg hs [] [] v (should_keep_alive hs v) ch) cl c' /\
    read_to rest c c'.
Proof.
  intros head Hok Hin Hh Hst Hcap Hmax Hfr. revert last_len c Hok Hin.
  induction fuel as [|fuel IH]; intros last_len c Hok Hin Hl1 Hl2 Hf; cbn [read_response_loop];
    unfold m_bind at 1, m_get at 1;
    destruct (response_attempt limits v st msg hs rest last_len c Hin Hh Hcap Hl1 Hl2)
      as [[Hr Hb]|(Hr & q & Hq & Hne & Hinc)].
  1, 3: rewrite Hr; fold head; destruct (Z.ltb_spec 0 (size_of head)); [|lia];
    cbn [pr_headers pr_status pr_msg pr_minor rs_status]; rewrite copy_headers_phr, Hst;
    unfold m_bind, m_lift; rewrite Hfr;
    (destruct (buf_consume_read_to (length head) rest c) as (c1 & Hc1 & Hto1 & _);
      [done | unfold head; unfold size_of in Hb; lia | rewrite Hin; apply drop_app_length |]);
    unfold size_of at 1; rewrite Hc1; exists c1; by split.
  { by apply not_pending_0 in Hinc. }
  match type of Hr with fst ?r = _ => destruct r as [n p]; simpl in Hr; subst n end.
  cbn [Z.ltb Z.compare Z.eqb Pos.eqb].
  unfold m_bind at 1, m_get at 1. rewrite (conn_ok_size c Hok).
  pose proof (size_of_lt_app _ _ _ Hq Hne) as Hlt. fold head in Hlt.
  destruct (Z.leb_spec (max_header_bytes limits) (size_of (buf_view c))); [lia|].
  edestruct (head_read_more (K := K) limits head rest q) as (n & c1 & Hrm & Hn & Hqt & Hl & Hv);
    [done | done | done | done | done | lia |].
  unfold m_bind at 1. rewrite Hrm, Hn.
  destruct (IH (size_of (buf_view c)) c1) as (c2 & Hc2 & B2); [apply Hqt | by rewrite (proj1 (proj2 Hqt)) | | done | lia |].
  { pose proof (size_of_nonneg (buf_view c)). lia. }
  exists c2. split; [done|]. eapply quiet_read_to; [done | lia | done].
Qed.
End ReadResponse.

Record response_fits (limits : Limits) (r : Response) (method : bytes) : Prop := {
  sf_minor : 0 <= rs_version_minor r <= 1;
  sf_status : 200 <= rs_status r <= 999;
  sf_reason : value_ok (outgoing_reason r);
  sf_headers : Forall header_ok (rs_headers r);
  sf_head : head_fits limits (response_head (rs_version_minor r) (rs_status r) (outgoing_reason r)
              (response_headers r method)) (response_headers r method);
  sf_body : body_fits limits (response_chunks r method) (rs_body r) (rs_trailers r)
}.

Lemma response_headers_ok limits r method :
  response_fits limits r method ->
  Forall header_ok (response_headers r method) /\
  response_framing (response_headers r method) =
    Ok (response_chunks r method,
        if response_chunks r method then None else Some (if rs_chunked r then 0 else size_of (rs_body r))) /\
  (forall minor, should_keep_alive (response_headers r method) minor = rs_keep_alive r).
Proof.
  intros [_ _ _ Hh _ Hb]. unfold response_headers. pose proof (body_size_ok _ _ _ _ Hb) as Hs.
  set (n := if rs_chunked r then 0 else size_of (rs_body r)).
  assert (is_size n) as Hn by (unfold n; destruct (rs_chunked r); [by unfold is_size, W64 | done]).
  destruct (prepare_outgoing_framing (rs_headers r) (rs_keep_alive r) (response_chunks r method) n Hn)
    as (Ht & Hc & Hk & _).
  split_and!; [apply prepare_headers_ok; [apply Hn | done] | | done].
  unfold response_framing. rewrite Ht, Hc. by destruct (response_chunks r method).
Qed.

Section ReadResponse2.
Context {S K : Type} `{LiveStream S} `{PhrLaws}.
Variable limits : Limits.
Variable timeouts : IoTimeouts.

Lemma read_response_body_ok r method rest fuel (c : conn S bytes) :
  conn_ok c -> response_fits limits r method ->
  input c = (if response_has_body (rs_status r) method
             then body_wire (rs_chunked r) (rs_body r) (rs_trailers r) else []) ++ rest ->
  (pending_len c + body_fuel (rs_body r) (rs_trailers r) <= fuel)%nat ->
  exists c', read_response_body limits timeouts collect fuel method
      (mkResponse (rs_status r) (outgoing_reason r) (response_headers r method) [] []
         (rs_version_minor r) (rs_keep_alive r) (response_chunks r method))
      (if response_chunks r method then None else Some (if rs_chunked r then 0 else size_of (rs_body r))) c
    = (Ok (set_rs_body [] (received_response r method)), c') /\
    delivered (if response_has_body (rs_status r) method then rs_body r else []) rest c c'.
Proof.
  intros Hok Hfit Hin Hf. pose proof (sf_body _ _ _ Hfit) as Hb.
  unfold read_response_body, received_response, set_rs_body, m_bind.
  cbn [rs_status rs_chunked rs_keep_alive rs_reason rs_headers rs_trailers rs_version_minor].
  unfold response_chunks in *.
  destruct (response_has_body (rs_status r) method); [|rewrite andb_false_r].
  - rewrite andb_true_r in *. destruct (rs_chunked r).
    + destruct (read_chunked_ok limits (rs_body r) (rs_trailers r) rest fuel (t_read_body timeouts) 504
        "response body read timeout"%bs c) as (c2 & Hr2 & D2); [done | done | done | lia |].
      rewrite Hr2. by exists c2.
    + destruct (read_fixed_ok limits false (rs_body r) (rs_trailers r) rest fuel (t_read_body timeouts) 504
        "response body read timeout"%bs c) as (c2 & Hr2 & D2); [done | done | done | lia |].
      rewrite Hr2. by exists c2.
  - exists c. split; [done|]. simpl in Hin. rewrite <- Hin. by apply delivered_refl.
Qed.

(** A response that fits is read exactly, and nothing behind it is touched. *)
Lemma read_response_ok r method rest fuel (c : conn S K) :
  conn_ok c -> c_prefetched c = None -> input c = response_wire r method ++ rest ->
  response_fits limits r method ->
  (pending_len c + body_fuel (rs_body r) (rs_trailers r) <= fuel)%nat ->
  exists c', read_response limits timeouts fuel method c = (Ok (received_response r method), c') /\
    read_to rest c c'.
Proof.
  intros Hok Hpre Hin Hfit Hf. destruct (response_headers_ok limits r method Hfit) as (Hh & Hfr & Hk).
  pose proof Hfit as [Hv Hst Hre _ [Hcnt Hsz] Hb].
  set (tail := (if response_has_body (rs_status r) method
      then body_wire (rs_chunked r) (rs_body r) (rs_trailers r) else []) ++ rest).
  edestruct (read_response_loop_ok limits timeouts collect (rs_version_minor r) (rs_status r)
    (outgoing_reason r) (response_headers r method) tail) with (fuel := fuel) (bfuel := fuel)
    (method := method) (skip := true) (last_len := 0) (c := inner c) as (c1 & Hr1 & Hto1).
  1: exact Hok.
  1: { change (input (inner c)) with (input c). rewrite Hin. unfold response_wire. by rewrite <- app_assoc. }
  1: { constructor; [done | lia | done | done]. }
  1: { unfold informational. lia. }
  1: done.
  1: { pose proof (bf_header _ _ _ _ Hb). pose proof pow62_W64. lia. }
  1: exact Hfr.
  1: { pose proof (size_of_nonneg (buf_view (inner c))). lia. }
  1: { rewrite response_head_line. apply size_of_head_pos. }
  1: { change (pending_len (inner c)) with (pending_len c). lia. }
  pose proof (read_to_delivered _ _ _ Hto1) as D1. destruct Hto1 as (Hok1 & Hin1 & _ & _ & _ & Hl1).
  change (pending_len (inner c)) with (pending_len c) in Hl1.
  rewrite Hk in Hr1.
  destruct (read_response_body_ok r method rest fuel c1) as (c2 & Hr2 & D2); [done | done | done | lia |].
  rewrite Hr2 in Hr1.
  destruct (m_local_read _ _ _ _ _ _ Hr1 (delivered_trans _ _ _ _ _ _ _ D1 D2)) as (c3 & Hr3 & Hto3).
  exists c3. split; [|done]. unfold read_response, read_response_stream_impl, m_bind, m_get.
  rewrite Hpre, Hr3. by destruct r.
Qed.
End ReadResponse2.

(** ** Lemmas: writing a message *)

Section WriteMessage.
Context {S K : Type} `{LiveStream S} `{PhrParser}.
Variable limits : Limits.
Variable timeouts : IoTimeouts.

Lemma write_payload_ok fuel payload trailers timeout st msg (c : conn S (option bytes)) :
  bs_is_open (c_stream c) = true -> c_env c = Some payload -> (2 <= fuel)%nat ->
  exists c', write_chunked_body_stream payload_source fuel trailers timeout st msg c = (Ok tt, c') /\
    sent (chunked_wire [payload] trailers) c c'.
Proof.
  intros Ho He Hf. destruct fuel as [|[|fuel]]; [lia | lia |].
  unfold write_chunked_body_stream, chunked_wire. cbn [write_chunks_loop]. unfold m_bind, m_env.
  rewrite He. cbn [payload_source].
  destruct (write_chunk_ok payload timeout st msg (set_env None c) Ho) as (c1 & H1' & S1 & E1).
  rewrite H1', E1. cbn [payload_source c_env set_env].
  destruct (timed_send_ok ("0"%bs ++ crlf) timeout st msg (set_env None c1)) as (c2 & Hc2 & S2 & _); [apply S1|].
  simpl in Hc2 |- *. rewrite Hc2.
  destruct (send_nonempty_ok trailers (serialize_headers trailers) timeout st msg c2)
    as (c3 & H3 & S3 & _); [apply S2 | by intros -> |].
  rewrite H3. destruct (timed_send_ok crlf timeout st msg c3) as (c4 & H4 & S4 & _); [apply S3|].
  exists c4. split; [done|].
  assert (sent (chunk_wire payload) c (set_env None c1)) as S1' by exact S1.
  rewrite app_nil_r. eapply sent_trans; [exact S1'|].
  change (CR :: LF :: serialize_headers trailers ++ crlf) with (crlf ++ serialize_headers trailers ++ crlf).
  change ("0"%char :: crlf ++ serialize_headers trailers ++ crlf) with (("0"%bs ++ crlf) ++ serialize_headers trailers ++ crlf).
  eapply sent_trans; [exact S2|]. by eapply sent_trans; [exact S3|].
Qed.

(** Running a writer with its own callback state. *)
Lemma m_local_sent {K'} (k0 : K') (m : M S K' unit) data (c : conn S K) :
  (forall c0 : conn S K', bs_is_open (c_stream c0) = true -> c_env c0 = k0 ->
     exists c', m c0 = (Ok tt, c') /\ sent data c0 c') ->
  bs_is_open (c_stream c) = true ->
  exists c', (m_local k0 m ;;; m_ret tt) c = (Ok tt, c') /\ sent data c c' /\ c_env c' = c_env c.
Proof.
  intros Hm Ho. unfold m_bind, m_local.
  destruct (Hm (mkConn (c_stream c) (c_buffer c) (c_offset c) (c_prefetched c) k0) Ho eq_refl)
    as (c1 & -> & S1).
  eexists. split; [done|]. split; [|done]. exact S1.
Qed.

Lemma http1_ok {K'} v (c : conn S K') : 0 <= v <= 1 -> http1 v c = (Ok tt, c).
Proof. intros Hv. unfold http1. replace ((v <? 0) || (1 <? v)) with false by lia. done. Qed.

Lemma write_request_ok q host fuel (c : conn S K) :
  bs_is_open (c_stream c) = true -> 0 <= rq_version_minor q <= 1 ->
  expects_continue (request_headers q host) = false -> (2 <= fuel)%nat ->
  exists c', write_request limits timeouts fuel q host c = (Ok tt, c') /\
    sent (request_wire q host) c c' /\ c_env c' = c_env c.
Proof.
  intros Ho Hv He Hf. unfold write_request, request_wire, body_wire. unfold request_headers in *.
  destruct (rq_chunked q).
  - apply m_local_sent; [|done]. intros c0 Ho0 He0.
    unfold write_request_stream, m_bind. rewrite http1_ok, He by done.
    edestruct (timed_send_ok (K := option bytes)) as (c1 & Hc1 & S1 & E1); [exact Ho0|]. rewrite Hc1.
    edestruct (write_payload_ok fuel (rq_body q)) as (c2 & Hc2 & S2); [apply S1 | by rewrite E1 | done |].
    cbn [m_ret]. rewrite Hc2. exists c2. split; [done|]. by eapply sent_trans.
  - unfold m_bind at 1. rewrite http1_ok, He by done. unfold m_bind.
    edestruct (timed_send_ok (K := K)) as (c1 & Hc1 & S1 & E1); [exact Ho|]. rewrite Hc1.
    edestruct (send_nonempty_ok (rq_body q) (rq_body q) (t_write timeouts) 504 "request write timeout"%bs c1)
      as (c2 & Hc2 & S2 & E2); [apply S1 | done |].
    exists c2. split_and!; [| by eapply sent_trans | congruence].
    by destruct (rq_body q).
Qed.

Lemma write_response_ok r method fuel (c : conn S K) :
  bs_is_open (c_stream c) = true -> 0 <= rs_version_minor r <= 1 -> (2 <= fuel)%nat ->
  exists c', write_response timeouts fuel r method c = (Ok tt, c') /\
    sent (response_wire r method) c c' /\ c_env c' = c_env c.
Proof.
  intros Ho Hv Hf. unfold write_response, response_wire, body_wire, response_headers, response_chunks.
  destruct (rs_chunked r).
  - apply m_local_sent; [|done]. intros c0 Ho0 He0.
    unfold write_response_stream, m_bind. rewrite http1_ok by done. rewrite andb_true_l.
    edestruct (timed_send_ok (K := option bytes)) as (c1 & Hc1 & S1 & E1); [exact Ho0|]. rewrite Hc1.
    destruct (response_has_body (rs_status r) method).
    + edestruct (write_payload_ok fuel (rs_body r)) as (c2 & Hc2 & S2); [apply S1 | by rewrite E1 | done |].
      rewrite Hc2. exists c2. split; [done|]. by eapply sent_trans.
    + exists c1. split; [done|]. by rewrite app_nil_r.
  - unfold m_bind at 1. rewrite http1_ok by done. unfold m_bind. rewrite andb_false_l.
    edestruct (timed_send_ok (K := K)) as (c1 & Hc1 & S1 & E1); [exact Ho|]. rewrite Hc1.
    destruct (response_has_body (rs_status r) method).
    + edestruct (send_nonempty_ok (rs_body r) (rs_body r) (t_write timeouts) 504 "response write timeout"%bs c1)
        as (c2 & Hc2 & S2 & E2); [apply S1 | done |].
      exists c2. split_and!; [by destruct (rs_body r) | by eapply sent_trans | congruence].
    + exists c1. rewrite app_nil_r. done.
Qed.
End WriteMessage.

(** ** Lemmas: the server *)

Section Server.
Context {S K : Type} `{LiveStream S} `{PhrLaws}.
Variable limits : Limits.
Variable timeouts : IoTimeouts.
Variable handler : Request -> K -> result Response * K.

(** The sequential specification: requests are handled one after the other,
    each answered by one response, until a message ends the connection. *)
Definition answer (q : Request) (response : Response) : Response :=
  if negb (rq_keep_alive q) then set_rs_keep_alive false response else response.

Fixpoint serve_spec (qs : list Request) (k : K) : bytes * K :=
  match qs with
  | [] => ([], k)
  | q :: qs' =>
      let '(r, k1) := handler q k in
      match handler_response r with
      | Ok response =>
          let response := answer q response in
          if (rs_version_minor response <? 0) || (1 <? rs_version_minor response) then ([], k1)
          else
            let out := response_wire response (rq_method q) in
            if negb (rq_keep_alive q) || negb (rs_keep_alive response) then (out, k1)
            else let '(out', k2) := serve_spec qs' k1 in (out ++ out', k2)
      | _ => ([], k1)
      end
  end.

(** A handler that returns or throws something else than a signal. *)
Definition handler_total : Prop :=
  forall q k, match fst (handler q k) with
              | OutOfFuel | Throw (SignalException _) => False | _ => True end.

Lemma handler_total_response q k : handler_total -> exists r, handler_response (fst (handler q k)) = Ok r.
Proof.
  intros Ht. specialize (Ht q k). unfold handler_response.
  destruct (fst (handler q k)) as [r|[]|]; try done; eauto.
Qed.

Lemma write_response_bad_version r method fuel (c : conn S K) :
  (rs_version_minor r <? 0) || (1 <? rs_version_minor r) = true ->
  exists e, write_response timeouts fuel r method c = (Throw e, c).
Proof.
  intros Hv. exists only_http1. unfold write_response, write_response_stream, http1, m_bind, m_local.
  rewrite Hv. destruct (rs_chunked r); [|done]. by destruct c.
Qed.

Lemma sent_conn_ok data (c c' : conn S K) :
  mute_peer -> sent data c c' -> conn_ok c -> conn_ok c' /\ input c' = input c /\ pending_len c' = pending_len c.
Proof.
  intros Hm (Ho & _ & _ & Hi & Hb & Hoff & _) (_ & Hc & Hr).
  unfold conn_ok, input, pending_len, buf_view. rewrite (Hi Hm), Hb, Hoff. done.
Qed.

(** At the end of the input the loop stops. *)
Lemma read_request_eof fuel (c : conn S K) :
  conn_ok c -> input c = [] -> bs_ended (c_stream c) -> 1 <= max_header_bytes limits < W64 -> (1 <= fuel)%nat ->
  exists c', read_request limits timeouts fuel c = (Ok None, c') /\ read_to [] c c'.
Proof.
  intros Hok Hin Hend Hmax Hf. destruct fuel as [|fuel]; [lia|].
  assert (buf_view (inner c) = []) as Hv by (by apply app_eq_nil in Hin as [Hv _]).
  assert (bs_incoming (c_stream c) = []) as Hi by (by apply app_eq_nil in Hin as [_ Hi]).
  destruct (read_more_ok (max_header_bytes limits) 431 "request headers too large"%bs (max_header_bytes limits)
    (t_read_headers timeouts) 408 "request header read timeout"%bs (inner c))
    as (d & c1 & Hr & Hq & Hview & Hd & Hinc & _); [done | lia | rewrite Hv; unfold size_of; simpl; lia | by right |].
  simpl in Hinc. rewrite Hi in Hinc. symmetry in Hinc. apply app_eq_nil in Hinc as [-> Hinc].
  rewrite Hv in Hview.
  assert (delivered [] [] (inner c) c1) as D.
  { pose proof (quiet_delivered (inner c) c1 Hq) as D. unfold pending_len in D. rewrite Hinc in D.
    change (input (inner c)) with (input c) in D. rewrite Hin in D. apply D. simpl. lia. }
  destruct (m_local_read (read_request_stream limits timeouts collect (Datatypes.S fuel)) None [] [] c c1)
    as (c2 & Hc2 & Hto).
  - unfold read_request_stream. cbn [read_request_loop]. unfold m_bind at 1, m_get at 1. rewrite Hv.
    cbn [Z.ltb Z.compare Z.eqb Pos.eqb]. unfold m_bind at 1, m_get at 1.
    rewrite (conn_ok_size (inner c)) by done. rewrite Hv. change (size_of (@nil ascii)) with 0.
    destruct (Z.leb_spec (max_header_bytes limits) 0); [lia|]. rewrite sz_sub_small, Z.sub_0_r by lia.
    unfold m_bind at 1. rewrite Hr.
    change (size_of (@nil ascii) =? 0) with true. unfold m_bind, m_get.
    rewrite (conn_ok_size c1) by apply Hq. by rewrite Hview.
  - done.
  - exists c2. split; [|done]. unfold read_request, m_bind. by rewrite Hc2.
Qed.

Definition serve_fuel (qs : list (Request * bytes)) : nat :=
  list_sum (map (fun qh => Datatypes.S (body_fuel (rq_body (fst qh)) (rq_trailers (fst qh)))) qs).

(** Whether one of the messages ends the connection. *)
Fixpoint serve_ends (qs : list Request) (k : K) : bool :=
  match qs with
  | [] => false
  | q :: qs' =>
      let '(r, k1) := handler q k in
      match handler_response r with
      | Ok response =>
          let response := answer q response in
          (rs_version_minor response <? 0) || (1 <? rs_version_minor response) ||
          (negb (rq_keep_alive q) || negb (rs_keep_alive response)) || serve_ends qs' k1
      | _ => true
      end
  end.

(** The loop on the requests there are: it sends the responses of the
    specification, and returns or comes back for the next request. *)
Lemma serve_loop_live qs fuel (c : conn S K) :
  mute_peer -> handler_total -> Forall (fun qh => request_fits limits (fst qh) (snd qh)) qs ->
  conn_ok c -> input c = concat (map (fun qh => request_wire (fst qh) (snd qh)) qs) ->
  (pending_len c + serve_fuel qs + 2 <= fuel)%nat ->
  let rqs := map (fun qh => received_request (fst qh) (snd qh)) qs in
  exists c', bs_sent (c_stream c') = bs_sent (c_stream c) ++ fst (serve_spec rqs (c_env c)) /\
    c_env c' = snd (serve_spec rqs (c_env c)) /\ bs_is_open (c_stream c') = true /\
    if serve_ends rqs (c_env c) then serve_loop limits timeouts handler fuel c = (Ok tt, c')
    else conn_ok c' /\ input c' = [] /\
      exists fuel', (2 <= fuel')%nat /\ serve_loop limits timeouts handler fuel c = serve_loop limits timeouts handler fuel' c'.
Proof.
  intros Hmute Ht Hall. revert fuel c. induction qs as [|[q host] qs IH]; intros fuel c Hok Hin Hf.
  { exists c. simpl. rewrite app_nil_r. split_and!; try done; [apply Hok|]. exists fuel. split; [lia | done]. }
  destruct fuel as [|fuel]; [lia|]. remember (serve_loop limits timeouts handler (Datatypes.S fuel) c) as run eqn:Erun.
  cbn [serve_loop] in Erun. unfold m_bind at 1, m_get at 1 in Erun. rewrite (proj1 Hok) in Erun. cbn [negb] in Erun.
  apply Forall_cons in Hall as [Hq Hall]. cbn [map concat fst snd] in Hin, Hq |- *.
  change (serve_fuel ((q, host) :: qs)) with
    (Datatypes.S (body_fuel (rq_body q) (rq_trailers q)) + serve_fuel qs)%nat in Hf.
  destruct (read_request_ok limits timeouts q host _ fuel c Hok Hin Hq) as (c1 & Hrd & Hto1); [lia |].
  rewrite Hrd in Erun. destruct Hto1 as (Hok1 & Hin1 & He1 & _ & [Hs1 _] & Hl1). rewrite He1 in Erun.
  cbn [serve_spec serve_ends].
  destruct (handler_total_response (received_request q host) (c_env c) Ht) as [resp Hresp].
  destruct (handler (received_request q host) (c_env c)) as [hr k1]. simpl in Hresp. rewrite Hresp in Erun |- *.
  fold (answer (received_request q host) resp) in Erun. set (a := answer (received_request q host) resp) in *.
  destruct ((rs_version_minor a <? 0) || (1 <? rs_version_minor a)) eqn:Ev.
  { destruct (write_response_bad_version a (rq_method (received_request q host)) fuel (set_env k1 c1) Ev)
      as [e He]. rewrite He in Erun. simpl. exists (set_env k1 c1). rewrite app_nil_r. split_and!; done || apply Hok1. }
  destruct (write_response_ok timeouts a (rq_method (received_request q host)) fuel (set_env k1 c1))
    as (c2 & Hw & S2 & E2); [apply Hok1 | lia | unfold body_fuel in Hf; lia |]. rewrite Hw in Erun. cbn [orb].
  destruct (negb _ || negb _).
  { exists c2. simpl. split_and!; [by rewrite (proj1 (proj2 S2)); simpl; rewrite Hs1 | done | apply S2 | done]. }
  destruct (sent_conn_ok _ _ _ Hmute S2 Hok1) as (Hok2 & Hin2 & Hp2).
  change (pending_len (set_env k1 c1)) with (pending_len c1) in Hp2.
  destruct (IH Hall fuel c2) as (c3 & Hs3 & He3 & Ho3 & Hr3); [done | by rewrite Hin2 | lia |].
  exists c3. rewrite E2 in Hs3, He3, Hr3. simpl in Hs3, He3, Hr3. cbn [orb]. rewrite Erun.
  destruct (serve_spec _ k1) as [out k2]. split_and!; [| done | done | done].
  rewrite Hs3, (proj1 (proj2 S2)). simpl. by rewrite Hs1, <- app_assoc.
Qed.

(** With nothing behind the requests the loop returns. *)
Lemma serve_loop_ok qs fuel (c : conn S K) :
  mute_peer -> (forall s : S, bs_ended s) ->
  handler_total -> Forall (fun qh => request_fits limits (fst qh) (snd qh)) qs ->
  18 <= max_header_bytes limits < 2 ^ 62 ->
  conn_ok c -> input c = concat (map (fun qh => request_wire (fst qh) (snd qh)) qs) ->
  (pending_len c + serve_fuel qs + 2 <= fuel)%nat ->
  exists c', serve_loop limits timeouts handler fuel c = (Ok tt, c') /\
    let '(out, k) := serve_spec (map (fun qh => received_request (fst qh) (snd qh)) qs) (c_env c) in
    bs_sent (c_stream c') = bs_sent (c_stream c) ++ out /\ c_env c' = k.
Proof.
  intros Hmute Hend Ht Hall Hmh Hok Hin Hf.
  destruct (serve_loop_live qs fuel c Hmute Ht Hall Hok Hin Hf) as (c1 & Hs & He & Ho & Hr).
  destruct (serve_spec _ _) as [out k]. simpl in Hs, He. destruct (serve_ends _ _); [by exists c1|].
  destruct Hr as (Hok1 & Hin1 & [|fuel'] & Hf' & ->); [lia|]. pose proof pow62_W64. cbn [serve_loop].
  unfold m_bind at 1, m_get at 1. rewrite Ho. cbn [negb].
  destruct (read_request_eof fuel' c1 Hok1 Hin1) as (c2 & -> & Hto); [done | lia | lia |].
  exists c2. split; [done|]. destruct Hto as (_ & _ & He2 & _ & [Hs2 _] & _). by rewrite Hs2, He2.
Qed.
End Server.

(** ** Lemmas: the client *)

(** [Client::request] on an open connection whose peer answers the request
    with a response: what it returns and what it leaves. *)
Lemma client_request_live {S} `{LiveStream S} `{PhrLaws} limits timeouts
    (cl : @Client S) (c : conn S unit) q r rest fuel :
  let q' := set_rq_keep_alive (rq_keep_alive q && cl_keep_alive cl) q in
  let host := format_host_header (cl_host cl) (cl_port cl) in
  cl_connection cl = Some c -> bs_is_open (c_stream c) = true -> c_prefetched c = None ->
  0 <= rq_version_minor q <= 1 -> no_header (rq_headers q) "Expect"%bs ->
  response_fits limits r (rq_method q) -> (2 <= fuel)%nat ->
  (forall c1, sent (request_wire q' host) c c1 ->
     conn_ok c1 /\ input c1 = response_wire r (rq_method q) ++ rest /\
     (pending_len c1 + body_fuel (rs_body r) (rs_trailers r) <= fuel)%nat) ->
  exists c1 c', client_request limits timeouts fuel q cl =
    (Ok (received_response r (rq_method q)),
     mkClient (cl_host cl) (cl_port cl)
       (if rq_keep_alive q && cl_keep_alive cl && rs_keep_alive r then Some c' else None)
       (cl_keep_alive cl)) /\
    (write_request limits timeouts fuel q' host ;;; read_response limits timeouts fuel (rq_method q')) c =
      (Ok (received_response r (rq_method q)), c') /\
    sent (request_wire q' host) c c1 /\ read_to rest c1 c' /\ c_prefetched c' = None.
Proof.
  intros q' host Hcl Ho Hpre Hv Hex Hfit Hf Hpeer. unfold client_request. rewrite Hcl, Ho. cbn [negb].
  fold q' host.
  destruct (write_request_ok limits timeouts q' host fuel c) as (c1 & Hw & S1 & _); [done | done | | done |].
  { apply no_expect, prepare_no_header, with_host_no_header; done. }
  destruct (Hpeer c1 S1) as (Hok1 & Hin1 & Hp1).
  assert (c_prefetched c1 = None) as Hpre1 by (rewrite <- Hpre; apply S1).
  destruct (read_response_ok limits timeouts r (rq_method q) rest fuel c1) as (c2 & Hr & Hto); [done .. |].
  unfold m_bind. rewrite Hw. change (rq_method q') with (rq_method q). rewrite Hr.
  exists c1, c2. split_and!; try done.
  - change (rq_keep_alive q') with (rq_keep_alive q && cl_keep_alive cl).
    change (rs_keep_alive (received_response r (rq_method q))) with (rs_keep_alive r).
    by destruct (rq_keep_alive q), (cl_keep_alive cl), (rs_keep_alive r).
  - destruct Hto as (_ & _ & _ & E & _). by rewrite E.
Qed.

(** ** Theorems *)


(** A POST with a body and a Host header. *)
Definition sample_limits : Limits := mkLimits 1024 64 20.
Definition sample_request : Request :=
  mkRequest "POST"%bs "/a?b=c"%bs [mkHeader "X-Id"%bs "7"%bs] "hello"%bs [] 1 true false.
Definition sample_chunked : Request :=
  mkRequest "PUT"%bs "/up"%bs [] "data"%bs [mkHeader "X-Sum"%bs "9"%bs] 1 true true.

Lemma sample_fits q :
  q = sample_request \/ q = sample_chunked -> request_fits sample_limits q "example.org:8080"%bs.
Proof.
  intros Hq. assert (value_ok "example.org:8080"%bs) as Hhost.
  { split; [apply trimmed_no_space | by apply forallb_ok].
    intros c Hc. repeat (apply elem_of_cons in Hc as [->|Hc]; [done|]). by apply elem_of_nil in Hc. }
  destruct Hq as [-> | ->]; constructor; try done; try (by split; [done | apply forallb_ok]).
  - constructor; [by apply header_okb_ok | constructor].
  - apply no_header_cons. split; [done|]. by intros h Hh%elem_of_nil.
  - by intros h Hh%elem_of_nil.
  - constructor; [done | done |]. intros _. split; [done|]. split_and!; [|by constructor | done].
    constructor; [by apply header_ok_trailer, header_okb_ok | constructor].
Qed.



Definition sample_response : Response :=
  mkResponse 200 [] [mkHeader "X-Id"%bs "7"%bs] "body"%bs [] 1 true false.

Lemma sample_response_fits method : response_fits sample_limits sample_response method.
Proof.
  assert (forall c : ascii, c ∈ "OK"%bs -> isspace c = false) as Hsp.
  { intros c Hc. repeat (apply elem_of_cons in Hc as [->|Hc]; [done|]). by apply elem_of_nil in Hc. }
  constructor; try done.
  - split; [by apply trimmed_no_space | by apply forallb_ok].
  - constructor; [by apply header_okb_ok | constructor].
Qed.


(** C4: The server implements the sequential specification.  For any pipeline
    of requests on the stream, in any segmentation, and any handler (one that
    throws anything but a cancellation signal included), [handle_client] calls
    the handler on the requests in order, sends for each exactly the bytes of
    its response (an exception becomes an error response that ends the
    connection), stops at the first message that does not keep the connection
    alive or at the end of the input, and closes the stream. *)
Theorem server_refines_spec {S K} `{ReliableStream S} `{PhrLaws} limits timeouts
    (handler : Request -> K -> result Response * K) qs fuel (c : conn S K) :
  handler_total handler -> Forall (fun qh => request_fits limits (fst qh) (snd qh)) qs ->
  18 <= max_header_bytes limits < 2 ^ 62 ->
  conn_ok c -> input c = concat (map (fun qh => request_wire (fst qh) (snd qh)) qs) ->
  (pending_len c + serve_fuel qs + 2 <= fuel)%nat ->
  exists c', handle_client limits timeouts handler fuel c = (Ok tt, c') /\
    bs_is_open (c_stream c') = false /\
    let '(out, k) := serve_spec handler (map (fun qh => received_request (fst qh) (snd qh)) qs) (c_env c) in
    bs_sent (c_stream c') = bs_sent (c_stream c) ++ out /\ c_env c' = k.
Proof.
  intros Ht Hall Hmh Hok Hin Hf.
  destruct (serve_loop_ok limits timeouts handler qs fuel c send_keeps peer_ended Ht Hall Hmh Hok Hin Hf) as (c1 & Hr & Hspec).
  unfold handle_client, m_bind. rewrite Hr. eexists. split; [done|].
  simpl. destruct (close_ok (c_stream c1)) as [Hcl Hs]. split; [done|].
  destruct (serve_spec _ _ _) as [out k]. by rewrite Hs.
Qed.

(** A handler that counts, and fails on [/up]. *)
Definition sample_handler (q : Request) (k : Z) : result Response * Z :=
  if bool_decide (rq_target q = "/up"%bs) then (Throw (RuntimeError "no"%bs), k)
  else (Ok (set_rs_body (rq_body q) default_response), k + 1).

Lemma server_refines_spec_witness :
  let wire := request_wire sample_request "example.org:8080"%bs ++ request_wire sample_chunked "example.org:8080"%bs in
  exists c', handle_client sample_limits no_timeouts sample_handler 2000
      (script_conn [take 9 wire; drop 9 wire] 0) = (Ok tt, c') /\
    bs_is_open (c_stream c') = false /\
    let '(out, k) := serve_spec sample_handler
        [received_request sample_request "example.org:8080"%bs;
         received_request sample_chunked "example.org:8080"%bs] 0 in
    bs_sent (c_stream c') = [] ++ out /\ c_env c' = k.
Proof.
  intros wire.
  refine (server_refines_spec sample_limits no_timeouts sample_handler
    [(sample_request, "example.org:8080"%bs); (sample_chunked, "example.org:8080"%bs)] 2000
    (script_conn [take 9 wire; drop 9 wire] 0) _ _ _ _ _ _).
  - intros q k. unfold sample_handler. by destruct (bool_decide _).
  - constructor; [apply sample_fits; by left|]. constructor; [apply sample_fits; by right | constructor].
  - split; vm_compute; [discriminate | reflexivity].
  - repeat split; vm_compute; try discriminate; reflexivity.
  - reflexivity.
  - apply Nat.leb_le. vm_compute. reflexivity.
Defined.

(** C11: A request the server cannot read is answered.  When [read_request]
    throws an HTTP error (a malformed head, a limit, a timeout), the client
    gets one response with that status and the error's text as body, marked
    [Connection: close], the handler is not called, and the stream is
    closed. *)
Theorem server_answers_bad_request {S K} `{ReliableStream S} `{PhrParser} limits timeouts
    (handler : Request -> K -> result Response * K) fuel (c c1 : conn S K) status message :
  bs_is_open (c_stream c) = true -> (2 <= fuel)%nat ->
  read_request limits timeouts fuel c = (Throw (HttpError status message), c1) ->
  bs_is_open (c_stream c1) = true ->
  exists c', handle_client limits timeouts handler (Datatypes.S fuel) c = (Ok tt, c') /\
    bs_is_open (c_stream c') = false /\ c_env c' = c_env c1 /\
    bs_sent (c_stream c') = bs_sent (c_stream c1) ++ response_wire (error_response status message) [] /\
    should_keep_alive (response_headers (error_response status message) []) 1 = false.
Proof.
  intros Ho Hf Hr Ho1. unfold handle_client, m_bind at 1. cbn [serve_loop].
  unfold m_bind, m_get. rewrite Ho. cbn [negb]. rewrite Hr.
  destruct (write_response_ok timeouts (error_response status message) [] fuel c1 Ho1) as (c2 & -> & S2 & E2);
    [simpl; lia | done |].
  eexists. split; [done|]. simpl. destruct (close_ok (c_stream c2)) as [Hcl Hs].
  split_and!; [done | done | by rewrite Hs, (proj1 (proj2 S2)) |].
  unfold response_headers. cbn [rs_keep_alive error_response rs_chunked response_chunks andb].
  unfold should_keep_alive.
  unfold prepare_outgoing_headers, set_header, erase_header. simpl. done.
Qed.

Lemma server_answers_bad_request_witness :
  exists c', handle_client (S := script) (K := Z) sample_limits no_timeouts sample_handler 11
      (script_conn ["GET / HTTP/1.1"%bs ++ crlf ++ "bad"%bs ++ crlf ++ crlf] 0) = (Ok tt, c') /\
    bs_is_open (c_stream c') = false /\ c_env c' = 0 /\
    bs_sent (c_stream c') = [] ++ response_wire (error_response 400 "invalid HTTP request"%bs) [] /\
    should_keep_alive (response_headers (error_response 400 "invalid HTTP request"%bs) []) 1 = false.
Proof.
  refine (server_answers_bad_request (S := script) sample_limits no_timeouts sample_handler 10
    (script_conn ["GET / HTTP/1.1"%bs ++ crlf ++ "bad"%bs ++ crlf ++ crlf] 0)
    (mkConn (mkScript true [] []) ("GET / HTTP/1.1"%bs ++ crlf ++ "bad"%bs ++ crlf ++ crlf) 0 None 0)
    400 "invalid HTTP request"%bs _ _ _ _).
  - reflexivity.
  - lia.
  - vm_compute. reflexivity.
  - reflexivity.
Defined.

(** A client exchange.  [Client::request] sends exactly the request, with
    [Host] filled in and keep-alive reduced to what the client allows,
    returns the response that follows on the stream, and keeps the connection
    if and only if both messages keep it alive, with the bytes behind the
    response unread. *)
Theorem client_exchange {S} `{ReliableStream S} `{PhrLaws} limits timeouts
    (cl : @Client S) (c : conn S unit) q r rest fuel :
  let q' := set_rq_keep_alive (rq_keep_alive q && cl_keep_alive cl) q in
  let host := format_host_header (cl_host cl) (cl_port cl) in
  cl_connection cl = Some c -> conn_ok c -> c_prefetched c = None ->
  0 <= rq_version_minor q <= 1 -> no_header (rq_headers q) "Expect"%bs ->
  response_fits limits r (rq_method q) -> input c = response_wire r (rq_method q) ++ rest ->
  (pending_len c + body_fuel (rs_body r) (rs_trailers r) <= fuel)%nat ->
  exists c', client_request limits timeouts fuel q cl =
    (Ok (received_response r (rq_method q)),
     mkClient (cl_host cl) (cl_port cl)
       (if rq_keep_alive q && cl_keep_alive cl && rs_keep_alive r then Some c' else None)
       (cl_keep_alive cl)) /\
    bs_sent (c_stream c') = bs_sent (c_stream c) ++ request_wire q' host /\ input c' = rest /\ conn_ok c'.
Proof.
  intros q' host Hcl Hok Hpre Hv Hex Hfit Hin Hf.
  destruct (client_request_live limits timeouts cl c q r rest fuel) as (c1 & c' & Hr & _ & S1 & Hto & _);
    [done | apply Hok | done | done | done | done | unfold body_fuel in Hf; lia | |].
  - intros c1 S1. destruct (sent_conn_ok _ _ _ send_keeps S1 Hok) as (Hok1 & Hin1 & Hp1). rewrite Hin1, Hp1. done.
  - exists c'. destruct Hto as (Hok2 & Hin2 & _ & _ & [Hs2 _] & _). split_and!; [done | | done | done].
    rewrite Hs2. apply S1.
Qed.

Lemma client_exchange_witness :
  let q := sample_request in
  let c := script_conn [response_wire sample_response "POST"%bs] tt in
  exists c', client_request sample_limits no_timeouts 500 q (mkClient "::1"%bs 8080 (Some c) true) =
    (Ok (received_response sample_response "POST"%bs), mkClient "::1"%bs 8080 (Some c') true) /\
    bs_sent (c_stream c') = [] ++ request_wire q "[::1]:8080"%bs /\ input c' = [] /\ conn_ok c'.
Proof.
  refine (client_exchange sample_limits no_timeouts
    (mkClient "::1"%bs 8080 (Some (script_conn [response_wire sample_response "POST"%bs] tt)) true)
    (script_conn [response_wire sample_response "POST"%bs] tt) sample_request sample_response [] 500
    _ _ _ _ _ _ _ _).
  - reflexivity.
  - repeat split; vm_compute; try discriminate; reflexivity.
  - reflexivity.
  - simpl. lia.
  - apply (qf_expect sample_limits sample_request "example.org:8080"%bs), sample_fits. by left.
  - apply sample_response_fits.
  - reflexivity.
  - apply Nat.leb_le. vm_compute. reflexivity.
Defined.

(** ** Where the two sides disagree *)

(** A message written with [chunked = true] and an empty body (or a chunk
    source that yields an empty chunk) is terminated twice: [write_chunk]
    prints the empty chunk as [0 CRLF CRLF], which already ends the body, and
    [write_chunked_body_stream] adds the real terminator.  The peer reads the
    message and is left with [0 CRLF CRLF], which it takes for the beginning
    of the next message. *)
Theorem empty_chunk_ends_body_twice {S} `{ReliableStream S} `{PhrParser} timeouts fuel r method (w : conn S unit) :
  rs_chunked r = true -> rs_body r = [] -> rs_trailers r = [] ->
  response_has_body (rs_status r) method = true -> 0 <= rs_version_minor r <= 1 ->
  bs_is_open (c_stream w) = true -> (2 <= fuel)%nat ->
  exists w' head, write_response timeouts fuel r method w = (Ok tt, w') /\
    bs_sent (c_stream w') = bs_sent (c_stream w) ++ head ++ "0"%bs ++ crlf ++ crlf ++ "0"%bs ++ crlf ++ crlf /\
    (* and the reader, after the head, stops at the first terminator *)
    exists c', read_chunked_body_stream collect 50 sample_limits None 408 [] true
        (script_conn ["0"%bs ++ crlf ++ crlf ++ "0"%bs ++ crlf ++ crlf] []) = (Ok [], c') /\
      c_env c' = [] /\ input c' = "0"%bs ++ crlf ++ crlf.
Proof.
  intros Hch Hb Ht Hhas Hv Ho Hf.
  destruct (write_response_ok timeouts r method fuel w Ho Hv Hf) as (w' & Hw & Sw & _).
  exists w'. eexists. split; [done|]. split.
  - rewrite (proj1 (proj2 Sw)). unfold response_wire, body_wire. rewrite Hhas, Hch, Hb, Ht. reflexivity.
  - eexists. split; [vm_compute; reflexivity|]. split; reflexivity.
Qed.

Lemma empty_chunk_ends_body_twice_witness :
  exists w' head, write_response (S := script) no_timeouts 2 (mkResponse 200 [] [] [] [] 1 true true) "GET"%bs
      (script_conn [] tt) = (Ok tt, w') /\
    bs_sent (c_stream w') = [] ++ head ++ "0"%bs ++ crlf ++ crlf ++ "0"%bs ++ crlf ++ crlf /\
    exists c', read_chunked_body_stream collect 50 sample_limits None 408 [] true
        (script_conn ["0"%bs ++ crlf ++ crlf ++ "0"%bs ++ crlf ++ crlf] []) = (Ok [], c') /\
      c_env c' = [] /\ input c' = "0"%bs ++ crlf ++ crlf.
Proof.
  refine (empty_chunk_ends_body_twice (S := script) no_timeouts 2 (mkResponse 200 [] [] [] [] 1 true true) "GET"%bs
    (script_conn [] tt) _ _ _ _ _ _ _); try reflexivity; simpl; lia.
Defined.

(** A response that is delimited by the end of the connection loses its
    body unless it says [Connection: close]: an HTTP/1.1 response with neither
    [Content-Length] nor [Transfer-Encoding] is returned with an empty body,
    and its bytes stay in the buffer as the start of the next response. *)
Theorem close_delimited_body_dropped :
  let wire := "HTTP/1.1 200 OK"%bs ++ crlf ++ "Server: x"%bs ++ crlf ++ crlf ++ "hello"%bs in
  exists c', read_response (S := script) sample_limits no_timeouts 50 "GET"%bs (script_conn [wire] tt) =
    (Ok (mkResponse 200 "OK"%bs [mkHeader "Server"%bs "x"%bs] [] [] 1 true false), c') /\
    input c' = "hello"%bs.
Proof. eexists. split; vm_compute; reflexivity. Qed.
