(* ===== verification/HttpSession.v ===== *)
(** * A client and a server on the two ends of one connection

    The composition of [http::Client] and [http::Server]: a client that asks
    one request after the other on a connection ([client_session]), and
    [handle_client] at the other end.  Neither side is given its input: the
    server's stream ([inbox]) holds the bytes the client has sent and makes a
    read beyond them wait; the client's stream ([link]) holds the bytes the
    server has sent in reply to exactly those, and makes a read beyond them
    wait too, unless the server has closed its end.  The network may cut
    either direction into any segments.  [session_log] says what should
    happen without any bytes: which requests are asked until a message ends
    the connection, and what the handler answers to each.  The theorem says
    that the two coroutines, with all their parsing, framing and buffering, do
    exactly that, and neither ever waits for the other in vain. *)

From S2P Require Import Prelude CxxString HttpHeaders HttpUrl Stream HttpBody HttpConnection HttpExchange.

Local Open Scope Z_scope.

(** ** The two ends of a connection *)

(** How many bytes of what is there, less one, the next read may get. *)
Definition cutter : Type := bytes -> nat.
Definition cut_segment (cut : cutter) (cap : Z) (rx : bytes) : bytes :=
  take (Nat.min (Z.to_nat cap) (Datatypes.S (cut rx))) rx.

(** The server's end: [ib_rx] was sent by the client and not read yet; with
    [eof] the client has hung up behind it.  [OutOfFuel] is the result of
    a coroutine that is still suspended. *)
Record inbox (eof : bool) (cut : cutter) := mkInbox { ib_open : bool; ib_rx : bytes; ib_tx : bytes }.
Arguments mkInbox {eof cut} _ _ _.
Arguments ib_open {eof cut} _.
Arguments ib_rx {eof cut} _.
Arguments ib_tx {eof cut} _.

#[export] Instance inbox_stream eof cut : ByteStream (inbox eof cut) := {
  bs_is_open := ib_open;
  bs_recv_some cap s :=
    if ib_open s then
      match ib_rx s with
      | [] => (if eof then Ok [] else OutOfFuel, s)
      | rx => let d := cut_segment cut cap rx in (Ok d, mkInbox true (drop (length d) rx) (ib_tx s))
      end
    else (Throw closed_stream_error, s);
  bs_send_all data s :=
    if ib_open s then (Ok tt, mkInbox true (ib_rx s) (ib_tx s ++ data)) else (Throw closed_stream_error, s);
  bs_close s := mkInbox false (ib_rx s) (ib_tx s);
  bs_recv_expires _ _ := false;
  bs_send_expires _ _ := false
}.

(** The client's end, with a peer whose output is a function of its input:
    [peer tx] is what the peer says to [tx], up to where it waits for more,
    and whether it has closed its end by then. *)
Record link (peer : bytes -> bytes * bool) (cut : cutter) := mkLink { lk_open : bool; lk_tx : bytes; lk_got : nat }.
Arguments mkLink {peer cut} _ _ _.
Arguments lk_open {peer cut} _.
Arguments lk_tx {peer cut} _.
Arguments lk_got {peer cut} _.

Definition link_rx {peer cut} (s : link peer cut) : bytes := drop (lk_got s) (fst (peer (lk_tx s))).

#[export] Instance link_stream peer cut : ByteStream (link peer cut) := {
  bs_is_open := lk_open;
  bs_recv_some cap s :=
    if lk_open s then
      match link_rx s with
      | [] => (if snd (peer (lk_tx s)) then Ok [] else OutOfFuel, s)
      | rx => let d := cut_segment cut cap rx in (Ok d, mkLink true (lk_tx s) (length d + lk_got s))
      end
    else (Throw closed_stream_error, s);
  bs_send_all data s :=
    if lk_open s then (Ok tt, mkLink true (lk_tx s ++ data) (lk_got s)) else (Throw closed_stream_error, s);
  bs_close s := mkLink false (lk_tx s) (lk_got s);
  bs_recv_expires _ _ := false;
  bs_send_expires _ _ := false
}.

Lemma cut_segment_spec cut cap rx :
  0 < cap -> rx <> [] ->
  let d := cut_segment cut cap rx in rx = d ++ drop (length d) rx /\ size_of d <= cap /\ d <> [].
Proof.
  intros Hc Hrx. unfold cut_segment. set (n := Nat.min _ _). assert (0 < n <= Z.to_nat cap)%nat as Hn by lia.
  cbn zeta. rewrite length_take. split_and!.
  - rewrite <- (take_drop (Nat.min n (length rx)) rx) at 1. f_equal. destruct (Nat.le_gt_cases n (length rx)).
    + by rewrite Nat.min_l.
    + rewrite Nat.min_r by lia. rewrite !take_ge; [done | lia | lia].
  - unfold size_of. rewrite length_take. lia.
  - destruct rx; [done|]. destruct n; [lia | done].
Qed.

#[export] Instance inbox_live eof cut : LiveStream (inbox eof cut).
Proof.
  refine {| bs_incoming := ib_rx; bs_sent := ib_tx; bs_ended _ := eof = true; bs_handed _ := None |}.
  - intros cap [o rx tx] Ho Hc Hav. simpl in *. subst o. destruct rx as [|x rx].
    + destruct Hav as [|Hav]; [done|]. rewrite Hav. eexists [], _. split_and!; try done. unfold size_of. simpl. lia.
    + destruct (cut_segment_spec cut cap (x :: rx) Hc ltac:(done)) as (E1 & E2 & E3). eexists _, _. by split_and!.
  - intros data [o rx tx] Ho. simpl in *. subst o. eexists. by split_and!.
  - done.
  - done.
  - done.
Defined.

Lemma inbox_mute eof cut : mute_peer (S := inbox eof cut).
Proof. intros d [o rx tx] Ho. simpl in *. by subst o. Qed.

#[export] Instance link_live peer cut : LiveStream (link peer cut).
Proof.
  refine {| bs_incoming := link_rx; bs_sent := lk_tx; bs_ended s := snd (peer (lk_tx s)) = true;
            bs_handed s := Some (lk_got s) |}.
  - intros cap [o tx got] Ho Hc Hav. simpl in *. subst o. unfold link_rx in *. simpl in *.
    destruct (drop got (fst (peer tx))) as [|x rx] eqn:E.
    + destruct Hav as [|Hav]; [done|]. rewrite Hav. eexists [], _. split; [done|]. simpl. rewrite E. split_and!; try done. unfold size_of. simpl. lia.
    + destruct (cut_segment_spec cut cap (x :: rx) Hc ltac:(done)) as (E1 & E2 & E3). eexists _, _. split; [done|].
      simpl. rewrite Nat.add_comm, <- drop_drop, E. by split_and!.
  - intros data [o tx got] Ho. simpl in *. subst o. eexists. by split_and!.
  - done.
  - done.
  - done.
Defined.

(** ** The session *)

(** A caller that awaits [Client::request] for each of its requests, as long
    as the client is connected. *)
Fixpoint client_session {S} `{ByteStream S} `{PhrParser} (limits : Limits) (timeouts : IoTimeouts) (fuel : nat)
    (qs : list Request) (cl : @Client S) : result (list Response) * @Client S :=
  match qs with
  | [] => (Ok [], cl)
  | q :: qs' =>
      match cl_connection cl with
      | None => (Ok [], cl)
      | Some _ =>
          match client_request limits timeouts fuel q cl with
          | (Ok r, cl1) =>
              match client_session limits timeouts fuel qs' cl1 with
              | (Ok rs, cl2) => (Ok (r :: rs), cl2)
              | r => r
              end
          | (Throw e, cl1) => (Throw e, cl1)
          | (OutOfFuel, cl1) => (OutOfFuel, cl1)
          end
      end
  end.

(** The connection as the last of the requests left it, before [close()] when
    that request ended it. *)
Fixpoint session_link {S} `{ByteStream S} `{PhrParser} (limits : Limits) (timeouts : IoTimeouts) (fuel : nat)
    (qs : list Request) (cl : @Client S) : option (conn S unit) :=
  match qs, cl_connection cl with
  | q :: qs', Some c =>
      let request := set_rq_keep_alive (rq_keep_alive q && cl_keep_alive cl) q in
      let c' := snd ((write_request limits timeouts fuel request (format_host_header (cl_host cl) (cl_port cl)) ;;;
                      read_response limits timeouts fuel (rq_method request))%conn c) in
      let cl1 := snd (client_request limits timeouts fuel q cl) in
      match cl_connection cl1 with
      | Some _ => session_link limits timeouts fuel qs' cl1
      | None => Some c'
      end
  | _, c => c
  end.

Section Log.
Context {K : Type}.
Variable handler : Request -> K -> result Response * K.
Variable host : bytes.
Variable keep_alive : bool.

(** The request as the client asks it. *)
Definition asked (q : Request) : Request := set_rq_keep_alive (rq_keep_alive q && keep_alive) q.

(** The requests asked, each with the response it gets, and the state of the
    handler afterwards. *)
Fixpoint session_log (qs : list Request) (k : K) : list (Request * Response) * K :=
  match qs with
  | [] => ([], k)
  | q :: qs' =>
      let '(r, k1) := handler (received_request (asked q) host) k in
      match handler_response r with
      | Ok response =>
          let response := answer (asked q) response in
          if rs_keep_alive response then
            let '(log, k2) := session_log qs' k1 in ((asked q, response) :: log, k2)
          else ([(asked q, response)], k1)
      | _ => ([], k1)
      end
  end.

(** The bytes of the two directions, and what the client makes of them. *)
Definition requests_wire (log : list (Request * Response)) : bytes :=
  concat (map (fun e => request_wire (fst e) host) log).
Definition responses_wire (log : list (Request * Response)) : bytes :=
  concat (map (fun e => response_wire (snd e) (rq_method (fst e))) log).
Definition responses_received (log : list (Request * Response)) : list Response :=
  map (fun e => received_response (snd e) (rq_method (fst e))) log.

(** Rounds of the loops for the bodies of the log. *)
Definition log_fuel (log : list (Request * Response)) : nat :=
  list_sum (map (fun e => Datatypes.S (body_fuel (rq_body (fst e)) (rq_trailers (fst e)) +
                             body_fuel (rs_body (snd e)) (rs_trailers (snd e)))) log).

(** ** Lemmas *)

Lemma log_fuel_cons q r log :
  log_fuel ((q, r) :: log) =
  Datatypes.S (body_fuel (rq_body q) (rq_trailers q) + body_fuel (rs_body r) (rs_trailers r) + log_fuel log).
Proof. done. Qed.

Lemma serve_fuel_log log : (serve_fuel (map (fun e => (fst e, host)) log) <= log_fuel log)%nat.
Proof.
  induction log as [|[q r] log IH]; [done|]. rewrite log_fuel_cons. unfold serve_fuel in IH |- *. simpl in IH |- *. lia.
Qed.

(** A response that keeps the connection alive answers a request that does. *)
Lemma answer_keep_alive q r : rs_keep_alive (answer q r) = true -> rq_keep_alive q = true.
Proof. unfold answer. by destruct (rq_keep_alive q). Qed.

Lemma answer_received q r : answer (received_request q host) r = answer q r.
Proof. done. Qed.

(** The sequential specification of the server, on the requests of the log,
    sends the responses of the log, and ends when one of them does. *)
Lemma serve_spec_log qs : handler_total handler -> forall k,
  Forall (fun e => 0 <= rs_version_minor (snd e) <= 1) (fst (session_log qs k)) ->
  let rqs := map (fun e => received_request (fst e) host) (fst (session_log qs k)) in
  serve_spec handler rqs k = (responses_wire (fst (session_log qs k)), snd (session_log qs k)) /\
  serve_ends handler rqs k = negb (forallb (fun e => rs_keep_alive (snd e)) (fst (session_log qs k))).
Proof.
  intros Ht. induction qs as [|q qs IH]; intros k; simpl; [done|].
  destruct (handler_total_response handler (received_request (asked q) host) k Ht) as [resp Hresp].
  destruct (handler (received_request (asked q) host) k) as [hr k1] eqn:Eh. simpl in Hresp. rewrite Hresp.
  specialize (IH k1). destruct (session_log qs k1) as [log k2]. simpl in IH.
  destruct (rs_keep_alive (answer (asked q) resp)) eqn:Ek; simpl; intros [Hv Hlog]%Forall_cons; simpl in Hv;
    rewrite Eh, Hresp, answer_received, Ek;
    (replace ((rs_version_minor (answer (asked q) resp) <? 0) || (1 <? rs_version_minor (answer (asked q) resp)))
       with false by lia).
  - pose proof (answer_keep_alive _ _ Ek) as Hq. simpl in Hq. rewrite Hq. simpl. destruct (IH Hlog) as [-> ->]. done.
  - rewrite orb_true_r. unfold responses_wire. simpl. by rewrite app_nil_r.
Qed.
End Log.

(** The specification of the server is sequential. *)
Lemma serve_spec_app {K} (handler : Request -> K -> result Response * K) qs1 qs2 k :
  serve_ends handler qs1 k = false ->
  serve_spec handler (qs1 ++ qs2) k =
    (fst (serve_spec handler qs1 k) ++ fst (serve_spec handler qs2 (snd (serve_spec handler qs1 k))),
     snd (serve_spec handler qs2 (snd (serve_spec handler qs1 k)))) /\
  serve_ends handler (qs1 ++ qs2) k = serve_ends handler qs2 (snd (serve_spec handler qs1 k)).
Proof.
  revert k. induction qs1 as [|q qs1 IH]; intros k; simpl.
  - intros _. by destruct (serve_spec handler qs2 k).
  - destruct (handler q k) as [r k1]. destruct (handler_response r) as [response| |]; [|done|done].
    intros Hne. apply orb_false_elim in Hne as [Hne Hrest]. apply orb_false_elim in Hne as [-> ->].
    destruct (IH k1 Hrest) as [-> ->]. cbn [orb]. destruct (serve_spec handler qs1 k1) as [o1 k2]. simpl.
    destruct (serve_spec handler qs2 k2) as [o2 k3]. simpl. by rewrite app_assoc.
Qed.

(** ** The server on what it has been sent *)

Section ServerEnd.
Context {K : Type} `{PhrLaws}.
Variable limits : Limits.
Variable timeouts : IoTimeouts.
Variable handler : Request -> K -> result Response * K.
Variable k0 : K.
Variable cut : cutter.
Variable fuel : nat.

(** [handle_client] on a new connection over which [tx] has arrived. *)
Definition server_run (eof : bool) (tx : bytes) : result unit * conn (inbox eof cut) K :=
  handle_client limits timeouts handler fuel (mkConn (mkInbox true tx []) [] 0 None k0).

(** What it has sent by then, and whether it has closed the connection. *)
Definition server_peer (tx : bytes) : bytes * bool :=
  let s := c_stream (snd (server_run false tx)) in (ib_tx s, negb (ib_open s)).

(** A read of the next request with nothing there waits. *)
Lemma read_request_waits (c : conn (inbox false cut) K) f :
  conn_ok c -> input c = [] -> 1 <= max_header_bytes limits < W64 -> (1 <= f)%nat ->
  exists c', read_request limits timeouts f c = (OutOfFuel, c') /\ c_stream c' = c_stream c /\ c_env c' = c_env c.
Proof.
  intros Hok Hin Hmax Hf. destruct f as [|f]; [lia|].
  assert (buf_view (inner c) = []) as Hv by (by apply app_eq_nil in Hin as [Hv _]).
  assert (ib_rx (c_stream c) = []) as Hi by (by apply app_eq_nil in Hin as [_ Hi]).
  assert (forall cap, bs_recv_some cap (c_stream c) = (OutOfFuel, c_stream c)) as Hw.
  { intros cap. pose proof (proj1 Hok) as Ho. simpl in Ho |- *. by rewrite Ho, Hi. }
  unfold read_request, m_bind at 1, m_local. fold (inner c). unfold read_request_stream. cbn [read_request_loop].
  unfold m_bind at 1, m_get at 1. rewrite Hv. cbn [Z.ltb Z.compare Z.eqb Pos.eqb]. unfold m_bind at 1, m_get at 1.
  rewrite (conn_ok_size (inner c)) by done. rewrite Hv. change (size_of (@nil ascii)) with 0.
  destruct (Z.leb_spec (max_header_bytes limits) 0); [lia|]. rewrite sz_sub_small, Z.sub_0_r by lia.
  unfold m_bind at 1, read_more. replace (max_header_bytes limits =? 0) with false by lia.
  unfold m_bind at 1, timed_recv, with_optional_timeout, m_try, with_timeout, m_recv_some.
  change (c_stream (inner c)) with (c_stream c). cbn [bs_recv_expires inbox_stream].
  destruct (t_read_headers timeouts); rewrite Hw; eexists; (split; [done|]); by destruct c.
Qed.

(** The server answers the requests that have arrived and waits for the next
    one, or returns and closes the connection; it also returns when the
    client hangs up. *)
Lemma server_run_ok qs eof :
  let rqs := map (fun qh => received_request (fst qh) (snd qh)) qs in
  let tx := concat (map (fun qh => request_wire (fst qh) (snd qh)) qs) in
  handler_total handler -> Forall (fun qh => request_fits limits (fst qh) (snd qh)) qs ->
  18 <= max_header_bytes limits < 2 ^ 62 -> size_of tx < 2 ^ 62 -> (length tx + serve_fuel qs + 2 <= fuel)%nat ->
  let '(r, s) := server_run eof tx in
  r = (if serve_ends handler rqs k0 || eof then Ok tt else OutOfFuel) /\
  ib_tx (c_stream s) = fst (serve_spec handler rqs k0) /\ c_env s = snd (serve_spec handler rqs k0) /\
  ib_open (c_stream s) = negb (serve_ends handler rqs k0 || eof).
Proof.
  intros rqs tx Ht Hfit Hmh Hsz Hf. unfold server_run. set (c := mkConn _ _ _ _ _). pose proof pow62_W64 as Hp.
  assert (conn_ok c) as Hok by (split_and!; [done | done | unfold size_of in *; simpl; lia]).
  destruct (serve_loop_live limits timeouts handler qs fuel c (inbox_mute eof cut) Ht Hfit Hok) as (c1 & Hs & He & Ho & Hr);
    [done | done |]. fold rqs in Hs, He, Hr. simpl in Hs, He, Hr.
  unfold handle_client, m_bind. destruct (serve_ends handler rqs k0); simpl.
  { rewrite Hr. simpl. by rewrite Hs, He. }
  destruct Hr as (Hok1 & Hin1 & [|f] & Hf1 & ->); [lia|]. cbn [serve_loop]. unfold m_bind at 1, m_get at 1. rewrite Ho. cbn [negb].
  destruct eof.
  - destruct (read_request_eof limits timeouts f c1) as (c2 & -> & Hto); [done | done | done | lia | lia |].
    destruct Hto as (_ & _ & E1 & _ & [E2 _] & _). simpl in E2 |- *. by rewrite E2, E1, Hs, He.
  - destruct (read_request_waits c1 f Hok1 Hin1) as (c2 & -> & E1 & E2); [lia | lia |].
    simpl in Ho. by rewrite E1, E2, Hs, He, Ho.
Qed.
End ServerEnd.

(** ** The client at the other end *)

Section ClientEnd.
Context {K : Type} `{PhrLaws}.
Variable limits : Limits.
Variable ct st : IoTimeouts.
Variable handler : Request -> K -> result Response * K.
Variable k0 : K.
Variable ccut scut : cutter.
Variable fuel : nat.
Variable name : bytes.
Variable port : Z.
Variable keep : bool.
Local Notation host := (format_host_header name port).
Local Notation stream := (link (server_peer limits st handler k0 scut fuel) ccut).

(** What is asked of a request and of its response. *)
Definition exchange_fits (e : Request * Response) : Prop :=
  request_fits limits (fst e) host /\ response_fits limits (snd e) (rq_method (fst e)).

Definition rcv (q : Request) : Request := received_request q host.
Definition wires (qs : list Request) : bytes := concat (map (fun q => request_wire q host) qs).

(** The client has asked [asked_before], read the replies [out] to them, and
    nothing else has happened on the connection. *)
Record linked (asked_before : list Request) (out : bytes) (c : conn stream unit) : Prop := {
  ld_open : lk_open (c_stream c) = true;
  ld_tx : lk_tx (c_stream c) = wires asked_before;
  ld_got : lk_got (c_stream c) = length out;
  ld_input : input c = [];
  ld_cursor : cursor_ok (c_buffer c) (c_offset c);
  ld_buffer : size_of (c_buffer c) <= size_of out;
  ld_prefetched : c_prefetched c = None
}.

Lemma wires_app qs1 qs2 : wires (qs1 ++ qs2) = wires qs1 ++ wires qs2.
Proof. unfold wires. by rewrite map_app, concat_app. Qed.

Lemma wires_hosts qs :
  concat (map (fun qh => request_wire (fst qh) (snd qh)) (map (fun q => (q, host)) qs)) = wires qs /\
  map (fun qh => received_request (fst qh) (snd qh)) (map (fun q => (q, host)) qs) = map rcv qs.
Proof. unfold wires. by rewrite !map_map. Qed.

(** The reply to the next request is there as soon as it has been sent. *)
Lemma linked_reply done out q a k k1 c c1 :
  let qs := done ++ [q] in
  handler_total handler -> 18 <= max_header_bytes limits < 2 ^ 62 ->
  serve_spec handler (map rcv done) k0 = (out, k) -> serve_ends handler (map rcv done) k0 = false ->
  serve_spec handler [rcv q] k = (response_wire a (rq_method q), k1) ->
  Forall (fun q => request_fits limits q host) qs -> size_of (wires qs) < 2 ^ 62 ->
  (length (wires qs) + serve_fuel (map (fun q => (q, host)) qs) + 2 <= fuel)%nat ->
  size_of out + size_of (response_wire a (rq_method q)) < 2 ^ 62 ->
  linked done out c -> sent (request_wire q host) c c1 ->
  conn_ok c1 /\ input c1 = response_wire a (rq_method q) /\ pending_len c1 = length (response_wire a (rq_method q)) /\
  (forall c', read_to [] c1 c' -> c_prefetched c' = None -> linked qs (out ++ response_wire a (rq_method q)) c').
Proof.
  intros qs Ht Hmh Hout Hends Hone Hfit Hsz Hf Hroom [L1 L2 L3 L4 L5 L6 L7] (S1 & S2 & S3 & _ & S5 & S6 & S7).
  destruct (wires_hosts qs) as [Hw Hr]. generalize dependent (response_wire a (rq_method q)). intros w Hone Hroom.
  assert (lk_tx (c_stream c1) = wires qs) as Htx.
  { change (lk_tx (c_stream c1)) with (bs_sent (c_stream c1)). rewrite S2. change (bs_sent (c_stream c)) with (lk_tx (c_stream c)).
    unfold qs. rewrite L2, wires_app. unfold wires. simpl. by rewrite app_nil_r. }
  assert (lk_got (c_stream c1) = length out) as Hgot by (simpl in S3; injection S3 as S3; congruence).
  assert (bs_incoming (c_stream c1) = w) as Hinc.
  { change (link_rx (c_stream c1) = w). unfold link_rx. rewrite Htx, Hgot. unfold server_peer.
    pose proof (server_run_ok limits st handler k0 scut fuel (map (fun q => (q, host)) qs) false Ht) as Hrun.
    rewrite Hw, Hr in Hrun. destruct (server_run _ _ _ _ _ _ _) as [r s]. simpl.
    destruct Hrun as (_ & -> & _); [by apply Forall_map | done | done | done |].
    unfold qs. rewrite map_app. destruct (serve_spec_app handler (map rcv done) (map rcv [q]) k0 Hends) as [-> _].
    rewrite Hout. simpl map. cbn [fst snd]. rewrite Hone. simpl. apply drop_app_length. }
  assert (buf_view c1 = []) as Hbv.
  { unfold buf_view. rewrite S5, S6. by apply app_eq_nil in L4 as [L4 _]. }
  split_and!.
  - split_and!; [done | by rewrite S5, S6 | rewrite S5, Hinc; lia].
  - unfold input. by rewrite Hbv, Hinc.
  - unfold pending_len. by rewrite Hinc.
  - intros c' (R1 & R2 & _ & R4 & (K1 & K2 & K3) & _) Hp.
    assert (bs_incoming (c_stream c') = []) as Hi' by (by apply app_eq_nil in R2 as [_ R2]).
    unfold pending_len in K2. rewrite Hi', Hinc in K2. simpl in K2. injection K2 as K2.
    rewrite Hi', Hinc, S5 in K3. change (size_of (@nil ascii)) with 0 in K3.
    constructor; [apply R1 | | | done | apply R1 | | done].
    + by rewrite <- Htx.
    + rewrite length_app, K2, Hgot. lia.
    + rewrite size_of_app. lia.
Qed.

Lemma serve_one q hr resp k k1 :
  let a := answer q resp in
  handler (rcv q) k = (hr, k1) -> handler_response hr = Ok resp -> 0 <= rs_version_minor a <= 1 ->
  serve_spec handler [rcv q] k = (response_wire a (rq_method q), k1) /\
  serve_ends handler [rcv q] k = negb (rs_keep_alive a).
Proof.
  intros a Hh Hr Hv. unfold serve_spec, serve_ends. rewrite Hh, Hr. unfold rcv. rewrite answer_received. fold a.
  replace ((rs_version_minor a <? 0) || (1 <? rs_version_minor a)) with false by lia.
  change (rq_keep_alive (received_request q host)) with (rq_keep_alive q).
  change (rq_method (received_request q host)) with (rq_method q).
  destruct (rs_keep_alive a) eqn:Ea.
  - pose proof (answer_keep_alive _ _ Ea) as ->. simpl. by rewrite app_nil_r.
  - simpl. by rewrite orb_true_r.
Qed.

Lemma serve_fuel_app qs1 qs2 : serve_fuel (qs1 ++ qs2) = (serve_fuel qs1 + serve_fuel qs2)%nat.
Proof. unfold serve_fuel. by rewrite map_app, list_sum_app. Qed.

Lemma serve_fuel_snoc done q :
  serve_fuel (map (fun q => (q, host)) (done ++ [q])) =
  (serve_fuel (map (fun q => (q, host)) done) + Datatypes.S (body_fuel (rq_body q) (rq_trailers q)))%nat.
Proof. rewrite map_app, serve_fuel_app. f_equal. unfold serve_fuel. cbn [map list_sum fold_right fst]. apply Nat.add_0_r. Qed.

(** One exchange: the client sends the next request and reads its reply. *)
Lemma linked_exchange done out q0 a k k1 c :
  let q := asked keep q0 in
  let qs := done ++ [q] in
  handler_total handler -> 18 <= max_header_bytes limits < 2 ^ 62 ->
  serve_spec handler (map rcv done) k0 = (out, k) -> serve_ends handler (map rcv done) k0 = false ->
  serve_spec handler [rcv q] k = (response_wire a (rq_method q), k1) ->
  Forall (fun q => request_fits limits q host) done -> exchange_fits (q, a) -> size_of (wires qs) < 2 ^ 62 ->
  (length (wires qs) + serve_fuel (map (fun q => (q, host)) qs) + 2 <= fuel)%nat ->
  (length (response_wire a (rq_method q)) + body_fuel (rs_body a) (rs_trailers a) <= fuel)%nat ->
  size_of out + size_of (response_wire a (rq_method q)) < 2 ^ 62 -> linked done out c ->
  (rs_keep_alive a = true -> rq_keep_alive q = true) ->
  exists c', let cl' := mkClient name port (if rs_keep_alive a then Some c' else None) keep in
    client_request limits ct fuel q0 (mkClient name port (Some c) keep) = (Ok (received_response a (rq_method q)), cl') /\
    snd ((write_request limits ct fuel q host ;;; read_response limits ct fuel (rq_method q))%conn c) = c' /\
    linked qs (out ++ response_wire a (rq_method q)) c'.
Proof.
  intros q qs Ht Hmh Hout Hends Hone Hfit [Hq Hr] Hsz Hf1 Hf2 Hroom L Hka. simpl in Hq, Hr.
  destruct (client_request_live limits ct (mkClient name port (Some c) keep) c q0 a [] fuel)
    as (c1 & c' & Hreq & Hraw & S1 & Hto & Hp); try done.
  - apply L.
  - apply L.
  - exact (qf_minor _ _ _ Hq).
  - exact (qf_expect _ _ _ Hq).
  - lia.
  - intros c1 S1. rewrite app_nil_r.
    destruct (linked_reply done out q a k k1 c c1 Ht Hmh Hout Hends Hone) as (Hok & Hin & Hpl & _); try done.
    { apply Forall_app. split; [done|]. by apply Forall_singleton. }
    split_and!; [done | done |]. rewrite Hpl. done.
  - exists c'. destruct (linked_reply done out q a k k1 c c1 Ht Hmh Hout Hends Hone) as (_ & _ & _ & Hl); try done.
    { apply Forall_app. split; [done|]. by apply Forall_singleton. }
    cbn zeta in Hreq, Hraw |- *. cbn [cl_host cl_port cl_keep_alive] in Hreq, Hraw.
    split_and!; [| by unfold q, asked; rewrite Hraw | by apply Hl].
    rewrite Hreq. do 2 f_equal. change (rq_keep_alive q) with (rq_keep_alive q0 && keep) in Hka.
    destruct (rs_keep_alive a); [by rewrite Hka | by rewrite andb_false_r].
Qed.

Lemma client_session_linked qs : forall done out k c,
  let log := fst (session_log handler host keep qs k) in
  handler_total handler -> 18 <= max_header_bytes limits < 2 ^ 62 ->
  serve_spec handler (map rcv done) k0 = (out, k) -> serve_ends handler (map rcv done) k0 = false ->
  Forall (fun q => request_fits limits q host) done -> Forall exchange_fits log ->
  size_of (wires done ++ requests_wire host log) < 2 ^ 62 -> size_of (out ++ responses_wire log) < 2 ^ 62 ->
  (length (wires done ++ requests_wire host log) + serve_fuel (map (fun q => (q, host)) done) + log_fuel log + 2 <= fuel)%nat ->
  (length (responses_wire log) + log_fuel log <= fuel)%nat -> linked done out c ->
  exists c', let cl := mkClient name port (Some c) keep in
    client_session limits ct fuel qs cl =
      (Ok (responses_received log),
       mkClient name port (if forallb (fun e => rs_keep_alive (snd e)) log then Some c' else None) keep) /\
    session_link limits ct fuel qs cl = Some c' /\
    linked (done ++ map fst log) (out ++ responses_wire log) c'.
Proof.
  induction qs as [|q0 qs IH]; intros done out k c log Ht Hmh Hout Hends Hd Hfit Hsz Hrm Hf1 Hf2 L.
  { exists c. subst log. simpl. rewrite !app_nil_r. by split_and!. }
  subst log. cbn [session_log] in *. set (q := asked keep q0) in *. fold (rcv q) in *.
  destruct (handler_total_response handler (rcv q) k Ht) as [resp Hresp].
  destruct (handler (rcv q) k) as [hr k1] eqn:Eh. simpl in Hresp. rewrite Hresp in *.
  set (a := answer q resp) in *.
  assert (exists log k2, (if rs_keep_alive a then session_log handler host keep qs k1 else ([], k1)) = (log, k2) /\
    (if rs_keep_alive a then let '(log, k2) := session_log handler host keep qs k1 in ((q, a) :: log, k2) else ([(q, a)], k1)) =
    ((q, a) :: log, k2)) as (log & k2 & Elog & E).
  { destruct (rs_keep_alive a); [|by eexists _, _]. destruct (session_log _ _ _ _ _) as [log k2]. by exists log, k2. }
  rewrite E in *. clear E. cbn [fst] in *. apply Forall_cons in Hfit as [Hqa Hfit].
  destruct (serve_one q hr resp k k1 Eh Hresp) as [Hone Hends1]; [apply (sf_minor _ _ _ (proj2 Hqa))|].
  fold a in Hone, Hends1. rewrite log_fuel_cons in Hf1, Hf2.
  assert (requests_wire host ((q, a) :: log) = wires [q] ++ requests_wire host log) as Erq
    by (unfold requests_wire, wires; simpl; by rewrite app_nil_r).
  assert (responses_wire ((q, a) :: log) = response_wire a (rq_method q) ++ responses_wire log) as Ers by done.
  rewrite Erq, Ers, ?app_assoc in *. rewrite <- !wires_app in *.
  rewrite !length_app, !size_of_app in *. pose proof (size_of_nonneg (requests_wire host log)). pose proof (size_of_nonneg (responses_wire log)).
  destruct (linked_exchange done out q0 a k k1 c Ht Hmh Hout Hends Hone Hd Hqa) as (c' & Hreq & Hraw & L'); try done.
  { fold q. lia. }
  { fold q. rewrite serve_fuel_snoc. lia. }
  { fold q. lia. }
  { fold q. lia. }
  { apply answer_keep_alive. }
  fold q in Hreq, Hraw, L'.
  cbn [client_session session_link cl_connection cl_keep_alive cl_host cl_port]. rewrite Hreq. cbn [snd cl_connection].
  fold (asked keep q0). fold q. cbn [forallb snd responses_received map fst].
  destruct (rs_keep_alive a) eqn:Ea.
  - specialize (IH (done ++ [q]) (out ++ response_wire a (rq_method q)) k1 c' Ht Hmh). rewrite Elog in IH. cbn [fst] in IH.
    destruct (serve_spec_app handler (map rcv done) [rcv q] k0 Hends) as [Happ Happ2].
    rewrite Hout in Happ, Happ2. cbn [fst snd] in Happ, Happ2. rewrite Hone in Happ. rewrite Hends1 in Happ2. cbn [fst snd] in Happ.
    rewrite map_app in IH. destruct IH as (c2 & Hses & Hlink & L2); try done.
    { apply Forall_app. split; [done|]. apply Forall_singleton. apply Hqa. }
    { rewrite size_of_app. lia. }
    { rewrite !size_of_app. lia. }
    { rewrite length_app, serve_fuel_snoc. lia. }
    { lia. }
    exists c2. cbn zeta. rewrite Hses, Hlink. split_and!; [done | done |]. by rewrite <- app_assoc in L2.
  - injection Elog as <- <-. exists c'. cbn zeta. rewrite Hraw. split_and!; [by destruct qs | done |].
    by rewrite app_nil_r.
Qed.
End ClientEnd.

(** ** The theorem *)

(** A new connection of the client to a server. *)
Definition new_link {K} `{PhrParser} limits st (handler : Request -> K -> result Response * K) k0 scut ccut fuel :
    conn (link (server_peer limits st handler k0 scut fuel) ccut) unit :=
  mkConn (mkLink true [] 0) [] 0 None tt.


(** Two requests, the second of which the handler fails: the client gets the
    echo and an error response, and the connection ends. *)
Definition session_requests : list Request := [sample_request; sample_chunked].
Definition session_host : bytes := "example.org:8080"%bs.
Definition session_entries : list (Request * Response) :=
  [(sample_request, set_rs_body "hello"%bs default_response); (sample_chunked, error_response 500 "no"%bs)].

Lemma session_entries_fit : Forall (exchange_fits sample_limits "example.org"%bs 8080) session_entries.
Proof.
  assert (forall s : bytes, trim_copy s = s -> forallb vchar s = true -> value_ok s) as Hv.
  { intros s <- Hs. split; [apply trim_copy_trimmed | by apply forallb_ok]. }
  constructor; [|constructor; [|constructor]]; (split; [apply sample_fits; auto|]); constructor; try done; apply Hv; reflexivity.
Qed.

