(* ===== verification/WebRouter.v ===== *)
(** * The router (web.h)

    Path matching ([split_path_segments], [match_route],
    [strip_matched_prefix]) and [Router]: routes in registration order,
    middlewares, mounted routers, the 405 and 404 answers.  A router is a
    handle to a shared [State] ([std::shared_ptr]), and mounting captures the
    handle; the model keeps the states in a store indexed by router, so that
    a route added to a router after it was mounted is seen through the mount.
    Handlers and middlewares are the application's: functions on a world
    [W].  The theorems: path splitting and matching agree with structural
    reference definitions; a mounted route behaves as the concatenation of
    the two patterns; stripping keeps the rest of the path and the query; and
    dispatch takes the first route that matches path and method, or else
    answers 405 with exactly the methods the path has, or 404. *)

From S2P Require Import Prelude CxxString HttpHeaders HttpForm Multipart.
From stdpp Require Import gmap.

Local Open Scope Z_scope.

(** ** Paths *)

Record Param := mkParam { pm_name : bytes; pm_value : bytes }.
Abbreviation Params := (list Param).
#[export] Instance Param_eq_dec : EqDecision Param.
Proof. solve_decision. Defined.

Definition SLASH : ascii := "/"%char.

Definition request_path (target : bytes) : bytes :=
  match find_char "?"%char target with None => target | Some q => take q target end.

(** [while (i < path.size() && path[i] == '/') ++i]. *)
Fixpoint skip_slashes (path : bytes) : bytes :=
  match path with
  | c :: path' => if decide (c = SLASH) then skip_slashes path' else path
  | [] => []
  end.
(** [while (i < path.size() && path[i] != '/') ++i]: the segment and the rest. *)
Fixpoint take_segment (path : bytes) : bytes * bytes :=
  match path with
  | c :: path' =>
      if decide (c = SLASH) then ([], path)
      else let '(seg, rest) := take_segment path' in (c :: seg, rest)
  | [] => ([], [])
  end.
Fixpoint split_loop (fuel : nat) (path : bytes) (out : list bytes) : list bytes :=
  match fuel with
  | O => out
  | S fuel' =>
      match path with
      | [] => out
      | _ =>
          let '(seg, rest) := take_segment path in
          let out := match seg with [] => out | _ => out ++ [seg] end in
          split_loop fuel' (skip_slashes rest) out
      end
  end.
Definition split_path_segments (path : bytes) : list bytes :=
  split_loop (S (length path)) (skip_slashes path) [].

(** ** Matching *)

Record MatchResult := mkMatch { m_matched : bool; m_params : Params; m_segments : nat }.
Definition no_match : MatchResult := mkMatch false [] 0.

Definition STAR : bytes := "*"%bs.

Fixpoint wildcard_from (i : nat) (pattern_parts : list bytes) : option nat :=
  match pattern_parts with
  | [] => None
  | p :: ps => if decide (p = STAR) then Some i else wildcard_from (S i) ps
  end.

(** The value of the wildcard: the remaining segments, joined. *)
Fixpoint append_tail (tail : bytes) (segs : list bytes) : bytes :=
  match segs with
  | [] => tail
  | s :: segs' => append_tail ((match tail with [] => [] | _ => tail ++ [SLASH] end) ++ s) segs'
  end.

(** The loop over the pattern, at index [i], with what is left of both lists. *)
Fixpoint match_loop (i total : nat) (pats segs : list bytes) (params : Params) : MatchResult :=
  match pats with
  | [] => mkMatch true params total
  | pat :: pats' =>
      if decide (pat = STAR) then mkMatch true (params ++ [mkParam STAR (append_tail [] segs)]) i
      else
        match segs with
        | [] => no_match
        | seg :: segs' =>
            match pat with
            | c :: (_ :: _) as name =>
                if decide (c = ":"%char)
                then match_loop (S i) total pats' segs' (params ++ [mkParam (drop 1 pat) seg])
                else if decide (pat <> seg) then no_match
                else match_loop (S i) total pats' segs' params
            | _ => if decide (pat <> seg) then no_match
                   else match_loop (S i) total pats' segs' params
            end
        end
  end.

Definition match_route (path pattern : bytes) (prefix : bool) : MatchResult :=
  let path_parts := split_path_segments path in
  let pattern_parts := split_path_segments pattern in
  let wildcard_index := wildcard_from 0 pattern_parts in
  let bad_wildcard := match wildcard_index with
                      | Some w => negb (Nat.eqb (w + 1) (length pattern_parts))
                      | None => false
                      end in
  let bad_length := match wildcard_index with
                    | Some w => Nat.ltb (length path_parts) w
                    | None => if prefix then Nat.ltb (length path_parts) (length pattern_parts)
                              else negb (Nat.eqb (length path_parts) (length pattern_parts))
                    end in
  if bad_wildcard then no_match
  else if bad_length then no_match
  else
    let out := match_loop 0 (length pattern_parts) pattern_parts path_parts [] in
    match wildcard_index with
    | Some _ => out
    | None =>
        if m_matched out && negb prefix && negb (Nat.eqb (length path_parts) (length pattern_parts))
        then no_match else out
    end.

Definition strip_matched_prefix (target : bytes) (matched_segments : nat) : bytes :=
  let path := request_path target in
  let suffix := drop (length path) target in
  let parts := split_path_segments path in
  (if Nat.ltb matched_segments (length parts)
   then concat (map (fun s => SLASH :: s) (drop matched_segments parts))
   else [SLASH]) ++ suffix.

(** ** Requests in context *)

Record RequestContext := mkCtx { ctx_request : Request; ctx_params : Params }.

Fixpoint find_param (params : Params) (name : bytes) : option bytes :=
  match params with
  | [] => None
  | p :: ps => if decide (pm_name p = name) then Some (pm_value p) else find_param ps name
  end.
Definition ctx_param (ctx : RequestContext) (name : bytes) : option bytes := find_param (ctx_params ctx) name.
Definition ctx_has_param (ctx : RequestContext) (name : bytes) : bool :=
  match ctx_param ctx name with Some _ => true | None => false end.
Definition ctx_path (ctx : RequestContext) : bytes := request_path (rq_target (ctx_request ctx)).
Definition ctx_parse_form (ctx : RequestContext) (max_fields : Z) : result FormFields :=
  parse_form_urlencoded_request (ctx_request ctx) max_fields.
Definition ctx_parse_multipart (ctx : RequestContext) (max_parts max_part_bytes : Z) : result (list Part) :=
  parse_multipart_request (ctx_request ctx) max_parts max_part_bytes.

Definition append_params (dst src : Params) : Params := dst ++ src.
Definition set_target (t : bytes) (r : Request) : Request :=
  mkRequest (rq_method r) t (rq_headers r) (rq_body r) (rq_trailers r) (rq_version_minor r)
    (rq_keep_alive r) (rq_chunked r).

(** ** The router *)

Section Router.
Context {W : Type}.

(** A coroutine that returns a response, on the application's world. *)
Definition Act : Type := W -> result Response * W.
Definition Next : Type := RequestContext -> Act.

(** A handler is the application's function or the one [mount] makes. *)
Inductive Handler :=
| HUser (f : Next)
| HMounted (router : nat).
Definition Middleware : Type := RequestContext -> Next -> Act.

Record Route := mkRoute {
  r_method : option bytes;
  r_path : bytes;
  r_handler : Handler;
  r_prefix : bool;
  r_strip_prefix : bool
}.
Record State := mkState {
  s_routes : list Route;
  s_middlewares : list Middleware;
  s_not_found : option Handler
}.
Definition empty_state : State := mkState [] [] None.

(** The shared states, by router. *)
Definition Store : Type := gmap nat State.
Definition state_of (st : Store) (r : nat) : State := default empty_state (st !! r).

(** *** Registration *)

Definition add_route (r : nat) (route : Route) (st : Store) : Store :=
  let s := state_of st r in
  <[r := mkState (s_routes s ++ [route]) (s_middlewares s) (s_not_found s)]> st.
Definition route (r : nat) (method : option bytes) (path : bytes) (f : Next) (prefix : bool) (st : Store) : Store :=
  add_route r (mkRoute method path (HUser f) prefix false) st.
Definition router_any r path f st := route r None path f false st.
Definition router_get r path f st := route r (Some "GET"%bs) path f false st.
Definition router_post r path f st := route r (Some "POST"%bs) path f false st.
Definition router_put r path f st := route r (Some "PUT"%bs) path f false st.
Definition router_patch r path f st := route r (Some "PATCH"%bs) path f false st.
Definition router_delete r path f st := route r (Some "DELETE"%bs) path f false st.
Definition router_prefix r path f st := route r None path f true st.
Definition mount (r : nat) (path : bytes) (router : nat) (st : Store) : Store :=
  add_route r (mkRoute None path (HMounted router) true true) st.
Definition use (r : nat) (m : Middleware) (st : Store) : Store :=
  let s := state_of st r in
  <[r := mkState (s_routes s) (s_middlewares s ++ [m]) (s_not_found s)]> st.
Definition not_found (r : nat) (f : Next) (st : Store) : Store :=
  let s := state_of st r in
  <[r := mkState (s_routes s) (s_middlewares s) (Some (HUser f))]> st.

(** *** Dispatch *)

Definition add_allowed_method (allowed : list bytes) (method : bytes) : list bytes :=
  if existsb (fun existing => iequals existing method) allowed then allowed else allowed ++ [method].

Fixpoint allow_value (first : bool) (allowed : list bytes) : bytes :=
  match allowed with
  | [] => []
  | m :: ms => (if first then [] else ", "%bs) ++ m ++ allow_value false ms
  end.

Definition method_not_allowed (allowed : list bytes) : Response :=
  mkResponse 405 (reason_phrase 405) (set_header [] "Allow"%bs (allow_value true allowed))
    "method not allowed"%bs [] 1 false false.
Definition not_found_response : Response :=
  mkResponse 404 (reason_phrase 404) [] "not found"%bs [] 1 false false.

(** What the loop over the routes finds: a handler with the context to call
    it on, or the methods the path allows. *)
Inductive selected :=
| Selected (h : Handler) (ctx : RequestContext)
| Allowed (methods : list bytes).

(** Entering a route: its parameters are added and, for a mount, the matched
    prefix is removed from the target. *)
Definition enter_route (rt : Route) (m : MatchResult) (ctx : RequestContext) : RequestContext :=
  mkCtx (if r_strip_prefix rt
         then set_target (strip_matched_prefix (rq_target (ctx_request ctx)) (m_segments m)) (ctx_request ctx)
         else ctx_request ctx)
    (append_params (ctx_params ctx) (m_params m)).

Fixpoint select_route (routes : list Route) (path : bytes) (ctx : RequestContext) (allowed : list bytes) : selected :=
  match routes with
  | [] => Allowed allowed
  | rt :: routes' =>
      let m := match_route path (r_path rt) (r_prefix rt) in
      if negb (m_matched m) then select_route routes' path ctx allowed
      else
        match r_method rt with
        | Some method =>
            if negb (iequals (rq_method (ctx_request ctx)) method)
            then select_route routes' path ctx (add_allowed_method allowed method)
            else Selected (r_handler rt) (enter_route rt m ctx)
        | None => Selected (r_handler rt) (enter_route rt m ctx)
        end
  end.

(** [run] calls a handler. *)
Definition dispatch (run : Handler -> Next) (s : State) : Next := fun ctx =>
  match select_route (s_routes s) (request_path (rq_target (ctx_request ctx))) ctx [] with
  | Selected h ctx' => run h ctx'
  | Allowed [] =>
      match s_not_found s with
      | Some h => run h ctx
      | None => fun w => (Ok not_found_response, w)
      end
  | Allowed methods => fun w => (Ok (method_not_allowed methods), w)
  end.

(** The middlewares, wrapped around [next] from the last to the first. *)
Definition wrap (middlewares : list Middleware) (next : Next) : Next :=
  fold_left (fun prev m inner => m inner prev) (rev middlewares) next.

(** [fuel] bounds the nesting of mounts (a router can be mounted in itself). *)
Fixpoint handle_context (fuel : nat) (st : Store) (r : nat) : Next := fun ctx =>
  match fuel with
  | O => fun w => (OutOfFuel, w)
  | S fuel' =>
      let run h := match h with
                   | HUser f => f
                   | HMounted r' => handle_context fuel' st r'
                   end in
      wrap (s_middlewares (state_of st r)) (dispatch run (state_of st r)) ctx
  end.

Definition handle (fuel : nat) (st : Store) (r : nat) (request : Request) : Act :=
  handle_context fuel st r (mkCtx request []).
End Router.

(** ** Reference definitions *)

(** The non-empty pieces between slashes. *)
Definition segments (path : bytes) : list bytes :=
  List.filter (fun s => negb (bool_decide (s = []))) (all_tokens SLASH path).

Definition is_param (pat : bytes) : bool :=
  match pat with c :: _ :: _ => bool_decide (c = ":"%char) | _ => false end.

(** Matching by structural recursion: the parameters and the number of
    segments before the wildcard or in the pattern. *)
Fixpoint match_spec (pats segs : list bytes) (prefix : bool) : option (Params * nat) :=
  match pats, segs with
  | [], [] => Some ([], 0%nat)
  | [], _ :: _ => if prefix then Some ([], 0%nat) else None
  | pat :: pats', _ =>
      if decide (pat = STAR) then
        match pats' with
        | [] => Some ([mkParam STAR (join_with SLASH segs)], 0%nat)
        | _ => None
        end
      else
        match segs with
        | [] => None
        | seg :: segs' =>
            match match_spec pats' segs' prefix with
            | None => None
            | Some (ps, n) =>
                if is_param pat then Some (mkParam (drop 1 pat) seg :: ps, S n)
                else if decide (pat = seg) then Some (ps, S n) else None
            end
        end
  end.

(** ** Lemmas: splitting *)

Lemma skip_slashes_length s : (length (skip_slashes s) <= length s)%nat.
Proof. induction s as [|c s IH]; simpl; [done|]. case_decide; simpl; lia. Qed.

Lemma take_segment_spec s seg rest :
  take_segment s = (seg, rest) -> s = seg ++ rest /\ SLASH ∉ seg /\ (rest = [] \/ exists t, rest = SLASH :: t).
Proof.
  revert seg rest. induction s as [|c s IH]; intros seg rest; simpl.
  - intros [= <- <-]. split_and!; [done | apply not_elem_of_nil | by left].
  - case_decide as Hc.
    + intros [= <- <-]. subst. split_and!; [done | apply not_elem_of_nil | right; eauto].
    + destruct (take_segment s) as [seg' rest']. intros [= <- <-].
      destruct (IH _ _ eq_refl) as (-> & Hs & Hr). split_and!; [done | | done].
      apply not_elem_of_cons. split; [congruence | done].
Qed.

Lemma all_tokens_nil c : all_tokens c [] = [[]].
Proof. done. Qed.

Lemma loop_tokens_fuel f1 f2 c s :
  (length s < f1)%nat -> (length s < f2)%nat -> loop_tokens f1 c s = loop_tokens f2 c s.
Proof.
  revert f2 s. induction f1 as [|f1 IH]; intros [|f2] s H1 H2; try lia. cbn [loop_tokens].
  destruct (find_char c s) as [i|] eqn:E; [|done]. apply find_char_lt in E.
  f_equal. apply IH; rewrite length_drop; lia.
Qed.

Lemma all_tokens_cons c p s : c ∉ p -> all_tokens c (p ++ c :: s) = p :: all_tokens c s.
Proof.
  intros Hp. unfold all_tokens at 1. cbn [loop_tokens]. rewrite find_char_app, take_app_length, drop_past by done.
  f_equal. apply loop_tokens_fuel; rewrite ?length_app; simpl; lia.
Qed.

Lemma all_tokens_one c p : c ∉ p -> all_tokens c p = [p].
Proof. intros Hp. unfold all_tokens. cbn [loop_tokens]. by apply find_char_None in Hp as ->. Qed.

Lemma segments_slash s : segments (SLASH :: s) = segments s.
Proof.
  unfold segments. change (SLASH :: s) with ([] ++ SLASH :: s).
  rewrite all_tokens_cons by apply not_elem_of_nil. done.
Qed.

Lemma segments_skip s : segments (skip_slashes s) = segments s.
Proof.
  induction s as [|c s IH]; simpl; [done|]. case_decide; [|done]. subst. by rewrite segments_slash.
Qed.

Lemma split_loop_spec fuel path out :
  (length path < fuel)%nat -> split_loop fuel path out = out ++ segments path.
Proof.
  revert path out. induction fuel as [|fuel IH]; intros path out Hf; [lia|]. cbn [split_loop].
  destruct path as [|c path]; [by rewrite app_nil_r|].
  destruct (take_segment (c :: path)) as [seg rest] eqn:E.
  apply take_segment_spec in E as (Hp & Hs & Hr).
  pose proof (skip_slashes_length rest) as Hl. apply (f_equal length) in Hp as Hlen. rewrite length_app in Hlen.
  assert (segments (c :: path) = (match seg with [] => [] | _ => [seg] end) ++ segments rest) as ->.
  { rewrite Hp. destruct Hr as [->|[t ->]].
    - rewrite app_nil_r. unfold segments. rewrite all_tokens_one by done. by destruct seg.
    - unfold segments at 1. rewrite all_tokens_cons by done. rewrite segments_slash. by destruct seg. }
  rewrite IH.
  - rewrite segments_skip, app_assoc. f_equal. destruct seg; [by rewrite app_nil_r | done].
  - destruct Hr as [->|[t ->]]; [simpl in *; lia|].
    change (skip_slashes (SLASH :: t)) with (skip_slashes t) in *.
    pose proof (skip_slashes_length t). simpl in *. lia.
Qed.

Lemma split_path_segments_eq path : split_path_segments path = segments path.
Proof.
  unfold split_path_segments. rewrite split_loop_spec, segments_skip; [done|].
  pose proof (skip_slashes_length path). lia.
Qed.

Lemma segments_clean path : Forall (fun s => s <> [] /\ SLASH ∉ s) (segments path).
Proof.
  unfold segments, all_tokens. generalize (S (length path)) as fuel. intros fuel. revert path.
  induction fuel as [|fuel IH]; intros path; [constructor|]. cbn [loop_tokens].
  destruct (find_char SLASH path) as [i|] eqn:E; cbn [List.filter].
  - apply find_char_Some in E as (Hi & Hn).
    destruct (bool_decide (take i path = [])) eqn:B; cbn [negb]; [apply IH|].
    constructor; [|apply IH]. split; [by apply bool_decide_eq_false in B | done].
  - apply find_char_None in E. destruct (bool_decide (path = [])) eqn:B; cbn [negb]; [constructor|].
    constructor; [|constructor]. split; [by apply bool_decide_eq_false in B | done].
Qed.

(** ** Lemmas: matching *)

Lemma wildcard_from_spec i pats :
  match wildcard_from i pats with
  | None => STAR ∉ pats
  | Some w => exists ps rest, pats = ps ++ STAR :: rest /\ STAR ∉ ps /\ w = (i + length ps)%nat
  end.
Proof.
  revert i. induction pats as [|p pats IH]; intros i; simpl; [apply not_elem_of_nil|].
  case_decide as Hp.
  - exists [], pats. subst. split_and!; [done | apply not_elem_of_nil | simpl; lia].
  - specialize (IH (S i)). destruct (wildcard_from (S i) pats) as [w|].
    + destruct IH as (ps & rest & -> & Hn & ->). exists (p :: ps), rest.
      split_and!; [done | | simpl; lia]. apply not_elem_of_cons. split; [congruence | done].
    + apply not_elem_of_cons. split; [congruence | done].
Qed.

Lemma append_tail_join tail segs :
  tail <> [] -> Forall (fun s => s <> []) segs -> append_tail tail segs = join_with SLASH (tail :: segs).
Proof.
  revert tail. induction segs as [|s segs IH]; intros tail Ht Hall; [done|].
  apply Forall_cons in Hall as [Hs Hall]. cbn [append_tail].
  destruct tail as [|x tail]; [done|]. rewrite join_with_cons, IH; [|by destruct tail | done].
  destruct segs as [|s' segs]; [by rewrite <- app_assoc|].
  rewrite !join_with_cons, <- !app_assoc. done.
Qed.

Lemma append_tail_segments segs :
  Forall (fun s => s <> []) segs -> append_tail [] segs = join_with SLASH segs.
Proof.
  intros Hall. destruct segs as [|s segs]; [done|]. apply Forall_cons in Hall as [Hs Hall].
  cbn [append_tail app]. by apply append_tail_join.
Qed.

Lemma if_neq {B} (x y : bytes) (a b : B) :
  (if decide (x <> y) then a else b) = (if decide (x = y) then b else a).
Proof. by destruct (decide (x <> y)), (decide (x = y)). Qed.

(** The loop ignores what is left of the path, as prefix matching does. *)
Lemma match_loop_spec pats i total segs params :
  (forall ps rest, pats = ps ++ STAR :: rest -> rest = []) -> Forall (fun s => s <> []) segs ->
  match_loop i total pats segs params =
  match match_spec pats segs true with
  | Some (q, n) => mkMatch true (params ++ q) (if decide (STAR ∈ pats) then (i + n)%nat else total)
  | None => no_match
  end.
Proof.
  revert i segs params. induction pats as [|pat pats IH]; intros i segs params Hw Hall.
  - destruct segs; cbn [match_loop match_spec]; rewrite decide_False by apply not_elem_of_nil;
      by rewrite app_nil_r.
  - cbn [match_loop match_spec]. destruct (decide (pat = STAR)) as [->|Hp].
    + destruct pats as [|p' pats']; [|by specialize (Hw [] (p' :: pats') eq_refl)].
      rewrite decide_True by apply list_elem_of_here. rewrite append_tail_segments by done.
      destruct segs; f_equal; lia.
    + destruct segs as [|seg segs]; [done|]. apply Forall_cons in Hall as [Hs Hall].
      assert (forall params', match_loop (S i) total pats segs params' =
        match match_spec pats segs true with
        | Some (q, n) => mkMatch true (params' ++ q) (if decide (STAR ∈ pat :: pats) then (i + S n)%nat else total)
        | None => no_match
        end) as IH'.
      { intros params'. rewrite IH; [|by intros ps rest ->; apply (Hw (pat :: ps)) | done].
        destruct (match_spec pats segs true) as [[q n]|]; [|done]. f_equal.
        destruct (decide (STAR ∈ pats)) as [Hin|Hin].
        - rewrite decide_True by (by right). lia.
        - rewrite decide_False; [done|]. apply not_elem_of_cons. split; [congruence | done]. }
      destruct pat as [|c [|d name]]; cbn [is_param].
      * rewrite decide_True by (intros E; by rewrite <- E in Hs).
        destruct (match_spec pats segs true) as [[q n]|]; [|done].
        rewrite decide_False; [done|]. intros E. by rewrite <- E in Hs.
      * rewrite if_neq, IH'. by destruct (match_spec pats segs true) as [[q n]|], (decide ([c] = seg)).
      * destruct (decide (c = ":"%char)) as [Hc|Hc].
        -- rewrite IH', bool_decide_eq_true_2 by done.
           destruct (match_spec pats segs true) as [[q n]|]; [|done]. by rewrite <- app_assoc.
        -- rewrite if_neq, IH', bool_decide_eq_false_2 by done.
           by destruct (match_spec pats segs true) as [[q n]|], (decide (c :: d :: name = seg)).
Qed.

Lemma match_spec_shape pats segs prefix q n :
  match_spec pats segs prefix = Some (q, n) ->
  (STAR ∉ pats /\ n = length pats /\ (length pats <= length segs)%nat /\ (prefix = false -> length segs = length pats)) \/
  (exists ps, pats = ps ++ [STAR] /\ n = length ps /\ STAR ∉ ps /\ (length ps <= length segs)%nat).
Proof.
  revert segs q n. induction pats as [|pat pats IH]; intros segs q n; cbn [match_spec].
  - intros H. left. split; [apply not_elem_of_nil|].
    destruct segs; [by simplify_eq|]. destruct prefix; simplify_eq. simpl. split_and!; [done | lia | done].
  - destruct (decide (pat = STAR)) as [->|Hp].
    + destruct pats; intros H; [|by destruct segs]. right. exists []. 
      destruct segs; simplify_eq; (split_and!; [done | done | apply not_elem_of_nil | simpl; lia]).
    + destruct segs as [|seg segs]; [done|]. destruct (match_spec pats segs prefix) as [[q' n']|] eqn:E; [|done].
      intros H. assert (n = S n') as -> by (destruct (is_param pat); [|destruct (decide _)]; by simplify_eq).
      destruct (IH _ _ _ E) as [(Hs & -> & Hl & Hpf)|(ps & -> & -> & Hs & Hl)].
      * left. split_and!; [apply not_elem_of_cons; split; [congruence | done] | done | simpl; lia |].
        intros ->. simpl. f_equal. by apply Hpf.
      * right. exists (pat :: ps). split_and!; [done | done | | simpl; lia].
        apply not_elem_of_cons. split; [congruence | done].
Qed.

(** The exact match is the prefix match of a path of the right length. *)
Lemma match_spec_exact pats segs :
  match_spec pats segs false =
  if decide (STAR ∈ pats \/ length segs = length pats) then match_spec pats segs true else None.
Proof.
  revert segs. induction pats as [|pat pats IH]; intros segs; cbn [match_spec].
  - destruct segs; [rewrite decide_True by (by right); done|].
    rewrite decide_False; [done|]. intros [H|H]; [by apply elem_of_nil in H | done].
  - destruct (decide (pat = STAR)) as [->|Hp].
    { rewrite decide_True by (left; apply list_elem_of_here). done. }
    destruct segs as [|seg segs]; [by destruct (decide _)|]. rewrite IH.
    destruct (decide (STAR ∈ pats \/ length segs = length pats)) as [Hd|Hd].
    + rewrite decide_True; [done|]. destruct Hd as [Hd|Hd]; [left; by right | right; simpl; lia].
    + rewrite decide_False; [done|]. intros [H|H]; [|simpl in H; lia].
      apply elem_of_cons in H as [H|H]; [congruence | naive_solver].
Qed.

Lemma first_star_unique ps ps' rest rest' :
  ps ++ STAR :: rest = ps' ++ STAR :: rest' -> STAR ∉ ps -> STAR ∉ ps' -> ps = ps' /\ rest = rest'.
Proof.
  revert ps'. induction ps as [|x ps IH]; intros [|y ps'] E Hn Hn'.
  - by injection E as ->.
  - injection E as <- _. by apply not_elem_of_cons in Hn' as [Hn' _].
  - injection E as -> _. by apply not_elem_of_cons in Hn as [Hn _].
  - injection E as -> E. apply not_elem_of_cons in Hn as [_ Hn], Hn' as [_ Hn'].
    destruct (IH ps' E Hn Hn') as [-> ->]. done.
Qed.

Lemma only_last_star ps ps' rest' : ps ++ [STAR] = ps' ++ STAR :: rest' -> STAR ∉ ps -> rest' = [].
Proof.
  intros E Hn. destruct rest' as [|x r _] using rev_ind; [done|]. exfalso.
  change (ps' ++ STAR :: r ++ [x]) with (ps' ++ (STAR :: r) ++ [x]) in E. rewrite app_assoc in E.
  apply app_inj_tail in E as [-> _]. apply Hn. apply elem_of_app. right. apply list_elem_of_here.
Qed.

(** With a wildcard the two kinds of matching agree. *)
Lemma match_spec_star pats segs prefix : STAR ∈ pats -> match_spec pats segs prefix = match_spec pats segs true.
Proof. intros Hs. destruct prefix; [done|]. rewrite match_spec_exact, decide_True by (by left). done. Qed.

Lemma match_route_eq path pattern prefix :
  match_route path pattern prefix =
  match match_spec (segments pattern) (segments path) prefix with
  | Some (q, n) => mkMatch true q n
  | None => no_match
  end.
Proof.
  unfold match_route. rewrite !split_path_segments_eq. set (pats := segments pattern). set (segs := segments path).
  assert (Forall (fun s => s <> []) segs) as Hne.
  { eapply Forall_impl; [apply segments_clean|]. by intros s [Hs _]. }
  pose proof (wildcard_from_spec 0 pats) as Hw. destruct (wildcard_from 0 pats) as [w|].
  - destruct Hw as (ps & rest & Hp & Hns & ->). rewrite Nat.add_0_l.
    assert (STAR ∈ pats) as Hin by (rewrite Hp; apply elem_of_app; right; apply list_elem_of_here).
    rewrite match_spec_star by done. destruct rest as [|x rest].
    + rewrite Hp at 1. rewrite length_app, Nat.eqb_refl. cbn [negb].
      rewrite match_loop_spec; [|intros a b Hab; rewrite Hp in Hab; by eapply only_last_star | done].
      destruct (match_spec pats segs true) as [[q n]|] eqn:E; [|by destruct (_ <? _)%nat].
      rewrite decide_True by done.
      destruct (match_spec_shape _ _ _ _ _ E) as [[Hno _]|(ps' & Hp' & -> & Hns' & Hl)]; [done|].
      rewrite Hp in Hp'. destruct (first_star_unique _ _ _ _ Hp' Hns Hns') as [<- _].
      destruct (Nat.ltb_spec (length segs) (length ps)); [lia | done].
    + rewrite Hp at 1. rewrite length_app. destruct (Nat.eqb_spec (length ps + 1) (length ps + length (STAR :: x :: rest)));
        [simpl in *; lia|]. cbn [negb].
      destruct (match_spec pats segs true) as [[q n']|] eqn:E; [|done].
      destruct (match_spec_shape _ _ _ _ _ E) as [[Hno _]|(ps' & Hp' & _ & Hns' & _)]; [done|].
      rewrite Hp in Hp'. by destruct (first_star_unique _ _ _ _ Hp' Hns Hns').
  - rewrite match_loop_spec; [|intros a b Hab; exfalso; apply Hw; rewrite Hab; apply elem_of_app; right; apply list_elem_of_here | done].
    destruct prefix.
    + destruct (match_spec pats segs true) as [[q n]|] eqn:E; [|by destruct (_ <? _)%nat].
      rewrite decide_False by done.
      destruct (match_spec_shape _ _ _ _ _ E) as [(_ & -> & Hl & _)|(ps' & Hp' & _)].
      * destruct (Nat.ltb_spec (length segs) (length pats)); [lia|]. done.
      * exfalso. apply Hw. rewrite Hp'. apply elem_of_app. right. apply list_elem_of_here.
    + rewrite match_spec_exact. destruct (Nat.eqb_spec (length segs) (length pats)) as [Hl|Hl]; cbn [negb].
      * rewrite decide_True by (by right).
        destruct (match_spec pats segs true) as [[q n]|] eqn:E; [|done]. rewrite decide_False by done.
        destruct (match_spec_shape _ _ _ _ _ E) as [(_ & -> & _)|(ps' & Hp' & _)]; [done|].
        exfalso. apply Hw. rewrite Hp'. apply elem_of_app. right. apply list_elem_of_here.
      * rewrite decide_False by naive_solver. done.
Qed.

(** ** Lemmas: stripping and mounting *)

Lemma request_path_no_query target : "?"%char ∉ request_path target.
Proof.
  unfold request_path. destruct (find_char "?"%char target) as [q|] eqn:E.
  - by apply find_char_Some in E as (Hn & _).
  - by apply find_char_None in E.
Qed.

(** The target is the path and then nothing or the query. *)
Lemma request_path_suffix target :
  exists suffix, target = request_path target ++ suffix /\ drop (length (request_path target)) target = suffix /\
    (suffix = [] \/ exists t, suffix = "?"%char :: t).
Proof.
  unfold request_path. destruct (find_char "?"%char target) as [q|] eqn:E.
  - apply find_char_lt in E as Hlt. apply find_char_Some in E as (_ & Hq).
    exists (drop q target). rewrite length_take, Nat.min_l by lia. split_and!; [by rewrite take_drop | done |].
    right. exists (drop (S q) target). rewrite Hq at 1. apply drop_app_length'. rewrite length_take. lia.
  - exists []. rewrite app_nil_r, drop_all. split_and!; [done | done | by left].
Qed.

Lemma request_path_app path suffix :
  "?"%char ∉ path -> (suffix = [] \/ exists t, suffix = "?"%char :: t) -> request_path (path ++ suffix) = path.
Proof.
  intros Hn [->|[t ->]]; unfold request_path.
  - rewrite app_nil_r. by apply find_char_None in Hn as ->.
  - by rewrite find_char_app, take_app_length.
Qed.

Lemma segments_concat segs :
  Forall (fun s => s <> [] /\ SLASH ∉ s) segs -> segments (concat (map (fun s => SLASH :: s) segs)) = segs.
Proof.
  induction segs as [|s segs IH]; intros Hall; [done|]. apply Forall_cons in Hall as [[Hs Hn] Hall].
  cbn [map concat app]. rewrite segments_slash. specialize (IH Hall).
  destruct segs as [|s' segs]; cbn [map concat app] in *.
  - rewrite app_nil_r. unfold segments. rewrite all_tokens_one by done. cbn [List.filter].
    by rewrite bool_decide_eq_false_2.
  - unfold segments. rewrite all_tokens_cons by done. cbn [List.filter].
    rewrite bool_decide_eq_false_2 by done. cbn [negb]. f_equal.
    rewrite segments_slash in IH. exact IH.
Qed.

Lemma segment_in_path path s : s ∈ segments path -> forall c, c ∈ s -> c ∈ path.
Proof.
  unfold segments, all_tokens. generalize (S (length path)) as fuel. intros fuel. revert path.
  induction fuel as [|fuel IH]; intros path Hs c Hc; [by apply elem_of_nil in Hs|]. cbn [loop_tokens] in Hs.
  apply list_elem_of_In, List.filter_In in Hs as [Hs Hf].
  destruct (find_char SLASH path) as [i|] eqn:E.
  - destruct Hs as [<-|Hs].
    + rewrite <- (take_drop i path). apply elem_of_app. by left.
    + rewrite <- (take_drop (S i) path). apply elem_of_app. right.
      apply (IH (drop (S i) path)); [|done]. by apply list_elem_of_In, List.filter_In.
  - destruct Hs as [<-|[]]. done.
Qed.

(** Matching a concatenated pattern is matching one part after the other. *)
Lemma match_spec_app p1 p2 segs prefix :
  STAR ∉ p1 ->
  match_spec (p1 ++ p2) segs prefix =
  match match_spec p1 segs true with
  | None => None
  | Some (q1, n1) =>
      match match_spec p2 (drop n1 segs) prefix with
      | None => None
      | Some (q2, n2) => Some (q1 ++ q2, (n1 + n2)%nat)
      end
  end.
Proof.
  revert segs. induction p1 as [|p p1 IH]; intros segs Hn.
  - destruct segs; cbn [app match_spec drop]; by destruct (match_spec p2 _ prefix) as [[]|].
  - apply not_elem_of_cons in Hn as [Hp Hn]. cbn [app match_spec].
    rewrite !decide_False by congruence. destruct segs as [|seg segs]; [done|].
    rewrite IH by done. destruct (match_spec p1 segs true) as [[q1 n1]|]; [|done].
    destruct (is_param p); [|destruct (decide (p = seg))];
      change (drop (S n1) (seg :: segs)) with (drop n1 segs);
      by destruct (match_spec p2 (drop n1 segs) prefix) as [[q2 n2]|].
Qed.

Lemma loop_tokens_app_slash fuel p q :
  (length p < fuel)%nat -> loop_tokens (fuel + S (length q)) SLASH (p ++ SLASH :: q) =
    loop_tokens fuel SLASH p ++ all_tokens SLASH q.
Proof.
  revert p. induction fuel as [|fuel IH]; intros p Hf; [lia|]. cbn [loop_tokens Nat.add].
  destruct (find_char SLASH p) as [i|] eqn:E.
  - apply find_char_Some in E as (Hn & Hp). set (a := take i p) in *. set (b := drop (S i) p) in *.
    assert (i = length a) as Hi.
    { unfold a. rewrite length_take. apply (f_equal length) in Hp. rewrite length_app in Hp. simpl in Hp.
      unfold a in Hp. rewrite length_take in Hp. lia. }
    rewrite Hp, <- app_assoc. cbn [app]. rewrite find_char_app, take_app_length, drop_past by done.
    rewrite IH; [done|]. apply (f_equal length) in Hp. rewrite length_app in Hp. simpl in Hp. lia.
  - apply find_char_None in E. rewrite find_char_app, take_app_length, drop_past by done. cbn [app].
    f_equal. apply loop_tokens_fuel; lia.
Qed.

Lemma segments_app p q : segments (p ++ SLASH :: q) = segments p ++ segments q.
Proof.
  unfold segments. rewrite <- List.filter_app. f_equal.
  pose proof (loop_tokens_app_slash (S (length p)) p q ltac:(lia)) as H.
  fold (all_tokens SLASH p) in H. rewrite <- H.
  apply loop_tokens_fuel; rewrite length_app; simpl; lia.
Qed.

Lemma strip_segments target n :
  let t' := strip_matched_prefix target n in
  segments (request_path t') = drop n (segments (request_path target)) /\
  (drop (length (request_path t')) t' : bytes) = drop (length (request_path target)) target.
Proof.
  intros t'. destruct (request_path_suffix target) as (suffix & Ht & Hd & Hs).
  unfold t', strip_matched_prefix. rewrite split_path_segments_eq, Hd.
  set (parts := segments (request_path target)).
  assert (Forall (fun s => s <> [] /\ SLASH ∉ s) parts) as Hall by apply segments_clean.
  set (new_path := if Nat.ltb n (length parts) then concat (map (fun s => SLASH :: s) (drop n parts)) else [SLASH]).
  assert ("?"%char ∉ new_path /\ segments new_path = drop n parts) as [Hq Hseg].
  { unfold new_path. destruct (Nat.ltb_spec n (length parts)) as [Hlt|Hge].
    - split; [|apply segments_concat; by apply Forall_drop].
      assert (forall s, s ∈ drop n parts -> "?"%char ∉ s) as Hno.
      { intros s Hin Hc. apply (request_path_no_query target).
        apply (segment_in_path _ s); [|done]. fold parts.
        rewrite <- (take_drop n parts). apply elem_of_app. by right. }
      clear -Hno. induction (drop n parts) as [|s l IH]; [apply not_elem_of_nil|].
      cbn [map concat app]. apply not_elem_of_cons. split; [done|]. apply not_elem_of_app. split.
      + apply Hno. apply list_elem_of_here.
      + apply IH. intros s' Hs'. apply Hno. by right.
    - split; [by apply find_char_None|]. rewrite drop_ge by done. done. }
  rewrite request_path_app by done. by rewrite drop_app_length.
Qed.

(** ** Theorems *)

(** C12: Path matching agrees with its reference.  Splitting yields the
    non-empty pieces between slashes, so repeated and trailing slashes do not
    matter; and [match_route] accepts exactly when the structural definition
    does, with the same parameters (a wildcard only as the last segment,
    bound to the rest of the path) and the same number of matched segments. *)
Theorem match_route_exact path pattern prefix :
  split_path_segments path = segments path /\
  match_route path pattern prefix =
  match match_spec (segments pattern) (segments path) prefix with
  | Some (q, n) => mkMatch true q n
  | None => mkMatch false [] 0
  end.
Proof. split; [apply split_path_segments_eq | apply match_route_eq]. Qed.

(** Stripping a mount's prefix removes exactly the matched segments and
    keeps the query: the segments of the new path are the old ones without
    the first [n], and what follows the path is unchanged. *)
Theorem strip_matched_prefix_exact target n :
  let t' := strip_matched_prefix target n in
  split_path_segments (request_path t') = drop n (split_path_segments (request_path target)) /\
  (drop (length (request_path t')) t' : bytes) = drop (length (request_path target)) target.
Proof. intros t'. rewrite !split_path_segments_eq. apply strip_segments. Qed.

(** A mounted route behaves as the concatenation of the two patterns.  For
    a mount pattern [p] without wildcard, the pattern [p/q] matches a target
    exactly when [p] matches as a prefix and [q] matches the target that the
    mount hands on, and the parameters are those of [p] and then those of
    [q], as the router collects them. *)
Theorem mounted_pattern_composes target p q prefix :
  STAR ∉ split_path_segments p ->
  let whole := match_route (request_path target) (p ++ SLASH :: q) prefix in
  let outer := match_route (request_path target) p true in
  let inner := match_route (request_path (strip_matched_prefix target (m_segments outer))) q prefix in
  m_matched whole = m_matched outer && m_matched inner /\
  (m_matched whole = true ->
     m_params whole = append_params (m_params outer) (m_params inner) /\
     m_segments whole = (m_segments outer + m_segments inner)%nat).
Proof.
  rewrite split_path_segments_eq. intros Hn whole outer inner.
  unfold whole, inner, outer. rewrite !match_route_eq, segments_app, match_spec_app by done.
  destruct (match_spec (segments p) (segments (request_path target)) true) as [[q1 n1]|]; [|done].
  cbn [m_segments m_matched m_params]. rewrite (proj1 (strip_segments target n1)).
  by destruct (match_spec (segments q) _ prefix) as [[q2 n2]|].
Qed.

Lemma mounted_pattern_composes_witness :
  let whole := match_route "/api//users/7"%bs "/api/users/:id"%bs false in
  m_matched whole = true /\ m_params whole = [mkParam "id"%bs "7"%bs].
Proof.
  assert (STAR ∉ split_path_segments "/api"%bs) as Hs by (by intros [|[]%elem_of_nil]%elem_of_cons).
  destruct (mounted_pattern_composes "/api//users/7?x=1"%bs "/api"%bs "users/:id"%bs false Hs) as [Hm Hp].
  split; [exact Hm|]. apply (proj1 (Hp eq_refl)).
Defined.

(** *** Dispatch *)

Section Dispatch.
Context {W : Type}.

Definition route_match (rt : @Route W) (ctx : RequestContext) : MatchResult :=
  match_route (request_path (rq_target (ctx_request ctx))) (r_path rt) (r_prefix rt).
Definition method_ok (rt : @Route W) (ctx : RequestContext) : bool :=
  match r_method rt with Some m => iequals (rq_method (ctx_request ctx)) m | None => true end.
Definition applicable (rt : @Route W) (ctx : RequestContext) : bool :=
  m_matched (route_match rt ctx) && method_ok rt ctx.

(** The methods of the routes whose path matches, each once. *)
Fixpoint path_methods (routes : list (@Route W)) (ctx : RequestContext) (allowed : list bytes) : list bytes :=
  match routes with
  | [] => allowed
  | rt :: routes' =>
      path_methods routes' ctx
        (match m_matched (route_match rt ctx), r_method rt with
         | true, Some m => add_allowed_method allowed m
         | _, _ => allowed
         end)
  end.

Lemma select_route_skip routes ctx allowed :
  Forall (fun rt => applicable rt ctx = false) routes ->
  select_route routes (request_path (rq_target (ctx_request ctx))) ctx allowed =
  Allowed (path_methods routes ctx allowed).
Proof.
  revert allowed. induction routes as [|rt routes IH]; intros allowed Hall; [done|].
  apply Forall_cons in Hall as [Hrt Hall]. cbn [select_route path_methods].
  unfold applicable, method_ok in Hrt. unfold route_match in *.
  destruct (m_matched _); cbn [negb andb] in *; [|by apply IH].
  destruct (r_method rt) as [m|]; [|done]. rewrite Hrt. cbn [negb]. by apply IH.
Qed.

Lemma select_route_first pre rt post ctx allowed :
  Forall (fun r => applicable r ctx = false) pre -> applicable rt ctx = true ->
  select_route (pre ++ rt :: post) (request_path (rq_target (ctx_request ctx))) ctx allowed =
  Selected (r_handler rt) (enter_route rt (route_match rt ctx) ctx).
Proof.
  revert allowed. induction pre as [|r pre IH]; intros allowed Hall Hrt; cbn [app select_route].
  - unfold applicable, method_ok in Hrt. unfold route_match in *. apply andb_true_iff in Hrt as [-> Hm]. cbn [negb].
    destruct (r_method rt) as [m|]; [|done]. by rewrite Hm.
  - apply Forall_cons in Hall as [Hr Hall]. unfold applicable, method_ok in Hr. unfold route_match in Hr.
    destruct (m_matched _); cbn [negb andb] in *; [|by apply IH].
    destruct (r_method r) as [m|]; [|done]. rewrite Hr. cbn [negb]. by apply IH.
Qed.

(** What an [Allow] list is: the methods of the matching routes, up to case,
    each once. *)
Definition lists_methods (routes : list (@Route W)) (ctx : RequestContext) (allowed : list bytes) : Prop :=
  (forall m, m ∈ allowed -> exists rt, rt ∈ routes /\ m_matched (route_match rt ctx) = true /\ r_method rt = Some m) /\
  (forall rt m, rt ∈ routes -> m_matched (route_match rt ctx) = true -> r_method rt = Some m ->
     exists m', m' ∈ allowed /\ iequals m' m = true) /\
  (forall i j m m', allowed !! i = Some m -> allowed !! j = Some m' -> iequals m m' = true -> i = j).

Lemma add_allowed_spec allowed m :
  (forall m', m' ∈ add_allowed_method allowed m <-> m' ∈ allowed \/ (m' = m /\ m' ∈ add_allowed_method allowed m)) /\
  (exists m', m' ∈ add_allowed_method allowed m /\ iequals m' m = true) /\
  ((forall i j a b, allowed !! i = Some a -> allowed !! j = Some b -> iequals a b = true -> i = j) ->
   forall i j a b, add_allowed_method allowed m !! i = Some a -> add_allowed_method allowed m !! j = Some b ->
     iequals a b = true -> i = j).
Proof.
  unfold add_allowed_method. destruct (existsb _ allowed) eqn:E.
  - split_and!; [naive_solver | | done]. apply existsb_exists in E as (m' & Hin & Hm').
    exists m'. split; [by apply list_elem_of_In | done].
  - split_and!.
    + intros m'. rewrite elem_of_app, list_elem_of_singleton. naive_solver.
    + exists m. rewrite elem_of_app, list_elem_of_singleton. split; [by right | apply iequals_refl].
    + assert (forall a, a ∈ allowed -> iequals a m = false) as Hno.
      { intros a Ha. destruct (iequals a m) eqn:Ea; [|done]. exfalso. apply not_true_iff_false in E. apply E.
        apply existsb_exists. exists a. split; [by apply list_elem_of_In | done]. }
      intros Hu i j a b Hi Hj Hab.
      apply lookup_app_Some in Hi as [Hi|[Li Hi]]; apply lookup_app_Some in Hj as [Hj|[Lj Hj]].
      * by eapply Hu.
      * apply list_lookup_singleton_Some in Hj as [_ <-]. rewrite (Hno a) in Hab; [done | by eapply list_elem_of_lookup_2].
      * apply list_lookup_singleton_Some in Hi as [_ <-]. rewrite iequals_sym, (Hno b) in Hab; [done | by eapply list_elem_of_lookup_2].
      * apply list_lookup_singleton_Some in Hi as [Hi _], Hj as [Hj _]. lia.
Qed.

Lemma path_methods_spec routes ctx done_ allowed :
  lists_methods done_ ctx allowed -> lists_methods (done_ ++ routes) ctx (path_methods routes ctx allowed).
Proof.
  revert done_ allowed. induction routes as [|rt routes IH]; intros done_ allowed Hl; cbn [path_methods].
  - by rewrite app_nil_r.
  - change (rt :: routes) with ([rt] ++ routes). rewrite app_assoc. apply IH.
    destruct Hl as (H1 & H2 & H3).
    assert (forall x, x ∈ done_ ++ [rt] <-> x ∈ done_ \/ x = rt) as Hin.
    { intros x. rewrite elem_of_app, list_elem_of_singleton. done. }
    destruct (m_matched (route_match rt ctx)) eqn:Em; [destruct (r_method rt) as [m|] eqn:Er|].
    + destruct (add_allowed_spec allowed m) as (A1 & A2 & A3). split_and!; [| | by apply A3].
      * intros m' Hm'. apply A1 in Hm' as [Hm'|[-> _]].
        -- destruct (H1 m' Hm') as (r & Hr & Hrest). exists r. rewrite Hin. by split; [left|].
        -- exists rt. rewrite Hin. split_and!; [by right | done | done].
      * intros r m' Hr Hm Hrm. apply Hin in Hr as [Hr| ->].
        -- destruct (H2 r m' Hr Hm Hrm) as (x & Hx & Hxm). exists x. rewrite A1. by split; [left|].
        -- by simplify_eq.
    + split_and!; [| | done].
      * intros m' Hm'. destruct (H1 m' Hm') as (r & Hr & Hrest). exists r. rewrite Hin. by split; [left|].
      * intros r m' Hr Hm Hrm. apply Hin in Hr as [Hr| ->]; [by eapply H2 | congruence].
    + split_and!; [| | done].
      * intros m' Hm'. destruct (H1 m' Hm') as (r & Hr & Hrest). exists r. rewrite Hin. by split; [left|].
      * intros r m' Hr Hm Hrm. apply Hin in Hr as [Hr| ->]; [by eapply H2 | congruence].
Qed.
End Dispatch.

(** C13: Dispatch takes the first applicable route.  The handler of the first
    route, in registration order, whose pattern matches the path and whose
    method (if it has one) is the request's, up to case, is called with the
    route's parameters appended and, for a mount, the prefix stripped.  When
    no route applies, the answer is 405 with an [Allow] header that lists the
    methods of the routes whose pattern matches, each once, if there are any,
    and else the not-found handler or 404. *)
Theorem dispatch_first_match {W} (run : @Handler W -> Next) s ctx w :
  (forall pre rt post, s_routes s = pre ++ rt :: post ->
     Forall (fun r => applicable r ctx = false) pre -> applicable rt ctx = true ->
     dispatch run s ctx w = run (r_handler rt) (enter_route rt (route_match rt ctx) ctx) w) /\
  (Forall (fun r => applicable r ctx = false) (s_routes s) ->
     exists allowed, lists_methods (s_routes s) ctx allowed /\
       dispatch run s ctx w =
         match allowed, s_not_found s with
         | _ :: _, _ => (Ok (method_not_allowed allowed), w)
         | [], Some h => run h ctx w
         | [], None => (Ok not_found_response, w)
         end).
Proof.
  split.
  - intros pre rt post Hr Hpre Hrt. unfold dispatch. by rewrite Hr, select_route_first.
  - intros Hall. exists (path_methods (s_routes s) ctx []). split.
    + apply (path_methods_spec (s_routes s) ctx [] []). split_and!.
      * intros m Hm. by apply elem_of_nil in Hm.
      * intros rt m Hrt. by apply elem_of_nil in Hrt.
      * done.
    + unfold dispatch. rewrite select_route_skip by done. by destruct (path_methods _ _ _), (s_not_found s).
Qed.

(** Middlewares run from the first registered to the last, each around the
    rest: the first one gets the request and a [next] that is the second one
    around the rest, and so on down to the dispatch of the routes. *)
Theorem middleware_onion {W} fuel (st : @Store W) r ctx :
  let run := fun h => match h with HUser f => f | HMounted r' => handle_context fuel st r' end in
  handle_context (S fuel) st r ctx =
  foldr (fun (m : Middleware) (next : Next) inner => m inner next)
    (dispatch run (state_of st r)) (s_middlewares (state_of st r)) ctx.
Proof.
  intros run. cbn [handle_context]. unfold wrap. fold run.
  assert (forall ms next, fold_left (fun (prev : @Next W) m inner => m inner prev) (rev ms) next =
            foldr (fun (m : Middleware) (next : Next) inner => m inner next) next ms) as ->; [|done].
  induction ms as [|m ms IH]; intros next; [done|]. cbn [rev foldr]. by rewrite fold_left_app, IH.
Qed.

(** Mounting shares the router.  A route added to a router after it was
    mounted is served through the mount, with the mount's prefix removed from
    the target and the query kept. *)
Theorem mount_sees_later_routes {W} fuel (f : @Next W) w :
  let st := router_get 1 "/users/:id"%bs f (mount 0 "/api"%bs 1 ∅) in
  let request := mkRequest "get"%bs "/api/users/7?x=1"%bs [] [] [] 1 true false in
  handle (S (S fuel)) st 0 request w =
  f (mkCtx (set_target "/users/7?x=1"%bs request) [mkParam "id"%bs "7"%bs]) w.
Proof. reflexivity. Qed.
