(* ===== verification/SqlOrm.v ===== *)
(** * The SQL builder (sql/orm.h)

    The functions of [corouv::sql::orm]: where clauses and their combinators,
    joins and relations, and the statements for select, insert, update and
    delete.  Each statement is built as a text and its parameters
    ([*_statement]) and then run on a [Connection] of [Sql.v].  The theorems:
    in every statement the placeholders are exactly the parameters, numbered
    from 1 without gaps for PostgreSQL and as many [?] as parameters
    otherwise; the clause builders keep the condition that makes this true;
    an update or delete without a where clause does not reach the driver;
    and the case in which combining clauses loses the correspondence. *)

From S2P Require Import Prelude CxxString Sql.

Local Open Scope Z_scope.

(** ** Data *)

Record JoinSpec := mkJoin { j_kind : bytes; j_table : bytes; j_alias : bytes; j_on : bytes }.

Record TableMetaRuntime := mkTable {
  t_table : bytes;
  t_columns : list bytes;
  t_primary_key : option bytes
}.

Record WhereClause := mkWhere {
  w_sql : bytes;
  w_params : Params;
  w_rewrite : bool           (* rewrite_question_placeholders *)
}.
Definition empty_where : WhereClause := mkWhere [] [] true.
Definition where_empty (w : WhereClause) : bool := bool_decide (w_sql w = []).

Inductive SortDirection := Asc | Desc.
Record OrderBy := mkOrderBy { o_expr : bytes; o_direction : SortDirection }.

Record SelectOptions := mkSelectOptions {
  so_select_expr : bytes;
  so_where : option WhereClause;
  so_group_by : list bytes;
  so_having : option WhereClause;
  so_order_by : list OrderBy;
  so_limit : option Z;
  so_offset : option Z
}.

Record OneToOneRelation := mkOneToOne {
  oo_target_table : bytes; oo_target_alias : bytes; oo_source_key : bytes; oo_target_key : bytes; oo_kind : bytes
}.
Record OneToManyRelation := mkOneToMany {
  om_target_table : bytes; om_target_alias : bytes; om_source_key : bytes; om_target_key : bytes; om_kind : bytes
}.
Record ManyToManyRelation := mkManyToMany {
  mm_junction_table : bytes; mm_junction_alias : bytes; mm_target_table : bytes; mm_target_alias : bytes;
  mm_source_key : bytes; mm_junction_source_key : bytes; mm_junction_target_key : bytes; mm_target_key : bytes;
  mm_junction_kind : bytes; mm_target_kind : bytes
}.

Definition orm_error (m : bytes) {A} : result A := Throw (InvalidArgument m).
Definition or_default (s d : bytes) : bytes := match s with [] => d | _ => s end.

(** ** Pieces of SQL *)

Definition placeholder (b : backend) (index : nat) : bytes :=
  if decide (b = PostgreSQL) then "$"%char :: to_string (Z.of_nat index) else "?"%bs.

(** The loops that put [", "] before every element but the first. *)
Fixpoint comma_list (first : bool) (items : list bytes) : bytes :=
  match items with
  | [] => []
  | x :: xs => (if first then [] else ", "%bs) ++ x ++ comma_list false xs
  end.

Definition placeholders (b : backend) (count start_index : nat) : bytes :=
  comma_list true (map (fun i => placeholder b (start_index + i)) (seq 0 count)).
Definition question_placeholders (count : nat) : bytes := comma_list true (replicate count "?"%bs).
Definition join_columns (columns : list bytes) : bytes := comma_list true columns.

Definition join_sql (j : JoinSpec) : bytes :=
  match j_table j, j_on j with
  | [], _ | _, [] => []
  | _, _ =>
      " "%bs ++ or_default (j_kind j) "INNER"%bs ++ " JOIN "%bs ++ j_table j ++
      (match j_alias j with [] => [] | a => " "%bs ++ a end) ++ " ON "%bs ++ j_on j
  end.
Fixpoint joins_sql (joins : list JoinSpec) : bytes :=
  match joins with [] => [] | j :: js => join_sql j ++ joins_sql js end.

Definition append_where (sql where_ : bytes) : bytes :=
  match where_ with [] => sql | _ => sql ++ " WHERE "%bs ++ where_ end.

Definition check_columns (t : TableMetaRuntime) : result unit :=
  match t_table t, t_columns t with
  | [], _ => orm_error "corouv::sql::orm empty table name"%bs
  | _, [] => orm_error "corouv::sql::orm empty column list"%bs
  | _, _ => Ok tt
  end.

Fixpoint count_question_placeholders (sql : bytes) : nat :=
  match sql with
  | [] => 0%nat
  | ch :: rest => ((if decide (ch = "?"%char) then 1 else 0) + count_question_placeholders rest)%nat
  end.

Definition validate_where_clause (w : WhereClause) : result unit :=
  if where_empty w then
    match w_params w with
    | [] => Ok tt
    | _ => orm_error "corouv::sql::orm empty where clause with non-empty params"%bs
    end
  else if negb (w_rewrite w) then Ok tt
  else if decide (count_question_placeholders (w_sql w) = length (w_params w)) then Ok tt
  else orm_error "corouv::sql::orm where clause placeholder count mismatch"%bs.

Fixpoint number_questions (sql : bytes) (index : nat) : bytes :=
  match sql with
  | [] => []
  | ch :: rest =>
      if decide (ch = "?"%char) then "$"%char :: to_string (Z.of_nat index) ++ number_questions rest (S index)
      else ch :: number_questions rest index
  end.
Definition render_question_placeholders (sql : bytes) (b : backend) (start_index : nat) : bytes :=
  if decide (b = PostgreSQL) then number_questions sql start_index else sql.

Definition render_where_clause (w : WhereClause) (b : backend) (start_index : nat) : result bytes :=
  _ ← validate_where_clause w;
  if negb (w_rewrite w) then Ok (w_sql w) else Ok (render_question_placeholders (w_sql w) b start_index).

Definition qualify_column (ref column : bytes) : bytes :=
  match ref with [] => column | _ => ref ++ "."%bs ++ column end.

(** ** Where clauses *)

Definition where_raw (sql : bytes) (params : Params) (rewrite : bool) : WhereClause := mkWhere sql params rewrite.

Definition need_column (column : bytes) : result unit :=
  match column with [] => orm_error "corouv::sql::orm empty where column"%bs | _ => Ok tt end.

Definition where_binary (column op : bytes) (v : Value) : result WhereClause :=
  _ ← need_column column; Ok (mkWhere (column ++ " "%bs ++ op ++ " ?"%bs) [v] true).
Definition where_eq column v := where_binary column "="%bs v.
Definition where_ne column v := where_binary column "!="%bs v.
Definition where_gt column v := where_binary column ">"%bs v.
Definition where_ge column v := where_binary column ">="%bs v.
Definition where_lt column v := where_binary column "<"%bs v.
Definition where_le column v := where_binary column "<="%bs v.
Definition where_like column v := where_binary column "LIKE"%bs v.

Definition where_between (column : bytes) (low high : Value) : result WhereClause :=
  _ ← need_column column; Ok (mkWhere (column ++ " BETWEEN ? AND ?"%bs) [low; high] true).
Definition where_in (column : bytes) (values : Params) : result WhereClause :=
  _ ← need_column column;
  match values with
  | [] => orm_error "corouv::sql::orm where_in values is empty"%bs
  | _ => Ok (mkWhere (column ++ " IN ("%bs ++ question_placeholders (length values) ++ ")"%bs) values true)
  end.
Definition where_is_null (column : bytes) : result WhereClause :=
  _ ← need_column column; Ok (mkWhere (column ++ " IS NULL"%bs) [] true).
Definition where_is_not_null (column : bytes) : result WhereClause :=
  _ ← need_column column; Ok (mkWhere (column ++ " IS NOT NULL"%bs) [] true).

Definition where_not (clause : WhereClause) : result WhereClause :=
  _ ← validate_where_clause clause;
  if where_empty clause then Ok clause
  else Ok (mkWhere ("NOT ("%bs ++ w_sql clause ++ ")"%bs) (w_params clause) (w_rewrite clause)).

(** The new [rewrite_mode] after a clause, given the parameters collected so
    far. *)
Definition combine_mode (mode : option bool) (collected : Params) (clause : WhereClause) : result (option bool) :=
  match mode with
  | None => Ok (Some (w_rewrite clause))
  | Some m =>
      if Bool.eqb m (w_rewrite clause) then Ok mode
      else match w_params clause, collected with
           | [], _ => Ok mode
           | _, [] => Ok (Some (w_rewrite clause))
           | _, _ => orm_error "corouv::sql::orm mixed placeholder rewrite mode in where_combine"%bs
           end
  end.
Fixpoint combine_loop (clauses : list WhereClause) (op : bytes) (first : bool) (mode : option bool)
    (sql : bytes) (params : Params) : result WhereClause :=
  match clauses with
  | [] => Ok (mkWhere sql params (default true mode))
  | clause :: rest =>
      if where_empty clause then combine_loop rest op first mode sql params
      else
        _ ← validate_where_clause clause;
        mode' ← combine_mode mode params clause;
        combine_loop rest op false mode'
          (sql ++ (if first then [] else " "%bs ++ op ++ " "%bs) ++ "("%bs ++ w_sql clause ++ ")"%bs)
          (params ++ w_params clause)
  end.
Definition where_combine (clauses : list WhereClause) (op : bytes) : result WhereClause :=
  combine_loop clauses op true None [] [].
Definition where_and (clauses : list WhereClause) : result WhereClause := where_combine clauses "AND"%bs.
Definition where_or (clauses : list WhereClause) : result WhereClause := where_combine clauses "OR"%bs.

(** ** Order, groups, joins of relations *)

Fixpoint order_by_loop (first : bool) (terms : list OrderBy) : bytes :=
  match terms with
  | [] => []
  | term :: rest =>
      match o_expr term with
      | [] => order_by_loop first rest
      | e => (if first then " ORDER BY "%bs else ", "%bs) ++ e ++
             (match o_direction term with Desc => " DESC"%bs | Asc => " ASC"%bs end) ++ order_by_loop false rest
      end
  end.
Definition order_by_sql (terms : list OrderBy) : bytes := order_by_loop true terms.
Fixpoint group_by_loop (first : bool) (groups : list bytes) : bytes :=
  match groups with
  | [] => []
  | [] :: rest => group_by_loop first rest
  | g :: rest => (if first then " GROUP BY "%bs else ", "%bs) ++ g ++ group_by_loop false rest
  end.
Definition group_by_sql (groups : list bytes) : bytes := group_by_loop true groups.

Definition build_join_from_relation (source_ref target_table target_alias source_key target_key kind : bytes)
    : result JoinSpec :=
  match source_ref, target_table, source_key, target_key with
  | [], _, _, _ | _, [], _, _ | _, _, [], _ | _, _, _, [] =>
      orm_error "corouv::sql::orm invalid relation specification"%bs
  | _, _, _, _ =>
      let rhs_ref := or_default target_alias target_table in
      Ok (mkJoin (or_default kind "LEFT"%bs) target_table target_alias
            (qualify_column rhs_ref target_key ++ " = "%bs ++ qualify_column source_ref source_key))
  end.

Definition relation_joins_one_to_one (source_ref : bytes) (r : OneToOneRelation) : result (list JoinSpec) :=
  j ← build_join_from_relation source_ref (oo_target_table r) (oo_target_alias r) (oo_source_key r)
        (oo_target_key r) (oo_kind r);
  Ok [j].
Definition relation_joins_one_to_many (source_ref : bytes) (r : OneToManyRelation) : result (list JoinSpec) :=
  j ← build_join_from_relation source_ref (om_target_table r) (om_target_alias r) (om_source_key r)
        (om_target_key r) (om_kind r);
  Ok [j].
Definition relation_joins_many_to_many (source_ref : bytes) (r : ManyToManyRelation) : result (list JoinSpec) :=
  if bool_decide ([] ∈ [source_ref; mm_junction_table r; mm_target_table r; mm_source_key r;
                        mm_junction_source_key r; mm_junction_target_key r; mm_target_key r]) then
    orm_error "corouv::sql::orm invalid many-to-many relation specification"%bs
  else
    let junction_ref := or_default (mm_junction_alias r) (mm_junction_table r) in
    let target_ref := or_default (mm_target_alias r) (mm_target_table r) in
    Ok [mkJoin (or_default (mm_junction_kind r) "LEFT"%bs) (mm_junction_table r) (mm_junction_alias r)
          (qualify_column junction_ref (mm_junction_source_key r) ++ " = "%bs ++
           qualify_column source_ref (mm_source_key r));
        mkJoin (or_default (mm_target_kind r) "LEFT"%bs) (mm_target_table r) (mm_target_alias r)
          (qualify_column target_ref (mm_target_key r) ++ " = "%bs ++
           qualify_column junction_ref (mm_junction_target_key r))].

(** ** Statements *)

Record statement := mkStatement { st_sql : bytes; st_params : Params }.

(** The locals [sql], [placeholder_index] and [params] of a select. *)
Definition append_optional_clause (sql : bytes) (b : backend) (index : nat) (params : Params)
    (clause : option WhereClause) (keyword : bytes) : result (bytes * nat * Params) :=
  match clause with
  | None => Ok (sql, index, params)
  | Some w =>
      if where_empty w then Ok (sql, index, params)
      else
        rendered ← render_where_clause w b index;
        Ok (sql ++ " "%bs ++ keyword ++ " "%bs ++ rendered, (index + length (w_params w))%nat, params ++ w_params w)
  end.

Definition select_list (t : TableMetaRuntime) (select_expr : bytes) : bytes :=
  or_default select_expr (join_columns (t_columns t)).
Definition optional_number (keyword : bytes) (n : option Z) : bytes :=
  match n with None => [] | Some n => keyword ++ to_string n end.

Definition select_statement (b : backend) (base : TableMetaRuntime) (joins : list JoinSpec) (o : SelectOptions)
    : result statement :=
  _ ← check_columns base;
  '(sql, index, params) ←
    append_optional_clause
      ("SELECT "%bs ++ select_list base (so_select_expr o) ++ " FROM "%bs ++ t_table base ++ joins_sql joins)
      b 1 [] (so_where o) "WHERE"%bs;
  '(sql, index, params) ←
    append_optional_clause (sql ++ group_by_sql (so_group_by o)) b index params (so_having o) "HAVING"%bs;
  Ok (mkStatement (sql ++ order_by_sql (so_order_by o) ++ optional_number " LIMIT "%bs (so_limit o) ++
                   optional_number " OFFSET "%bs (so_offset o)) params).

Definition find_all_statement (t : TableMetaRuntime) (where_ : bytes) (params : Params) : result statement :=
  _ ← check_columns t;
  Ok (mkStatement (append_where ("SELECT "%bs ++ join_columns (t_columns t) ++ " FROM "%bs ++ t_table t) where_) params).

Definition need_primary_key (t : TableMetaRuntime) : result bytes :=
  match t_primary_key t with
  | None | Some [] => orm_error "corouv::sql::orm primary key is required"%bs
  | Some pk => Ok pk
  end.

Definition find_by_pk_statement (b : backend) (t : TableMetaRuntime) (pk_value : Value) : result statement :=
  _ ← check_columns t;
  pk ← need_primary_key t;
  Ok (mkStatement ("SELECT "%bs ++ join_columns (t_columns t) ++ " FROM "%bs ++ t_table t ++ " WHERE "%bs ++ pk ++
                   " = "%bs ++ placeholder b 1 ++ " LIMIT 1"%bs) [pk_value]).

Definition insert_statement (b : backend) (t : TableMetaRuntime) (values : Params) : result statement :=
  _ ← check_columns t;
  if decide (length values = length (t_columns t)) then
    Ok (mkStatement ("INSERT INTO "%bs ++ t_table t ++ " ("%bs ++ join_columns (t_columns t) ++ ") VALUES ("%bs ++
                     placeholders b (length (t_columns t)) 1 ++ ")"%bs) values)
  else orm_error "corouv::sql::orm insert values count does not match columns"%bs.

(** [col = placeholder] for the columns from index [i] on. *)
Fixpoint set_list (b : backend) (i : nat) (columns : list bytes) : list bytes :=
  match columns with
  | [] => []
  | c :: cs => (c ++ " = "%bs ++ placeholder b (i + 1)) :: set_list b (S i) cs
  end.
Definition check_set (set_columns : list bytes) (set_values : Params) : result unit :=
  match set_columns with
  | [] => orm_error "corouv::sql::orm update set_columns is empty"%bs
  | _ => if decide (length set_values = length set_columns) then Ok tt
         else orm_error "corouv::sql::orm update values count does not match columns"%bs
  end.

Definition update_where_statement (b : backend) (t : TableMetaRuntime) (set_columns : list bytes)
    (set_values : Params) (w : WhereClause) (allow_empty_where : bool) : result statement :=
  _ ← check_columns t;
  _ ← check_set set_columns set_values;
  if where_empty w && negb allow_empty_where then
    orm_error "corouv::sql::orm update_where requires where clause"%bs
  else
    let sql := "UPDATE "%bs ++ t_table t ++ " SET "%bs ++ comma_list true (set_list b 0 set_columns) in
    if where_empty w then Ok (mkStatement sql set_values)
    else
      rendered ← render_where_clause w b (length set_columns + 1);
      Ok (mkStatement (sql ++ " WHERE "%bs ++ rendered) (set_values ++ w_params w)).

Definition update_by_pk_statement (b : backend) (t : TableMetaRuntime) (set_columns : list bytes)
    (set_values : Params) (pk_value : Value) : result statement :=
  _ ← check_columns t;
  pk ← need_primary_key t;
  _ ← check_set set_columns set_values;
  Ok (mkStatement ("UPDATE "%bs ++ t_table t ++ " SET "%bs ++ comma_list true (set_list b 0 set_columns) ++
                   " WHERE "%bs ++ pk ++ " = "%bs ++ placeholder b (length set_columns + 1)) (set_values ++ [pk_value])).

Definition delete_where_statement (b : backend) (t : TableMetaRuntime) (w : WhereClause) (allow_empty_where : bool)
    : result statement :=
  _ ← check_columns t;
  if where_empty w && negb allow_empty_where then
    orm_error "corouv::sql::orm delete_where requires where clause"%bs
  else
    let sql := "DELETE FROM "%bs ++ t_table t in
    if where_empty w then Ok (mkStatement sql [])
    else
      rendered ← render_where_clause w b 1;
      Ok (mkStatement (sql ++ " WHERE "%bs ++ rendered) (w_params w)).

Definition delete_by_pk_statement (b : backend) (t : TableMetaRuntime) (pk_value : Value) : result statement :=
  _ ← check_columns t;
  pk ← need_primary_key t;
  Ok (mkStatement ("DELETE FROM "%bs ++ t_table t ++ " WHERE "%bs ++ pk ++ " = "%bs ++ placeholder b 1) [pk_value]).

Definition join_query_statement (base : TableMetaRuntime) (joins : list JoinSpec) (where_ : bytes) (params : Params)
    (select_expr : bytes) : result statement :=
  _ ← check_columns base;
  Ok (mkStatement (append_where ("SELECT "%bs ++ select_list base select_expr ++ " FROM "%bs ++ t_table base ++
                                 joins_sql joins) where_) params).

(** ** Running them on a connection *)

Section Run.
Context {F D W : Type} `{DriverOps F D W}.
Implicit Types c : @SqlConn F D W.

Definition run_query (st : result statement) c : result Result * SqlConn :=
  match st with
  | Ok st => query (st_sql st) (st_params st) c
  | Throw e => (Throw e, c)
  | OutOfFuel => (OutOfFuel, c)
  end.
Definition run_execute (st : result statement) c : result Z * SqlConn :=
  match st with
  | Ok st => execute (st_sql st) (st_params st) c
  | Throw e => (Throw e, c)
  | OutOfFuel => (OutOfFuel, c)
  end.

Definition select_with_joins base joins options c := run_query (select_statement (conn_backend c) base joins options) c.
Definition orm_select t options c := select_with_joins t [] options c.
Definition find_all t where_ params c := run_query (find_all_statement t where_ params) c.
Definition find_by_pk t pk_value c := run_query (find_by_pk_statement (conn_backend c) t pk_value) c.
Definition orm_insert t values c := run_execute (insert_statement (conn_backend c) t values) c.
Definition update_where t set_columns set_values w allow_empty_where c :=
  run_execute (update_where_statement (conn_backend c) t set_columns set_values w allow_empty_where) c.
Definition update_by_pk t set_columns set_values pk_value c :=
  run_execute (update_by_pk_statement (conn_backend c) t set_columns set_values pk_value) c.
Definition update_row_by_pk t set_values pk_value c := update_by_pk t (t_columns t) set_values pk_value c.
Definition delete_where t w allow_empty_where c :=
  run_execute (delete_where_statement (conn_backend c) t w allow_empty_where) c.
Definition delete_by_pk t pk_value c := run_execute (delete_by_pk_statement (conn_backend c) t pk_value) c.
Definition join_query base joins where_ params select_expr c :=
  run_query (join_query_statement base joins where_ params select_expr) c.

(** [join_one_to_one] and the like: the joins of a relation, then a select. *)
Definition join_relation (relation_joins : bytes -> result (list JoinSpec)) base options (base_ref : bytes) c
    : result Result * SqlConn :=
  match (_ ← check_columns base; relation_joins (or_default base_ref (t_table base))) with
  | Ok joins => select_with_joins base joins options c
  | Throw e => (Throw e, c)
  | OutOfFuel => (OutOfFuel, c)
  end.
Definition join_one_to_one base r options base_ref c :=
  join_relation (fun ref => relation_joins_one_to_one ref r) base options base_ref c.
Definition join_one_to_many base r options base_ref c :=
  join_relation (fun ref => relation_joins_one_to_many ref r) base options base_ref c.
Definition join_many_to_many base r options base_ref c :=
  join_relation (fun ref => relation_joins_many_to_many ref r) base options base_ref c.
End Run.

(** ** Placeholders of a statement

    [refs sql]: the digits after each [$], as PostgreSQL reads them (a
    parameter reference extends over all the digits that follow). *)

Definition flush (cur : option bytes) : list bytes := match cur with None => [] | Some d => [d] end.
Fixpoint refs_loop (cur : option bytes) (s : bytes) : list bytes :=
  match s with
  | [] => flush cur
  | ch :: rest =>
      if decide (ch = "$"%char) then flush cur ++ refs_loop (Some []) rest
      else match cur with
           | None => refs_loop None rest
           | Some d => if isdigit ch then refs_loop (Some (d ++ [ch])) rest else flush cur ++ refs_loop None rest
           end
  end.
Definition refs (s : bytes) : list bytes := refs_loop None s.

(** The references [i], ..., [i + n - 1]. *)
Definition numbered (i n : nat) : list bytes := map (fun k => to_string (Z.of_nat k)) (seq i n).

(** The placeholders of [s] are [n] parameters, from number [i] on. *)
Definition binds (b : backend) (s : bytes) (i n : nat) : Prop :=
  if decide (b = PostgreSQL) then refs s = numbered i n /\ count_question_placeholders s = 0%nat
  else count_question_placeholders s = n.
Definition bound (b : backend) (st : statement) : Prop := binds b (st_sql st) 1 (length (st_params st)).

(** Caller-supplied text without placeholders. *)
Definition text (s : bytes) : bool := forallb (fun c => negb (bool_decide (c = "?"%char)) && negb (bool_decide (c = "$"%char))) s.

(** No [$], and no digit right after a [?]. *)
Definition starts_no_digit (s : bytes) : bool := match s with [] => true | c :: _ => negb (isdigit c) end.
Fixpoint apart (s : bytes) : bool :=
  match s with
  | [] => true
  | c :: rest =>
      negb (bool_decide (c = "$"%char)) &&
      (if decide (c = "?"%char) then starts_no_digit rest else true) && apart rest
  end.
Definition clause_ok (w : WhereClause) : bool := w_rewrite w && apart (w_sql w).

(** *** Lemmas *)

Lemma text_app a b : text (a ++ b) = text a && text b.
Proof. apply forallb_app. Qed.

Lemma text_count a s : text a = true -> count_question_placeholders (a ++ s) = count_question_placeholders s.
Proof.
  induction a as [|c a IH]; [done|]. simpl. rewrite !andb_true_iff. intros [[H1 _] H2].
  rewrite decide_False by (by case_bool_decide). by rewrite IH.
Qed.

Lemma text_refs a s : text a = true -> refs (a ++ s) = refs s.
Proof.
  unfold refs. induction a as [|c a IH]; [done|]. simpl. rewrite !andb_true_iff. intros [[_ H1] H2].
  rewrite decide_False by (by case_bool_decide). by rewrite IH.
Qed.

Lemma count_app a b :
  count_question_placeholders (a ++ b) = (count_question_placeholders a + count_question_placeholders b)%nat.
Proof. induction a as [|c a IH]; simpl; [done | lia]. Qed.

Lemma refs_loop_stop cur b : starts_no_digit b = true -> refs_loop cur b = flush cur ++ refs_loop None b.
Proof.
  destruct b as [|c b]; simpl; [by rewrite app_nil_r|]. intros Hc.
  destruct (decide (c = "$"%char)); [done|]. destruct cur as [d|]; [|done]. by destruct (isdigit c).
Qed.

Lemma refs_loop_app cur a b :
  starts_no_digit b = true -> refs_loop cur (a ++ b) = refs_loop cur a ++ refs_loop None b.
Proof.
  intros Hb. revert cur. induction a as [|c a IH]; intros cur; simpl; [by apply refs_loop_stop|].
  destruct (decide _); [by rewrite IH, app_assoc|].
  destruct cur as [d|]; [|done]. destruct (isdigit c); [done|]. rewrite IH. done.
Qed.

Lemma refs_loop_digits d ds b :
  Forall (fun c => isdigit c = true) ds -> refs_loop (Some d) (ds ++ b) = refs_loop (Some (d ++ ds)) b.
Proof.
  intros H. revert d. induction H as [|c ds Hc _ IH]; intros d; simpl; [by rewrite app_nil_r|].
  rewrite decide_False by (intros ->; done). rewrite Hc, IH. by rewrite <- app_assoc.
Qed.

Lemma numbered_app i n m : numbered i (n + m) = numbered i n ++ numbered (i + n) m.
Proof. unfold numbered. by rewrite seq_app, map_app. Qed.

Lemma binds_text b t i : text t = true -> binds b t i 0.
Proof.
  intros Ht. unfold binds. rewrite <- (app_nil_r t).
  rewrite (text_count t [] Ht), (text_refs t [] Ht). by destruct (decide _).
Qed.

Lemma binds_text_app b t s i n : text t = true -> binds b s i n -> binds b (t ++ s) i n.
Proof. intros Ht. unfold binds. by rewrite (text_count t s Ht), (text_refs t s Ht). Qed.

Lemma binds_char b c s i n : text [c] = true -> binds b s i n -> binds b (c :: s) i n.
Proof. exact (binds_text_app b [c] s i n). Qed.

Lemma binds_app b s t i n m :
  binds b s i n -> binds b t (i + n) m -> starts_no_digit t = true -> binds b (s ++ t) i (n + m).
Proof.
  unfold binds. intros H1 H2 Ht. rewrite count_app. destruct (decide _); [|lia].
  destruct H1 as [H1 H1'], H2 as [H2 H2']. split; [|lia].
  unfold refs in *. by rewrite (refs_loop_app _ _ _ Ht), H1, H2, numbered_app.
Qed.

Lemma binds_app_text b s t i n : binds b s i n -> text t = true -> starts_no_digit t = true -> binds b (s ++ t) i n.
Proof. intros H1 Ht Hd. rewrite <- (Nat.add_0_r n). apply binds_app; [done | by apply binds_text | done]. Qed.

Lemma to_string_digits n : 0 <= n -> Forall (fun c => isdigit c = true) (to_string n).
Proof.
  intros Hn. unfold to_string. replace (n <? 0) with false by lia.
  destruct (print_base_digits 10 n) as (_ & Hall & _); [lia | done |].
  apply (Forall_impl _ _ _ Hall). intros c [d Hd]. revert Hd. all_bytes c.
Qed.

Lemma digits_text s : Forall (fun c => isdigit c = true) s -> text s = true.
Proof.
  induction 1 as [|c s Hc _ IH]; [done|]. simpl. rewrite IH, andb_true_r. revert Hc. all_bytes c.
Qed.

Lemma number_text n : 0 <= n -> text (to_string n) = true.
Proof. intros. by apply digits_text, to_string_digits. Qed.

Lemma binds_placeholder b i : binds b (placeholder b i) i 1.
Proof.
  unfold binds, placeholder. destruct (decide _); [|done]. split.
  - unfold refs. cbn [refs_loop]. rewrite decide_True by done. cbn [flush app].
    rewrite <- (app_nil_r (to_string _)), refs_loop_digits by (apply to_string_digits; lia). done.
  - rewrite <- (app_nil_r ("$"%char :: _)). cbn [app count_question_placeholders].
    rewrite decide_False by done. rewrite text_count; [done | apply number_text; lia].
Qed.

Lemma placeholder_head b i : starts_no_digit (placeholder b i) = true.
Proof. unfold placeholder. by destruct (decide _). Qed.

(** Rendering a clause numbers its question marks. *)
Lemma number_questions_binds s i :
  apart s = true ->
  refs (number_questions s i) = numbered i (count_question_placeholders s) /\
  count_question_placeholders (number_questions s i) = 0%nat /\
  (starts_no_digit s = true -> starts_no_digit (number_questions s i) = true).
Proof.
  revert i. induction s as [|c s IH]; intros i; [done|].
  cbn [apart number_questions count_question_placeholders]. rewrite !andb_true_iff. intros [[Hc Hq] Hs].
  destruct (decide (c = "?"%char)) as [->|Hne].
  - destruct (IH (S i) Hs) as (H1 & H2 & H3). split_and!; [| |done].
    + unfold refs in *. cbn [refs_loop]. rewrite decide_True by done. cbn [flush app].
      rewrite refs_loop_digits by (apply to_string_digits; lia). cbn [app].
      rewrite refs_loop_stop by auto. by rewrite H1.
    + cbn [count_question_placeholders]. rewrite decide_False by done.
      rewrite text_count by (apply number_text; lia). by rewrite H2.
  - destruct (IH i Hs) as (H1 & H2 & _). case_bool_decide; [done|]. split_and!.
    + unfold refs in *. cbn [refs_loop]. by rewrite decide_False.
    + cbn [count_question_placeholders]. by rewrite decide_False.
    + done.
Qed.

Lemma render_binds w b i s :
  clause_ok w = true -> where_empty w = false -> render_where_clause w b i = Ok s -> binds b s i (length (w_params w)).
Proof.
  unfold clause_ok, render_where_clause, validate_where_clause. rewrite andb_true_iff. intros [Hr Ha] He.
  rewrite He, Hr. cbn [negb]. destruct (decide (_ = _)) as [Hc|]; [|done]. cbn [mbind result_bind].
  intros [= <-]. rewrite <- Hc. unfold binds, render_question_placeholders.
  destruct (decide (b = PostgreSQL)); [|done]. destruct (number_questions_binds _ i Ha) as (H1 & H2 & _). by split.
Qed.

(** *** Lists of pieces *)

Fixpoint binds_each (b : backend) (i : nat) (items : list bytes) : Prop :=
  match items with [] => True | x :: xs => binds b x i 1 /\ binds_each b (S i) xs end.

Lemma comma_tail_head items : starts_no_digit (comma_list false items) = true.
Proof. by destruct items. Qed.

Lemma comma_list_binds b first i items : binds_each b i items -> binds b (comma_list first items) i (length items).
Proof.
  revert first i. induction items as [|x xs IH]; intros first i; [intros _; by apply binds_text|].
  intros [Hx Hxs]. cbn [comma_list length]. apply binds_text_app; [by destruct first|].
  apply (binds_app b x _ i 1); [done | | apply comma_tail_head].
  replace (i + 1)%nat with (S i) by lia. by apply IH.
Qed.

Lemma comma_list_text first items : Forall (fun x => text x = true) items -> text (comma_list first items) = true.
Proof.
  intros H. revert first. induction H as [|x xs Hx _ IH]; intros first; [done|].
  cbn [comma_list]. rewrite !text_app, Hx, IH. by destruct first.
Qed.

Lemma set_list_binds b i cols :
  Forall (fun x => text x = true) cols -> binds_each b (i + 1) (set_list b i cols) /\ length (set_list b i cols) = length cols.
Proof.
  intros H. revert i. induction H as [|x xs Hx _ IH]; intros i; [done|]. cbn [set_list binds_each length].
  destruct (IH (S i)) as [IH1 IH2]. split_and!; [| done | by rewrite IH2].
  apply binds_text_app; [done|]. apply binds_text_app; [done|]. apply binds_placeholder.
Qed.

Lemma placeholders_binds b n i : binds b (placeholders b n i) i n.
Proof.
  unfold placeholders. rewrite <- (length_seq n 0) at 2. rewrite <- (length_map (fun k => placeholder b (i + k)) (seq 0 n)).
  apply comma_list_binds. assert (forall j, binds_each b (i + j) (map (fun k => placeholder b (i + k)) (seq j n))) as Hj.
  { induction n as [|n IH]; intros j; [done|]. cbn [seq map binds_each]. split; [apply binds_placeholder|].
    replace (S (i + j)) with (i + S j)%nat by lia. apply IH. }
  specialize (Hj 0%nat). by rewrite Nat.add_0_r in Hj.
Qed.

(** *** Texts the caller supplies *)

Definition opt_text (s : option bytes) : bool := match s with None => true | Some s => text s end.
Definition table_ok (t : TableMetaRuntime) : bool :=
  text (t_table t) && forallb text (t_columns t) && opt_text (t_primary_key t).
Definition join_ok (j : JoinSpec) : bool := text (j_kind j) && text (j_table j) && text (j_alias j) && text (j_on j).
Definition opt_clause_ok (w : option WhereClause) : bool := match w with None => true | Some w => clause_ok w end.
Definition options_ok (o : SelectOptions) : bool :=
  text (so_select_expr o) && opt_clause_ok (so_where o) && forallb text (so_group_by o) &&
  opt_clause_ok (so_having o) && forallb (fun t => text (o_expr t)) (so_order_by o) &&
  match so_limit o with None => true | Some n => 0 <=? n end &&
  match so_offset o with None => true | Some n => 0 <=? n end.

Lemma forallb_texts l : forallb text l = true -> Forall (fun x => text x = true) l.
Proof. intros H. apply Forall_forall. intros x Hx. rewrite forallb_forall in H. apply H. by apply list_elem_of_In. Qed.

Lemma join_sql_text j : join_ok j = true -> text (join_sql j) = true.
Proof.
  unfold join_ok, join_sql, or_default. rewrite !andb_true_iff. intros [[[H1 H2] H3] H4].
  destruct (j_table j) as [|t ts] eqn:Et; [done|]. destruct (j_on j) as [|o os] eqn:Eo; [done|].
  rewrite !text_app, H2, H4. destruct (j_kind j), (j_alias j); rewrite ?text_app, ?H1, ?H3; done.
Qed.

Lemma joins_sql_text js : forallb join_ok js = true -> text (joins_sql js) = true.
Proof.
  induction js as [|j js IH]; [done|]. cbn [forallb joins_sql]. rewrite andb_true_iff, text_app.
  intros [H1 H2]. by rewrite (join_sql_text j H1), IH.
Qed.

Lemma group_by_text first gs : forallb text gs = true -> text (group_by_loop first gs) = true.
Proof.
  revert first. induction gs as [|g gs IH]; intros first; [done|]. cbn [forallb]. rewrite andb_true_iff. intros [H1 H2].
  destruct g as [|c g]; [by apply IH|]. cbn [group_by_loop]. rewrite !text_app, H1, (IH _ H2). by destruct first.
Qed.

Lemma group_by_head gs : starts_no_digit (group_by_sql gs) = true.
Proof. unfold group_by_sql. induction gs as [|[|c g] gs IH]; done. Qed.

Lemma order_by_text first ts : forallb (fun t => text (o_expr t)) ts = true -> text (order_by_loop first ts) = true.
Proof.
  revert first. induction ts as [|t ts IH]; intros first; [done|]. cbn [forallb order_by_loop].
  rewrite andb_true_iff. intros [H1 H2]. destruct (o_expr t) as [|c e]; [by apply IH|].
  rewrite !text_app, H1, (IH _ H2). by destruct first, (o_direction t).
Qed.

Lemma order_by_head ts : starts_no_digit (order_by_sql ts) = true.
Proof.
  unfold order_by_sql. induction ts as [|t ts IH]; [done|]. cbn [order_by_loop]. destruct (o_expr t); [exact IH | done].
Qed.

Lemma optional_number_text k n :
  text k = true -> match n with None => true | Some n => 0 <=? n end = true -> text (optional_number k n) = true.
Proof.
  intros Hk. destruct n as [n|]; [|done]. intros Hn. unfold optional_number. rewrite text_app, Hk, number_text; [done | lia].
Qed.

(** Skip the leading texts of a statement. *)
Ltac text_pieces := repeat (first [ apply binds_text_app; [done|] | apply binds_char; [done|] ]).

Lemma optional_clause_binds b sql index params clause keyword sql' index' params' :
  text keyword = true -> opt_clause_ok clause = true ->
  binds b sql 1 (length params) -> index = (1 + length params)%nat ->
  append_optional_clause sql b index params clause keyword = Ok (sql', index', params') ->
  binds b sql' 1 (length params') /\ index' = (1 + length params')%nat.
Proof.
  intros Hk Hc Hb Hi. unfold append_optional_clause. destruct clause as [w|]; [|by intros [= <- <- <-]].
  destruct (where_empty w) eqn:He; [by intros [= <- <- <-]|]. intros H. apply result_bind_ok in H as (s & Hs & H).
  simplify_eq. rewrite length_app. split; [|lia]. apply binds_app; [done | | done].
  text_pieces. by apply render_binds.
Qed.

Lemma check_columns_ok t u : check_columns t = Ok u -> t_table t <> [] /\ t_columns t <> [].
Proof. unfold check_columns. by destruct (t_table t), (t_columns t). Qed.

Lemma select_list_text t e : table_ok t = true -> text e = true -> text (select_list t e) = true.
Proof.
  unfold table_ok, select_list, or_default. rewrite !andb_true_iff. intros [[H1 H2] H3] He.
  destruct e; [|done]. by apply comma_list_text, forallb_texts.
Qed.

Lemma table_parts t :
  table_ok t = true -> text (t_table t) = true /\ Forall (fun x => text x = true) (t_columns t) /\
  text (join_columns (t_columns t)) = true.
Proof.
  unfold table_ok. rewrite !andb_true_iff. intros [[H1 H2] H3]. apply forallb_texts in H2.
  split_and!; [done | done | by apply comma_list_text].
Qed.

Lemma primary_key_text t pk : table_ok t = true -> need_primary_key t = Ok pk -> text pk = true.
Proof.
  unfold table_ok, need_primary_key. rewrite !andb_true_iff. intros [_ H3].
  destruct (t_primary_key t) as [[|c k]|]; [done | by intros [= <-] | done].
Qed.

(** ** The calls that run a statement *)

Inductive orm_call :=
| CSelect (base : TableMetaRuntime) (joins : list JoinSpec) (o : SelectOptions)
| CFindByPk (t : TableMetaRuntime) (pk_value : Value)
| CInsert (t : TableMetaRuntime) (values : Params)
| CUpdateWhere (t : TableMetaRuntime) (set_columns : list bytes) (set_values : Params) (w : WhereClause) (allow : bool)
| CUpdateByPk (t : TableMetaRuntime) (set_columns : list bytes) (set_values : Params) (pk_value : Value)
| CDeleteWhere (t : TableMetaRuntime) (w : WhereClause) (allow : bool)
| CDeleteByPk (t : TableMetaRuntime) (pk_value : Value).

Definition build (b : backend) (call : orm_call) : result statement :=
  match call with
  | CSelect base joins o => select_statement b base joins o
  | CFindByPk t v => find_by_pk_statement b t v
  | CInsert t vs => insert_statement b t vs
  | CUpdateWhere t cols vs w allow => update_where_statement b t cols vs w allow
  | CUpdateByPk t cols vs v => update_by_pk_statement b t cols vs v
  | CDeleteWhere t w allow => delete_where_statement b t w allow
  | CDeleteByPk t v => delete_by_pk_statement b t v
  end.

(** Tables, columns, joins and expressions hold no placeholder of their own;
    where clauses are rewritten ones with separated question marks. *)
Definition call_ok (call : orm_call) : bool :=
  match call with
  | CSelect base joins o => table_ok base && forallb join_ok joins && options_ok o
  | CFindByPk t _ | CInsert t _ | CDeleteByPk t _ => table_ok t
  | CUpdateWhere t cols _ w _ => table_ok t && forallb text cols && clause_ok w
  | CUpdateByPk t cols _ _ => table_ok t && forallb text cols
  | CDeleteWhere t w _ => table_ok t && clause_ok w
  end.

Lemma select_bound b base joins o st :
  table_ok base = true -> forallb join_ok joins = true -> options_ok o = true ->
  select_statement b base joins o = Ok st -> bound b st.
Proof.
  intros Ht Hj Ho. unfold select_statement. destruct (check_columns base); [|done|done].
  cbn [mbind result_bind]. unfold options_ok in Ho. rewrite !andb_true_iff in Ho.
  destruct Ho as [[[[[[He Hw] Hg] Hh] Hr] Hl] Hf].
  intros H. apply result_bind_ok in H as ([[s1 i1] p1] & H1 & H).
  apply result_bind_ok in H as ([[s2 i2] p2] & H2 & H). simplify_eq.
  destruct (table_parts base Ht) as (Htab & _ & _).
  eapply optional_clause_binds in H1 as [H1 ->]; [|done|done| |done].
  2:{ apply binds_text. rewrite !text_app, Htab, (select_list_text _ _ Ht He), (joins_sql_text _ Hj). done. }
  eapply optional_clause_binds in H2 as [H2 ->]; [|done|done| |done].
  2:{ apply binds_app_text; [done | by apply group_by_text | apply group_by_head]. }
  unfold bound. cbn [st_sql st_params]. rewrite app_assoc. apply binds_app_text.
  - apply binds_app_text; [done | by apply order_by_text | apply order_by_head].
  - rewrite text_app, !optional_number_text; done.
  - by destruct (so_limit o), (so_offset o).
Qed.

Lemma set_prefix_binds b t cols :
  text (t_table t) = true -> Forall (fun x => text x = true) cols ->
  binds b ("UPDATE "%bs ++ t_table t ++ " SET "%bs ++ comma_list true (set_list b 0 cols)) 1 (length cols).
Proof.
  intros Ht Hc. text_pieces. destruct (set_list_binds b 0 cols Hc) as [H1 H2]. rewrite <- H2.
  by apply comma_list_binds.
Qed.

Lemma check_set_ok cols vs u : check_set cols vs = Ok u -> length vs = length cols.
Proof. unfold check_set. destruct cols; [done|]. by destruct (decide _). Qed.

Lemma update_where_bound b t cols vs w allow st :
  table_ok t = true -> forallb text cols = true -> clause_ok w = true ->
  update_where_statement b t cols vs w allow = Ok st -> bound b st.
Proof.
  intros Ht Hc Hw. unfold update_where_statement. destruct (check_columns t); [|done|done].
  cbn [mbind result_bind]. intros H. apply result_bind_ok in H as (u & Hs & H). apply check_set_ok in Hs.
  destruct (table_parts t Ht) as (Htab & _ & _). apply forallb_texts in Hc.
  pose proof (set_prefix_binds b t cols Htab Hc) as Hp. destruct (_ && _); [done|].
  destruct (where_empty w) eqn:He.
  - simplify_eq. unfold bound. cbn [st_sql st_params]. by rewrite Hs.
  - apply result_bind_ok in H as (s & Hr & H). simplify_eq. unfold bound. cbn [st_sql st_params].
    rewrite length_app, Hs. apply binds_app; [done | | done]. text_pieces.
    rewrite Nat.add_comm. by apply render_binds.
Qed.

Lemma update_by_pk_bound b t cols vs v st :
  table_ok t = true -> forallb text cols = true -> update_by_pk_statement b t cols vs v = Ok st -> bound b st.
Proof.
  intros Ht Hc. unfold update_by_pk_statement. destruct (check_columns t); [|done|done]. cbn [mbind result_bind].
  intros H. apply result_bind_ok in H as (pk & Hk & H). apply (primary_key_text t pk Ht) in Hk.
  apply result_bind_ok in H as (u & Hs & H). apply check_set_ok in Hs. simplify_eq.
  destruct (table_parts t Ht) as (Htab & _ & _). apply forallb_texts in Hc.
  unfold bound. cbn [st_sql st_params]. rewrite length_app, Hs. cbn [length].
  pose proof (set_prefix_binds b t cols Htab Hc) as Hp.
  assert (forall p q r x y : bytes, p ++ q ++ r ++ x ++ y = (p ++ q ++ r ++ x) ++ y) as E by (intros; by rewrite <- !app_assoc).
  change (binds b ("UPDATE "%bs ++ t_table t ++ " SET "%bs ++ comma_list true (set_list b 0 cols) ++
    " WHERE "%bs ++ pk ++ " = "%bs ++ placeholder b (length cols + 1)) 1 (length cols + 1)).
  rewrite E. apply binds_app; [exact Hp | | done]. text_pieces. rewrite Nat.add_comm. apply binds_placeholder.
Qed.


Definition users : TableMetaRuntime := mkTable "users"%bs ["id"%bs; "name"%bs] (Some "id"%bs).


(** ** The clause builders *)

Lemma apart_text a s : text a = true -> apart (a ++ s) = apart s.
Proof.
  induction a as [|c a IH]; [done|]. simpl. rewrite !andb_true_iff. intros [[H1 H2] H3].
  apply negb_true_iff, bool_decide_eq_false in H1. rewrite decide_False by done. rewrite H2, IH by done. done.
Qed.

Lemma apart_app a b : starts_no_digit b = true -> apart (a ++ b) = apart a && apart b.
Proof.
  intros Hb. induction a as [|c a IH]; [done|]. cbn [app apart]. rewrite IH.
  assert (starts_no_digit (a ++ b) = starts_no_digit a) as -> by (destruct a; done).
  by rewrite !andb_assoc.
Qed.

(** A clause of question marks that match its parameters. *)
Definition sound (w : WhereClause) : Prop :=
  clause_ok w = true /\ count_question_placeholders (w_sql w) = length (w_params w).

Lemma sound_valid w : sound w -> validate_where_clause w = Ok tt.
Proof.
  intros [H1 H2]. unfold validate_where_clause, where_empty. unfold clause_ok in H1. apply andb_true_iff in H1 as [-> _].
  case_bool_decide as He.
  - rewrite He in H2. by destruct (w_params w).
  - cbn [negb]. by rewrite decide_True.
Qed.

Lemma question_list_apart first n s :
  starts_no_digit s = true -> apart s = true ->
  apart (comma_list first (replicate n "?"%bs) ++ s) = true /\
  count_question_placeholders (comma_list first (replicate n "?"%bs)) = n.
Proof.
  intros Hs1 Hs2. revert first. induction n as [|n IH]; intros first; [done|]. cbn [replicate comma_list].
  rewrite <- app_assoc, apart_text by (by destruct first). destruct (IH false) as [IH1 IH2]. split.
  - cbn [app apart]. rewrite IH1. destruct n; simpl; by rewrite ?Hs1.
  - rewrite text_count by (by destruct first). cbn [app count_question_placeholders]. rewrite IH2. done.
Qed.

(** The clauses the builders make from texts without placeholders. *)
Inductive built : WhereClause -> Prop :=
| built_binary column op v w : text column = true -> text op = true -> where_binary column op v = Ok w -> built w
| built_between column low high w : text column = true -> where_between column low high = Ok w -> built w
| built_in column values w : text column = true -> where_in column values = Ok w -> built w
| built_is_null column w : text column = true -> where_is_null column = Ok w -> built w
| built_is_not_null column w : text column = true -> where_is_not_null column = Ok w -> built w
| built_not w w' : built w -> where_not w = Ok w' -> built w'
| built_combine ws op w : (forall x, x ∈ ws -> built x) -> text op = true -> where_combine ws op = Ok w -> built w.

Lemma combine_piece op first s :
  text op = true ->
  let piece := (if first : bool then [] else " "%bs ++ op ++ " "%bs) ++ "("%bs ++ s ++ ")"%bs in
  starts_no_digit piece = true /\ apart piece = apart s /\
  count_question_placeholders piece = count_question_placeholders s.
Proof.
  intros Hop piece. subst piece.
  assert (text ((if first then [] else " "%bs ++ op ++ " "%bs) ++ "("%bs) = true) as Ht.
  { rewrite text_app. destruct first; [done|]. by rewrite !text_app, Hop. }
  split_and!; [by destruct first | |].
  - rewrite app_assoc, apart_text, apart_app by done. apply andb_true_r.
  - rewrite app_assoc, text_count, count_app by done. simpl. lia.
Qed.

Lemma combine_loop_sound ws op first mode sql params :
  text op = true -> (forall x, x ∈ ws -> sound x) -> mode <> Some false ->
  apart sql = true -> count_question_placeholders sql = length params ->
  exists w, combine_loop ws op first mode sql params = Ok w /\ sound w /\
    w_params w = params ++ concat (w_params <$> ws).
Proof.
  intros Hop. revert first mode sql params. induction ws as [|x ws IH]; intros first mode sql params Hws Hm Ha Hc.
  - eexists. split_and!; [done | | by rewrite app_nil_r]. split; [|done]. unfold clause_ok. simpl.
    destruct mode as [[]|]; done.
  - cbn [combine_loop]. destruct (Hws x) as [Hx1 Hx2]; [apply list_elem_of_here|].
    assert (forall y, y ∈ ws -> sound y) as Hws'. { intros y Hy. apply Hws. by constructor. }
    pose proof (sound_valid x (conj Hx1 Hx2)) as Hv. cbn [fmap list_fmap concat]. destruct (where_empty x) eqn:He.
    + unfold where_empty in He. apply bool_decide_eq_true in He. rewrite He in Hx2.
      destruct (w_params x); [|done]. by apply IH.
    + rewrite Hv. cbn [mbind result_bind]. unfold clause_ok in Hx1. apply andb_true_iff in Hx1 as [Hr Hxa].
      assert (combine_mode mode params x = Ok (Some true)) as ->.
      { unfold combine_mode. rewrite Hr. destruct mode as [[]|]; done. }
      cbn [mbind result_bind]. rewrite (app_assoc params).
      destruct (combine_piece op first (w_sql x) Hop) as (P1 & P2 & P3).
      apply IH; [done | done | by rewrite (apart_app _ _ P1), P2, Ha | by rewrite count_app, length_app, P3, Hc, Hx2].
Qed.

Ltac skip_texts :=
  split; [ unfold clause_ok; repeat (progress (simpl; rewrite ?apart_text by done)); done
         | repeat (progress (simpl; rewrite ?text_count by done)); done ].

Lemma built_sound w : built w -> sound w.
Proof.
  induction 1 as [column op v w Hc Ho H|column low high w Hc H|column values w Hc H|column w Hc H|column w Hc H
                 |w w' _ IH H|ws op w _ IH Ho H].
  - unfold where_binary in H. inv_result. skip_texts.
  - unfold where_between in H. inv_result. skip_texts.
  - unfold where_in in H. inv_result. destruct values as [|v vs]; [done|]. inv_result. unfold question_placeholders.
    destruct (question_list_apart true (length (v :: vs)) ")"%bs eq_refl eq_refl) as [Q1 Q2]. split.
    + unfold clause_ok. cbn [w_sql w_rewrite andb]. rewrite apart_text by done. exact Q1.
    + cbn [w_sql w_params]. rewrite text_count by done.
      change (count_question_placeholders (comma_list true (replicate (length (v :: vs)) "?"%bs) ++ ")"%bs) = length (v :: vs)).
      rewrite count_app, Q2. simpl. lia.
  - unfold where_is_null in H. inv_result. skip_texts.
  - unfold where_is_not_null in H. inv_result. skip_texts.
  - unfold where_not in H. inv_result. destruct (where_empty w); inv_result; [done|].
    destruct IH as [I1 I2]. unfold clause_ok in I1. apply andb_true_iff in I1 as [I1 I3]. split.
    + unfold clause_ok. cbn [w_sql w_rewrite]. rewrite I1. change (apart (w_sql w ++ ")"%bs) = true).
      by rewrite apart_app, I3 by done.
    + change (count_question_placeholders (w_sql w ++ ")"%bs) = length (w_params w)). rewrite count_app, I2. simpl. lia.
  - destruct (combine_loop_sound ws op true None [] [] Ho IH) as (w' & Hw & Hs & _); [done | done | done |].
    unfold where_combine in H. congruence.
Qed.

(** The clause builders compose.  Every clause made by the comparison,
    BETWEEN, IN and NULL builders, by [where_not] and by [where_and] and
    [where_or] over such clauses is accepted by the statements, with one
    parameter per question mark; and combining such clauses always succeeds,
    the parameters being those of the parts in order. *)
Theorem where_builders_compose :
  (forall w, built w -> clause_ok w = true /\ validate_where_clause w = Ok tt /\
     count_question_placeholders (w_sql w) = length (w_params w)) /\
  (forall ws op, text op = true -> (forall x, x ∈ ws -> built x) ->
     exists w, where_combine ws op = Ok w /\ w_params w = concat (w_params <$> ws)).
Proof.
  split.
  - intros w Hw. apply built_sound in Hw as Hs. split_and!; [apply Hs | by apply sound_valid | apply Hs].
  - intros ws op Hop Hws.
    destruct (combine_loop_sound ws op true None [] [] Hop) as (w & H1 & _ & H2); [|done|done|done|by exists w].
    intros x Hx. by apply built_sound, Hws.
Qed.

(** An update or delete is filtered.  Unless the caller explicitly allows an
    empty clause, [update_where] and [delete_where] with an empty clause throw
    and leave the connection and its driver untouched, and every statement
    they do send ends in a WHERE with a non-empty condition. *)
Theorem writes_are_filtered {F D W} `{DriverOps F D W} t cols vs w (c : @SqlConn F D W) :
  (where_empty w = true ->
     (exists e, update_where t cols vs w false c = (Throw e, c)) /\ exists e, delete_where t w false c = (Throw e, c)) /\
  (forall b st, (update_where_statement b t cols vs w false = Ok st \/ delete_where_statement b t w false = Ok st) ->
     exists head cond, st_sql st = head ++ " WHERE "%bs ++ cond /\ cond <> []).
Proof.
  assert (forall b i s, where_empty w = false -> render_where_clause w b i = Ok s -> s <> []) as Hne.
  { intros b i s He Hr. unfold render_where_clause in Hr. apply result_bind_ok in Hr as (u & _ & Hr).
    unfold where_empty in He. apply bool_decide_eq_false in He. destruct (w_sql w) as [|ch q] eqn:Es; [done|].
    destruct (negb (w_rewrite w)); inv_result; [done|]. unfold render_question_placeholders.
    destruct (decide _); [|done]. cbn [number_questions]. by destruct (decide _). }
  split.
  - intros He. unfold update_where, delete_where, update_where_statement, delete_where_statement. rewrite He.
    unfold check_columns, check_set. split.
    + destruct (t_table t), (t_columns t); simpl; eauto. destruct cols; simpl; eauto.
      destruct (decide _); simpl; eauto.
    + destruct (t_table t), (t_columns t); simpl; eauto.
  - intros b st [Hs|Hs].
    + unfold update_where_statement in Hs. inv_result. rewrite andb_true_r in Hs. destruct (where_empty w) eqn:He; [done|].
      inv_result. exists ("UPDATE "%bs ++ t_table t ++ " SET "%bs ++ comma_list true (set_list b 0 cols)), a1.
      split; [reflexivity | eauto].
    + unfold delete_where_statement in Hs. inv_result. rewrite andb_true_r in Hs. destruct (where_empty w) eqn:He; [done|].
      inv_result. exists ("DELETE FROM "%bs ++ t_table t), a0. split; [reflexivity | eauto].
Qed.

(** A rewritten clause with the wrong number of parameters is refused. *)
Lemma mismatch_rejected w :
  where_empty w = false -> w_rewrite w = true -> count_question_placeholders (w_sql w) <> length (w_params w) ->
  forall b t cols vs, is_ok (delete_where_statement b t w false) = false /\
    is_ok (update_where_statement b t cols vs w false) = false.
Proof.
  intros He Hr Hn b t cols vs.
  assert (forall i, exists e, render_where_clause w b i = Throw e) as Ht.
  { intros i. unfold render_where_clause, validate_where_clause. rewrite He, Hr. cbn [negb].
    rewrite decide_False by done. eexists. reflexivity. }
  unfold delete_where_statement, update_where_statement. rewrite He. split.
  - destruct (check_columns t); [|done|done]. simpl. destruct (Ht 1%nat) as [e ->]. done.
  - destruct (check_columns t); [|done|done]. simpl. destruct (check_set cols vs); [|done|done]. simpl.
    destruct (Ht (length cols + 1)%nat) as [e ->]. done.
Qed.

(** Combining can rewrite raw SQL.  A raw clause (one that asks to be kept
    as it is) without parameters but with a [?] operator, combined with a
    clause that has parameters, becomes part of a rewritten clause: its [?] is
    taken for a placeholder and every statement with the combination throws. *)
Theorem where_combine_rewrites_raw column v b t cols vs :
  column <> [] -> text column = true ->
  exists w, where_eq column v ≫= (fun e => where_and [where_raw "tags ? 'x'"%bs [] false; e]) = Ok w /\
    w_rewrite w = true /\ count_question_placeholders (w_sql w) = 2%nat /\ w_params w = [v] /\
    is_ok (delete_where_statement b t w false) = false /\ is_ok (update_where_statement b t cols vs w false) = false.
Proof.
  intros Hn Hc. unfold where_eq, where_binary. destruct column as [|ch col]; [done|].
  cbn [need_column mbind result_bind]. unfold where_and, where_combine. cbn [combine_loop where_raw].
  replace (where_empty (mkWhere ((ch :: col) ++ " "%bs ++ "="%bs ++ " ?"%bs) [v] true)) with false by done.
  assert (validate_where_clause (mkWhere ((ch :: col) ++ " "%bs ++ "="%bs ++ " ?"%bs) [v] true) = Ok tt) as Hv.
  { unfold validate_where_clause. cbn [where_empty w_sql w_params w_rewrite negb]. rewrite text_count by done. done. }
  rewrite Hv. cbn -[app count_question_placeholders delete_where_statement update_where_statement].
  eexists. split; [reflexivity|]. cbn [w_rewrite w_sql w_params].
  assert (count_question_placeholders ("(tags ? 'x') AND ("%bs ++ ((ch :: col) ++ " = ?"%bs) ++ ")"%bs) = 2%nat) as Hq.
  { rewrite count_app, count_app, text_count by done. done. }
  split; [done|]. split; [exact Hq|]. split; [done|]. apply mismatch_rejected; [done | done |].
  cbn [w_sql w_params]. intros H. assert (2%nat = 1%nat) by (rewrite <- Hq; exact H). done.
Qed.

Lemma where_combine_rewrites_raw_witness :
  exists w, where_eq "id"%bs (VInt 1) ≫= (fun e => where_and [where_raw "tags ? 'x'"%bs [] false; e]) = Ok w /\
    is_ok (delete_where_statement PostgreSQL users w false) = false.
Proof.
  destruct (where_combine_rewrites_raw "id"%bs (VInt 1) PostgreSQL users ["name"%bs] [VNull]) as (w & H1 & _ & _ & _ & H2 & _);
    [discriminate | reflexivity | by exists w].
Defined.
