(* ===== verification/SqlLibrary.v ===== *)
(** * Client libraries loaded at run time (sql.cpp)

    The drivers of sql.cpp load the client library of their database with
    [dlopen] and look up the functions they call.  The loader of the operating
    system is an interface ([Loader]); the candidates and the symbols are
    those of the three [load_api] methods.

    The second part is what the proofs about the drivers share: the handles
    that are live in a library ([Handles]) and the statement that a driver
    holds exactly one of them, or none. *)

From S2P Require Import Prelude Coroutine CxxString Sql.

Local Open Scope Z_scope.
Local Open Scope co_scope.

(** ** The loader *)

Class Loader (W L : Type) := {
  getenv : bytes -> W -> option bytes;
  dlopen : bytes -> W -> option L * W;
  dlsym : L -> bytes -> W -> bool;             (* the symbol is there *)
  dlclose : L -> W -> W
}.

Section Loading.
Context {W L : Type} `{Loader W L}.

Fixpoint open_shared_library (candidates : list bytes) : Co W (option L) := fun w =>
  match candidates with
  | [] => (Ok None, w)
  | [] :: rest => open_shared_library rest w
  | c :: rest =>
      match dlopen c w with
      | (Some handle, w) => (Ok (Some handle), w)
      | (None, w) => open_shared_library rest w
      end
  end.

Definition close_shared_library (handle : option L) (w : W) : W :=
  match handle with Some h => dlclose h w | None => w end.

Definition load_symbol (handle : L) (driver_name name : bytes) : Co W unit := fun w =>
  if dlsym handle name w then (Ok tt, w)
  else (Throw (RuntimeError ("corouv::sql "%bs ++ driver_name ++ " missing symbol: "%bs ++ name)), w).

Fixpoint load_symbols (handle : L) (driver_name : bytes) (names : list bytes) : Co W unit :=
  match names with
  | [] => co_ret tt
  | n :: names => load_symbol handle driver_name n;;; load_symbols handle driver_name names
  end.

(** A symbol that may be missing, under one of two names. *)
Definition load_optional (handle : L) (names : list bytes) : Co W bool := co_get (fun w => existsb (fun n => dlsym handle n w) names).

Definition candidates (env : bytes) (builtin : list bytes) : Co W (list bytes) :=
  co_get (fun w => match getenv env w with Some v => [v] | None => [] end ++ builtin).
Definition open_library (env : bytes) (builtin : list bytes) (b : backend) (driver_name : bytes) : Co W L :=
  cs <- candidates env builtin;;
  lib <- open_shared_library cs;;
  match lib with
  | Some lib => co_ret lib
  | None => co_throw (SqlError b (-1) ("corouv::sql "%bs ++ driver_name ++ " library not found"%bs))
  end.

(** *** SQLite *)

Definition sqlite_candidates : list bytes := ["libsqlite3.so"%bs; "libsqlite3.so.0"%bs; "/lib/x86_64-linux-gnu/libsqlite3.so.0"%bs].
Definition sqlite_symbols : list bytes :=
  ["sqlite3_open_v2"; "sqlite3_close_v2"; "sqlite3_errmsg"; "sqlite3_prepare_v2"; "sqlite3_step"; "sqlite3_finalize";
   "sqlite3_bind_null"; "sqlite3_bind_int64"; "sqlite3_bind_double"; "sqlite3_bind_text"; "sqlite3_bind_blob";
   "sqlite3_column_count"; "sqlite3_column_name"; "sqlite3_column_type"; "sqlite3_column_int64"; "sqlite3_column_double";
   "sqlite3_column_text"; "sqlite3_column_blob"; "sqlite3_column_bytes"; "sqlite3_changes64"; "sqlite3_last_insert_rowid"]%bs.
Definition sqlite_load_api : Co W L :=
  lib <- open_library "COROUV_SQL_SQLITE_LIB"%bs sqlite_candidates SQLite "sqlite"%bs;;
  load_symbols lib "sqlite"%bs sqlite_symbols;;; co_ret lib.

(** *** libpq *)

Definition pg_candidates : list bytes :=
  ["libpq.so"; "libpq.so.5"; "third_party/postgresql-install/lib/libpq.so"; "../third_party/postgresql-install/lib/libpq.so";
   "../../third_party/postgresql-install/lib/libpq.so"]%bs.
Definition pg_symbols : list bytes :=
  ["PQconnectStart"; "PQconnectPoll"; "PQsocket"; "PQsetnonblocking"; "PQstatus"; "PQerrorMessage"; "PQfinish"; "PQsendQueryParams";
   "PQflush"; "PQconsumeInput"; "PQisBusy"; "PQgetResult"; "PQresultStatus"; "PQnfields"; "PQntuples"; "PQfname"; "PQgetisnull";
   "PQgetvalue"; "PQcmdTuples"; "PQclear"]%bs.
Definition pg_load_api : Co W L :=
  lib <- open_library "COROUV_SQL_PG_LIB"%bs pg_candidates PostgreSQL "pgsql"%bs;;
  load_symbols lib "pgsql"%bs pg_symbols;;; co_ret lib.

(** *** The MySQL client *)

Definition mysql_candidates : list bytes :=
  ["third_party/mysql-client/lib/libmariadb.so.3"; "third_party/mysql-client/lib/libmariadb.so"; "libmysqlclient.so";
   "libmysqlclient.so.21"; "libmariadb.so"; "libmariadb.so.3"]%bs.
Definition mysql_symbols : list bytes :=
  ["mysql_init"; "mysql_options"; "mysql_close"; "mysql_error"; "mysql_errno"; "mysql_field_count"; "mysql_num_fields";
   "mysql_fetch_row"; "mysql_fetch_lengths"; "mysql_free_result"; "mysql_affected_rows"; "mysql_insert_id";
   "mysql_real_connect_start"; "mysql_real_connect_cont"; "mysql_real_query_start"; "mysql_real_query_cont";
   "mysql_store_result_start"; "mysql_store_result_cont"; "mysql_get_socket"]%bs.

(** [library_init] is called once per process, through a flag; an exception
    leaves the flag unset.  [init] is the call, with its code.  The result is
    the library and whether [mysql_get_timeout_value] is there. *)
Definition mysql_load_api (init : W -> Z * W) (once : bool) : Co W (L * bool * bool) :=
  lib <- open_library "COROUV_SQL_MYSQL_LIB"%bs mysql_candidates MySQL "mysql"%bs;;
  has_init <- load_optional lib ["mysql_library_init"; "mysql_server_init"]%bs;;
  _ <- load_optional lib ["mysql_library_end"; "mysql_server_end"]%bs;;
  load_symbols lib "mysql"%bs mysql_symbols;;;
  has_timeout <- load_optional lib ["mysql_get_timeout_value"%bs];;
  if once then co_ret (lib, has_timeout, true)
  else if negb has_init then co_ret (lib, has_timeout, true)
  else
    rc <- (fun w => let '(rc, w) := init w in (Ok rc, w));;
    if rc =? 0 then co_ret (lib, has_timeout, true)
    else co_throw (SqlError MySQL (-1) "corouv::sql mysql_library_init failed"%bs).
End Loading.

(** ** Handles

    What is live in the libraries: connections, statements, results, and the
    loaded libraries themselves. *)
Class Handles (W Hd : Type) := live : W -> list Hd.

Section Ownership.
Context {W Hd : Type} `{Handles W Hd}.

(** A call that returns a new handle, and one that gives a handle back. *)
Definition acquires (h : option Hd) (w w' : W) : Prop := live w' ≡ₚ option_list h ++ live w.
Definition releases (h : Hd) (w w' : W) : Prop := h ∈ live w -> live w ≡ₚ h :: live w'.

(** [mine] is what this owner holds, [others] what the rest holds. *)
Definition holding (mine others : list Hd) (w : W) : Prop := live w ≡ₚ mine ++ others.

Lemma owns_acquire h mine others w w' : holding mine others w -> acquires h w w' -> holding (option_list h ++ mine) others w'.
Proof. unfold holding, acquires. intros Ho ->. by rewrite Ho, app_assoc. Qed.

Lemma owns_release h mine others w w' : holding (h :: mine) others w -> releases h w w' -> holding mine others w'.
Proof.
  unfold holding, releases. intros Ho Hr. assert (h ∈ live w) as Hin by (rewrite Ho; simpl; apply elem_of_cons; by left).
  specialize (Hr Hin). apply (Permutation.Permutation_cons_inv (a := h)). rewrite <- Hr, Ho. done.
Qed.

Lemma owns_same mine others w w' : holding mine others w -> live w' ≡ₚ live w -> holding mine others w'.
Proof. unfold holding. by intros Ho ->. Qed.

Lemma owns_perm mine mine' others w : mine ≡ₚ mine' -> holding mine others w -> holding mine' others w.
Proof. unfold holding. by intros ->. Qed.
End Ownership.

(** ** A driver: the pointer to its connection, and the library *)

Definition lib_call {C W A} (f : W -> A * W) : Co (option C * W) A := fun x => let '(a, w) := f (snd x) in (Ok a, (fst x, w)).
Definition lib_read {C W A} (f : W -> A) : Co (option C * W) A := co_get (fun x => f (snd x)).
(** A wait, which may throw. *)
Definition lib_await {C W A} (f : W -> result A * W) : Co (option C * W) A := fun x => let '(r, w) := f (snd x) in (r, (fst x, w)).

Section Drivers.
Context {C W Hd : Type} `{Handles W Hd} (handle : C -> Hd).

(** The driver holds its connection and [mine]. *)
Definition holds (mine others : list Hd) (x : option C * W) : Prop := holding (option_list (handle <$> fst x) ++ mine) others (snd x).

Lemma lib_call_inv {A} mine others (f : W -> A * W) : (forall w, live (snd (f w)) ≡ₚ live w) -> co_inv (holds mine others) (lib_call f).
Proof.
  intros Hf [c w]. unfold lib_call, holds. simpl. specialize (Hf w). destruct (f w) as [a w']. simpl in *. intros Hx. by eapply owns_same.
Qed.
Lemma lib_await_inv {A} mine others (f : W -> result A * W) : (forall w, live (snd (f w)) ≡ₚ live w) -> co_inv (holds mine others) (lib_await f).
Proof.
  intros Hf [c w]. unfold lib_await, holds. simpl. specialize (Hf w). destruct (f w) as [a w']. simpl in *. intros Hx. by eapply owns_same.
Qed.
Lemma lib_read_inv {A} mine others (f : W -> A) : co_inv (holds mine others) (lib_read f).
Proof. apply co_inv_get. Qed.
End Drivers.
#[export] Hint Resolve lib_call_inv lib_await_inv lib_read_inv : co_inv.

(** Loading gives one new handle, [lib_handle]. *)
Class LoaderLaws (W L Hd : Type) `{Loader W L, Handles W Hd} := {
  lib_handle : L -> Hd;
  dlopen_live c w : acquires (lib_handle <$> fst (dlopen c w)) w (snd (dlopen c w));
  dlclose_live l w : releases (lib_handle l) w (dlclose l w)
}.

Section LoadingFacts.
Context {W L Hd : Type} `{LoaderLaws W L Hd}.

Lemma open_shared_library_live cs w :
  exists o w', open_shared_library cs w = (Ok o, w') /\ acquires (lib_handle <$> o) w w'.
Proof.
  revert w. induction cs as [|c cs IH]; intros w; simpl; [exists None, w; split; [done | unfold acquires; done]|].
  destruct c as [|a c]; [apply IH|]. generalize (dlopen_live (a :: c) w). destruct (dlopen (a :: c) w) as [[l|] w']; simpl; intros Hl.
  - by exists (Some l), w'.
  - destruct (IH w') as (o & w2 & -> & Ho). exists o, w2. split; [done|]. unfold acquires in *. by rewrite Ho, Hl.
Qed.

Lemma load_symbols_state l d names w : snd (load_symbols l d names w) = w.
Proof.
  induction names as [|n names IH]; simpl; [done|]. unfold co_bind, load_symbol at 1. by destruct (dlsym l n w).
Qed.
Lemma load_symbols_ok l d names w :
  (forall n, n ∈ names -> dlsym l n w = true) -> load_symbols l d names w = (Ok tt, w).
Proof.
  induction names as [|n names IH]; intros Hn; simpl; [done|]. unfold co_bind, load_symbol at 1.
  rewrite Hn by (apply elem_of_cons; by left). apply IH. intros n1 Hn1. apply Hn, elem_of_cons. by right.
Qed.

Lemma open_library_live env builtin b d w :
  (exists l w', open_library env builtin b d w = (Ok l, w') /\ acquires (Some (lib_handle l)) w w') \/
  (exists e w', open_library env builtin b d w = (Throw e, w') /\ live w' ≡ₚ live w).
Proof.
  unfold open_library, candidates, co_get. unfold co_bind at 1.
  destruct (open_shared_library_live (match getenv env w with Some v => [v] | None => [] end ++ builtin) w) as (o & w' & E & Ho).
  unfold co_bind. rewrite E. destruct o as [l|]; [left | right]; eexists _, _; (split; [reflexivity | exact Ho]).
Qed.

(** A library in which a symbol is missing stays loaded: the constructor
    throws, and the destructor of an object that was not constructed, which
    would unload it, does not run. *)
Theorem load_api_leaks_library w e w' :
  sqlite_load_api w = (Throw e, w') -> (exists m, e = RuntimeError m) ->
  exists l, acquires (Some (lib_handle l)) w w'.
Proof.
  unfold sqlite_load_api. intros Hl [m ->].
  destruct (open_library_live "COROUV_SQL_SQLITE_LIB"%bs sqlite_candidates SQLite "sqlite"%bs w) as [(l & w1 & E & Ha)|(e' & w1 & E & Ha)].
  - rewrite (co_bind_ok _ _ _ _ _ E) in Hl. generalize (load_symbols_state l "sqlite"%bs sqlite_symbols w1). revert Hl. unfold co_bind.
    destruct (load_symbols l _ _ w1) as [[[]|e|] w2]; simpl; intros Hl Hw; simplify_eq. by exists l.
  - exfalso. rewrite (co_bind_throw _ _ _ _ _ E) in Hl. injection Hl as -> ->.
    revert E. unfold open_library. unfold co_bind at 1. unfold candidates, co_get, co_bind. simpl.
    destruct (open_shared_library_live (match getenv "COROUV_SQL_SQLITE_LIB"%bs w with Some v => [v] | None => [] end ++ sqlite_candidates) w) as (o & w2 & -> & _).
    by destruct o.
Qed.
End LoadingFacts.

(** ** A table of handles

    For concrete libraries: numbers that are given out and taken back. *)
Record Table := mkTable { tb_next : nat; tb_live : list nat }.
Definition tb_new (t : Table) : nat * Table := (tb_next t, mkTable (S (tb_next t)) (tb_next t :: tb_live t)).
Fixpoint remove_first (h : nat) (l : list nat) : list nat :=
  match l with [] => [] | x :: l => if decide (x = h) then l else x :: remove_first h l end.
Definition tb_drop (h : nat) (t : Table) : Table := mkTable (tb_next t) (remove_first h (tb_live t)).

Lemma tb_drop_live h t : h ∈ tb_live t -> tb_live t ≡ₚ h :: tb_live (tb_drop h t).
Proof.
  unfold tb_drop. simpl. induction (tb_live t) as [|x l IH]; simpl; intros Hh; [by apply not_elem_of_nil in Hh|].
  case_decide as Hx; [by subst|]. apply elem_of_cons in Hh as [->|Hh]; [done|]. rewrite (IH Hh) at 1. apply Permutation_swap.
Qed.

(** ** Loops over the columns of a result *)

(** [for (int i = 0; i < n; ++i)] *)
Definition int_range (n : Z) : list Z := map Z.of_nat (seq 0 (Z.to_nat n)).

Lemma int_range_spec {A B} (l : list B) (f : Z -> A) (g : B -> A) :
  (forall i x, l !! i = Some x -> f (Z.of_nat i) = g x) -> map f (int_range (size_of l)) = map g l.
Proof.
  intros Hfg. unfold int_range, size_of. rewrite Nat2Z.id, List.map_map. apply list_eq. intros i.
  rewrite !list_lookup_fmap. destruct (l !! i) as [x|] eqn:E; simpl.
  - rewrite lookup_seq_lt by (by eapply lookup_lt_Some). simpl. by rewrite (Hfg i x).
  - rewrite lookup_seq_ge by (by apply lookup_ge_None). done.
Qed.

(** ** Waiting for a socket

    [poll.h] and the timers: a wait ends or throws. *)
Class SocketWait (W : Type) := {
  poll_events : bool -> bool -> Z -> W -> result unit * W;     (* readable, writable *)
  sleep_ms : Z -> W -> result unit * W;
  yield_now : W -> result unit * W
}.
Definition wait_socket_events {W} `{SocketWait W} (sock : Z) (readable writable : bool) : W -> result unit * W :=
  if negb readable && negb writable then yield_now else poll_events readable writable sock.

(** Waiting touches no handle of a client library. *)
Class WaitLive (W Hd : Type) `{SocketWait W, Handles W Hd} := {
  poll_live r wr s w : live (snd (poll_events r wr s w)) ≡ₚ live w;
  sleep_live n w : live (snd (sleep_ms n w)) ≡ₚ live w;
  yield_live w : live (snd (yield_now w)) ≡ₚ live w
}.
