(* ===== verification/SqlSqlite.v ===== *)
(** * The SQLite driver (sql.cpp)

    [SqliteDriver] over the C interface of SQLite, which is a parameter
    ([SqliteApi]).  What the driver relies on is stated by two classes of
    laws: [SqliteLive], which calls open and close handles, and [SqliteSpec],
    which describes a prepared statement as the SQLite documentation does: its
    parameters are bound one by one, and stepping yields its rows in order;
    a call that binds or steps may fail.

    The theorems: on every way out of every operation the driver holds the
    handle of its connection and nothing else; a query binds exactly its
    parameters and returns exactly the rows of the statement, or throws the
    error of the call that failed; a value that is
    bound and read back is the same value, except for a Boolean, which comes
    back as an integer, and an empty blob, which comes back as NULL. *)

From S2P Require Import Prelude Coroutine CxxString Sql SqlLibrary.

Local Open Scope Z_scope.
Local Open Scope co_scope.

(** ** Constants *)

Definition kSqliteOk : Z := 0.
Definition kSqliteRow : Z := 100.
Definition kSqliteDone : Z := 101.
Definition kSqliteInteger : Z := 1.
Definition kSqliteFloat : Z := 2.
Definition kSqliteText : Z := 3.
Definition kSqliteBlob : Z := 4.
Definition kSqliteNull : Z := 5.
Definition kSqliteOpenReadWrite : Z := 2.
Definition kSqliteOpenCreate : Z := 4.
Definition kSqliteOpenUri : Z := 64.

(** ** The C interface

    A pointer that may be null is an [option]; text and blobs are the bytes
    at the pointer, with the length that is passed beside them. *)
Class SqliteApi (W DB ST : Type) := {
  open_v2 : bytes -> Z -> W -> (Z * option DB) * W;
  close_v2 : DB -> W -> W;
  errmsg : DB -> W -> option bytes;
  prepare_v2 : DB -> bytes -> Z -> W -> (Z * option ST) * W;
  sqlite_step : option ST -> W -> Z * W;
  sqlite_finalize : ST -> W -> W;
  bind_null : option ST -> Z -> W -> Z * W;
  bind_int64 : option ST -> Z -> Z -> W -> Z * W;
  bind_double : option ST -> Z -> Z -> W -> Z * W;
  bind_text : option ST -> Z -> bytes -> Z -> W -> Z * W;
  bind_blob : option ST -> Z -> option bytes -> Z -> W -> Z * W;
  column_count : option ST -> W -> Z;
  column_name : option ST -> Z -> W -> option bytes;
  column_type : option ST -> Z -> W -> Z;
  column_int64 : option ST -> Z -> W -> Z;
  column_double : option ST -> Z -> W -> Z;
  column_text : option ST -> Z -> W -> option bytes;
  column_blob : option ST -> Z -> W -> option bytes;
  column_bytes : option ST -> Z -> W -> Z;
  changes64 : DB -> W -> Z;
  last_insert_rowid : DB -> W -> Z
}.

(** ** The driver *)
Section SqliteDriver.
Context {W DB ST : Type} `{SqliteApi W DB ST}.

(** [_db] and the library. *)
Definition Sqlite : Type := option DB * W.

Definition sqlite_close : Co Sqlite unit := fun x =>
  match fst x with
  | Some db => (Ok tt, (None, close_v2 db (snd x)))
  | None => (Ok tt, x)
  end.

Definition sqlite_path (info : ConnectionInfo) : bytes :=
  match ci_path info with
  | [] => match ci_database info with [] => ":memory:"%bs | d => d end
  | p => p
  end.

Definition sqlite_connect (info : ConnectionInfo) : Co Sqlite unit :=
  sqlite_close;;;
  r <- lib_call (open_v2 (c_string (sqlite_path info)) (Z.lor (Z.lor kSqliteOpenReadWrite kSqliteOpenCreate) kSqliteOpenUri));;
  let '(rc, db) := r in
  if negb (rc =? kSqliteOk) then
    match db with
    | Some db =>
        message <- lib_read (errmsg db);;
        lib_call (fun w => (tt, close_v2 db w));;;
        co_throw (SqlError SQLite rc (default "sqlite open failed"%bs message))
    | None => co_throw (SqlError SQLite rc "sqlite open failed"%bs)
    end
  else fun x => (Ok tt, (db, snd x)).

Definition sqlite_error_message (rc : Z) (x : Sqlite) : bytes :=
  let fallback := "sqlite error "%bs ++ to_string rc in
  match fst x with
  | None => fallback
  | Some db => default fallback (errmsg db (snd x))
  end.
Definition sqlite_fail {A} (rc : Z) : Co Sqlite A := fun x => (Throw (SqlError SQLite rc (sqlite_error_message rc x)), x).

(** The visitor of [bind_params], for the parameter at [index]. *)
Definition bind_value (stmt : option ST) (index : Z) (v : Value) : W -> Z * W :=
  match v with
  | VNull => bind_null stmt index
  | VBool b => bind_int64 stmt index (if b then 1 else 0)
  | VInt z => bind_int64 stmt index z
  | VDouble bits => bind_double stmt index bits
  | VString s => bind_text stmt index s (to_int (size_of s))
  | VBlob b => bind_blob stmt index (if decide (b = []) then None else Some b) (to_int (size_of b))
  end.

(** From the parameter number [i] on. *)
Fixpoint bind_params (stmt : option ST) (i : nat) (params : Params) : Co Sqlite unit :=
  match params with
  | [] => co_ret tt
  | v :: params =>
      rc <- lib_call (bind_value stmt (to_int (Z.of_nat i + 1)) v);;
      if negb (rc =? kSqliteOk) then sqlite_fail rc else bind_params stmt (S i) params
  end.

(** The text or blob at a pointer, with the length the library reports. *)
Definition sized (p : option bytes) (size : Z) : bytes :=
  match p with
  | Some b => if 0 <? size then take (Z.to_nat size) b else []
  | None => []
  end.

Definition column_value (stmt : option ST) (w : W) (i : Z) : Value :=
  let type := column_type stmt i w in
  if type =? kSqliteNull then VNull
  else if type =? kSqliteInteger then VInt (column_int64 stmt i w)
  else if type =? kSqliteFloat then VDouble (column_double stmt i w)
  else if type =? kSqliteBlob then VBlob (sized (column_blob stmt i w) (column_bytes stmt i w))
  else VString (sized (column_text stmt i w) (column_bytes stmt i w)).

Definition column_names (stmt : option ST) (w : W) : list bytes :=
  map (fun i => default [] (column_name stmt i w)) (int_range (column_count stmt w)).
Definition current_row (stmt : option ST) (w : W) : list Value :=
  map (column_value stmt w) (int_range (column_count stmt w)).

(** The loop over the rows: [columns] is [None] until the first row. *)
Fixpoint sqlite_rows (fuel : nat) (stmt : option ST) (columns : option (list bytes)) (rows : list (list Value)) : Co Sqlite (list bytes * list (list Value)) :=
  match fuel with
  | O => co_fuel
  | S fuel =>
      step <- lib_call (sqlite_step stmt);;
      if step =? kSqliteRow then
        cols <- match columns with Some c => co_ret c | None => lib_read (column_names stmt) end;;
        row <- lib_read (current_row stmt);;
        sqlite_rows fuel stmt (Some cols) (rows ++ [row])
      else if step =? kSqliteDone then co_ret (default [] columns, rows)
      else sqlite_fail step
  end.

Definition sqlite_not_connected : exn := LogicError "corouv::sql sqlite driver is not connected"%bs.

(** [FinalizeGuard] *)
Definition finalize_guard (stmt : option ST) (x : Sqlite) : Sqlite :=
  match stmt with Some st => (fst x, sqlite_finalize st (snd x)) | None => x end.

Definition sqlite_query (fuel : nat) (sql : bytes) (params : Params) : Co Sqlite Result := fun x =>
  match fst x with
  | None => (Throw sqlite_not_connected, x)
  | Some db =>
      (r <- lib_call (prepare_v2 db sql (to_int (size_of sql)));;
       let '(prep, stmt) := r in
       if negb (prep =? kSqliteOk) then sqlite_fail prep
       else
         co_finally
           (bind_params stmt 0 params;;;
            t <- sqlite_rows fuel stmt None [];;
            affected <- lib_read (changes64 db);;
            id <- lib_read (last_insert_rowid db);;
            co_ret (mkResult (fst t) (snd t) affected id))
           (finalize_guard stmt)) x
  end.
End SqliteDriver.

(** ** Handles *)

(** Which calls open and close what. *)
Class SqliteLive (W DB ST Hd : Type) `{SqliteApi W DB ST, Handles W Hd} := {
  db_handle : DB -> Hd;
  st_handle : ST -> Hd;
  open_live path flags w : acquires (db_handle <$> snd (fst (open_v2 path flags w))) w (snd (open_v2 path flags w));
  close_live db w : releases (db_handle db) w (close_v2 db w);
  prepare_live db sql n w :
    acquires (st_handle <$> (if fst (fst (prepare_v2 db sql n w)) =? kSqliteOk then snd (fst (prepare_v2 db sql n w)) else None))
      w (snd (prepare_v2 db sql n w));
  finalize_live st w : releases (st_handle st) w (sqlite_finalize st w);
  step_live st w : live (snd (sqlite_step st w)) ≡ₚ live w;
  bind_live st i v w : live (snd (bind_value st i v w)) ≡ₚ live w
}.

Section SqliteHandles.
Context {W DB ST Hd : Type} `{SqliteLive W DB ST Hd}.

Lemma sqlite_fail_inv {A} mine others rc : co_inv (holds db_handle mine others) (@sqlite_fail W DB ST _ A rc).
Proof. by intros x Hx. Qed.

Hint Resolve sqlite_fail_inv : co_inv.

Lemma bind_params_inv mine others st i params : co_inv (holds db_handle mine others) (bind_params st i params).
Proof.
  revert i. induction params as [|v params IH]; intros i; simpl; [auto with co_inv|].
  apply co_inv_bind; [apply lib_call_inv; intros w; apply bind_live | intros rc]. case_match; auto with co_inv.
Qed.
Lemma sqlite_rows_inv mine others fuel st columns rows : co_inv (holds db_handle mine others) (sqlite_rows fuel st columns rows).
Proof.
  revert columns rows. induction fuel as [|fuel IH]; intros columns rows; simpl; [auto with co_inv|].
  apply co_inv_bind; [apply lib_call_inv; intros w; apply step_live | intros step].
  repeat case_match; repeat (apply co_inv_bind; [auto with co_inv | intros ?]); auto with co_inv.
Qed.

Lemma sqlite_close_inv others : co_inv (holds db_handle [] others) sqlite_close.
Proof.
  intros [[db|] w]; unfold holds; simpl; [|done]. intros Hx. eapply owns_release; [exact Hx | apply close_live].
Qed.
Lemma sqlite_close_none x : fst (snd (sqlite_close x)) = None.
Proof. by destruct x as [[db|] w]. Qed.

Lemma sqlite_connect_inv others info : co_inv (holds db_handle [] others) (sqlite_connect info).
Proof.
  intros x Hx. unfold sqlite_connect. apply (sqlite_close_inv others) in Hx. pose proof (sqlite_close_none x) as Hn. revert Hx Hn.
  unfold co_bind at 1. destruct (sqlite_close x) as [[[]|e|] [db w]]; simpl; intros Hx ->; try done.
  unfold lib_call, co_bind, holds in *. simpl in *.
  set (p := c_string (sqlite_path info)). set (fl := Z.lor _ _).
  pose proof (open_live p fl w) as Ho. destruct (open_v2 p fl w) as [[rc db] w']. simpl in *.
  pose proof (owns_acquire _ _ _ _ _ Hx Ho) as Hw. destruct (rc =? kSqliteOk); simpl; [done|].
  destruct db as [db|]; simpl in *; [|done]. eapply owns_release; [exact Hw | apply close_live].
Qed.

(** Inside the guard the statement is held as well; the guard gives it back. *)
Lemma finalize_guard_holds others stmt x :
  holds db_handle (option_list (st_handle <$> stmt)) others x -> holds db_handle [] others (finalize_guard stmt x).
Proof.
  destruct stmt as [st|]; simpl; [|done]. destruct x as [db w]. unfold holds. simpl. intros Hx.
  eapply owns_release; [|apply finalize_live]. eapply owns_perm; [|exact Hx]. rewrite app_nil_r. solve_Permutation.
Qed.

Lemma sqlite_query_inv others fuel sql params : co_inv (holds db_handle [] others) (sqlite_query fuel sql params).
Proof.
  intros [[db|] w] Hx; unfold sqlite_query; simpl; [|done].
  unfold co_bind at 1, lib_call at 1. simpl. set (n := to_int (size_of sql)).
  pose proof (prepare_live db sql n w) as Hp. destruct (prepare_v2 db sql n w) as [[prep stmt] w']. simpl in *.
  destruct (prep =? kSqliteOk); simpl in *.
  - apply (co_inv_finally _ (holds db_handle (option_list (st_handle <$> stmt)) others)); [| |apply finalize_guard_holds].
    + unfold holds in *. simpl in *. eapply owns_perm; [|eapply owns_acquire; [exact Hx | exact Hp]]. rewrite ?app_nil_r. solve_Permutation.
    + apply co_inv_bind; [apply bind_params_inv | intros []]. apply co_inv_bind; [apply sqlite_rows_inv | intros t].
      repeat (apply co_inv_bind; [auto with co_inv | intros ?]). auto with co_inv.
  - unfold holds in *. simpl in *. eapply owns_same; [exact Hx | exact Hp].
Qed.
End SqliteHandles.

(** ** What a query returns *)

(** A value of SQLite, in one of its five storage classes. *)
Inductive Cell :=
| CNull
| CInt (z : Z)
| CFloat (bits : Z)
| CText (s : bytes)
| CBlob (b : bytes).
#[export] Instance Cell_eq_dec : EqDecision Cell.
Proof. solve_decision. Defined.

Definition cell_type (c : Cell) : Z :=
  match c with CNull => kSqliteNull | CInt _ => kSqliteInteger | CFloat _ => kSqliteFloat | CText _ => kSqliteText | CBlob _ => kSqliteBlob end.

(** What a parameter is bound as, and what a column is read as. *)
Definition encode_cell (v : Value) : Cell :=
  match v with
  | VNull => CNull
  | VBool b => CInt (if b then 1 else 0)
  | VInt z => CInt z
  | VDouble d => CFloat d
  | VString s => CText s
  | VBlob b => if decide (b = []) then CNull else CBlob b
  end.
Definition decode_cell (c : Cell) : Value :=
  match c with CNull => VNull | CInt z => VInt z | CFloat d => VDouble d | CText s => VString s | CBlob b => VBlob b end.

(** A statement: bound up to now, at a row, or run to the end. *)
Inductive stmt_state :=
| Ready (sql : bytes) (bound : list Cell)
| AtRow (cols : list bytes) (row : list Cell) (rest : list (list Cell))
| Finished.

Section Documented.
Context {W ST D : Type}.
Variables (view : ST -> W -> option stmt_state) (data : W -> D).

(** A call that binds parameter [i] to [c]: it answers [SQLITE_OK], or with an
    error ([SQLITE_NOMEM], [SQLITE_TOOBIG]). *)
Definition binds (st : ST) (i : nat) (c : Cell) (w : W) (sql : bytes) (bound : list Cell) (answered : Z * W) : Prop :=
  fst answered = kSqliteOk -> view st (snd answered) = Some (Ready sql (<[i := c]> bound)) /\ data (snd answered) = data w.

(** A step of a statement that has [rows] left: the next row, the end, or an
    error ([SQLITE_BUSY], [SQLITE_CONSTRAINT], [SQLITE_ERROR], ...), at any
    step. *)
Definition steps (st : ST) (cols : list bytes) (rows : list (list Cell)) (answered : Z * W) : Prop :=
  (fst answered = kSqliteRow -> exists r rest, rows = r :: rest /\ view st (snd answered) = Some (AtRow cols r rest)) /\
  (fst answered = kSqliteDone -> rows = []).
End Documented.

(** The documented behaviour of statements.  [answer] is what the database
    [D] yields for a statement and its parameters; a parameter that is not
    bound is NULL, and a null pointer is bound as NULL. *)
Class SqliteSpec (W DB ST D : Type) `{SqliteApi W DB ST} := {
  db_data : W -> D;
  stmt_view : ST -> W -> option stmt_state;
  nparams : bytes -> nat;
  answer : bytes -> list Cell -> D -> list bytes * list (list Cell);
  answer_shape sql bound d : Forall (fun r => length r = length (fst (answer sql bound d))) (snd (answer sql bound d));
  prepare_spec db sql w st w' :
    prepare_v2 db sql (size_of sql) w = ((kSqliteOk, Some st), w') ->
    stmt_view st w' = Some (Ready sql (replicate (nparams sql) CNull)) /\ db_data w' = db_data w;
  bind_null_spec st i w sql bound : stmt_view st w = Some (Ready sql bound) -> (i < length bound)%nat ->
    binds stmt_view db_data st i CNull w sql bound (bind_null (Some st) (Z.of_nat i + 1) w);
  bind_int64_spec st i z w sql bound : stmt_view st w = Some (Ready sql bound) -> (i < length bound)%nat ->
    binds stmt_view db_data st i (CInt z) w sql bound (bind_int64 (Some st) (Z.of_nat i + 1) z w);
  bind_double_spec st i d w sql bound : stmt_view st w = Some (Ready sql bound) -> (i < length bound)%nat ->
    binds stmt_view db_data st i (CFloat d) w sql bound (bind_double (Some st) (Z.of_nat i + 1) d w);
  bind_text_spec st i s w sql bound : stmt_view st w = Some (Ready sql bound) -> (i < length bound)%nat -> size_of s < 2 ^ 31 ->
    binds stmt_view db_data st i (CText s) w sql bound (bind_text (Some st) (Z.of_nat i + 1) s (size_of s) w);
  bind_blob_spec st i b w sql bound : stmt_view st w = Some (Ready sql bound) -> (i < length bound)%nat -> size_of b < 2 ^ 31 ->
    binds stmt_view db_data st i (CBlob b) w sql bound (bind_blob (Some st) (Z.of_nat i + 1) (Some b) (size_of b) w);
  bind_blob_null st i n w sql bound : stmt_view st w = Some (Ready sql bound) -> (i < length bound)%nat ->
    binds stmt_view db_data st i CNull w sql bound (bind_blob (Some st) (Z.of_nat i + 1) None n w);
  step_ready st w sql bound : stmt_view st w = Some (Ready sql bound) ->
    steps stmt_view st (fst (answer sql bound (db_data w))) (snd (answer sql bound (db_data w))) (sqlite_step (Some st) w);
  step_at_row st w cols row rest : stmt_view st w = Some (AtRow cols row rest) -> steps stmt_view st cols rest (sqlite_step (Some st) w);
  column_count_spec st w cols row rest : stmt_view st w = Some (AtRow cols row rest) -> column_count (Some st) w = size_of cols;
  column_name_spec st w cols row rest i : stmt_view st w = Some (AtRow cols row rest) -> column_name (Some st) (Z.of_nat i) w = cols !! i;
  column_spec st w cols row rest i c : stmt_view st w = Some (AtRow cols row rest) -> row !! i = Some c ->
    column_type (Some st) (Z.of_nat i) w = cell_type c /\
    match c with
    | CNull => True
    | CInt z => column_int64 (Some st) (Z.of_nat i) w = z
    | CFloat d => column_double (Some st) (Z.of_nat i) w = d
    | CText s => column_text (Some st) (Z.of_nat i) w = Some s /\ column_bytes (Some st) (Z.of_nat i) w = size_of s
    | CBlob b => column_blob (Some st) (Z.of_nat i) w = (if decide (b = []) then None else Some b) /\ column_bytes (Some st) (Z.of_nat i) w = size_of b
    end
}.

(** The length of a text or blob parameter fits an [int]. *)
Definition value_fits (v : Value) : Prop := match v with VString s => size_of s < 2 ^ 31 | VBlob b => size_of b < 2 ^ 31 | _ => True end.

Section SqliteQueries.
Context {W DB ST D : Type} `{SqliteSpec W DB ST D}.

Lemma bind_value_spec st i v w sql bound :
  stmt_view st w = Some (Ready sql bound) -> (i < length bound)%nat -> value_fits v ->
  binds stmt_view db_data st i (encode_cell v) w sql bound (bind_value (Some st) (Z.of_nat i + 1) v w).
Proof.
  intros Hv Hi Hf. destruct v as [|b|z|d|s|b]; simpl in *.
  - by eapply bind_null_spec.
  - by eapply bind_int64_spec.
  - by eapply bind_int64_spec.
  - by eapply bind_double_spec.
  - rewrite to_int_small by (pose proof (size_of_nonneg s); lia). by eapply bind_text_spec.
  - case_decide as Hb; [by eapply bind_blob_null|]. rewrite to_int_small by (pose proof (size_of_nonneg b); lia). by eapply bind_blob_spec.
Qed.

(** The error of a call that binds a parameter of the statement or steps it. *)
Definition bind_error (st : ST) (e : exn) : Prop :=
  exists rc m i v w, e = SqlError SQLite rc m /\ rc <> kSqliteOk /\ fst (bind_value (Some st) i v w) = rc.
Definition step_error (st : ST) (e : exn) : Prop :=
  exists rc m w, e = SqlError SQLite rc m /\ rc <> kSqliteRow /\ rc <> kSqliteDone /\ fst (sqlite_step (Some st) w) = rc.

(** All parameters are bound, in their places, and the others stay as they
    are; or a call fails. *)
Lemma bind_params_spec st params (db : option DB) w sql done todo :
  stmt_view st w = Some (Ready sql (done ++ todo)) -> (length params <= length todo)%nat -> Z.of_nat (length (done ++ todo)) < 2 ^ 31 ->
  Forall value_fits params ->
  exists res w', bind_params (Some st) (length done) params (db, w) = (res, (db, w')) /\
    match res with
    | Ok _ => stmt_view st w' = Some (Ready sql (done ++ map encode_cell params ++ drop (length params) todo)) /\ db_data w' = db_data w
    | Throw e => bind_error st e
    | OutOfFuel => False
    end.
Proof.
  revert w done todo. induction params as [|v params IH]; intros w dn todo Hv Hl Hsz Hf; simpl.
  { by exists (Ok tt), w. }
  destruct todo as [|c todo]; simpl in Hl; [lia|]. apply Forall_cons in Hf as [Hf1 Hf].
  assert (length dn < length (dn ++ c :: todo))%nat as Hi by (rewrite length_app; simpl; lia).
  pose proof (bind_value_spec st (length dn) v w sql _ Hv Hi Hf1) as Hb. unfold binds in Hb.
  unfold co_bind, lib_call. rewrite to_int_small by (rewrite length_app in *; simpl in *; lia). simpl.
  destruct (bind_value (Some st) (Z.of_nat (length dn) + 1) v w) as [rc w1] eqn:E. simpl in *.
  destruct (Z.eqb_spec rc kSqliteOk) as [Hrc|Hrc]; simpl; cycle 1.
  { eexists _, _. split; [done|]. simpl. eexists rc, _, _, v, w. split_and!; [done | done | by rewrite E]. }
  destruct (Hb Hrc) as [Hv1 Hd1].
  rewrite insert_app_r_alt in Hv1 by lia. rewrite Nat.sub_diag in Hv1. simpl in Hv1. rewrite cons_middle, app_assoc in Hv1.
  destruct (IH w1 _ _ Hv1) as (res & w2 & E2 & Hres); [lia | rewrite !length_app in *; simpl in *; lia | done |].
  rewrite length_app in E2. simpl in E2. rewrite Nat.add_1_r in E2. exists res, w2. rewrite E2. split; [done|].
  destruct res as [u|e|]; [|done|done]. destruct Hres as [Hv2 Hd2]. split; [|congruence]. by rewrite Hv2, <- app_assoc.
Qed.

(** The next steps yield [rows]. *)
Definition rows_to_come (st : ST) (cols : list bytes) (rows : list (list Cell)) (w : W) : Prop :=
  (exists sql bound, stmt_view st w = Some (Ready sql bound) /\ answer sql bound (db_data w) = (cols, rows)) \/
  (exists row, stmt_view st w = Some (AtRow cols row rows)).

Lemma rows_to_come_step st cols rows w : rows_to_come st cols rows w -> steps stmt_view st cols rows (sqlite_step (Some st) w).
Proof.
  intros [(sql & bound & Hv & Ha)|(row & Hv)].
  - apply step_ready in Hv. by rewrite Ha in Hv.
  - by apply step_at_row in Hv.
Qed.

Lemma sized_all (s : bytes) : sized (Some s) (size_of s) = s.
Proof.
  unfold sized. destruct (Z.ltb_spec 0 (size_of s)) as [Hz|Hz]; [unfold size_of; rewrite Nat2Z.id; apply firstn_all|].
  destruct s; [done | unfold size_of in *; simpl in *; lia].
Qed.

Lemma column_value_spec st w cols row rest i c :
  stmt_view st w = Some (AtRow cols row rest) -> row !! i = Some c -> column_value (Some st) w (Z.of_nat i) = decode_cell c.
Proof.
  intros Hv Hc. destruct (column_spec st w cols row rest i c Hv Hc) as [Ht Hx]. unfold column_value. rewrite Ht.
  destruct c as [|z|d|s|b]; simpl in *; [done | by rewrite Hx | by rewrite Hx | |].
  - destruct Hx as [-> ->]. f_equal. apply sized_all.
  - destruct Hx as [-> ->]. case_decide as Hb; [by subst | f_equal; apply sized_all].
Qed.

Lemma column_names_spec st w cols row rest :
  stmt_view st w = Some (AtRow cols row rest) -> column_names (Some st) w = cols.
Proof.
  intros Hv. unfold column_names. rewrite (column_count_spec st w cols row rest Hv). rewrite (int_range_spec cols _ id); [apply List.map_id|].
  intros i x Hx. rewrite (column_name_spec st w cols row rest i Hv), Hx. done.
Qed.
Lemma current_row_spec st w cols row rest :
  stmt_view st w = Some (AtRow cols row rest) -> length row = length cols -> current_row (Some st) w = map decode_cell row.
Proof.
  intros Hv Hl. unfold current_row. rewrite (column_count_spec st w cols row rest Hv). unfold size_of. rewrite <- Hl. apply (int_range_spec row).
  intros i c Hc. by eapply column_value_spec.
Qed.

Lemma sqlite_rows_spec st cols rows (db : option DB) w fuel columns out :
  rows_to_come st cols rows w -> Forall (fun r => length r = length cols) rows -> (length rows < fuel)%nat ->
  (columns = None \/ columns = Some cols) ->
  exists res w', sqlite_rows fuel (Some st) columns out (db, w) = (res, (db, w')) /\
    match res with
    | Ok r => r = (match rows with [] => default [] columns | _ => cols end, out ++ map (map decode_cell) rows)
    | Throw e => step_error st e
    | OutOfFuel => False
    end.
Proof.
  revert w fuel columns out rows. intros w fuel. revert w. induction fuel as [|fuel IH]; intros w columns out rows Hp Hl Hf Hc; [lia|]. simpl.
  destruct (rows_to_come_step st cols rows w Hp) as [Hrow Hdone]. unfold co_bind at 1, lib_call. simpl.
  destruct (sqlite_step (Some st) w) as [step w'] eqn:E. simpl in *.
  destruct (Z.eqb_spec step kSqliteRow) as [Er|Er].
  - destruct (Hrow Er) as (r & rest & -> & Hv). apply Forall_cons in Hl as [Hl1 Hl]. simpl in Hf.
    assert ((match columns with Some c => co_ret c | None => lib_read (column_names (Some st)) end) (db, w') = (Ok cols, (db, w'))) as Ecols.
    { destruct Hc as [-> | ->]; [|done]. unfold lib_read, co_get. simpl. by rewrite (column_names_spec st w' cols r rest Hv). }
    rewrite (co_bind_ok _ _ _ _ _ Ecols). unfold co_bind at 1, lib_read at 1, co_get at 1. simpl. rewrite (current_row_spec st w' cols r rest Hv Hl1).
    destruct (IH w' (Some cols) (out ++ [map decode_cell r]) rest) as (res & w2 & E2 & Hres); [right; by exists r | done | lia | by right|].
    exists res, w2. rewrite E2. split; [done|]. destruct res; [|done|done]. rewrite Hres, <- app_assoc. simpl. by destruct rest.
  - destruct (Z.eqb_spec step kSqliteDone) as [Ed|Ed].
    + rewrite (Hdone Ed). eexists _, _. split; [done|]. simpl. by rewrite app_nil_r.
    + eexists _, _. split; [done|]. simpl. eexists step, _, w. split_and!; [done | done | done | by rewrite E].
Qed.
(** The parameters a statement runs with: those given, then NULL. *)
Definition bound_cells (sql : bytes) (params : Params) : list Cell :=
  map encode_cell params ++ replicate (nparams sql - length params) CNull.

Lemma sqlite_query_run fuel sql params db w st w1 cols rows :
  prepare_v2 db sql (size_of sql) w = ((kSqliteOk, Some st), w1) -> size_of sql < 2 ^ 31 ->
  (length params <= nparams sql)%nat -> Z.of_nat (nparams sql) < 2 ^ 31 -> Forall value_fits params ->
  answer sql (bound_cells sql params) (db_data w) = (cols, rows) -> (length rows < fuel)%nat ->
  exists res w2, sqlite_query fuel sql params (Some db, w) = (res, (Some db, sqlite_finalize st w2)) /\
    match res with
    | Ok r => r = mkResult (match rows with [] => [] | _ => cols end) (map (map decode_cell) rows) (changes64 db w2) (last_insert_rowid db w2)
    | Throw e => bind_error st e \/ step_error st e
    | OutOfFuel => False
    end.
Proof.
  intros Hp Hsql Hn Hn' Hf Ha Hfuel. destruct (prepare_spec db sql w st w1 Hp) as [Hv Hd].
  unfold sqlite_query. simpl. rewrite to_int_small by (pose proof (size_of_nonneg sql); lia).
  unfold co_bind at 1, lib_call. simpl. rewrite Hp. simpl. unfold co_finally, finalize_guard.
  destruct (bind_params_spec st params (Some db) w1 sql [] (replicate (nparams sql) CNull) Hv) as (res & w2 & E & Hres);
    [by rewrite length_replicate | simpl; by rewrite length_replicate | done |]. simpl in E.
  destruct res as [[]|e|]; [|exists (Throw e), w2; unfold co_bind at 1; rewrite E; simpl; by auto | done].
  destruct Hres as [Hv2 Hd2]. rewrite drop_replicate in Hv2. simpl in Hv2. rewrite (co_bind_ok _ _ _ _ _ E).
  destruct (sqlite_rows_spec st cols rows (Some db) w2 fuel None []) as (res & w3 & E3 & Hres); [| | done | by left|].
  { left. exists sql, (bound_cells sql params). split; [done|]. by rewrite Hd2, Hd. }
  { pose proof (answer_shape sql (bound_cells sql params) (db_data w)) as Hs. by rewrite Ha in Hs. }
  destruct res as [r|e|]; [|exists (Throw e), w3; unfold co_bind at 1; rewrite E3; simpl; by auto | done].
  rewrite (co_bind_ok _ _ _ _ _ E3), Hres. simpl. eexists _, w3. split; [done|]. by destruct rows.
Qed.
End SqliteQueries.


(** What is bound is what is read, but for the types SQLite has not: a
    Boolean is an integer, and an empty blob, whose pointer is null, is NULL. *)
Lemma decode_encode v :
  decode_cell (encode_cell v) = match v with VBool b => VInt (if b then 1 else 0) | VBlob b => if decide (b = []) then VNull else VBlob b | v => v end.
Proof. destruct v as [|b|z|d|s|b]; simpl; try done. by case_decide. Qed.

(** An empty blob given to a statement that returns its parameter comes back
    as NULL. *)
Theorem empty_blob_reads_as_null {W DB ST D} `{SqliteSpec W DB ST D} fuel sql (db : DB) w st w1 cols :
  prepare_v2 db sql (size_of sql) w = ((kSqliteOk, Some st), w1) -> size_of sql < 2 ^ 31 -> nparams sql = 1%nat ->
  (forall c, answer sql [c] (db_data w) = (cols, [[c]])) -> (1 < fuel)%nat ->
  forall r x, sqlite_query fuel sql [VBlob []] (Some db, w) = (Ok r, x) -> res_rows r = [[VNull]].
Proof.
  intros Hp Hsql Hn Ha Hfuel r x Er. destruct (sqlite_query_run fuel sql [VBlob []] db w st w1 cols [[CNull]]) as (res & w2 & E & Hres).
  - done.
  - done.
  - by rewrite Hn.
  - by rewrite Hn.
  - by repeat constructor.
  - unfold bound_cells. rewrite Hn. apply Ha.
  - done.
  - rewrite E in Er. injection Er as -> _. by rewrite Hres.
Qed.

(** A statement without rows has no columns in the result, whatever columns
    the statement has. *)
Theorem empty_select_without_columns {W DB ST D} `{SqliteSpec W DB ST D} fuel sql (db : DB) w st w1 cols :
  prepare_v2 db sql (size_of sql) w = ((kSqliteOk, Some st), w1) -> size_of sql < 2 ^ 31 -> nparams sql = 0%nat ->
  answer sql [] (db_data w) = (cols, []) -> (0 < fuel)%nat ->
  forall r x, sqlite_query fuel sql [] (Some db, w) = (Ok r, x) -> res_columns r = [].
Proof.
  intros Hp Hsql Hn Ha Hfuel r x Er. destruct (sqlite_query_run fuel sql [] db w st w1 cols []) as (res & w2 & E & Hres).
  - done.
  - done.
  - simpl. lia.
  - by rewrite Hn.
  - done.
  - unfold bound_cells. by rewrite Hn.
  - done.
  - rewrite E in Er. injection Er as -> _. by rewrite Hres.
Qed.

(** ** A library that answers with the parameters

    One row, which holds the parameters; a statement has as many parameters
    as it has question marks. *)
Record Echo := mkEcho { ec_table : Table; ec_stmts : gmap nat stmt_state }.
Definition echo_params (sql : bytes) : nat := length (List.filter (fun c => bool_decide (c = "?"%char)) sql).
Definition echo_answer (sql : bytes) (bound : list Cell) (_ : unit) : list bytes * list (list Cell) := (map (fun _ => "c"%bs) bound, [bound]).
Definition echo_get (st : option nat) (w : Echo) : option stmt_state := st ≫= fun s => ec_stmts w !! s.
Definition echo_put (st : nat) (v : stmt_state) (w : Echo) : Echo := mkEcho (ec_table w) (<[st := v]> (ec_stmts w)).
Definition echo_bind (st : option nat) (i : Z) (c : Cell) (w : Echo) : Z * Echo :=
  match st, echo_get st w with
  | Some s, Some (Ready sql bound) =>
      if (1 <=? i) && (i <=? size_of bound) then (kSqliteOk, echo_put s (Ready sql (<[Z.to_nat (i - 1) := c]> bound)) w) else (25, w)
  | _, _ => (21, w)
  end.
Definition echo_step (st : option nat) (w : Echo) : Z * Echo :=
  let next s cols rows := match rows with [] => (kSqliteDone, echo_put s Finished w) | r :: rest => (kSqliteRow, echo_put s (AtRow cols r rest) w) end in
  match st, echo_get st w with
  | Some s, Some (Ready sql bound) => let '(cols, rows) := echo_answer sql bound tt in next s cols rows
  | Some s, Some (AtRow cols _ rest) => next s cols rest
  | _, _ => (21, w)
  end.
Definition echo_cell (st : option nat) (i : Z) (w : Echo) : option Cell :=
  match echo_get st w with Some (AtRow _ row _) => row !! Z.to_nat i | _ => None end.
Definition echo_text (c : option Cell) : option bytes :=
  match c with Some (CText s) => Some s | Some (CBlob b) => if decide (b = []) then None else Some b | _ => None end.
Definition echo_open (w : Echo) : nat * Echo := let '(h, t) := tb_new (ec_table w) in (h, mkEcho t (ec_stmts w)).
Definition echo_close (h : nat) (w : Echo) : Echo := mkEcho (tb_drop h (ec_table w)) (ec_stmts w).

#[export] Instance echo_api : SqliteApi Echo nat nat := {|
  open_v2 _ _ w := let '(h, w) := echo_open w in ((kSqliteOk, Some h), w);
  close_v2 := echo_close;
  errmsg _ _ := None;
  prepare_v2 _ sql _ w := let '(h, w) := echo_open w in ((kSqliteOk, Some h), echo_put h (Ready sql (replicate (echo_params sql) CNull)) w);
  sqlite_step := echo_step;
  sqlite_finalize := echo_close;
  bind_null st i := echo_bind st i CNull;
  bind_int64 st i z := echo_bind st i (CInt z);
  bind_double st i d := echo_bind st i (CFloat d);
  bind_text st i s _ := echo_bind st i (CText s);
  bind_blob st i b _ := echo_bind st i (match b with Some b => CBlob b | None => CNull end);
  column_count st w := match echo_get st w with Some (AtRow cols _ _) => size_of cols | _ => 0 end;
  column_name st i w := match echo_get st w with Some (AtRow cols _ _) => cols !! Z.to_nat i | _ => None end;
  column_type st i w := match echo_cell st i w with Some c => cell_type c | None => kSqliteNull end;
  column_int64 st i w := match echo_cell st i w with Some (CInt z) => z | _ => 0 end;
  column_double st i w := match echo_cell st i w with Some (CFloat d) => d | _ => 0 end;
  column_text st i w := echo_text (echo_cell st i w);
  column_blob st i w := echo_text (echo_cell st i w);
  column_bytes st i w := match echo_cell st i w with Some (CText s) => size_of s | Some (CBlob b) => size_of b | _ => 0 end;
  changes64 _ _ := 0;
  last_insert_rowid _ _ := 0
|}.
#[export] Instance echo_handles : Handles Echo nat := fun w => tb_live (ec_table w).

Lemma echo_bind_table st i c w : ec_table (snd (echo_bind st i c w)) = ec_table w.
Proof. unfold echo_bind. repeat case_match; done. Qed.
Lemma echo_step_table st w : ec_table (snd (echo_step st w)) = ec_table w.
Proof. unfold echo_step. repeat case_match; simplify_eq/=; done. Qed.
Lemma echo_close_live h w : releases h w (echo_close h w).
Proof. intros Hh. by apply tb_drop_live. Qed.

#[export] Instance echo_live : SqliteLive Echo nat nat nat.
Proof.
  unshelve econstructor; [exact id | exact id | ..]; try (intros; apply echo_close_live).
  - intros path flags w. unfold acquires. reflexivity.
  - intros db sql n w. unfold acquires. reflexivity.
  - intros st w. change (tb_live (ec_table (snd (echo_step st w))) ≡ₚ tb_live (ec_table w)). by rewrite echo_step_table.
  - intros st i v w. unfold live, echo_handles. destruct v; cbn [bind_value bind_null bind_int64 bind_double bind_text bind_blob echo_api]; by rewrite echo_bind_table.
Defined.

Lemma echo_bind_spec st i c w sql bound :
  echo_get (Some st) w = Some (Ready sql bound) -> (i < length bound)%nat ->
  binds (fun st => echo_get (Some st)) (fun _ => tt) st i c w sql bound (echo_bind (Some st) (Z.of_nat i + 1) c w).
Proof.
  intros Hv Hi. unfold echo_bind. rewrite Hv. unfold size_of.
  replace ((1 <=? Z.of_nat i + 1) && (Z.of_nat i + 1 <=? Z.of_nat (length bound))) with true by lia.
  intros _. split; [|done]. unfold echo_get, echo_put. simpl. rewrite lookup_insert_eq.
  by replace (Z.to_nat (Z.of_nat i + 1 - 1)) with i by lia.
Qed.
Lemma echo_step_spec st cols rows (w : Echo) :
  (exists sql bound, echo_get (Some st) w = Some (Ready sql bound) /\ echo_answer sql bound tt = (cols, rows)) \/
  (exists row, echo_get (Some st) w = Some (AtRow cols row rows)) ->
  steps (fun st => echo_get (Some st)) st cols rows (echo_step (Some st) w).
Proof.
  intros Hs. unfold echo_step, steps. destruct Hs as [(sql & bound & -> & ->)|(row & ->)]; destruct rows as [|r rest]; simpl; split; try done;
    intros _; exists r, rest; (split; [done|]); unfold echo_get, echo_put; simpl; by rewrite lookup_insert_eq.
Qed.

#[export] Instance echo_spec : SqliteSpec Echo nat nat unit.
Proof.
  unshelve econstructor;
    [exact (fun _ => tt) | exact (fun st => echo_get (Some st)) | exact echo_params | exact echo_answer | ..].
  - intros sql bound d. simpl. constructor; [|constructor]. by rewrite length_map.
  - intros db sql w st w' [= <- <-]. unfold echo_get, echo_put. simpl. by rewrite lookup_insert_eq.
  - intros. by apply echo_bind_spec.
  - intros. by apply echo_bind_spec.
  - intros. by apply echo_bind_spec.
  - intros. by apply echo_bind_spec.
  - intros. by apply echo_bind_spec.
  - intros. by apply echo_bind_spec.
  - intros st w sql bound Hv. apply (echo_step_spec st _ _ w). left. by exists sql, bound.
  - intros st w cols row rest Hv. apply (echo_step_spec st cols rest w). right. by exists row.
  - intros st w cols row rest Hv. cbn [column_count echo_api]. by rewrite Hv.
  - intros st w cols row rest i Hv. cbn [column_name echo_api]. by rewrite Hv, Nat2Z.id.
  - intros st w cols row rest i c Hv Hc.
    assert (echo_cell (Some st) (Z.of_nat i) w = Some c) as Hcell by (unfold echo_cell; by rewrite Hv, Nat2Z.id).
    cbn [column_type column_int64 column_double column_text column_blob column_bytes echo_api]. rewrite !Hcell. by destruct c.
Defined.

Definition echo_world : Echo := mkEcho (mkTable 8 [7%nat]) ∅.


Lemma empty_blob_reads_as_null_witness :
  exists r x, sqlite_query 2 "SELECT ?"%bs [VBlob []] (Some 7%nat, echo_world) = (Ok r, x) /\ res_rows r = [[VNull]].
Proof.
  eexists _, _. split; [vm_compute; reflexivity|].
  eapply (empty_blob_reads_as_null 2 "SELECT ?"%bs 7%nat echo_world 8%nat _ ["c"%bs]).
  - reflexivity.
  - reflexivity.
  - reflexivity.
  - reflexivity.
  - lia.
  - vm_compute. reflexivity.
Defined.
