(* ===== verification/SqlPostgres.v ===== *)
(** * The PostgreSQL driver (sql.cpp)

    [PostgresDriver] over libpq, which is a parameter ([PgApi]).  [PgLive]
    says which calls open and close handles, [PgSpec] what libpq documents
    about a connection that carries one command at a time.

    The theorems: on every way out the driver holds its connection and no
    result; connecting ends, when the handshake does; a query that succeeds
    returns the rows the server sent and leaves the connection ready for the
    next one, and one that does not throws the error of the call that failed.
    Three theorems are about behaviour that is not intended: the text of a
    failed connect is lost; after a query that failed every further query on
    the connection fails; and the driver never waits for an answer on its
    socket, since [PQgetResult] waits first. *)

From S2P Require Import Prelude Coroutine CxxString Sql SqlLibrary.

Local Open Scope Z_scope.
Local Open Scope co_scope.

(** ** Constants *)

Definition kPgConnOk : Z := 0.
Definition kPgCommandOk : Z := 1.
Definition kPgTuplesOk : Z := 2.
Definition kPgPollingFailed : Z := 0.
Definition kPgPollingReading : Z := 1.
Definition kPgPollingWriting : Z := 2.
Definition kPgPollingOk : Z := 3.
Definition kPgPollingActive : Z := 4.

(** ** libpq *)
Class PgApi (W C R : Type) := {
  connect_start : bytes -> W -> option C * W;
  connect_poll : C -> W -> Z * W;
  pg_socket : C -> W -> Z;
  set_nonblocking : C -> Z -> W -> Z * W;
  pg_status : C -> W -> Z;
  error_message : C -> W -> option bytes;
  pg_finish : C -> W -> W;
  send_query_params : C -> bytes -> Z -> list (option bytes) -> W -> Z * W;
  pg_flush : C -> W -> Z * W;
  consume_input : C -> W -> Z * W;
  is_busy : C -> W -> Z;
  get_result : C -> W -> option R * W;
  result_status : R -> W -> Z;
  nfields : R -> W -> Z;
  ntuples : R -> W -> Z;
  fname : R -> Z -> W -> option bytes;
  get_is_null : R -> Z -> Z -> W -> Z;
  get_value : R -> Z -> Z -> W -> option bytes;
  cmd_tuples : R -> W -> option bytes;
  pg_clear : R -> W -> W
}.

(** ** The driver *)
Section PostgresDriver.
Context {W C R : Type} `{PgApi W C R} `{SocketWait W}.

(** [_conn] and the library. *)
Definition Pg : Type := option C * W.

Definition pg_close : Co Pg unit := fun x =>
  match fst x with
  | Some conn => (Ok tt, (None, pg_finish conn (snd x)))
  | None => (Ok tt, x)
  end.

Definition connection_error_message (fallback : bytes) (x : Pg) : bytes :=
  match fst x with
  | None => fallback
  | Some conn =>
      match error_message conn (snd x) with
      | None => fallback
      | Some err => match trim_copy err with [] => fallback | trimmed => trimmed end
      end
  end.
Definition pg_error (code : Z) (m : bytes) : exn := SqlError PostgreSQL code m.
Definition pg_fail {A} (code : Z) (fallback : bytes) : Co Pg A := fun x => (Throw (pg_error code (connection_error_message fallback x)), x).
Definition pg_invalid_socket : exn := pg_error (-1) "corouv::sql pgsql invalid socket"%bs.

Fixpoint pg_connect_loop (fuel : nat) (conn : C) : Co Pg unit :=
  match fuel with
  | O => co_fuel
  | S fuel =>
      status <- lib_call (connect_poll conn);;
      if status =? kPgPollingOk then co_ret tt
      else if status =? kPgPollingFailed then
        conn_status <- lib_read (pg_status conn);;
        pg_close;;; pg_fail conn_status "pgsql connect failed"%bs
      else
        sock <- lib_read (pg_socket conn);;
        if sock <? 0 then pg_close;;; co_throw pg_invalid_socket
        else if status =? kPgPollingReading then lib_await (poll_events true false sock);;; pg_connect_loop fuel conn
        else if status =? kPgPollingWriting then lib_await (poll_events false true sock);;; pg_connect_loop fuel conn
        else if status =? kPgPollingActive then lib_await yield_now;;; pg_connect_loop fuel conn
        else pg_close;;; co_throw (pg_error status "corouv::sql pgsql connect poll failed"%bs)
  end.

(** What follows [connect_start]. *)
Definition pg_handshake (fuel : nat) (conn : C) : Co Pg unit :=
  pg_connect_loop fuel conn;;;
  final_status <- lib_read (pg_status conn);;
  if negb (final_status =? kPgConnOk) then pg_close;;; pg_fail final_status "pgsql connect failed"%bs
  else
    rc <- lib_call (set_nonblocking conn 1);;
    if negb (rc =? 0) then pg_close;;; co_throw (pg_error (-1) "corouv::sql pgsql set_nonblocking failed"%bs)
    else co_ret tt.

Definition pg_connect (fuel : nat) (info : ConnectionInfo) : Co Pg unit :=
  pg_close;;;
  c <- lib_call (connect_start (c_string (conninfo (conninfo_pairs info))));;
  match c with
  | None => co_throw (pg_error (-1) "corouv::sql pgsql allocate connection failed"%bs)
  | Some conn => (fun x => (Ok tt, (Some conn, snd x)));;; pg_handshake fuel conn
  end.

Fixpoint pg_flush_loop (fuel : nat) (conn : C) : Co Pg unit :=
  match fuel with
  | O => co_fuel
  | S fuel =>
      flush_rc <- lib_call (pg_flush conn);;
      if flush_rc =? 0 then co_ret tt
      else if flush_rc =? 1 then
        sock <- lib_read (pg_socket conn);;
        if sock <? 0 then co_throw pg_invalid_socket
        else lib_await (poll_events false true sock);;; pg_flush_loop fuel conn
      else pg_fail flush_rc "pgsql flush failed"%bs
  end.

(** [std::from_chars] on an [int64_t], all of the text. *)
Definition parse_int64 (s : bytes) : option Z :=
  match s with
  | "-"%char :: digits => Z.opp <$> parse_full (2 ^ 63 + 1) 10 digits
  | _ => parse_full (2 ^ 63) 10 s
  end.

Definition pg_cell (r : R) (w : W) (row col : Z) : Value :=
  if negb (get_is_null r row col w =? 0) then VNull else VString (default [] (get_value r row col w)).

Definition parse_result (out : Result) (r : R) : Co Pg Result :=
  status <- lib_read (result_status r);;
  if negb (status =? kPgCommandOk) && negb (status =? kPgTuplesOk) then pg_fail status "pgsql query failed"%bs
  else
    lib_read (fun w =>
      let out :=
        if status =? kPgTuplesOk then
          mkResult (map (fun c => default [] (fname r c w)) (int_range (nfields r w)))
            (map (fun row => map (pg_cell r w row) (int_range (nfields r w))) (int_range (ntuples r w)))
            (res_affected_rows out) (res_last_insert_id out)
        else out in
      match cmd_tuples r w with
      | Some (c :: t) =>
          match parse_int64 (c :: t) with
          | Some affected => mkResult (res_columns out) (res_rows out) affected (res_last_insert_id out)
          | None => out
          end
      | _ => out
      end).

(** [ClearGuard] *)
Definition clear_guard (r : R) (x : Pg) : Pg := (fst x, pg_clear r (snd x)).

(** [while (PGresult* result = get_result())] *)
Fixpoint pg_results (fuel : nat) (conn : C) (out : Result) : Co Pg Result :=
  match fuel with
  | O => co_fuel
  | S fuel =>
      r <- lib_call (get_result conn);;
      match r with
      | None => co_ret out
      | Some r => out <- co_finally (parse_result out r) (clear_guard r);; pg_results fuel conn out
      end
  end.

(** The loop around it, with fuel for itself and for the results. *)
Fixpoint pg_read_loop (rounds fuel : nat) (conn : C) (out : Result) : Co Pg Result :=
  match rounds with
  | O => co_fuel
  | S rounds =>
      rc <- lib_call (consume_input conn);;
      if negb (rc =? 1) then pg_fail (-1) "pgsql consume input failed"%bs
      else
        out <- pg_results fuel conn out;;
        busy <- lib_read (is_busy conn);;
        if busy =? 0 then co_ret out
        else
          sock <- lib_read (pg_socket conn);;
          if sock <? 0 then co_throw pg_invalid_socket
          else lib_await (poll_events true false sock);;; pg_read_loop rounds fuel conn out
  end.

Definition pg_not_connected : exn := LogicError "corouv::sql pgsql driver is not connected"%bs.

(** With a connection: send, flush, read. *)
Definition pg_query_on (rounds fuel : nat) (conn : C) (sql : bytes) (params : Params) : Co Pg Result :=
  rc <- lib_call (send_query_params conn (c_string sql) (to_int (size_of params)) (map pg_param params));;
  if negb (rc =? 1) then pg_fail (-1) "pgsql send query failed"%bs
  else pg_flush_loop rounds conn;;; pg_read_loop rounds fuel conn empty_result.

Definition pg_query (rounds fuel : nat) (sql : bytes) (params : Params) : Co Pg Result := fun x =>
  match fst x with
  | None => (Throw pg_not_connected, x)
  | Some conn => pg_query_on rounds fuel conn sql params x
  end.
End PostgresDriver.

(** ** Handles *)

Class PgLive (W C R Hd : Type) `{PgApi W C R, Handles W Hd} := {
  pg_conn_handle : C -> Hd;
  pg_res_handle : R -> Hd;
  connect_start_live s w : acquires (pg_conn_handle <$> fst (connect_start s w)) w (snd (connect_start s w));
  connect_poll_live c w : live (snd (connect_poll c w)) ≡ₚ live w;
  set_nonblocking_live c n w : live (snd (set_nonblocking c n w)) ≡ₚ live w;
  pg_finish_live c w : releases (pg_conn_handle c) w (pg_finish c w);
  send_live c s n ps w : live (snd (send_query_params c s n ps w)) ≡ₚ live w;
  flush_live c w : live (snd (pg_flush c w)) ≡ₚ live w;
  consume_live c w : live (snd (consume_input c w)) ≡ₚ live w;
  get_result_live c w : acquires (pg_res_handle <$> fst (get_result c w)) w (snd (get_result c w));
  pg_clear_live r w : releases (pg_res_handle r) w (pg_clear r w)
}.

Section PgHandles.
Context {W C R Hd : Type} `{PgLive W C R Hd} `{!SocketWait W, !WaitLive W Hd}.
Abbreviation pg_holds := (holds (C := C) pg_conn_handle).

Lemma pg_close_inv others : co_inv (pg_holds [] others) pg_close.
Proof.
  intros [[c|] w]; unfold holds; simpl; [|done]. intros Hx. eapply owns_release; [exact Hx | apply pg_finish_live].
Qed.
Lemma pg_fail_inv {A} mine others code m : co_inv (pg_holds mine others) (@pg_fail W C R _ A code m).
Proof. by intros x Hx. Qed.
Hint Resolve pg_close_inv pg_fail_inv connect_poll_live set_nonblocking_live send_live flush_live consume_live poll_live yield_live : co_inv.

(** Calls that open and close nothing. *)
Ltac quiet :=
  repeat first [ apply co_inv_bind; [|intros ?] | case_match | progress (auto with co_inv)
               | apply lib_call_inv; intros ? | apply lib_await_inv; intros ? ].

Lemma pg_connect_loop_inv others fuel conn : co_inv (pg_holds [] others) (pg_connect_loop fuel conn).
Proof. induction fuel as [|fuel IH]; simpl; quiet. Qed.

Lemma pg_handshake_inv others fuel conn : co_inv (pg_holds [] others) (pg_handshake fuel conn).
Proof. apply co_inv_bind; [apply pg_connect_loop_inv | intros _]. quiet. Qed.

Lemma pg_close_none x : pg_close x = (Ok tt, (None, snd (snd (pg_close x)))).
Proof. by destruct x as [[c|] w]. Qed.

Lemma pg_connect_inv others fuel info : co_inv (pg_holds [] others) (pg_connect fuel info).
Proof.
  intros x Hx. unfold pg_connect. apply (pg_close_inv others) in Hx. revert Hx.
  rewrite (co_bind_ok _ _ _ _ _ (pg_close_none x)). rewrite (pg_close_none x) at 1. simpl. generalize (snd (snd (pg_close x))). intros w Hx.
  unfold lib_call, co_bind at 1. simpl. set (s := c_string _). pose proof (connect_start_live s w) as Hs.
  destruct (connect_start s w) as [[conn|] w']; simpl in *; pose proof (owns_acquire _ _ _ _ _ Hx Hs) as Hw; [|done].
  by apply (pg_handshake_inv others fuel conn (Some conn, w')).
Qed.

Lemma pg_flush_loop_inv others fuel conn : co_inv (pg_holds [] others) (pg_flush_loop fuel conn).
Proof. induction fuel as [|fuel IH]; simpl; quiet. Qed.

Lemma parse_result_inv mine others out r : co_inv (pg_holds mine others) (parse_result out r).
Proof. unfold parse_result. quiet. Qed.

Lemma pg_results_inv others fuel conn out : co_inv (pg_holds [] others) (pg_results fuel conn out).
Proof.
  revert out. induction fuel as [|fuel IH]; intros out; simpl; [auto with co_inv|]. intros [c w] Hx.
  unfold lib_call, co_bind at 1. simpl. pose proof (get_result_live conn w) as Hg. destruct (get_result conn w) as [[r|] w']; simpl in *.
  - assert (pg_holds [] others (snd (co_finally (parse_result out r) (clear_guard r) (c, w')))) as Hr.
    { apply (co_inv_finally _ (pg_holds [pg_res_handle r] others)); [| apply parse_result_inv |].
      - unfold holds in *. simpl in *. eapply owns_perm; [|eapply owns_acquire; [exact Hx | exact Hg]]. simpl. rewrite app_nil_r. solve_Permutation.
      - intros [c' w2] Hy. unfold holds, clear_guard in *. simpl in *. eapply owns_release; [|apply pg_clear_live].
        eapply owns_perm; [|exact Hy]. rewrite app_nil_r. solve_Permutation. }
    unfold co_bind. destruct (co_finally _ _ _) as [[o|e|] y]; simpl in *; [by apply IH | done | done].
  - unfold holds in *. simpl in *. by eapply owns_same.
Qed.

Lemma pg_read_loop_inv others rounds fuel conn out : co_inv (pg_holds [] others) (pg_read_loop rounds fuel conn out).
Proof.
  revert out. induction rounds as [|rounds IH]; intros out; simpl; [auto with co_inv|].
  apply co_inv_bind; [apply lib_call_inv; intros; apply consume_live | intros rc]. case_match; [auto with co_inv|].
  apply co_inv_bind; [apply pg_results_inv | intros o]. quiet.
Qed.

Lemma pg_query_on_inv others rounds fuel conn sql params : co_inv (pg_holds [] others) (pg_query_on rounds fuel conn sql params).
Proof.
  apply co_inv_bind; [apply lib_call_inv; intros; apply send_live | intros rc]. case_match; [auto with co_inv|].
  apply co_inv_bind; [apply pg_flush_loop_inv | intros _; apply pg_read_loop_inv].
Qed.

Lemma pg_query_inv others rounds fuel sql params : co_inv (pg_holds [] others) (pg_query rounds fuel sql params).
Proof.
  intros [[c|] w] Hx; [|done]. apply (pg_query_on_inv others rounds fuel c sql params (Some c, w) Hx).
Qed.
End PgHandles.

(** ** What libpq documents *)

(** A result as the server sent it; a cell without text is NULL. *)
Record PgRes := mkPgRes { pr_status : Z; pr_names : list bytes; pr_rows : list (list (option bytes)); pr_tuples : bytes }.

(** A connection is being set up, idle, or carries a command whose results
    have not all been taken. *)
Inductive PgState := PgConnecting | PgIdle | PgActive (results : list PgRes).

Definition pg_ok (r : PgRes) : bool := (pr_status r =? kPgCommandOk) || (pr_status r =? kPgTuplesOk).

(** A result that the driver reports as an error: the server's, or libpq's own
    when the connection is lost. *)
Definition bad_result {W R} (res_view : R -> W -> option PgRes) (res : R) (w : W) : Prop :=
  exists bad, res_view res w = Some bad /\ pg_ok bad = false.

(** What a call has done when it answers that it did it.  Every call may
    answer with an error instead, and a wait may throw.  [send_query_params]
    sends the first [n] of the values; [handshake] and [unsent] count the
    waits that are still needed. *)
Class PgSpec (W C R D : Type) `{PgApi W C R, SocketWait W} := {
  pg_data : W -> D;
  pg_view : C -> W -> option PgState;
  res_view : R -> W -> option PgRes;
  pg_answer : bytes -> list (option bytes) -> D -> list PgRes;
  handshake : C -> W -> nat;
  unsent : C -> W -> nat;
  connect_start_spec s w c w' : connect_start s w = (Some c, w') -> pg_view c w' = Some PgConnecting;
  connect_poll_spec c w st w' : pg_view c w = Some PgConnecting -> connect_poll c w = (st, w') ->
    (st = kPgPollingOk -> pg_view c w' = Some PgIdle) /\
    (st = kPgPollingReading \/ st = kPgPollingWriting -> forall rd wr w2,
       poll_events rd wr (pg_socket c w') w' = (Ok tt, w2) -> pg_view c w2 = Some PgConnecting /\ (handshake c w2 < handshake c w)%nat) /\
    (st = kPgPollingActive -> forall w2, yield_now w' = (Ok tt, w2) -> pg_view c w2 = Some PgConnecting /\ (handshake c w2 < handshake c w)%nat);
  set_nonblocking_spec c w w' : pg_view c w = Some PgIdle -> set_nonblocking c 1 w = (0, w') -> pg_view c w' = Some PgIdle;
  send_idle c s n ps w w' : pg_view c w = Some PgIdle -> 0 <= n <= size_of ps -> send_query_params c s n ps w = (1, w') ->
    pg_view c w' = Some (PgActive (pg_answer s (take (Z.to_nat n) ps) (pg_data w)));
  send_active c s n ps w rs : pg_view c w = Some (PgActive rs) -> exists w', send_query_params c s n ps w = (0, w') /\ pg_view c w' = Some (PgActive rs);
  flush_spec c w st rc w' : pg_view c w = Some st -> pg_flush c w = (rc, w') ->
    (rc = 0 -> pg_view c w' = Some st) /\
    (rc = 1 -> forall w2, poll_events false true (pg_socket c w') w' = (Ok tt, w2) -> pg_view c w2 = Some st /\ (unsent c w2 < unsent c w)%nat);
  consume_spec c w st w' : pg_view c w = Some st -> consume_input c w = (1, w') -> pg_view c w' = Some st;
  get_result_some c w r rs : pg_view c w = Some (PgActive (r :: rs)) ->
    exists res w', get_result c w = (Some res, w') /\ ((pg_view c w' = Some (PgActive rs) /\ res_view res w' = Some r) \/ bad_result res_view res w');
  get_result_none c w : pg_view c w = Some (PgActive []) ->
    exists o w', get_result c w = (o, w') /\ match o with None => pg_view c w' = Some PgIdle | Some res => bad_result res_view res w' end;
  is_busy_idle c w : pg_view c w = Some PgIdle -> is_busy c w = 0;
  clear_spec c res w st : pg_view c w = Some st -> pg_view c (pg_clear res w) = Some st;
  result_status_spec res w r : res_view res w = Some r -> result_status res w = pr_status r;
  result_shape res w r : res_view res w = Some r -> nfields res w = size_of (pr_names r) /\ ntuples res w = size_of (pr_rows r) /\
    Forall (fun row => length row = length (pr_names r)) (pr_rows r);
  fname_spec res w r i : res_view res w = Some r -> fname res (Z.of_nat i) w = pr_names r !! i;
  get_value_spec res w r i j row cell : res_view res w = Some r -> pr_rows r !! i = Some row -> row !! j = Some cell ->
    get_is_null res (Z.of_nat i) (Z.of_nat j) w = (match cell with None => 1 | Some _ => 0 end) /\
    (forall t, cell = Some t -> get_value res (Z.of_nat i) (Z.of_nat j) w = Some t);
  cmd_tuples_spec res w r : res_view res w = Some r -> cmd_tuples res w = Some (pr_tuples r);
  poll_returns rd wr sock w : fst (poll_events rd wr sock w) <> OutOfFuel;
  yield_returns w : fst (yield_now w) <> OutOfFuel
}.

(** What a result adds to what [query_async] returns. *)
Definition pg_decode (cell : option bytes) : Value := match cell with None => VNull | Some t => VString t end.
Definition absorb (out : Result) (r : PgRes) : Result :=
  mkResult (if pr_status r =? kPgTuplesOk then pr_names r else res_columns out)
    (if pr_status r =? kPgTuplesOk then map (map pg_decode) (pr_rows r) else res_rows out)
    (default (res_affected_rows out) (parse_int64 (pr_tuples r))) (res_last_insert_id out).

#[local] Arguments parse_int64 : simpl never.

Section PgQueries.
Context {W C R D : Type} `{PgSpec W C R D}.

Lemma parse_result_ok out res w r (c : option C) :
  res_view res w = Some r -> pg_ok r = true -> parse_result out res (c, w) = (Ok (absorb out r), (c, w)).
Proof.
  intros Hr Hok. unfold parse_result, co_bind, lib_read, co_get. simpl. rewrite (result_status_spec res w r Hr).
  unfold pg_ok in Hok. destruct (result_shape res w r Hr) as (Hnf & Hnt & Hsh).
  replace (negb (pr_status r =? kPgCommandOk) && negb (pr_status r =? kPgTuplesOk)) with false by (destruct (pr_status r =? kPgCommandOk), (pr_status r =? kPgTuplesOk); done).
  cbn [negb andb snd fst]. rewrite (cmd_tuples_spec res w r Hr), Hnf, Hnt.
  assert (map (fun c => default [] (fname res c w)) (int_range (size_of (pr_names r))) = pr_names r) as Hcols.
  { rewrite (int_range_spec (pr_names r) _ id); [apply List.map_id|]. intros i x Hx. by rewrite (fname_spec res w r i Hr), Hx. }
  assert (map (fun row => map (pg_cell res w row) (int_range (size_of (pr_names r)))) (int_range (size_of (pr_rows r))) = map (map pg_decode) (pr_rows r)) as Hrows.
  { apply int_range_spec. intros i row Hrow. assert (length row = length (pr_names r)) as Hlen by (by eapply Forall_lookup_1 in Hsh).
    unfold size_of. rewrite <- Hlen. apply (int_range_spec row). intros j cell Hcell.
    destruct (get_value_spec res w r i j row cell Hr Hrow Hcell) as [Hnull Hval]. unfold pg_cell. rewrite Hnull.
    destruct cell as [t|]; simpl; [by rewrite (Hval t eq_refl) | done]. }
  rewrite Hcols, Hrows. unfold absorb. do 2 f_equal.
  assert (parse_int64 [] = None) as Hnil by done.
  destruct (pr_tuples r) as [|a t]; [rewrite Hnil | destruct (parse_int64 (a :: t))]; simpl; destruct (pr_status r =? kPgTuplesOk); by destruct out.
Qed.

Lemma parse_result_bad out res w r (c : option C) :
  res_view res w = Some r -> pg_ok r = false -> exists m, parse_result out res (c, w) = (Throw (pg_error (pr_status r) m), (c, w)).
Proof.
  intros Hr Hok. unfold parse_result, co_bind, lib_read, co_get. simpl. rewrite (result_status_spec res w r Hr). unfold pg_ok in Hok.
  replace (negb (pr_status r =? kPgCommandOk) && negb (pr_status r =? kPgTuplesOk)) with true by (destruct (pr_status r =? kPgCommandOk), (pr_status r =? kPgTuplesOk); done).
  by eexists.
Qed.

(** The error of a call on the connection, or of a wait for its socket. *)
Definition pg_failure (conn : C) (e : exn) : Prop :=
  (exists s n ps w m, e = pg_error (-1) m /\ fst (send_query_params conn s n ps w) <> 1) \/
  (exists w m, e = pg_error (fst (pg_flush conn w)) m /\ fst (pg_flush conn w) <> 0 /\ fst (pg_flush conn w) <> 1) \/
  (exists w m, e = pg_error (-1) m /\ fst (consume_input conn w) <> 1) \/
  (exists w res bad m, e = pg_error (pr_status bad) m /\ fst (get_result conn w) = Some res /\
     res_view res (snd (get_result conn w)) = Some bad /\ pg_ok bad = false) \/
  (exists w, e = pg_invalid_socket /\ pg_socket conn w < 0) \/
  (exists rd wr sock w, fst (poll_events rd wr sock w) = Throw e).

Lemma bad_result_fails conn out w res w' fuel (c : option C) :
  get_result conn w = (Some res, w') -> bad_result res_view res w' ->
  exists e w2, pg_results (S fuel) conn out (c, w) = (Throw e, (c, w2)) /\ pg_failure conn e.
Proof.
  intros E (bad & Hr & Hbad). destruct (parse_result_bad out res w' bad c Hr Hbad) as (m & Em).
  simpl. unfold co_bind, lib_call, co_finally. simpl. rewrite E, Em. eexists _, _. split; [done|].
  do 3 right; left. exists w, res, bad, m. rewrite E. done.
Qed.

(** One round of the loop over the results. *)
Lemma pg_results_ok conn rs fuel out w (c : option C) :
  pg_view conn w = Some (PgActive rs) -> Forall (fun r => pg_ok r = true) rs -> (length rs < fuel)%nat ->
  exists res w', pg_results fuel conn out (c, w) = (res, (c, w')) /\
    match res with
    | Ok o => o = fold_left absorb rs out /\ pg_view conn w' = Some PgIdle
    | Throw e => pg_failure conn e
    | OutOfFuel => False
    end.
Proof.
  revert fuel out w. induction rs as [|r rs IH]; intros fuel out w Hv Hok Hf; destruct fuel as [|fuel]; simpl in Hf; try lia.
  - destruct (get_result_none conn w Hv) as ([res|] & w' & E & Hv').
    + destruct (bad_result_fails conn out w res w' fuel c E Hv') as (e & w2 & -> & He). by exists (Throw e), w2.
    + exists (Ok out), w'. simpl. unfold co_bind, lib_call. simpl. by rewrite E.
  - apply Forall_cons in Hok as [Hok1 Hok]. destruct (get_result_some conn w r rs Hv) as (res & w1 & E & [[Hv1 Hr]|Hbad]).
    + simpl. unfold co_bind at 1, lib_call. simpl. rewrite E. unfold co_bind, co_finally. rewrite (parse_result_ok out res w1 r c Hr Hok1). simpl.
      apply IH; [by apply clear_spec | done | lia].
    + destruct (bad_result_fails conn out w res w1 fuel c E Hbad) as (e & w2 & -> & He). by exists (Throw e), w2.
Qed.

(** The results before the first bad one are taken, those behind it stay. *)
Lemma pg_results_bad conn pre bad post fuel out w (c : option C) :
  pg_view conn w = Some (PgActive (pre ++ bad :: post)) -> Forall (fun r => pg_ok r = true) pre -> pg_ok bad = false -> (length pre < fuel)%nat ->
  exists e w', pg_results fuel conn out (c, w) = (Throw e, (c, w')) /\
    ((exists m, e = pg_error (pr_status bad) m /\ pg_view conn w' = Some (PgActive post)) \/ pg_failure conn e).
Proof.
  revert fuel out w. induction pre as [|r pre IH]; intros fuel out w Hv Hok Hbad Hf; destruct fuel as [|fuel]; cbn [length] in Hf; try lia.
  - destruct (get_result_some conn w bad post Hv) as (res & w1 & E & [[Hv1 Hr]|Hlost]).
    + destruct (parse_result_bad out res w1 bad c Hr Hbad) as (m & Em).
      simpl. unfold co_bind, lib_call, co_finally. simpl. rewrite E, Em. eexists _, _. split; [done|]. left. exists m. split; [done|]. by apply clear_spec.
    + destruct (bad_result_fails conn out w res w1 fuel c E Hlost) as (e & w2 & -> & He). exists e, w2. auto.
  - apply Forall_cons in Hok as [Hok1 Hok]. destruct (get_result_some conn w r (pre ++ bad :: post) Hv) as (res & w1 & E & [[Hv1 Hr]|Hlost]).
    + simpl. unfold co_bind at 1, lib_call. simpl. rewrite E. unfold co_bind, co_finally. rewrite (parse_result_ok out res w1 r c Hr Hok1). simpl.
      apply IH; [by apply clear_spec | done | done | lia].
    + destruct (bad_result_fails conn out w res w1 fuel c E Hlost) as (e & w2 & -> & He). exists e, w2. auto.
Qed.

Lemma pg_flush_loop_ok conn st fuel w (c : option C) :
  pg_view conn w = Some st -> (unsent conn w < fuel)%nat ->
  exists res w', pg_flush_loop fuel conn (c, w) = (res, (c, w')) /\
    match res with Ok _ => pg_view conn w' = Some st | Throw e => pg_failure conn e | OutOfFuel => False end.
Proof.
  revert w. induction fuel as [|fuel IH]; intros w Hv Hf; [lia|]. simpl. unfold co_bind at 1, lib_call. simpl.
  destruct (pg_flush conn w) as [rc w1] eqn:E. destruct (flush_spec conn w st rc w1 Hv E) as [Hz Hone]. simpl.
  destruct (Z.eqb_spec rc 0) as [E0|E0]; [exists (Ok tt), w1; auto|].
  destruct (Z.eqb_spec rc 1) as [E1|E1]; cycle 1.
  { eexists _, _. split; [done|]. simpl. right; left. exists w. eexists. rewrite E. done. }
  unfold co_bind at 1, lib_read, co_get. simpl. destruct (Z.ltb_spec (pg_socket conn w1) 0) as [Hs|Hs].
  { eexists _, _. split; [done|]. do 4 right; left. by exists w1. }
  pose proof (Hone E1) as Hp. unfold co_bind, lib_await. simpl. pose proof (poll_returns false true (pg_socket conn w1) w1) as Hret.
  destruct (poll_events false true (pg_socket conn w1) w1) as [[[]|e|] w2] eqn:Ep; simpl in *; [| |done].
  - destruct (Hp w2 eq_refl) as [Hv2 Hn]. apply IH; [done | lia].
  - eexists _, _. split; [done|]. do 5 right. exists false, true, (pg_socket conn w1), w1. by rewrite Ep.
Qed.

Lemma pg_connect_loop_ends conn fuel w (c : option C) :
  pg_view conn w = Some PgConnecting -> (handshake conn w < fuel)%nat ->
  exists res x, pg_connect_loop fuel conn (c, w) = (res, x) /\
    match res with Ok _ => fst x = c /\ pg_view conn (snd x) = Some PgIdle | Throw _ => True | OutOfFuel => False end.
Proof.
  revert w. induction fuel as [|fuel IH]; intros w Hv Hf; [lia|]. simpl. unfold co_bind at 1, lib_call. simpl.
  destruct (connect_poll conn w) as [st w1] eqn:E. destruct (connect_poll_spec conn w st w1 Hv E) as (Hz & Hp & Hy). simpl.
  assert (forall (wait : W -> result unit * W), (forall w2, wait w1 = (Ok tt, w2) -> pg_view conn w2 = Some PgConnecting /\ (handshake conn w2 < handshake conn w)%nat) ->
    fst (wait w1) <> OutOfFuel -> exists res x, (lib_await wait;;; pg_connect_loop fuel conn) (c, w1) = (res, x) /\
    match res with Ok _ => fst x = c /\ pg_view conn (snd x) = Some PgIdle | Throw _ => True | OutOfFuel => False end) as Hwait.
  { intros wait Hok Hret. unfold co_bind, lib_await. simpl. destruct (wait w1) as [[[]|e|] w2] eqn:Ew; simpl in *; [| |done].
    - destruct (Hok w2 eq_refl) as [Hv2 Hn]. apply IH; [done | lia].
    - by eexists _, _. }
  destruct (Z.eqb_spec st kPgPollingOk) as [E0|E0]; [eexists _, _; split; [done|]; simpl; auto|].
  assert (forall e x, exists (res : result unit) y, (pg_close;;; (fun x => (Throw e, x))) (x : Pg) = (res, y) /\
    match res with Ok _ => fst y = c /\ pg_view conn (snd y) = Some PgIdle | Throw _ => True | OutOfFuel => False end) as Hclose.
  { intros e x. unfold co_bind, pg_close. destruct (fst x); by eexists _, _. }
  destruct (Z.eqb_spec st kPgPollingFailed) as [Ef|Ef]; [unfold co_bind at 1, lib_read, co_get; simpl|].
  { unfold co_bind, pg_close, pg_fail. simpl. destruct c; by eexists _, _. }
  unfold co_bind at 1, lib_read, co_get. simpl. destruct (Z.ltb_spec (pg_socket conn w1) 0) as [Hs|Hs]; [apply Hclose|].
  destruct (Z.eqb_spec st kPgPollingReading) as [Er|Er]; [|destruct (Z.eqb_spec st kPgPollingWriting) as [Ew|Ew]; [|destruct (Z.eqb_spec st kPgPollingActive) as [Ea|Ea]; [|apply Hclose]]];
    apply Hwait; first [apply Hp; by auto | by apply Hy | apply poll_returns | apply yield_returns].
Qed.

(** A command that was sent is flushed and read in one round. *)
Lemma pg_read_round conn rs w (c : option C) rounds fuel out :
  pg_view conn w = Some (PgActive rs) -> Forall (fun r => pg_ok r = true) rs -> (length rs < fuel)%nat ->
  exists res w', pg_read_loop (S rounds) fuel conn out (c, w) = (res, (c, w')) /\
    match res with
    | Ok o => o = fold_left absorb rs out /\ pg_view conn w' = Some PgIdle
    | Throw e => pg_failure conn e
    | OutOfFuel => False
    end.
Proof.
  intros Hv Hok Hf. simpl. unfold co_bind at 1, lib_call at 1. simpl. destruct (consume_input conn w) as [rc w1] eqn:E. simpl.
  destruct (Z.eqb_spec rc 1) as [E1|E1]; simpl; cycle 1.
  { eexists _, _. split; [done|]. simpl. do 2 right; left. exists w. eexists. by rewrite E. }
  subst rc. pose proof (consume_spec conn w _ w1 Hv E) as Hv1.
  destruct (pg_results_ok conn rs fuel out w1 c Hv1 Hok Hf) as (res & w2 & E2 & Hres).
  destruct res as [o|e|]; [|exists (Throw e), w2; by rewrite (co_bind_throw _ _ _ _ _ E2) | done].
  destruct Hres as [-> Hv2]. rewrite (co_bind_ok _ _ _ _ _ E2). unfold co_bind at 1, lib_read at 1, co_get at 1. simpl.
  rewrite (is_busy_idle conn w2 Hv2). by eexists (Ok _), _.
Qed.

(** The part of a query up to the results. *)
Lemma pg_query_run conn w rs sql params :
  pg_view conn w = Some PgIdle -> size_of params < 2 ^ 31 -> pg_answer (c_string sql) (map pg_param params) (pg_data w) = rs ->
  exists rounds0, forall rounds fuel, (rounds0 <= rounds)%nat ->
    (exists e w', pg_query rounds fuel sql params (Some conn, w) = (Throw e, (Some conn, w')) /\ pg_failure conn e) \/
    (exists w1 n, pg_view conn w1 = Some (PgActive rs) /\ rounds = S n /\
      pg_query rounds fuel sql params (Some conn, w) = pg_read_loop rounds fuel conn empty_result (Some conn, w1)).
Proof.
  intros Hv Hsz Ha. unfold pg_query. cbn [fst]. unfold pg_query_on. set (n := to_int (size_of params)).
  assert (n = size_of (map pg_param params)) as Hn.
  { unfold n. rewrite to_int_small by (pose proof (size_of_nonneg params); lia). unfold size_of. by rewrite length_map. }
  destruct (send_query_params conn (c_string sql) n (map pg_param params) w) as [rc w1] eqn:E1.
  destruct (Z.eqb_spec rc 1) as [Hrc|Hrc]; cycle 1.
  { exists O. intros rounds fuel _. left. unfold co_bind at 1, lib_call at 1. cbn [fst snd]. rewrite E1. destruct (Z.eqb_spec rc 1); [done|]. simpl.
    eexists _, _. split; [done|]. left. exists (c_string sql), n, (map pg_param params), w. eexists. by rewrite E1. }
  subst rc. assert (0 <= n <= size_of (map pg_param params)) as Hrange by (rewrite Hn; pose proof (size_of_nonneg (map pg_param params)); lia).
  pose proof (send_idle conn _ n _ w w1 Hv Hrange E1) as Hv1.
  assert (take (Z.to_nat n) (map pg_param params) = map pg_param params) as Htake by (apply take_ge; rewrite Hn; unfold size_of; lia).
  rewrite Htake, Ha in Hv1. exists (S (unsent conn w1)). intros rounds fuel Hr. destruct rounds as [|rounds]; [lia|].
  destruct (pg_flush_loop_ok conn _ (S rounds) w1 (Some conn) Hv1) as (res & w2 & E2 & Hres); [lia|].
  unfold co_bind at 1 3, lib_call at 1 2. cbn [fst snd]. rewrite E1. cbn [negb Z.eqb Pos.eqb].
  destruct res as [[]|e|]; [|left; exists e, w2; by rewrite (co_bind_throw _ _ _ _ _ E2) | done].
  right. exists w2, rounds. by rewrite (co_bind_ok _ _ _ _ _ E2).
Qed.

(** After a query that the server refused the connection is still busy with
    it, and every later query on it fails, since nothing takes the remaining
    results. *)
Theorem pg_failed_query_poisons conn w pre bad post sql params :
  pg_view conn w = Some PgIdle -> size_of params < 2 ^ 31 -> pg_answer (c_string sql) (map pg_param params) (pg_data w) = pre ++ bad :: post ->
  Forall (fun r => pg_ok r = true) pre -> pg_ok bad = false ->
  exists rounds0, forall rounds fuel, (rounds0 <= rounds)%nat -> (length pre < fuel)%nat ->
    exists e w1, pg_query rounds fuel sql params (Some conn, w) = (Throw e, (Some conn, w1)) /\
      ((exists m, e = pg_error (pr_status bad) m /\ forall rounds' fuel' sql' params', exists m' w2,
          pg_query rounds' fuel' sql' params' (Some conn, w1) = (Throw (pg_error (-1) m'), (Some conn, w2)) /\ pg_view conn w2 = Some (PgActive post)) \/
       pg_failure conn e).
Proof.
  intros Hv Hsz Ha Hok Hbad. destruct (pg_query_run conn w _ sql params Hv Hsz Ha) as (r0 & Hrun). exists r0. intros rounds fuel Hr Hf.
  destruct (Hrun rounds fuel Hr) as [(e & w1 & -> & He)|(w1 & n & Hv1 & -> & ->)]; [exists e, w1; auto|].
  simpl. unfold co_bind at 1, lib_call at 1. simpl. destruct (consume_input conn w1) as [rc w2] eqn:E. simpl.
  destruct (Z.eqb_spec rc 1) as [E1|E1]; simpl; cycle 1.
  { eexists _, _. split; [done|]. right. do 2 right; left. exists w1. eexists. by rewrite E. }
  subst rc. pose proof (consume_spec conn w1 _ w2 Hv1 E) as Hv2.
  destruct (pg_results_bad conn pre bad post fuel empty_result w2 (Some conn) Hv2 Hok Hbad Hf) as (e & w3 & E3 & He).
  exists e, w3. rewrite (co_bind_throw _ _ _ _ _ E3). split; [done|]. destruct He as [(m & -> & Hv3)|He]; [left | by right].
  exists m. split; [done|]. intros rounds' fuel' sql' params'.
  destruct (send_active conn (c_string sql') (to_int (size_of params')) (map pg_param params') w3 post Hv3) as (w4 & E4 & Hv4).
  unfold pg_query, pg_query_on, co_bind, lib_call. simpl. rewrite E4. simpl. eexists _, _. by split.
Qed.

(** Reading the answer takes one round of the loop: the driver does not wait
    for its socket, [PQgetResult] has waited in its place. *)
Theorem pg_answer_read_in_one_round conn rs w (c : option C) fuel out :
  pg_view conn w = Some (PgActive rs) -> Forall (fun r => pg_ok r = true) rs -> (length rs < fuel)%nat ->
  fst (pg_read_loop 1 fuel conn out (c, w)) <> OutOfFuel.
Proof. intros Hv Hok Hf. destruct (pg_read_round conn rs w c 0 fuel out Hv Hok Hf) as ([o|e|] & w1 & -> & Hres); done. Qed.
End PgQueries.

(** Connecting ends: with one call of [PQconnectPoll] more than the handshake
    has waits, the driver holds an idle connection, or has thrown; and it
    holds nothing else. *)
Theorem pg_connect_completes {W C R D Hd} `{PgSpec W C R D} `{!Handles W Hd, !PgLive W C R Hd, !WaitLive W Hd} info x others (conn : C) w1 :
  holds (pg_conn_handle (C := C)) [] others x ->
  connect_start (c_string (conninfo (conninfo_pairs info))) (snd (snd (pg_close x))) = (Some conn, w1) ->
  forall fuel, (handshake conn w1 < fuel)%nat ->
  exists res y, pg_connect fuel info x = (res, y) /\ holds (pg_conn_handle (C := C)) [] others y /\
    match res with Ok _ => fst y = Some conn /\ pg_view conn (snd y) = Some PgIdle | Throw _ => True | OutOfFuel => False end.
Proof.
  intros Hx Hs fuel Hf. pose proof (pg_connect_inv others fuel info x Hx) as Hi. revert Hi.
  assert (pg_connect fuel info x = pg_handshake fuel conn (Some conn, w1)) as ->.
  { unfold pg_connect. rewrite (co_bind_ok _ _ _ _ _ (pg_close_none x)). unfold lib_call, co_bind at 1. simpl. by rewrite Hs. }
  intros Hi. exists (fst (pg_handshake fuel conn (Some conn, w1))), (snd (pg_handshake fuel conn (Some conn, w1))).
  split; [by destruct (pg_handshake _ _ _)|]. split; [exact Hi|]. clear Hi.
  unfold pg_handshake. destruct (pg_connect_loop_ends conn fuel w1 (Some conn) (connect_start_spec _ _ _ _ Hs) Hf) as (res & [c2 w2] & E & Hres).
  destruct res as [[]|e|]; [|by rewrite (co_bind_throw _ _ _ _ _ E) | done].
  destruct Hres as [Hc2 Hv]. simpl in Hc2, Hv. subst c2. rewrite (co_bind_ok _ _ _ _ _ E).
  unfold co_bind, lib_read, co_get, lib_call. simpl. destruct (pg_status conn w2 =? kPgConnOk); simpl; [|done].
  destruct (set_nonblocking conn 1 w2) as [rc w3] eqn:E3. simpl. destruct (Z.eqb_spec rc 0) as [->|Hrc]; simpl; [|done].
  split; [done|]. by eapply set_nonblocking_spec.
Qed.


(** The message of a failed connect is lost: [close] comes first, and without
    a connection there is no message to ask for. *)
Theorem pg_connect_message_lost {W C R} `{PgApi W C R, SocketWait W} info (x : option C * W) (conn : C) w1 w2 fuel :
  connect_start (c_string (conninfo (conninfo_pairs info))) (snd (snd (pg_close x))) = (Some conn, w1) ->
  connect_poll conn w1 = (kPgPollingFailed, w2) ->
  fst (pg_connect (S fuel) info x) = Throw (pg_error (pg_status conn w2) "pgsql connect failed"%bs).
Proof.
  intros Hs Hp. unfold pg_connect. assert (pg_close x = (Ok tt, (None, snd (snd (pg_close x))))) as Hc by (by destruct x as [[c|] w]).
  rewrite (co_bind_ok _ _ _ _ _ Hc). unfold lib_call, co_bind at 1. simpl. rewrite Hs. unfold co_bind at 1. unfold pg_handshake. simpl.
  unfold co_bind, lib_call. simpl. by rewrite Hp.
Qed.

(** ** A server that answers with the parameters

    Connecting and sending take the waits [pw_waits] says; the statement ["!"]
    is answered with an error and one more result. *)
Record PgWorld := mkPgWorld { pw_table : Table; pw_conns : gmap nat PgState; pw_res : gmap nat PgRes; pw_waits : nat }.
Definition pg_echo_answer (sql : bytes) (ps : list (option bytes)) (_ : unit) : list PgRes :=
  if decide (sql = "!"%bs) then [mkPgRes 7 [] [] []; mkPgRes kPgCommandOk [] [] []]
  else [mkPgRes kPgTuplesOk (map (fun _ => "c"%bs) ps) [ps] "1"%bs].
Definition pg_put (c : nat) (st : PgState) (w : PgWorld) : PgWorld := mkPgWorld (pw_table w) (<[c := st]> (pw_conns w)) (pw_res w) (pw_waits w).
Definition pg_echo_get_result (c : nat) (w : PgWorld) : option nat * PgWorld :=
  match pw_conns w !! c with
  | Some (PgActive (r :: rs)) =>
      let '(h, t) := tb_new (pw_table w) in (Some h, mkPgWorld t (<[c := PgActive rs]> (pw_conns w)) (<[h := r]> (pw_res w)) (pw_waits w))
  | Some (PgActive []) => (None, pg_put c PgIdle w)
  | _ => (None, w)
  end.

Definition pg_echo_cell (r : nat) (i j : Z) (w : PgWorld) : option (option bytes) :=
  match pw_res w !! r with
  | None => None
  | Some r => match pr_rows r !! Z.to_nat i with None => None | Some row => row !! Z.to_nat j end
  end.

#[export] Instance pg_echo_wait : SocketWait PgWorld := {|
  poll_events _ _ _ w := (Ok tt, mkPgWorld (pw_table w) (pw_conns w) (pw_res w) (Nat.pred (pw_waits w)));
  sleep_ms _ w := (Ok tt, w);
  yield_now w := (Ok tt, w)
|}.
#[export] Instance pg_echo_api : PgApi PgWorld nat nat := {|
  connect_start _ w := let '(h, t) := tb_new (pw_table w) in (Some h, mkPgWorld t (<[h := PgConnecting]> (pw_conns w)) (pw_res w) (pw_waits w));
  connect_poll c w := match pw_waits w with O => (kPgPollingOk, pg_put c PgIdle w) | S _ => (kPgPollingReading, w) end;
  pg_socket _ _ := 3;
  set_nonblocking _ _ w := (0, w);
  pg_status _ _ := kPgConnOk;
  error_message _ _ := None;
  pg_finish c w := mkPgWorld (tb_drop c (pw_table w)) (pw_conns w) (pw_res w) (pw_waits w);
  send_query_params c s n ps w := match pw_conns w !! c with Some PgIdle => (1, pg_put c (PgActive (pg_echo_answer s (take (Z.to_nat n) ps) tt)) w) | _ => (0, w) end;
  pg_flush _ w := match pw_waits w with O => (0, w) | S _ => (1, w) end;
  consume_input _ w := (1, w);
  is_busy c w := match pw_conns w !! c with Some (PgActive _) => 1 | _ => 0 end;
  get_result := pg_echo_get_result;
  result_status r w := match pw_res w !! r with Some r => pr_status r | None => 7 end;
  nfields r w := match pw_res w !! r with Some r => size_of (pr_names r) | None => 0 end;
  ntuples r w := match pw_res w !! r with Some r => size_of (pr_rows r) | None => 0 end;
  fname r i w := pw_res w !! r ≫= fun r => pr_names r !! Z.to_nat i;
  get_is_null r i j w := match pg_echo_cell r i j w with Some None => 1 | _ => 0 end;
  get_value r i j w := default None (pg_echo_cell r i j w);
  cmd_tuples r w := pr_tuples <$> pw_res w !! r;
  pg_clear r w := mkPgWorld (tb_drop r (pw_table w)) (pw_conns w) (pw_res w) (pw_waits w)
|}.
#[export] Instance pg_echo_handles : Handles PgWorld nat := fun w => tb_live (pw_table w).

#[export] Instance pg_echo_wait_live : WaitLive PgWorld nat.
Proof. by constructor. Qed.
#[export] Instance pg_echo_live : PgLive PgWorld nat nat nat.
Proof.
  unshelve econstructor; [exact id | exact id | ..].
  - intros s w. unfold acquires. reflexivity.
  - intros c w. simpl. by destruct (pw_waits w).
  - done.
  - intros c w Hc. by apply tb_drop_live.
  - intros c s n ps w. simpl. repeat case_match; done.
  - intros c w. simpl. by destruct (pw_waits w).
  - done.
  - intros c w. unfold acquires. cbn [get_result pg_echo_api]. unfold pg_echo_get_result, tb_new. repeat case_match; simplify_eq/=; reflexivity.
  - intros r w Hr. by apply tb_drop_live.
Defined.

(** The views keep to results of the right shape, which all answers have. *)
Definition pg_shaped (r : PgRes) : Prop := Forall (fun row => length row = length (pr_names r)) (pr_rows r).
#[export] Instance pg_shaped_dec r : Decision (pg_shaped r) := _.
Definition pg_echo_view (c : nat) (w : PgWorld) : option PgState :=
  match pw_conns w !! c with Some (PgActive rs) => if decide (Forall pg_shaped rs) then Some (PgActive rs) else None | st => st end.
Definition pg_echo_res (r : nat) (w : PgWorld) : option PgRes :=
  match pw_res w !! r with Some r => if decide (pg_shaped r) then Some r else None | None => None end.

Lemma pg_echo_shaped s ps d : Forall pg_shaped (pg_echo_answer s ps d).
Proof.
  unfold pg_echo_answer. case_decide; repeat (constructor; unfold pg_shaped; simpl); try done. by rewrite length_map.
Qed.
Lemma pg_echo_view_inv c w st : pg_echo_view c w = Some st -> pw_conns w !! c = Some st.
Proof. unfold pg_echo_view. intros. repeat case_match; simplify_eq; done. Qed.
Lemma pg_echo_view_active c w rs : pg_echo_view c w = Some (PgActive rs) -> pw_conns w !! c = Some (PgActive rs) /\ Forall pg_shaped rs.
Proof. unfold pg_echo_view. intros. repeat case_match; simplify_eq; done. Qed.
Lemma pg_echo_view_put c w st :
  match st with PgActive rs => Forall pg_shaped rs | _ => True end -> pw_conns w !! c = Some st -> pg_echo_view c w = Some st.
Proof. intros Hs Hc. unfold pg_echo_view. rewrite Hc. destruct st; try done. by rewrite decide_True. Qed.
Lemma pg_echo_res_inv r w x : pg_echo_res r w = Some x -> pw_res w !! r = Some x /\ pg_shaped x.
Proof. unfold pg_echo_res. intros. repeat case_match; simplify_eq; done. Qed.

#[export] Instance pg_echo_spec : PgSpec PgWorld nat nat unit.
Proof.
  unshelve econstructor;
    [exact (fun _ => tt) | exact pg_echo_view | exact pg_echo_res | exact pg_echo_answer | exact (fun _ => pw_waits) | exact (fun _ => pw_waits) | ..]; simpl.
  - intros s w c w' [= <- <-]. apply pg_echo_view_put; [done|]. simpl. by rewrite lookup_insert_eq.
  - intros c w st w' Hc E. destruct (pw_waits w) as [|n] eqn:En; injection E as <- <-.
    + split_and!; [|by intros [?|?] | done]. intros _. apply pg_echo_view_put; [done | simpl; by rewrite lookup_insert_eq].
    + split_and!; [done | | done]. intros _ rd wr w2 [= <-]. split; [done | simpl; rewrite En; simpl; lia].
  - intros c w w' Hc [= <-]. done.
  - intros c s n ps w w' Hc _ E. rewrite (pg_echo_view_inv _ _ _ Hc) in E. injection E as <-.
    apply pg_echo_view_put; [apply pg_echo_shaped | simpl; by rewrite lookup_insert_eq].
  - intros c s n ps w rs Hc. rewrite (pg_echo_view_inv _ _ _ Hc). by exists w.
  - intros c w st rc w' Hc E. destruct (pw_waits w) as [|n] eqn:En; injection E as <- <-; [by split|].
    split; [done|]. intros _ w2 [= <-]. split; [done | simpl; rewrite En; simpl; lia].
  - intros c w st w' Hc [= <-]. done.
  - intros c w r rs Hc. apply pg_echo_view_active in Hc as [Hc Hs]. apply Forall_cons in Hs as [Hr Hs]. unfold pg_echo_get_result. rewrite Hc.
    eexists _, _. split; [done|]. left. split; [apply pg_echo_view_put; [done | simpl; by rewrite lookup_insert_eq]|].
    unfold pg_echo_res. simpl. rewrite lookup_insert_eq. by rewrite decide_True.
  - intros c w Hc. unfold pg_echo_get_result. rewrite (pg_echo_view_inv _ _ _ Hc). eexists _, _. split; [done|]. simpl.
    apply pg_echo_view_put; [done | simpl; by rewrite lookup_insert_eq].
  - intros c w Hc. by rewrite (pg_echo_view_inv _ _ _ Hc).
  - done.
  - intros r w x Hr. apply pg_echo_res_inv in Hr as [-> _]. done.
  - intros r w x Hr. apply pg_echo_res_inv in Hr as [-> Hs]. done.
  - intros r w x i Hr. apply pg_echo_res_inv in Hr as [-> _]. simpl. by rewrite Nat2Z.id.
  - intros r w x i j row cell Hr Hrow Hcell. apply pg_echo_res_inv in Hr as [Hr _]. unfold pg_echo_cell.
    rewrite Hr, !Nat2Z.id, Hrow, Hcell. split; [by destruct cell | by intros t ->].
  - intros r w x Hr. apply pg_echo_res_inv in Hr as [-> _]. done.
  - done.
  - done.
Defined.

Definition pg_echo_world : PgWorld := mkPgWorld (mkTable 8 [7%nat]) {[7%nat := PgIdle]} ∅ 2.

Lemma pg_connect_completes_witness :
  fst (pg_connect 3 empty_info (None, mkPgWorld (mkTable 8 []) ∅ ∅ 2)) = Ok tt /\
  exists res y, pg_connect 3 empty_info (None, mkPgWorld (mkTable 8 []) ∅ ∅ 2) = (res, y) /\ holds (pg_conn_handle (C := nat)) [] [] y.
Proof.
  split; [vm_compute; reflexivity|].
  destruct (pg_connect_completes empty_info (None, mkPgWorld (mkTable 8 []) ∅ ∅ 2) [] 8%nat
    (snd (connect_start [] (mkPgWorld (mkTable 8 []) ∅ ∅ 2)))) with (fuel := 3%nat) as (res & y & E & Hy & _).
  - unfold holds, holding. reflexivity.
  - reflexivity.
  - simpl. lia.
  - exists res, y. by split.
Defined.


(** A query that the server refuses, and the next one. *)
Lemma pg_failed_query_poisons_witness :
  let x := snd (pg_query 3 2 "!"%bs [] (Some 7%nat, pg_echo_world)) in
  fst (pg_query 3 2 "!"%bs [] (Some 7%nat, pg_echo_world)) = Throw (pg_error 7 "pgsql query failed"%bs) /\
  fst (pg_query 3 2 "SELECT $1"%bs [VInt 5] x) = Throw (pg_error (-1) "pgsql send query failed"%bs).
Proof. vm_compute. by split. Qed.
