(* ===== verification/SqlMysql.v ===== *)
(** * The MySQL driver (sql.cpp)

    [MySqlDriver] over the nonblocking interface of the MariaDB client, which
    is a parameter ([MyApi]): an operation is started, and continued when the
    events it asks for have come.  [MyLive] says which calls open and close
    handles, [MySpec] that an operation ends after finitely many waits, with
    its answer.

    The theorems: on every way out the driver holds its connection and no
    result; a query without parameters ends and returns the rows of the
    answer; one with parameters is refused before anything is sent; and the
    columns of a result are named by their number, whatever their names are. *)

From S2P Require Import Prelude Coroutine CxxString Sql SqlLibrary.

Local Open Scope Z_scope.
Local Open Scope co_scope.

(** ** Constants *)

Definition kMysqlWaitRead : Z := 1.
Definition kMysqlWaitWrite : Z := 2.
Definition kMysqlWaitExcept : Z := 4.
Definition kMysqlWaitTimeout : Z := 8.
Definition kMysqlOptNonblock : Z := 6000.

(** ** The client library

    [start] and [cont] return a status, which is 0 when the operation is over,
    and the value of its result variable.  A row is an array of pointers. *)
Class MyApi (W C R : Type) := {
  my_init : W -> option C * W;
  my_options : C -> Z -> W -> Z * W;
  my_close : C -> W -> W;
  my_error : C -> W -> option bytes;
  my_errno : C -> W -> Z;
  my_field_count : C -> W -> Z;
  my_num_fields : R -> W -> Z;
  my_fetch_row : R -> W -> option (list (option bytes)) * W;
  my_fetch_lengths : R -> W -> option (list Z);
  my_free_result : R -> W -> W;
  my_affected_rows : C -> W -> Z;
  my_insert_id : C -> W -> Z;
  real_connect_start : C -> bytes -> option bytes -> option bytes -> option bytes -> Z -> W -> (Z * option C) * W;
  real_connect_cont : C -> Z -> W -> (Z * option C) * W;
  real_query_start : C -> bytes -> Z -> W -> (Z * Z) * W;
  real_query_cont : C -> Z -> W -> (Z * Z) * W;
  store_result_start : C -> W -> (Z * option R) * W;
  store_result_cont : C -> Z -> W -> (Z * option R) * W;
  my_get_socket : C -> W -> Z;
  my_get_timeout_value : option (C -> W -> Z)        (* may be missing *)
}.

(** [static_cast<std::int64_t>] of an unsigned value. *)
Definition to_int64 (z : Z) : Z := let r := z mod 2 ^ 64 in if r <? 2 ^ 63 then r else r - 2 ^ 64.

(** ** The driver *)
Section MySqlDriver.
Context {W C R : Type} `{MyApi W C R} `{SocketWait W}.

(** [_conn] and the library. *)
Definition My : Type := option C * W.

Definition mysql_close : Co My unit := fun x =>
  match fst x with
  | Some conn => (Ok tt, (None, my_close conn (snd x)))
  | None => (Ok tt, x)
  end.

Definition my_err (code : Z) (m : bytes) : exn := SqlError MySQL code m.

Definition has_bit (status bit : Z) : bool := negb (Z.land status bit =? 0).
Definition wait_status (conn : C) (status : Z) : Co My unit :=
  let except := has_bit status kMysqlWaitExcept in
  let need_read := has_bit status kMysqlWaitRead || except in
  let need_write := has_bit status kMysqlWaitWrite || except in
  let timeout := has_bit status kMysqlWaitTimeout in
  (if need_read || need_write then
     sock <- lib_read (my_get_socket conn);;
     if sock <? 0 then co_throw (my_err (-1) "corouv::sql mysql invalid socket"%bs)
     else lib_await (wait_socket_events sock need_read need_write)
   else co_ret tt);;;
  (if timeout then
     v <- lib_read (fun w => match my_get_timeout_value with Some f => f conn w | None => 0 end);;
     lib_await (sleep_ms (if 0 <? v then v else 1))
   else co_ret tt);;;
  if negb (need_read || need_write) && negb timeout then lib_await yield_now else co_ret tt.

(** [while (status != 0) { co_await wait_status; status = cont(status); }]:
    the value of the result variable at the end. *)
Fixpoint my_loop {A} (fuel : nat) (conn : C) (cont : Z -> W -> (Z * A) * W) (r : Z * A) : Co My A :=
  if fst r =? 0 then co_ret (snd r)
  else
    match fuel with
    | O => co_fuel
    | S fuel => wait_status conn (fst r);;; r <- lib_call (cont (fst r));; my_loop fuel conn cont r
    end.

(** The code and the text of an error, both read before anything is closed. *)
Definition my_failure (conn : C) (fallback : bytes) : Co My exn :=
  lib_read (fun w => my_err (to_int (my_errno conn w)) (match my_error conn w with Some err => trim_copy err | None => fallback end)).

Definition c_arg (s : bytes) : option bytes := match s with [] => None | _ => Some (c_string s) end.

(** What follows [init]. *)
Definition mysql_setup (fuel : nat) (conn : C) (info : ConnectionInfo) : Co My unit :=
  opt_rc <- lib_call (my_options conn kMysqlOptNonblock);;
  if negb (opt_rc =? 0) then
    e <- my_failure conn "mysql async option setup failed"%bs;;
    mysql_close;;; co_throw e
  else
    let host := match ci_host info with [] => "127.0.0.1"%bs | h => c_string h end in
    let port := if ci_port info =? 0 then 3306 else ci_port info in
    r <- lib_call (real_connect_start conn host (c_arg (ci_username info)) (c_arg (ci_password info)) (c_arg (ci_database info)) port);;
    connected <- my_loop fuel conn (real_connect_cont conn) r;;
    match connected with
    | Some _ => co_ret tt
    | None => e <- my_failure conn "mysql connect failed"%bs;; mysql_close;;; co_throw e
    end.

Definition mysql_connect (fuel : nat) (info : ConnectionInfo) : Co My unit :=
  mysql_close;;;
  c <- lib_call my_init;;
  match c with
  | None => co_throw (my_err (-1) "corouv::sql mysql init failed"%bs)
  | Some conn => (fun x => (Ok tt, (Some conn, snd x)));;; mysql_setup fuel conn info
  end.

(** [row[i]] with its length. *)
Definition my_cell (row : list (option bytes)) (lengths : option (list Z)) (i : Z) : Value :=
  match default None (row !! Z.to_nat i) with
  | None => VNull
  | Some p =>
      VString (match lengths with
               | Some ls => take (Z.to_nat (default 0 (ls !! Z.to_nat i))) p
               | None => c_string p
               end)
  end.

Fixpoint my_rows (fuel : nat) (res : R) (nfields : Z) (rows : list (list Value)) : Co My (list (list Value)) :=
  match fuel with
  | O => co_fuel
  | S fuel =>
      row <- lib_call (my_fetch_row res);;
      match row with
      | None => co_ret rows
      | Some row =>
          lengths <- lib_read (my_fetch_lengths res);;
          my_rows fuel res nfields (rows ++ [map (my_cell row lengths) (int_range nfields)])
      end
  end.

Definition my_column (i : Z) : bytes := "col"%bs ++ to_string i.

(** [FreeGuard] *)
Definition free_guard (res : R) (x : My) : My := (fst x, my_free_result res (snd x)).

(** The end of [query_async], with a result or without. *)
Definition my_read (fuel : nat) (conn : C) (res : option R) : Co My Result :=
  match res with
  | None =>
      n <- lib_read (my_field_count conn);;
      if negb (n =? 0) then e <- my_failure conn "mysql store_result failed"%bs;; co_throw e
      else lib_read (fun w => mkResult [] [] (to_int64 (my_affected_rows conn w)) (to_int64 (my_insert_id conn w)))
  | Some res =>
      co_finally
        (nfields <- lib_read (my_num_fields res);;
         rows <- my_rows fuel res nfields [];;
         lib_read (fun w => mkResult (map my_column (int_range nfields)) rows (to_int64 (my_affected_rows conn w)) (to_int64 (my_insert_id conn w))))
        (free_guard res)
  end.

Definition mysql_not_connected : exn := LogicError "corouv::sql mysql driver is not connected"%bs.
Definition mysql_no_params : exn := my_err (-1) "corouv::sql mysql parameter binding is not implemented"%bs.

(** Send the query; the first half of [query_async]. *)
Definition my_send (fuel : nat) (conn : C) (sql : bytes) : Co My unit :=
  r <- lib_call (real_query_start conn sql (size_of sql));;
  query_rc <- my_loop fuel conn (real_query_cont conn) r;;
  if negb (query_rc =? 0) then e <- my_failure conn "mysql query failed"%bs;; co_throw e else co_ret tt.

(** [store_result] and what is read from it. *)
Definition my_store (fuel : nat) (conn : C) : Co My Result :=
  r <- lib_call (store_result_start conn);;
  res <- my_loop fuel conn (store_result_cont conn) r;;
  my_read fuel conn res.

Definition mysql_query (fuel : nat) (sql : bytes) (params : Params) : Co My Result := fun x =>
  match fst x with
  | None => (Throw mysql_not_connected, x)
  | Some conn =>
      match params with
      | [] => (my_send fuel conn sql;;; my_store fuel conn) x
      | _ => (Throw mysql_no_params, x)
      end
  end.
End MySqlDriver.

(** ** Handles *)

(** A result is there when the operation is over. *)
Class MyLive (W C R Hd : Type) `{MyApi W C R, Handles W Hd} := {
  my_conn_handle : C -> Hd;
  my_res_handle : R -> Hd;
  my_init_live w : acquires (my_conn_handle <$> fst (my_init w)) w (snd (my_init w));
  my_options_live c n w : live (snd (my_options c n w)) ≡ₚ live w;
  my_close_live c w : releases (my_conn_handle c) w (my_close c w);
  my_fetch_live r w : live (snd (my_fetch_row r w)) ≡ₚ live w;
  my_free_live r w : releases (my_res_handle r) w (my_free_result r w);
  rc_start_live c h u p d n w : live (snd (real_connect_start c h u p d n w)) ≡ₚ live w;
  rc_cont_live c s w : live (snd (real_connect_cont c s w)) ≡ₚ live w;
  rq_start_live c q n w : live (snd (real_query_start c q n w)) ≡ₚ live w;
  rq_cont_live c s w : live (snd (real_query_cont c s w)) ≡ₚ live w;
  sr_start_live c w : acquires (my_res_handle <$> (let r := fst (store_result_start c w) in if fst r =? 0 then snd r else None)) w (snd (store_result_start c w));
  sr_cont_live c s w : acquires (my_res_handle <$> (let r := fst (store_result_cont c s w) in if fst r =? 0 then snd r else None)) w (snd (store_result_cont c s w))
}.

Section MyHandles.
Context {W C R Hd : Type} `{MyLive W C R Hd} `{!SocketWait W, !WaitLive W Hd}.
Abbreviation my_holds := (holds (C := C) my_conn_handle).

Lemma mysql_close_inv others : co_inv (my_holds [] others) mysql_close.
Proof.
  intros [[c|] w]; unfold holds; simpl; [|done]. intros Hx. eapply owns_release; [exact Hx | apply my_close_live].
Qed.
Lemma wait_events_live s r wr w : live (snd (wait_socket_events s r wr w)) ≡ₚ live w.
Proof. unfold wait_socket_events. case_match; [apply yield_live | apply poll_live]. Qed.
Lemma my_failure_inv mine others conn m : co_inv (my_holds mine others) (my_failure conn m).
Proof. apply co_inv_get. Qed.
Hint Resolve mysql_close_inv my_failure_inv my_options_live my_fetch_live rc_start_live rc_cont_live rq_start_live rq_cont_live
  wait_events_live sleep_live yield_live : co_inv.

Ltac my_quiet :=
  repeat first [ apply co_inv_bind; [|intros ?] | case_match | progress (auto with co_inv)
               | apply lib_call_inv; intros ? | apply lib_await_inv; intros ? ].

Lemma wait_status_inv mine others conn status : co_inv (my_holds mine others) (wait_status conn status).
Proof. unfold wait_status. my_quiet. Qed.
Hint Resolve wait_status_inv : co_inv.

Lemma my_loop_inv {A} mine others fuel conn (cont : Z -> W -> (Z * A) * W) r :
  (forall s w, live (snd (cont s w)) ≡ₚ live w) -> co_inv (my_holds mine others) (my_loop fuel conn cont r).
Proof. intros Hc. revert r. induction fuel as [|fuel IH]; intros r; simpl; my_quiet. Qed.

Lemma mysql_setup_inv others fuel conn info : co_inv (my_holds [] others) (mysql_setup fuel conn info).
Proof.
  unfold mysql_setup. apply co_inv_bind; [auto with co_inv | intros rc]. case_match; [my_quiet|].
  apply co_inv_bind; [auto with co_inv | intros r]. apply co_inv_bind; [apply my_loop_inv; auto with co_inv | intros connected]. my_quiet.
Qed.

Lemma mysql_close_none x : mysql_close x = (Ok tt, (None, snd (snd (mysql_close x)))).
Proof. by destruct x as [[c|] w]. Qed.

Lemma mysql_connect_inv others fuel info : co_inv (my_holds [] others) (mysql_connect fuel info).
Proof.
  intros x Hx. unfold mysql_connect. apply (mysql_close_inv others) in Hx. revert Hx.
  rewrite (co_bind_ok _ _ _ _ _ (mysql_close_none x)). rewrite (mysql_close_none x) at 1. simpl. generalize (snd (snd (mysql_close x))). intros w Hx.
  unfold lib_call, co_bind at 1. simpl. pose proof (my_init_live w) as Hs.
  destruct (my_init w) as [[conn|] w']; simpl in *; pose proof (owns_acquire _ _ _ _ _ Hx Hs) as Hw; [|done].
  by apply (mysql_setup_inv others fuel conn info (Some conn, w')).
Qed.

Lemma my_rows_inv mine others fuel res nfields rows : co_inv (my_holds mine others) (my_rows fuel res nfields rows).
Proof. revert rows. induction fuel as [|fuel IH]; intros rows; simpl; my_quiet. Qed.

(** The result, when it is there, is held until the guard frees it. *)
Lemma my_read_inv others fuel conn res x :
  my_holds (option_list (my_res_handle <$> res)) others x -> my_holds [] others (snd (my_read fuel conn res x)).
Proof.
  destruct res as [res|]; simpl.
  - intros Hx. apply (co_inv_finally _ (my_holds [my_res_handle res] others)); [done | |].
    + apply co_inv_bind; [auto with co_inv | intros n]. apply co_inv_bind; [apply my_rows_inv | intros rows]. auto with co_inv.
    + intros [c w] Hy. unfold holds, free_guard in *. simpl in *. eapply owns_release; [|apply my_free_live].
      eapply owns_perm; [|exact Hy]. rewrite app_nil_r. solve_Permutation.
  - revert x. change (co_inv (my_holds [] others) (my_read fuel conn None)). unfold my_read. my_quiet.
Qed.

Definition done_result (r : Z * option R) : option R := if fst r =? 0 then snd r else None.

Lemma holds_acquire others h (c : option C) w w' :
  my_holds [] others (c, w) -> acquires h w w' -> my_holds (option_list h) others (c, w').
Proof.
  unfold holds. simpl. intros Hx Ha. eapply owns_perm; [|eapply owns_acquire; [exact Hx | exact Ha]]. rewrite app_nil_r. solve_Permutation.
Qed.

Lemma my_store_loop_inv others fuel fuel' conn r x :
  my_holds (option_list (my_res_handle <$> done_result r)) others x ->
  my_holds [] others (snd ((res <- my_loop fuel conn (store_result_cont conn) r;; my_read fuel' conn res) x)).
Proof.
  revert r x. induction fuel as [|fuel IH]; intros r x Hx; simpl; unfold done_result in Hx.
  - unfold co_bind at 1. destruct (fst r =? 0); simpl in *; [by apply my_read_inv | done].
  - destruct (fst r =? 0); [by apply my_read_inv|]. simpl in Hx. apply (wait_status_inv [] others conn (fst r)) in Hx. revert Hx.
    unfold co_bind at 1 2. destruct (wait_status conn (fst r) x) as [[[]|e|] [c w]]; simpl; intros Hx; try done.
    unfold co_bind at 1, lib_call. simpl. pose proof (sr_cont_live conn (fst r) w) as Hs. destruct (store_result_cont conn (fst r) w) as [r' w'].
    apply IH. by eapply holds_acquire.
Qed.

Lemma mysql_query_inv others fuel sql params : co_inv (my_holds [] others) (mysql_query fuel sql params).
Proof.
  intros [[c|] w] Hx; [|done]. unfold mysql_query. simpl. destruct params as [|p params]; [|done].
  assert (co_inv (my_holds [] others) (my_send fuel c sql)) as Hsend.
  { unfold my_send. apply co_inv_bind; [auto with co_inv | intros r]. apply co_inv_bind; [apply my_loop_inv; auto with co_inv | intros rc]. my_quiet. }
  apply Hsend in Hx. revert Hx. unfold co_bind. destruct (my_send fuel c sql (Some c, w)) as [[[]|e|] [c' w']]; simpl; intros Hx; try done.
  unfold my_store, co_bind at 1, lib_call. simpl. pose proof (sr_start_live c w') as Hs. destruct (store_result_start c w') as [r w2].
  apply my_store_loop_inv. by eapply holds_acquire.
Qed.
End MyHandles.

(** ** What the library documents *)

(** The answer to a statement: names and rows, if it has any, and the two
    counters. *)
Record MyAnswer := mkMyAnswer { ma_rows : option (list bytes * list (list (option bytes))); ma_affected : Z; ma_id : Z }.
Inductive MyOp := OpQuery | OpStore.
(** A connection is idle, in the middle of an operation, has an answer that
    was not stored, or one that was. *)
Inductive MyState := MyIdle | MyBusy (op : MyOp) (a : MyAnswer) | MyAnswered (a : MyAnswer) | MyStored (a : MyAnswer).

(** [my_left] counts the waits an operation still needs. *)
Class MySpec (W C R D : Type) `{MyApi W C R, SocketWait W} := {
  my_data : W -> D;
  my_view : C -> W -> option MyState;
  my_left : C -> W -> nat;
  my_res_view : R -> W -> option (list (list (option bytes)));
  my_answer : bytes -> D -> MyAnswer;
  stored_as : MyAnswer -> option R -> W -> C -> Prop;
  my_socket_ok c w op a : my_view c w = Some (MyBusy op a) -> 0 <= my_get_socket c w;
  my_poll_ok c r wr s w : exists w', poll_events r wr s w = (Ok tt, w') /\ my_view c w' = my_view c w /\ my_left c w' = my_left c w;
  my_sleep_ok c n w : exists w', sleep_ms n w = (Ok tt, w') /\ my_view c w' = my_view c w /\ my_left c w' = my_left c w;
  my_yield_ok c w : exists w', yield_now w = (Ok tt, w') /\ my_view c w' = my_view c w /\ my_left c w' = my_left c w;
  query_start_spec c sql w : my_view c w = Some MyIdle ->
    exists st rc w', real_query_start c sql (size_of sql) w = ((st, rc), w') /\
      ((st = 0 /\ rc = 0 /\ my_view c w' = Some (MyAnswered (my_answer sql (my_data w)))) \/
       (st <> 0 /\ my_view c w' = Some (MyBusy OpQuery (my_answer sql (my_data w)))));
  query_cont_spec c s w a : my_view c w = Some (MyBusy OpQuery a) ->
    exists st rc w', real_query_cont c s w = ((st, rc), w') /\
      ((st = 0 /\ rc = 0 /\ my_view c w' = Some (MyAnswered a)) \/
       (st <> 0 /\ my_view c w' = Some (MyBusy OpQuery a) /\ (my_left c w' < my_left c w)%nat));
  store_start_spec c w a : my_view c w = Some (MyAnswered a) ->
    exists st res w', store_result_start c w = ((st, res), w') /\
      ((st = 0 /\ my_view c w' = Some (MyStored a) /\ stored_as a res w' c) \/ (st <> 0 /\ my_view c w' = Some (MyBusy OpStore a)));
  store_cont_spec c s w a : my_view c w = Some (MyBusy OpStore a) ->
    exists st res w', store_result_cont c s w = ((st, res), w') /\
      ((st = 0 /\ my_view c w' = Some (MyStored a) /\ stored_as a res w' c) \/
       (st <> 0 /\ my_view c w' = Some (MyBusy OpStore a) /\ (my_left c w' < my_left c w)%nat));
  stored_none a res w c : stored_as a res w c -> ma_rows a = None -> res = None /\ my_field_count c w = 0;
  stored_some a res w c names rows : stored_as a res w c -> ma_rows a = Some (names, rows) ->
    exists r, res = Some r /\ my_num_fields r w = size_of names /\ my_res_view r w = Some rows;
  fetch_some c st r w row rows : my_view c w = Some st -> my_res_view r w = Some (row :: rows) ->
    exists w', my_fetch_row r w = (Some row, w') /\ my_res_view r w' = Some rows /\ my_view c w' = Some st /\
      my_fetch_lengths r w' = Some (map (fun cell => match cell with Some b => size_of b | None => 0 end) row);
  fetch_none c st r w : my_view c w = Some st -> my_res_view r w = Some [] ->
    exists w', my_fetch_row r w = (None, w') /\ my_view c w' = Some st;
  counters c w a : my_view c w = Some (MyStored a) -> my_affected_rows c w = ma_affected a /\ my_insert_id c w = ma_id a
}.

Definition my_decode (cell : option bytes) : Value := match cell with None => VNull | Some t => VString t end.

Section MyQueries.
Context {W C R D : Type} `{MySpec W C R D}.

(** Waiting ends, and changes nothing the connection sees. *)
Lemma lib_await_ok (f : W -> result unit * W) conn (x : option C) w :
  (exists w', f w = (Ok tt, w') /\ my_view conn w' = my_view conn w /\ my_left conn w' = my_left conn w) ->
  exists w', lib_await f (x, w) = (Ok tt, (x, w')) /\ my_view conn w' = my_view conn w /\ my_left conn w' = my_left conn w.
Proof. intros (w' & E & Hv). exists w'. unfold lib_await. simpl. by rewrite E. Qed.

Lemma wait_status_ok conn status (x : option C) w op a :
  my_view conn w = Some (MyBusy op a) ->
  exists w', wait_status conn status (x, w) = (Ok tt, (x, w')) /\ my_view conn w' = my_view conn w /\ my_left conn w' = my_left conn w.
Proof.
  intros Hv. unfold wait_status.
  set (rd := has_bit status kMysqlWaitRead || has_bit status kMysqlWaitExcept). set (wr := has_bit status kMysqlWaitWrite || has_bit status kMysqlWaitExcept).
  set (tm := has_bit status kMysqlWaitTimeout).
  assert (exists w1, (if rd || wr then sock <- lib_read (my_get_socket conn);;
      if sock <? 0 then co_throw (my_err (-1) "corouv::sql mysql invalid socket"%bs) else lib_await (wait_socket_events sock rd wr) else co_ret tt) (x, w) = (Ok tt, (x, w1)) /\
      my_view conn w1 = my_view conn w /\ my_left conn w1 = my_left conn w) as (w1 & E1 & Hv1 & Hl1).
  { destruct (rd || wr) eqn:Eb; [|by exists w]. unfold co_bind, lib_read, co_get. simpl. pose proof (my_socket_ok conn w op a Hv).
    destruct (Z.ltb_spec (my_get_socket conn w) 0); [lia|]. apply lib_await_ok. unfold wait_socket_events.
    replace (negb rd && negb wr) with false by (destruct rd, wr; done). apply my_poll_ok. }
  rewrite (co_bind_ok _ _ _ _ _ E1).
  assert (exists w2, (if tm then v <- lib_read (fun w => match my_get_timeout_value with Some f => f conn w | None => 0 end);; lib_await (sleep_ms (if 0 <? v then v else 1)) else co_ret tt) (x, w1) = (Ok tt, (x, w2)) /\
      my_view conn w2 = my_view conn w /\ my_left conn w2 = my_left conn w) as (w2 & E2 & Hv2 & Hl2).
  { destruct tm; [|by exists w1]. unfold co_bind, lib_read, co_get. simpl. rewrite <- Hv1, <- Hl1. apply lib_await_ok, my_sleep_ok. }
  rewrite (co_bind_ok _ _ _ _ _ E2). destruct (negb (rd || wr) && negb tm); [|by exists w2]. rewrite <- Hv2, <- Hl2. apply lib_await_ok, my_yield_ok.
Qed.

(** An operation that ends after finitely many waits: [Fin] is what holds at
    its end. *)
Lemma my_loop_ok {A} conn (cont : Z -> W -> (Z * A) * W) op a (Fin : A -> W -> Prop) (x : option C) :
  (forall s w, my_view conn w = Some (MyBusy op a) -> exists st v w', cont s w = ((st, v), w') /\
     ((st = 0 /\ Fin v w') \/ (st <> 0 /\ my_view conn w' = Some (MyBusy op a) /\ (my_left conn w' < my_left conn w)%nat))) ->
  forall n st v w, (st = 0 /\ Fin v w) \/ (st <> 0 /\ my_view conn w = Some (MyBusy op a)) -> (my_left conn w < n)%nat ->
  exists v' w', Fin v' w' /\ forall fuel, (n <= fuel)%nat -> my_loop fuel conn cont (st, v) (x, w) = (Ok v', (x, w')).
Proof.
  intros Hcont n. induction n as [|n IH]; intros st v w Hr Hn; [lia|].
  destruct Hr as [[-> HF]|[Hst Hv]]; [exists v, w; split; [done | by intros [|fuel] _]|].
  destruct (wait_status_ok conn st x w op a Hv) as (w1 & E1 & Hv1 & Hl1). rewrite Hv in Hv1.
  destruct (Hcont st w1 Hv1) as (st' & v' & w2 & E2 & Hr).
  assert (exists v2 w3, Fin v2 w3 /\ forall fuel, (n <= fuel)%nat -> my_loop fuel conn cont (st', v') (x, w2) = (Ok v2, (x, w3))) as (v2 & w3 & HF & Hrun).
  { destruct Hr as [[-> HF]|(Hst' & Hv2 & Hl2)]; [exists v', w2; split; [done | by intros [|fuel] _]|]. apply IH; [by right | lia]. }
  exists v2, w3. split; [done|]. intros [|fuel] Hfuel; [lia|]. simpl. destruct (Z.eqb_spec st 0) as [|_]; [done|].
  rewrite (co_bind_ok _ _ _ _ _ E1). unfold co_bind, lib_call. simpl. rewrite E2. apply Hrun. lia.
Qed.

Lemma my_row_ok row (names : list bytes) :
  length row = length names ->
  map (my_cell row (Some (map (fun cell => match cell with Some b => size_of b | None => 0 end) row))) (int_range (size_of names)) = map my_decode row.
Proof.
  intros Hl. unfold size_of at 2. rewrite <- Hl. apply (int_range_spec row). intros i cell Hc. unfold my_cell.
  rewrite Nat2Z.id, Hc. simpl. destruct cell as [t|]; simpl; [|done]. rewrite list_lookup_fmap, Hc. simpl. f_equal.
  unfold size_of. rewrite Nat2Z.id. apply firstn_all.
Qed.

Lemma my_rows_ok conn st r rows (names : list bytes) fuel out w (x : option C) :
  my_view conn w = Some st -> my_res_view r w = Some rows -> Forall (fun row => length row = length names) rows -> (length rows < fuel)%nat ->
  exists w', my_rows fuel r (size_of names) out (x, w) = (Ok (out ++ map (map my_decode) rows), (x, w')) /\ my_view conn w' = Some st.
Proof.
  revert fuel out w. induction rows as [|row rows IH]; intros fuel out w Hv Hr Hs Hf; destruct fuel as [|fuel]; simpl in Hf; try lia; simpl.
  - destruct (fetch_none conn st r w Hv Hr) as (w' & E & Hv'). exists w'. unfold co_bind, lib_call. simpl. rewrite E. by rewrite app_nil_r.
  - apply Forall_cons in Hs as [Hs1 Hs]. destruct (fetch_some conn st r w row rows Hv Hr) as (w1 & E & Hr1 & Hv1 & Hl).
    unfold co_bind at 1, lib_call. simpl. rewrite E. unfold co_bind, lib_read, co_get. simpl. rewrite Hl, (my_row_ok row names Hs1).
    destruct (IH fuel (out ++ [map my_decode row]) w1) as (w2 & E2 & Hv2); [done | done | done | lia|]. exists w2. rewrite E2, <- app_assoc. done.
Qed.

Lemma my_read_ok conn a res w fuel (x : option C) :
  my_view conn w = Some (MyStored a) -> stored_as a res w conn ->
  (forall names rows, ma_rows a = Some (names, rows) -> Forall (fun row => length row = length names) rows /\ (length rows < fuel)%nat) ->
  exists w', my_read fuel conn res (x, w) =
    (Ok (mkResult (match ma_rows a with Some (names, _) => map my_column (int_range (size_of names)) | None => [] end)
           (match ma_rows a with Some (_, rows) => map (map my_decode) rows | None => [] end) (to_int64 (ma_affected a)) (to_int64 (ma_id a))), (x, w')).
Proof.
  intros Hv Hs Hf. destruct (ma_rows a) as [[names rows]|] eqn:Ea.
  - destruct (stored_some a res w conn names rows Hs Ea) as (r & -> & Hn & Hr). destruct (Hf names rows eq_refl) as [Hsh Hlen].
    destruct (my_rows_ok conn _ r rows names fuel [] w x Hv Hr Hsh Hlen) as (w1 & E & Hv1). destruct (counters conn w1 a Hv1) as [Haff Hid].
    eexists. unfold my_read, co_finally. unfold co_bind at 1, lib_read at 1, co_get at 1. simpl. rewrite Hn, (co_bind_ok _ _ _ _ _ E).
    unfold lib_read, co_get. simpl. by rewrite Haff, Hid.
  - destruct (stored_none a res w conn Hs Ea) as [-> Hn]. destruct (counters conn w a Hv) as [Haff Hid]. exists w.
    unfold my_read, co_bind, lib_read, co_get. simpl. rewrite Hn. simpl. by rewrite Haff, Hid.
Qed.
End MyQueries.

(** A statement without parameters ends, and returns the rows of its answer;
    afterwards the driver holds its connection and nothing else.  The columns
    are named by their number. *)
Theorem mysql_query_exact {W C R D Hd} `{MySpec W C R D} `{!Handles W Hd, !MyLive W C R Hd, !WaitLive W Hd} (conn : C) w sql others :
  my_view conn w = Some MyIdle ->
  (forall names rows, ma_rows (my_answer sql (my_data w)) = Some (names, rows) -> Forall (fun row => length row = length names) rows) ->
  holds (my_conn_handle (C := C)) [] others (Some conn, w) ->
  exists fuel0, forall fuel, (fuel0 <= fuel)%nat -> exists r x, mysql_query fuel sql [] (Some conn, w) = (Ok r, x) /\
    res_rows r = match ma_rows (my_answer sql (my_data w)) with Some (_, rows) => map (map my_decode) rows | None => [] end /\
    res_columns r = match ma_rows (my_answer sql (my_data w)) with Some (names, _) => map my_column (int_range (size_of names)) | None => [] end /\
    res_affected_rows r = to_int64 (ma_affected (my_answer sql (my_data w))) /\ res_last_insert_id r = to_int64 (ma_id (my_answer sql (my_data w))) /\
    fst x = Some conn /\ holds (my_conn_handle (C := C)) [] others x.
Proof.
  intros Hv Hsh Hx. set (a := my_answer sql (my_data w)) in *.
  destruct (query_start_spec conn sql w Hv) as (st & rc & w1 & E1 & Hr).
  destruct (my_loop_ok conn (real_query_cont conn) OpQuery a (fun rc w => rc = 0 /\ my_view conn w = Some (MyAnswered a)) (Some conn)
    (fun s w => query_cont_spec conn s w a) (S (my_left conn w1)) st rc w1) as (rc' & w2 & [-> Hv2] & Hq); [naive_solver | lia|].
  destruct (store_start_spec conn w2 a Hv2) as (st2 & res & w3 & E3 & Hr3).
  destruct (my_loop_ok conn (store_result_cont conn) OpStore a (fun res w => my_view conn w = Some (MyStored a) /\ stored_as a res w conn) (Some conn)
    (fun s w => store_cont_spec conn s w a) (S (my_left conn w3)) st2 res w3) as (res' & w4 & [Hv4 Hs4] & Hst); [naive_solver | lia|].
  exists (S (my_left conn w1) + S (my_left conn w3) + S (match ma_rows a with Some (_, rows) => length rows | None => 0 end))%nat. intros fuel Hfuel.
  pose proof (mysql_query_inv others fuel sql [] _ Hx) as Hi.
  destruct (my_read_ok conn a res' w4 fuel (Some conn) Hv4 Hs4) as (w5 & E5).
  { intros names rows Ea. split; [by apply (Hsh names)|]. rewrite Ea in Hfuel. lia. }
  assert (my_send fuel conn sql (Some conn, w) = (Ok tt, (Some conn, w2))) as Es.
  { unfold my_send, co_bind at 1, lib_call. simpl. rewrite E1, (co_bind_ok _ _ _ _ _ (Hq fuel ltac:(lia))). done. }
  assert (mysql_query fuel sql [] (Some conn, w) = my_read fuel conn res' (Some conn, w4)) as E.
  { unfold mysql_query. simpl. rewrite (co_bind_ok _ _ _ _ _ Es). unfold my_store, co_bind at 1, lib_call. simpl.
    rewrite E3, (co_bind_ok _ _ _ _ _ (Hst fuel ltac:(lia))). done. }
  rewrite E5 in E. rewrite E in Hi. eexists _, _. split_and!; [exact E | done | done | done | done | done | exact Hi].
Qed.

(** Parameters are refused before anything is sent: a statement with
    placeholders cannot be run on this backend. *)
Theorem mysql_params_refused {W C R} `{MyApi W C R, SocketWait W} fuel sql v params (conn : C) (w : W) :
  mysql_query fuel sql (v :: params) (Some conn, w) = (Throw mysql_no_params, (Some conn, w)).
Proof. done. Qed.

(** In a result of this backend a column is not found by its name, unless the
    name begins with [col]. *)
Theorem mysql_names_lost r row name n :
  res_columns r = map my_column (int_range n) -> (forall t, name <> "col"%bs ++ t) -> result_value r row name = None.
Proof.
  intros Hc Hn. unfold result_value, column_index. rewrite Hc. destruct (res_rows r !! row); [|done].
  assert (forall l k, index_from k (map my_column l) name = None) as Hix.
  { intros cs. induction cs as [|j cs IH]; intros k; [done|]. cbn [map index_from]. rewrite decide_False; [apply IH|]. intros Hj. by eapply Hn. }
  by rewrite Hix.
Qed.

(** ** A server with one table *)

(** Statements that begin with [S] have one row; an operation needs the waits
    that [mw_left] says.  A result has its number of columns, the row fetched
    last and the rows that are left. *)
Record MyWorld := mkMyWorld { mw_table : Table; mw_conns : gmap nat MyState; mw_res : gmap nat (Z * list (option bytes) * list (list (option bytes))); mw_left : nat }.
Definition my_echo_answer (sql : bytes) (_ : unit) : MyAnswer :=
  match sql with
  | "S"%char :: _ => mkMyAnswer (Some (["name"%bs; "age"%bs], [[Some sql; None]])) 1 0
  | _ => mkMyAnswer None 1 5
  end.
Definition my_put (c : nat) (st : MyState) (w : MyWorld) : MyWorld := mkMyWorld (mw_table w) (<[c := st]> (mw_conns w)) (mw_res w) (Nat.pred (mw_left w)).
Definition my_store_now (c : nat) (a : MyAnswer) (w : MyWorld) : (Z * option nat) * MyWorld :=
  match ma_rows a with
  | None => ((0, None), my_put c (MyStored a) w)
  | Some (names, rows) =>
      let '(h, tb) := tb_new (mw_table w) in
      ((0, Some h), mkMyWorld tb (<[c := MyStored a]> (mw_conns w)) (<[h := (size_of names, [], rows)]> (mw_res w)) (Nat.pred (mw_left w)))
  end.
Definition my_echo_query (c : nat) (a : MyAnswer) (w : MyWorld) : (Z * Z) * MyWorld :=
  match mw_left w with O => ((0, 0), my_put c (MyAnswered a) w) | S _ => ((kMysqlWaitRead, 0), my_put c (MyBusy OpQuery a) w) end.
Definition my_echo_store (c : nat) (a : MyAnswer) (w : MyWorld) : (Z * option nat) * MyWorld :=
  match mw_left w with O => my_store_now c a w | S _ => ((kMysqlWaitTimeout, None), my_put c (MyBusy OpStore a) w) end.
Definition my_echo_fetch (r : nat) (w : MyWorld) : option (list (option bytes)) * MyWorld :=
  match mw_res w !! r with
  | Some (n, _, row :: rows) => (Some row, mkMyWorld (mw_table w) (mw_conns w) (<[r := (n, row, rows)]> (mw_res w)) (mw_left w))
  | _ => (None, w)
  end.

#[export] Instance my_echo_wait : SocketWait MyWorld := {| poll_events _ _ _ w := (Ok tt, w); sleep_ms _ w := (Ok tt, w); yield_now w := (Ok tt, w) |}.
#[export] Instance my_echo_api : MyApi MyWorld nat nat := {|
  my_init w := let '(h, t) := tb_new (mw_table w) in (Some h, mkMyWorld t (mw_conns w) (mw_res w) (mw_left w));
  my_options _ _ w := (0, w);
  my_close c w := mkMyWorld (tb_drop c (mw_table w)) (mw_conns w) (mw_res w) (mw_left w);
  my_error _ _ := None;
  my_errno _ _ := 0;
  my_field_count c w := 0;
  my_num_fields r w := match mw_res w !! r with Some (n, _, _) => n | None => 0 end;
  my_fetch_row := my_echo_fetch;
  my_fetch_lengths r w :=
    match mw_res w !! r with Some (_, row, _) => Some (map (fun cell : option bytes => match cell with Some b => size_of b | None => 0 end) row) | None => None end;
  my_free_result r w := mkMyWorld (tb_drop r (mw_table w)) (mw_conns w) (mw_res w) (mw_left w);
  my_affected_rows c w := match mw_conns w !! c with Some (MyStored a) => ma_affected a | _ => 0 end;
  my_insert_id c w := match mw_conns w !! c with Some (MyStored a) => ma_id a | _ => 0 end;
  real_connect_start c _ _ _ _ _ w := ((0, Some c), my_put c MyIdle w);
  real_connect_cont c _ w := ((0, Some c), w);
  real_query_start c sql _ := my_echo_query c (my_echo_answer sql tt);
  real_query_cont c _ w := match mw_conns w !! c with Some (MyBusy OpQuery a) => my_echo_query c a w | _ => ((0, 1), w) end;
  store_result_start c w := match mw_conns w !! c with Some (MyAnswered a) => my_echo_store c a w | _ => ((0, None), w) end;
  store_result_cont c _ w := match mw_conns w !! c with Some (MyBusy OpStore a) => my_echo_store c a w | _ => ((0, None), w) end;
  my_get_socket _ _ := 3;
  my_get_timeout_value := None
|}.
#[export] Instance my_echo_handles : Handles MyWorld nat := fun w => tb_live (mw_table w).
#[export] Instance my_echo_wait_live : WaitLive MyWorld nat.
Proof. by constructor. Qed.

Lemma my_echo_store_live c a w :
  acquires (id <$> (let r := fst (my_echo_store c a w) in if fst r =? 0 then snd r else None)) w (snd (my_echo_store c a w)).
Proof. unfold acquires, my_echo_store, my_store_now, tb_new. repeat case_match; simplify_eq/=; reflexivity. Qed.
#[export] Instance my_echo_live : MyLive MyWorld nat nat nat.
Proof.
  unshelve econstructor; [exact id | exact id | ..]; cbn [my_init my_options my_close my_fetch_row my_free_result real_connect_start
    real_connect_cont real_query_start real_query_cont store_result_start store_result_cont my_echo_api].
  - intros w. unfold acquires. reflexivity.
  - done.
  - intros c w Hc. by apply tb_drop_live.
  - intros r w. unfold my_echo_fetch. repeat case_match; done.
  - intros r w Hr. by apply tb_drop_live.
  - done.
  - done.
  - intros c q n w. unfold my_echo_query. by case_match.
  - intros c s w. unfold my_echo_query. repeat case_match; done.
  - intros c w. destruct (mw_conns w !! c) as [[| | |]|]; first [apply my_echo_store_live | unfold acquires; reflexivity].
  - intros c s w. destruct (mw_conns w !! c) as [[|[]| |]|]; first [apply my_echo_store_live | unfold acquires; reflexivity].
Defined.

Definition my_echo_stored (a : MyAnswer) (res : option nat) (w : MyWorld) (c : nat) : Prop :=
  match ma_rows a with
  | None => res = None
  | Some (names, rows) => exists r, res = Some r /\ mw_res w !! r = Some (size_of names, [], rows)
  end.
Lemma my_echo_store_spec c a w :
  exists st res w', my_echo_store c a w = ((st, res), w') /\
    ((st = 0 /\ mw_conns w' !! c = Some (MyStored a) /\ my_echo_stored a res w' c) \/
     (st <> 0 /\ mw_conns w' !! c = Some (MyBusy OpStore a) /\ (mw_left w' < mw_left w)%nat)).
Proof.
  unfold my_echo_store, my_store_now, my_echo_stored. destruct (mw_left w) as [|n] eqn:E.
  - destruct (ma_rows a) as [[names rows]|]; eexists _, _, _; (split; [done|]); left; simpl; rewrite lookup_insert_eq; split_and!; try done.
    eexists. split; [done|]. by rewrite lookup_insert_eq.
  - eexists _, _, _. split; [done|]. right. simpl. rewrite lookup_insert_eq, E. split_and!; [done | done | simpl; lia].
Qed.
Lemma my_echo_query_spec c a w :
  exists st rc w', my_echo_query c a w = ((st, rc), w') /\
    ((st = 0 /\ rc = 0 /\ mw_conns w' !! c = Some (MyAnswered a)) \/
     (st <> 0 /\ mw_conns w' !! c = Some (MyBusy OpQuery a) /\ (mw_left w' < mw_left w)%nat)).
Proof.
  unfold my_echo_query. destruct (mw_left w) as [|n] eqn:E; eexists _, _, _; (split; [done|]); simpl; rewrite lookup_insert_eq; [by left|].
  right. rewrite E. split_and!; [done | done | simpl; lia].
Qed.

#[export] Instance my_echo_spec : MySpec MyWorld nat nat unit.
Proof.
  unshelve econstructor;
    [exact (fun _ => tt) | exact (fun c w => mw_conns w !! c) | exact (fun _ => mw_left) | exact (fun r w => snd <$> mw_res w !! r)
    | exact my_echo_answer | exact my_echo_stored | ..];
    cbn [my_get_socket my_fetch_row my_fetch_lengths my_num_fields my_field_count my_affected_rows my_insert_id real_query_start real_query_cont
         store_result_start store_result_cont my_echo_api poll_events sleep_ms yield_now my_echo_wait].
  - done.
  - intros c r wr s w. by exists w.
  - intros c n w. by exists w.
  - intros c w. by exists w.
  - intros c sql w Hc. destruct (my_echo_query_spec c (my_echo_answer sql tt) w) as (st & rc & w' & E & Hr). exists st, rc, w'. naive_solver.
  - intros c s w a Hc. rewrite Hc. apply my_echo_query_spec.
  - intros c w a Hc. rewrite Hc. destruct (my_echo_store_spec c a w) as (st & res & w' & E & Hr). exists st, res, w'. naive_solver.
  - intros c s w a Hc. rewrite Hc. apply my_echo_store_spec.
  - intros a res w c Hs Ha. unfold my_echo_stored in Hs. by rewrite Ha in Hs.
  - intros a res w c names rows Hs Ha. unfold my_echo_stored in Hs. rewrite Ha in Hs. destruct Hs as (r & -> & Hr). exists r. by rewrite Hr.
  - intros c st r w row rows Hc Hr. unfold my_echo_fetch. destruct (mw_res w !! r) as [[[n l] rs]|]; simplify_eq/=.
    eexists. split_and!; [done | simpl; by rewrite lookup_insert_eq | done | simpl; by rewrite lookup_insert_eq].
  - intros c st r w Hc Hr. unfold my_echo_fetch. destruct (mw_res w !! r) as [[[n l] rs]|]; simplify_eq/=. by exists w.
  - intros c w a Hc. by rewrite Hc.
Defined.

Definition my_echo_world : MyWorld := mkMyWorld (mkTable 8 [7%nat]) {[7%nat := MyIdle]} ∅ 2.

Lemma mysql_query_exact_witness :
  exists fuel0, forall fuel, (fuel0 <= fuel)%nat -> exists r x, mysql_query fuel "S"%bs [] (Some 7%nat, my_echo_world) = (Ok r, x) /\
    res_rows r = [[VString "S"%bs; VNull]] /\ res_columns r = ["col0"%bs; "col1"%bs] /\ res_affected_rows r = 1 /\ res_last_insert_id r = 0 /\
    fst x = Some 7%nat /\ holds (my_conn_handle (C := nat)) [] [] x.
Proof.
  destruct (mysql_query_exact 7%nat my_echo_world "S"%bs []) as (fuel0 & Hq);
    [reflexivity | intros names rows [= <- <-]; repeat constructor | unfold holds, holding; reflexivity |].
  exists fuel0. intros fuel Hf. destruct (Hq fuel Hf) as (r & x & E & Hr & Hc & Ha & Hi & Hx). exists r, x.
  split_and!; [exact E | rewrite Hr | rewrite Hc | rewrite Ha | rewrite Hi | apply Hx | apply Hx]; vm_compute; reflexivity.
Defined.

Lemma mysql_names_lost_witness :
  result_value (mkResult ["col0"%bs; "col1"%bs] [[VString "S"%bs; VNull]] 1 0) 0 "name"%bs = None.
Proof. apply (mysql_names_lost _ 0 "name"%bs 2); [reflexivity | intros t Ht; discriminate Ht]. Defined.
