(* ===== verification/SqlBackends.v ===== *)
(** * The built-in backends behind [sql::Connection] (sql.cpp)

    The three drivers as one implementation of the interface [DriverOps]
    against which [Sql] models the connection: a driver object is a number
    ([std::shared_ptr<Driver>]) in a table, with its loaded library and the
    pointer to its connection; the factories are those that
    [ensure_builtin_drivers] registers.

    The theorem: whatever sequence of connects, queries and closes a program
    makes, and however each of them ends, the only handles the connection
    holds are the library and the connection of its current driver; after a
    close it holds none.  What leaks is at most one library for each connect,
    and none if the libraries have all symbols and can be initialized: the
    constructor of a driver that throws does not unload its library. *)

From S2P Require Import Prelude Coroutine CxxString Sql SqlLibrary SqlSqlite SqlPostgres SqlMysql.

Local Open Scope Z_scope.

Section Backends.
Context {W L DB ST PC PR MC MR Hd : Type}.
Context `{Loader W L, SqliteApi W DB ST, PgApi W PC PR, MyApi W MC MR, SocketWait W}.
(** The fuel of the loops, and [mysql_library_init]. *)
Context (rounds fuel : nat) (library_init : W -> Z * W).

Inductive BuiltinDriver :=
| DSqlite (lib : L) (db : option DB)
| DPostgres (lib : L) (conn : option PC)
| DMySql (lib : L) (conn : option MC).

(** The driver objects, the flag of [std::call_once], and the libraries. *)
Record Backends := mkBackends { bk_drivers : gmap nat BuiltinDriver; bk_next : nat; bk_once : bool; bk_world : W }.

(** [std::make_unique<...Driver>()]: a constructor that throws leaves no
    object. *)
Definition bk_add (r : result BuiltinDriver) (once : bool) (w : W) (b : Backends) : result (option nat) * Backends :=
  match r with
  | Ok d => (Ok (Some (bk_next b)), mkBackends (<[bk_next b := d]> (bk_drivers b)) (S (bk_next b)) once w)
  | Throw e => (Throw e, mkBackends (bk_drivers b) (bk_next b) (bk_once b) w)
  | OutOfFuel => (OutOfFuel, b)
  end.
Definition bk_new (f : Factory Empty_set) (b : Backends) : result (option nat) * Backends :=
  match f with
  | FSqlite => let '(r, w) := sqlite_load_api (bk_world b) in bk_add ((fun l => DSqlite l None) <$> r) (bk_once b) w b
  | FPostgres => let '(r, w) := pg_load_api (bk_world b) in bk_add ((fun l => DPostgres l None) <$> r) (bk_once b) w b
  | FMySql => let '(r, w) := mysql_load_api library_init (bk_once b) (bk_world b) in bk_add ((fun t => DMySql (fst (fst t)) None) <$> r) true w b
  | FUser e => match e with end
  end.

(** An operation of the object [d]; a reference is never dangling. *)
Definition on_object {A} (d : nat) (f : BuiltinDriver -> W -> result A * (BuiltinDriver * W)) (b : Backends) : result A * Backends :=
  match bk_drivers b !! d with
  | None => (Throw OtherException, b)
  | Some x => let '(r, (x, w)) := f x (bk_world b) in (r, mkBackends (<[d := x]> (bk_drivers b)) (bk_next b) (bk_once b) w)
  end.

(** Virtual calls. *)
Definition virtual_call {A} (sq : Co (option DB * W) A) (pg : Co (option PC * W) A) (my : Co (option MC * W) A) (x : BuiltinDriver) (w : W) : result A * (BuiltinDriver * W) :=
  match x with
  | DSqlite lib db => let '(r, (db, w)) := sq (db, w) in (r, (DSqlite lib db, w))
  | DPostgres lib conn => let '(r, (conn, w)) := pg (conn, w) in (r, (DPostgres lib conn, w))
  | DMySql lib conn => let '(r, (conn, w)) := my (conn, w) in (r, (DMySql lib conn, w))
  end.
Definition bk_connect (d : nat) (info : ConnectionInfo) : Backends -> result unit * Backends :=
  on_object d (virtual_call (sqlite_connect info) (pg_connect rounds info) (mysql_connect rounds info)).
Definition bk_query (d : nat) (sql : bytes) (params : Params) : Backends -> result Result * Backends :=
  on_object d (virtual_call (sqlite_query fuel sql params) (pg_query rounds fuel sql params) (mysql_query fuel sql params)).
Definition bk_close (d : nat) : Backends -> result unit * Backends :=
  on_object d (virtual_call sqlite_close pg_close mysql_close).

Definition driver_lib (x : BuiltinDriver) : L := match x with DSqlite l _ | DPostgres l _ | DMySql l _ => l end.

(** The destructors: [close], and the library is unloaded. *)
Definition bk_destroy (d : nat) (b : Backends) : Backends :=
  let b := snd (bk_close d b) in
  match bk_drivers b !! d with
  | None => b
  | Some x => mkBackends (delete d (bk_drivers b)) (bk_next b) (bk_once b) (close_shared_library (Some (driver_lib x)) (bk_world b))
  end.

Definition builtin_ops : DriverOps Empty_set nat Backends := {|
  drv_new := bk_new; drv_connect := bk_connect; drv_query := bk_query; drv_close := bk_close; drv_destroy := bk_destroy
|}.
End Backends.
Arguments BuiltinDriver : clear implicits.
Arguments Backends : clear implicits.

(** ** Handles *)
Section NoLeak.
Context {W L DB ST PC PR MC MR Hd : Type}.
Context `{Loader W L, SqliteApi W DB ST, PgApi W PC PR, MyApi W MC MR, SocketWait W, Handles W Hd}.
Context `{!LoaderLaws W L Hd, !SqliteLive W DB ST Hd, !PgLive W PC PR Hd, !MyLive W MC MR Hd, !WaitLive W Hd}.
Context (rounds fuel : nat) (library_init : W -> Z * W).
Hypothesis init_live : forall w, live (snd (library_init w)) ≡ₚ live w.

(** The libraries have all symbols, and [mysql_library_init] succeeds. *)
Definition libraries_complete : Prop := (forall l n (w : W), dlsym l n w = true) /\ (forall w, fst (library_init w) = 0).
(** What a call leaves loaded without an owner. *)
Definition at_most_leaks (n : nat) (leaked : list L) : Prop := (length leaked <= n)%nat /\ (libraries_complete -> leaked = []).
Definition lib_handles (leaked : list L) : list Hd := map lib_handle leaked.

Abbreviation Driver := (BuiltinDriver L DB PC MC).
Abbreviation Bk := (Backends W L DB PC MC).

Definition driver_conn (x : Driver) : option Hd :=
  match x with
  | DSqlite _ db => db_handle <$> db
  | DPostgres _ c => pg_conn_handle <$> c
  | DMySql _ c => my_conn_handle <$> c
  end.
Definition driver_handles (x : Driver) : list Hd := lib_handle (driver_lib x) :: option_list (driver_conn x).
Definition all_handles (m : gmap nat Driver) : list Hd := map_to_list m ≫= fun kx => driver_handles (snd kx).

Record bk_inv (others : list Hd) (b : Bk) : Prop := {
  bi_owns : holding (all_handles (bk_drivers b)) others (bk_world b);
  bi_fresh : forall d, is_Some (bk_drivers b !! d) -> (d < bk_next b)%nat
}.

Lemma all_handles_insert m d x : m !! d = None -> all_handles (<[d := x]> m) ≡ₚ driver_handles x ++ all_handles m.
Proof. intros Hm. unfold all_handles. by rewrite (map_to_list_insert m d x Hm), bind_cons. Qed.
Lemma all_handles_delete m d x : m !! d = Some x -> all_handles m ≡ₚ driver_handles x ++ all_handles (delete d m).
Proof. intros Hm. unfold all_handles. by rewrite <- (map_to_list_delete m d x Hm), bind_cons. Qed.
Lemma all_handles_update m d x : is_Some (m !! d) -> all_handles (<[d := x]> m) ≡ₚ driver_handles x ++ all_handles (delete d m).
Proof. intros Hm. rewrite <- insert_delete_eq. apply all_handles_insert. by rewrite lookup_delete_eq. Qed.

(** Each of the three drivers keeps what it holds. *)
Lemma virtual_call_live {A} (sq : Co (option DB * W) A) (pg : Co (option PC * W) A) (my : Co (option MC * W) A) x w others r x' w' :
  (forall o, co_inv (holds db_handle [] o) sq) -> (forall o, co_inv (holds pg_conn_handle [] o) pg) -> (forall o, co_inv (holds my_conn_handle [] o) my) ->
  virtual_call sq pg my x w = (r, (x', w')) -> holding (driver_handles x) others w -> holding (driver_handles x') others w' /\ driver_lib x' = driver_lib x.
Proof.
  intros Hsq Hpg Hmy E Ho.
  assert (forall h : option Hd, forall l v, holding (l :: option_list h) others v <-> holding (option_list h ++ []) (l :: others) v) as Hmove.
  { intros h l v. unfold holding. rewrite app_nil_r. by rewrite <- Permutation_middle. }
  destruct x as [l db|l c|l c]; simpl in E; unfold driver_handles in *; simpl in *.
  - specialize (Hsq (lib_handle l :: others) (db, w)). destruct (sq (db, w)) as [r1 [db' w1]]. simplify_eq. simpl in *.
    split; [|done]. apply Hmove, Hsq. by apply Hmove.
  - specialize (Hpg (lib_handle l :: others) (c, w)). destruct (pg (c, w)) as [r1 [c' w1]]. simplify_eq. simpl in *.
    split; [|done]. apply Hmove, Hpg. by apply Hmove.
  - specialize (Hmy (lib_handle l :: others) (c, w)). destruct (my (c, w)) as [r1 [c' w1]]. simplify_eq. simpl in *.
    split; [|done]. apply Hmove, Hmy. by apply Hmove.
Qed.

Lemma on_object_inv {A} d (f : Driver -> W -> result A * (Driver * W)) others b :
  (forall o x w r x' w', f x w = (r, (x', w')) -> holding (driver_handles x) o w -> holding (driver_handles x') o w') ->
  bk_inv others b -> bk_inv others (snd (on_object d f b)) /\ dom (bk_drivers (snd (on_object d f b))) = dom (bk_drivers b).
Proof.
  intros Hf [Ho Hfr]. unfold on_object. destruct (bk_drivers b !! d) as [x|] eqn:Ed; [|done].
  destruct (f x (bk_world b)) as [r [x' w']] eqn:E. simpl.
  assert (dom (<[d := x']> (bk_drivers b)) = dom (bk_drivers b)) as Hdom by (apply dom_insert_lookup_L; eauto).
  split; [|done]. split; simpl.
  - assert (holding (driver_handles x') (all_handles (delete d (bk_drivers b)) ++ others) w') as Ho'.
    { eapply Hf; [exact E|]. unfold holding in *. rewrite Ho, (all_handles_delete _ _ _ Ed). by rewrite <- app_assoc. }
    unfold holding in *. rewrite Ho', (all_handles_update (bk_drivers b) d x') by eauto. by rewrite <- app_assoc.
  - intros k Hk. apply Hfr. apply elem_of_dom. rewrite <- Hdom. by apply elem_of_dom.
Qed.

Lemma bk_connect_inv d info others (b : Bk) :
  bk_inv others b -> bk_inv others (snd (bk_connect rounds d info b)) /\ dom (bk_drivers (snd (bk_connect rounds d info b))) = dom (bk_drivers b).
Proof.
  apply on_object_inv. intros o x w r x' w' E Ho.
  eapply virtual_call_live in E; [apply E | intros; apply sqlite_connect_inv | intros; apply pg_connect_inv | intros; apply mysql_connect_inv | done].
Qed.
Lemma bk_query_inv d sql params others (b : Bk) :
  bk_inv others b -> bk_inv others (snd (bk_query rounds fuel d sql params b)) /\ dom (bk_drivers (snd (bk_query rounds fuel d sql params b))) = dom (bk_drivers b).
Proof.
  apply on_object_inv. intros o x w r x' w' E Ho.
  eapply virtual_call_live in E; [apply E | intros; apply sqlite_query_inv | intros; apply pg_query_inv | intros; apply mysql_query_inv | done].
Qed.
Lemma bk_close_inv d others (b : Bk) :
  bk_inv others b -> bk_inv others (snd (bk_close d b)) /\ dom (bk_drivers (snd (bk_close d b))) = dom (bk_drivers b).
Proof.
  apply on_object_inv. intros o x w r x' w' E Ho.
  eapply virtual_call_live in E; [apply E | intros; apply sqlite_close_inv | intros; apply pg_close_inv | intros; apply mysql_close_inv | done].
Qed.

(** A driver that is closed has no connection. *)
Lemma bk_close_none d (b : Bk) x : bk_drivers b !! d = Some x -> exists x', bk_drivers (snd (bk_close d b)) !! d = Some x' /\ driver_conn x' = None.
Proof.
  intros Ed. unfold bk_close, on_object. rewrite Ed.
  destruct x as [l [db|]|l [c|]|l [c|]]; simpl; rewrite lookup_insert_eq; eexists; split; done.
Qed.

Lemma bk_destroy_inv d others (b : Bk) :
  bk_inv others b -> bk_inv others (bk_destroy d b) /\ dom (bk_drivers (bk_destroy d b)) = dom (bk_drivers b) ∖ {[d]}.
Proof.
  intros Hb. unfold bk_destroy. destruct (bk_close_inv d others b Hb) as [[Ho Hfr] Hdom].
  destruct (bk_drivers b !! d) as [x|] eqn:Ed.
  - destruct (bk_close_none d b x Ed) as (x' & Ex & Hc). rewrite Ex. simpl. split.
    + split; simpl.
      * unfold holding in Ho. rewrite (all_handles_delete _ _ _ Ex) in Ho. unfold driver_handles in Ho. rewrite Hc in Ho. simpl in Ho.
        eapply owns_release; [|apply dlclose_live]. exact Ho.
      * intros k Hk. apply Hfr. destruct Hk as [y Hy]. apply lookup_delete_Some in Hy as [_ Hy]. eauto.
    + rewrite dom_delete_L, Hdom. done.
  - assert (bk_drivers (snd (bk_close d b)) !! d = None) as Ex.
    { apply not_elem_of_dom. rewrite Hdom. by apply not_elem_of_dom. }
    rewrite Ex. split; [done|]. rewrite Hdom. apply not_elem_of_dom in Ed. set_solver.
Qed.

(** A constructor loads one library, or throws and leaves at most a library
    that nobody owns. *)
Definition loads {A} (lib : A -> L) (r : result A) (w w' : W) : Prop :=
  match r with
  | Ok t => acquires (Some (lib_handle (lib t))) w w'
  | Throw _ => exists leaked, at_most_leaks 1 leaked /\ live w' ≡ₚ lib_handles leaked ++ live w
  | OutOfFuel => False
  end.
Definition adds_driver (b : Bk) (r : result (option nat)) (b' : Bk) : Prop :=
  match r with
  | Ok (Some d) => d ∉ dom (bk_drivers b) /\ dom (bk_drivers b') = {[d]} ∪ dom (bk_drivers b)
  | Ok None => False
  | _ => dom (bk_drivers b') = dom (bk_drivers b)
  end.

Lemma no_leak n : at_most_leaks n [].
Proof. split; [simpl; lia | done]. Qed.

Lemma bk_load_inv {A} (mk : A -> Driver) (lib : A -> L) (r : result A) once w others (b : Bk) :
  (forall t, driver_conn (mk t) = None /\ driver_lib (mk t) = lib t) -> bk_inv others b -> loads lib r (bk_world b) w ->
  exists leaked, at_most_leaks 1 leaked /\ bk_inv (lib_handles leaked ++ others) (snd (bk_add (mk <$> r) once w b)) /\
    adds_driver b (fst (bk_add (mk <$> r) once w b)) (snd (bk_add (mk <$> r) once w b)).
Proof.
  intros Hmk [Ho Hfr] Hl. destruct r as [t|e|]; simpl in *; [| |done].
  - exists []. split; [apply no_leak|].
    assert (bk_drivers b !! bk_next b = None) as Hn.
    { destruct (bk_drivers b !! bk_next b) eqn:E; [|done]. exfalso. assert (bk_next b < bk_next b)%nat by (apply Hfr; eauto). lia. }
    destruct (Hmk t) as [Hc Hlib]. split; [split; simpl|].
    + eapply owns_perm; [symmetry; by apply all_handles_insert|]. unfold driver_handles. rewrite Hc, Hlib. exact (owns_acquire _ _ _ _ _ Ho Hl).
    + intros k Hk. destruct (decide (k = bk_next b)) as [->|Hne]; [lia|]. rewrite lookup_insert_ne in Hk by done. apply Hfr in Hk. lia.
    + split; [by apply not_elem_of_dom | by rewrite dom_insert_L].
  - destruct Hl as (leaked & Hat & Hw). exists leaked. split; [done|]. split; [|done]. split; [|exact Hfr]. simpl. unfold holding in *. rewrite Hw, Ho. apply Permutation_app_swap_app.
Qed.

(** The symbols are all there, or the library stays loaded. *)
Lemma load_symbols_leaks {A} (l : L) name symbols (w : W) (k : unit -> Co W A) (lib : A -> L) w0 :
  acquires (Some (lib_handle l)) w0 w -> loads lib (fst (k tt w)) w0 (snd (k tt w)) ->
  let r := co_bind (load_symbols l name symbols) k w in loads lib (fst r) w0 (snd r).
Proof.
  intros Ha Hk. simpl. pose proof (load_symbols_state l name symbols w) as Hst. unfold co_bind.
  destruct (load_symbols l name symbols w) as [[[]|e|] w1] eqn:E; simpl in *; subst w1; [done | |].
  - exists [l]. split; [split; [simpl; lia|] | exact Ha]. intros [Hs _].
    by rewrite (load_symbols_ok l name symbols w (fun n _ => Hs l n w)) in E.
  - exfalso. revert E. clear. induction symbols as [|n symbols IH]; simpl; [done|]. unfold co_bind, load_symbol at 1. destruct (dlsym l n w); [apply IH | done].
Qed.

Lemma load_lib_live (env : bytes) builtin be name symbols (w : W) :
  let r := co_bind (open_library env builtin be name) (fun lib => co_bind (load_symbols lib name symbols) (fun _ => co_ret lib)) w in
  loads id (fst r) w (snd r).
Proof.
  simpl. destruct (open_library_live env builtin be name w) as [(l & w1 & E & Ha)|(e & w1 & E & Ha)].
  - rewrite (co_bind_ok _ _ _ _ _ E). by apply (load_symbols_leaks l name symbols w1 (fun _ => co_ret l) id w).
  - rewrite (co_bind_throw _ _ _ _ _ E). simpl. exists []. split; [apply no_leak | done].
Qed.

Lemma co_get_bind {X A B} (f : X -> A) (k : A -> Co X B) x : co_bind (co_get f) k x = k (f x) x.
Proof. done. Qed.

Lemma mysql_load_live once (w : W) :
  let r := mysql_load_api library_init once w in loads (fun t => fst (fst t)) (fst r) w (snd r).
Proof.
  simpl. unfold mysql_load_api.
  destruct (open_library_live "COROUV_SQL_MYSQL_LIB"%bs mysql_candidates MySQL "mysql"%bs w) as [(l & w1 & E & Ha)|(e & w1 & E & Ha)]; cycle 1.
  { rewrite (co_bind_throw _ _ _ _ _ E). simpl. exists []. split; [apply no_leak | done]. }
  rewrite (co_bind_ok _ _ _ _ _ E). unfold load_optional at 1 2 4 5. rewrite !co_get_bind.
  apply (load_symbols_leaks l "mysql"%bs mysql_symbols w1); [done|]. unfold load_optional. rewrite !co_get_bind.
  destruct once; simpl; [done|]. destruct (negb _); simpl; [done|]. unfold co_bind. pose proof (init_live w1) as Hl.
  destruct (library_init w1) as [rc w2] eqn:Ei. simpl in *. destruct (Z.eqb_spec rc 0) as [Hrc|Hrc]; simpl.
  - unfold acquires in *. by rewrite Hl.
  - exists [l]. split; [split; [simpl; lia|] | unfold acquires in Ha; by rewrite Hl]. intros [_ Hok]. specialize (Hok w1). rewrite Ei in Hok. done.
Qed.

Lemma bk_new_inv f others (b : Bk) :
  bk_inv others b -> let r := bk_new library_init f b in
  exists leaked, at_most_leaks 1 leaked /\ bk_inv (lib_handles leaked ++ others) (snd r) /\ adds_driver b (fst r) (snd r).
Proof.
  intros Hb r. subst r. destruct f as [| | |[]]; unfold bk_new.
  - pose proof (load_lib_live "COROUV_SQL_SQLITE_LIB"%bs sqlite_candidates SQLite "sqlite"%bs sqlite_symbols (bk_world b)) as Hl.
    fold (sqlite_load_api (W := W) (L := L)) in Hl. destruct (sqlite_load_api (bk_world b)) as [r w]. by apply (bk_load_inv _ id).
  - pose proof (load_lib_live "COROUV_SQL_PG_LIB"%bs pg_candidates PostgreSQL "pgsql"%bs pg_symbols (bk_world b)) as Hl.
    fold (pg_load_api (W := W) (L := L)) in Hl. destruct (pg_load_api (bk_world b)) as [r w]. by apply (bk_load_inv _ id).
  - pose proof (mysql_load_live (bk_once b) (bk_world b)) as Hl.
    destruct (mysql_load_api library_init (bk_once b) (bk_world b)) as [r w]. by apply (bk_load_inv _ (fun t => fst (fst t))).
Qed.

(** ** The connection *)

Abbreviation Conn := (SqlConn (F := Empty_set) (D := nat) (W := Bk)).
Local Instance ops : DriverOps Empty_set nat Bk := builtin_ops rounds fuel library_init.

(** The objects that exist are the driver of the connection. *)
Definition conn_inv (others : list Hd) (c : Conn) : Prop :=
  bk_inv others (sc_world c) /\ dom (bk_drivers (sc_world c)) = match sc_driver c with Some d => {[d]} | None => ∅ end.

Lemma create_driver_inv scheme others (c : Conn) :
  bk_inv others (sc_world c) -> let r := create_driver scheme c in
  exists leaked, at_most_leaks 1 leaked /\ bk_inv (lib_handles leaked ++ others) (sc_world (snd r)) /\ sc_driver (snd r) = sc_driver c /\
  match fst r with
  | Ok d => d ∉ dom (bk_drivers (sc_world c)) /\ dom (bk_drivers (sc_world (snd r))) = {[d]} ∪ dom (bk_drivers (sc_world c))
  | _ => dom (bk_drivers (sc_world (snd r))) = dom (bk_drivers (sc_world c))
  end.
Proof.
  intros Hb r. subst r. unfold create_driver. destruct (find_factory scheme (sc_registry c)) as [[f|e|] reg]; simpl;
    [|exists []; by split; [apply no_leak|] ..].
  destruct (bk_new_inv f others (sc_world c) Hb) as (leaked & Hat & Hi & Ha). exists leaked.
  destruct (bk_new library_init f (sc_world c)) as [[[d|]|e|] w]; simpl in *; (split; [exact Hat|]); (split; [exact Hi|]); (split; [done|]); first [done | exact Ha].
Qed.

Lemma connect_info_inv info others (c : Conn) :
  conn_inv others c -> exists leaked, at_most_leaks 1 leaked /\ conn_inv (lib_handles leaked ++ others) (snd (connect_info info c)).
Proof.
  intros [Hb Hdom]. unfold connect_info. destruct (complete_info info) as [i|e|]; simpl; [|exists []; split; [apply no_leak | done] ..].
  destruct (create_driver_inv (ci_scheme i) others c Hb) as (leaked & Hat & Hb1 & Hsc & Hr). exists leaked. split; [done|].
  destruct (create_driver (ci_scheme i) c) as [[d|e|] c1]; simpl in *;
    [|split; [done | by rewrite Hsc, Hr] | split; [done | by rewrite Hsc, Hr]].
  set (others' := lib_handles leaked ++ others) in *.
  destruct Hr as [Hnew Hdom1]. destruct (bk_connect_inv d i others' _ Hb1) as [Hb2 Hdom2]. rewrite Hdom1, Hdom in Hdom2. rewrite Hdom in Hnew.
  destruct (bk_connect rounds d i (sc_world c1)) as [r w2]. simpl in *. rewrite <- Hsc in Hdom2, Hnew.
  assert (conn_inv others' (set_world (bk_destroy d w2) c1)) as Hfail.
  { destruct (bk_destroy_inv d others' w2 Hb2) as [Hb3 Hdom3]. split; [done|]. simpl. rewrite Hdom3, Hdom2. set_solver. }
  destruct r as [[]|e|]; simpl; [|done|done]. destruct (sc_driver c1) as [o|]; [|split; [done | simpl; rewrite Hdom2; set_solver]].
  destruct (bk_close_inv o others' w2 Hb2) as [Hb3 Hdom3]. destruct (bk_close o w2) as [r' w3]. simpl in *.
  destruct (bk_destroy_inv o others' w3 Hb3) as [Hb4 Hdom4]. split; [done|]. simpl. rewrite Hdom4, Hdom3, Hdom2. set_solver.
Qed.

Lemma query_inv sql params others (c : Conn) : conn_inv others c -> conn_inv others (snd (query sql params c)).
Proof.
  intros [Hb Hdom]. unfold query. destruct (sc_driver c) as [d|] eqn:Ed; simpl; [|split; [done | by rewrite Ed]].
  destruct (bk_query_inv d sql params others _ Hb) as [Hb2 Hdom2]. destruct (bk_query rounds fuel d sql params (sc_world c)) as [r w]. simpl in *.
  split; [done|]. simpl. by rewrite Ed, Hdom2.
Qed.

Lemma close_inv others (c : Conn) : conn_inv others c -> conn_inv others (snd (close c)) /\ sc_driver (snd (close c)) = None.
Proof.
  intros [Hb Hdom]. unfold close. destruct (sc_driver c) as [d|] eqn:Ed; simpl; [|done].
  destruct (bk_close_inv d others _ Hb) as [Hb2 Hdom2]. destruct (bk_close d (sc_world c)) as [r w]. simpl in *.
  destruct (bk_destroy_inv d others w Hb2) as [Hb3 Hdom3]. split; [|done]. split; [done|]. simpl. rewrite Hdom3, Hdom2, Hdom. set_solver.
Qed.

(** What a program does with a connection. *)
Inductive conn_op := OpConnectUrl (url : bytes) | OpConnectInfo (info : ConnectionInfo) | OpRun (sql : bytes) (params : Params) | OpExecute (sql : bytes) (params : Params) | OpClose.
Definition conn_step (c : Conn) (o : conn_op) : Conn :=
  match o with
  | OpConnectUrl url => snd (connect_url url c)
  | OpConnectInfo info => snd (connect_info info c)
  | OpRun sql params => snd (query sql params c)
  | OpExecute sql params => snd (execute sql params c)
  | OpClose => snd (close c)
  end.
Definition conn_run (os : list conn_op) (c : Conn) : Conn := fold_left conn_step os c.

Definition connects (o : conn_op) : nat := match o with OpConnectUrl _ | OpConnectInfo _ => 1 | _ => 0 end.

Lemma conn_step_inv o others c :
  conn_inv others c -> exists leaked, at_most_leaks (connects o) leaked /\ conn_inv (lib_handles leaked ++ others) (conn_step c o).
Proof.
  intros Hc. destruct o as [url|info|sql params|sql params|]; simpl; [| |exists []; (split; [apply no_leak|]); simpl ..].
  - unfold connect_url. destruct (parse_connection_url url); [by apply connect_info_inv | exists []; split; [apply no_leak | done] ..].
  - by apply connect_info_inv.
  - by apply query_inv.
  - unfold execute. apply (query_inv sql params) in Hc. by destruct (query sql params c).
  - by apply close_inv.
Qed.

Lemma conn_run_inv os others c :
  conn_inv others c -> exists leaked, at_most_leaks (list_sum (map connects os)) leaked /\ conn_inv (lib_handles leaked ++ others) (conn_run os c).
Proof.
  revert others c. induction os as [|o os IH]; intros others c Hc; [exists []; split; [apply no_leak | done]|].
  destruct (conn_step_inv o others c Hc) as (l1 & [Hl1 Hn1] & Hc1). destruct (IH _ _ Hc1) as (l2 & [Hl2 Hn2] & Hc2).
  exists (l2 ++ l1). split.
  - split; [rewrite length_app; simpl; lia|]. intros Hlib. by rewrite (Hn1 Hlib), (Hn2 Hlib).
  - unfold lib_handles in *. by rewrite map_app, <- app_assoc.
Qed.

Definition conn_handles (c : Conn) : list Hd :=
  match sc_driver c with
  | None => []
  | Some d => match bk_drivers (sc_world c) !! d with Some x => driver_handles x | None => [] end
  end.

Lemma conn_inv_held others c : conn_inv others c -> holding (conn_handles c) others (bk_world (sc_world c)).
Proof.
  intros [[Ho _] Hdom]. unfold conn_handles. destruct (sc_driver c) as [d|].
  - assert (is_Some (bk_drivers (sc_world c) !! d)) as [x Hx] by (apply elem_of_dom; rewrite Hdom; set_solver). rewrite Hx.
    assert (bk_drivers (sc_world c) = {[d := x]}) as E.
    { apply map_eq. intros k. destruct (decide (k = d)) as [->|Hk]; [by rewrite lookup_singleton_eq|].
      rewrite lookup_singleton_ne by done. apply not_elem_of_dom. rewrite Hdom. set_solver. }
    rewrite E in Ho. unfold holding in *. rewrite Ho. unfold all_handles. rewrite map_to_list_singleton. simpl. by rewrite app_nil_r.
  - apply dom_empty_inv_L in Hdom. rewrite Hdom in Ho. exact Ho.
Qed.

End NoLeak.

(** ** A system where only SQLite can be reached *)

#[export] Instance echo_loader : Loader Echo nat := {|
  getenv _ _ := None;
  dlopen _ w := let '(h, w) := echo_open w in (Some h, w);
  dlsym _ _ _ := true;
  dlclose := echo_close
|}.
#[export] Instance echo_loader_laws : LoaderLaws Echo nat nat.
Proof.
  unshelve econstructor; [exact id | |].
  - intros c w. unfold acquires. reflexivity.
  - intros l w. apply echo_close_live.
Defined.
#[export] Instance echo_wait : SocketWait Echo := {| poll_events _ _ _ w := (Throw OtherException, w); sleep_ms _ w := (Ok tt, w); yield_now w := (Ok tt, w) |}.
#[export] Instance echo_wait_live : WaitLive Echo nat.
Proof. by constructor. Qed.
#[export] Instance echo_pg : PgApi Echo nat nat := {|
  connect_start _ w := (None, w); connect_poll _ w := (kPgPollingFailed, w); pg_socket _ _ := -1; set_nonblocking _ _ w := (1, w);
  pg_status _ _ := 1; error_message _ _ := None; pg_finish := echo_close; send_query_params _ _ _ _ w := (0, w); pg_flush _ w := (0, w);
  consume_input _ w := (0, w); is_busy _ _ := 0; get_result _ w := (None, w); result_status _ _ := 0; nfields _ _ := 0; ntuples _ _ := 0;
  fname _ _ _ := None; get_is_null _ _ _ _ := 1; get_value _ _ _ _ := None; cmd_tuples _ _ := None; pg_clear := echo_close
|}.
#[export] Instance echo_pg_live : PgLive Echo nat nat nat.
Proof. unshelve econstructor; [exact id | exact id | ..]; try done; intros; try apply echo_close_live; unfold acquires; reflexivity. Defined.
#[export] Instance echo_my : MyApi Echo nat nat := {|
  my_init w := (None, w); my_options _ _ w := (1, w); my_close := echo_close; my_error _ _ := None; my_errno _ _ := 0; my_field_count _ _ := 0;
  my_num_fields _ _ := 0; my_fetch_row _ w := (None, w); my_fetch_lengths _ _ := None; my_free_result := echo_close; my_affected_rows _ _ := 0;
  my_insert_id _ _ := 0; real_connect_start _ _ _ _ _ _ w := ((0, None), w); real_connect_cont _ _ w := ((0, None), w);
  real_query_start _ _ _ w := ((0, 1), w); real_query_cont _ _ w := ((0, 1), w); store_result_start _ w := ((0, None), w);
  store_result_cont _ _ w := ((0, None), w); my_get_socket _ _ := -1; my_get_timeout_value := None
|}.
#[export] Instance echo_my_live : MyLive Echo nat nat nat.
Proof. unshelve econstructor; [exact id | exact id | ..]; try done; intros; try apply echo_close_live; unfold acquires; reflexivity. Defined.

Definition echo_program : list conn_op :=
  [OpConnectUrl "sqlite://a.db"%bs; OpRun "SELECT ?"%bs [VInt 1]; OpConnectUrl "pgsql://db/app"%bs; OpRun "SELECT ?"%bs [VInt 1; VInt 2]; OpConnectUrl "sqlite::memory:"%bs].

