(* ===== verification/AsyncWait.v ===== *)
(** * Waiting coroutines (the Waiter and Awaiter classes of async_mutex.h and
    async_semaphore.h)

    [AsyncMutex] and [AsyncSemaphore] declare the same private classes
    [Waiter] and [Awaiter]; they differ in the resource that is handed out.
    This file is their common part, over a resource [R] with one operation
    [take] (lock the mutex, take a permit).

    The granularity is that of the code: one transition per critical section
    of [_mu] and per atomic operation, so that transitions of different
    threads interleave freely.  A task runs on an executor: its callbacks
    (resumption, [cancel_on_executor]) run one at a time and not in the
    middle of another callback of the same task.  The handler that finds no
    executor, or one that refuses the callback, makes the call itself; the
    machine has that step for a task that is not running, and
    [inline_cancel_resumes_running] shows what it does to one that is.  Cancellation is left to the
    environment: the signal may be emitted at any time, an installed handler
    may be called at any time, and [tryEmplace] may fail. *)

From S2P Require Import Prelude.

(** ** Waiters *)

Record Waiter := mkWaiter {
  w_done : bool;
  w_granted : bool;
  w_abandoned : bool;
  w_cancel_requested : bool;
  w_continuation : bool          (* the handle is still stored *)
}.
Definition new_waiter : Waiter := mkWaiter false false false false true.

(** [try_mark_granted] and [try_mark_canceled]: a compare-and-swap on [done]. *)
Definition try_mark_granted (w : Waiter) : bool * Waiter :=
  if w_done w then (false, w)
  else (true, mkWaiter true true (w_abandoned w) (w_cancel_requested w) (w_continuation w)).
Definition try_mark_canceled (w : Waiter) : bool * Waiter :=
  if w_done w then (false, w)
  else (true, mkWaiter true (w_granted w) (w_abandoned w) (w_cancel_requested w) (w_continuation w)).
Definition set_cancel_requested (w : Waiter) : Waiter :=
  mkWaiter (w_done w) (w_granted w) (w_abandoned w) true (w_continuation w).
Definition drop_continuation (w : Waiter) : Waiter :=
  mkWaiter (w_done w) (w_granted w) (w_abandoned w) (w_cancel_requested w) false.
Definition abandon (w : Waiter) : Waiter := mkWaiter true (w_granted w) true (w_cancel_requested w) false.
Definition grant_now (w : Waiter) : Waiter :=
  mkWaiter true true (w_abandoned w) (w_cancel_requested w) (w_continuation w).

(** ** Tasks

    Where a task stands in [lock()] or [acquire()]. *)

Inductive phase :=
| AtReady       (* before [await_ready] tests the signal *)
| AtTry         (* before [try_lock] in [await_ready] *)
| AtSuspend     (* [await_suspend], before the handler is installed *)
| AtEnqueue     (* [await_suspend], before [enqueue_waiter] *)
| Suspended
| AtResume      (* before [await_resume] *)
| Returned
| Thrown (e : exn)
| Destroyed.    (* the frame was destroyed while suspended *)

#[export] Instance phase_eq_dec : EqDecision phase.
Proof. solve_decision. Defined.

Record Task := mkTask {
  t_phase : phase;
  t_slot : bool;                 (* [_slot != nullptr] *)
  t_canceled : bool;             (* the signal has been emitted *)
  t_handler : bool;              (* the handler is installed *)
  t_taken : bool;                (* [try_lock] in [await_ready] succeeded *)
  t_waiter : option Waiter
}.
Definition new_task (slot : bool) : Task := mkTask AtReady slot false false false None.

Definition set_phase (p : phase) (t : Task) : Task :=
  mkTask p (t_slot t) (t_canceled t) (t_handler t) (t_taken t) (t_waiter t).
Definition set_waiter (w : Waiter) (t : Task) : Task :=
  mkTask (t_phase t) (t_slot t) (t_canceled t) (t_handler t) (t_taken t) (Some w).
Definition set_canceled (t : Task) : Task :=
  mkTask (t_phase t) (t_slot t) true (t_handler t) (t_taken t) (t_waiter t).
Definition set_handler (h : bool) (t : Task) : Task :=
  mkTask (t_phase t) (t_slot t) (t_canceled t) h (t_taken t) (t_waiter t).
Definition set_taken (t : Task) : Task :=
  mkTask (t_phase t) (t_slot t) (t_canceled t) (t_handler t) true (t_waiter t).

(** Calls that are on their way, to waiter [i]. *)
Inductive action :=
| Wake (i : nat)         (* [resume_after_marked_done] *)
| Resume (i : nat)       (* [h.resume()], on the executor *)
| CancelExec (i : nat)   (* [cancel_on_executor], on the executor *)
| RemoveWake (i : nat)   (* [remove_waiter], then [resume_after_marked_done] *)
| Remove (i : nat).      (* [remove_waiter] of [~Awaiter] *)

#[export] Instance action_eq_dec : EqDecision action.
Proof. solve_decision. Defined.

(** ** The machine *)

Record St (R : Type) := mkSt {
  s_res : R;
  s_queue : list nat;              (* [_waiters], by task *)
  s_tasks : list Task;
  s_pending : list action;
  s_direct : Z;                    (* successful calls of [try_lock] itself *)
  s_put : Z                        (* units put back by [unlock], [release] *)
}.
Arguments mkSt {R} _ _ _ _ _ _.
Arguments s_res {R} _.
Arguments s_queue {R} _.
Arguments s_tasks {R} _.
Arguments s_pending {R} _.
Arguments s_direct {R} _.
Arguments s_put {R} _.

Definition waiter_done (ts : list Task) (i : nat) : bool :=
  match ts !! i with
  | Some t => match t_waiter t with Some w => w_done w | None => true end
  | None => true
  end.

(** [std::erase_if] of the waiters that are done. *)
Definition compact (ts : list Task) (queue : list nat) : list nat :=
  filter (fun i => waiter_done ts i = false) queue.

(** Mark waiter [i] granted if it is not done. *)
Definition grant (i : nat) (ts : list Task) : bool * list Task :=
  match ts !! i with
  | Some t =>
      match t_waiter t with
      | Some w => let '(ok, w') := try_mark_granted w in (ok, <[i := set_waiter w' t]> ts)
      | None => (false, ts)
      end
  | None => (false, ts)
  end.

(** [remove_waiter] *)
Definition remove_waiter (i : nat) (ts : list Task) (queue : list nat) : list nat :=
  filter (fun j => j <> i /\ waiter_done ts j = false) queue.

(** What the two classes differ in: the resource and the messages of
    [await_resume].  [g_avail] counts the units that can be taken. *)
Class Gate (R : Type) := {
  g_take : R -> option R;
  g_avail : R -> Z;
  g_canceled : bytes;
  g_failed : bytes
}.

Class GateLaws (R : Type) `{Gate R} := {
  g_take_some r r' : g_take r = Some r' -> g_avail r' = (g_avail r - 1)%Z;
  g_take_none r : g_take r = None <-> g_avail r = 0%Z;
  g_avail_nonneg r : (0 <= g_avail r)%Z
}.

Section Machine.
Context {R : Type} `{Gate R}.

Definition with_tasks (ts : list Task) (s : St R) : St R :=
  mkSt (s_res s) (s_queue s) ts (s_pending s) (s_direct s) (s_put s).
Definition put_task (i : nat) (t : Task) (s : St R) : St R := with_tasks (<[i := t]> (s_tasks s)) s.
Definition with_queue (q : list nat) (s : St R) : St R :=
  mkSt (s_res s) q (s_tasks s) (s_pending s) (s_direct s) (s_put s).
Definition with_pending (p : list action) (s : St R) : St R :=
  mkSt (s_res s) (s_queue s) (s_tasks s) p (s_direct s) (s_put s).
Definition with_res (r : R) (s : St R) : St R :=
  mkSt r (s_queue s) (s_tasks s) (s_pending s) (s_direct s) (s_put s).

(** [try_lock], [try_acquire] *)
Definition try_take (s : St R) : bool * St R :=
  let s := with_queue (compact (s_tasks s) (s_queue s)) s in
  match g_take (s_res s) with
  | None => (false, s)
  | Some r => (true, with_res r s)
  end.

(** [enqueue_waiter] *)
Definition enqueue_waiter (i : nat) (t : Task) (w : Waiter) (s : St R) : bool * St R :=
  let s := with_queue (compact (s_tasks s) (s_queue s)) s in
  if w_done w then (false, s)
  else match g_take (s_res s) with
       | Some r => (false, put_task i (set_waiter (grant_now w) t) (with_res r s))
       | None => (true, with_queue (s_queue s ++ [i]) s)
       end.

(** [await_resume] *)
Definition resume_outcome (t : Task) : phase :=
  match t_waiter t with
  | Some w =>
      if w_granted w then Returned
      else if t_canceled t then Thrown (SignalException g_canceled)
      else Thrown (RuntimeError g_failed)
  | None => if t_canceled t then Thrown (SignalException g_canceled) else Returned
  end.

(** The next transition of task [i]; [emplaced] is what [tryEmplace] returns. *)
Definition advance (emplaced : bool) (i : nat) (s : St R) : option (St R) :=
  match s_tasks s !! i with
  | None => None
  | Some t =>
      match t_phase t, t_waiter t with
      | AtReady, _ =>
          Some (put_task i (set_phase (if t_canceled t then AtResume else AtTry) t) s)
      | AtTry, _ =>
          let '(ok, s) := try_take s in
          Some (if ok then put_task i (set_phase AtResume (set_taken t)) s
                else put_task i (set_phase AtSuspend (set_waiter new_waiter t)) s)
      | AtSuspend, _ =>
          Some (if t_slot t then
                  if emplaced then put_task i (set_phase AtEnqueue (set_handler true t)) s
                  else put_task i (set_phase AtResume t) s
                else put_task i (set_phase AtEnqueue t) s)
      | AtEnqueue, Some w =>
          let '(suspend, s) := enqueue_waiter i t w s in
          match s_tasks s !! i with
          | Some t => Some (put_task i (set_phase (if suspend then Suspended else AtResume) t) s)
          | None => None
          end
      | AtResume, _ =>
          let granted := match t_waiter t with Some w => w_granted w | None => false end in
          Some (put_task i (set_phase (resume_outcome t) (if granted then set_handler false t else t)) s)
      | _, _ => None
      end
  end.

(** Executor callbacks of a task do not run while it is in the middle of one. *)
Definition idle (p : phase) : bool :=
  match p with Suspended | Returned | Thrown _ | Destroyed => true | _ => false end.

(** [cancel_on_executor] of waiter [w] of task [t], up to [remove_waiter]. *)
Definition cancel_on_executor (i : nat) (t : Task) (w : Waiter) (s : St R) : St R :=
  if negb (w_cancel_requested w) then s
  else let '(ok, w') := try_mark_canceled w in
       if ok then with_pending (s_pending s ++ [RemoveWake i]) (put_task i (set_waiter w' t) s) else s.

(** Carry out a pending call, which has been taken off the list. *)
Definition perform (a : action) (s : St R) : option (St R) :=
  match a with
  | Wake i =>
      match s_tasks s !! i with
      | Some t =>
          match t_waiter t with
          | Some w =>
              if w_abandoned w then Some s
              else if w_continuation w then
                Some (with_pending (s_pending s ++ [Resume i]) (put_task i (set_waiter (drop_continuation w) t) s))
              else Some s
          | None => None
          end
      | None => None
      end
  | Resume i =>
      match s_tasks s !! i with
      | Some t => if decide (t_phase t = Suspended) then Some (put_task i (set_phase AtResume t) s) else None
      | None => None
      end
  | CancelExec i =>
      match s_tasks s !! i with
      | Some t =>
          match t_waiter t with
          | Some w => if idle (t_phase t) then Some (cancel_on_executor i t w s) else None
          | None => None
          end
      | None => None
      end
  | RemoveWake i =>
      Some (with_pending (s_pending s ++ [Wake i]) (with_queue (remove_waiter i (s_tasks s) (s_queue s)) s))
  | Remove i => Some (with_queue (remove_waiter i (s_tasks s) (s_queue s)) s)
  end.

(** The cancellation handler: [request_cancel_from_any_thread].  Without an
    executor, or when [schedule] returns false, the call is made at once. *)
Definition request_cancel (scheduled : bool) (i : nat) (s : St R) : option (St R) :=
  match s_tasks s !! i with
  | Some t =>
      match t_waiter t with
      | Some w =>
          if t_handler t then
            let w := set_cancel_requested w in
            let t := set_waiter w t in
            let s := put_task i t s in
            Some (if scheduled then with_pending (s_pending s ++ [CancelExec i]) s else cancel_on_executor i t w s)
          else None
      | None => None
      end
  | None => None
  end.

(** [~Awaiter] of a task that is destroyed while it waits. *)
Definition destroy (i : nat) (s : St R) : option (St R) :=
  match s_tasks s !! i with
  | Some t =>
      match t_waiter t with
      | Some w =>
          if decide (t_phase t = Suspended) then
            Some (with_pending (s_pending s ++ [Remove i]) (put_task i (set_phase Destroyed (set_waiter (abandon w) t)) s))
          else None
      | None => None
      end
  | None => None
  end.

(** What the tasks, their executors and the environment do. *)
Inductive task_step : St R -> St R -> Prop :=
| step_spawn slot s :
    task_step s (with_tasks (s_tasks s ++ [new_task slot]) s)
| step_advance emplaced i s s' :
    advance emplaced i s = Some s' -> task_step s s'
| step_perform a l1 l2 s s' :
    s_pending s = l1 ++ a :: l2 -> perform a (with_pending (l1 ++ l2) s) = Some s' -> task_step s s'
| step_signal i t s :
    s_tasks s !! i = Some t -> t_slot t = true -> task_step s (put_task i (set_canceled t) s)
| step_handler i s s' :
    request_cancel true i s = Some s' -> task_step s s'
| step_handler_inline i t s s' :
    s_tasks s !! i = Some t -> idle (t_phase t) = true -> request_cancel false i s = Some s' -> task_step s s'
| step_destroy i s s' :
    destroy i s = Some s' -> task_step s s'
| step_direct s s' :
    try_take s = (true, s') ->
    task_step s (mkSt (s_res s') (s_queue s') (s_tasks s') (s_pending s') (s_direct s' + 1) (s_put s'))
| step_direct_failed s s' :
    try_take s = (false, s') -> task_step s s'.
End Machine.

(** ** The invariant *)

Definition owns (t : Task) : bool := t_taken t || match t_waiter t with Some w => w_granted w | None => false end.
Definition owners (ts : list Task) : Z := Z.of_nat (length (filter (fun t => owns t = true) ts)).

(** Pending calls that lead to a resumption of [i]: those that have not yet
    taken the handle, and those that have. *)
Definition to_wake (i : nat) (a : action) : bool := bool_decide (a = Wake i) || bool_decide (a = RemoveWake i).
Definition to_resume (i : nat) (a : action) : bool := bool_decide (a = Resume i).
Definition target (a : action) : nat :=
  match a with Wake i | Resume i | CancelExec i | RemoveWake i | Remove i => i end.
Definition about (i : nat) (l : list action) : list action := List.filter (fun a => Nat.eqb (target a) i) l.
Definition occ (f : action -> bool) (l : list action) : nat := length (List.filter f l).

(** A cancellation can no longer mark this waiter. *)
Definition uncancelable (t : Task) (w : Waiter) : Prop :=
  w_done w = true \/ (w_cancel_requested w = false /\ t_handler t = false).

Definition task_ok (t : Task) : Prop :=
  match t_phase t, t_waiter t with
  | AtReady, None | AtTry, None => t_taken t = false /\ t_handler t = false
  | AtSuspend, Some w | AtEnqueue, Some w => 
      t_taken t = false /\ w_done w = false /\ w_granted w = false /\ w_continuation w = true /\ w_abandoned w = false /\
      (t_phase t = AtSuspend -> t_handler t = false /\ w_cancel_requested w = false)
  | Suspended, Some w => t_taken t = false /\ w_abandoned w = false /\ (w_granted w = true -> w_done w = true)
  | AtResume, None => t_taken t = true \/ t_canceled t = true
  | AtResume, Some w => t_taken t = false /\ uncancelable t w
  | Returned, None => owns t = true
  | Returned, Some w => owns t = true /\ uncancelable t w
  | Destroyed, Some w => t_taken t = false /\ w_done w = true /\ w_abandoned w = true
  | Thrown _, None => True
  | Thrown _, Some w => uncancelable t w
  | _, _ => False
  end.

Definition queued_ok (t : Task) : Prop :=
  (t_phase t = Suspended \/ t_phase t = Destroyed) /\
  exists w, t_waiter t = Some w /\ w_granted w = false.

Definition live (t : Task) : Prop :=
  t_phase t = Suspended /\ exists w, t_waiter t = Some w /\ w_done w = false.

Definition wake_ok (t : Task) (k1 k2 : nat) : Prop :=
  match t_phase t, t_waiter t with
  | Suspended, Some w =>
      if w_done w then (k1 = 1 /\ k2 = 0 /\ w_continuation w = true) \/ (k1 = 0 /\ k2 = 1 /\ w_continuation w = false)
      else k1 = 0 /\ k2 = 0 /\ w_continuation w = true
  | Destroyed, _ => True
  | _, _ => k1 = 0 /\ k2 = 0
  end.

Section Invariant.
Context {R : Type} `{GateLaws R}.
Implicit Types s : St R.

(** [init] is the number of units at the start. *)
Record core (init : Z) (s : St R) : Prop := {
  c_conserve : (g_avail (s_res s) + s_direct s + owners (s_tasks s) = init + s_put s)%Z;
  c_task i t : s_tasks s !! i = Some t -> task_ok t;
  c_nodup : NoDup (s_queue s);
  c_queued i : i ∈ s_queue s -> exists t, s_tasks s !! i = Some t /\ queued_ok t;
  c_live i t : s_tasks s !! i = Some t -> live t -> i ∈ s_queue s;
  c_wakes i t : s_tasks s !! i = Some t ->
    wake_ok t (occ (to_wake i) (s_pending s)) (occ (to_resume i) (s_pending s));
  c_scope i : (length (s_tasks s) <= i)%nat -> about i (s_pending s) = [];
  (* a marked waiter that is still queued is about to be removed *)
  c_marked i t w : i ∈ s_queue s -> s_tasks s !! i = Some t -> t_phase t = Suspended -> t_waiter t = Some w ->
    w_done w = true -> RemoveWake i ∈ s_pending s;
  c_removed i t : Remove i ∈ s_pending s -> s_tasks s !! i = Some t -> t_phase t = Destroyed
}.

(** No unit is available while a task waits for one. *)
Definition busy (s : St R) : Prop :=
  g_avail (s_res s) = 0%Z \/ forall i t, s_tasks s !! i = Some t -> ~ live t.

(** *** Lemmas *)

Lemma occ_app f l1 l2 : occ f (l1 ++ l2) = occ f l1 + occ f l2.
Proof. unfold occ. by rewrite List.filter_app, length_app. Qed.

Lemma occ_cons f a l : occ f (a :: l) = (if f a then 1 else 0) + occ f l.
Proof. unfold occ. simpl. by destruct (f a). Qed.

Lemma owners_insert ts i t t' :
  ts !! i = Some t ->
  owners (<[i := t']> ts) = (owners ts - (if owns t then 1 else 0) + (if owns t' then 1 else 0))%Z.
Proof.
  unfold owners. revert i. induction ts as [|x ts IH]; intros [|i]; simpl; [done | done | |].
  - intros [= ->]. rewrite !filter_cons. destruct (owns t) eqn:E1, (owns t') eqn:E2; simpl;
      repeat (case_decide; try congruence); simpl; lia.
  - intros Hi. specialize (IH i Hi). rewrite !filter_cons. case_decide; simpl; lia.
Qed.

Lemma owners_app ts ts' : owners (ts ++ ts') = (owners ts + owners ts')%Z.
Proof. unfold owners. rewrite filter_app, length_app. lia. Qed.

Lemma occ_about f i l : (forall a, f a = true -> target a = i) -> occ f l = occ f (about i l).
Proof.
  intros Hf. unfold occ, about. induction l as [|a l IH]; [done|]. simpl.
  destruct (Nat.eqb_spec (target a) i) as [E|E]; simpl.
  - destruct (f a); simpl; lia.
  - destruct (f a) eqn:Ef; [by apply Hf in Ef | done].
Qed.

Lemma to_wake_target i a : to_wake i a = true -> target a = i.
Proof. unfold to_wake. rewrite orb_true_iff, !bool_decide_eq_true. by intros [->| ->]. Qed.
Lemma to_resume_target i a : to_resume i a = true -> target a = i.
Proof. unfold to_resume. rewrite bool_decide_eq_true. by intros ->. Qed.

Lemma about_same i p p' :
  about i p' = about i p ->
  occ (to_wake i) p' = occ (to_wake i) p /\ occ (to_resume i) p' = occ (to_resume i) p /\
  (forall a, target a = i -> a ∈ p' <-> a ∈ p).
Proof.
  intros E. split_and!.
  - rewrite (occ_about _ i p'), (occ_about _ i p), E by apply to_wake_target. done.
  - rewrite (occ_about _ i p'), (occ_about _ i p), E by apply to_resume_target. done.
  - intros a Ha. assert (forall l, a ∈ l <-> a ∈ about i l) as Hl.
    { intros l. rewrite !list_elem_of_In. unfold about. rewrite List.filter_In, Nat.eqb_eq. naive_solver. }
    rewrite (Hl p'), (Hl p). by rewrite E.
Qed.

Lemma about_none i p : about i p = [] -> occ (to_wake i) p = 0 /\ occ (to_resume i) p = 0.
Proof. intros E. destruct (about_same i [] p) as (-> & -> & _); done. Qed.

Lemma about_app i p q : about i (p ++ q) = about i p ++ about i q.
Proof. apply List.filter_app. Qed.

Lemma about_cons_ne i a p : target a <> i -> about i (a :: p) = about i p.
Proof. intros Hne. unfold about. simpl. by destruct (Nat.eqb_spec (target a) i). Qed.

(** One task changes: the conditions that are left to check. *)
Lemma core_update init s s' i t t' :
  core init s -> s_tasks s !! i = Some t -> s_tasks s' = <[i := t']> (s_tasks s) ->
  (g_avail (s_res s') + s_direct s' + (if owns t' then 1 else 0) - s_put s' =
   g_avail (s_res s) + s_direct s + (if owns t then 1 else 0) - s_put s)%Z ->
  task_ok t' -> NoDup (s_queue s') ->
  (forall j, j ∈ s_queue s' -> j <> i -> j ∈ s_queue s) -> (i ∈ s_queue s' -> queued_ok t') ->
  (forall j u, j <> i -> s_tasks s !! j = Some u -> live u -> j ∈ s_queue s -> j ∈ s_queue s') ->
  (live t' -> i ∈ s_queue s') ->
  (forall j, j <> i -> about j (s_pending s') = about j (s_pending s)) ->
  wake_ok t' (occ (to_wake i) (s_pending s')) (occ (to_resume i) (s_pending s')) ->
  (forall w, i ∈ s_queue s' -> t_phase t' = Suspended -> t_waiter t' = Some w -> w_done w = true ->
     RemoveWake i ∈ s_pending s') ->
  (Remove i ∈ s_pending s' -> t_phase t' = Destroyed) ->
  core init s'.
Proof.
  intros [C1 C2 C3 C4 C5 C6 C7 C8 C9] Hi Ht Hc Hok Hnd Hq Hqi Hl Hli Hp Hw Hm Hr.
  assert (i < length (s_tasks s))%nat as Hlen by (by apply lookup_lt_Some in Hi).
  assert (forall j u, s_tasks s' !! j = Some u -> (j = i /\ u = t') \/ (j <> i /\ s_tasks s !! j = Some u)) as Hj.
  { intros j u. rewrite Ht. destruct (decide (j = i)) as [->|Hne].
    - rewrite list_lookup_insert_eq by done. intros [= <-]. by left.
    - rewrite list_lookup_insert_ne by done. by right. }
  constructor.
  - rewrite Ht, (owners_insert _ _ _ _ Hi). lia.
  - intros j u Hu. destruct (Hj j u Hu) as [[-> ->]|[Hne Hu']]; eauto.
  - done.
  - intros j Hjq. destruct (decide (j = i)) as [->|Hne].
    + exists t'. rewrite Ht, list_lookup_insert_eq by done. auto.
    + destruct (C4 j (Hq j Hjq Hne)) as (u & Hu & Hqu). exists u. rewrite Ht, list_lookup_insert_ne by done. done.
  - intros j u Hu Hlu. destruct (Hj j u Hu) as [[-> ->]|[Hne Hu']]; [auto|]. eapply Hl; eauto.
  - intros j u Hu. destruct (Hj j u Hu) as [[-> ->]|[Hne Hu']]; [done|].
    destruct (about_same j _ _ (Hp j Hne)) as (-> & -> & _). eauto.
  - intros j. rewrite Ht, length_insert. intros Hge. rewrite Hp by lia. auto.
  - intros j u w Hjq Hu. destruct (Hj j u Hu) as [[-> ->]|[Hne Hu']]; [by apply Hm|].
    intros. apply (about_same j _ _ (Hp j Hne)); [done|]. eapply C8; eauto.
  - intros j u Hjr Hu. destruct (Hj j u Hu) as [[-> ->]|[Hne Hu']]; [by apply Hr|].
    apply (about_same j _ _ (Hp j Hne)) in Hjr; [|done]. eauto.
Qed.

Lemma core_queue init s q :
  core init s -> NoDup q -> (forall j, j ∈ q -> j ∈ s_queue s) ->
  (forall j u, s_tasks s !! j = Some u -> live u -> j ∈ s_queue s -> j ∈ q) -> core init (with_queue q s).
Proof. intros [C1 C2 C3 C4 C5 C6 C7 C8 C9] Hn Hsub Hl. constructor; simpl; eauto. Qed.

Lemma live_not_done ts i t : ts !! i = Some t -> live t -> waiter_done ts i = false.
Proof. intros Hi (_ & w & Hw & Hd). unfold waiter_done. by rewrite Hi, Hw. Qed.

Lemma core_compact init s : core init s -> core init (with_queue (compact (s_tasks s) (s_queue s)) s).
Proof.
  intros C. apply core_queue; [done | | |].
  - apply NoDup_filter, C.
  - intros j. unfold compact. rewrite list_elem_of_filter. by intros [_ ?].
  - intros j u Hu Hl Hj. apply list_elem_of_filter. split; [by eapply live_not_done | done].
Qed.

Lemma core_remove init s i :
  core init s -> (forall t, s_tasks s !! i = Some t -> ~ live t) ->
  core init (with_queue (remove_waiter i (s_tasks s) (s_queue s)) s).
Proof.
  intros C Hd. apply core_queue; [done | | |].
  - apply NoDup_filter, C.
  - intros j. unfold remove_waiter. rewrite list_elem_of_filter. by intros [_ ?].
  - intros j u Hu Hl Hj. apply list_elem_of_filter. split; [|done]. split.
    + intros ->. by eapply Hd.
    + by eapply live_not_done.
Qed.

(** The effect of [try_take] on the invariant: a unit is out, unowned. *)
Lemma try_take_spec s ok s' :
  try_take s = (ok, s') ->
  s_tasks s' = s_tasks s /\ s_queue s' = compact (s_tasks s) (s_queue s) /\ s_pending s' = s_pending s /\
  s_direct s' = s_direct s /\ s_put s' = s_put s /\
  g_avail (s_res s') = (g_avail (s_res s) - (if ok then 1 else 0))%Z.
Proof.
  unfold try_take. simpl. destruct (g_take (s_res s)) as [r|] eqn:E; intros [= <- <-]; simpl; split_and!; try done; [|lia].
  by apply g_take_some.
Qed.

Lemma not_queued init s i t :
  core init s -> s_tasks s !! i = Some t -> t_phase t <> Suspended -> t_phase t <> Destroyed -> i ∉ s_queue s.
Proof.
  intros C Hi H1 H2 Hq. destruct (c_queued _ _ C i Hq) as (u & Hu & [[?|?] _]); congruence.
Qed.

(** A task that is not waiting moves on, with nothing else changed but units. *)
Lemma core_move init s s' i t t' :
  core init s -> s_tasks s !! i = Some t -> s_tasks s' = <[i := t']> (s_tasks s) ->
  idle (t_phase t) = false -> ~ live t' -> task_ok t' -> wake_ok t' 0 0 ->
  s_queue s' = s_queue s -> s_pending s' = s_pending s ->
  (g_avail (s_res s') + s_direct s' + (if owns t' then 1 else 0) - s_put s' =
   g_avail (s_res s) + s_direct s + (if owns t then 1 else 0) - s_put s)%Z ->
  core init s'.
Proof.
  intros C Hi Ht Hidle Hl Hok Hw Hq Hp Hc.
  assert (i ∉ s_queue s) as Hni by (eapply not_queued; eauto; by destruct (t_phase t)).
  pose proof (c_wakes _ _ C i t Hi) as Hw0.
  assert (occ (to_wake i) (s_pending s) = 0 /\ occ (to_resume i) (s_pending s) = 0) as [K1 K2].
  { unfold wake_ok in Hw0. by destruct (t_phase t), (t_waiter t). }
  apply (core_update init s s' i t t' C Hi Ht Hc Hok); rewrite ?Hq, ?Hp, ?K1, ?K2; try done; [apply C|].
  intros Hr. apply (c_removed _ _ C i t) in Hr; [|done]. by rewrite Hr in Hidle.
Qed.

(** Close the easy conditions of [core_move]. *)
Ltac moved :=
  unfold task_ok, wake_ok, live, owns, uncancelable in *; simpl in *; first [ done | by intros [? ?] | by auto | lia | idtac ].

Lemma core_enqueue init i s t w suspend s1 :
  core init s -> s_tasks s !! i = Some t -> t_phase t = AtEnqueue -> t_waiter t = Some w -> 
  enqueue_waiter i t w s = (suspend, s1) ->
  exists t1, s_tasks s1 !! i = Some t1 /\
    core init (put_task i (set_phase (if suspend then Suspended else AtResume) t1) s1).
Proof.
  intros C Hi Hp Hw. pose proof (c_task _ _ C i t Hi) as Hok. destruct t as [ph slot canc hand taken wt].
  simpl in Hp, Hw. subst ph wt. unfold task_ok in Hok. simpl in Hok. destruct Hok as (-> & Hd & Hg & Hc & Hab & Hh).
  unfold enqueue_waiter. rewrite Hd. apply core_compact in C. set (s0 := with_queue _ s) in *. cbn zeta.
  assert (s_tasks s0 !! i = Some (mkTask AtEnqueue slot canc hand false (Some w))) as Hi0 by done.
  pose proof (lookup_lt_Some _ _ _ Hi0) as Hlt.
  destruct (g_take (s_res s0)) as [r|] eqn:E; intros [= <- <-].
  - apply g_take_some in E. eexists. split; [simpl; by rewrite list_lookup_insert_eq|].
    eapply (core_move init s0 _ i); [exact C | exact Hi0 | simpl; by rewrite list_insert_insert_eq | ..]; moved.
    rewrite Hg. lia.
  - eexists. split; [exact Hi0|].
    assert (i ∉ s_queue s0) as Hni by (by eapply not_queued).
    pose proof (c_wakes _ _ C i _ Hi0) as [K1 K2].
    eapply (core_update init s0 _ i); [exact C | exact Hi0 | reflexivity | ..]; simpl; rewrite ?Hg, ?Hd; try done.
    + unfold task_ok. simpl. by rewrite Hg.
    + apply NoDup_app. split_and!; [apply C | | apply NoDup_singleton].
      intros x Hx Hx'. apply list_elem_of_singleton in Hx' as ->. done.
    + intros j Hj Hne. apply elem_of_app in Hj as [Hj|Hj]; [done|]. by apply list_elem_of_singleton in Hj.
    + intros _. split; [by left|]. exists w. done.
    + intros. apply elem_of_app. by left.
    + intros _. apply elem_of_app. right. by apply list_elem_of_singleton.
    + unfold wake_ok. simpl. by rewrite Hd.
    + intros w' _ _ [= <-]. by rewrite Hd.
    + intros Hr. by pose proof (c_removed _ _ C i _ Hr Hi0).
Qed.

Lemma core_advance init emplaced i s s' : core init s -> advance emplaced i s = Some s' -> core init s'.
Proof.
  intros C. unfold advance. destruct (s_tasks s !! i) as [t|] eqn:Hi; [|done].
  pose proof (c_task _ _ C i t Hi) as Hok. destruct t as [ph slot canc hand taken wt]. simpl.
  unfold task_ok in Hok. destruct ph, wt as [w|]; simpl in Hok; try done.
  - destruct canc; intros [= <-]; (eapply (core_move init s _ i); [exact C | exact Hi | reflexivity | ..]); moved.
  - destruct (try_take s) as [ok s1] eqn:E. apply try_take_spec in E as (E1 & E2 & E3 & E4 & E5 & E6).
    intros [= <-]. apply core_compact in C. destruct Hok as [-> ->].
    destruct ok; (eapply (core_move init _ _ i); [exact C | exact Hi | simpl; by rewrite E1 | ..]); simpl; rewrite ?E2, ?E3; moved.
  - destruct Hok as (-> & Hd & Hg & Hc & Hab & Hh). destruct (Hh eq_refl) as [-> Hcr].
    destruct slot, emplaced; intros [= <-]; (eapply (core_move init s _ i); [exact C | exact Hi | reflexivity | ..]); moved.
  - destruct (enqueue_waiter i _ w s) as [suspend s1] eqn:E.
    destruct (core_enqueue init i s _ w suspend s1 C Hi eq_refl eq_refl E) as (t1 & -> & C'). by intros [= <-].
  - destruct w as [d g ab cr co]. destruct Hok as [-> Hu]. unfold resume_outcome. simpl.
    destruct g, canc; intros [= <-]; (eapply (core_move init s _ i); [exact C | exact Hi | reflexivity | ..]); moved;
      naive_solver.
  - unfold resume_outcome. simpl.
    destruct canc; intros [= <-]; (eapply (core_move init s _ i); [exact C | exact Hi | reflexivity | ..]); moved.
    destruct Hok as [->|?]; done.
Qed.

(** Pending calls after [a] is taken off and [new] is added. *)
Lemma about_other l1 a l2 new j :
  target a <> j -> Forall (fun x => target x <> j) new -> about j (l1 ++ l2 ++ new) = about j (l1 ++ a :: l2).
Proof.
  intros Ha Hnew. rewrite !about_app, (about_cons_ne j a l2 Ha). do 2 f_equal.
  induction Hnew as [|x new Hx _ IH]; [by rewrite app_nil_r|]. rewrite (about_cons_ne j x new Hx). exact IH.
Qed.

Lemma occ_taken f l1 a l2 : occ f (l1 ++ a :: l2) = (if f a then 1 else 0) + occ f (l1 ++ l2).
Proof. rewrite !occ_app, occ_cons. lia. Qed.

Lemma to_wake_self i : to_wake i (Wake i) = true /\ to_wake i (RemoveWake i) = true /\ to_wake i (Resume i) = false /\
  to_resume i (Wake i) = false /\ to_resume i (RemoveWake i) = false /\ to_resume i (Resume i) = true /\
  to_wake i (CancelExec i) = false /\ to_resume i (CancelExec i) = false /\
  to_wake i (Remove i) = false /\ to_resume i (Remove i) = false.
Proof. unfold to_wake, to_resume. split_and!; repeat (case_bool_decide; try done). Qed.

Lemma pending_task init s a : core init s -> a ∈ s_pending s -> exists t, s_tasks s !! target a = Some t.
Proof.
  intros C Ha. destruct (s_tasks s !! target a) as [t|] eqn:E; [by exists t|].
  apply lookup_ge_None in E. apply (c_scope _ _ C) in E.
  assert (a ∈ about (target a) (s_pending s)) as Hin.
  { apply list_elem_of_In. unfold about. rewrite List.filter_In, Nat.eqb_eq. split; [by apply list_elem_of_In | done]. }
  rewrite E in Hin. by apply not_elem_of_nil in Hin.
Qed.

(** A call is taken off the list and a follow-up is added; the task it is for
    changes to [t'], the queue loses waiters that are done. *)
Lemma core_pending init s s' l1 a l2 new t t' :
  core init s -> s_pending s = l1 ++ a :: l2 -> s_tasks s !! target a = Some t ->
  s_tasks s' = <[target a := t']> (s_tasks s) -> s_pending s' = l1 ++ l2 ++ new -> Forall (fun x => target x = target a) new ->
  s_res s' = s_res s -> s_direct s' = s_direct s -> s_put s' = s_put s -> owns t' = owns t ->
  NoDup (s_queue s') -> (forall j, j ∈ s_queue s' -> j ∈ s_queue s) ->
  (forall j u, s_tasks s !! j = Some u -> j <> target a -> live u -> j ∈ s_queue s -> j ∈ s_queue s') ->
  task_ok t' -> (target a ∈ s_queue s' -> queued_ok t') -> (live t' -> target a ∈ s_queue s') ->
  wake_ok t' (occ (to_wake (target a)) (l1 ++ l2) + occ (to_wake (target a)) new)
             (occ (to_resume (target a)) (l1 ++ l2) + occ (to_resume (target a)) new) ->
  (forall w, target a ∈ s_queue s' -> t_phase t' = Suspended -> t_waiter t' = Some w -> w_done w = true ->
     RemoveWake (target a) ∈ l1 ++ l2 ++ new) ->
  (Remove (target a) ∈ l1 ++ l2 ++ new -> t_phase t' = Destroyed) ->
  core init s'.
Proof.
  intros C Hp Hi Ht Hp' Hnew Hr Hd Hpt Ho Hnd Hsub Hl Hok Hq Hli Hw Hm Hrm.
  apply (core_update init s s' (target a) t t' C Hi Ht); rewrite ?Hp'; auto.
  - rewrite Hr, Hd, Hpt, Ho. done.
  - intros j u Hne Hu. by apply Hl.
  - intros j Hne. rewrite Hp. apply about_other; [done|].
    apply (Forall_impl _ _ _ Hnew). intros x Hx. congruence.
  - rewrite app_assoc, !(occ_app _ (l1 ++ l2)). done.
Qed.

Lemma occ_single f a : occ f [a] = if f a then 1 else 0.
Proof. rewrite occ_cons. unfold occ. simpl. lia. Qed.

Lemma taken_elem {A} (x a : A) l1 l2 : x ∈ l1 ++ l2 -> x ∈ l1 ++ a :: l2.
Proof. rewrite !elem_of_app, elem_of_cons. tauto. Qed.

Lemma taken_elem_ne {A} (x a : A) l1 l2 : x ∈ l1 ++ a :: l2 -> x <> a -> x ∈ l1 ++ l2.
Proof. rewrite !elem_of_app, elem_of_cons. tauto. Qed.

Lemma occ_zero f l a : occ f l = 0 -> f a = true -> a ∉ l.
Proof.
  intros H1 H2 Hin. apply list_elem_of_In in Hin.
  assert (In a (List.filter f l)) as Hf by (by apply List.filter_In).
  unfold occ in H1. by destruct (List.filter f l).
Qed.

(** A marked waiter whose removal is done has left the queue. *)
Lemma left_queue init s i t w l1 a l2 :
  core init s -> s_pending s = l1 ++ a :: l2 -> a <> RemoveWake i -> s_tasks s !! i = Some t -> t_phase t = Suspended ->
  t_waiter t = Some w -> w_done w = true -> occ (to_wake i) (l1 ++ l2) = 0 -> i ∉ s_queue s.
Proof.
  intros C Hp Ha Hi Hph Hw Hd Ho Hq. pose proof (c_marked _ _ C i t w Hq Hi Hph Hw Hd) as Hin.
  rewrite Hp in Hin. apply taken_elem_ne in Hin; [|congruence]. revert Hin. apply (occ_zero _ _ _ Ho), to_wake_self.
Qed.

Lemma removal_pending init s i t l1 a l2 :
  core init s -> s_pending s = l1 ++ a :: l2 -> s_tasks s !! i = Some t -> Remove i ∈ l1 ++ l2 -> t_phase t = Destroyed.
Proof. intros C Hp Hi Hr. apply (c_removed _ _ C i t); [|done]. rewrite Hp. by apply taken_elem. Qed.

Lemma core_wake init i l1 l2 s s' :
  core init s -> s_pending s = l1 ++ Wake i :: l2 -> perform (Wake i) (with_pending (l1 ++ l2) s) = Some s' -> core init s'.
Proof.
  intros C Hp. simpl. destruct (s_tasks s !! i) as [t|] eqn:Hi; [|done].
  pose proof (c_task _ _ C i t Hi) as Hok. pose proof (c_wakes _ _ C i t Hi) as Hw.
  rewrite Hp, !occ_taken in Hw. destruct (to_wake_self i) as (W1 & W2 & W3 & R1 & R2 & R3 & _).
  rewrite W1, R1 in Hw. pose proof (removal_pending init s i t l1 _ l2 C Hp Hi) as Hr.
  destruct t as [ph slot canc hand taken wt]. simpl. destruct wt as [w|]; [|done].
  unfold task_ok in Hok. unfold wake_ok in Hw. destruct ph; simpl in Hok, Hw; try (destruct Hw; lia).
  - destruct Hok as (-> & Hab & Hgd). rewrite Hab. destruct (w_done w) eqn:Hd; [|lia].
    destruct Hw as [(K1 & K2 & Kc)|(K1 & _)]; [|lia]. rewrite Kc. intros [= <-].
    assert (i ∉ s_queue s) as Hni by (eapply (left_queue init s i); eauto; lia).
    eapply (core_pending init s _ l1 (Wake i) l2 [Resume i]); [exact C | exact Hp | exact Hi | reflexivity | simpl; by rewrite <- app_assoc |..];
      simpl; try done; auto.
    + apply C.
    + by intros (_ & w' & [= <-] & ?); simpl in *; congruence.
    + unfold wake_ok. simpl. rewrite Hd, !occ_single, W3, R3. lia.
    + intros Hin. apply Hr. rewrite app_assoc, elem_of_app, list_elem_of_singleton in Hin. naive_solver.
  - destruct Hok as (-> & Hd & Hab). rewrite Hab. intros [= <-].
    eapply (core_pending init s _ l1 (Wake i) l2 []); [exact C | exact Hp | exact Hi | simpl; by rewrite list_insert_id | simpl; by rewrite app_nil_r |..];
      simpl; try done; auto.
    + apply C.
    + intros Hq. destruct (c_queued _ _ C i Hq) as (u & Hu & Hqu). congruence.
    + by intros (? & _).
Qed.

Lemma core_resume init i l1 l2 s s' :
  core init s -> s_pending s = l1 ++ Resume i :: l2 -> perform (Resume i) (with_pending (l1 ++ l2) s) = Some s' -> core init s'.
Proof.
  intros C Hp. simpl. destruct (s_tasks s !! i) as [t|] eqn:Hi; [|done]. destruct (decide _) as [Hph|]; [|done].
  pose proof (c_task _ _ C i t Hi) as Hok. pose proof (c_wakes _ _ C i t Hi) as Hw.
  rewrite Hp, !occ_taken in Hw. destruct (to_wake_self i) as (W1 & W2 & W3 & R1 & R2 & R3 & _).
  rewrite W3, R3 in Hw. pose proof (removal_pending init s i t l1 _ l2 C Hp Hi) as Hr.
  destruct t as [ph slot canc hand taken wt]. simpl in Hph. subst ph. destruct wt as [w|]; [|done].
  unfold task_ok in Hok. unfold wake_ok in Hw. simpl in Hok, Hw. destruct Hok as (-> & Hab & Hgd).
  destruct (w_done w) eqn:Hd; [|lia]. destruct Hw as [(_ & K2 & _)|(K1 & K2 & Kc)]; [lia|]. intros [= <-].
  assert (i ∉ s_queue s) as Hni by (eapply (left_queue init s i); eauto).
  eapply (core_pending init s _ l1 (Resume i) l2 []); [exact C | exact Hp | exact Hi | reflexivity | simpl; by rewrite app_nil_r |..];
    simpl; try done; auto.
  - apply C.
  - split; [done | by left].
  - by intros (? & _).
  - unfold wake_ok. simpl. unfold occ at 2 4. simpl. lia.
  - rewrite app_nil_r. intros Hin. by apply Hr in Hin.
Qed.

Lemma core_cancel_exec init i l1 l2 s s' :
  core init s -> s_pending s = l1 ++ CancelExec i :: l2 ->
  perform (CancelExec i) (with_pending (l1 ++ l2) s) = Some s' -> core init s'.
Proof.
  intros C Hp. simpl. destruct (s_tasks s !! i) as [t|] eqn:Hi; [|done]. destruct (t_waiter t) as [w|] eqn:Hwt; [|done].
  destruct (idle (t_phase t)) eqn:Hidle; [|done].
  pose proof (c_task _ _ C i t Hi) as Hok. pose proof (c_wakes _ _ C i t Hi) as Hw.
  rewrite Hp, !occ_taken in Hw. destruct (to_wake_self i) as (W1 & W2 & W3 & R1 & R2 & R3 & W4 & R4 & _).
  rewrite W4, R4 in Hw. pose proof (removal_pending init s i t l1 _ l2 C Hp Hi) as Hr.
  assert (core init (with_pending (l1 ++ l2) s)) as Hsame.
  { eapply (core_pending init s _ l1 (CancelExec i) l2 []);
      [exact C | exact Hp | exact Hi | simpl; by rewrite list_insert_id | simpl; by rewrite app_nil_r |..]; simpl; try done; auto.
    - apply C.
    - intros Hq. destruct (c_queued _ _ C i Hq) as (u & Hu & Hqu). congruence.
    - intros Hl. by eapply (c_live _ _ C).
    - unfold occ at 2 4. simpl. by rewrite !Nat.add_0_r.
    - intros w' Hq Hph Hw' Hd. rewrite app_nil_r. eapply (taken_elem_ne _ (CancelExec i)); [|done]. rewrite <- Hp.
      by eapply (c_marked _ _ C).
    - rewrite app_nil_r. exact Hr. }
  unfold cancel_on_executor, try_mark_canceled. destruct (w_cancel_requested w) eqn:Hcr; simpl; [|by intros [= <-]].
  destruct (w_done w) eqn:Hd; simpl; [by intros [= <-]|]. intros [= <-].
  destruct t as [ph slot canc hand taken wt]. simpl in *. subst wt. unfold task_ok in Hok. unfold wake_ok in Hw. simpl in *.
  assert (ph = Suspended) as ->.
  { clear -Hok Hd Hcr Hidle. unfold uncancelable in Hok. destruct ph; simpl in *; try done; intuition congruence. }
  rewrite Hd in Hw. destruct Hok as (-> & Hab & Hgd). destruct Hw as (K1 & K2 & Kc).
  assert (i ∈ s_queue s) as Hq by (eapply (c_live _ _ C i); [exact Hi | split; [done | by exists w]]).
  destruct (c_queued _ _ C i Hq) as (u & Hu & Hqu). rewrite Hi in Hu. injection Hu as <-.
  destruct Hqu as (_ & w1 & [= <-] & Hg).
  eapply (core_pending init s _ l1 (CancelExec i) l2 [RemoveWake i]);
    [exact C | exact Hp | exact Hi | reflexivity | simpl; by rewrite <- app_assoc |..]; simpl; try done; auto.
  - apply C.
  - intros _. split; [by left|]. eexists. split; [reflexivity | done].
  - unfold wake_ok. simpl. rewrite !occ_single, W2, R2. left. split_and!; [lia | lia | done].
  - intros. rewrite !elem_of_app, list_elem_of_singleton. tauto.
  - intros Hin. apply Hr. rewrite app_assoc, elem_of_app, list_elem_of_singleton in Hin. naive_solver.
Qed.

Lemma remove_spec i ts q j : j ∈ remove_waiter i ts q <-> j <> i /\ waiter_done ts j = false /\ j ∈ q.
Proof. unfold remove_waiter. rewrite list_elem_of_filter. tauto. Qed.

Lemma core_remove_wake init i l1 l2 s s' :
  core init s -> s_pending s = l1 ++ RemoveWake i :: l2 ->
  perform (RemoveWake i) (with_pending (l1 ++ l2) s) = Some s' -> core init s'.
Proof.
  intros C Hp. simpl. intros [= <-].
  destruct (pending_task init s (RemoveWake i) C) as (t & Hi). { rewrite Hp. apply elem_of_app. right. constructor. }
  simpl in Hi. pose proof (c_task _ _ C i t Hi) as Hok. pose proof (c_wakes _ _ C i t Hi) as Hw.
  rewrite Hp, !occ_taken in Hw. destruct (to_wake_self i) as (W1 & W2 & W3 & R1 & R2 & R3 & W4 & R4 & _).
  rewrite W2, R2 in Hw. pose proof (removal_pending init s i t l1 _ l2 C Hp Hi) as Hr.
  eapply (core_pending init s _ l1 (RemoveWake i) l2 [Wake i]);
    [exact C | exact Hp | exact Hi | simpl; by rewrite list_insert_id | simpl; by rewrite <- app_assoc |..]; simpl; try done; auto.
  - apply NoDup_filter, C.
  - intros j. rewrite remove_spec. tauto.
  - intros j u Hu Hne Hl Hj. apply remove_spec. split_and!; [done | by eapply live_not_done | done].
  - rewrite remove_spec. tauto.
  - intros (Hph & w & Hwt & Hd). unfold wake_ok in Hw. rewrite Hph, Hwt, Hd in Hw. lia.
  - rewrite !occ_single, W1, R1, Nat.add_comm, (Nat.add_comm (occ (to_resume i) _)). exact Hw.
  - intros w. rewrite remove_spec. tauto.
  - intros Hin. apply Hr. rewrite app_assoc, elem_of_app, list_elem_of_singleton in Hin. naive_solver.
Qed.

Lemma core_remove_dead init i l1 l2 s s' :
  core init s -> s_pending s = l1 ++ Remove i :: l2 ->
  perform (Remove i) (with_pending (l1 ++ l2) s) = Some s' -> core init s'.
Proof.
  intros C Hp. simpl. intros [= <-].
  assert (Remove i ∈ s_pending s) as Hin0. { rewrite Hp. apply elem_of_app. right. constructor. }
  destruct (pending_task init s (Remove i) C Hin0) as (t & Hi). simpl in Hi.
  pose proof (c_removed _ _ C i t Hin0 Hi) as Hph. pose proof (c_task _ _ C i t Hi) as Hok.
  eapply (core_pending init s _ l1 (Remove i) l2 []);
    [exact C | exact Hp | exact Hi | simpl; by rewrite list_insert_id | simpl; by rewrite app_nil_r |..]; simpl; try done; auto.
  - apply NoDup_filter, C.
  - intros j. rewrite remove_spec. tauto.
  - intros j u Hu Hne Hl Hj. apply remove_spec. split_and!; [done | by eapply live_not_done | done].
  - rewrite remove_spec. tauto.
  - intros (? & _). congruence.
  - unfold wake_ok. rewrite Hph. done.
  - intros w. rewrite remove_spec. tauto.
Qed.

Lemma core_perform init a l1 l2 s s' :
  core init s -> s_pending s = l1 ++ a :: l2 -> perform a (with_pending (l1 ++ l2) s) = Some s' -> core init s'.
Proof.
  destruct a; eauto using core_wake, core_resume, core_cancel_exec, core_remove_wake, core_remove_dead.
Qed.

(** A new call is on its way to task [i], which changes to [t']. *)
Lemma core_call init s s' i a t t' :
  core init s -> s_tasks s !! i = Some t -> s_tasks s' = <[i := t']> (s_tasks s) ->
  s_pending s' = s_pending s ++ [a] -> target a = i -> to_wake i a = false -> to_resume i a = false ->
  s_res s' = s_res s -> s_direct s' = s_direct s -> s_put s' = s_put s -> s_queue s' = s_queue s -> owns t' = owns t ->
  task_ok t' -> (queued_ok t -> queued_ok t') -> (live t' -> live t) ->
  wake_ok t' (occ (to_wake i) (s_pending s)) (occ (to_resume i) (s_pending s)) ->
  (forall w', t_phase t' = Suspended -> t_waiter t' = Some w' -> w_done w' = true ->
     exists w, t_phase t = Suspended /\ t_waiter t = Some w /\ w_done w = true) ->
  (t_phase t = Destroyed \/ a = Remove i -> t_phase t' = Destroyed) ->
  core init s'.
Proof.
  intros C Hi Ht Hp Ha Hwk Hrs Hr Hd Hpt Hq Ho Hok Hqo Hl Hw Hm Hrm.
  apply (core_update init s s' i t t' C Hi Ht); rewrite ?Hp, ?Hq; auto.
  - rewrite Hr, Hd, Hpt, Ho. done.
  - apply C.
  - intros Hin. destruct (c_queued _ _ C i Hin) as (u & Hu & Hqu). apply Hqo. congruence.
  - intros Hli. by eapply (c_live _ _ C i t), Hl.
  - intros j Hne. rewrite about_app, about_cons_ne by congruence. apply app_nil_r.
  - rewrite !occ_app, !occ_single, Hwk, Hrs, !Nat.add_0_r. done.
  - intros w' Hin Hph Hw' Hd'. destruct (Hm w' Hph Hw' Hd') as (w & ? & ? & ?). apply elem_of_app. left.
    by eapply (c_marked _ _ C i t w).
  - rewrite elem_of_app, list_elem_of_singleton. intros [Hin|<-]; apply Hrm; [left | by right].
    by eapply (c_removed _ _ C i t).
Qed.

Lemma core_request_cancel init i s s' : core init s -> request_cancel true i s = Some s' -> core init s'.
Proof.
  intros C. unfold request_cancel. destruct (s_tasks s !! i) as [t|] eqn:Hi; [|done].
  destruct (t_waiter t) as [w|] eqn:Hwt; [|done]. destruct (t_handler t) eqn:Hh; [|done]. intros [= <-].
  pose proof (c_task _ _ C i t Hi) as Hok. pose proof (c_wakes _ _ C i t Hi) as Hw.
  destruct (to_wake_self i) as (_ & _ & _ & _ & _ & _ & W4 & R4 & _).
  destruct t as [ph slot canc hand taken wt]. simpl in *. subst wt hand.
  eapply (core_call init s _ i (CancelExec i) _); [exact C | exact Hi | reflexivity | reflexivity | done | exact W4 | exact R4 |..];
    simpl; try done; auto.
  - unfold task_ok, uncancelable in *. destruct ph; simpl in *; naive_solver.
  - intros [? (w0 & [= <-] & ?)]. split; [done|]. eexists. split; [reflexivity | done].
  - intros [? (w0 & [= <-] & ?)]. split; [done|]. eexists. split; [reflexivity | done].
  - intros w' -> [= <-] Hd. by exists w.
  - by intros [?|?].
Qed.

Lemma core_destroy init i s s' : core init s -> destroy i s = Some s' -> core init s'.
Proof.
  intros C. unfold destroy. destruct (s_tasks s !! i) as [t|] eqn:Hi; [|done].
  destruct (t_waiter t) as [w|] eqn:Hwt; [|done]. destruct (decide _) as [Hph|]; [|done]. intros [= <-].
  pose proof (c_task _ _ C i t Hi) as Hok. destruct (to_wake_self i) as (_ & _ & _ & _ & _ & _ & _ & _ & W5 & R5).
  destruct t as [ph slot canc hand taken wt]. simpl in *. subst wt ph.
  eapply (core_call init s _ i (Remove i) _); [exact C | exact Hi | reflexivity | reflexivity | done | exact W5 | exact R5 |..];
    simpl; try done; auto.
  - unfold task_ok in *. naive_solver.
  - intros [? (w0 & [= <-] & ?)]. split; [by right|]. eexists. split; [reflexivity | done].
  - by intros [? ?].
Qed.

Lemma core_signal init i t s :
  core init s -> s_tasks s !! i = Some t -> core init (put_task i (set_canceled t) s).
Proof.
  intros C Hi. pose proof (c_task _ _ C i t Hi) as Hok. pose proof (c_wakes _ _ C i t Hi) as Hw.
  eapply (core_update init s _ i t); [exact C | exact Hi | reflexivity |..]; simpl; auto.
  - unfold task_ok, uncancelable in *. destruct t as [[] ? ? ? ? [w|]]; simpl in *; naive_solver.
  - apply C.
  - intros Hq. destruct (c_queued _ _ C i Hq) as (u & Hu & Hqu). rewrite Hi in Hu. injection Hu as <-. exact Hqu.
  - intros Hl. by eapply (c_live _ _ C i t).
  - intros w Hq Hph Hw' Hd. by eapply (c_marked _ _ C i t w).
  - intros Hr. by apply (c_removed _ _ C i t).
Qed.

Lemma core_spawn init slot s : core init s -> core init (with_tasks (s_tasks s ++ [new_task slot]) s).
Proof.
  intros [C1 C2 C3 C4 C5 C6 C7 C8 C9].
  assert (forall i t, (s_tasks s ++ [new_task slot]) !! i = Some t ->
    s_tasks s !! i = Some t \/ (i = length (s_tasks s) /\ t = new_task slot)) as Hl.
  { intros i t. rewrite lookup_app. destruct (s_tasks s !! i) as [u|] eqn:E; [intros [= ->]; by left|].
    intros Ht. apply list_lookup_singleton_Some in Ht as [Hz ->]. apply lookup_ge_None in E. right. split; [lia | done]. }
  constructor; simpl.
  - rewrite owners_app, <- C1. unfold owners at 2. simpl. lia.
  - intros i t Ht. destruct (Hl i t Ht) as [?|[_ ->]]; [eauto | done].
  - done.
  - intros i Hi. destruct (C4 i Hi) as (t & Ht & Hq). exists t. split; [by apply lookup_app_l_Some | done].
  - intros i t Ht Hli. destruct (Hl i t Ht) as [?|[_ ->]]; [eauto | by destruct Hli].
  - intros i t Ht. destruct (Hl i t Ht) as [?|[-> ->]]; [eauto|]. apply about_none, C7. done.
  - intros i. rewrite length_app. simpl. intros Hge. apply C7. lia.
  - intros i t w Hq Ht Hph. destruct (Hl i t Ht) as [?|[_ ->]]; [eauto | done].
  - intros i t Hr Ht. destruct (Hl i t Ht) as [?|[-> ->]]; [eauto|].
    assert (about (length (s_tasks s)) (s_pending s) = []) as Hn0 by (apply C7; lia).
    destruct (about_same _ [] (s_pending s) Hn0) as (_ & _ & Hs). apply Hs in Hr; [by apply not_elem_of_nil in Hr | done].
Qed.

Lemma core_direct init s s' :
  core init s -> try_take s = (true, s') ->
  core init (mkSt (s_res s') (s_queue s') (s_tasks s') (s_pending s') (s_direct s' + 1) (s_put s')).
Proof.
  intros C E. apply try_take_spec in E as (E1 & E2 & E3 & E4 & E5 & E6). apply core_compact in C as [C1 C2 C3 C4 C5 C6 C7 C8 C9].
  simpl in *. constructor; simpl; rewrite ?E1, ?E2, ?E3, ?E4, ?E5, ?E6; auto. lia.
Qed.

(** The call made at once is the call posted and run. *)
Lemma request_cancel_inline i t s s' :
  s_tasks s !! i = Some t -> idle (t_phase t) = true -> request_cancel false i s = Some s' ->
  exists s1, request_cancel true i s = Some s1 /\ s_pending s1 = s_pending s ++ CancelExec i :: [] /\
    perform (CancelExec i) (with_pending (s_pending s ++ []) s1) = Some s'.
Proof.
  intros Hi Hidle. unfold request_cancel. rewrite Hi. destruct (t_waiter t) as [w|]; [|done]. destruct (t_handler t); [|done].
  intros [= <-]. eexists. split_and!; [done | done |]. simpl. rewrite list_lookup_insert_eq by (by eapply lookup_lt_Some).
  simpl. rewrite Hidle, app_nil_r. done.
Qed.

Lemma core_step init s s' : core init s -> task_step s s' -> core init s'.
Proof.
  intros C Hs. revert C.
  destruct Hs as [slot s0|e i s0 s1 H1|a l1 l2 s0 s1 H1 H2|i t s0 H1 H2|i s0 s1 H1|i t s0 s2 H1 H2 H3|i s0 s1 H1|s0 s1 H1|s0 s1 H1]; intros C.
  - by apply core_spawn.
  - by eapply core_advance.
  - by eapply core_perform.
  - by apply core_signal.
  - by eapply core_request_cancel.
  - destruct (request_cancel_inline i t s0 s2 H1 H2 H3) as (s1 & E1 & E2 & E3).
    eapply core_cancel_exec; [|exact E2 | exact E3]. by eapply core_request_cancel.
  - by eapply core_destroy.
  - by eapply core_direct.
  - unfold try_take in H1. simpl in H1. destruct (g_take (s_res s0)); simplify_eq. by apply core_compact.
Qed.

(** *** Nobody waits while a unit is free *)

Lemma busy_update s s' :
  busy s -> (g_avail (s_res s') <= g_avail (s_res s))%Z ->
  (forall i t', s_tasks s' !! i = Some t' -> live t' -> exists t, s_tasks s !! i = Some t /\ live t) -> busy s'.
Proof.
  intros [Hb|Hb] Ha Hl.
  - left. pose proof (g_avail_nonneg (s_res s')). lia.
  - right. intros i t' Ht' Hlt. destruct (Hl i t' Ht' Hlt) as (t & Ht & Hlt'). by eapply Hb.
Qed.

Lemma busy_put s i t t' :
  busy s -> s_tasks s !! i = Some t -> (live t' -> live t) -> forall s',
  (g_avail (s_res s') <= g_avail (s_res s))%Z -> s_tasks s' = <[i := t']> (s_tasks s) -> busy s'.
Proof.
  intros Hb Hi Hl s' Ha Ht. apply (busy_update s s' Hb Ha). intros j u Hu Hlu. rewrite Ht in Hu.
  destruct (decide (j = i)) as [->|Hne].
  - rewrite list_lookup_insert_eq in Hu by (by eapply lookup_lt_Some). injection Hu as <-. eauto.
  - rewrite list_lookup_insert_ne in Hu by done. eauto.
Qed.

Lemma busy_advance emplaced i s s' : busy s -> advance emplaced i s = Some s' -> busy s'.
Proof.
  intros Hb. unfold advance. destruct (s_tasks s !! i) as [t|] eqn:Hi; [|done].
  destruct (t_phase t) eqn:Hph; try done.
  - intros [= <-]. eapply (busy_put s i); [exact Hb | exact Hi | | simpl; lia | reflexivity].
    intros [? _]. by destruct (t_canceled t).
  - destruct (try_take s) as [ok s1] eqn:E. apply try_take_spec in E as (E1 & _ & _ & _ & _ & E6). intros [= <-].
    destruct ok; (eapply (busy_put s i); [exact Hb | exact Hi | | simpl; lia | simpl; by rewrite E1]); by intros [? _].
  - intros [= <-]. destruct (t_slot t), emplaced;
      (eapply (busy_put s i); [exact Hb | exact Hi | | simpl; lia | reflexivity]); by intros [? _].
  - destruct (t_waiter t) as [w|] eqn:Hwt; [|done]. unfold enqueue_waiter. simpl.
    destruct (w_done w) eqn:Hd; simpl.
    + rewrite Hi. intros [= <-]. eapply (busy_put s i); [exact Hb | exact Hi | | simpl; lia | reflexivity]. by intros [? _].
    + destruct (g_take (s_res s)) as [r|] eqn:E; simpl.
      * rewrite list_lookup_insert_eq by (by eapply lookup_lt_Some). intros [= <-].
        eapply (busy_put s i); [exact Hb | exact Hi | | | simpl; by rewrite list_insert_insert_eq]; [by intros [? _]|].
        simpl. apply g_take_some in E. lia.
      * rewrite Hi. intros [= <-]. left. by apply g_take_none.
  - intros [= <-]. eapply (busy_put s i); [exact Hb | exact Hi | | simpl; lia | reflexivity].
    intros [Hs _]. simpl in Hs. unfold resume_outcome in Hs.
    destruct (t_waiter t) as [w|]; [destruct (w_granted w) | ]; destruct (t_canceled t); done.
Qed.

Lemma busy_perform a s s' : busy s -> perform a s = Some s' -> busy s'.
Proof.
  intros Hb. destruct a as [i|i|i|i|i]; simpl.
  - destruct (s_tasks s !! i) as [t|] eqn:Hi; [|done]. destruct (t_waiter t) as [w|] eqn:Hw; [|done].
    destruct (w_abandoned w); [by intros [= <-]|]. destruct (w_continuation w); [|by intros [= <-]]. intros [= <-].
    eapply (busy_put s i); [exact Hb | exact Hi | | simpl; lia | reflexivity].
    intros [? (w0 & [= <-] & ?)]. split; [done | by exists w].
  - destruct (s_tasks s !! i) as [t|] eqn:Hi; [|done]. destruct (decide _); [|done]. intros [= <-].
    eapply (busy_put s i); [exact Hb | exact Hi | | simpl; lia | reflexivity]. by intros [? _].
  - destruct (s_tasks s !! i) as [t|] eqn:Hi; [|done]. destruct (t_waiter t) as [w|] eqn:Hw; [|done].
    destruct (idle _); [|done]. unfold cancel_on_executor, try_mark_canceled.
    destruct (w_cancel_requested w); simpl; [|by intros [= <-]]. destruct (w_done w); [by intros [= <-]|]. intros [= <-].
    eapply (busy_put s i); [exact Hb | exact Hi | | simpl; lia | reflexivity]. by intros [? (w0 & [= <-] & ?)].
  - intros [= <-]. exact Hb.
  - intros [= <-]. exact Hb.
Qed.

Lemma busy_request_cancel i s s' : busy s -> request_cancel true i s = Some s' -> busy s'.
Proof.
  intros Hb H1. unfold request_cancel in H1. destruct (s_tasks s !! i) as [t|] eqn:Hi; [|done].
  destruct (t_waiter t) as [w|] eqn:Hw; [|done]. destruct (t_handler t); [|done]. injection H1 as <-.
  eapply (busy_put s i); [exact Hb | exact Hi | | simpl; lia | reflexivity].
  intros [? (w0 & [= <-] & ?)]. split; [done | by exists w].
Qed.

Lemma busy_step s s' : busy s -> task_step s s' -> busy s'.
Proof.
  intros Hb Hs. revert Hb.
  destruct Hs as [slot s0|e i s0 s1 H1|a l1 l2 s0 s1 H1 H2|i t s0 H1 H2|i s0 s1 H1|i t s0 s2 H1 H2 H3|i s0 s1 H1|s0 s1 H1|s0 s1 H1]; intros Hb.
  - apply (busy_update s0 _ Hb); [simpl; lia|]. simpl. intros i t' Ht Hl. rewrite lookup_app in Ht.
    destruct (s_tasks s0 !! i) as [u|]; [simplify_eq; eauto|]. apply list_lookup_singleton_Some in Ht as [_ <-].
    by destruct Hl.
  - by eapply busy_advance.
  - by eapply busy_perform, H2.
  - eapply (busy_put s0 i); [exact Hb | exact H1 | | simpl; lia | reflexivity]. done.
  - by eapply busy_request_cancel.
  - destruct (request_cancel_inline i t s0 s2 H1 H2 H3) as (s1 & E1 & _ & E3).
    eapply busy_perform, E3. by eapply busy_request_cancel in E1.
  - unfold destroy in H1. destruct (s_tasks s0 !! i) as [t|] eqn:Hi; [|done].
    destruct (t_waiter t) as [w|] eqn:Hw; [|done]. destruct (decide _); [|done]. injection H1 as <-.
    eapply (busy_put s0 i); [exact Hb | exact Hi | | simpl; lia | reflexivity]. by intros [? _].
  - apply try_take_spec in H1 as (E1 & _ & _ & _ & _ & E6).
    apply (busy_update s0 _ Hb); simpl; [lia|]. rewrite E1. eauto.
  - apply try_take_spec in H1 as (E1 & _ & _ & _ & _ & E6).
    apply (busy_update s0 _ Hb); simpl; [lia|]. rewrite E1. eauto.
Qed.

(** *** Handing units out

    The body of the loops of [release] and [unlock]: the first waiter is
    taken off the queue and, unless it is marked, granted a unit. *)

Lemma core_drop init s i q :
  core init s -> s_queue s = i :: q -> waiter_done (s_tasks s) i = true -> core init (with_queue q s).
Proof.
  intros C Hq Hd. pose proof (c_nodup _ _ C) as Hn. rewrite Hq in Hn. apply NoDup_cons in Hn as [Hni Hn].
  apply core_queue; [done | done | intros j Hj; rewrite Hq; by constructor |].
  intros j u Hu Hl Hj. rewrite Hq in Hj. apply elem_of_cons in Hj as [->|?]; [|done].
  pose proof (live_not_done _ _ _ Hu Hl). congruence.
Qed.

Lemma core_grant init s i q ts' r' :
  core init s -> s_queue s = i :: q -> grant i (s_tasks s) = (true, ts') -> g_avail r' = (g_avail (s_res s) - 1)%Z ->
  core init (mkSt r' q ts' (s_pending s ++ [Wake i]) (s_direct s) (s_put s)).
Proof.
  intros C Hq Hg Hr. pose proof (c_nodup _ _ C) as Hn. rewrite Hq in Hn. apply NoDup_cons in Hn as [Hni Hn].
  unfold grant in Hg. destruct (s_tasks s !! i) as [t|] eqn:Hi; [|done]. destruct (t_waiter t) as [w|] eqn:Hw; [|done].
  unfold try_mark_granted in Hg. destruct (w_done w) eqn:Hd; [done|]. injection Hg as <-.
  destruct (c_queued _ _ C i) as (u & Hu & [Hph (w1 & Hw1 & Hgr)]). { rewrite Hq. constructor. }
  rewrite Hi in Hu. injection Hu as <-. rewrite Hw in Hw1. injection Hw1 as <-.
  pose proof (c_task _ _ C i t Hi) as Hok. pose proof (c_wakes _ _ C i t Hi) as Hwk.
  destruct (to_wake_self i) as (W1 & _ & _ & R1 & _).
  destruct t as [ph slot canc hand taken wt]. simpl in *. subst wt. unfold task_ok in Hok. unfold wake_ok in Hwk.
  destruct Hph as [->| ->]; simpl in *; [|destruct Hok as (_ & ? & _); congruence]. rewrite Hd in Hwk. destruct Hwk as (K1 & K2 & Kc).
  destruct Hok as (-> & Hab & _).
  eapply (core_update init s _ i); [exact C | exact Hi | reflexivity |..]; simpl; try done.
  - unfold owns. simpl. rewrite Hgr. lia.
  - intros j Hj _. rewrite Hq. by constructor.
  - intros j u Hne Hu Hl Hj. rewrite Hq in Hj. by apply elem_of_cons in Hj as [?|?].
  - by intros (_ & w0 & [= <-] & ?).
  - intros j Hne. rewrite about_app, about_cons_ne by (simpl; congruence). apply app_nil_r.
  - unfold wake_ok. simpl. rewrite !occ_app, !occ_single, W1, R1. left. split_and!; [lia | lia | done].
  - rewrite elem_of_app, list_elem_of_singleton. intros [Hin|?]; [|done].
    by pose proof (c_removed _ _ C i _ Hin Hi).
Qed.

Lemma grant_fails i ts ts' : grant i ts = (false, ts') -> waiter_done ts i = true /\ ts' = ts.
Proof.
  unfold grant, waiter_done. destruct (ts !! i) as [t|] eqn:Hi; [|by intros [= <-]].
  destruct (t_waiter t) as [w|] eqn:Hw; [|by intros [= <-]]. unfold try_mark_granted.
  destruct (w_done w); [|done]. intros [= <-]. split; [done|]. apply list_insert_id. rewrite Hi. f_equal.
  destruct t. simpl in *. by subst.
Qed.

(** *** A marked waiter is resumed by its own pending calls *)

Lemma resume_ready s i t :
  Resume i ∈ s_pending s -> s_tasks s !! i = Some t -> t_phase t = Suspended ->
  exists s' t', rtc task_step s s' /\ s_tasks s' !! i = Some t' /\ t_phase t' = resume_outcome t.
Proof.
  intros Hin Hi Hph. apply list_elem_of_split in Hin as (l1 & l2 & Hp). pose proof (lookup_lt_Some _ _ _ Hi) as Hlt.
  set (s1 := put_task i (set_phase AtResume t) (with_pending (l1 ++ l2) s)).
  assert (task_step s s1) as H1.
  { eapply step_perform; [exact Hp|]. simpl. rewrite Hi. by rewrite decide_True. }
  assert (s_tasks s1 !! i = Some (set_phase AtResume t)) as Hi1 by (simpl; by rewrite list_lookup_insert_eq).
  set (granted := match t_waiter t with Some w => w_granted w | None => false end).
  set (t2 := set_phase (resume_outcome t) (if granted then set_handler false (set_phase AtResume t) else set_phase AtResume t)).
  exists (put_task i t2 s1), t2. split_and!.
  - eapply rtc_l; [exact H1|]. apply rtc_once. apply (step_advance true i). unfold advance. rewrite Hi1. done.
  - simpl. rewrite list_lookup_insert_eq; [done|]. by rewrite length_insert.
  - done.
Qed.

Lemma wake_ready s i t w :
  Wake i ∈ s_pending s -> s_tasks s !! i = Some t -> t_phase t = Suspended -> t_waiter t = Some w ->
  w_abandoned w = false -> w_continuation w = true ->
  exists s' t', rtc task_step s s' /\ s_tasks s' !! i = Some t' /\ t_phase t' = resume_outcome t.
Proof.
  intros Hin Hi Hph Hw Ha Hc. apply list_elem_of_split in Hin as (l1 & l2 & Hp). pose proof (lookup_lt_Some _ _ _ Hi) as Hlt.
  set (t1 := set_waiter (drop_continuation w) t).
  set (s1 := with_pending ((l1 ++ l2) ++ [Resume i]) (put_task i t1 (with_pending (l1 ++ l2) s))).
  assert (task_step s s1) as H1.
  { eapply step_perform; [exact Hp|]. simpl. by rewrite Hi, Hw, Ha, Hc. }
  destruct (resume_ready s1 i t1) as (s' & t' & Hr & Ht & Hph'); [| |done|].
  - simpl. apply elem_of_app. right. by apply list_elem_of_singleton.
  - simpl. by rewrite list_lookup_insert_eq.
  - exists s', t'. split_and!; [by eapply rtc_l | done |]. rewrite Hph'. unfold resume_outcome. simpl. by rewrite Hw.
Qed.

Lemma marked_resumes init s i t w :
  core init s -> s_tasks s !! i = Some t -> t_phase t = Suspended -> t_waiter t = Some w -> w_done w = true ->
  exists s' t', rtc task_step s s' /\ s_tasks s' !! i = Some t' /\ t_phase t' = resume_outcome t.
Proof.
  intros C Hi Hph Hw Hd. pose proof (c_wakes _ _ C i t Hi) as Hk. unfold wake_ok in Hk. rewrite Hph, Hw, Hd in Hk.
  pose proof (c_task _ _ C i t Hi) as Hok. unfold task_ok in Hok. rewrite Hph, Hw in Hok. destruct Hok as (_ & Ha & _).
  assert (forall f, occ f (s_pending s) = 1 -> exists a, a ∈ s_pending s /\ f a = true) as Hex.
  { intros f Ho. unfold occ in Ho. destruct (List.filter f (s_pending s)) as [|a l] eqn:E; [done|].
    exists a. rewrite list_elem_of_In. apply List.filter_In. rewrite E. by left. }
  destruct Hk as [(K1 & _ & Kc)|(_ & K2 & Kc)].
  - destruct (Hex _ K1) as (a & Hin & Ha'). unfold to_wake in Ha'. rewrite orb_true_iff, !bool_decide_eq_true in Ha'.
    destruct Ha' as [->| ->]; [by eapply wake_ready|].
    apply list_elem_of_split in Hin as (l1 & l2 & Hp).
    set (s1 := with_pending ((l1 ++ l2) ++ [Wake i]) (with_queue (remove_waiter i (s_tasks s) (s_queue s)) (with_pending (l1 ++ l2) s))).
    assert (task_step s s1) as H1 by (eapply step_perform; [exact Hp | done]).
    destruct (wake_ready s1 i t w) as (s' & t' & Hr & Ht & Hph'); try done.
    + simpl. apply elem_of_app. right. by apply list_elem_of_singleton.
    + exists s', t'. split_and!; [by eapply rtc_l | done | done].
  - destruct (Hex _ K2) as (a & Hin & Ha'). unfold to_resume in Ha'. apply bool_decide_eq_true in Ha' as ->.
    by eapply resume_ready.
Qed.
End Invariant.

(** ** Executing events

    The transitions of tasks and environment as a function, to run concrete
    interleavings. *)

Inductive event :=
| EvSpawn (slot : bool)
| EvAdvance (emplaced : bool) (i : nat)
| EvPerform (k : nat)            (* the [k]-th pending call *)
| EvSignal (i : nat)
| EvHandler (i : nat)
| EvHandlerInline (i : nat)
| EvDestroy (i : nat)
| EvDirect.

Section Execute.
Context {R : Type} `{Gate R}.
Implicit Types s : St R.

Definition run_event (e : event) (s : St R) : option (St R) :=
  match e with
  | EvSpawn slot => Some (with_tasks (s_tasks s ++ [new_task slot]) s)
  | EvAdvance emplaced i => advance emplaced i s
  | EvPerform k =>
      match s_pending s !! k with
      | Some a => perform a (with_pending (take k (s_pending s) ++ drop (S k) (s_pending s)) s)
      | None => None
      end
  | EvSignal i =>
      match s_tasks s !! i with
      | Some t => if t_slot t then Some (put_task i (set_canceled t) s) else None
      | None => None
      end
  | EvHandler i => request_cancel true i s
  | EvHandlerInline i =>
      match s_tasks s !! i with
      | Some t => if idle (t_phase t) then request_cancel false i s else None
      | None => None
      end
  | EvDestroy i => destroy i s
  | EvDirect =>
      match try_take s with
      | (true, s') => Some (mkSt (s_res s') (s_queue s') (s_tasks s') (s_pending s') (s_direct s' + 1) (s_put s'))
      | (false, _) => None
      end
  end.

Lemma run_event_sound e s s' : run_event e s = Some s' -> task_step s s'.
Proof.
  destruct e as [slot|emplaced i|k|i|i|i|i|]; simpl.
  - intros [= <-]. apply step_spawn.
  - apply step_advance.
  - destruct (s_pending s !! k) as [a|] eqn:E; [|done]. apply step_perform. by apply take_drop_middle in E.
  - destruct (s_tasks s !! i) as [t|] eqn:E; [|done]. destruct (t_slot t) eqn:Es; [|done]. intros [= <-]. by apply step_signal.
  - apply step_handler.
  - destruct (s_tasks s !! i) as [t|] eqn:E; [|done]. destruct (idle (t_phase t)) eqn:Ei; [|done]. by eapply step_handler_inline.
  - apply step_destroy.
  - destruct (try_take s) as [[] s1] eqn:E; [|done]. intros [= <-]. by apply step_direct.
Qed.
End Execute.
