(* ===== verification/AsyncReturned.v ===== *)
(** * Acquisitions that have returned

    What the users of the waiting machine of [AsyncWait.v] build on: a task
    whose [lock] or [acquire] has returned stays so, owns a unit, and distinct
    ones own distinct units. *)

From S2P Require Import Prelude Counting AsyncWait.

(** Distinct tasks that own a permit are at most the owners. *)
Lemma owners_ge ts ids :
  NoDup ids -> (forall i, i ∈ ids -> exists t, ts !! i = Some t /\ owns t = true) -> (Z.of_nat (length ids) <= owners ts)%Z.
Proof.
  revert ids. induction ts as [|t ts IH] using rev_ind; intros ids Hnd Hids.
  - destruct ids as [|i ids]; [unfold owners; simpl; lia|]. destruct (Hids i) as (t & Ht & _); [constructor | done].
  - rewrite owners_app. set (rest := List.filter (fun i => negb (Nat.eqb i (length ts))) ids).
    assert (Z.of_nat (length rest) <= owners ts)%Z as Hrest.
    { apply IH.
      - apply NoDup_ListNoDup, List.NoDup_filter. by apply NoDup_ListNoDup.
      - intros i Hi. apply list_elem_of_In, List.filter_In in Hi as [Hi Hne]. apply list_elem_of_In in Hi.
        destruct (Hids i Hi) as (u & Hu & Ho). exists u. split; [|done]. rewrite lookup_app in Hu.
        destruct (ts !! i) as [x|] eqn:E; [by simplify_eq|]. apply lookup_ge_None in E.
        apply list_lookup_singleton_Some in Hu as [Hz _]. apply negb_true_iff, Nat.eqb_neq in Hne. lia. }
    assert (length ids <= length rest + count (fun i => Nat.eqb i (length ts)) ids) as Hsplit.
    { subst rest. unfold count. clear. induction ids as [|i ids IH]; simpl; [lia|]. destruct (Nat.eqb i (length ts)); simpl; lia. }
    assert (Z.of_nat (count (fun i => Nat.eqb i (length ts)) ids) <= owners [t])%Z as Hone.
    { clear -Hnd Hids. unfold count. destruct (List.filter _ ids) as [|i l] eqn:E; [unfold owners; simpl length; lia|].
      assert (i ∈ ids /\ i = length ts) as [Hi ->].
      { assert (In i (i :: l)) as Hin by (by left). rewrite <- E in Hin. apply List.filter_In in Hin as [? ?].
        rewrite list_elem_of_In, <- Nat.eqb_eq. done. }
      destruct (Hids _ Hi) as (u & Hu & Ho). rewrite lookup_app_r, Nat.sub_diag in Hu by lia. simpl in Hu. injection Hu as <-.
      unfold owners. rewrite filter_cons, decide_True by done. simpl.
      assert (NoDup (length ts :: l)) as Hn.
      { rewrite <- E. apply NoDup_ListNoDup, List.NoDup_filter. by apply NoDup_ListNoDup. }
      destruct l as [|j l]; [simpl; lia|]. exfalso. apply NoDup_cons in Hn as [Hn _]. apply Hn.
      assert (In j (length ts :: j :: l)) as Hin by (right; by left). rewrite <- E in Hin.
      apply List.filter_In in Hin as [_ Hj]. apply Nat.eqb_eq in Hj as ->. constructor. }
    lia.
Qed.


(** Granting a waiter does not move its task. *)
Lemma grant_phases i ts ok ts' :
  grant i ts = (ok, ts') -> length ts' = length ts /\ forall j, t_phase <$> ts' !! j = t_phase <$> ts !! j.
Proof.
  unfold grant. destruct (ts !! i) as [t|] eqn:Hi; [|by intros [= _ <-]]. destruct (t_waiter t) as [w|]; [|by intros [= _ <-]].
  destruct (try_mark_granted w) as [ok' w']. intros [= _ <-]. rewrite length_insert. split; [done|]. intros j.
  destruct (decide (j = i)) as [->|Hne]; [|by rewrite list_lookup_insert_ne].
  rewrite list_lookup_insert_eq by (by eapply lookup_lt_Some). by rewrite Hi.
Qed.

Section Returned.
Context {R : Type} `{GateLaws R}.
Implicit Types s : St R.

Definition returned s (i : nat) : bool :=
  match s_tasks s !! i with Some t => bool_decide (t_phase t = Returned) | None => false end.

(** A returned acquisition owns a unit. *)
Lemma returned_owns init s i : core init s -> returned s i = true -> exists t, s_tasks s !! i = Some t /\ owns t = true.
Proof.
  intros C. unfold returned. destruct (s_tasks s !! i) as [t|] eqn:E; [|done]. intros Hr%bool_decide_eq_true.
  exists t. split; [done|]. pose proof (c_task _ _ C i t E) as Hok. unfold task_ok in Hok. rewrite Hr in Hok.
  destruct (t_waiter t); [apply Hok | exact Hok].
Qed.

(** ** What the steps of tasks keep *)

Definition keeps s s' : Prop :=
  s_put s' = s_put s /\ (length (s_tasks s) <= length (s_tasks s'))%nat /\
  forall i, returned s i = true -> returned s' i = true.

Lemma keeps_refl_tasks s s' : s_put s' = s_put s -> s_tasks s' = s_tasks s -> keeps s s'.
Proof. intros Hp Ht. unfold keeps, returned. by rewrite Hp, Ht. Qed.

Lemma returned_insert s s' i t t' :
  s_tasks s !! i = Some t -> s_tasks s' = <[i := t']> (s_tasks s) -> (t_phase t = Returned -> t_phase t' = Returned) ->
  (length (s_tasks s) <= length (s_tasks s'))%nat /\ forall j, returned s j = true -> returned s' j = true.
Proof.
  intros Hi Ht Hph. rewrite Ht, length_insert. split; [done|]. intros j. unfold returned. rewrite Ht.
  destruct (decide (j = i)) as [->|Hne]; [|by rewrite list_lookup_insert_ne].
  rewrite list_lookup_insert_eq by (by eapply lookup_lt_Some). rewrite Hi, !bool_decide_eq_true. done.
Qed.

Lemma keeps_insert s s' i t t' :
  s_tasks s !! i = Some t -> s_tasks s' = <[i := t']> (s_tasks s) -> s_put s' = s_put s ->
  (t_phase t = Returned -> t_phase t' = Returned) -> keeps s s'.
Proof. intros Hi Ht Hp Hph. split; [done|]. by eapply returned_insert. Qed.

Lemma keeps_try_take s s' ok : try_take s = (ok, s') -> s_put s' = s_put s /\ s_tasks s' = s_tasks s.
Proof. intros E. apply try_take_spec in E. naive_solver. Qed.

Lemma keeps_advance e i s s' : advance e i s = Some s' -> keeps s s'.
Proof.
  unfold advance. destruct (s_tasks s !! i) as [t|] eqn:Hi; [|done]. destruct (t_phase t) eqn:Hph; try done.
  - intros [= <-]. eapply keeps_insert; [exact Hi | reflexivity | done | congruence].
  - destruct (try_take s) as [ok s1] eqn:E. apply keeps_try_take in E as [E1 E2]. intros [= <-].
    destruct ok; (eapply keeps_insert; [exact Hi | simpl; by rewrite E2 | done | congruence]).
  - intros [= <-]. destruct (t_slot t), e; (eapply keeps_insert; [exact Hi | reflexivity | done | congruence]).
  - destruct (t_waiter t) as [w|]; [|done]. unfold enqueue_waiter. destruct (w_done w); simpl.
    + rewrite Hi. intros [= <-]. eapply keeps_insert; [exact Hi | reflexivity | done | congruence].
    + destruct (g_take _); simpl.
      * rewrite list_lookup_insert_eq by (by eapply lookup_lt_Some). intros [= <-].
        eapply keeps_insert; [exact Hi | simpl; by rewrite list_insert_insert_eq | done | congruence].
      * rewrite Hi. intros [= <-]. eapply keeps_insert; [exact Hi | reflexivity | done | congruence].
  - intros [= <-]. eapply keeps_insert; [exact Hi | reflexivity | done | congruence].
Qed.

Lemma keeps_perform a s s' : perform a s = Some s' -> keeps s s'.
Proof.
  destruct a as [i|i|i|i|i]; simpl; try (intros [= <-]; by apply keeps_refl_tasks).
  all: destruct (s_tasks s !! i) as [t|] eqn:Hi; [|done].
  - destruct (t_waiter t) as [w|]; [|done]. destruct (w_abandoned w); [intros [= <-]; by apply keeps_refl_tasks|].
    destruct (w_continuation w); intros [= <-]; [|by apply keeps_refl_tasks].
    by eapply keeps_insert; [exact Hi | reflexivity |..].
  - destruct (decide _) as [E|]; [|done]. intros [= <-]. eapply keeps_insert; [exact Hi | reflexivity | done | congruence].
  - destruct (t_waiter t) as [w|]; [|done]. destruct (idle _); [|done]. unfold cancel_on_executor.
    destruct (negb _); [intros [= <-]; by apply keeps_refl_tasks|].
    destruct (try_mark_canceled w) as [[] w']; intros [= <-]; [|by apply keeps_refl_tasks].
    by eapply keeps_insert; [exact Hi | reflexivity |..].
Qed.

Lemma keeps_request_cancel i s s' : request_cancel true i s = Some s' -> keeps s s'.
Proof.
  intros H1. unfold request_cancel in H1. repeat (case_match; try done). injection H1 as <-.
  by eapply keeps_insert; [eassumption | reflexivity |..].
Qed.

Lemma keeps_task_step s s' : task_step s s' -> keeps s s'.
Proof.
  destruct 1 as [slot s|e i s s' H1|a l1 l2 s s' H1 H2|i t s H1 H2|i s s' H1|i t s s' H1 H2 H3|i s s' H1|s s' H1|s s' H1].
  - split; [done|]. simpl. split; [rewrite length_app; lia|]. intros i. unfold returned. simpl. rewrite lookup_app.
    by destruct (s_tasks s !! i).
  - by eapply keeps_advance.
  - apply keeps_perform in H2. exact H2.
  - by eapply keeps_insert; [exact H1 | reflexivity |..].
  - by eapply keeps_request_cancel.
  - destruct (request_cancel_inline i t s s' H1 H2 H3) as (s1 & E1 & _ & E3). apply keeps_perform in E3.
    apply keeps_request_cancel in E1. destruct E1 as (A1 & A2 & A3), E3 as (B1 & B2 & B3). simpl in B1, B2.
    split_and!; [congruence | lia | intros j Hj; by apply B3, A3].
  - unfold destroy in H1. repeat (case_match; try done). injection H1 as <-.
    eapply keeps_insert; [eassumption | reflexivity | done | congruence].
  - apply keeps_try_take in H1 as [E1 E2]. by apply keeps_refl_tasks.
  - apply keeps_try_take in H1 as [E1 E2]. by apply keeps_refl_tasks.
Qed.

(** Only a direct call of [try_lock] counts as one. *)
Lemma run_event_direct e s s' : e <> EvDirect -> run_event e s = Some s' -> s_direct s' = s_direct s.
Proof.
  intros He. destruct e as [slot|emplaced i|k|i|i|i|i|]; simpl; try done.
  - by intros [= <-].
  - unfold advance. destruct (s_tasks s !! i) as [t|] eqn:Hi; [|done]. destruct (t_phase t); try done.
    + by intros [= <-].
    + destruct (try_take s) as [ok s1] eqn:E. apply try_take_spec in E. intros [= <-]. destruct ok; simpl; naive_solver.
    + intros [= <-]. by destruct (t_slot t), emplaced.
    + destruct (t_waiter t) as [w|]; [|done]. unfold enqueue_waiter. destruct (w_done w); simpl.
      * rewrite Hi. by intros [= <-].
      * destruct (g_take _); simpl; repeat case_match; by intros; simplify_eq.
    + by intros [= <-].
  - destruct (s_pending s !! k) as [a|]; [|done]. destruct a; simpl; unfold cancel_on_executor; repeat case_match; by intros; simplify_eq.
  - destruct (s_tasks s !! i) as [t|]; [|done]. destruct (t_slot t); by intros; simplify_eq.
  - unfold request_cancel. repeat case_match; by intros; simplify_eq.
  - unfold request_cancel, cancel_on_executor. repeat case_match; by intros; simplify_eq.
  - unfold destroy. repeat case_match; by intros; simplify_eq.
Qed.
End Returned.
