(* ===== verification/AsyncSemaphore.v ===== *)
(** * AsyncSemaphore (async_semaphore.h)

    The semaphore on top of the waiting machine of [AsyncWait.v]: the
    resource is the counter [_permits], a [std::size_t].  The theorems hold in
    every state that is reachable by any interleaving of acquiring tasks,
    [try_acquire], [release], cancellation and destruction: permits are
    neither created nor lost, no task waits while a permit is free, a marked
    waiter is resumed exactly once, and [release] serves waiters in order.
    The last theorem exhibits the interleaving in which a permit is taken by
    an acquisition that then throws. *)

From S2P Require Import Prelude AsyncWait.

Local Open Scope N_scope.

#[export] Instance semaphore_gate : Gate N := {
  g_take permits := if permits =? 0 then None else Some (permits - 1);
  g_avail := Z.of_N;
  g_canceled := "corouv async semaphore acquire canceled"%bs;
  g_failed := "corouv::AsyncSemaphore acquire failed"%bs
}.

#[export] Instance semaphore_laws : GateLaws N.
Proof.
  constructor; simpl.
  - intros r r'. destruct (N.eqb_spec r 0); [done|]. intros [= <-]. lia.
  - intros r. destruct (N.eqb_spec r 0); split; try done; intros; lia.
  - intros r. lia.
Qed.

(** ** Operations *)

Definition Sem : Type := St N.
Definition new_semaphore (initial_permits : N) : Sem := mkSt initial_permits [] [] [] 0 0.

Definition SIZE_LIMIT : N := Z.to_N SIZE_MAX.
Definition permit_overflow : exn := OverflowError "corouv::AsyncSemaphore permit overflow"%bs.

(** [while (_permits > 0 && !_waiters.empty())] *)
Fixpoint release_loop (queue : list nat) (permits : N) (ts : list Task) (wakeups : list nat)
    : N * list nat * list Task * list nat :=
  match queue with
  | [] => (permits, [], ts, wakeups)
  | candidate :: rest =>
      if 0 <? permits then
        let '(granted, ts) := grant candidate ts in
        if granted then release_loop rest (permits - 1) ts (wakeups ++ [candidate])
        else release_loop rest permits ts wakeups
      else (permits, queue, ts, wakeups)
  end.

(** The critical section of [release]; the waiters it marked are then woken,
    one call each. *)
Definition release (count : N) (s : Sem) : result unit * Sem :=
  if count =? 0 then (Ok tt, s)
  else if SIZE_LIMIT - s_res s <? count then (Throw permit_overflow, s)
  else
    let '(permits, queue, ts, wakeups) :=
      release_loop (compact (s_tasks s) (s_queue s)) (s_res s + count) (s_tasks s) [] in
    (Ok tt, mkSt permits queue ts (s_pending s ++ map Wake wakeups) (s_direct s) (s_put s + Z.of_N count)).

Definition available_permits (s : Sem) : N := s_res s.
Definition try_acquire (s : Sem) : bool * Sem := try_take s.
Definition sem_advance (emplaced : bool) (i : nat) (s : Sem) : option Sem := advance emplaced i s.

Inductive sem_step : Sem -> Sem -> Prop :=
| sem_task s s' : task_step s s' -> sem_step s s'
| sem_release count s s' : release count s = (Ok tt, s') -> sem_step s s'.

Definition sem_reachable (initial_permits : N) (s : Sem) : Prop := rtc sem_step (new_semaphore initial_permits) s.

(** ** Invariant *)

Lemma new_core n : core (Z.of_N n) (new_semaphore n).
Proof.
  constructor; simpl; try done.
  - unfold owners. simpl. lia.
  - apply NoDup_nil. done.
  - intros i Hi. by apply not_elem_of_nil in Hi.
Qed.

(** The loop hands out units one by one. *)
Lemma release_loop_core init queue permits ts wakeups p d u permits' queue' ts' wakeups' :
  core init (mkSt permits queue ts (p ++ map Wake wakeups) d u) ->
  release_loop queue permits ts wakeups = (permits', queue', ts', wakeups') ->
  core init (mkSt permits' queue' ts' (p ++ map Wake wakeups') d u) /\ (permits' = 0 \/ queue' = []).
Proof.
  revert permits ts wakeups. induction queue as [|i queue IH]; intros permits ts wakeups C; simpl.
  - intros [= <- <- <- <-]. split; [done | by right].
  - destruct (N.ltb_spec 0 permits) as [Hp|Hp].
    + destruct (grant i ts) as [[] ts1] eqn:Hg.
      * intros H. eapply IH; [|exact H]. rewrite map_app, app_assoc.
        eapply (core_grant init _ i queue ts1 (permits - 1)) in C; [exact C | done | done | simpl; lia].
      * apply grant_fails in Hg as [Hd ->]. intros H. eapply IH; [|exact H].
        exact (core_drop init _ i queue C eq_refl Hd).
    + intros [= <- <- <- <-]. split; [done|]. left. lia.
Qed.

Lemma core_add init (s : Sem) count :
  core init s -> core init (mkSt (s_res s + count) (s_queue s) (s_tasks s) (s_pending s) (s_direct s) (s_put s + Z.of_N count)).
Proof. intros [C1 C2 C3 C4 C5 C6 C7 C8 C9]. constructor; simpl in *; auto. lia. Qed.

Lemma release_core init count (s s' : Sem) :
  core init s -> busy s -> release count s = (Ok tt, s') -> core init s' /\ busy s'.
Proof.
  intros C Hb. unfold release. destruct (count =? 0); [by intros [= <-]|]. destruct (_ <? count); [done|].
  destruct (release_loop _ _ _ _) as [[[permits queue] ts] wakeups] eqn:E. intros [= <-].
  apply core_compact, (core_add init _ count) in C. simpl in C.
  rewrite <- (app_nil_r (s_pending s)) in C.
  eapply (release_loop_core init _ _ _ []) in E as [C' Hz]; [|exact C]. split; [exact C'|].
  destruct Hz as [->| ->]; [by left|]. right. intros i t Ht Hl. apply (c_live _ _ C' i t Ht) in Hl.
  by apply not_elem_of_nil in Hl.
Qed.

Lemma release_loop_le queue permits ts wakeups permits' queue' ts' wakeups' :
  release_loop queue permits ts wakeups = (permits', queue', ts', wakeups') -> permits' <= permits.
Proof.
  revert permits ts wakeups. induction queue as [|i queue IH]; intros permits ts wakeups; simpl.
  - intros [= <- _ _ _]. lia.
  - destruct (N.ltb_spec 0 permits); [|intros [= <- _ _ _]; lia].
    destruct (grant i ts) as [[] ts1]; intros H1; apply IH in H1; lia.
Qed.

Lemma task_step_le (s s' : Sem) : task_step s s' -> s_res s' <= s_res s.
Proof.
  assert (forall (s1 s2 : Sem) ok, try_take s1 = (ok, s2) -> s_res s2 <= s_res s1) as Htake.
  { intros s1 s2 ok E. apply try_take_spec in E as (_ & _ & _ & _ & _ & E). simpl in E. destruct ok; lia. }
  destruct 1 as [slot s0|e i s0 s1 H1|a l1 l2 s0 s1 H1 H2|i t s0 H1 H2|i s0 s1 H1|i t s0 s1 H1 H2 H3|i s0 s1 H1|s0 s1 H1|s0 s1 H1]; simpl; try lia.
  - unfold advance in H1. repeat (case_match; simplify_eq/=; try lia).
    all: try (match goal with E : try_take _ = _ |- _ => apply Htake in E; done end).
    all: unfold enqueue_waiter in *; repeat (case_match; simplify_eq/=; try lia).
  - unfold perform, cancel_on_executor in H2. repeat (case_match; simplify_eq/=; try lia).
  - unfold request_cancel in H1. repeat (case_match; simplify_eq/=; try lia).
  - unfold request_cancel, cancel_on_executor in H3. repeat (case_match; simplify_eq/=; try lia).
  - unfold destroy in H1. repeat (case_match; simplify_eq/=; try lia).
  - by apply Htake in H1.
  - by apply Htake in H1.
Qed.

Lemma reachable_inv n s :
  n <= SIZE_LIMIT -> sem_reachable n s -> core (Z.of_N n) s /\ busy s /\ s_res s <= SIZE_LIMIT.
Proof.
  intros Hn Hr. unfold sem_reachable in Hr.
  assert (core (Z.of_N n) (new_semaphore n) /\ busy (new_semaphore n) /\ s_res (new_semaphore n) <= SIZE_LIMIT) as H0.
  { split_and!; [apply new_core | by right | done]. }
  revert H0. generalize (new_semaphore n) Hr. clear Hr. intros s0 Hr. induction Hr as [s1|s1 s2 s3 Hs _ IH]; [done|].
  intros (C & Hb & Hp). apply IH. destruct Hs as [s1 s2 Hs|count s1 s2 Hs].
  - split_and!; [by eapply core_step | by eapply busy_step | apply task_step_le in Hs; lia].
  - destruct (release_core _ _ _ _ C Hb Hs) as [C' Hb']. split_and!; [done | done |].
    unfold release in Hs. destruct (count =? 0); [by simplify_eq|].
    destruct (N.ltb_spec (SIZE_LIMIT - s_res s1) count); [done|].
    destruct (release_loop _ _ _ _) as [[[permits queue] ts] wakeups] eqn:E. simplify_eq. simpl.
    apply release_loop_le in E. lia.
Qed.

(** What the loop of [release] computes on a queue of unmarked waiters. *)
Lemma release_loop_spec queue permits ts wakeups permits' queue' ts' wakeups' :
  NoDup queue -> (forall i, i ∈ queue -> waiter_done ts i = false) ->
  release_loop queue permits ts wakeups = (permits', queue', ts', wakeups') ->
  let served := N.to_nat (N.min permits (N.of_nat (length queue))) in
  wakeups' = wakeups ++ take served queue /\ queue' = drop served queue /\ permits' = permits - N.of_nat served /\
  (forall i, i ∈ take served queue -> exists t w, ts' !! i = Some t /\ t_waiter t = Some w /\ w_granted w = true) /\
  (forall i, i ∉ queue -> ts' !! i = ts !! i).
Proof.
  revert permits ts wakeups. induction queue as [|i queue IH]; intros permits ts wakeups Hnd Hq;
    cbn [release_loop].
  - intros [= <- <- <- <-]. cbn zeta. simpl length. rewrite N.min_0_r. simpl. rewrite app_nil_r. split_and!; try done; [lia|].
    intros i Hi. by apply not_elem_of_nil in Hi.
  - apply NoDup_cons in Hnd as [Hni Hnd]. destruct (N.ltb_spec 0 permits) as [Hp|Hp].
    + assert (waiter_done ts i = false) as Hd by (apply Hq; constructor). unfold waiter_done in Hd. unfold grant.
      destruct (ts !! i) as [t|] eqn:Hi; [|done]. destruct (t_waiter t) as [w|] eqn:Hw; [|done].
      unfold try_mark_granted. rewrite Hd. set (t' := set_waiter _ t). intros E.
      assert (forall j, j <> i -> <[i := t']> ts !! j = ts !! j) as Hne by (intros; by apply list_lookup_insert_ne).
      apply IH in E as (E1 & E2 & E3 & E4 & E5); [|done|].
      * cbv zeta. replace (N.to_nat (N.min permits (N.of_nat (length (i :: queue)))))
          with (S (N.to_nat (N.min (permits - 1) (N.of_nat (length queue))))) by (simpl length; lia).
        set (k := N.to_nat (N.min (permits - 1) (N.of_nat (length queue)))) in *. simpl. split_and!.
        -- rewrite E1, <- app_assoc. done.
        -- done.
        -- lia.
        -- intros j Hj. apply elem_of_cons in Hj as [->|Hj]; [|auto]. exists t'. rewrite E5 by done.
           rewrite list_lookup_insert_eq by (by eapply lookup_lt_Some). eexists. done.
        -- intros j Hj. apply not_elem_of_cons in Hj as [Hj1 Hj2]. rewrite E5 by done. auto.
      * intros j Hj. unfold waiter_done. rewrite Hne by (intros ->; done).
        apply (Hq j). by constructor.
    + intros [= <- <- <- <-]. assert (permits = 0) as -> by lia. simpl. rewrite app_nil_r. split_and!; try done.
      intros j Hj. by apply not_elem_of_nil in Hj.
Qed.

(** *** Concrete interleavings *)

Definition sem_event : Type := event + N.       (* [inr count]: a release *)
Definition sem_execute (e : sem_event) (s : Sem) : option Sem :=
  match e with
  | inl e => run_event e s
  | inr count => match release count s with (Ok _, s') => Some s' | _ => None end
  end.
Fixpoint sem_run (es : list sem_event) (s : Sem) : option Sem :=
  match es with
  | [] => Some s
  | e :: es => match sem_execute e s with Some s' => sem_run es s' | None => None end
  end.

Lemma sem_run_sound es s s' : sem_run es s = Some s' -> rtc sem_step s s'.
Proof.
  revert s. induction es as [|e es IH]; intros s; simpl; [by intros [= <-]|].
  destruct (sem_execute e s) as [s1|] eqn:E; [|done]. intros Hr. eapply rtc_l; [|by apply IH].
  destruct e as [e|count]; simpl in E.
  - by eapply sem_task, run_event_sound.
  - destruct (release count s) as [[[]|?|] s2] eqn:Er; [|done|done]. injection E as <-. by eapply sem_release.
Qed.

(** ** Theorems *)

(** C5: Permits are conserved.  In every reachable state the free permits, the
    permits taken by [try_acquire] and those owned by acquiring tasks add up
    to the initial permits plus those released; every task whose [acquire]
    returned owns one; and the counter never exceeds [std::size_t]. *)
Theorem semaphore_conserves_permits n s :
  n <= SIZE_LIMIT -> sem_reachable n s ->
  (Z.of_N (available_permits s) + s_direct s + owners (s_tasks s) = Z.of_N n + s_put s)%Z /\
  (forall i t, s_tasks s !! i = Some t -> t_phase t = Returned -> owns t = true) /\
  available_permits s <= SIZE_LIMIT.
Proof.
  intros Hn Hr. destruct (reachable_inv n s Hn Hr) as (C & _ & Hp). split_and!; [apply C | | done].
  intros i t Hi Hph. pose proof (c_task _ _ C i t Hi) as Hok. unfold task_ok in Hok. rewrite Hph in Hok.
  destruct (t_waiter t); [apply Hok | exact Hok].
Qed.

(** Two tasks compete for one permit; the first gets it, the second waits. *)
Definition contended : list sem_event :=
  [inl (EvSpawn true); inl (EvSpawn true); inl (EvAdvance true 0); inl (EvAdvance true 0); inl (EvAdvance true 0);
   inl (EvAdvance true 1); inl (EvAdvance true 1); inl (EvAdvance true 1); inl (EvAdvance true 1)].

Definition contended_state : Sem :=
  mkSt 0 [1%nat]
    [mkTask Returned true false false true None;
     mkTask Suspended true false true false (Some new_waiter)] [] 0 0.

Lemma contended_reachable : sem_reachable 1 contended_state.
Proof. apply (sem_run_sound contended). vm_compute. reflexivity. Qed.

Lemma semaphore_conserves_permits_witness :
  (Z.of_N (available_permits contended_state) + s_direct contended_state + owners (s_tasks contended_state) =
   Z.of_N 1 + s_put contended_state)%Z.
Proof.
  refine (proj1 (semaphore_conserves_permits 1 contended_state _ contended_reachable)). vm_compute. discriminate.
Defined.

(** C9: No wakeup is lost.  In every reachable state a suspended task that has
    not been marked is queued and no permit is free; one that has been marked
    has exactly one resumption on its way, and from that very state a sequence
    of executor steps (no release is needed) leads it out of [acquire]: to its
    return if it was granted a permit, to the exception otherwise. *)
Theorem semaphore_no_lost_wakeup n s i t w :
  n <= SIZE_LIMIT -> sem_reachable n s -> s_tasks s !! i = Some t -> t_phase t = Suspended -> t_waiter t = Some w ->
  if w_done w then
    (occ (to_wake i) (s_pending s) + occ (to_resume i) (s_pending s) = 1)%nat /\
    exists s' t', rtc task_step s s' /\ s_tasks s' !! i = Some t' /\ t_phase t' = resume_outcome t
  else i ∈ s_queue s /\ available_permits s = 0 /\
    (occ (to_wake i) (s_pending s) + occ (to_resume i) (s_pending s) = 0)%nat.
Proof.
  intros Hn Hr Hi Hph Hw. destruct (reachable_inv n s Hn Hr) as (C & Hb & _).
  pose proof (c_wakes _ _ C i t Hi) as Hk. unfold wake_ok in Hk. rewrite Hph, Hw in Hk. destruct (w_done w) eqn:Hd.
  - split; [lia|]. exact (marked_resumes _ s i t w C Hi Hph Hw Hd).
  - assert (live t) as Hl by (split; [done | by exists w]). split_and!; [by eapply (c_live _ _ C) | | lia].
    destruct Hb as [Hb|Hb]; [simpl in Hb; unfold available_permits; lia | by apply Hb in Hi].
Qed.

Lemma semaphore_no_lost_wakeup_witness : 1%nat ∈ s_queue contended_state /\ available_permits contended_state = 0.
Proof.
  destruct (semaphore_no_lost_wakeup 1 contended_state 1 (mkTask Suspended true false true false (Some new_waiter)) new_waiter)
    as (H1 & H2 & _); [vm_compute; discriminate | exact contended_reachable | reflexivity | reflexivity | reflexivity | done].
Defined.

(** [release] serves the waiters in order.  In every reachable state a
    release that does not overflow grants the oldest waiters that are not
    marked, as many as there are permits, wakes exactly those, leaves the
    others queued in their order and keeps the remaining permits. *)
Theorem release_serves_in_order n count s s' :
  n <= SIZE_LIMIT -> sem_reachable n s -> count <> 0 -> release count s = (Ok tt, s') ->
  let waiting := compact (s_tasks s) (s_queue s) in
  let served := N.to_nat (N.min (s_res s + count) (N.of_nat (length waiting))) in
  s_pending s' = s_pending s ++ map Wake (take served waiting) /\ s_queue s' = drop served waiting /\
  s_res s' = s_res s + count - N.of_nat served /\
  (forall i, i ∈ take served waiting -> exists t w, s_tasks s' !! i = Some t /\ t_waiter t = Some w /\ w_granted w = true).
Proof.
  intros Hn Hr Hc. destruct (reachable_inv n s Hn Hr) as (C & _ & _). unfold release.
  destruct (N.eqb_spec count 0); [done|]. destruct (_ <? count); [done|].
  destruct (release_loop _ _ _ _) as [[[permits queue] ts] wakeups] eqn:E. intros [= <-]. cbn zeta.
  cbn [s_pending s_queue s_res s_tasks]. apply release_loop_spec in E as (E1 & E2 & E3 & E4 & E5); [| apply NoDup_filter, C |].
  - subst. split_and!; done || auto.
  - intros i Hi. by apply list_elem_of_filter in Hi as [? _].
Qed.

Lemma release_serves_in_order_witness : s_pending (snd (release 1 contended_state)) = [Wake 1].
Proof.
  destruct (release_serves_in_order 1 1 contended_state (snd (release 1 contended_state))) as (H1 & _);
    [vm_compute; discriminate | exact contended_reachable | discriminate | vm_compute; reflexivity | exact H1].
Defined.

(** A cancelled acquisition can lose a permit.  A reachable interleaving
    with one permit: the only task passes the cancellation test and takes the
    permit in [await_ready], the signal is emitted, and [await_resume] throws.
    The semaphore then has no free permit, no waiter and no pending call, and
    nobody was told that a permit was acquired. *)
Theorem semaphore_permit_leak :
  exists s, sem_reachable 1 s /\ available_permits s = 0 /\ s_queue s = [] /\ s_pending s = [] /\
    s_direct s = 0%Z /\ s_put s = 0%Z /\
    exists t, s_tasks s = [t] /\ t_phase t = Thrown (SignalException "corouv async semaphore acquire canceled"%bs).
Proof.
  exists (mkSt 0 [] [mkTask (Thrown (SignalException "corouv async semaphore acquire canceled"%bs)) true true false true None] [] 0 0).
  split; [|eauto 10].
  apply (sem_run_sound [inl (EvSpawn true); inl (EvAdvance true 0); inl (EvAdvance true 0); inl (EvSignal 0); inl (EvAdvance true 0)]).
  vm_compute. reflexivity.
Qed.
