(* ===== verification/AsyncMutex.v ===== *)
(** * AsyncMutex (async_mutex.h)

    The mutex on top of the waiting machine of [AsyncWait.v]: the resource is
    the flag [_locked].  The theorems hold in every state reachable by any
    interleaving of locking tasks, [try_lock], [unlock], cancellation and
    destruction: acquisitions exceed unlocks by one exactly while the mutex is
    locked, so that at most one of them is current; no task waits on a free
    mutex and no wakeup is lost; [unlock] hands the mutex to the oldest waiter
    without letting it become free.  The last theorem is the interleaving in
    which a waiter that was handed the mutex is destroyed. *)

From S2P Require Import Prelude AsyncWait.

#[export] Instance mutex_gate : Gate bool := {
  g_take locked := if locked then None else Some true;
  g_avail locked := if locked then 0%Z else 1%Z;
  g_canceled := "corouv async mutex lock canceled"%bs;
  g_failed := "corouv::AsyncMutex lock failed"%bs
}.

#[export] Instance mutex_laws : GateLaws bool.
Proof.
  constructor; simpl.
  - intros [] r'; [done|]. by intros [= <-].
  - by intros [].
  - by intros [].
Qed.

(** ** Operations *)

Definition Mutex : Type := St bool.
Definition new_mutex : Mutex := mkSt false [] [] [] 0 0.

Definition unlock_unlocked : exn := LogicError "corouv::AsyncMutex::unlock on unlocked mutex"%bs.

(** [while (!_waiters.empty())]: the first waiter that can be granted. *)
Fixpoint unlock_loop (queue : list nat) (ts : list Task) : option nat * list nat * list Task :=
  match queue with
  | [] => (None, [], ts)
  | candidate :: rest =>
      let '(granted, ts) := grant candidate ts in
      if granted then (Some candidate, rest, ts) else unlock_loop rest ts
  end.

Definition unlock (s : Mutex) : result unit * Mutex :=
  if s_res s then
    match unlock_loop (compact (s_tasks s) (s_queue s)) (s_tasks s) with
    | (None, queue, ts) => (Ok tt, mkSt false queue ts (s_pending s) (s_direct s) (s_put s + 1))
    | (Some next, queue, ts) => (Ok tt, mkSt true queue ts (s_pending s ++ [Wake next]) (s_direct s) (s_put s + 1))
    end
  else (Throw unlock_unlocked, s).

Definition locked (s : Mutex) : bool := s_res s.
Definition try_lock (s : Mutex) : bool * Mutex := try_take s.
Definition mutex_advance (emplaced : bool) (i : nat) (s : Mutex) : option Mutex := advance emplaced i s.

Inductive mutex_step : Mutex -> Mutex -> Prop :=
| mutex_task s s' : task_step s s' -> mutex_step s s'
| mutex_unlock s s' : unlock s = (Ok tt, s') -> mutex_step s s'.

Definition mutex_reachable (s : Mutex) : Prop := rtc mutex_step new_mutex s.

(** ** Invariant *)

Lemma new_mutex_core : core 1 new_mutex.
Proof.
  constructor; simpl; try done.
  - apply NoDup_nil. done.
  - intros i Hi. by apply not_elem_of_nil in Hi.
Qed.

(** The loop skips marked waiters and grants the first other one. *)
Lemma unlock_loop_core init queue ts p d u next queue' ts' :
  core init (mkSt false queue ts p d u) -> unlock_loop queue ts = (next, queue', ts') ->
  match next with
  | None => queue' = [] /\ core init (mkSt false queue' ts' p d u)
  | Some i => core init (mkSt true queue' ts' (p ++ [Wake i]) d u)
  end.
Proof.
  revert ts. induction queue as [|i queue IH]; intros ts C; simpl; [by intros [= <- <- <-]|].
  destruct (grant i ts) as [[] ts1] eqn:Hg.
  - intros [= <- <- <-]. eapply (core_grant init _ i queue ts1 true) in C; [exact C | done | done | done].
  - apply grant_fails in Hg as [Hd ->]. intros H. eapply IH; [|exact H]. exact (core_drop init _ i queue C eq_refl Hd).
Qed.

Lemma unlock_core init (s s' : Mutex) : core init s -> unlock s = (Ok tt, s') -> core init s' /\ busy s'.
Proof.
  intros C. unfold unlock. destruct (s_res s) eqn:Hl; [|done].
  assert (core init (mkSt false (compact (s_tasks s) (s_queue s)) (s_tasks s) (s_pending s) (s_direct s) (s_put s + 1))) as C1.
  { apply core_compact in C as [C1 C2 C3 C4 C5 C6 C7 C8 C9]. simpl in *. rewrite Hl in C1. constructor; simpl; auto. lia. }
  destruct (unlock_loop _ _) as [[[i|] queue] ts] eqn:E; intros [= <-]; eapply unlock_loop_core in E; try exact C1; simpl in E.
  - split; [done | by left].
  - destruct E as [-> C']. split; [done|]. right. intros i t Ht Hlv. apply (c_live _ _ C' i t Ht) in Hlv.
    by apply not_elem_of_nil in Hlv.
Qed.

Lemma mutex_inv s : mutex_reachable s -> core 1 s /\ busy s.
Proof.
  unfold mutex_reachable. intros Hr.
  assert (core 1 new_mutex /\ busy new_mutex) as H0 by (split; [apply new_mutex_core | by right]).
  revert H0. generalize new_mutex Hr. clear Hr. intros s0 Hr. induction Hr as [s1|s1 s2 s3 Hs _ IH]; [done|].
  intros (C & Hb). apply IH. destruct Hs as [s1 s2 Hs|s1 s2 Hs].
  - split; [by eapply core_step | by eapply busy_step].
  - by eapply unlock_core.
Qed.

(** *** Concrete interleavings *)

Definition mutex_event : Type := option event.      (* [None]: an unlock *)
Definition mutex_execute (e : mutex_event) (s : Mutex) : option Mutex :=
  match e with
  | Some e => run_event e s
  | None => match unlock s with (Ok _, s') => Some s' | _ => None end
  end.
Fixpoint mutex_run (es : list mutex_event) (s : Mutex) : option Mutex :=
  match es with
  | [] => Some s
  | e :: es => match mutex_execute e s with Some s' => mutex_run es s' | None => None end
  end.

Lemma mutex_run_sound es s s' : mutex_run es s = Some s' -> rtc mutex_step s s'.
Proof.
  revert s. induction es as [|e es IH]; intros s; simpl; [by intros [= <-]|].
  destruct (mutex_execute e s) as [s1|] eqn:E; [|done]. intros Hr. eapply rtc_l; [|by apply IH].
  destruct e as [e|]; simpl in E.
  - by eapply mutex_task, run_event_sound.
  - destruct (unlock s) as [[[]|?|] s2] eqn:Er; [|done|done]. injection E as <-. by apply mutex_unlock.
Qed.

(** The first task holds the mutex, the second waits for it. *)
Definition held : list mutex_event :=
  [Some (EvSpawn false); Some (EvSpawn false); Some (EvAdvance true 0); Some (EvAdvance true 0); Some (EvAdvance true 0);
   Some (EvAdvance true 1); Some (EvAdvance true 1); Some (EvAdvance true 1); Some (EvAdvance true 1)].
Definition held_state : Mutex :=
  mkSt true [1] [mkTask Returned false false false true None; mkTask Suspended false false false false (Some new_waiter)] [] 0 0.
Lemma held_reachable : mutex_reachable held_state.
Proof. apply (mutex_run_sound held). vm_compute. reflexivity. Qed.

(** ** Theorems *)

(** C6: Mutual exclusion.  In every reachable state the acquisitions (by
    [try_lock], or owned by a locking task) exceed the unlocks by one if the
    mutex is locked and are equal to them if it is not, so that at most one
    acquisition has not been given back; and every [lock] that returned is
    such an acquisition. *)
Theorem mutex_exclusion s :
  mutex_reachable s ->
  (s_direct s + owners (s_tasks s) - s_put s = if locked s then 1 else 0)%Z /\
  (forall i t, s_tasks s !! i = Some t -> t_phase t = Returned -> owns t = true).
Proof.
  intros Hr. destruct (mutex_inv s Hr) as [C _]. split.
  - pose proof (c_conserve _ _ C) as Hc. simpl in Hc. unfold locked. destruct (s_res s); lia.
  - intros i t Hi Hph. pose proof (c_task _ _ C i t Hi) as Hok. unfold task_ok in Hok. rewrite Hph in Hok.
    destruct (t_waiter t); [apply Hok | exact Hok].
Qed.

Lemma mutex_exclusion_witness : (s_direct held_state + owners (s_tasks held_state) - s_put held_state = 1)%Z.
Proof. exact (proj1 (mutex_exclusion held_state held_reachable)). Defined.

(** [unlock] hands over.  In every reachable state, unlocking a locked mutex
    with a waiter that is not marked keeps it locked, grants it to the oldest
    such waiter and wakes that one alone; without one the mutex becomes free;
    and unlocking a free mutex throws and changes nothing. *)
Theorem unlock_hands_over s :
  mutex_reachable s ->
  match compact (s_tasks s) (s_queue s) with
  | next :: rest =>
      exists s', unlock s = (Ok tt, s') /\ locked s' = true /\ s_queue s' = rest /\
        s_pending s' = s_pending s ++ [Wake next] /\
        exists t w, s_tasks s' !! next = Some t /\ t_waiter t = Some w /\ w_granted w = true
  | [] =>
      if locked s then exists s', unlock s = (Ok tt, s') /\ locked s' = false /\ s_pending s' = s_pending s
      else unlock s = (Throw unlock_unlocked, s)
  end.
Proof.
  intros Hr. destruct (mutex_inv s Hr) as [C Hb]. unfold unlock, locked.
  destruct (compact (s_tasks s) (s_queue s)) as [|next rest] eqn:Eq.
  - destruct (s_res s); [|done]. simpl. eexists. split_and!; done.
  - assert (next ∈ compact (s_tasks s) (s_queue s)) as Hin by (rewrite Eq; constructor).
    apply list_elem_of_filter in Hin as [Hd Hq]. destruct (c_queued _ _ C next Hq) as (t & Ht & [Hph (w & Hw & Hg)]).
    unfold waiter_done in Hd. rewrite Ht, Hw in Hd.
    assert (s_res s = true) as ->.
    { destruct Hb as [Hb|Hb]; [simpl in Hb; by destruct (s_res s)|]. exfalso. apply (Hb next t Ht).
      split; [|by exists w]. destruct Hph as [?|Hph]; [done|].
      pose proof (c_task _ _ C next t Ht) as Hok. unfold task_ok in Hok. rewrite Hph, Hw in Hok.
      destruct Hok as (_ & ? & _). congruence. }
    simpl. unfold grant. rewrite Ht, Hw. unfold try_mark_granted. rewrite Hd. eexists. split_and!; try done.
    eexists _, _. split_and!; [simpl; by rewrite list_lookup_insert_eq by (by eapply lookup_lt_Some) | done | done].
Qed.

Lemma unlock_hands_over_witness : exists s', unlock held_state = (Ok tt, s') /\ locked s' = true.
Proof. destruct (unlock_hands_over held_state held_reachable) as (s' & H1 & H2 & _). by exists s'. Defined.

(** No wakeup is lost.  In every reachable state a suspended task that is
    not marked is queued on a locked mutex; a marked one has exactly one
    resumption on its way, and from that very state a sequence of executor
    steps leads the task out of [lock]. *)
Theorem mutex_no_lost_wakeup s i t w :
  mutex_reachable s -> s_tasks s !! i = Some t -> t_phase t = Suspended -> t_waiter t = Some w ->
  if w_done w then
    (occ (to_wake i) (s_pending s) + occ (to_resume i) (s_pending s) = 1)%nat /\
    exists s' t', rtc task_step s s' /\ s_tasks s' !! i = Some t' /\ t_phase t' = resume_outcome t
  else i ∈ s_queue s /\ locked s = true.
Proof.
  intros Hr Hi Hph Hw. destruct (mutex_inv s Hr) as (C & Hb).
  pose proof (c_wakes _ _ C i t Hi) as Hk. unfold wake_ok in Hk. rewrite Hph, Hw in Hk. destruct (w_done w) eqn:Hd.
  - split; [lia|]. exact (marked_resumes _ s i t w C Hi Hph Hw Hd).
  - assert (live t) as Hl by (split; [done | by exists w]). split; [by eapply (c_live _ _ C)|].
    destruct Hb as [Hb|Hb]; [simpl in Hb; unfold locked; by destruct (s_res s) | by apply Hb in Hi].
Qed.

Lemma mutex_no_lost_wakeup_witness : 1 ∈ s_queue held_state /\ locked held_state = true.
Proof.
  exact (mutex_no_lost_wakeup held_state 1 (mkTask Suspended false false false false (Some new_waiter)) new_waiter
           held_reachable eq_refl eq_refl eq_refl).
Defined.

(** A destroyed waiter keeps the mutex locked.  A reachable interleaving: the
    holder unlocks, which grants the mutex to the waiting task, and the task is
    destroyed before it is resumed.  All calls having run, the mutex is locked,
    the lock calls and unlocks balance out, and nobody is left to unlock it. *)
Theorem mutex_lost_by_destroyed_waiter :
  exists s, mutex_reachable s /\ locked s = true /\ s_queue s = [] /\ s_pending s = [] /\ s_put s = 1%Z /\
    exists t1 t2, s_tasks s = [t1; t2] /\ t_phase t1 = Returned /\ t_phase t2 = Destroyed.
Proof.
  eexists (mkSt true [] [mkTask Returned false false false true None;
    mkTask Destroyed false false false false (Some (mkWaiter true true true false false))] [] 0 1).
  split; [|eauto 12].
  apply (mutex_run_sound (held ++ [None; Some (EvDestroy 1); Some (EvPerform 0); Some (EvPerform 0)])).
  vm_compute. reflexivity.
Qed.

(** The fallback of the cancellation handler does not know where the task is.
    A reachable interleaving: the handler of a locking task is called on
    another thread between its installation and [enqueue_waiter], and the
    executor refuses the callback, so that [cancel_on_executor] runs at once.
    The task finds its waiter marked, does not suspend and is about to run
    [await_resume], while a resumption of its coroutine is on its way. *)
Definition enqueueing : list mutex_event :=
  [Some (EvSpawn false); Some (EvSpawn true); Some (EvAdvance true 0); Some (EvAdvance true 0); Some (EvAdvance true 0);
   Some (EvAdvance true 1); Some (EvAdvance true 1); Some (EvAdvance true 1)].
Definition enqueueing_state : Mutex :=
  mkSt true [] [mkTask Returned false false false true None; mkTask AtEnqueue true false true false (Some new_waiter)] [] 0 0.

Theorem inline_cancel_resumes_running :
  mutex_reachable enqueueing_state /\
  exists s1 s2 t, request_cancel false 1 enqueueing_state = Some s1 /\ rtc mutex_step s1 s2 /\
    s_tasks s2 !! 1 = Some t /\ t_phase t = AtResume /\ s_pending s2 = [Resume 1].
Proof.
  split; [apply (mutex_run_sound enqueueing); vm_compute; reflexivity|]. do 3 eexists. split; [reflexivity|]. split.
  - apply (mutex_run_sound [Some (EvPerform 0); Some (EvAdvance true 1); Some (EvPerform 0)]). vm_compute. reflexivity.
  - vm_compute. split_and!; reflexivity.
Qed.
