(* ===== verification/ScopedLock.v ===== *)
(** * Scoped locks (async_mutex.h)

    [AsyncMutex::ScopedLock] is a move-only owner of the mutex:
    [scoped_lock] makes one when [lock] has returned, [release], the
    destructor and the move assignment unlock.  An [unlock] that throws would
    end the process ([std::terminate]).  The model puts the owners on top of
    the machine of [AsyncMutex.v]; the theorem is for a mutex that is used
    through them alone, as [with_lock] does. *)

From S2P Require Import Prelude AsyncWait AsyncReturned AsyncMutex.

Record Guarded := mkGuarded {
  gd_mutex : Mutex;
  gd_claimed : list nat;       (* the tasks whose [scoped_lock] has made its owner *)
  gd_objects : gset nat;       (* the owners that exist *)
  gd_owning : gset nat;        (* those whose [_mutex] is set *)
  gd_terminated : bool         (* [std::terminate] was called *)
}.
Definition new_guarded : Guarded := mkGuarded new_mutex [] ∅ ∅ false.

Definition set_mutex (m : Mutex) (g : Guarded) : Guarded :=
  mkGuarded m (gd_claimed g) (gd_objects g) (gd_owning g) (gd_terminated g).
Definition set_owning (objects owning : gset nat) (g : Guarded) : Guarded :=
  mkGuarded (gd_mutex g) (gd_claimed g) objects owning (gd_terminated g).

(** ** Operations *)

Definition owns_lock (o : nat) (g : Guarded) : bool := bool_decide (o ∈ gd_owning g).

(** [ScopedLock::release] *)
Definition lock_release (o : nat) (g : Guarded) : Guarded :=
  if negb (owns_lock o g) then g
  else
    let g := set_owning (gd_objects g) (gd_owning g ∖ {[o]}) g in
    match unlock (gd_mutex g) with
    | (Ok _, m) => set_mutex m g
    | _ => mkGuarded (gd_mutex g) (gd_claimed g) (gd_objects g) (gd_owning g) true
    end.

Definition lock_destroy (o : nat) (g : Guarded) : Guarded :=
  let g := lock_release o g in set_owning (gd_objects g ∖ {[o]}) (gd_owning g) g.

(** [std::exchange(other._mutex, nullptr)] into an owner that has none. *)
Definition hand_lock (from to : nat) (g : Guarded) : Guarded :=
  if owns_lock from g then set_owning (gd_objects g) (gd_owning g ∖ {[from]} ∪ {[to]}) g else g.
Definition lock_move (from to : nat) (g : Guarded) : Guarded :=
  hand_lock from to (set_owning (gd_objects g ∪ {[to]}) (gd_owning g) g).
Definition lock_assign (from to : nat) (g : Guarded) : Guarded :=
  if decide (from = to) then g else hand_lock from to (lock_release to g).

(** [scoped_lock], when the [lock] of task [i] has returned. *)
Definition scoped_lock (i o : nat) (g : Guarded) : option Guarded :=
  if returned (gd_mutex g) i && bool_decide (i ∉ gd_claimed g) && bool_decide (o ∉ gd_objects g) then
    Some (mkGuarded (gd_mutex g) (gd_claimed g ++ [i]) (gd_objects g ∪ {[o]}) (gd_owning g ∪ {[o]}) (gd_terminated g))
  else None.

Inductive guard_event :=
| GdTask (e : event)           (* a step of the waiting tasks *)
| GdLocked (i o : nat)
| GdRelease (o : nat)
| GdDestroy (o : nat)
| GdMove (from to : nat)
| GdAssign (from to : nat).

(** The mutex is used through its owners: nobody calls [try_lock] or
    [unlock]. *)
Definition guard_step (ev : guard_event) (g : Guarded) : option Guarded :=
  match ev with
  | GdTask EvDirect => None
  | GdTask e => match run_event e (gd_mutex g) with Some m => Some (set_mutex m g) | None => None end
  | GdLocked i o => scoped_lock i o g
  | GdRelease o => if bool_decide (o ∈ gd_objects g) then Some (lock_release o g) else None
  | GdDestroy o => if bool_decide (o ∈ gd_objects g) then Some (lock_destroy o g) else None
  | GdMove from to => if bool_decide (from ∈ gd_objects g /\ to ∉ gd_objects g) then Some (lock_move from to g) else None
  | GdAssign from to => if bool_decide (from ∈ gd_objects g /\ to ∈ gd_objects g) then Some (lock_assign from to g) else None
  end.

Fixpoint guard_run (evs : list guard_event) (g : Guarded) : option Guarded :=
  match evs with
  | [] => Some g
  | ev :: evs => match guard_step ev g with Some g' => guard_run evs g' | None => None end
  end.

(** ** Invariant *)

Record guard_inv (g : Guarded) : Prop := {
  gv_reach : mutex_reachable (gd_mutex g);
  gv_direct : s_direct (gd_mutex g) = 0%Z;
  gv_nodup : NoDup (gd_claimed g);
  gv_returned : forall i, i ∈ gd_claimed g -> returned (gd_mutex g) i = true;
  gv_count : (Z.of_nat (size (gd_owning g)) + s_put (gd_mutex g) = Z.of_nat (length (gd_claimed g)))%Z;
  gv_objects : gd_owning g ⊆ gd_objects g;
  gv_alive : gd_terminated g = false
}.

(** At most one owner has the mutex, and only while it is locked. *)
Lemma owning_le g : guard_inv g -> (size (gd_owning g) <= if locked (gd_mutex g) then 1 else 0).
Proof.
  intros [I1 I2 I3 I4 I5 _ _]. destruct (mutex_inv _ I1) as [C _].
  assert (Z.of_nat (length (gd_claimed g)) <= owners (s_tasks (gd_mutex g)))%Z as Ho.
  { apply owners_ge; [done|]. intros i Hi%I4. by eapply returned_owns. }
  pose proof (c_conserve _ _ C) as Hc. simpl in Hc. unfold locked. destruct (s_res (gd_mutex g)); lia.
Qed.

(** [unlock] moves no task and counts one. *)
Lemma unlock_loop_phases queue ts next queue' ts' :
  unlock_loop queue ts = (next, queue', ts') -> forall j, t_phase <$> ts' !! j = t_phase <$> ts !! j.
Proof.
  revert ts. induction queue as [|c queue IH]; intros ts; simpl; [by inversion 1|].
  destruct (grant c ts) as [ok ts1] eqn:Eg. apply grant_phases in Eg as [_ Hp].
  destruct ok; intros E j; [by inversion E; subst | by rewrite (IH _ E)].
Qed.

Lemma unlock_one m m' : unlock m = (Ok tt, m') ->
  s_put m' = (s_put m + 1)%Z /\ s_direct m' = s_direct m /\ forall i, returned m' i = returned m i.
Proof.
  unfold unlock. destruct (s_res m); [|done]. destruct (unlock_loop _ _) as [[next queue] ts] eqn:E.
  pose proof (unlock_loop_phases _ _ _ _ _ E) as Hp. intros Hm.
  assert (s_tasks m' = ts /\ s_put m' = (s_put m + 1)%Z /\ s_direct m' = s_direct m) as (Ht & -> & ->) by (by destruct next; simplify_eq).
  split_and!; try done. intros i. unfold returned. rewrite Ht. specialize (Hp i).
  destruct (ts !! i) as [a|], (s_tasks m !! i) as [b|]; simpl in Hp; try done. by injection Hp as ->.
Qed.

(** A release unlocks, and succeeds. *)
Lemma release_inv o g : guard_inv g -> guard_inv (lock_release o g).
Proof.
  intros Hi. unfold lock_release, owns_lock. case_bool_decide as Ho; [|done]. cbn [negb].
  pose proof (owning_le g Hi) as Hle. destruct Hi as [I1 I2 I3 I4 I5 I6 I7].
  assert (size (gd_owning g ∖ {[o]}) + 1 = size (gd_owning g)) as Hsz.
  { rewrite size_difference by set_solver. rewrite size_singleton.
    assert (size (gd_owning g) <> 0) by (intros E%size_empty_inv; set_solver). lia. }
  assert (locked (gd_mutex g) = true) as Hl by (destruct (locked (gd_mutex g)); [done | lia]).
  assert (exists m, unlock (gd_mutex g) = (Ok tt, m)) as [m Hm].
  { unfold unlock. unfold locked in Hl. rewrite Hl. destruct (unlock_loop _ _) as [[[]] ?]; eauto. }
  cbn [gd_mutex set_owning]. rewrite Hm. destruct (unlock_one _ _ Hm) as (Hp & Hd & Hr).
  constructor; simpl; [| congruence | done | | lia | set_solver | done].
  - eapply rtc_r; [exact I1 | by apply mutex_unlock].
  - intros i. rewrite Hr. apply I4.
Qed.

Lemma release_owning o g : gd_owning (lock_release o g) = gd_owning g ∖ {[o]} /\ gd_objects (lock_release o g) = gd_objects g.
Proof.
  unfold lock_release, owns_lock. case_bool_decide; simpl; [|split; [set_solver | done]].
  by destruct (unlock (gd_mutex g)) as [[]].
Qed.

(** Handing the mutex over to an owner that has none. *)
Lemma hand_inv from to g :
  guard_inv g -> to ∈ gd_objects g -> to ∉ gd_owning g -> from <> to -> guard_inv (hand_lock from to g).
Proof.
  intros [I1 I2 I3 I4 I5 I6 I7] Hto Hno Hne. unfold hand_lock, owns_lock. case_bool_decide as Hf; [|done].
  constructor; simpl; try done; [|set_solver]. rewrite size_union by set_solver.
  rewrite size_difference by set_solver. rewrite !size_singleton.
  assert (size (gd_owning g) <> 0) by (intros E%size_empty_inv; set_solver). lia.
Qed.

Lemma guard_step_inv ev g g' : guard_inv g -> guard_step ev g = Some g' -> guard_inv g'.
Proof.
  intros Hi. destruct ev as [e|i o|o|o|from to|from to]; simpl.
  - assert (e <> EvDirect -> match run_event e (gd_mutex g) with Some m => Some (set_mutex m g) | None => None end = Some g' -> guard_inv g') as Hgen.
    { intros He. destruct (run_event e (gd_mutex g)) as [m|] eqn:E; [|done]. intros [= <-].
      pose proof (run_event_direct _ _ _ He E) as Hd. apply run_event_sound in E. destruct (keeps_task_step _ _ E) as (Hp & _ & Hr).
      destruct Hi as [I1 I2 I3 I4 I5 I6 I7]. constructor; simpl; try done; [|congruence | | by rewrite Hp].
      - eapply rtc_r; [exact I1 | by apply mutex_task].
      - intros i Hin. by apply Hr, I4. }
    destruct e; [by apply Hgen.. | done].
  - unfold scoped_lock. destruct (returned (gd_mutex g) i) eqn:Er; [|done]. case_bool_decide as Hc; [|done].
    case_bool_decide as Ho; [|done]. intros [= <-]. destruct Hi as [I1 I2 I3 I4 I5 I6 I7].
    assert (o ∉ gd_owning g) as Hno by set_solver.
    constructor; simpl; try done.
    + apply NoDup_app. split_and!; [done | set_solver | apply NoDup_singleton].
    + intros j [Hj|Hj%list_elem_of_singleton]%elem_of_app; [by apply I4 | by subst j].
    + rewrite size_union by set_solver. rewrite size_singleton, length_app. simpl. lia.
    + set_solver.
  - case_bool_decide; [|done]. intros [= <-]. by apply release_inv.
  - case_bool_decide; [|done]. intros [= <-]. unfold lock_destroy. pose proof (release_inv o g Hi) as [I1 I2 I3 I4 I5 I6 I7].
    destruct (release_owning o g) as [Eo Eb]. constructor; simpl; try done. set_solver.
  - case_bool_decide as Hb; [|done]. destruct Hb as [Hf Ht]. intros [= <-]. unfold lock_move. apply hand_inv; simpl.
    + destruct Hi as [I1 I2 I3 I4 I5 I6 I7]. constructor; simpl; try done. set_solver.
    + set_solver.
    + pose proof (gv_objects _ Hi). set_solver.
    + set_solver.
  - case_bool_decide as Hb; [|done]. destruct Hb as [Hf Ht]. intros [= <-]. unfold lock_assign. case_decide as E; [done|].
    destruct (release_owning to g) as [Eo Eb]. apply hand_inv; [by apply release_inv | by rewrite Eb | rewrite Eo; set_solver | done].
Qed.

(** C7: The critical sections exclude each other.  However tasks wait for the
    mutex, are resumed, cancelled or destroyed, and however the owners that
    [scoped_lock] makes are moved, assigned, released and destroyed: at most
    one of them has the mutex, the mutex is locked while one has, and no
    release ends the process. *)
Theorem scoped_locks_exclude evs g :
  guard_run evs new_guarded = Some g ->
  (forall o o', o ∈ gd_owning g -> o' ∈ gd_owning g -> o = o') /\
  (forall o, o ∈ gd_owning g -> locked (gd_mutex g) = true) /\ gd_terminated g = false.
Proof.
  intros Hr. assert (guard_inv g) as Hi.
  { assert (guard_inv new_guarded) as H0.
    { constructor; simpl; try done; [apply rtc_refl | apply NoDup_nil_2 | by intros i Hi%elem_of_nil]. }
    revert H0 Hr. generalize new_guarded. induction evs as [|ev evs IH]; intros g0 H0; simpl; [by intros [= <-]|].
    destruct (guard_step ev g0) as [g1|] eqn:E; [|done]. apply IH. by eapply guard_step_inv. }
  pose proof (owning_le g Hi) as Hle. split_and!; [| |apply (gv_alive _ Hi)].
  - intros o o' Ho Ho'. destruct (decide (o = o')) as [|Hne]; [done|]. exfalso.
    assert (size ({[o; o']} : gset nat) <= size (gd_owning g)) as Hs by (apply subseteq_size; set_solver).
    rewrite size_union, !size_singleton in Hs by set_solver. destruct (locked (gd_mutex g)); lia.
  - intros o Ho. destruct (locked (gd_mutex g)); [done|].
    assert (size (gd_owning g) = 0) as E%size_empty_inv by lia. set_solver.
Qed.

(** Two tasks; the owner of the first is moved and assigned over before the
    second gets the mutex. *)
Definition guard_events : list guard_event :=
  map GdTask [EvSpawn false; EvSpawn false; EvAdvance true 0; EvAdvance true 0; EvAdvance true 0;
              EvAdvance true 1; EvAdvance true 1; EvAdvance true 1; EvAdvance true 1] ++
  [GdLocked 0 7; GdMove 7 8; GdRelease 8; GdDestroy 7; GdTask (EvPerform 0); GdTask (EvPerform 0); GdTask (EvAdvance true 1); GdLocked 1 9].
Definition guard_sample : Guarded := match guard_run guard_events new_guarded with Some g => g | None => new_guarded end.
Lemma scoped_locks_exclude_witness : gd_owning guard_sample = {[9]} /\ gd_terminated guard_sample = false.
Proof.
  split; [vm_compute; reflexivity|]. refine (proj2 (proj2 (scoped_locks_exclude guard_events guard_sample _))).
  vm_compute. reflexivity.
Defined.
