(* ===== verification/AsyncQueue.v ===== *)
(** * AsyncQueue (async_queue.h)

    A queue guarded by two semaphores of [AsyncSemaphore.v]: [_items] counts
    the elements, [_slots], if the queue is bounded, the free places.  A call
    of [push], [pop], [try_push] or [try_pop] is an operation with a program
    counter; an awaiting operation owns a task of the semaphore it waits on.
    Operations, and the tasks and pending calls of the semaphores, interleave
    freely.  The theorems are proved against the invariant of the semaphore:
    a pop that got its permit always finds an element (the underflow error is
    unreachable), the capacity is never exceeded, and elements leave in the
    order in which they came.  Appending to the deque is taken to succeed:
    the [catch] blocks, which hand the slot back when it runs out of memory,
    are not modelled. *)

From S2P Require Import Prelude Counting AsyncWait AsyncReturned AsyncSemaphore.

Section Queue.
Context {T : Type}.

(** ** State *)

(** How an operation gets its permit: by awaiting task [i], by
    [try_acquire], or without one (a push to an unbounded queue). *)
Inductive permit := Awaited (i : nat) | Direct | NoPermit.

Inductive push_pc :=
| PushWait            (* in [_slots->acquire()] *)
| PushAppend          (* before [_queue.push_back] *)
| PushRelease         (* before [_items.release()] *)
| PushDone
| PushFailed (e : exn).

Inductive pop_pc :=
| PopWait             (* in [_items.acquire()] *)
| PopTake             (* before the critical section *)
| PopRelease (v : T)  (* before [_slots->release()] *)
| PopDone (v : T)
| PopNone             (* [try_pop] returned [nullopt] *)
| PopFailed (e : exn).

Record push_op := mkPush { pu_value : T; pu_permit : permit; pu_pc : push_pc }.
Record pop_op := mkPop { po_permit : permit; po_pc : pop_pc }.

Record AsyncQueue := mkQueue {
  q_items : Sem;
  q_slots : option Sem;
  q_queue : list T;
  q_pushes : list push_op;
  q_pops : list pop_op;
  q_in : list T;       (* every element appended so far *)
  q_out : list T       (* every element taken so far *)
}.

(** [AsyncQueue(capacity)]; [None] is [kUnbounded]. *)
Definition new_queue (capacity : option N) : AsyncQueue :=
  mkQueue (new_semaphore 0) (new_semaphore <$> capacity) [] [] [] [] [].

Definition queue_underflow : exn := LogicError "corouv::AsyncQueue internal underflow"%bs.

Definition queue_size (q : AsyncQueue) : nat := length (q_queue q).
Definition queue_empty (q : AsyncQueue) : bool := match q_queue q with [] => true | _ => false end.
Definition bounded (q : AsyncQueue) : bool := match q_slots q with Some _ => true | None => false end.

(** ** Transitions *)

Definition spawn (slot : bool) (s : Sem) : Sem := with_tasks (s_tasks s ++ [new_task slot]) s.
Definition count_direct (s : Sem) : Sem :=
  mkSt (s_res s) (s_queue s) (s_tasks s) (s_pending s) (s_direct s + 1) (s_put s).

Definition set_items (s : Sem) (q : AsyncQueue) : AsyncQueue :=
  mkQueue s (q_slots q) (q_queue q) (q_pushes q) (q_pops q) (q_in q) (q_out q).
Definition set_slots (s : option Sem) (q : AsyncQueue) : AsyncQueue :=
  mkQueue (q_items q) s (q_queue q) (q_pushes q) (q_pops q) (q_in q) (q_out q).
Definition set_pushes (l : list push_op) (q : AsyncQueue) : AsyncQueue :=
  mkQueue (q_items q) (q_slots q) (q_queue q) l (q_pops q) (q_in q) (q_out q).
Definition set_pops (l : list pop_op) (q : AsyncQueue) : AsyncQueue :=
  mkQueue (q_items q) (q_slots q) (q_queue q) (q_pushes q) l (q_in q) (q_out q).
Definition set_push_pc (k : nat) (o : push_op) (pc : push_pc) (q : AsyncQueue) : AsyncQueue :=
  set_pushes (<[k := mkPush (pu_value o) (pu_permit o) pc]> (q_pushes q)) q.
Definition set_pop_pc (k : nat) (o : pop_op) (pc : pop_pc) (q : AsyncQueue) : AsyncQueue :=
  set_pops (<[k := mkPop (po_permit o) pc]> (q_pops q)) q.

(** The start of [push], up to the suspension in [acquire]. *)
Definition push (v : T) (slot : bool) (q : AsyncQueue) : AsyncQueue :=
  match q_slots q with
  | None => set_pushes (q_pushes q ++ [mkPush v NoPermit PushAppend]) q
  | Some s =>
      set_slots (Some (spawn slot s))
        (set_pushes (q_pushes q ++ [mkPush v (Awaited (length (s_tasks s))) PushWait]) q)
  end.
Definition pop (slot : bool) (q : AsyncQueue) : AsyncQueue :=
  set_items (spawn slot (q_items q))
    (set_pops (q_pops q ++ [mkPop (Awaited (length (s_tasks (q_items q)))) PopWait]) q).

(** The start of [try_push] and [try_pop], up to the critical section; with
    [false] the call has returned [false], [nullopt]. *)
Definition try_push (v : T) (q : AsyncQueue) : bool * AsyncQueue :=
  match q_slots q with
  | None => (true, set_pushes (q_pushes q ++ [mkPush v NoPermit PushAppend]) q)
  | Some s =>
      match try_acquire s with
      | (true, s') =>
          (true, set_slots (Some (count_direct s')) (set_pushes (q_pushes q ++ [mkPush v Direct PushAppend]) q))
      | (false, s') => (false, set_slots (Some s') q)
      end
  end.
Definition try_pop (q : AsyncQueue) : bool * AsyncQueue :=
  match try_acquire (q_items q) with
  | (true, s') => (true, set_items (count_direct s') (set_pops (q_pops q ++ [mkPop Direct PopTake]) q))
  | (false, s') => (false, set_items s' q)
  end.

(** How [acquire] of an operation ended. *)
Definition acquired (s : Sem) (p : permit) : option (result unit) :=
  match p with
  | Awaited i =>
      match s_tasks s !! i with
      | Some t => match t_phase t with Returned => Some (Ok tt) | Thrown e => Some (Throw e) | _ => None end
      | None => None
      end
  | _ => None
  end.

(** The next transition of the [k]-th push. *)
Definition push_step (k : nat) (q : AsyncQueue) : option AsyncQueue :=
  match q_pushes q !! k with
  | None => None
  | Some o =>
      match pu_pc o with
      | PushWait =>
          match q_slots q with
          | Some s =>
              match acquired s (pu_permit o) with
              | Some (Ok _) => Some (set_push_pc k o PushAppend q)
              | Some (Throw e) => Some (set_push_pc k o (PushFailed e) q)
              | _ => None
              end
          | None => None
          end
      | PushAppend =>
          let q := set_push_pc k o PushRelease q in
          Some (mkQueue (q_items q) (q_slots q) (q_queue q ++ [pu_value o]) (q_pushes q) (q_pops q)
                  (q_in q ++ [pu_value o]) (q_out q))
      | PushRelease =>
          match release 1 (q_items q) with
          | (Ok _, s) => Some (set_items s (set_push_pc k o PushDone q))
          | (Throw e, s) => Some (set_items s (set_push_pc k o (PushFailed e) q))
          | (OutOfFuel, _) => None
          end
      | _ => None
      end
  end.

(** The next transition of the [k]-th pop; where [pop] throws, [try_pop],
    which has its permit from [try_acquire], returns [nullopt]. *)
Definition pop_step (k : nat) (q : AsyncQueue) : option AsyncQueue :=
  match q_pops q !! k with
  | None => None
  | Some o =>
      match po_pc o with
      | PopWait =>
          match acquired (q_items q) (po_permit o) with
          | Some (Ok _) => Some (set_pop_pc k o PopTake q)
          | Some (Throw e) => Some (set_pop_pc k o (PopFailed e) q)
          | _ => None
          end
      | PopTake =>
          match q_queue q with
          | [] =>
              let pc := match po_permit o with Direct => PopNone | _ => PopFailed queue_underflow end in
              Some (set_items (snd (release 1 (q_items q))) (set_pop_pc k o pc q))
          | v :: rest =>
              let q := set_pop_pc k o (match q_slots q with Some _ => PopRelease v | None => PopDone v end) q in
              Some (mkQueue (q_items q) (q_slots q) rest (q_pushes q) (q_pops q) (q_in q) (q_out q ++ [v]))
          end
      | PopRelease v =>
          match q_slots q with
          | Some s =>
              match release 1 s with
              | (Ok _, s) => Some (set_slots (Some s) (set_pop_pc k o (PopDone v) q))
              | (Throw e, s) => Some (set_slots (Some s) (set_pop_pc k o (PopFailed e) q))
              | (OutOfFuel, _) => None
              end
          | None => None
          end
      | _ => None
      end
  end.

(** What happens inside a semaphore: only the queue's own operations start
    acquisitions. *)
Definition inner_step (s s' : Sem) : Prop :=
  task_step s s' /\ length (s_tasks s') = length (s_tasks s) /\ s_direct s' = s_direct s.

Inductive aq_step : AsyncQueue -> AsyncQueue -> Prop :=
| q_push v slot q : aq_step q (push v slot q)
| q_pop slot q : aq_step q (pop slot q)
| q_try_push v q : aq_step q (snd (try_push v q))
| q_try_pop q : aq_step q (snd (try_pop q))
| q_push_step k q q' : push_step k q = Some q' -> aq_step q q'
| q_pop_step k q q' : pop_step k q = Some q' -> aq_step q q'
| q_items_step s q : inner_step (q_items q) s -> aq_step q (set_items s q)
| q_slots_step s s' q : q_slots q = Some s -> inner_step s s' -> aq_step q (set_slots (Some s') q).

Definition queue_reachable (capacity : option N) (q : AsyncQueue) : Prop := rtc aq_step (new_queue capacity) q.

(** ** Invariant *)


Definition awaited_id (p : permit) : list nat := match p with Awaited i => [i] | _ => [] end.

(** The operation's acquisition returned. *)
Definition got (s : Sem) (p : permit) : bool := match p with Awaited i => returned s i | _ => false end.
Definition ids {A} (pm : A -> permit) (l : list A) : list nat := concat (map (fun o => awaited_id (pm o)) l).

(** One semaphore and the operations that acquire from it: [taken] permits
    were passed on by operations that hold one, [given] were put back. *)
Record side {A} (pm : A -> permit) (wait : A -> bool) (n : N) (s : Sem) (ops : list A) (taken given : Z) : Prop := {
  sd_reach : sem_reachable n s;
  sd_nodup : NoDup (ids pm ops);
  sd_scope i : i ∈ ids pm ops -> (i < length (s_tasks s))%nat;
  sd_given : (s_put s <= given)%Z;
  sd_taken : (taken <= Z.of_nat (count (fun o => negb (wait o) && got s (pm o)) ops) + s_direct s)%Z
}.

Definition at_push_wait (o : push_op) : bool := match pu_pc o with PushWait => true | _ => false end.
Definition at_append (o : push_op) : bool := match pu_pc o with PushAppend => true | _ => false end.
Definition at_push_release (o : push_op) : bool := match pu_pc o with PushRelease => true | _ => false end.
Definition at_pop_wait (o : pop_op) : bool := match po_pc o with PopWait => true | _ => false end.
Definition at_take (o : pop_op) : bool := match po_pc o with PopTake => true | _ => false end.
Definition at_pop_release (o : pop_op) : bool := match po_pc o with PopRelease _ => true | _ => false end.

(** Elements taken, or about to be, are covered by permits of [_items];
    elements appended, or about to be, by permits of [_slots]. *)
Definition items_side (q : AsyncQueue) : Prop :=
  side po_permit at_pop_wait 0 (q_items q) (q_pops q)
    (Z.of_nat (length (q_out q)) + Z.of_nat (count at_take (q_pops q)))
    (Z.of_nat (length (q_in q)) - Z.of_nat (count at_push_release (q_pushes q))).
Definition slots_side (capacity : option N) (q : AsyncQueue) : Prop :=
  match capacity, q_slots q with
  | Some n, Some s =>
      side pu_permit at_push_wait n s (q_pushes q)
        (Z.of_nat (length (q_in q)) + Z.of_nat (count at_append (q_pushes q)))
        (Z.of_nat (length (q_out q)) - Z.of_nat (count at_pop_release (q_pops q)))
  | None, None => True
  | _, _ => False
  end.

Record queue_inv (capacity : option N) (q : AsyncQueue) : Prop := {
  i_fifo : q_in q = q_out q ++ q_queue q;
  i_items : items_side q;
  i_slots : slots_side capacity q
}.

Lemma ids_insert {A} (pm : A -> permit) l k o o' :
  l !! k = Some o -> pm o' = pm o -> ids pm (<[k := o']> l) = ids pm l.
Proof.
  unfold ids. intros Hk Hpm. f_equal. revert k Hk. induction l as [|x l IH]; intros [|k] Hk; simplify_eq/=; [by rewrite Hpm|].
  f_equal. by eapply IH.
Qed.

Lemma ids_app {A} (pm : A -> permit) l o : ids pm (l ++ [o]) = ids pm l ++ awaited_id (pm o).
Proof. unfold ids. rewrite map_app, concat_app. simpl. by rewrite app_nil_r. Qed.

(** Operations with distinct tasks that got their permit by awaiting are at
    most the owners. *)
Lemma holders_le {A} (pm : A -> permit) (g : A -> bool) n s l :
  (n <= SIZE_LIMIT)%N -> sem_reachable n s -> NoDup (ids pm l) -> (forall o, g o = true -> got s (pm o) = true) ->
  (Z.of_nat (count g l) <= owners (s_tasks s))%Z.
Proof.
  intros Hn Hr Hnd Hg. set (held := concat (map (fun o => if g o then awaited_id (pm o) else []) l)).
  assert (length held = count g l) as <-.
  { subst held. unfold count. clear Hnd. induction l as [|o l IH]; simpl; [done|]. rewrite length_app, IH.
    destruct (g o) eqn:E; [|done]. apply Hg in E. unfold got in E. by destruct (pm o). }
  assert (sublist held (ids pm l)) as Hsub.
  { subst held. unfold ids. clear. induction l as [|o l IH]; simpl; [done|]. apply sublist_app; [|done].
    destruct (g o); [done | apply sublist_nil_l]. }
  apply owners_ge; [by eapply sublist_NoDup|]. intros i Hi.
  assert (exists o, g o = true /\ pm o = Awaited i) as (o & Ho & Hpm).
  { subst held. clear -Hi Hg. induction l as [|o l IH]; simpl in Hi; [by apply not_elem_of_nil in Hi|].
    apply elem_of_app in Hi as [Hi|Hi]; [|by apply IH]. destruct (g o) eqn:E; [|by apply not_elem_of_nil in Hi].
    exists o. split; [done|]. destruct (pm o); simpl in Hi; [|by apply not_elem_of_nil in Hi..].
    by apply list_elem_of_singleton in Hi as ->. }
  apply Hg in Ho. rewrite Hpm in Ho. destruct (reachable_inv n s Hn Hr) as (C & _). by eapply returned_owns.
Qed.

Lemma returned_release_loop queue permits ts wakeups permits' queue' ts' wakeups' :
  release_loop queue permits ts wakeups = (permits', queue', ts', wakeups') ->
  length ts' = length ts /\ forall i, t_phase <$> ts' !! i = t_phase <$> ts !! i.
Proof.
  revert permits ts wakeups. induction queue as [|i queue IH]; intros permits ts wakeups; simpl; [by intros [= _ _ -> _]|].
  destruct (0 <? permits)%N; [|by intros [= _ _ -> _]]. destruct (grant i ts) as [ok ts1] eqn:Eg.
  apply grant_phases in Eg as [Hl Hp].
  destruct ok; intros E; apply IH in E as [E1 E2]; (split; [congruence|]); intros j; by rewrite E2.
Qed.

(** [release 1]: the permit is put back, or the counter is full. *)
Lemma release_one (s : Sem) :
  match release 1 s with
  | (Ok _, s') => s_put s' = (s_put s + 1)%Z /\ s_direct s' = s_direct s /\ length (s_tasks s') = length (s_tasks s) /\
                  (forall i, returned s' i = returned s i)
  | (Throw _, s') => s' = s
  | (OutOfFuel, _) => False
  end.
Proof.
  unfold release. simpl. destruct (_ <? 1)%N; [done|]. destruct (release_loop _ _ _ _) as [[[p q] ts] w] eqn:E.
  apply returned_release_loop in E as [E1 E2]. simpl. split_and!; [done | done | done |]. intros i. unfold returned. simpl.
  specialize (E2 i). destruct (ts !! i) as [a|], (s_tasks s !! i) as [b|]; simpl in E2; try done. injection E2 as ->. done.
Qed.

(** *** One side *)

Section Side.
Context {A : Type} (pm : A -> permit) (wait : A -> bool).
Implicit Types (s : Sem) (ops : list A).

Lemma side_bound n s ops taken given :
  (n <= SIZE_LIMIT)%N -> side pm wait n s ops taken given -> (taken <= Z.of_N n + given)%Z.
Proof.
  intros Hn [H1 H2 _ H4 H5].
  assert (Z.of_nat (count (fun o => negb (wait o) && got s (pm o)) ops) <= owners (s_tasks s))%Z as Ho.
  { eapply (holders_le pm); [exact Hn | exact H1 | exact H2 |]. intros o Ho. by apply andb_true_iff in Ho as [_ ?]. }
  destruct (reachable_inv n s Hn H1) as (C & _ & _). pose proof (c_conserve _ _ C) as Hc. simpl in Hc. lia.
Qed.

Lemma side_weaken n s ops taken given taken' given' :
  (taken' <= taken)%Z -> (given <= given')%Z -> side pm wait n s ops taken given -> side pm wait n s ops taken' given'.
Proof. intros Ht Hg [H1 H2 H3 H4 H5]. constructor; auto; lia. Qed.

Lemma side_step n s s' ops taken given :
  sem_step s s' -> keeps s s' -> side pm wait n s ops taken given ->
  side pm wait n s' ops (taken + (s_direct s' - s_direct s)) given.
Proof.
  intros Hs (Hp & Hl & Hr) [H1 H2 H3 H4 H5]. constructor; [by eapply rtc_r | done | | lia |].
  - intros i Hi. specialize (H3 i Hi). lia.
  - assert (count (fun o => negb (wait o) && got s (pm o)) ops <= count (fun o => negb (wait o) && got s' (pm o)) ops); [|lia].
    apply count_mono. intros o Ho. apply andb_true_iff in Ho as [-> Ho]. simpl. unfold got in *. destruct (pm o); auto.
Qed.

Lemma side_app n s ops o taken given i :
  (length (s_tasks s) = S i)%nat -> (forall j, j ∈ ids pm ops -> (j < i)%nat) -> pm o = Awaited i ->
  side pm wait n s ops taken given -> side pm wait n s (ops ++ [o]) taken given.
Proof.
  intros Hl Hsc Hpm [H1 H2 H3 H4 H5]. constructor; auto.
  - rewrite ids_app, Hpm. simpl. apply NoDup_app. split_and!; [done | | apply NoDup_singleton].
    intros j Hj Hi. apply list_elem_of_singleton in Hi as ->. apply Hsc in Hj. lia.
  - intros j. rewrite ids_app, Hpm. simpl. rewrite elem_of_app, list_elem_of_singleton. intros [Hj| ->]; [auto | lia].
  - rewrite count_split. lia.
Qed.

Lemma side_spawn n s ops o slot taken given :
  pm o = Awaited (length (s_tasks s)) -> side pm wait n s ops taken given ->
  side pm wait n (spawn slot s) (ops ++ [o]) taken given.
Proof.
  intros Hpm Hs. assert (task_step s (spawn slot s)) as Ht by constructor.
  eapply side_app; [simpl; rewrite length_app; apply Nat.add_1_r | intros j Hj; by apply (sd_scope _ _ _ _ _ _ _ Hs) | done |].
  eapply side_weaken; [..|eapply side_step; [by apply sem_task | by apply keeps_task_step | exact Hs]]; simpl; lia.
Qed.

Lemma side_direct n s s' ops o taken given :
  pm o = Direct -> try_acquire s = (true, s') -> side pm wait n s ops taken given ->
  side pm wait n (count_direct s') (ops ++ [o]) (taken + 1) given.
Proof.
  intros Hpm E Hs. assert (task_step s (count_direct s')) as Ht by (by apply step_direct).
  assert (s_direct s' = s_direct s) as Hd by (apply try_take_spec in E; naive_solver).
  apply (side_step n s (count_direct s')) in Hs; [|by apply sem_task | by apply keeps_task_step].
  destruct Hs as [H1 H2 H3 H4 H5]. simpl in *. constructor; simpl; auto.
  - by rewrite ids_app, Hpm, app_nil_r.
  - intros i. rewrite ids_app, Hpm, app_nil_r. auto.
  - rewrite count_split. lia.
Qed.

Lemma side_direct_failed n s s' ops taken given :
  try_acquire s = (false, s') -> side pm wait n s ops taken given -> side pm wait n s' ops taken given.
Proof.
  intros E Hs. assert (task_step s s') as Ht by (by apply step_direct_failed).
  assert (s_direct s' = s_direct s) as Hd by (apply try_take_spec in E; naive_solver).
  eapply side_weaken; [..|eapply side_step; [by apply sem_task | by apply keeps_task_step | exact Hs]]; simpl; lia.
Qed.

Lemma side_release n s s' ops taken given :
  release 1 s = (Ok tt, s') -> side pm wait n s ops taken given -> side pm wait n s' ops taken (given + 1).
Proof.
  intros E [H1 H2 H3 H4 H5]. pose proof (release_one s) as Hr. rewrite E in Hr. destruct Hr as (R1 & R2 & R3 & R4).
  constructor; [by eapply rtc_r, sem_release | done | | lia |].
  - intros i Hi. rewrite R3. auto.
  - rewrite R2. replace (count _ ops) with (count (fun o => negb (wait o) && got s (pm o)) ops); [done|].
    unfold count. f_equal. apply List.filter_ext. intros o. unfold got. destruct (pm o); by rewrite ?R4.
Qed.

Lemma side_op n s ops k o o' taken given :
  ops !! k = Some o -> pm o' = pm o -> (wait o = false -> wait o' = false) -> 
  side pm wait n s ops taken given -> side pm wait n s (<[k := o']> ops) taken given.
Proof.
  intros Hk Hpm Hw [H1 H2 H3 H4 H5]. constructor; [done | by rewrite (ids_insert pm ops k o) | | done |].
  - intros i. rewrite (ids_insert pm ops k o) by done. auto.
  - pose proof (count_insert (fun o => negb (wait o) && got s (pm o)) ops k o o' Hk) as Hc. simpl in Hc. rewrite Hpm in Hc.
    destruct (wait o), (wait o'), (got s (pm o)); simpl in Hc; try lia; by specialize (Hw eq_refl).
Qed.

Lemma side_got n s ops k o o' taken given :
  ops !! k = Some o -> pm o' = pm o -> wait o = true -> wait o' = false -> acquired s (pm o) = Some (Ok tt) ->
  side pm wait n s ops taken given -> side pm wait n s (<[k := o']> ops) (taken + 1) given.
Proof.
  intros Hk Hpm Hw Hw' Ha [H1 H2 H3 H4 H5]. constructor; [done | by rewrite (ids_insert pm ops k o) | | done |].
  - intros i. rewrite (ids_insert pm ops k o) by done. auto.
  - assert (got s (pm o) = true) as Hg.
    { unfold acquired in Ha. unfold got, returned. destruct (pm o) as [i| |]; [|done..].
      destruct (s_tasks s !! i) as [t|]; [|done]. by destruct (t_phase t). }
    pose proof (count_insert (fun o => negb (wait o) && got s (pm o)) ops k o o' Hk) as Hc. simpl in Hc.
    rewrite Hpm, Hg, Hw, Hw' in Hc. simpl in Hc. lia.
Qed.
End Side.

(** *** Preservation *)

(** What a change of one operation's program counter does to the counts. *)
Ltac push_counts Hk pc :=
  match type of Hk with
  | q_pushes ?q !! ?k = Some (mkPush ?v ?p ?pc0) =>
      pose proof (count_insert at_append (q_pushes q) k (mkPush v p pc0) (mkPush v p pc) Hk);
      pose proof (count_insert at_push_release (q_pushes q) k (mkPush v p pc0) (mkPush v p pc) Hk);
      simpl in *
  end.
Ltac pop_counts Hk pc :=
  match type of Hk with
  | q_pops ?q !! ?k = Some (mkPop ?p ?pc0) =>
      pose proof (count_insert at_take (q_pops q) k (mkPop p pc0) (mkPop p pc) Hk);
      pose proof (count_insert at_pop_release (q_pops q) k (mkPop p pc0) (mkPop p pc) Hk);
      simpl in *
  end.
Ltac weaken H := eapply side_weaken; [..|exact H]; simpl; lia.
Ltac split_inv := constructor; simpl; [try done | unfold items_side; simpl | unfold slots_side; simpl].

Lemma inv_push capacity v slot q : queue_inv capacity q -> queue_inv capacity (push v slot q).
Proof.
  intros [I1 I2 I3]. unfold push. unfold slots_side in I3. unfold items_side in I2.
  destruct capacity as [n|], (q_slots q) as [s|] eqn:Es; [|done|done|].
  - constructor; [done | |]; unfold items_side, slots_side; simpl; rewrite !count_snoc.
    + eapply side_weaken; [..|exact I2]; simpl; lia.
    + eapply side_weaken; [..|eapply side_spawn; [done | exact I3]]; simpl; lia.
  - constructor; [done | |]; unfold items_side, slots_side; simpl; [|by rewrite Es].
    rewrite count_snoc. eapply side_weaken; [..|exact I2]; simpl; lia.
Qed.

Lemma inv_pop capacity slot q : queue_inv capacity q -> queue_inv capacity (pop slot q).
Proof.
  intros [I1 I2 I3]. unfold pop, slots_side, items_side in *.
  constructor; [done | |]; unfold items_side, slots_side; simpl; rewrite !count_snoc.
  - eapply side_weaken; [..|eapply side_spawn; [done | exact I2]]; simpl; lia.
  - destruct capacity as [n|], (q_slots q) as [s|]; try done. eapply side_weaken; [..|exact I3]; simpl; lia.
Qed.

Lemma inv_try_push capacity v q : queue_inv capacity q -> queue_inv capacity (snd (try_push v q)).
Proof.
  intros [I1 I2 I3]. unfold try_push. unfold slots_side in I3. unfold items_side in I2.
  destruct capacity as [n|], (q_slots q) as [s|] eqn:Es; [|done|done|].
  - destruct (try_acquire s) as [[] s'] eqn:E; (constructor; [done | |]); unfold items_side, slots_side; simpl; rewrite ?count_snoc.
    + eapply side_weaken; [..|exact I2]; simpl; lia.
    + eapply side_weaken; [..|eapply side_direct; [done | exact E | exact I3]]; simpl; lia.
    + done.
    + by eapply side_direct_failed.
  - constructor; [done | |]; unfold items_side, slots_side; simpl; [|by rewrite Es].
    rewrite count_snoc. eapply side_weaken; [..|exact I2]; simpl; lia.
Qed.

Lemma inv_try_pop capacity q : queue_inv capacity q -> queue_inv capacity (snd (try_pop q)).
Proof.
  intros [I1 I2 I3]. unfold try_pop, slots_side, items_side in *.
  destruct (try_acquire (q_items q)) as [[] s'] eqn:E; (constructor; [done | |]); unfold items_side, slots_side; simpl; rewrite ?count_snoc.
  - eapply side_weaken; [..|eapply side_direct; [done | exact E | exact I2]]; simpl; lia.
  - destruct capacity as [n|], (q_slots q) as [s|]; try done. eapply side_weaken; [..|exact I3]; simpl; lia.
  - by eapply side_direct_failed.
  - done.
Qed.

Lemma inv_push_wait capacity k q q' v p :
  queue_inv capacity q -> q_pushes q !! k = Some (mkPush v p PushWait) -> push_step k q = Some q' -> queue_inv capacity q'.
Proof.
  intros [I1 I2 I3] Hk. unfold push_step. rewrite Hk. simpl. unfold items_side, slots_side in *.
  destruct (q_slots q) as [s|] eqn:Es; [|done]. destruct capacity as [n|]; [|done].
  destruct (acquired s p) as [[[]|e|]|] eqn:Ha; try done; intros [= <-].
  - push_counts Hk PushAppend. split_inv; [weaken I2|]. rewrite Es.
    eapply side_weaken; [..|by eapply side_got]; simpl; lia.
  - push_counts Hk (PushFailed e). split_inv; [weaken I2|]. rewrite Es.
    eapply side_weaken; [..|eapply side_op; [exact Hk | done | done | exact I3]]; simpl; lia.
Qed.

Lemma inv_push_append capacity k q q' v p :
  queue_inv capacity q -> q_pushes q !! k = Some (mkPush v p PushAppend) -> push_step k q = Some q' -> queue_inv capacity q'.
Proof.
  intros [I1 I2 I3] Hk. unfold push_step. rewrite Hk. simpl. unfold items_side, slots_side in *. intros [= <-].
  push_counts Hk PushRelease. split_inv.
  - by rewrite I1, app_assoc.
  - rewrite length_app. weaken I2.
  - destruct capacity as [n|], (q_slots q) as [s|]; try done. rewrite length_app.
    eapply side_weaken; [..|eapply side_op; [exact Hk | done | done | exact I3]]; simpl; lia.
Qed.

Lemma inv_push_release capacity k q q' v p :
  queue_inv capacity q -> q_pushes q !! k = Some (mkPush v p PushRelease) -> push_step k q = Some q' -> queue_inv capacity q'.
Proof.
  intros [I1 I2 I3] Hk. unfold push_step. rewrite Hk. simpl. unfold items_side, slots_side in *.
  pose proof (release_one (q_items q)) as Hr. destruct (release 1 (q_items q)) as [[[]|e|] s] eqn:Er; [| |done]; intros [= <-].
  - push_counts Hk PushDone. split_inv.
    + eapply side_weaken; [..|eapply side_release; [exact Er | exact I2]]; simpl; lia.
    + destruct capacity as [n|], (q_slots q) as [s'|]; try done.
      eapply side_weaken; [..|eapply side_op; [exact Hk | done | done | exact I3]]; simpl; lia.
  - subst s. push_counts Hk (PushFailed e). split_inv; [weaken I2|].
    destruct capacity as [n|], (q_slots q) as [s'|]; try done.
    eapply side_weaken; [..|eapply side_op; [exact Hk | done | done | exact I3]]; simpl; lia.
Qed.

Lemma inv_push_step capacity k q q' : queue_inv capacity q -> push_step k q = Some q' -> queue_inv capacity q'.
Proof.
  intros I E. destruct (q_pushes q !! k) as [[v p pc]|] eqn:Hk; [|unfold push_step in E; by rewrite Hk in E].
  destruct pc; [by eapply inv_push_wait | by eapply inv_push_append | by eapply inv_push_release | |];
    unfold push_step in E; by rewrite Hk in E.
Qed.

Lemma inv_pop_wait capacity k q q' p :
  queue_inv capacity q -> q_pops q !! k = Some (mkPop p PopWait) -> pop_step k q = Some q' -> queue_inv capacity q'.
Proof.
  intros [I1 I2 I3] Hk. unfold pop_step. rewrite Hk. simpl. unfold items_side, slots_side in *.
  destruct (acquired (q_items q) p) as [[[]|e|]|] eqn:Ha; try done; intros [= <-].
  - pop_counts Hk PopTake. split_inv.
    + eapply side_weaken; [..|by eapply side_got]; simpl; lia.
    + destruct capacity as [n|], (q_slots q) as [s|]; try done. weaken I3.
  - pop_counts Hk (PopFailed e). split_inv.
    + eapply side_weaken; [..|eapply side_op; [exact Hk | done | done | exact I2]]; simpl; lia.
    + destruct capacity as [n|], (q_slots q) as [s|]; try done. weaken I3.
Qed.

(** An operation that is about to take an element finds one. *)
Lemma inv_nonempty capacity k q p : queue_inv capacity q -> q_pops q !! k = Some (mkPop p PopTake) -> q_queue q <> [].
Proof.
  intros [I1 I2 _] Hk Hq. apply side_bound in I2; [|by vm_compute]. rewrite I1, Hq, app_nil_r in I2.
  pop_counts Hk PopWait. lia.
Qed.

Lemma inv_pop_take capacity k q q' p :
  queue_inv capacity q -> q_pops q !! k = Some (mkPop p PopTake) -> pop_step k q = Some q' -> queue_inv capacity q'.
Proof.
  intros I Hk. pose proof (inv_nonempty _ _ _ _ I Hk) as Hne. destruct I as [I1 I2 I3]. unfold pop_step. rewrite Hk. simpl.
  unfold items_side, slots_side in *. destruct (q_queue q) as [|v rest] eqn:Eq; [done|]. intros [= <-].
  destruct (q_slots q) as [s|] eqn:Es.
  - pop_counts Hk (PopRelease v). split_inv.
    + by rewrite I1, <- app_assoc.
    + rewrite length_app. eapply side_weaken; [..|eapply side_op; [exact Hk | done | done | exact I2]]; simpl; lia.
    + destruct capacity as [n|]; [|done]. rewrite length_app. weaken I3.
  - pop_counts Hk (PopDone v). split_inv.
    + by rewrite I1, <- app_assoc.
    + rewrite length_app. eapply side_weaken; [..|eapply side_op; [exact Hk | done | done | exact I2]]; simpl; lia.
    + done.
Qed.

Lemma inv_pop_release capacity k q q' p v :
  queue_inv capacity q -> q_pops q !! k = Some (mkPop p (PopRelease v)) -> pop_step k q = Some q' -> queue_inv capacity q'.
Proof.
  intros [I1 I2 I3] Hk. unfold pop_step. rewrite Hk. simpl. unfold items_side, slots_side in *.
  destruct (q_slots q) as [s|] eqn:Es; [|done]. destruct capacity as [n|]; [|done].
  pose proof (release_one s) as Hr. destruct (release 1 s) as [[[]|e|] s'] eqn:Er; [| |done]; intros [= <-].
  - pop_counts Hk (PopDone v). split_inv.
    + eapply side_weaken; [..|eapply side_op; [exact Hk | done | done | exact I2]]; simpl; lia.
    + eapply side_weaken; [..|eapply side_release; [exact Er | exact I3]]; simpl; lia.
  - subst s'. pop_counts Hk (PopFailed e). split_inv; [|weaken I3].
    eapply side_weaken; [..|eapply side_op; [exact Hk | done | done | exact I2]]; simpl; lia.
Qed.

Lemma inv_pop_step capacity k q q' : queue_inv capacity q -> pop_step k q = Some q' -> queue_inv capacity q'.
Proof.
  intros I E. destruct (q_pops q !! k) as [[p pc]|] eqn:Hk; [|unfold pop_step in E; by rewrite Hk in E].
  destruct pc; [by eapply inv_pop_wait | by eapply inv_pop_take | by eapply inv_pop_release | | |];
    unfold pop_step in E; by rewrite Hk in E.
Qed.

Lemma side_inner {A} (pm : A -> permit) wait n s s' ops taken given :
  inner_step s s' -> side pm wait n s ops taken given -> side pm wait n s' ops taken given.
Proof.
  intros (Ht & _ & Hd) Hs.
  eapply side_weaken; [..|eapply side_step; [by apply sem_task | by apply keeps_task_step | exact Hs]]; lia.
Qed.

Lemma reachable_queue_inv capacity q : queue_reachable capacity q -> queue_inv capacity q.
Proof.
  intros Hr. assert (queue_inv capacity (new_queue capacity)) as H0.
  { split_inv.
    - constructor; try done; [apply rtc_refl | apply NoDup_nil_2 | intros i Hi; by apply not_elem_of_nil in Hi].
    - destruct capacity as [n|]; [|done]. constructor; try done; [apply rtc_refl | apply NoDup_nil_2 | intros i Hi; by apply not_elem_of_nil in Hi]. }
  unfold queue_reachable in Hr. revert H0. generalize dependent (new_queue capacity).
  intros q0 Hr. induction Hr as [q1|q1 q2 q3 Hs _ IH]; [done|]. intros I. apply IH. clear IH.
  destruct Hs as [v slot q|slot q|v q|q|k q q' E|k q q' E|s q E|s s' q Es E].
  - by apply inv_push.
  - by apply inv_pop.
  - by apply inv_try_push.
  - by apply inv_try_pop.
  - by eapply inv_push_step.
  - by eapply inv_pop_step.
  - destruct I as [I1 I2 I3]. constructor; [done | by eapply side_inner | done].
  - destruct I as [I1 I2 I3]. constructor; [done | done |]. unfold slots_side in *. simpl. rewrite Es in I3.
    destruct capacity; [by eapply side_inner | done].
Qed.

(** *** Concrete interleavings *)

Inductive queue_event :=
| QPush (v : T) (slot : bool)
| QPop (slot : bool)
| QTryPush (v : T)
| QTryPop
| QPushStep (k : nat)
| QPopStep (k : nat)
| QItems (e : event)
| QSlots (e : event).

Definition inner_event (e : event) (s : Sem) : option Sem :=
  match e with
  | EvSpawn _ | EvDirect => None
  | _ => match run_event e s with
         | Some s' =>
             if bool_decide (length (s_tasks s') = length (s_tasks s)) && bool_decide (s_direct s' = s_direct s)
             then Some s' else None
         | None => None
         end
  end.
Definition queue_execute (e : queue_event) (q : AsyncQueue) : option AsyncQueue :=
  match e with
  | QPush v slot => Some (push v slot q)
  | QPop slot => Some (pop slot q)
  | QTryPush v => Some (snd (try_push v q))
  | QTryPop => Some (snd (try_pop q))
  | QPushStep k => push_step k q
  | QPopStep k => pop_step k q
  | QItems e => match inner_event e (q_items q) with Some s => Some (set_items s q) | None => None end
  | QSlots e =>
      match q_slots q with
      | Some s => match inner_event e s with Some s' => Some (set_slots (Some s') q) | None => None end
      | None => None
      end
  end.
Fixpoint aq_run (es : list queue_event) (q : AsyncQueue) : option AsyncQueue :=
  match es with
  | [] => Some q
  | e :: es => match queue_execute e q with Some q' => aq_run es q' | None => None end
  end.

Lemma inner_event_sound e s s' : inner_event e s = Some s' -> inner_step s s'.
Proof.
  intros E. assert (run_event e s = Some s' /\ length (s_tasks s') = length (s_tasks s) /\ s_direct s' = s_direct s) as (H1 & H2 & H3).
  { unfold inner_event in E. destruct e; try done; destruct (run_event _ s) as [s1|]; try done;
      (destruct (bool_decide_reflect (length (s_tasks s1) = length (s_tasks s))); [|done]);
      (destruct (bool_decide_reflect (s_direct s1 = s_direct s)); [|done]); by injection E as <-. }
  split_and!; [by eapply run_event_sound | done | done].
Qed.

Lemma aq_run_sound es q q' : aq_run es q = Some q' -> rtc aq_step q q'.
Proof.
  revert q. induction es as [|e es IH]; intros q; simpl; [by intros [= <-]|].
  destruct (queue_execute e q) as [q1|] eqn:E; [|done]. intros Hr. eapply rtc_l; [|by apply IH]. clear -E.
  destruct e as [v slot|slot|v| |k|k|e|e]; simpl in E.
  - injection E as <-. constructor.
  - injection E as <-. constructor.
  - injection E as <-. constructor.
  - injection E as <-. constructor.
  - by eapply q_push_step.
  - by eapply q_pop_step.
  - destruct (inner_event e (q_items q)) as [s|] eqn:Ei; [|done]. injection E as <-. by apply q_items_step, (inner_event_sound e).
  - destruct (q_slots q) as [s|] eqn:Es; [|done]. destruct (inner_event e s) as [s'|] eqn:Ei; [|done]. injection E as <-.
    eapply q_slots_step; [exact Es | by apply (inner_event_sound e)].
Qed.
End Queue.

(** ** Theorems *)

(** What was pushed is what was popped, in the same order, followed by what
    is still queued: at every moment of every interleaving, elements leave in
    the order in which they came and none is lost or duplicated. *)
Theorem queue_fifo {T} capacity (q : @AsyncQueue T) :
  queue_reachable capacity q -> q_in q = q_out q ++ q_queue q /\ length (q_out q) <= length (q_in q).
Proof.
  intros Hr. destruct (reachable_queue_inv capacity q Hr) as [I1 _ _]. split; [done|]. rewrite I1, length_app. lia.
Qed.

(** C18: A bounded queue never holds more than its capacity, and the pushes that
    have their slot but have not appended yet still fit. *)
Theorem queue_capacity {T} n (q : @AsyncQueue T) :
  (n <= SIZE_LIMIT)%N -> queue_reachable (Some n) q ->
  (N.of_nat (queue_size q + count at_append (q_pushes q)) <= n)%N.
Proof.
  intros Hn Hr. destruct (reachable_queue_inv _ q Hr) as [I1 _ I3]. unfold slots_side in I3.
  destruct (q_slots q) as [s|]; [|done]. apply side_bound in I3; [|done]. rewrite I1, length_app in I3. unfold queue_size. lia.
Qed.

(** C17: A pop whose acquisition returned always finds an element: in every
    reachable state the critical section of a pop takes the first element of
    a non-empty queue, so that the underflow error cannot occur. *)
Theorem queue_pop_delivers {T} capacity (q : @AsyncQueue T) k o :
  queue_reachable capacity q -> q_pops q !! k = Some o -> po_pc o = PopTake ->
  exists v rest q', q_queue q = v :: rest /\ pop_step k q = Some q' /\ q_queue q' = rest /\ q_out q' = q_out q ++ [v] /\
    exists o', q_pops q' !! k = Some o' /\ po_pc o' = if bounded q then PopRelease v else PopDone v.
Proof.
  intros Hr Hk Hpc. apply reachable_queue_inv in Hr. destruct o as [p pc]. simpl in Hpc. subst pc.
  pose proof (inv_nonempty _ _ _ _ Hr Hk) as Hne. destruct (q_queue q) as [|v rest] eqn:Eq; [done|].
  unfold pop_step, bounded. rewrite Hk. simpl. rewrite Eq. eexists v, rest, _. split_and!; [done | done | done | done |].
  simpl. rewrite list_lookup_insert_eq by (by eapply lookup_lt_Some). eexists. split; [done|]. by destruct (q_slots q).
Qed.

(** A queue of capacity one: an element was pushed, and a pop has got its
    permit. *)
Definition delivering_events : list (@queue_event nat) :=
  [QPush 7 true; QSlots (EvAdvance true 0); QSlots (EvAdvance true 0); QSlots (EvAdvance true 0);
   QPushStep 0; QPushStep 0; QPushStep 0;
   QPop true; QItems (EvAdvance true 0); QItems (EvAdvance true 0); QItems (EvAdvance true 0); QPopStep 0].
Definition delivering : @AsyncQueue nat := default (new_queue (Some 1%N)) (aq_run delivering_events (new_queue (Some 1%N))).

Lemma delivering_reachable : queue_reachable (Some 1%N) delivering.
Proof. apply (aq_run_sound delivering_events). vm_compute. reflexivity. Qed.

Lemma queue_fifo_witness : q_in delivering = q_out delivering ++ [7].
Proof. exact (proj1 (queue_fifo (Some 1%N) delivering delivering_reachable)). Defined.

Lemma queue_capacity_witness : queue_size delivering = 1 /\ (N.of_nat (queue_size delivering + count at_append (q_pushes delivering)) <= 1)%N.
Proof. split; [reflexivity|]. apply (queue_capacity 1); [vm_compute; discriminate | exact delivering_reachable]. Defined.

Lemma queue_pop_delivers_witness : exists q', pop_step 0 delivering = Some q' /\ q_out q' = [7].
Proof.
  destruct (queue_pop_delivers (Some 1%N) delivering 0 (mkPop (Awaited 0) PopTake) delivering_reachable eq_refl eq_refl)
    as (v & rest & q' & Hq & Hs & _ & Ho & _).
  assert (v = 7) as ->; [by injection Hq as <- _|]. exists q'. split; [exact Hs | exact Ho].
Defined.

(** An element can be stranded.  A pop that takes its permit in [await_ready]
    and is cancelled before [await_resume] throws; its permit is gone while
    the element stays in the queue, where no later pop finds it. *)
Theorem queue_element_stranded :
  exists q : @AsyncQueue nat,
    queue_reachable None q /\ q_queue q = [7] /\ q_pops q = [mkPop (Awaited 0) (PopFailed (SignalException g_canceled))] /\
    q_pushes q = [mkPush 7 NoPermit PushDone] /\ s_pending (q_items q) = [] /\ try_pop q = (false, q).
Proof.
  set (es := [QPush 7 false; QPushStep 0; QPushStep 0; QPop true; QItems (EvAdvance true 0); QItems (EvAdvance true 0);
              QItems (EvSignal 0); QItems (EvAdvance true 0); QPopStep 0] : list (@queue_event nat)).
  set (q := default (new_queue None) (aq_run es (new_queue None))). exists q.
  split_and!; [|vm_compute; reflexivity..]. apply (aq_run_sound es). vm_compute. reflexivity.
Qed.
