(* ===== verification/NetWait.v ===== *)
(** * Operations that wait on a handle (net.cpp)

    [TcpStream::read_some], [TcpListener::accept] and [UdpSocket::recv] follow
    one pattern: an awaiter tests, under the mutex of the shared state,
    whether there is something to deliver; if not, it leaves its handle in the
    state.  Callbacks of libuv change the state, take the handle out and post
    its resumption; [await_resume] then takes what there is.

    [WaitCell] is that pattern as an interface, with the laws that the
    functions of the three classes have to satisfy.  The machine interleaves
    any number of operations with any sequence of callbacks: every function
    that touches the state runs on the loop thread, or under the mutex, and
    is one transition.  The invariant is proved once, from the laws. *)

From S2P Require Import Prelude.

(** [throw_uv_error] of uv_error.h; [uv_strerror] is libuv's. *)
Definition throw_uv_error (uv_strerror : Z -> bytes) (code : Z) (what : bytes) : exn :=
  RuntimeError (what ++ ": "%bs ++ uv_strerror code).

(** Error codes of libuv, with the values they have on Linux. *)
Definition UV_EOF : Z := -4095.
Definition UV_ECANCELED : Z := -125.
Definition UV_ENOSYS : Z := -38.
Definition UV_EINVAL : Z := -22.
Definition UV_EAGAIN : Z := -11.
Definition UV_EBADF : Z := -9.

(** What the awaiter remembers until [await_resume]. *)
Inductive fault :=
| NoFault
| Concurrent              (* [_concurrent_read] and the like *)
| SetupError (rc : Z).    (* [_setup_error], [_start_rc] *)

(** What [register_waiter] decided: wait, or go on at once. *)
Inductive registered := Waits | GoesOn (f : fault).

(** [S]: the shared state; [Rq]: the arguments of a call; [Ev]: callbacks;
    [A]: results. *)
Class WaitCell (S Rq Ev A : Type) := {
  wc_waiters : S -> list nat;
  wc_ready : S -> bool;                                     (* there is no reason to wait *)
  wc_call : Rq -> S -> option (result A);                   (* [Some r]: returns before it awaits *)
  wc_register : nat -> Rq -> Z -> S -> registered * S;      (* with libuv's return code *)
  wc_event : Ev -> S -> option (S * list nat);              (* [None]: libuv does not call back now *)
  wc_resume : nat -> Rq -> fault -> bool -> S -> result A * S  (* [await_resume], of a task that may be cancelled *)
}.

Class WaitCellLaws (S Rq Ev A : Type) `{WaitCell S Rq Ev A} := {
  (* what the functions maintain besides *)
  wc_inv : S -> Prop;
  (* a waiter is only left behind when there is nothing to deliver *)
  wc_register_ok k rq rc s o s' :
    wc_inv s -> k ∉ wc_waiters s -> (wc_waiters s <> [] -> wc_ready s = false) -> wc_register k rq rc s = (o, s') ->
    wc_inv s' /\
    match o with
    | Waits => wc_waiters s' ≡ₚ k :: wc_waiters s /\ wc_ready s' = false
    | GoesOn _ => wc_waiters s' ≡ₚ wc_waiters s /\ (wc_waiters s' <> [] -> wc_ready s' = false)
    end;
  (* a callback takes out the waiters it resumes, and all of them as soon as
     there is something to deliver *)
  wc_event_ok ev s s' resumed :
    wc_inv s -> (wc_waiters s <> [] -> wc_ready s = false) -> wc_event ev s = Some (s', resumed) ->
    wc_inv s' /\ wc_waiters s ≡ₚ resumed ++ wc_waiters s' /\ (wc_waiters s' <> [] -> wc_ready s' = false);
  wc_resume_ok k rq f canceled s r s' :
    wc_inv s -> (wc_waiters s <> [] -> wc_ready s = false) -> wc_resume k rq f canceled s = (r, s') ->
    wc_inv s' /\ wc_waiters s' ≡ₚ wc_waiters s /\ (wc_waiters s' <> [] -> wc_ready s' = false)
}.

Inductive wait_pc (A : Type) :=
| Called                  (* before [await_suspend] *)
| Waiting                 (* suspended *)
| Resuming (f : fault)    (* before [await_resume] *)
| Finished (r : result A).
Arguments Called {A}.
Arguments Waiting {A}.
Arguments Resuming {A} _.
Arguments Finished {A} _.

Record wait_op (Rq A : Type) := mkOp {
  op_req : Rq;
  op_slot : bool;           (* the task can be cancelled *)
  op_canceled : bool;       (* and it was *)
  op_pc : wait_pc A
}.
Arguments mkOp {Rq A} _ _ _ _.
Arguments op_req {Rq A} _.
Arguments op_slot {Rq A} _.
Arguments op_canceled {Rq A} _.
Arguments op_pc {Rq A} _.

Section Machine.
Context {S Rq Ev A : Type} `{WaitCell S Rq Ev A}.

Record wait_state := mkWait { ws_cell : S; ws_ops : list (wait_op Rq A) }.

Definition set_pc (pc : wait_pc A) (o : wait_op Rq A) : wait_op Rq A := mkOp (op_req o) (op_slot o) (op_canceled o) pc.

(** [resume_handle]: posted, run later by [wait_resume]. *)
Definition resume_op (ops : list (wait_op Rq A)) (k : nat) : list (wait_op Rq A) :=
  match ops !! k with Some o => <[k := set_pc (Resuming NoFault) o]> ops | None => ops end.

(** A call of the operation. *)
Definition wait_call (rq : Rq) (slot : bool) (w : wait_state) : wait_state :=
  let pc := match wc_call rq (ws_cell w) with Some r => Finished r | None => Called end in
  mkWait (ws_cell w) (ws_ops w ++ [mkOp rq slot false pc]).

(** [await_suspend].  If the task was cancelled before, the handler is not
    installed and the operation goes on to [await_resume]. *)
Definition wait_register (k : nat) (rc : Z) (w : wait_state) : option wait_state :=
  match ws_ops w !! k with
  | Some o =>
      match op_pc o with
      | Called =>
          if op_canceled o then Some (mkWait (ws_cell w) (<[k := set_pc (Resuming NoFault) o]> (ws_ops w)))
          else match wc_register k (op_req o) rc (ws_cell w) with
               | (Waits, s) => Some (mkWait s (<[k := set_pc Waiting o]> (ws_ops w)))
               | (GoesOn f, s) => Some (mkWait s (<[k := set_pc (Resuming f) o]> (ws_ops w)))
               end
      | _ => None
      end
  | None => None
  end.

Definition wait_resume (k : nat) (w : wait_state) : option wait_state :=
  match ws_ops w !! k with
  | Some o =>
      match op_pc o with
      | Resuming f =>
          let '(r, s) := wc_resume k (op_req o) f (op_canceled o) (ws_cell w) in
          Some (mkWait s (<[k := set_pc (Finished r) o]> (ws_ops w)))
      | _ => None
      end
  | None => None
  end.

Definition wait_event (ev : Ev) (w : wait_state) : option wait_state :=
  match wc_event ev (ws_cell w) with
  | Some (s, resumed) => Some (mkWait s (fold_left resume_op resumed (ws_ops w)))
  | None => None
  end.

(** The cancellation signal of the task of operation [k]. *)
Definition wait_signal (k : nat) (w : wait_state) : option wait_state :=
  match ws_ops w !! k with
  | Some o =>
      if op_slot o then Some (mkWait (ws_cell w) (<[k := mkOp (op_req o) true true (op_pc o)]> (ws_ops w))) else None
  | None => None
  end.

Inductive wait_label :=
| LCall (rq : Rq) (slot : bool)
| LRegister (k : nat) (rc : Z)
| LResume (k : nat)
| LEvent (ev : Ev)
| LSignal (k : nat).

Definition wait_step (l : wait_label) (w : wait_state) : option wait_state :=
  match l with
  | LCall rq slot => Some (wait_call rq slot w)
  | LRegister k rc => wait_register k rc w
  | LResume k => wait_resume k w
  | LEvent ev => wait_event ev w
  | LSignal k => wait_signal k w
  end.

Fixpoint wait_run (ls : list wait_label) (w : wait_state) : option wait_state :=
  match ls with
  | [] => Some w
  | l :: ls => match wait_step l w with Some w' => wait_run ls w' | None => None end
  end.

Definition is_waiting (w : wait_state) (k : nat) : Prop :=
  exists o, ws_ops w !! k = Some o /\ op_pc o = Waiting.

End Machine.
Arguments mkWait {S Rq A} _ _.
Arguments ws_cell {S Rq A} _.
Arguments ws_ops {S Rq A} _.

Section Preservation.
Context {S Rq Ev A : Type} `{WaitCellLaws S Rq Ev A}.
Implicit Types w : @wait_state S Rq A.

(** ** Invariant *)

Record wait_inv w : Prop := {
  wi_inv : wc_inv (ws_cell w);
  wi_nodup : NoDup (wc_waiters (ws_cell w));
  wi_ready : wc_waiters (ws_cell w) <> [] -> wc_ready (ws_cell w) = false;
  wi_waiting k : k ∈ wc_waiters (ws_cell w) <-> is_waiting w k
}.

Lemma is_waiting_insert w (s : S) k o pc j :
  ws_ops w !! k = Some o ->
  is_waiting (mkWait s (<[k := set_pc pc o]> (ws_ops w))) j <-> (if decide (j = k) then pc = Waiting else is_waiting w j).
Proof.
  intros Hk. unfold is_waiting. simpl. destruct (decide (j = k)) as [->|Hne].
  - rewrite list_lookup_insert_eq by (by eapply lookup_lt_Some). split; [intros (? & [= <-] & ?); done | intros ->; eauto].
  - by rewrite list_lookup_insert_ne.
Qed.

(** An operation that is not waiting is not among the waiters. *)
Lemma not_waiter w k o : wait_inv w -> ws_ops w !! k = Some o -> op_pc o <> Waiting -> k ∉ wc_waiters (ws_cell w).
Proof. intros I Hk Hpc Hin. apply (wi_waiting _ I) in Hin as (o' & Ho & ?). rewrite Hk in Ho. by simplify_eq. Qed.

(** Moving operation [k], which is not waiting, without waiters. *)
Lemma inv_move w (s : S) k o pc :
  wait_inv w -> ws_ops w !! k = Some o -> op_pc o <> Waiting -> pc <> Waiting ->
  wc_inv s -> wc_waiters s ≡ₚ wc_waiters (ws_cell w) -> (wc_waiters s <> [] -> wc_ready s = false) ->
  wait_inv (mkWait s (<[k := set_pc pc o]> (ws_ops w))).
Proof.
  intros I Hk Hpc Hpc' Hi Hp Hr. pose proof (not_waiter _ _ _ I Hk Hpc) as Hni. constructor; simpl.
  - done.
  - rewrite Hp. apply (wi_nodup _ I).
  - done.
  - intros j. rewrite (is_waiting_insert w) by done. rewrite Hp. destruct (decide (j = k)) as [->|?]; [done | apply (wi_waiting _ I)].
Qed.

Lemma inv_call w rq slot : wait_inv w -> wait_inv (wait_call rq slot w).
Proof.
  intros I. constructor; simpl; [apply (wi_inv _ I) | apply (wi_nodup _ I) | apply (wi_ready _ I) |].
  intros k. rewrite (wi_waiting _ I). unfold is_waiting. simpl. split.
  - intros (o & Hk & Ho). exists o. split; [|done]. by apply lookup_app_l_Some.
  - intros (o & Hk & Ho). rewrite lookup_app in Hk. destruct (ws_ops w !! k) as [o'|]; [eauto|].
    apply list_lookup_singleton_Some in Hk as [_ <-]. simpl in Ho. by destruct (wc_call rq (ws_cell w)).
Qed.

Lemma inv_register w w' k rc : wait_inv w -> wait_register k rc w = Some w' -> wait_inv w'.
Proof.
  intros I. unfold wait_register. destruct (ws_ops w !! k) as [o|] eqn:Hk; [|done]. destruct (op_pc o) eqn:Hpc; try done.
  assert (op_pc o <> Waiting) as Hnw by congruence. pose proof (not_waiter _ _ _ I Hk Hnw) as Hni.
  destruct (op_canceled o); [intros [= <-]; by apply inv_move; [..|apply (wi_inv _ I)|done|apply (wi_ready _ I)]|].
  destruct (wc_register k (op_req o) rc (ws_cell w)) as [reg s] eqn:E.
  apply wc_register_ok in E as [Hi E]; [|apply (wi_inv _ I)|done|apply (wi_ready _ I)]. destruct reg as [|f]; intros [= <-].
  - destruct E as [Hp Hr]. constructor; simpl; [done | | done |].
    + rewrite Hp. apply NoDup_cons. split; [done | apply (wi_nodup _ I)].
    + intros j. rewrite (is_waiting_insert w) by done. rewrite Hp, elem_of_cons. destruct (decide (j = k)) as [->|?]; [tauto|].
      rewrite (wi_waiting _ I). tauto.
  - destruct E as [Hp Hr]. by apply inv_move.
Qed.

Lemma inv_resume w w' k : wait_inv w -> wait_resume k w = Some w' -> wait_inv w'.
Proof.
  intros I. unfold wait_resume. destruct (ws_ops w !! k) as [o|] eqn:Hk; [|done]. destruct (op_pc o) eqn:Hpc; try done.
  destruct (wc_resume _ _ _ _ _) as [r s] eqn:E. intros [= <-]. apply wc_resume_ok in E as (Hi & Hp & Hr); [|apply (wi_inv _ I)|apply (wi_ready _ I)].
  apply inv_move; try done. congruence.
Qed.

Lemma resume_op_lookup resumed ops k :
  fold_left resume_op resumed ops !! k =
  (if decide (k ∈ resumed) then set_pc (Resuming NoFault) <$> ops !! k else ops !! k : option (wait_op Rq A)).
Proof.
  revert ops. induction resumed as [|j resumed IH]; intros ops; simpl; [done|]. rewrite IH. unfold resume_op.
  assert (forall o : wait_op Rq A, set_pc (Resuming NoFault) (set_pc (Resuming NoFault) o) = set_pc (Resuming NoFault) o) as Hid by done.
  destruct (ops !! j) as [o|] eqn:Hj.
  - destruct (decide (k = j)) as [->|Hne].
    + rewrite list_lookup_insert_eq by (by eapply lookup_lt_Some). rewrite Hj. simpl.
      rewrite (decide_True (P := j ∈ j :: resumed)) by constructor. by destruct (decide _).
    + rewrite list_lookup_insert_ne by done. destruct (decide (k ∈ resumed)) as [Hin|Hni].
      * rewrite decide_True; [done | by constructor].
      * rewrite decide_False; [done|]. by rewrite elem_of_cons; intros [?|?].
  - destruct (decide (k = j)) as [->|Hne].
    + rewrite Hj. simpl. by repeat destruct (decide _).
    + destruct (decide (k ∈ resumed)) as [Hin|Hni].
      * rewrite decide_True; [done | by constructor].
      * rewrite decide_False; [done|]. by rewrite elem_of_cons; intros [?|?].
Qed.

Lemma inv_event w w' ev : wait_inv w -> wait_event ev w = Some w' -> wait_inv w'.
Proof.
  intros I. unfold wait_event. destruct (wc_event ev (ws_cell w)) as [[s resumed]|] eqn:E; [|done]. intros [= <-].
  apply wc_event_ok in E as (Hi & Hp & Hr); [|apply (wi_inv _ I)|apply (wi_ready _ I)]. pose proof (wi_nodup _ I) as Hnd. rewrite Hp in Hnd.
  apply NoDup_app in Hnd as (_ & Hdis & Hnd). constructor; simpl; [done | done | done |]. intros k.
  assert (k ∈ wc_waiters s <-> k ∈ wc_waiters (ws_cell w) /\ k ∉ resumed) as ->.
  { rewrite Hp, elem_of_app. split; [|tauto]. intros Hk. split; [by right|]. intros Hin. by eapply Hdis. }
  rewrite (wi_waiting _ I). unfold is_waiting. simpl. rewrite resume_op_lookup. destruct (decide (k ∈ resumed)) as [Hin|Hni].
  - split; [tauto|]. intros (o & Ho & Hpc). apply fmap_Some in Ho as (o' & _ & ->). done.
  - tauto.
Qed.

Lemma inv_signal w w' k : wait_inv w -> wait_signal k w = Some w' -> wait_inv w'.
Proof.
  intros I. unfold wait_signal. destruct (ws_ops w !! k) as [o|] eqn:Hk; [|done]. destruct (op_slot o); [|done]. intros [= <-].
  constructor; simpl; [apply (wi_inv _ I) | apply (wi_nodup _ I) | apply (wi_ready _ I) |]. intros j. rewrite (wi_waiting _ I). unfold is_waiting. simpl.
  destruct (decide (j = k)) as [->|Hne]; [|by rewrite list_lookup_insert_ne].
  rewrite list_lookup_insert_eq by (by eapply lookup_lt_Some). rewrite Hk. split; intros (? & [= <-] & ?); eauto.
Qed.

Lemma wait_step_inv l w w' : wait_inv w -> wait_step l w = Some w' -> wait_inv w'.
Proof.
  destruct l; simpl; [intros I [= <-]; by apply inv_call | apply inv_register | apply inv_resume | apply inv_event | apply inv_signal].
Qed.

Lemma wait_run_inv ls w w' : wait_inv w -> wait_run ls w = Some w' -> wait_inv w'.
Proof.
  revert w. induction ls as [|l ls IH]; intros w I; simpl; [by intros [= <-]|].
  destruct (wait_step l w) as [w1|] eqn:E; [|done]. apply IH. by eapply wait_step_inv.
Qed.

(** An operation that is suspended is registered, and there is nothing it
    could be given; so a state with something to deliver has no suspended
    operation.  A callback resumes only operations that are suspended. *)
Lemma waiting_registered w k : wait_inv w -> is_waiting w k -> k ∈ wc_waiters (ws_cell w) /\ wc_ready (ws_cell w) = false.
Proof.
  intros I Hk. apply (wi_waiting _ I) in Hk. split; [done|]. apply (wi_ready _ I). intros E. rewrite E in Hk.
  by apply not_elem_of_nil in Hk.
Qed.

Lemma event_resumes_waiting w ev s resumed :
  wait_inv w -> wc_event ev (ws_cell w) = Some (s, resumed) -> NoDup resumed /\ forall k, k ∈ resumed -> is_waiting w k.
Proof.
  intros I E. apply wc_event_ok in E as (_ & Hp & _); [|apply (wi_inv _ I)|apply (wi_ready _ I)]. pose proof (wi_nodup _ I) as Hnd. rewrite Hp in Hnd.
  apply NoDup_app in Hnd as (Hnd & _ & _). split; [done|]. intros k Hk. apply (wi_waiting _ I). rewrite Hp, elem_of_app. by left.
Qed.
End Preservation.

(** A property of the shared state that every function keeps holds in every
    run. *)
Section Stable.
Context {S Rq Ev A : Type} `{WaitCell S Rq Ev A} (P : S -> Prop).
Hypothesis Hregister : forall k rq rc s, P s -> P (snd (wc_register k rq rc s)).
Hypothesis Hevent : forall ev s s' resumed, P s -> wc_event ev s = Some (s', resumed) -> P s'.
Hypothesis Hresume : forall k rq f canceled s, P s -> P (snd (wc_resume k rq f canceled s)).

Lemma cell_stable_step l (w w' : @wait_state S Rq A) : P (ws_cell w) -> wait_step l w = Some w' -> P (ws_cell w').
Proof.
  intros HP. destruct l as [rq slot|k rc|k|ev|k]; simpl.
  - by intros [= <-].
  - unfold wait_register. destruct (ws_ops w !! k) as [o|]; [|done]. destruct (op_pc o); try done.
    destruct (op_canceled o); [by intros [= <-]|]. specialize (Hregister k (op_req o) rc (ws_cell w) HP).
    destruct (wc_register _ _ _ _) as [[|f] s]; by intros [= <-].
  - unfold wait_resume. destruct (ws_ops w !! k) as [o|]; [|done]. destruct (op_pc o) as [| |f|]; try done.
    specialize (Hresume k (op_req o) f (op_canceled o) (ws_cell w) HP). destruct (wc_resume _ _ _ _ _) as [r s]. by intros [= <-].
  - unfold wait_event. destruct (wc_event ev (ws_cell w)) as [[s resumed]|] eqn:E; [|done]. intros [= <-]. by eapply Hevent.
  - unfold wait_signal. destruct (ws_ops w !! k) as [o|]; [|done]. destruct (op_slot o); by intros [= <-].
Qed.

Lemma cell_stable_run ls (w w' : @wait_state S Rq A) : P (ws_cell w) -> wait_run ls w = Some w' -> P (ws_cell w').
Proof.
  revert w. induction ls as [|l ls IH]; intros w HP; simpl; [by intros [= <-]|].
  destruct (wait_step l w) as [w1|] eqn:E; [|done]. apply IH. by eapply cell_stable_step.
Qed.
End Stable.

(** What an awaiter remembers stays true of the shared state until
    [await_resume]. *)
Section Remembered.
Context {S Rq Ev A : Type} `{WaitCell S Rq Ev A} (I : S -> Prop) (P : fault -> S -> Prop).
Hypothesis Iregister : forall k rq rc s, I s -> I (snd (wc_register k rq rc s)).
Hypothesis Ievent : forall ev s s' resumed, I s -> wc_event ev s = Some (s', resumed) -> I s'.
Hypothesis Iresume : forall k rq f canceled s, I s -> I (snd (wc_resume k rq f canceled s)).
Hypothesis Pnone : forall s, P NoFault s.
Hypothesis Pset : forall k rq rc s f s', I s -> wc_register k rq rc s = (GoesOn f, s') -> P f s'.
Hypothesis Pregister : forall f k rq rc s, I s -> P f s -> P f (snd (wc_register k rq rc s)).
Hypothesis Pevent : forall f ev s s' resumed, I s -> P f s -> wc_event ev s = Some (s', resumed) -> P f s'.
Hypothesis Presume : forall f k rq g canceled s, I s -> P f s -> P f (snd (wc_resume k rq g canceled s)).

Definition remembered (w : @wait_state S Rq A) : Prop :=
  forall k o f, ws_ops w !! k = Some o -> op_pc o = Resuming f -> P f (ws_cell w).

Lemma remembered_insert w (s : S) k o pc :
  remembered w -> (forall f, P f (ws_cell w) -> P f s) -> ws_ops w !! k = Some o -> (forall f, pc = Resuming f -> P f s) ->
  remembered (mkWait s (<[k := set_pc pc o]> (ws_ops w))).
Proof.
  intros Hr Hs Hk Hpc j u f. simpl. destruct (decide (j = k)) as [->|Hne].
  - rewrite list_lookup_insert_eq by (by eapply lookup_lt_Some). intros [= <-]. simpl. apply Hpc.
  - rewrite list_lookup_insert_ne by done. intros Hj Hf. by eapply Hs, Hr.
Qed.

Lemma remembered_step l (w w' : @wait_state S Rq A) :
  I (ws_cell w) -> remembered w -> wait_step l w = Some w' -> remembered w'.
Proof.
  intros HI HR. destruct l as [rq slot|k rc|k|ev|k]; simpl.
  - intros [= <-] j o f. simpl. rewrite lookup_app. destruct (ws_ops w !! j) as [u|] eqn:E; [intros [= <-]; by eapply HR|].
    intros Ho Hf. apply list_lookup_singleton_Some in Ho as [_ <-]. simpl in Hf. by destruct (wc_call rq (ws_cell w)).
  - unfold wait_register. destruct (ws_ops w !! k) as [o|] eqn:Hk; [|done]. destruct (op_pc o); try done.
    destruct (op_canceled o); [intros [= <-]; apply remembered_insert; [done | done | done |]; intros f [= <-]; apply Pnone|].
    pose proof (fun f => Pset k (op_req o) rc (ws_cell w) f) as Hset. pose proof (fun f => Pregister f k (op_req o) rc (ws_cell w) HI) as Hreg.
    destruct (wc_register _ _ _ _) as [[|f] s]; intros [= <-]; (apply remembered_insert; [done | exact Hreg | done |]); [done|].
    intros g [= <-]. by apply Hset.
  - unfold wait_resume. destruct (ws_ops w !! k) as [o|] eqn:Hk; [|done]. destruct (op_pc o) as [| |f|]; try done.
    pose proof (fun g => Presume g k (op_req o) f (op_canceled o) (ws_cell w) HI) as Hres.
    destruct (wc_resume _ _ _ _ _) as [r s]. intros [= <-]. by apply remembered_insert.
  - unfold wait_event. destruct (wc_event ev (ws_cell w)) as [[s resumed]|] eqn:E; [|done]. intros [= <-] j o f. simpl.
    rewrite resume_op_lookup. destruct (decide (j ∈ resumed)).
    + intros (u & _ & ->)%fmap_Some [= <-]. apply Pnone.
    + intros Hj Hf. by eapply Pevent, E; [|eapply HR].
  - unfold wait_signal. destruct (ws_ops w !! k) as [o|] eqn:Hk; [|done]. destruct (op_slot o); [|done]. intros [= <-] j u f. simpl.
    destruct (decide (j = k)) as [->|Hne]; [|rewrite list_lookup_insert_ne by done; apply HR].
    rewrite list_lookup_insert_eq by (by eapply lookup_lt_Some). intros [= <-] Hf. by eapply HR.
Qed.

Lemma remembered_run ls (w w' : @wait_state S Rq A) :
  I (ws_cell w) -> remembered w -> wait_run ls w = Some w' -> remembered w'.
Proof.
  revert w. induction ls as [|l ls IH]; intros w HI HR; simpl; [by intros [= <-]|].
  destruct (wait_step l w) as [w1|] eqn:E; [|done]. apply IH; [by eapply (cell_stable_step I) | by eapply remembered_step].
Qed.
End Remembered.

(** ** One operation at a time

    A caller that awaits each operation before it starts the next. *)

Class WaitCellReady (S Rq Ev A : Type) `{WaitCell S Rq Ev A} := {
  wc_register_ready k rq rc s f s' :
    wc_waiters s = [] -> wc_register k rq rc s = (GoesOn f, s') -> f <> Concurrent /\ f <> SetupError 0 /\ (f = NoFault -> wc_ready s' = true);
  wc_event_ready ev s s' resumed :
    wc_event ev s = Some (s', resumed) -> resumed <> [] \/ wc_ready s = true -> wc_ready s' = true
}.

Section Exclusive.
Context {S Rq Ev A : Type} `{WaitCellLaws S Rq Ev A} `{!WaitCellReady S Rq Ev A}.
Implicit Types w : @wait_state S Rq A.

Definition finished (o : wait_op Rq A) : bool := match op_pc o with Finished _ => true | _ => false end.

Fixpoint exclusive_run (ls : list wait_label) w : option wait_state :=
  match ls with
  | [] => Some w
  | l :: ls =>
      let allowed := match l with LCall _ slot => forallb finished (ws_ops w) && negb slot | _ => true end in
      if allowed then match wait_step l w with Some w' => exclusive_run ls w' | None => None end else None
  end.

Record exclusive_inv w : Prop := {
  xi_wait : wait_inv w;
  xi_one i j oi oj : ws_ops w !! i = Some oi -> ws_ops w !! j = Some oj -> finished oi = false -> finished oj = false -> i = j;
  xi_plain i o : ws_ops w !! i = Some o -> op_slot o = false /\ op_canceled o = false;
  xi_resuming i o f : ws_ops w !! i = Some o -> op_pc o = Resuming f ->
    f <> Concurrent /\ f <> SetupError 0 /\ (f = NoFault -> wc_ready (ws_cell w) = true)
}.

Lemma exclusive_call w rq : forallb finished (ws_ops w) = true -> exclusive_inv w -> exclusive_inv (wait_call rq false w).
Proof.
  intros Hall [I1 I2 I3 I4]. assert (forall i o, ws_ops (wait_call rq false w) !! i = Some o ->
    ws_ops w !! i = Some o \/ (i = length (ws_ops w) /\ exists pc, o = mkOp rq false false pc /\ forall f, pc <> Resuming f)) as Hl.
  { intros i o. simpl. rewrite lookup_app. destruct (ws_ops w !! i) as [o'|] eqn:E; [by left|]. intros Ho.
    apply list_lookup_singleton_Some in Ho as [Hi <-]. apply lookup_ge_None in E. right. split; [lia|].
    eexists. split; [done|]. by destruct (wc_call rq (ws_cell w)). }
  assert (forall i o, ws_ops w !! i = Some o -> finished o = true) as Hf.
  { intros i o Ho. rewrite forallb_forall in Hall. apply Hall, list_elem_of_In. by eapply list_elem_of_lookup_2. }
  constructor; [by apply inv_call | | |].
  - intros i j oi oj Hi Hj Fi Fj. apply Hl in Hi as [Hi|[-> _]]; [apply Hf in Hi; congruence|].
    apply Hl in Hj as [Hj|[-> _]]; [apply Hf in Hj; congruence | done].
  - intros i o Hi. apply Hl in Hi as [Hi|(_ & pc & -> & _)]; [by eapply I3 | done].
  - intros i o f Hi Hpc. apply Hl in Hi as [Hi|(_ & pc & -> & Hn)]; [by eapply I4 | by apply Hn in Hpc].
Qed.

(** The operation that moves is the only one that is not finished. *)
Lemma exclusive_move w (s : S) k o pc :
  exclusive_inv w -> ws_ops w !! k = Some o -> finished o = false -> wait_inv (mkWait s (<[k := set_pc pc o]> (ws_ops w))) ->
  (forall f, pc = Resuming f -> f <> Concurrent /\ f <> SetupError 0 /\ (f = NoFault -> wc_ready s = true)) ->
  exclusive_inv (mkWait s (<[k := set_pc pc o]> (ws_ops w))).
Proof.
  intros [I1 I2 I3 I4] Hk Hf Hi Hpc.
  assert (forall i u, <[k := set_pc pc o]> (ws_ops w) !! i = Some u -> i = k /\ u = set_pc pc o \/ i <> k /\ ws_ops w !! i = Some u) as Hl.
  { intros i u. destruct (decide (i = k)) as [->|Hne]; [|rewrite list_lookup_insert_ne by done; by right].
    rewrite list_lookup_insert_eq by (by eapply lookup_lt_Some). intros [= <-]. by left. }
  constructor; simpl; [done | | |].
  - intros i j oi oj Hli Hlj Fi Fj. apply Hl in Hli as [[-> _]|[Hi' Hli]], Hlj as [[-> _]|[Hj' Hlj]]; try done.
    + symmetry. by eapply (I2 j k).
    + by eapply (I2 i k).
    + by eapply I2.
  - intros i u Hu. apply Hl in Hu as [[-> ->]|[_ Hu]]; [by apply (I3 k o) | by eapply I3].
  - intros i u f Hu Hr. apply Hl in Hu as [[-> ->]|[Hne Hu]]; [by apply Hpc|].
    destruct Hne. eapply I2; [exact Hu | exact Hk | unfold finished; by rewrite Hr | done].
Qed.

Lemma exclusive_event w w' ev : exclusive_inv w -> wait_event ev w = Some w' -> exclusive_inv w'.
Proof.
  intros [I1 I2 I3 I4] E. pose proof (inv_event _ _ _ I1 E) as I1'. unfold wait_event in E.
  destruct (wc_event ev (ws_cell w)) as [[s resumed]|] eqn:Ee; [|done]. injection E as <-.
  destruct (event_resumes_waiting _ _ _ _ I1 Ee) as [_ Hw].
  assert (forall i o', fold_left resume_op resumed (ws_ops w) !! i = Some o' ->
    exists o, ws_ops w !! i = Some o /\ finished o' = finished o /\ op_slot o' = op_slot o /\ op_canceled o' = op_canceled o /\
      (i ∈ resumed /\ op_pc o' = Resuming NoFault \/ o' = o)) as Hl.
  { intros i o'. rewrite resume_op_lookup. destruct (decide (i ∈ resumed)) as [Hin|Hni]; [|intros Ho; exists o'; auto 10].
    intros (o & Ho & ->)%fmap_Some. exists o. destruct (Hw i Hin) as (u & Hu & Hpc). rewrite Ho in Hu. injection Hu as <-.
    split_and!; try done; [|by left]. unfold finished. by rewrite Hpc. }
  constructor; simpl; [done | | |].
  - intros i j oi oj Hi Hj Fi Fj. apply Hl in Hi as (oi' & Hi & Ei & _), Hj as (oj' & Hj & Ej & _).
    eapply I2; [exact Hi | exact Hj | congruence | congruence].
  - intros i o Ho. apply Hl in Ho as (o' & Ho & _ & -> & -> & _). by eapply I3.
  - intros i o f Ho Hpc. apply Hl in Ho as (o' & Ho & _ & _ & _ & [[Hin Hr]| ->]).
    + rewrite Hpc in Hr. injection Hr as ->. split_and!; [done | done |]. intros _. eapply wc_event_ready; [exact Ee|]. left. intros ->. by apply not_elem_of_nil in Hin.
    + destruct (I4 _ _ _ Ho Hpc) as (Hc & Hs & Hn). split_and!; [done | done |]. intros Hf. eapply wc_event_ready; [exact Ee|]. right. auto.
Qed.

Lemma exclusive_step l w w' :
  match l with LCall _ slot => forallb finished (ws_ops w) && negb slot | _ => true end = true ->
  exclusive_inv w -> wait_step l w = Some w' -> exclusive_inv w'.
Proof.
  intros Ha I E. pose proof (wait_step_inv _ _ _ (xi_wait _ I) E) as I'. destruct l as [rq slot|k rc|k|ev|k]; simpl in *.
  - apply andb_true_iff in Ha as [Ha Hs]. destruct slot; [done|]. injection E as <-. by apply exclusive_call.
  - unfold wait_register in E. destruct (ws_ops w !! k) as [o|] eqn:Hk; [|done]. destruct (op_pc o) eqn:Hpc; try done.
    destruct (xi_plain _ I k o Hk) as [_ Hc]. rewrite Hc in E.
    assert (finished o = false) as Hf by (unfold finished; by rewrite Hpc).
    assert (wc_waiters (ws_cell w) = []) as Hnone.
    { destruct (wc_waiters (ws_cell w)) as [|j l] eqn:El; [done|]. assert (j ∈ wc_waiters (ws_cell w)) as Hj by (rewrite El; constructor).
      apply (wi_waiting _ (xi_wait _ I)) in Hj as (oj & Hj & Hw). assert (j = k) as ->; [|congruence].
      eapply (xi_one _ I); [exact Hj | exact Hk | unfold finished; by rewrite Hw | done]. }
    destruct (wc_register _ _ _ _) as [[|f] s] eqn:Er; injection E as <-; apply exclusive_move; try done.
    intros f' [= <-]. by eapply wc_register_ready.
  - unfold wait_resume in E. destruct (ws_ops w !! k) as [o|] eqn:Hk; [|done]. destruct (op_pc o) as [| |f|] eqn:Hpc; try done.
    destruct (wc_resume _ _ _ _ _) as [r s]. injection E as <-. apply exclusive_move; try done. unfold finished. by rewrite Hpc.
  - by eapply exclusive_event.
  - unfold wait_signal in E. destruct (ws_ops w !! k) as [o|] eqn:Hk; [|done]. destruct (xi_plain _ I k o Hk) as [Hs _].
    by rewrite Hs in E.
Qed.

Lemma exclusive_run_inv ls w w' : exclusive_inv w -> exclusive_run ls w = Some w' -> exclusive_inv w'.
Proof.
  revert w. induction ls as [|l ls IH]; intros w I; cbn [exclusive_run]; [by intros [= <-]|].
  destruct (match l with LCall _ _ => _ | _ => true end) eqn:Ea; [|done].
  destruct (wait_step l w) as [w1|] eqn:E; [|done]. apply IH. by eapply exclusive_step.
Qed.

Lemma exclusive_run_run ls w w' : exclusive_run ls w = Some w' -> wait_run ls w = Some w'.
Proof.
  revert w. induction ls as [|l ls IH]; intros w; cbn [exclusive_run wait_run]; [done|].
  destruct (match l with LCall _ _ => _ | _ => true end); [|done]. destruct (wait_step l w) as [w1|]; [|done]. apply IH.
Qed.

Lemma exclusive_new (s : S) : wc_inv s -> wc_waiters s = [] -> exclusive_inv (mkWait s []).
Proof.
  intros Hi Hs. constructor; simpl; [|done|done|done]. constructor; simpl; [done | |..]; rewrite Hs; [apply NoDup_nil_2 | done |].
  intros k. split; [by intros ?%not_elem_of_nil | by intros (o & ? & _)].
Qed.
End Exclusive.
