(* ===== verification/NetTcp.v ===== *)
(** * TCP streams (net.cpp, TcpStream)

    [TcpState] is [TcpStream::State].  The first half models reading as it
    runs: [ReadAwaiter] is an instance of the waiting pattern of
    [NetWait.v], so that any number of reads interleave with the callbacks
    [read_cb], [close_on_loop] and [on_close].  The second half is the view of
    one coroutine: [read_some], [write_some], [write_all] and
    [read_until_eof] against an environment [Uv] that stands for libuv and
    the peer, and the proof that a TCP stream satisfies the interface
    [ReliableStream] on which the HTTP theorems are built. *)

From S2P Require Import Prelude CxxString HttpUrl Stream NetWait.

Local Open Scope Z_scope.

(** libuv's error texts. *)
Class UvErrors := uv_strerror : Z -> bytes.

(** ** TcpStream::State *)

Record TcpState := mkTcp {
  tcp_initialized : bool;
  tcp_closing : bool;
  tcp_closed : bool;
  tcp_read_buffer : bytes;
  tcp_read_waiter : option nat;
  tcp_read_error : Z;
  tcp_read_started : bool;
  tcp_eof : bool;
  tcp_received : bytes;      (* everything [read_cb] was given so far *)
  tcp_returned : bytes       (* everything reads returned so far *)
}.

Definition new_tcp : TcpState := mkTcp false false false [] None 0 false false [] [].

Definition tcp_open (s : TcpState) : bool := tcp_initialized s && negb (tcp_closing s) && negb (tcp_closed s).

(** [init_on_loop], with the return code of [uv_tcp_init]. *)
Definition tcp_init_on_loop (rc : Z) (s : TcpState) : Z * TcpState :=
  if tcp_initialized s then (0, s)
  else if negb (rc =? 0) then (rc, s)
  else (0, mkTcp true (tcp_closing s) (tcp_closed s) (tcp_read_buffer s) (tcp_read_waiter s) (tcp_read_error s)
             (tcp_read_started s) (tcp_eof s) (tcp_received s) (tcp_returned s)).

Definition set_read_waiter (o : option nat) (s : TcpState) : TcpState :=
  mkTcp (tcp_initialized s) (tcp_closing s) (tcp_closed s) (tcp_read_buffer s) o (tcp_read_error s)
    (tcp_read_started s) (tcp_eof s) (tcp_received s) (tcp_returned s).
Definition set_read_error (e : Z) (s : TcpState) : TcpState :=
  mkTcp (tcp_initialized s) (tcp_closing s) (tcp_closed s) (tcp_read_buffer s) (tcp_read_waiter s) e
    (tcp_read_started s) (tcp_eof s) (tcp_received s) (tcp_returned s).
Definition set_read_started (b : bool) (s : TcpState) : TcpState :=
  mkTcp (tcp_initialized s) (tcp_closing s) (tcp_closed s) (tcp_read_buffer s) (tcp_read_waiter s) (tcp_read_error s)
    b (tcp_eof s) (tcp_received s) (tcp_returned s).
Definition set_eof (s : TcpState) : TcpState :=
  mkTcp (tcp_initialized s) (tcp_closing s) (tcp_closed s) (tcp_read_buffer s) (tcp_read_waiter s) (tcp_read_error s)
    (tcp_read_started s) true (tcp_received s) (tcp_returned s).
Definition append_read (d : bytes) (s : TcpState) : TcpState :=
  mkTcp (tcp_initialized s) (tcp_closing s) (tcp_closed s) (tcp_read_buffer s ++ d) (tcp_read_waiter s) (tcp_read_error s)
    (tcp_read_started s) (tcp_eof s) (tcp_received s ++ d) (tcp_returned s).
Definition set_closing (s : TcpState) : TcpState :=
  mkTcp (tcp_initialized s) true (tcp_closed s) (tcp_read_buffer s) (tcp_read_waiter s) (tcp_read_error s)
    (tcp_read_started s) (tcp_eof s) (tcp_received s) (tcp_returned s).
Definition set_closed (s : TcpState) : TcpState :=
  mkTcp (tcp_initialized s) (tcp_closing s) true (tcp_read_buffer s) (tcp_read_waiter s) (tcp_read_error s)
    (tcp_read_started s) (tcp_eof s) (tcp_received s) (tcp_returned s).

(** [start_reading_on_loop], with the return code of [uv_read_start]. *)
Definition start_reading_on_loop (rc : Z) (s : TcpState) : Z * TcpState :=
  if negb (tcp_open s) || tcp_read_started s || tcp_eof s || negb (tcp_read_error s =? 0) then (0, s)
  else if rc =? 0 then (rc, set_read_started true s) else (rc, s).

Definition waiter_list (o : option nat) : list nat := match o with Some k => [k] | None => [] end.

(** [close_on_loop]: the state, and the waiter to resume. *)
Definition tcp_close_on_loop (s : TcpState) : TcpState * list nat :=
  if negb (tcp_initialized s) then (set_closed s, [])
  else if tcp_closing s then (s, [])
  else
    let waiter := tcp_read_waiter s in
    let s := set_closing s in
    let s := if tcp_read_started s then set_read_started false s else s in
    let s := if negb (tcp_eof s) && (tcp_read_error s =? 0) then set_read_error UV_ECANCELED s else s in
    (set_read_waiter None s, waiter_list waiter).

(** [read_cb]: [nread] as libuv passes it, with the buffer. *)
Definition read_cb (nread : Z) (buf : bytes) (s : TcpState) : TcpState * list nat :=
  let waiter := tcp_read_waiter s in
  let s :=
    if 0 <? nread then append_read (take (Z.to_nat nread) buf) s
    else if nread =? UV_EOF then set_read_started false (set_eof s)
    else if nread <? 0 then set_read_started false (set_read_error nread s)
    else s in
  if negb (nread =? 0) then (set_read_waiter None s, waiter_list waiter) else (s, []).

(** ** ReadAwaiter *)

(** [register_waiter] of [await_suspend]. *)
Definition read_register (k : nat) (rc : Z) (s : TcpState) : registered * TcpState :=
  if negb (tcp_open s) || negb (bool_decide (tcp_read_buffer s = [])) || tcp_eof s || negb (tcp_read_error s =? 0)
  then (GoesOn NoFault, s)
  else
    match tcp_read_waiter s with
    | Some _ => (GoesOn Concurrent, s)
    | None =>
        let '(rc, s) := start_reading_on_loop rc (set_read_waiter (Some k) s) in
        if negb (rc =? 0) then (GoesOn (SetupError rc), set_read_error rc (set_read_waiter None s))
        else (Waits, s)
    end.

Section Reading.
Context `{UvErrors}.

Definition tcp_closed_error : exn := LogicError "corouv::net::TcpStream is closed"%bs.
Definition concurrent_reads : exn := LogicError "corouv::net::TcpStream does not support concurrent reads"%bs.

(** [std::string::erase] of the first [n] bytes, which are returned. *)
Definition take_read (n : Z) (s : TcpState) : bytes * TcpState :=
  let d := take (Z.to_nat n) (tcp_read_buffer s) in
  (d, mkTcp (tcp_initialized s) (tcp_closing s) (tcp_closed s) (drop (Z.to_nat n) (tcp_read_buffer s)) (tcp_read_waiter s)
        (tcp_read_error s) (tcp_read_started s) (tcp_eof s) (tcp_received s) (tcp_returned s ++ d)).

(** [await_resume], with the size of the caller's buffer. *)
Definition read_await_resume (cap : Z) (f : fault) (s : TcpState) : result bytes * TcpState :=
  match f with
  | Concurrent => (Throw concurrent_reads, s)
  | SetupError rc => (Throw (throw_uv_error uv_strerror rc "uv_read_start"%bs), s)
  | NoFault =>
      if negb (bool_decide (tcp_read_buffer s = [])) then
        let '(d, s) := take_read (Z.min cap (size_of (tcp_read_buffer s))) s in (Ok d, s)
      else if negb (tcp_read_error s =? 0) && negb (tcp_read_error s =? UV_EOF)
      then (Throw (throw_uv_error uv_strerror (tcp_read_error s) "uv_read"%bs), s)
      else (Ok [], s)
  end.

(** What happens to a stream besides the reads: callbacks of libuv, and the
    closing of the stream. *)
Inductive tcp_event :=
| TcpRead (nread : Z) (buf : bytes)
| TcpClose
| TcpOnClose.

Definition tcp_event_step (ev : tcp_event) (s : TcpState) : option (TcpState * list nat) :=
  match ev with
  | TcpRead nread buf => if tcp_read_started s && (nread <=? size_of buf) then Some (read_cb nread buf s) else None
  | TcpClose => Some (tcp_close_on_loop s)
  | TcpOnClose => if tcp_initialized s && tcp_closing s then Some (set_closed s, []) else None
  end.

(** The start of [read_some]. *)
Definition read_some_call (cap : Z) (s : TcpState) : option (result bytes) :=
  if negb (tcp_open s) then Some (Throw tcp_closed_error) else if cap =? 0 then Some (Ok []) else None.

Definition tcp_ready (s : TcpState) : bool :=
  negb (tcp_open s) || negb (bool_decide (tcp_read_buffer s = [])) || tcp_eof s || negb (tcp_read_error s =? 0).

#[export] Instance tcp_cell : WaitCell TcpState Z tcp_event bytes := {
  wc_waiters s := waiter_list (tcp_read_waiter s);
  wc_ready := tcp_ready;
  wc_call := read_some_call;
  wc_register k _ rc s := read_register k rc s;
  wc_event := tcp_event_step;
  wc_resume _ cap f _ s := read_await_resume cap f s
}.

(** *** The laws of the pattern *)

Lemma tcp_waits s : (waiter_list (tcp_read_waiter s) <> [] -> tcp_ready s = false) ->
  tcp_read_waiter s = None \/ tcp_ready s = false.
Proof. destruct (tcp_read_waiter s); [right; auto | by left]. Qed.

Lemma tcp_ready_false s :
  tcp_ready s = false <->
  tcp_initialized s = true /\ tcp_closing s = false /\ tcp_closed s = false /\ tcp_read_buffer s = [] /\
  tcp_eof s = false /\ tcp_read_error s = 0.
Proof.
  unfold tcp_ready, tcp_open. rewrite !orb_false_iff, !negb_false_iff, !andb_true_iff, !negb_true_iff, bool_decide_eq_true, Z.eqb_eq.
  tauto.
Qed.

#[export] Instance tcp_cell_laws : WaitCellLaws TcpState Z tcp_event bytes.
Proof.
  refine {| wc_inv _ := True |}; simpl.
  - intros k cap rc s o s' _ _ Hw E. split; [done|]. revert E. unfold read_register. fold (tcp_ready s). destruct (tcp_ready s) eqn:Er; [intros [= <- <-]; split; [done | by rewrite Er]|].
    destruct (tcp_read_waiter s) eqn:Ew; [intros [= <- <-]; by rewrite Ew, Er|].
    apply tcp_ready_false in Er as (R1 & R2 & R3 & R4 & R5 & R6).
    unfold start_reading_on_loop. destruct (negb (tcp_open _) || _ || _ || _); simpl.
    + intros [= <- <-]. simpl. split; [done|]. by apply tcp_ready_false.
    + destruct (Z.eqb_spec rc 0) as [->|Hne]; simpl.
      * intros [= <- <-]. simpl. split; [done|]. by apply tcp_ready_false.
      * replace (rc =? 0) with false by lia. simpl. intros [= <- <-]. done.
  - intros ev s s' resumed _ Hw E. split; [done|]. revert E. apply tcp_waits in Hw. destruct ev as [nread buf| |]; simpl.
    + destruct (_ && _); [|done]. unfold read_cb. destruct (Z.eqb_spec nread 0) as [->|Hne]; simpl; intros [= <- <-].
      * split; [done|]. destruct Hw as [->|Hw]; done.
      * by rewrite app_nil_r.
    + unfold tcp_close_on_loop. destruct (tcp_initialized s) eqn:Ei; simpl.
      * destruct (tcp_closing s) eqn:Ec; intros [= <- <-]; simpl.
        -- split; [done|]. destruct Hw as [->|Hw]; [done|]. apply tcp_ready_false in Hw as (? & ? & ? & ? & ? & ?). congruence.
        -- by rewrite app_nil_r.
      * intros [= <- <-]. simpl. split; [done|]. destruct Hw as [->|Hw]; [done|]. apply tcp_ready_false in Hw as (? & ? & ? & ? & ? & ?). congruence.
    + destruct (_ && _) eqn:E; [|done]. intros [= <- <-]. simpl. split; [done|]. apply andb_true_iff in E as [_ E].
      destruct Hw as [->|Hw]; [done|]. apply tcp_ready_false in Hw as (? & ? & ? & ? & ? & ?). congruence.
  - intros _ cap f _ s r s' _ Hw E. split; [done|]. revert E. apply tcp_waits in Hw. unfold read_await_resume. destruct f as [| |rc].
    + destruct (bool_decide_reflect (tcp_read_buffer s = [])) as [E|E]; simpl.
      * intros Hr. assert (s' = s) as -> by (by destruct (_ && _); injection Hr). split; [done|].
        destruct Hw as [->|Hw]; done.
      * intros [= <- <-]. simpl. split; [done|]. destruct Hw as [->|Hw]; [done|]. apply tcp_ready_false in Hw as (? & ? & ? & ? & ? & ?). congruence.
    + intros [= <- <-]. split; [done|]. destruct Hw as [->|Hw]; done.
    + intros [= <- <-]. split; [done|]. destruct Hw as [->|Hw]; done.
Defined.

Lemma tcp_ready_true s :
  tcp_open s = false \/ tcp_read_buffer s <> [] \/ tcp_eof s = true \/ tcp_read_error s <> 0 -> tcp_ready s = true.
Proof.
  unfold tcp_ready. intros [->|[Hb|[->|He]]]; [done | | by rewrite !orb_true_r |].
  - rewrite bool_decide_eq_false_2 by done. by rewrite !orb_true_r.
  - replace (tcp_read_error s =? 0) with false by lia. by rewrite !orb_true_r.
Qed.

#[export] Instance tcp_cell_ready : WaitCellReady TcpState Z tcp_event bytes.
Proof.
  constructor; simpl.
  - intros k cap rc s f s' Hw. unfold read_register. fold (tcp_ready s). destruct (tcp_ready s) eqn:Er.
    { intros [= <- <-]. by split_and!. }
    destruct (tcp_read_waiter s); [done|]. destruct (start_reading_on_loop _ _) as [rc' s1].
    destruct (Z.eqb_spec rc' 0) as [|Hne]; [done|]. intros [= <- <-]. split_and!; [done | congruence | done].
  - intros ev s s' resumed. destruct ev as [nread buf| |]; simpl.
    + destruct (_ && _) eqn:Eg; [|done]. apply andb_true_iff in Eg as [_ Hn%Z.leb_le]. unfold read_cb.
      destruct (Z.eqb_spec nread 0) as [->|Hne]; simpl; intros [= <- <-]; [by intros [?|?]|]. intros _. apply tcp_ready_true.
      destruct (Z.ltb_spec 0 nread) as [Hp|Hp]; simpl.
      * right; left. intros Hnil. apply app_eq_nil in Hnil as [_ Hnil]. apply (f_equal length) in Hnil.
        rewrite length_take in Hnil. unfold size_of in Hn. simpl in Hnil. lia.
      * destruct (nread =? UV_EOF); simpl; [by right; right; left|]. replace (nread <? 0) with true by lia. simpl. auto.
    + unfold tcp_close_on_loop. destruct (tcp_initialized s) eqn:Ei; simpl.
      * destruct (tcp_closing s) eqn:Ec; intros [= <- <-]; simpl; [by intros [?|?]|]. intros _. apply tcp_ready_true. left.
        destruct (tcp_read_started s), (negb (tcp_eof _) && _); unfold tcp_open; simpl; by rewrite andb_false_r.
      * intros [= <- <-] _. apply tcp_ready_true. left. unfold tcp_open. simpl. by rewrite andb_false_r.
    + destruct (_ && _); [|done]. intros [= <- <-] _. apply tcp_ready_true. left. unfold tcp_open. simpl. by rewrite andb_false_r.
Qed.

(** *** What the stream keeps *)

Record tcp_inv (s : TcpState) : Prop := {
  tv_fifo : tcp_received s = tcp_returned s ++ tcp_read_buffer s;
  tv_init : tcp_initialized s = true;
  tv_closing : tcp_closing s = true -> tcp_eof s = true \/ tcp_read_error s <> 0;
  tv_closed : tcp_closed s = true -> tcp_closing s = true;
  tv_reading : tcp_read_started s = true -> tcp_closing s = false /\ tcp_eof s = false /\ tcp_read_error s = 0;
  tv_waiter : tcp_read_waiter s <> None -> tcp_read_started s = true;
  tv_eof : tcp_eof s = true -> tcp_read_error s = 0
}.

(** A stream that [connect] or [accept] hands out. *)
Definition opened_tcp : TcpState := snd (tcp_init_on_loop 0 new_tcp).

Lemma opened_inv : tcp_inv opened_tcp.
Proof. by constructor. Qed.

Lemma read_register_inv k rc s : tcp_inv s -> tcp_inv (snd (read_register k rc s)).
Proof.
  intros I. unfold read_register. fold (tcp_ready s). destruct (tcp_ready s) eqn:Er; [done|].
  apply tcp_ready_false in Er as (R1 & R2 & R3 & R4 & R5 & R6). destruct (tcp_read_waiter s); [done|].
  unfold start_reading_on_loop. destruct (negb (tcp_open _) || _ || _ || _) eqn:Es; simpl.
  - destruct I as [I1 I2 I3 I4 I5 I6 I7]. constructor; simpl; try done. intros _. unfold tcp_open in Es. simpl in Es.
    by rewrite R1, R2, R3, R5, R6, !orb_false_r in Es.
  - destruct (Z.eqb_spec rc 0) as [->|Hne]; simpl.
    + destruct I as [I1 I2 I3 I4 I5 I6 I7]. by constructor.
    + replace (rc =? 0) with false by lia. simpl. destruct I as [I1 I2 I3 I4 I5 I6 I7]. constructor; simpl; [done | done | auto | done | | done | congruence].
      rewrite !orb_false_iff in Es. simpl in Es. destruct Es as [[[_ Es] _] _]. by rewrite Es.
Qed.

Lemma tcp_event_inv ev s s' resumed : tcp_inv s -> tcp_event_step ev s = Some (s', resumed) -> tcp_inv s'.
Proof.
  intros I. pose proof I as [I1 I2 I3 I4 I5 I6 I7]. destruct ev as [nread buf| |]; simpl.
  - destruct (_ && _) eqn:Eg; [|done]. apply andb_true_iff in Eg as [Hs _]. destruct (I5 Hs) as (J1 & J2 & J3).
    unfold read_cb. destruct (Z.eqb_spec nread 0) as [->|Hne]; simpl; [by intros [= <- <-]|].
    destruct (Z.ltb_spec 0 nread); [|destruct (Z.eqb_spec nread UV_EOF); [|destruct (Z.ltb_spec nread 0); [|lia]]];
      simpl; intros [= <- <-]; constructor; simpl; try done; try congruence. by rewrite I1, app_assoc.
  - unfold tcp_close_on_loop. rewrite I2. simpl. destruct (tcp_closing s) eqn:Ec; [by intros [= <- <-]|].
    destruct (tcp_read_started s) eqn:Es; simpl.
    + destruct (I5 eq_refl) as (J1 & J2 & J3). rewrite J2, J3. simpl. intros [= <- <-]. constructor; simpl; try done; [by right | congruence].
    + destruct (tcp_eof s) eqn:Ee; simpl.
      * intros [= <- <-]. constructor; simpl; try done; [by left | by rewrite Es | intros _; by apply I7].
      * destruct (Z.eqb_spec (tcp_read_error s) 0) as [E|E]; simpl; intros [= <- <-]; constructor; simpl; try done; try congruence; by right.
  - destruct (_ && _) eqn:E; [|done]. apply andb_true_iff in E as [_ E]. intros [= <- <-]. by constructor.
Qed.

Lemma read_resume_inv cap f s : tcp_inv s -> tcp_inv (snd (read_await_resume cap f s)).
Proof.
  intros [I1 I2 I3 I4 I5 I6 I7]. unfold read_await_resume. destruct f; [|by constructor..].
  destruct (negb _); simpl; [|by destruct (_ && _); constructor].
  constructor; simpl; try done. by rewrite <- app_assoc, take_drop.
Qed.

Lemma tcp_run_inv ls (w : @wait_state TcpState Z bytes) :
  wait_run ls (mkWait opened_tcp []) = Some w -> tcp_inv (ws_cell w).
Proof.
  apply (cell_stable_run tcp_inv).
  - intros k rq rc s. apply read_register_inv.
  - intros ev s s' resumed. apply tcp_event_inv.
  - intros k cap f c s. apply read_resume_inv.
  - apply opened_inv.
Qed.

(** Every byte [read_cb] received has been returned by a read or is in the
    buffer, in order, in every interleaving; and a suspended read is the
    registered one, on an open stream that is being read and has nothing to
    deliver: no wakeup is lost. *)
Theorem tcp_reads_in_order ls w :
  wait_run ls (mkWait opened_tcp []) = Some w ->
  tcp_received (ws_cell w) = tcp_returned (ws_cell w) ++ tcp_read_buffer (ws_cell w) /\
  (forall k, is_waiting w k ->
     tcp_read_waiter (ws_cell w) = Some k /\ tcp_read_started (ws_cell w) = true /\ tcp_open (ws_cell w) = true /\
     tcp_read_buffer (ws_cell w) = [] /\ tcp_eof (ws_cell w) = false /\ tcp_read_error (ws_cell w) = 0).
Proof.
  intros E. pose proof (tcp_run_inv _ _ E) as I. split; [apply I|]. intros k Hk.
  apply (wait_run_inv ls) in E; [|apply exclusive_new; done]. apply (waiting_registered _ _ E) in Hk as [Hk Hr]. simpl in Hk, Hr.
  apply tcp_ready_false in Hr as (R1 & R2 & R3 & R4 & R5 & R6).
  destruct (tcp_read_waiter (ws_cell w)) as [j|] eqn:Ew; [|by apply not_elem_of_nil in Hk].
  apply list_elem_of_singleton in Hk as ->. unfold tcp_open. rewrite R1, R2, R3. split_and!; try done.
  apply (tv_waiter _ I). by rewrite Ew.
Qed.

(** The code a read failed to start with is the error of the stream. *)
Lemma tcp_setup_error ls (w : @wait_state TcpState Z bytes) k o rc :
  wait_run ls (mkWait opened_tcp []) = Some w -> ws_ops w !! k = Some o -> op_pc o = Resuming (SetupError rc) ->
  tcp_read_error (ws_cell w) = rc /\ tcp_read_buffer (ws_cell w) = [].
Proof.
  intros Hr Hk Hpc.
  pose (P f s := match f with SetupError rc => rc <> 0 /\ tcp_read_error s = rc /\ tcp_read_buffer s = [] | _ => True end).
  assert (P (SetupError rc) (ws_cell w)) as HP; [|apply HP].
  refine (remembered_run tcp_inv P (fun k rq rc s => read_register_inv k rc s) tcp_event_inv (fun k cap f c s => read_resume_inv cap f s)
    _ _ _ _ _ ls (mkWait opened_tcp []) w opened_inv _ Hr k o (SetupError rc) Hk Hpc).
  - done.
  - intros i rq code s f s' I. unfold P. simpl. unfold read_register. fold (tcp_ready s).
    destruct (tcp_ready s) eqn:Er; [by intros [= <- <-]|]. destruct (tcp_read_waiter s); [by intros [= <- <-]|].
    apply tcp_ready_false in Er as (_ & _ & _ & R4 & _ & _). destruct (start_reading_on_loop _ _) as [rc1 s1] eqn:E.
    destruct (Z.eqb_spec rc1 0); [done|]. intros [= <- <-]. split_and!; [done | done |]. simpl. unfold start_reading_on_loop in E.
    destruct (_ || _); [by simplify_eq|]. destruct (code =? 0); by simplify_eq.
  - intros f i rq code s I HP. destruct f as [| |rc0]; [done | done |]. destruct HP as (H1 & H2 & H3). simpl. unfold read_register.
    fold (tcp_ready s). rewrite (tcp_ready_true s) by (right; right; right; congruence). done.
  - intros f ev s s' resumed I HP E. destruct f as [| |rc0]; [done | done |]. destruct HP as (H1 & H2 & H3).
    destruct ev as [nread buf| |]; simpl in E.
    + destruct (tcp_read_started s) eqn:Es; [|done]. apply I in Es as (_ & _ & Es). congruence.
    + unfold tcp_close_on_loop in E. destruct (tcp_initialized s); simpl in E; [|by injection E as <- <-].
      destruct (tcp_closing s); [by injection E as <- <-|]. injection E as <- <-.
      destruct (tcp_read_started s); simpl; replace (tcp_read_error s =? 0) with false by lia; by rewrite andb_false_r.
    + destruct (_ && _); [by injection E as <- <-|done].
  - intros f i rq g c s I HP. destruct f as [| |rc0]; [done | done |]. destruct HP as (H1 & H2 & H3). simpl.
    unfold read_await_resume. rewrite H3. destruct g; [|done|done]. simpl. destruct (_ && _); done.
  - by intros i u f Hi.
Qed.

End Reading.

(** ** The view of one coroutine *)

(** What a coroutine sees of libuv: the codes its calls return, the next call
    of [read_cb] with [nread <> 0] (one with [nread = 0] changes nothing), and
    whether its work reaches the loop (it runs there, or [schedule] accepts
    it). *)
Class UvTcp (E : Type) := {
  uv_errors :: UvErrors;
  uv_scheduled : E -> bool;
  uv_read_start : E -> Z * E;
  uv_read_next : E -> (Z * bytes) * E;
  uv_try_write : bytes -> E -> Z * E;
  uv_write : bytes -> E -> Z * Z * E;        (* return code, status of the callback *)
  uv_close : E -> E
}.

Record TcpStream (E : Type) := mkStream { ts_state : option TcpState; ts_env : E }.
Arguments mkStream {E} _ _.
Arguments ts_state {E} _.
Arguments ts_env {E} _.

Definition UINT_MAX : Z := 2 ^ 32 - 1.
Definition write_would_block (rc : Z) : bool := (rc =? UV_EAGAIN) || (rc =? UV_ENOSYS).
Definition write_stalled : exn := RuntimeError "corouv::net::TcpStream write stalled"%bs.
Definition read_exceeded : exn := RuntimeError "corouv::net::TcpStream read_until_eof exceeded max_bytes"%bs.

Section Coroutine.
Context {E : Type} `{UvTcp E}.

Definition tcp_is_open (t : TcpStream E) : bool := match ts_state t with Some s => tcp_open s | None => false end.

(** [read_some]: the bytes that end up in the caller's buffer of size [cap]. *)
Definition read_some (cap : Z) (t : TcpStream E) : result bytes * TcpStream E :=
  match ts_state t with
  | None => (Throw tcp_closed_error, t)
  | Some s =>
      match read_some_call cap s with
      | Some r => (r, t)
      | None =>
          if negb (uv_scheduled (ts_env t)) then
            let '(r, s) := read_await_resume cap (SetupError UV_ECANCELED) s in (r, mkStream (Some s) (ts_env t))
          else
            let '(rc, e) := uv_read_start (ts_env t) in
            match read_register 0 rc s with
            | (GoesOn f, s) =>
                let '(r, s) := read_await_resume cap f s in (r, mkStream (Some s) e)
            | (Waits, s) =>
                let '((nread, buf), e) := uv_read_next e in
                let '(s, _) := read_cb nread buf s in
                let '(r, s) := read_await_resume cap NoFault s in (r, mkStream (Some s) e)
            end
      end
  end.

(** [WriteOp::start_on_loop], to its completion. *)
Definition write_start_on_loop (s : TcpState) (buffer : bytes) (e : E) : result Z * E :=
  let error rc := Throw (throw_uv_error uv_strerror rc "uv_write"%bs) in
  if negb (tcp_open s) then (error UV_ECANCELED, e)
  else
    let '(rc, e) := uv_try_write buffer e in
    if 0 <? rc then (Ok rc, e)
    else if (rc <? 0) && negb (write_would_block rc) then (error rc, e)
    else
      let '(write_rc, status, e) := uv_write buffer e in
      if negb (write_rc =? 0) then (error write_rc, e)
      else if negb (status =? 0) then (error status, e)
      else (Ok (size_of buffer), e).

Definition write_some (buffer : bytes) (t : TcpStream E) : result Z * TcpStream E :=
  match ts_state t with
  | Some s =>
      if negb (tcp_open s) then (Throw tcp_closed_error, t)
      else if bool_decide (buffer = []) then (Ok 0, t)
      else if negb (uv_scheduled (ts_env t)) then
        (Throw (throw_uv_error uv_strerror UV_ECANCELED "uv_write"%bs), t)
      else
        let '(r, e) := write_start_on_loop s (take (Z.to_nat (Z.min (size_of buffer) UINT_MAX)) buffer) (ts_env t) in
        (r, mkStream (Some s) e)
  | None => (Throw tcp_closed_error, t)
  end.

(** [written] is at most [buffer.size()] and does not wrap around. *)
Fixpoint write_all_loop (fuel : nat) (buffer : bytes) (written : Z) (t : TcpStream E) : result unit * TcpStream E :=
  match fuel with
  | O => (OutOfFuel, t)
  | S fuel =>
      if written <? size_of buffer then
        match write_some (drop (Z.to_nat written) buffer) t with
        | (Ok chunk, t) =>
            if chunk =? 0 then (Throw write_stalled, t) else write_all_loop fuel buffer (written + chunk) t
        | (Throw e, t) => (Throw e, t)
        | (OutOfFuel, t) => (OutOfFuel, t)
        end
      else (Ok tt, t)
  end.
Definition write_all (buffer : bytes) (t : TcpStream E) : result unit * TcpStream E :=
  write_all_loop (S (length buffer)) buffer 0 t.

Fixpoint read_until_eof_loop (fuel : nat) (max_bytes : Z) (out : bytes) (t : TcpStream E) : result bytes * TcpStream E :=
  match fuel with
  | O => (OutOfFuel, t)
  | S fuel =>
      match read_some 4096 t with
      | (Ok d, t) =>
          match d with
          | [] => (Ok out, t)
          | _ => if max_bytes <? sz_add (size_of out) (size_of d) then (Throw read_exceeded, t)
                 else read_until_eof_loop fuel max_bytes (out ++ d) t
          end
      | (Throw e, t) => (Throw e, t)
      | (OutOfFuel, t) => (OutOfFuel, t)
      end
  end.
Definition read_until_eof (fuel : nat) (max_bytes : Z) (t : TcpStream E) : result bytes * TcpStream E :=
  read_until_eof_loop fuel max_bytes [] t.

(** [close]: [request_close], then the state is let go. *)
Definition tcp_close (t : TcpStream E) : TcpStream E :=
  match ts_state t with
  | Some s => mkStream None (if tcp_initialized s && negb (tcp_closing s) then uv_close (ts_env t) else ts_env t)
  | None => t
  end.

(** [set_nodelay] and [set_keepalive]: nothing happens on a stream that is not
    open; they must run on the loop thread; [rc] is libuv's answer. *)
Definition tcp_option (name call : bytes) (on_loop : bool) (rc : Z) (t : TcpStream E) : result unit :=
  if negb (tcp_is_open t) then Ok tt
  else if negb on_loop then Throw (LogicError ("corouv::net::TcpStream::"%bs ++ name ++ " must run on the loop thread"%bs))
  else if negb (rc =? 0) then Throw (throw_uv_error uv_strerror rc call)
  else Ok tt.
Definition set_nodelay := tcp_option "set_nodelay"%bs "uv_tcp_nodelay"%bs.
Definition set_keepalive := tcp_option "set_keepalive"%bs "uv_tcp_keepalive"%bs.
End Coroutine.

(** ** What libuv promises *)

(** [uv_try_write] writes as many bytes as it returns, [uv_write] all of them
    if its status is zero and some of them otherwise. *)
Class UvSane (E : Type) `{UvTcp E} := {
  uv_incoming : E -> bytes;
  uv_sent : E -> bytes;
  uv_read_start_sane e : uv_incoming (snd (uv_read_start e)) = uv_incoming e /\ uv_sent (snd (uv_read_start e)) = uv_sent e;
  uv_read_next_sane e : forall n buf e', uv_read_next e = ((n, buf), e') ->
    uv_sent e' = uv_sent e /\ n <= size_of buf /\ n <> 0 /\
    (0 < n -> uv_incoming e = take (Z.to_nat n) buf ++ uv_incoming e') /\
    (n = UV_EOF -> uv_incoming e = [] /\ uv_incoming e' = []);
  uv_try_write_sane data e : forall rc e', uv_try_write data e = (rc, e') ->
    uv_incoming e' = uv_incoming e /\ rc <= size_of data /\ uv_sent e' = uv_sent e ++ take (Z.to_nat rc) data;
  uv_write_sane data e : forall rc st e', uv_write data e = (rc, st, e') ->
    uv_incoming e' = uv_incoming e /\
    (rc <> 0 -> uv_sent e' = uv_sent e) /\ (rc = 0 -> st = 0 -> uv_sent e' = uv_sent e ++ data) /\
    exists n, uv_sent e' = uv_sent e ++ take n data;
  uv_close_sane e : uv_sent (uv_close e) = uv_sent e
}.

(** A connection on which nothing fails. *)
Class UvReliable (E : Type) `{UvSane E} := {
  uv_scheduled_ok e : uv_scheduled e = true;
  uv_read_start_ok e : fst (uv_read_start e) = 0;
  uv_read_next_ok e : forall n buf e', uv_read_next e = ((n, buf), e') -> 0 < n \/ n = UV_EOF;
  uv_try_write_ok data e : forall rc e', uv_try_write data e = (rc, e') -> 0 <= rc \/ write_would_block rc = true;
  uv_write_ok data e : forall rc st e', uv_write data e = (rc, st, e') -> rc = 0 /\ st = 0
}.

Section WriteAll.
Context {E : Type} `{UvSane E}.
Implicit Types t : TcpStream E.

(** What one call of libuv puts on the wire. *)
Lemma write_start_sent s buffer (e e' : E) r :
  buffer <> [] -> write_start_on_loop s buffer e = (r, e') ->
  uv_incoming e' = uv_incoming e /\
  match r with
  | Ok n => 0 < n <= size_of buffer /\ uv_sent e' = uv_sent e ++ take (Z.to_nat n) buffer
  | Throw _ => exists n, uv_sent e' = uv_sent e ++ take n buffer
  | OutOfFuel => False
  end.
Proof.
  intros Hne. assert (exists n, uv_sent e = uv_sent e ++ take n buffer) as Hnone by (exists 0%nat; by rewrite app_nil_r).
  assert (0 < size_of buffer) as Hpos by (unfold size_of; destruct buffer; [done | simpl; lia]).
  unfold write_start_on_loop. destruct (negb (tcp_open s)); [by intros [= <- <-]|].
  destruct (uv_try_write buffer e) as [rc e1] eqn:Et. apply uv_try_write_sane in Et as (T1 & T2 & T3).
  destruct (Z.ltb_spec 0 rc); [by intros [= <- <-]|].
  replace (Z.to_nat rc) with 0%nat in T3 by lia. simpl in T3. rewrite app_nil_r in T3.
  destruct ((rc <? 0) && _); [intros [= <- <-]; by rewrite T3|].
  destruct (uv_write buffer e1) as [[wrc st] e2] eqn:Ew. apply uv_write_sane in Ew as (W1 & W2 & W3 & n & W4). rewrite T3 in *.
  destruct (Z.eqb_spec wrc 0) as [->|]; simpl; [|intros [= <- <-]; split; [congruence | eauto]].
  destruct (Z.eqb_spec st 0) as [->|]; simpl; [|intros [= <- <-]; split; [congruence | eauto]].
  intros [= <- <-]. split_and!; [congruence | done | done |]. rewrite W3 by done. f_equal. unfold size_of.
  by rewrite Nat2Z.id, firstn_all.
Qed.

(** What one [write_some] puts on the wire. *)
Lemma write_some_sent buffer t r t' :
  write_some buffer t = (r, t') ->
  ts_state t' = ts_state t /\ uv_incoming (ts_env t') = uv_incoming (ts_env t) /\
  match r with
  | Ok n => 0 <= n <= size_of buffer /\ (buffer <> [] -> 0 < n) /\
            uv_sent (ts_env t') = uv_sent (ts_env t) ++ take (Z.to_nat n) buffer
  | Throw _ => exists n, uv_sent (ts_env t') = uv_sent (ts_env t) ++ take n buffer
  | OutOfFuel => False
  end.
Proof.
  assert (exists n, uv_sent (ts_env t) = uv_sent (ts_env t) ++ take n buffer) as Hnone by (exists 0%nat; by rewrite app_nil_r).
  unfold write_some. destruct (ts_state t) as [s|] eqn:Es; [|by intros [= <- <-]].
  destruct (negb (tcp_open s)) eqn:Eo; [by intros [= <- <-]|].
  case_bool_decide as Eb; [intros [= <- <-]; subst; by rewrite app_nil_r|].
  destruct (negb (uv_scheduled _)); [by intros [= <- <-]|].
  assert (0 < Z.to_nat (size_of buffer `min` UINT_MAX))%nat as Hlim
    by (destruct buffer; [done | unfold size_of, UINT_MAX; simpl length; lia]).
  generalize dependent (Z.to_nat (size_of buffer `min` UINT_MAX)). intros lim Hlim.
  destruct (write_start_on_loop _ _ _) as [r1 e1] eqn:Ew. intros [= <- <-]. simpl.
  apply write_start_sent in Ew as [W1 W2]; [|destruct buffer, lim; (done || lia)]. split_and!; [done | done |].
  destruct r1 as [n|ex|]; [|destruct W2 as [n W2]; rewrite take_take in W2; eauto|done].
  destruct W2 as [Hn Hs]. assert (n <= Z.of_nat (lim `min` length buffer)) as Hn' by (unfold size_of in Hn; rewrite length_take in Hn; lia).
  split_and!; [lia | unfold size_of; lia | lia |]. rewrite Hs, take_take. f_equal. f_equal. lia.
Qed.

Lemma write_all_loop_sent fuel buffer written t r t' :
  0 <= written <= size_of buffer -> size_of buffer - written < Z.of_nat fuel ->
  write_all_loop fuel buffer written t = (r, t') ->
  r <> OutOfFuel /\ ts_state t' = ts_state t /\ uv_incoming (ts_env t') = uv_incoming (ts_env t) /\
  (r = Ok tt -> uv_sent (ts_env t') = uv_sent (ts_env t) ++ drop (Z.to_nat written) buffer) /\
  exists n, uv_sent (ts_env t') = uv_sent (ts_env t) ++ take n (drop (Z.to_nat written) buffer).
Proof.
  revert written t. induction fuel as [|fuel IH]; intros written t Hw Hfuel; [lia|]. cbn [write_all_loop].
  destruct (Z.ltb_spec written (size_of buffer)) as [Hlt|Hge].
  - destruct (write_some _ t) as [r1 t1] eqn:Ew. apply write_some_sent in Ew as (S1 & S2 & S3).
    assert (drop (Z.to_nat written) buffer <> []) as Hne.
    { intros Hn. apply (f_equal length) in Hn. rewrite length_drop in Hn. unfold size_of in Hlt. simpl in Hn. lia. }
    destruct r1 as [chunk|e|]; [|intros [= <- <-]; by split_and!|done].
    destruct S3 as (Hc & Hpos & Hs). specialize (Hpos Hne). replace (chunk =? 0) with false by lia.
    rewrite size_of_drop in Hc by lia. intros Hl. apply IH in Hl as (L1 & L2 & L3 & L4 & n & L5); [|lia..].
    assert (forall rest, drop (Z.to_nat (written + chunk)) buffer = rest ->
      drop (Z.to_nat written) buffer = take (Z.to_nat chunk) (drop (Z.to_nat written) buffer) ++ rest) as Hsplit.
    { intros rest <-. rewrite Z2Nat.inj_add by lia. rewrite <- drop_drop. by rewrite take_drop. }
    specialize (Hsplit _ eq_refl). split_and!; [done | congruence | congruence | |].
    + intros ->. rewrite L4, Hs by done. rewrite <- app_assoc. f_equal. by symmetry.
    + exists (Z.to_nat chunk + n)%nat. rewrite L5, Hs, <- app_assoc. f_equal. rewrite Hsplit at 2.
      rewrite take_app_ge; [|rewrite length_take; lia]. f_equal. f_equal. rewrite length_take, length_drop. unfold size_of in Hc. lia.
  - intros [= <- <-]. rewrite drop_ge by (unfold size_of in Hge; lia). split_and!; try done; [by rewrite app_nil_r|].
    exists 0%nat. by rewrite app_nil_r.
Qed.

(** [write_all] terminates whatever libuv answers.  If it returns, the whole
    buffer is on the wire, in order and once, however libuv split it; if it
    throws, a prefix of it is. *)
Theorem tcp_write_all_exact buffer t r t' :
  write_all buffer t = (r, t') ->
  r <> OutOfFuel /\ (r = Ok tt -> uv_sent (ts_env t') = uv_sent (ts_env t) ++ buffer) /\
  exists n, uv_sent (ts_env t') = uv_sent (ts_env t) ++ take n buffer.
Proof.
  intros Hw. apply write_all_loop_sent in Hw as (W1 & _ & _ & W4 & W5); [done | |]; unfold size_of in *; lia.
Qed.
End WriteAll.

(** ** A TCP stream is a reliable byte stream

    On a connection on which nothing fails, [TcpStream] satisfies the
    interface of [Stream.v]. *)
Section Reliable.
Context {E : Type} `{UvReliable E}.

(** The stream is closed, or open with no error and no read under way. *)
Definition healthy (t : TcpStream E) : bool :=
  match ts_state t with
  | None => true
  | Some s => tcp_open s && bool_decide (tcp_read_waiter s = None) && (tcp_read_error s =? 0)
  end.
Definition HealthyTcp : Type := { t : TcpStream E | Is_true (healthy t) }.

Definition tcp_incoming (t : TcpStream E) : bytes :=
  match ts_state t with
  | Some s => tcp_read_buffer s ++ (if tcp_eof s then [] else uv_incoming (ts_env t))
  | None => []
  end.

Lemma healthy_some (s : TcpState) (e : E) :
  Is_true (healthy (mkStream (Some s) e)) <-> tcp_open s = true /\ tcp_read_waiter s = None /\ tcp_read_error s = 0.
Proof.
  unfold healthy. simpl. rewrite Is_true_true, !andb_true_iff, bool_decide_eq_true, Z.eqb_eq. tauto.
Qed.

#[local] Arguments read_await_resume : simpl never.

(** A buffered read. *)
Lemma read_buffered cap s :
  0 < cap -> tcp_open s = true -> tcp_read_waiter s = None -> tcp_read_error s = 0 -> tcp_read_buffer s <> [] ->
  exists d s', read_await_resume cap NoFault s = (Ok d, s') /\ tcp_open s' = true /\ tcp_read_waiter s' = None /\
    tcp_read_error s' = 0 /\ tcp_eof s' = tcp_eof s /\ tcp_read_buffer s = d ++ tcp_read_buffer s' /\ d <> [] /\ size_of d <= cap.
Proof.
  intros Hcap Ho Hw He Hb. unfold read_await_resume. rewrite bool_decide_eq_false_2 by done. simpl.
  pose proof (size_of_nonneg (tcp_read_buffer s)). eexists _, _. split; [reflexivity|]. simpl. split_and!; try done.
  - by rewrite take_drop.
  - destruct (tcp_read_buffer s) as [|b l]; [done|]. intros Hn. apply (f_equal size_of) in Hn.
    rewrite size_of_take in Hn by lia. unfold size_of in Hn. simpl in Hn. lia.
  - rewrite size_of_take; lia.
Qed.

(** A read that waits: its waiter is registered and the stream is being read. *)
Lemma read_registers s :
  tcp_open s = true -> tcp_read_waiter s = None -> tcp_read_error s = 0 -> tcp_read_buffer s = [] -> tcp_eof s = false ->
  exists s', read_register 0 0 s = (Waits, s') /\ tcp_open s' = true /\ tcp_read_error s' = 0 /\ tcp_read_buffer s' = [] /\
    tcp_eof s' = false.
Proof.
  intros Ho Hw He Hb Hf. unfold read_register. rewrite Ho, Hw, He, Hb, Hf. simpl. unfold start_reading_on_loop.
  destruct (negb _ || _ || _ || _); simpl; eexists; (split; [reflexivity|]); done.
Qed.

(** The call of [read_cb] that ends the wait. *)
Lemma read_woken cap s n buf (e e' : E) :
  0 < cap -> tcp_open s = true -> tcp_read_error s = 0 -> tcp_read_buffer s = [] -> tcp_eof s = false ->
  uv_read_next e = ((n, buf), e') ->
  exists d s', read_await_resume cap NoFault (fst (read_cb n buf s)) = (Ok d, s') /\ tcp_open s' = true /\
    tcp_read_waiter s' = None /\ tcp_read_error s' = 0 /\ size_of d <= cap /\
    uv_incoming e = d ++ tcp_read_buffer s' ++ (if tcp_eof s' then [] else uv_incoming e') /\ (d = [] -> uv_incoming e = []).
Proof.
  intros Hcap Ho He Hb Hf Hn. pose proof (uv_read_next_ok _ _ _ _ Hn) as Hok.
  apply uv_read_next_sane in Hn as (_ & Hle & Hne & Hdata & Heof). unfold read_cb. replace (n =? 0) with false by lia. simpl.
  destruct Hok as [Hpos| ->].
  - replace (0 <? n) with true by lia. set (s1 := set_read_waiter None _).
    assert (tcp_read_buffer s1 = take (Z.to_nat n) buf) as Hb1 by (simpl; by rewrite Hb).
    destruct (read_buffered cap s1) as (d & s' & Hr & R1 & R2 & R3 & R4 & R5 & R6 & R7); try done.
    { rewrite Hb1. intros Hnil. apply (f_equal size_of) in Hnil. rewrite size_of_take in Hnil by lia. unfold size_of in Hnil. simpl in Hnil. lia. }
    exists d, s'. rewrite R4. simpl. rewrite Hf, (Hdata Hpos), <- Hb1, R5, <- app_assoc. split_and!; try done.
  - destruct (Heof eq_refl) as [-> _]. simpl. unfold read_await_resume. simpl. rewrite Hb, He. simpl.
    eexists [], _. split; [reflexivity|]. simpl. rewrite Hb. split_and!; try done. unfold size_of. simpl. lia.
Qed.

Lemma healthy_read cap (t : TcpStream E) :
  Is_true (healthy t) -> tcp_is_open t = true -> 0 < cap ->
  exists d t', read_some cap t = (Ok d, t') /\ tcp_is_open t' = true /\ Is_true (healthy t') /\
    tcp_incoming t = d ++ tcp_incoming t' /\ size_of d <= cap /\ (d = [] -> tcp_incoming t = []) /\
    uv_sent (ts_env t') = uv_sent (ts_env t).
Proof.
  destruct t as [[s|] e]; [|done]. rewrite healthy_some. intros (Ho & Hw & He) _ Hcap. unfold read_some, read_some_call. simpl.
  rewrite Ho, uv_scheduled_ok. replace (cap =? 0) with false by lia. simpl.
  pose proof (uv_read_start_ok e) as Hs0. pose proof (uv_read_start_sane e) as [Hs1 Hs2].
  destruct (uv_read_start e) as [rc e1]. simpl in *. subst rc.
  destruct (decide (tcp_read_buffer s = [] /\ tcp_eof s = false)) as [[Eb Ee]|Hready].
  - destruct (read_registers s) as (s1 & Hr & R1 & R2 & R3 & R4); try done. rewrite Hr.
    destruct (uv_read_next e1) as [[n buf] e2] eqn:En. destruct (read_cb n buf s1) as [s2 rs] eqn:Ec.
    destruct (read_woken cap s1 n buf e1 e2) as (d & s' & Hd & D1 & D2 & D3 & D4 & D5 & D6); try done. rewrite Ec in Hd. simpl in Hd.
    rewrite Hd. eexists d, _. split; [reflexivity|]. unfold tcp_incoming. simpl. rewrite healthy_some, Eb, Ee. simpl. rewrite <- Hs1.
    apply uv_read_next_sane in En as (En & _). split_and!; try done. congruence.
  - unfold read_register. rewrite Ho, He. destruct (bool_decide_reflect (tcp_read_buffer s = [])) as [Eb|Eb]; simpl.
    + assert (tcp_eof s = true) as Ee by (apply not_false_iff_true; tauto). rewrite Ee. simpl.
      unfold read_await_resume. rewrite Eb, He. simpl. eexists [], _. split; [reflexivity|]. unfold tcp_incoming. simpl.
      rewrite healthy_some, Eb, Ee. split_and!; try done. unfold size_of. simpl. lia.
    + destruct (read_buffered cap s) as (d & s' & Hr & R1 & R2 & R3 & R4 & R5 & R6 & R7); try done. rewrite Hr.
      eexists d, _. split; [reflexivity|]. unfold tcp_incoming. simpl. rewrite healthy_some, R4, R5, Hs1, <- app_assoc.
      split_and!; try done.
Qed.

(** [write_some] makes progress. *)
Lemma healthy_write_some buffer (t : TcpStream E) :
  Is_true (healthy t) -> tcp_is_open t = true -> exists n t', write_some buffer t = (Ok n, t').
Proof.
  destruct t as [[s|] e]; [|done]. rewrite healthy_some. intros (Ho & Hw & He) _. unfold write_some. simpl.
  rewrite Ho, uv_scheduled_ok. simpl. case_bool_decide; [eauto|]. generalize (take (Z.to_nat (size_of buffer `min` UINT_MAX)) buffer). intros chunk.
  unfold write_start_on_loop. rewrite Ho. simpl.
  destruct (uv_try_write chunk e) as [rc e1] eqn:Et. apply uv_try_write_ok in Et. destruct (Z.ltb_spec 0 rc); [eauto|].
  assert ((rc <? 0) && negb (write_would_block rc) = false) as ->.
  { destruct Et as [?| ->]; [replace (rc <? 0) with false by lia; done | by rewrite andb_false_r]. }
  destruct (uv_write chunk e1) as [[wrc st] e2] eqn:Ew. apply uv_write_ok in Ew as [-> ->]. simpl. eauto.
Qed.

Lemma healthy_write_loop fuel buffer written (t : TcpStream E) r t' :
  Is_true (healthy t) -> tcp_is_open t = true -> 0 <= written <= size_of buffer ->
  write_all_loop fuel buffer written t = (r, t') -> r = Ok tt \/ r = OutOfFuel.
Proof.
  revert written t. induction fuel as [|fuel IH]; intros written t Hh Ho Hw; [intros [= <- <-]; by right|]. cbn [write_all_loop].
  destruct (Z.ltb_spec written (size_of buffer)); [|intros [= <- <-]; by left].
  destruct (healthy_write_some (drop (Z.to_nat written) buffer) t Hh Ho) as (n & t1 & E1). rewrite E1.
  apply write_some_sent in E1 as (S1 & _ & S3 & S4 & _). rewrite size_of_drop in S3 by lia.
  assert (drop (Z.to_nat written) buffer <> []) as Hne.
  { intros Hn. apply (f_equal size_of) in Hn. rewrite size_of_drop in Hn by lia. unfold size_of in Hn at 2. simpl in Hn. lia. }
  specialize (S4 Hne). replace (n =? 0) with false by lia. apply IH; [| | lia].
  - unfold healthy in *. by rewrite S1.
  - unfold tcp_is_open in *. by rewrite S1.
Qed.

Lemma healthy_write buffer (t : TcpStream E) :
  Is_true (healthy t) -> tcp_is_open t = true ->
  exists t', write_all buffer t = (Ok tt, t') /\ ts_state t' = ts_state t /\ tcp_incoming t' = tcp_incoming t /\
    uv_sent (ts_env t') = uv_sent (ts_env t) ++ buffer.
Proof.
  intros Hh Ho. destruct (write_all buffer t) as [r t'] eqn:Ew. exists t'. pose proof Ew as Ew'. unfold write_all in Ew, Ew'.
  apply write_all_loop_sent in Ew as (W1 & W2 & W3 & W4 & _); [|unfold size_of; lia..].
  apply healthy_write_loop in Ew' as [->| ->]; [|done|done|done|unfold size_of; lia]. rewrite W4 by done.
  unfold tcp_incoming. rewrite W2, W3. by split_and!.
Qed.

(** The interface.  An operation on a healthy stream leaves it healthy. *)
Lemma read_resume_keeps cap f s :
  let s' := snd (read_await_resume cap f s) in
  tcp_open s' = tcp_open s /\ tcp_read_waiter s' = tcp_read_waiter s /\ tcp_read_error s' = tcp_read_error s.
Proof. unfold read_await_resume. destruct f; try done. destruct (negb _); [done|]. by destruct (_ && _). Qed.

Lemma read_some_healthy cap (t : TcpStream E) : Is_true (healthy t) -> Is_true (healthy (snd (read_some cap t))).
Proof.
  destruct t as [[s|] e]; [|done]. intros Hh. apply healthy_some in Hh as Hs. destruct Hs as (Ho & Hw & He). unfold read_some. simpl.
  destruct (read_some_call cap s); [done|]. rewrite uv_scheduled_ok. simpl.
  pose proof (uv_read_start_ok e) as Hs0. destruct (uv_read_start e) as [rc e1]. simpl in Hs0. subst rc.
  assert (forall f s1 e2, tcp_open s1 = true -> tcp_read_waiter s1 = None -> tcp_read_error s1 = 0 ->
    Is_true (healthy (snd (let '(r, s) := read_await_resume cap f s1 in (r, mkStream (Some s) e2))))) as Hres.
  { intros f s1 e2 G1 G2 G3. pose proof (read_resume_keeps cap f s1) as (K1 & K2 & K3).
    destruct (read_await_resume cap f s1) as [r s2]. simpl in *. apply healthy_some. split_and!; congruence. }
  destruct (decide (tcp_read_buffer s = [] /\ tcp_eof s = false)) as [[Eb Ee]|Hready].
  - destruct (read_registers s) as (s1 & Hr & R1 & R2 & R3 & R4); try done. rewrite Hr.
    destruct (uv_read_next e1) as [[n buf] e2] eqn:En. pose proof (uv_read_next_ok _ _ _ _ En) as Hok.
    apply uv_read_next_sane in En as (_ & _ & Hne & _). unfold read_cb. replace (n =? 0) with false by lia. simpl.
    destruct Hok as [Hpos| ->]; [replace (0 <? n) with true by lia|]; by apply Hres.
  - unfold read_register. rewrite Ho, He. destruct (bool_decide_reflect (tcp_read_buffer s = [])) as [Eb|Eb]; simpl; [|by apply Hres].
    assert (tcp_eof s = true) as -> by (apply not_false_iff_true; tauto). simpl. by apply Hres.
Qed.

Lemma write_all_healthy buffer (t : TcpStream E) : Is_true (healthy t) -> Is_true (healthy (snd (write_all buffer t))).
Proof.
  intros Hh. destruct (write_all buffer t) as [r t'] eqn:Ew. unfold write_all in Ew.
  apply write_all_loop_sent in Ew as (_ & W2 & _); [|unfold size_of; lia..]. simpl. unfold healthy in *. by rewrite W2.
Qed.

Lemma close_healthy (t : TcpStream E) : Is_true (healthy (tcp_close t)).
Proof. unfold tcp_close, healthy. destruct t as [[s|] e]; done. Qed.

#[export] Instance tcp_byte_stream : ByteStream HealthyTcp := {
  bs_is_open t := tcp_is_open (proj1_sig t);
  bs_recv_some cap t := (fst (read_some cap (proj1_sig t)), exist _ (snd (read_some cap (proj1_sig t))) (read_some_healthy cap _ (proj2_sig t)));
  bs_send_all data t := (fst (write_all data (proj1_sig t)), exist _ (snd (write_all data (proj1_sig t))) (write_all_healthy data _ (proj2_sig t)));
  bs_close t := exist _ (tcp_close (proj1_sig t)) (close_healthy _);
  bs_recv_expires _ _ := false;
  bs_send_expires _ _ := false
}.

#[export] Instance tcp_reliable : ReliableStream HealthyTcp.
Proof.
  refine (reliable_stream (fun t => tcp_incoming (proj1_sig t)) (fun t => uv_sent (ts_env (proj1_sig t))) _ _ _ _ _).
  - intros cap [t Hh] Ho Hcap. simpl in *. destruct (healthy_read cap t Hh Ho Hcap) as (d & t' & E1 & E2 & E3 & E4 & E5 & E6 & E7).
    eexists d, _. split; [rewrite E1 at 1; reflexivity|]. simpl. rewrite E1. by split_and!.
  - intros data [t Hh] Ho. simpl in *. destruct (healthy_write data t Hh Ho) as (t' & E1 & E2 & E3 & E4).
    eexists _. split; [rewrite E1 at 1; reflexivity|]. simpl. rewrite E1. simpl. split_and!; [|done|done]. unfold tcp_is_open in *. by rewrite E2.
  - intros [[[s|] e] Hh]; [|done]. simpl. split; [done|]. destruct (_ && _); [apply uv_close_sane | done].
  - done.
  - done.
Defined.
End Reliable.

(** ** A connection with a scripted peer

    The peer sends given segments, then closes; [uv_try_write] accepts at
    most as many bytes as the next quota says and would block on a quota of
    zero. *)

Record wire := mkWire { wr_rx : list bytes; wr_tx : bytes; wr_quota : list Z }.

Fixpoint next_segment (rx : list bytes) : bytes * list bytes :=
  match rx with [] => ([], []) | [] :: rx => next_segment rx | seg :: rx => (seg, rx) end.

#[export] Instance wire_uv : UvTcp wire := {
  uv_errors := fun _ => "error"%bs;
  uv_scheduled _ := true;
  uv_read_start e := (0, e);
  uv_read_next e :=
    match next_segment (wr_rx e) with
    | ([], rx) => ((UV_EOF, []), mkWire rx (wr_tx e) (wr_quota e))
    | (seg, rx) => ((size_of seg, seg), mkWire rx (wr_tx e) (wr_quota e))
    end;
  uv_try_write data e :=
    match wr_quota e with
    | [] => (size_of data, mkWire (wr_rx e) (wr_tx e ++ data) [])
    | q :: quota =>
        if q <=? 0 then (UV_EAGAIN, mkWire (wr_rx e) (wr_tx e) quota)
        else let n := Z.min q (size_of data) in (n, mkWire (wr_rx e) (wr_tx e ++ take (Z.to_nat n) data) quota)
    end;
  uv_write data e := (0, 0, mkWire (wr_rx e) (wr_tx e ++ data) (wr_quota e));
  uv_close e := e
}.

Lemma next_segment_spec rx : forall seg rx', next_segment rx = (seg, rx') ->
  concat rx = seg ++ concat rx' /\ (seg = [] -> concat rx = [] /\ rx' = []).
Proof.
  induction rx as [|s rx IH]; intros seg rx'; simpl; [by intros [= <- <-]|]. destruct s as [|c s]; [apply IH|].
  by intros [= <- <-].
Qed.

#[export] Instance wire_sane : UvSane wire.
Proof.
  refine {| uv_incoming e := concat (wr_rx e); uv_sent e := wr_tx e |}; simpl.
  - done.
  - intros e n buf e'. destruct (next_segment (wr_rx e)) as [seg rx] eqn:Es. apply next_segment_spec in Es as [E1 E2].
    destruct seg as [|c seg]; intros [= <- <- <-]; simpl.
    + destruct (E2 eq_refl) as [E3 E4]. rewrite E4 in *. split_and!; try done.
    + assert (take (Z.to_nat (size_of (c :: seg))) (c :: seg) = c :: seg) as Ht by (unfold size_of; by rewrite Nat2Z.id, firstn_all).
      assert (0 < size_of (c :: seg)) as Hpos by (unfold size_of; simpl; lia). rewrite Ht. unfold UV_EOF in *.
      split_and!; [done | lia | lia | by intros _ | lia].
  - intros data e rc e'. destruct (wr_quota e) as [|q quota].
    + intros [= <- <-]. simpl. split_and!; try done. unfold size_of. by rewrite Nat2Z.id, firstn_all.
    + destruct (Z.leb_spec q 0); intros [= <- <-]; simpl.
      * rewrite app_nil_r. split_and!; try done. pose proof (size_of_nonneg data). unfold UV_EAGAIN. lia.
      * split_and!; try done. lia.
  - intros data e rc st e' [= <- <- <-]. simpl. split_and!; try done. exists (length data). by rewrite firstn_all.
  - done.
Defined.

#[export] Instance wire_reliable : UvReliable wire.
Proof.
  constructor; simpl; try done.
  - intros e n buf e'. destruct (next_segment (wr_rx e)) as [seg rx]. destruct seg as [|c seg]; intros [= <- <- <-]; [by right|].
    left. unfold size_of. simpl. lia.
  - intros data e rc e'. destruct (wr_quota e) as [|q quota]; [intros [= <- <-]; left; apply size_of_nonneg|].
    destruct (Z.leb_spec q 0); intros [= <- <-]; [by right|]. left. pose proof (size_of_nonneg data). lia.
  - by intros data e rc st e' [= <- <- <-].
Defined.

(** A read that waits, and is woken by three bytes. *)
Definition read_labels : list (@wait_label Z tcp_event) :=
  [LCall 10 false; LRegister 0 0; LEvent (TcpRead 3 "abc"%bs)].

Definition waiting_state : @wait_state TcpState Z bytes :=
  mkWait (mkTcp true false false [] (Some 0%nat) 0 true false [] []) [mkOp 10 false false Waiting].

Lemma tcp_reads_in_order_witness :
  wait_run (S := TcpState) (A := bytes) (take 2 read_labels) (mkWait opened_tcp []) = Some waiting_state /\
  tcp_read_waiter (ws_cell waiting_state) = Some 0%nat.
Proof.
  split; [reflexivity|].
  refine (proj1 (proj2 (tcp_reads_in_order (take 2 read_labels) waiting_state _) 0%nat _)); [reflexivity|].
  eexists. split; reflexivity.
Defined.

Definition woken_state : @wait_state TcpState Z bytes :=
  mkWait (mkTcp true false false "abc"%bs None 0 true false "abc"%bs []) [mkOp 10 false false (Resuming NoFault)].


Lemma tcp_write_all_exact_witness :
  write_all "hello"%bs (mkStream (Some opened_tcp) (mkWire [] [] [2; 0])) =
    (Ok tt, mkStream (Some opened_tcp) (mkWire [] "hello"%bs [])) /\
  Ok tt <> @OutOfFuel unit.
Proof.
  split; [vm_compute; reflexivity|].
  refine (proj1 (tcp_write_all_exact (E := wire) "hello"%bs (mkStream (Some opened_tcp) (mkWire [] [] [2; 0])) (Ok tt)
    (mkStream (Some opened_tcp) (mkWire [] "hello"%bs [])) _)).
  vm_compute. reflexivity.
Defined.

(** Two reads at once can go undetected.  A first read waits; data arrives
    and its resumption is posted; a second read that starts before it runs
    takes the bytes.  The first read then returns zero bytes, which its
    caller takes for the end of the stream, and neither read reports the
    concurrent use. *)
Theorem tcp_undetected_concurrent_read :
  exists w : @wait_state TcpState Z bytes,
    wait_run (read_labels ++ [LCall 10 false; LRegister 1 0; LResume 1; LResume 0]) (mkWait opened_tcp []) = Some w /\
    ws_ops w = [mkOp 10 false false (Finished (Ok [])); mkOp 10 false false (Finished (Ok "abc"%bs))] /\
    tcp_eof (ws_cell w) = false /\ tcp_open (ws_cell w) = true.
Proof. eexists. split_and!; vm_compute; reflexivity. Qed.
