(* ===== verification/NetListen.v ===== *)
(** * Resolving, connecting, listening (net.cpp)

    [connect] and [listen] try the resolved addresses one after the other;
    the model counts the handles that were initialised and those that were
    closed, so that the theorems can say that a failed attempt leaves no
    handle behind.  [ListenerState] is [TcpListener::State]; accepting is an
    instance of the waiting pattern of [NetWait.v]. *)

From S2P Require Import Prelude CxxString HttpUrl NetWait NetTcp.

Local Open Scope Z_scope.

(** ** Addresses *)

(** A socket address: the address bytes and the port in network byte order. *)
Inductive sockaddr :=
| SaInet (addr : bytes) (port : Z)
| SaInet6 (addr : bytes) (port : Z)
| SaOther (family : Z).

(** [ntohs] on a little-endian machine. *)
Definition ntohs (p : Z) : Z := (p mod 256) * 256 + (p / 256) mod 256.

(** libuv's address printer; it may fail. *)
Class UvNames := { uv_inet_ntop : bool -> bytes -> option bytes (* [true]: IPv6 *) }.

Definition endpoint_from_sockaddr `{UvNames} (a : sockaddr) : Endpoint :=
  match a with
  | SaInet ip port => mkEndpoint (default "0.0.0.0"%bs (uv_inet_ntop false ip)) (ntohs port)
  | SaInet6 ip port => mkEndpoint (default "::"%bs (uv_inet_ntop true ip)) (ntohs port)
  | SaOther _ => mkEndpoint "<unknown>"%bs 0
  end.

(** [endpoint_from_uv_handle], with what the getter answered. *)
Definition endpoint_from_uv_handle `{UvErrors} `{UvNames} (answer : Z * sockaddr) : result Endpoint :=
  if negb (fst answer =? 0)
  then Throw (throw_uv_error uv_strerror (fst answer) "uv_tcp_getsockname/uv_tcp_getpeername"%bs)
  else Ok (endpoint_from_sockaddr (snd answer)).

(** [refresh_endpoints]: the local and the peer's endpoint. *)
Definition refresh_endpoints `{UvErrors} `{UvNames} (sock peer : Z * sockaddr) : result (Endpoint * Endpoint) :=
  local ← endpoint_from_uv_handle sock; remote ← endpoint_from_uv_handle peer; Ok (local, remote).

(** ** Resolving *)

Record addr_hints := mkHints { h_stream : bool; h_passive : bool }.

(** What [uv_getaddrinfo] answers: its return code, the status of the
    callback, the list of results (an entry may have no address). *)
Record addr_answer := mkAnswer { aa_rc : Z; aa_status : Z; aa_list : list (option sockaddr) }.

Definition no_results : exn := RuntimeError "corouv::net resolve returned no results"%bs.

(** [GetAddrInfoAwaiter::await_resume] *)
Definition addr_resume `{UvErrors} (a : addr_answer) : result (list sockaddr) :=
  if negb (aa_rc a =? 0) then Throw (throw_uv_error uv_strerror (aa_rc a) "uv_getaddrinfo"%bs)
  else if negb (aa_status a =? 0) then Throw (throw_uv_error uv_strerror (aa_status a) "uv_getaddrinfo"%bs)
  else match omap id (aa_list a) with
       | [] => Throw no_results
       | out => Ok out
       end.

(** ** Connecting and listening *)

(** What these functions see of libuv.  [uv_tcp_connect] gives its return
    code and the status of its callback. *)
Class UvNet (E : Type) := {
  un_errors :: UvErrors;
  un_names :: UvNames;
  uv_getaddrinfo : option bytes -> bytes -> addr_hints -> E -> addr_answer * E;
  uv_tcp_init : E -> Z * E;
  uv_tcp_connect : sockaddr -> E -> Z * Z * E;
  uv_tcp_bind : sockaddr -> E -> Z * E;
  uv_listen : Z -> E -> Z * E;
  uv_getsockname : E -> (Z * sockaddr) * E;
  uv_getpeername : E -> (Z * sockaddr) * E
}.

(** The environment and the handles: initialised so far, and closed. *)
Record net (E : Type) := mkNet { n_env : E; n_opened : list nat; n_closed : list nat }.
Arguments mkNet {E} _ _ _.
Arguments n_env {E} _.
Arguments n_opened {E} _.
Arguments n_closed {E} _.

Record opened_stream := mkOpened { os_handle : nat; os_local : Endpoint; os_peer : Endpoint }.

Section Connecting.
Context {E : Type} `{UvNet E}.

Definition with_env (e : E) (n : net E) : net E := mkNet e (n_opened n) (n_closed n).

Definition resolve_tcp (host : option bytes) (port : Z) (passive : bool) (n : net E) : result (list sockaddr) * net E :=
  let '(a, e) := uv_getaddrinfo host (to_string port) (mkHints true passive) (n_env n) in
  (addr_resume a, with_env e n).

(** [init_on_loop] of a new state, with [uv_tcp_init] or [uv_udp_init]: the
    new handle. *)
Definition init_with (uv_init : E -> Z * E) (n : net E) : Z * nat * net E :=
  let '(rc, e) := uv_init (n_env n) in
  let h := length (n_opened n) in
  if negb (rc =? 0) then (rc, h, with_env e n) else (0, h, mkNet e (n_opened n ++ [h]) (n_closed n)).
Definition init_handle : net E -> Z * nat * net E := init_with uv_tcp_init.

(** [request_close] of a state whose handle may not be initialised. *)
Definition close_handle (initialized : bool) (h : nat) (n : net E) : net E :=
  if initialized then mkNet (n_env n) (n_opened n) (n_closed n ++ [h]) else n.

Definition connect_error_message (host : bytes) (port err : Z) : bytes :=
  "corouv::net::connect "%bs ++ host ++ ":"%bs ++ to_string port ++ " failed: "%bs ++ uv_strerror err.

(** [ConnectAwaiter]: the status, whether the handle was initialised. *)
Definition connect_awaiter (address : sockaddr) (n : net E) : Z * bool * nat * net E :=
  let '(init_rc, h, n) := init_handle n in
  if negb (init_rc =? 0) then (init_rc, false, h, n)
  else
    let '(rc, status, e) := uv_tcp_connect address (n_env n) in
    (if negb (rc =? 0) then rc else status, true, h, with_env e n).

Fixpoint connect_loop (addresses : list sockaddr) (host : bytes) (port : Z) (last_error : option bytes) (n : net E)
    : result opened_stream * net E :=
  match addresses with
  | [] => (Throw (RuntimeError (default "corouv::net::connect failed"%bs last_error)), n)
  | address :: rest =>
      let '(status, initialized, h, n) := connect_awaiter address n in
      if status =? 0 then
        let '(sock, e) := uv_getsockname (n_env n) in
        let '(peer, e) := uv_getpeername e in
        match refresh_endpoints sock peer with
        | Ok (local, remote) => (Ok (mkOpened h local remote), with_env e n)
        | Throw ex => (Throw ex, with_env e n)
        | OutOfFuel => (OutOfFuel, with_env e n)
        end
      else connect_loop rest host port (Some (connect_error_message host port status)) (close_handle initialized h n)
  end.

Definition optional_host (host : bytes) : option bytes := if bool_decide (host = []) then None else Some host.

Definition connect (host : bytes) (port : Z) (n : net E) : result opened_stream * net E :=
  match resolve_tcp (optional_host host) port false n with
  | (Ok addresses, n) => connect_loop addresses host port None n
  | (Throw e, n) => (Throw e, n)
  | (OutOfFuel, n) => (OutOfFuel, n)
  end.

(** One address of [listen]: the handle, or the text of the error. *)
Definition listen_one (address : sockaddr) (backlog : Z) (n : net E) : (nat + bytes) * net E :=
  let '(init_rc, h, n) := init_handle n in
  if negb (init_rc =? 0) then (inr ("uv_tcp_init: "%bs ++ uv_strerror init_rc), n)
  else
    let '(bind_rc, e) := uv_tcp_bind address (n_env n) in
    if negb (bind_rc =? 0) then (inr ("uv_tcp_bind: "%bs ++ uv_strerror bind_rc), close_handle true h (with_env e n))
    else
      let '(listen_rc, e) := uv_listen backlog e in
      if negb (listen_rc =? 0) then (inr ("uv_listen: "%bs ++ uv_strerror listen_rc), close_handle true h (with_env e n))
      else (inl h, with_env e n).

Fixpoint listen_loop (addresses : list sockaddr) (backlog : Z) (last_error : option bytes) (n : net E)
    : result (nat * Endpoint) * net E :=
  match addresses with
  | [] =>
      (Throw (RuntimeError (match last_error with
                            | Some text => "corouv::net::listen failed: "%bs ++ text
                            | None => "corouv::net::listen failed"%bs
                            end)), n)
  | address :: rest =>
      match listen_one address backlog n with
      | (inl h, n) =>
          let '(sock, e) := uv_getsockname (n_env n) in
          match endpoint_from_uv_handle sock with
          | Ok local => (Ok (h, local), with_env e n)
          | Throw ex => (Throw ex, with_env e n)
          | OutOfFuel => (OutOfFuel, with_env e n)
          end
      | (inr text, n) => listen_loop rest backlog (Some text) n
      end
  end.

Definition listen (host : bytes) (port backlog : Z) (n : net E) : result (nat * Endpoint) * net E :=
  match resolve_tcp (optional_host host) port true n with
  | (Ok addresses, n) => listen_loop addresses backlog None n
  | (Throw e, n) => (Throw e, n)
  | (OutOfFuel, n) => (OutOfFuel, n)
  end.

(** *** Handles *)

(** The handles of [n'] that [n] does not have are [extra], closed or live. *)
Definition grows (n n' : net E) (extra live : list nat) : Prop :=
  n_opened n' = n_opened n ++ extra /\ exists closed, n_closed n' = n_closed n ++ closed /\ extra = closed ++ live.

Lemma grows_trans n1 n2 n3 x1 x2 live :
  grows n1 n2 x1 [] -> grows n2 n3 x2 live -> grows n1 n3 (x1 ++ x2) live.
Proof.
  intros (O1 & c1 & C1 & ->) (O2 & c2 & C2 & ->). unfold grows. rewrite app_nil_r, O2, O1, C2, C1, !app_assoc, app_nil_r.
  split; [done|]. exists (c1 ++ c2). by rewrite !app_assoc.
Qed.

Lemma grows_env n e : grows n (with_env e n) [] [].
Proof. split; [by rewrite app_nil_r|]. exists []. by rewrite app_nil_r. Qed.

Lemma init_with_grows uv_init n rc h n' :
  init_with uv_init n = (rc, h, n') -> if rc =? 0 then grows n n' [h] [h] else grows n n' [] [].
Proof.
  unfold init_with. destruct (uv_init (n_env n)) as [c e]. destruct (Z.eqb_spec c 0) as [->|Hne]; simpl; intros [= <- <- <-].
  - split; [done|]. exists []. by rewrite app_nil_r.
  - replace (c =? 0) with false by lia. apply grows_env.
Qed.

Lemma grows_close n n' h x : grows n n' x [h] -> grows n (close_handle true h n') x [].
Proof. intros (O & c & C & ->). split; [done|]. exists (c ++ [h]). simpl. by rewrite C, <- !app_assoc, app_nil_r. Qed.

Lemma grows_same n n1 e x live : grows n n1 x live -> grows n (with_env e n1) x live.
Proof. done. Qed.

Definition refresh_failed (e : exn) : Prop :=
  exists code, code <> 0 /\ e = throw_uv_error uv_strerror code "uv_tcp_getsockname/uv_tcp_getpeername"%bs.

Lemma endpoint_from_uv_handle_throws a e : endpoint_from_uv_handle a = Throw e -> refresh_failed e.
Proof. unfold endpoint_from_uv_handle. destruct (Z.eqb_spec (fst a) 0); [done|]. intros [= <-]. by exists (fst a). Qed.

Lemma refresh_endpoints_throws a b e : refresh_endpoints a b = Throw e -> refresh_failed e.
Proof.
  unfold refresh_endpoints. destruct (endpoint_from_uv_handle a) eqn:Ea; simpl; [|by intros [= <-]; eapply endpoint_from_uv_handle_throws|done].
  destruct (endpoint_from_uv_handle b) eqn:Eb; simpl; [done|by intros [= <-]; eapply endpoint_from_uv_handle_throws|done].
Qed.

Lemma endpoint_not_fuel a : endpoint_from_uv_handle a <> OutOfFuel.
Proof. unfold endpoint_from_uv_handle. by destruct (negb _). Qed.
Lemma refresh_not_fuel a b : refresh_endpoints a b <> OutOfFuel.
Proof.
  unfold refresh_endpoints. pose proof (endpoint_not_fuel a). pose proof (endpoint_not_fuel b).
  destruct (endpoint_from_uv_handle a); [|done|done]. simpl. by destruct (endpoint_from_uv_handle b).
Qed.

Lemma connect_awaiter_grows address n status initialized h n' :
  connect_awaiter address n = (status, initialized, h, n') ->
  if initialized then grows n n' [h] [h] else status <> 0 /\ grows n n' [] [].
Proof.
  unfold connect_awaiter. destruct (init_handle n) as [[rc h1] n1] eqn:Ei. apply init_with_grows in Ei.
  destruct (Z.eqb_spec rc 0) as [->|Hne]; simpl.
  - destruct (uv_tcp_connect address (n_env n1)) as [[c st] e]. by intros [= <- <- <- <-].
  - by intros [= <- <- <- <-].
Qed.

(** What [connect] and [listen] leave behind. *)
Definition leaves {A} (handle : A -> nat) (r : result A) (n n' : net E) : Prop :=
  match r with
  | Ok a => exists x, grows n n' x [handle a]
  | Throw e => (exists x, grows n n' x []) \/ (refresh_failed e /\ exists x h, grows n n' x [h])
  | OutOfFuel => False
  end.

Lemma leaves_after {A} (handle : A -> nat) r n n1 n2 x :
  grows n n1 x [] -> leaves handle r n1 n2 -> leaves handle r n n2.
Proof.
  intros Hg. unfold leaves. destruct r as [a|e|]; [|intros [[y Hy]|(Hf & y & h & Hy)]|done].
  - intros [y Hy]. exists (x ++ y). by eapply grows_trans.
  - left. exists (x ++ y). by eapply grows_trans.
  - right. split; [done|]. exists (x ++ y), h. by eapply grows_trans.
Qed.

Lemma connect_loop_leaves addresses host port last n r n' :
  connect_loop addresses host port last n = (r, n') -> leaves os_handle r n n'.
Proof.
  revert last n. induction addresses as [|a rest IH]; intros last n; cbn [connect_loop].
  - intros [= <- <-]. left. exists []. apply (grows_env n (n_env n)).
  - destruct (connect_awaiter a n) as [[[status init] h] n1] eqn:Ec. apply connect_awaiter_grows in Ec.
    destruct (Z.eqb_spec status 0) as [->|Hne].
    + destruct init; [|by destruct Ec]. destruct (uv_getsockname _) as [sock e1], (uv_getpeername e1) as [peer e2].
      pose proof (refresh_not_fuel sock peer) as Hnf. destruct (refresh_endpoints sock peer) as [[l p]|ex|] eqn:Er; [| |done];
        intros [= <- <-]; simpl.
      * exists [h]. by apply grows_same.
      * right. split; [by eapply refresh_endpoints_throws|]. exists [h], h. by apply grows_same.
    + intros Hl. destruct init; eapply leaves_after; try (by eapply IH); [by apply grows_close | apply Ec].
Qed.

Lemma listen_one_leaves address backlog n r n' :
  listen_one address backlog n = (r, n') ->
  match r with inl h => grows n n' [h] [h] | inr _ => exists x, grows n n' x [] end.
Proof.
  unfold listen_one. destruct (init_handle n) as [[rc h] n1] eqn:Ei. apply init_with_grows in Ei.
  destruct (Z.eqb_spec rc 0) as [->|]; simpl; [|intros [= <- <-]; by exists []].
  destruct (uv_tcp_bind address (n_env n1)) as [bind_rc e1]. destruct (negb (bind_rc =? 0)).
  { intros [= <- <-]. exists [h]. by apply (grows_close n (with_env e1 n1)). }
  destruct (uv_listen backlog e1) as [listen_rc e2]. destruct (negb (listen_rc =? 0)); intros [= <- <-].
  - exists [h]. by apply (grows_close n (with_env e2 n1)).
  - by apply grows_same.
Qed.

Lemma listen_loop_leaves addresses backlog last n r n' :
  listen_loop addresses backlog last n = (r, n') -> leaves fst r n n'.
Proof.
  revert last n. induction addresses as [|a rest IH]; intros last n; cbn [listen_loop].
  - intros [= <- <-]. left. exists []. apply (grows_env n (n_env n)).
  - destruct (listen_one a backlog n) as [[h|text] n1] eqn:Eo; apply listen_one_leaves in Eo.
    + destruct (uv_getsockname _) as [sock e1]. pose proof (endpoint_not_fuel sock) as Hnf.
      destruct (endpoint_from_uv_handle sock) as [l|ex|] eqn:Er; [| |done]; intros [= <- <-]; simpl.
      * exists [h]. by apply grows_same.
      * right. split; [by eapply endpoint_from_uv_handle_throws|]. exists [h], h. by apply grows_same.
    + intros Hl. destruct Eo as [x Hx]. eapply leaves_after; [exact Hx | by eapply IH].
Qed.

(** [connect] and [listen] leave no handle behind.  If they return, the handle
    of the result is the only one they opened that is not closed; if they
    throw, every handle they opened is closed, unless the connection was made
    and its endpoints could not be read. *)
Theorem connect_listen_handles host port backlog n :
  leaves os_handle (fst (connect host port n)) n (snd (connect host port n)) /\
  leaves fst (fst (listen host port backlog n)) n (snd (listen host port backlog n)).
Proof.
  assert (forall {A} (handle : A -> nat) passive (go : list sockaddr -> net E -> result A * net E) n1,
    (forall l n1 r n2, go l n1 = (r, n2) -> leaves handle r n1 n2) ->
    let r := match resolve_tcp (optional_host host) port passive n1 with
             | (Ok l, n) => go l n | (Throw e, n) => (Throw e, n) | (OutOfFuel, n) => (OutOfFuel, n) end in
    leaves handle (fst r) n1 (snd r)) as Hgo.
  { intros A handle passive go n1 Hgo. destruct (resolve_tcp _ _ _ n1) as [ra n2] eqn:Er. unfold resolve_tcp in Er.
    destruct (uv_getaddrinfo _ _ _ _) as [a e]. injection Er as Ea <-. destruct ra as [addresses|ex|]; simpl.
    - destruct (go addresses (with_env e n1)) as [r n2] eqn:Eg. eapply leaves_after; [apply grows_env | by eapply Hgo].
    - left. exists []. apply grows_env.
    - unfold addr_resume in Ea. repeat (case_match; try done). }
  split; apply Hgo; intros; [by eapply connect_loop_leaves | by eapply listen_loop_leaves].
Qed.
End Connecting.

(** ** TcpListener::State *)

(** A connection is a number; [ls_arrived] counts those libuv announced. *)
Record ListenerState := mkListener {
  ls_initialized : bool;
  ls_closing : bool;
  ls_closed : bool;
  ls_pending : list nat;
  ls_accept_waiter : option nat;
  ls_accept_error : Z;
  ls_arrived : nat;
  ls_accepted : list nat;        (* the connections queued so far *)
  ls_delivered : list nat;       (* those handed to [accept] *)
  ls_child_closed : list nat     (* those closed by the listener itself *)
}.

Definition ls_open (s : ListenerState) : bool := ls_initialized s && negb (ls_closing s) && negb (ls_closed s).

(** A listener that [listen] hands out. *)
Definition opened_listener : ListenerState := mkListener true false false [] None 0 0 [] [] [].

(** What libuv answers while it announces a connection. *)
Record connection_answer := mkConnection {
  ca_init : Z; ca_accept : Z; ca_sock : Z * sockaddr; ca_peer : Z * sockaddr
}.

Definition fail_accept (code : Z) (s : ListenerState) : ListenerState :=
  mkListener (ls_initialized s) (ls_closing s) (ls_closed s) (ls_pending s) None code (ls_arrived s) (ls_accepted s)
    (ls_delivered s) (ls_child_closed s).
Definition set_accept_waiter (o : option nat) (s : ListenerState) : ListenerState :=
  mkListener (ls_initialized s) (ls_closing s) (ls_closed s) (ls_pending s) o (ls_accept_error s) (ls_arrived s) (ls_accepted s)
    (ls_delivered s) (ls_child_closed s).
Definition arrive (s : ListenerState) : ListenerState :=
  mkListener (ls_initialized s) (ls_closing s) (ls_closed s) (ls_pending s) (ls_accept_waiter s) (ls_accept_error s)
    (S (ls_arrived s)) (ls_accepted s) (ls_delivered s) (ls_child_closed s).
Definition queue_child (c : nat) (s : ListenerState) : ListenerState :=
  mkListener (ls_initialized s) (ls_closing s) (ls_closed s) (ls_pending s ++ [c]) None (ls_accept_error s) (ls_arrived s)
    (ls_accepted s ++ [c]) (ls_delivered s) (ls_child_closed s).
Definition close_child (c : nat) (s : ListenerState) : ListenerState :=
  mkListener (ls_initialized s) (ls_closing s) (ls_closed s) (ls_pending s) (ls_accept_waiter s) (ls_accept_error s) (ls_arrived s)
    (ls_accepted s) (ls_delivered s) (ls_child_closed s ++ [c]).
Definition mark_listener_closed (s : ListenerState) : ListenerState :=
  mkListener (ls_initialized s) (ls_closing s) true (ls_pending s) (ls_accept_waiter s) (ls_accept_error s) (ls_arrived s)
    (ls_accepted s) (ls_delivered s) (ls_child_closed s).

Section Listening.
Context `{UvErrors} `{UvNames}.

(** [on_connection].  An exception of [refresh_endpoints] leaves the callback. *)
Definition on_connection (status : Z) (a : connection_answer) (s : ListenerState) : result (ListenerState * list nat) :=
  let waiter := waiter_list (ls_accept_waiter s) in
  if status <? 0 then Ok (fail_accept status s, waiter)
  else
    let c := ls_arrived s in
    let s := arrive s in
    let rc := if ca_init a =? 0 then ca_accept a else ca_init a in
    if rc =? 0 then
      match refresh_endpoints (ca_sock a) (ca_peer a) with
      | Ok _ => Ok (queue_child c s, waiter)
      | Throw e => Throw e
      | OutOfFuel => OutOfFuel
      end
    else Ok (fail_accept rc (if ca_init a =? 0 then close_child c s else s), waiter).

Definition listener_close_on_loop (s : ListenerState) : ListenerState * list nat :=
  if negb (ls_initialized s) then (mark_listener_closed s, [])
  else if ls_closing s then (s, [])
  else
    (mkListener (ls_initialized s) true (ls_closed s) (ls_pending s) None UV_ECANCELED (ls_arrived s) (ls_accepted s)
       (ls_delivered s) (ls_child_closed s),
     waiter_list (ls_accept_waiter s)).

(** *** AcceptAwaiter *)

Definition listener_ready (s : ListenerState) : bool :=
  negb (bool_decide (ls_pending s = [])) || negb (ls_open s) || negb (ls_accept_error s =? 0).

(** [register_waiter] *)
Definition accept_register (k : nat) (s : ListenerState) : registered * ListenerState :=
  if negb (bool_decide (ls_pending s = [])) || negb (ls_open s) || negb (ls_accept_error s =? 0) then (GoesOn NoFault, s)
  else match ls_accept_waiter s with
       | Some _ => (GoesOn Concurrent, s)
       | None => (Waits, set_accept_waiter (Some k) s)
       end.

Definition listener_closed_error : exn := LogicError "corouv::net::TcpListener is closed"%bs.
Definition concurrent_accepts : exn :=
  LogicError "corouv::net::TcpListener does not support concurrent accept calls"%bs.

Definition accept_await_resume (f : fault) (s : ListenerState) : result nat * ListenerState :=
  match f with
  | Concurrent => (Throw concurrent_accepts, s)
  | SetupError rc => (Throw (throw_uv_error uv_strerror rc "uv_listen/uv_accept"%bs), s)
  | NoFault =>
      match ls_pending s with
      | c :: rest =>
          (Ok c, mkListener (ls_initialized s) (ls_closing s) (ls_closed s) rest (ls_accept_waiter s) (ls_accept_error s)
                   (ls_arrived s) (ls_accepted s) (ls_delivered s ++ [c]) (ls_child_closed s))
      | [] =>
          if negb (ls_accept_error s =? 0) && negb (ls_accept_error s =? UV_ECANCELED)
          then (Throw (throw_uv_error uv_strerror (ls_accept_error s) "uv_listen/uv_accept"%bs), s)
          else (Throw listener_closed_error, s)
      end
  end.

Inductive listener_event :=
| LsConnection (status : Z) (a : connection_answer)
| LsClose
| LsOnClose.

Definition listener_event_step (ev : listener_event) (s : ListenerState) : option (ListenerState * list nat) :=
  match ev with
  | LsConnection status a =>
      if ls_open s then match on_connection status a s with Ok r => Some r | _ => None end else None
  | LsClose => Some (listener_close_on_loop s)
  | LsOnClose => if ls_initialized s && ls_closing s then Some (mark_listener_closed s, []) else None
  end.

#[export] Instance listener_cell : WaitCell ListenerState unit listener_event nat := {
  wc_waiters s := waiter_list (ls_accept_waiter s);
  wc_ready := listener_ready;
  wc_call _ s := if negb (ls_open s) then Some (Throw listener_closed_error) else None;
  wc_register k _ rc s := if rc =? 0 then accept_register k s else (GoesOn (SetupError UV_ECANCELED), s);  (* not scheduled *)
  wc_event := listener_event_step;
  wc_resume _ _ f _ s := accept_await_resume f s
}.

Lemma listener_ready_false s :
  listener_ready s = false <->
  ls_initialized s = true /\ ls_closing s = false /\ ls_closed s = false /\ ls_pending s = [] /\ ls_accept_error s = 0.
Proof.
  unfold listener_ready, ls_open. rewrite !orb_false_iff, !negb_false_iff, !andb_true_iff, !negb_true_iff, bool_decide_eq_true, Z.eqb_eq.
  tauto.
Qed.

Lemma listener_waits s : (waiter_list (ls_accept_waiter s) <> [] -> listener_ready s = false) ->
  ls_accept_waiter s = None \/ listener_ready s = false.
Proof. destruct (ls_accept_waiter s); [right; auto | by left]. Qed.

Lemma on_connection_resumes status a s s' resumed :
  on_connection status a s = Ok (s', resumed) -> ls_accept_waiter s' = None /\ resumed = waiter_list (ls_accept_waiter s).
Proof.
  unfold on_connection. destruct (status <? 0); [by intros [= <- <-]|].
  destruct (_ =? 0); [|intros [= <- <-]; by destruct (ca_init a =? 0)].
  destruct (refresh_endpoints _ _); [|done|done]. by intros [= <- <-].
Qed.

#[export] Instance listener_cell_laws : WaitCellLaws ListenerState unit listener_event nat.
Proof.
  refine {| wc_inv _ := True |}; simpl.
  - intros k _ rc s o s' _ _ Hw E. split; [done|]. revert E. destruct (rc =? 0); [|intros [= <- <-]; by split]. unfold accept_register. fold (listener_ready s).
    destruct (listener_ready s) eqn:Er; [intros [= <- <-]; split; [done | by rewrite Er]|].
    destruct (ls_accept_waiter s) eqn:Ew; intros [= <- <-]; [by rewrite Ew, Er|]. simpl. split; [done|].
    apply listener_ready_false. by apply listener_ready_false in Er.
  - intros ev s s' resumed _ Hw E. split; [done|]. revert E. apply listener_waits in Hw. destruct ev as [status a| |]; simpl.
    + destruct (ls_open s); [|done]. destruct (on_connection status a s) as [[s1 r1]|e|] eqn:E; [|done|done]. intros [= <- <-].
      apply on_connection_resumes in E as [-> ->]. by rewrite app_nil_r.
    + unfold listener_close_on_loop. destruct (ls_initialized s) eqn:Ei; simpl.
      * destruct (ls_closing s) eqn:Ec; intros [= <- <-]; simpl; [|by rewrite app_nil_r]. split; [done|].
        destruct Hw as [->|Hw]; [done|]. apply listener_ready_false in Hw as (? & ? & _). congruence.
      * intros [= <- <-]. simpl. split; [done|]. destruct Hw as [->|Hw]; [done|]. apply listener_ready_false in Hw as (? & _). congruence.
    + destruct (_ && _) eqn:E; [|done]. intros [= <- <-]. simpl. split; [done|]. apply andb_true_iff in E as [_ E].
      destruct Hw as [->|Hw]; [done|]. apply listener_ready_false in Hw as (? & ? & _). congruence.
  - intros _ _ f _ s r s' _ Hw E. split; [done|]. revert E. unfold accept_await_resume.
    destruct f; [|intros [= <- <-]; by split|intros [= <- <-]; by split]. apply listener_waits in Hw as Hw'.
    destruct (ls_pending s) as [|c rest] eqn:Ep.
    + intros Hr. assert (s' = s) as -> by (destruct (_ && _); by injection Hr). by split.
    + intros [= <- <-]. simpl. split; [done|]. destruct Hw' as [->|Hw']; [done|]. apply listener_ready_false in Hw' as (_ & _ & _ & ? & _).
      congruence.
Defined.

Lemma listener_ready_true s :
  ls_pending s <> [] \/ ls_open s = false \/ ls_accept_error s <> 0 -> listener_ready s = true.
Proof.
  unfold listener_ready. intros [Hb|[->|He]].
  - by rewrite bool_decide_eq_false_2.
  - by rewrite !orb_true_r.
  - replace (ls_accept_error s =? 0) with false by lia. by rewrite !orb_true_r.
Qed.

#[export] Instance listener_cell_ready : WaitCellReady ListenerState unit listener_event nat.
Proof.
  constructor; simpl.
  - intros k _ rc s f s' Hw. destruct (rc =? 0); [|by intros [= <- <-]]. unfold accept_register. fold (listener_ready s). destruct (listener_ready s) eqn:Er.
    { intros [= <- <-]. by split_and!. }
    by destruct (ls_accept_waiter s).
  - intros ev s s' resumed. destruct ev as [status a| |]; simpl.
    + destruct (ls_open s); [|done]. unfold on_connection. destruct (Z.ltb_spec status 0) as [Hn|Hn].
      { intros [= <- <-] _. apply listener_ready_true. right; right. simpl. lia. }
      destruct (Z.eqb_spec (if ca_init a =? 0 then ca_accept a else ca_init a) 0) as [Ez|Ez].
      * destruct (refresh_endpoints _ _); [|done|done]. intros [= <- <-] _. apply listener_ready_true. left. simpl.
        by destruct (ls_pending s).
      * intros [= <- <-] _. apply listener_ready_true. right; right. done.
    + unfold listener_close_on_loop. destruct (ls_initialized s) eqn:Ei; simpl.
      * destruct (ls_closing s) eqn:Ec; intros [= <- <-]; simpl; [by intros [?|?]|]. intros _. apply listener_ready_true. by right; right.
      * intros [= <- <-] _. apply listener_ready_true. right; left. unfold ls_open. simpl. by rewrite andb_false_r.
    + destruct (_ && _); [|done]. intros [= <- <-] _. apply listener_ready_true. right; left. unfold ls_open. simpl.
      by rewrite andb_false_r.
Qed.

Record listener_inv (s : ListenerState) : Prop := {
  lv_fifo : ls_accepted s = ls_delivered s ++ ls_pending s;
  lv_once : NoDup (ls_accepted s ++ ls_child_closed s);
  lv_fresh c : c ∈ ls_accepted s ++ ls_child_closed s -> (c < ls_arrived s)%nat;
  lv_init : ls_initialized s = true;
  lv_closing : ls_closing s = true -> ls_accept_error s <> 0;
  lv_closed : ls_closed s = true -> ls_closing s = true
}.

(** The connection that arrives gets a fresh number. *)
Lemma fresh_snoc (l1 l2 : list nat) c :
  NoDup (l1 ++ l2) -> (forall x, x ∈ l1 ++ l2 -> (x < c)%nat) ->
  NoDup ((l1 ++ [c]) ++ l2) /\ NoDup (l1 ++ l2 ++ [c]).
Proof.
  intros Hnd Hf. assert (c ∉ l1 ++ l2) as Hc by (intros Hx; apply Hf in Hx; lia).
  assert (NoDup (c :: l1 ++ l2)) as Hn by (by apply NoDup_cons).
  split; (eapply NoDup_Permutation_proper; [|exact Hn]).
  - rewrite <- app_assoc. simpl. by rewrite <- Permutation_middle.
  - by rewrite app_assoc, <- Permutation_cons_append.
Qed.

Lemma on_connection_inv status a s s' resumed :
  listener_inv s -> on_connection status a s = Ok (s', resumed) -> listener_inv s'.
Proof.
  intros [I1 I2 I3 I4 I5 I6]. unfold on_connection. destruct (Z.ltb_spec status 0) as [Hn|Hn].
  { intros [= <- <-]. constructor; simpl; try done. intros _. lia. }
  assert (forall c, c ∈ ls_accepted s ++ ls_child_closed s -> (c < S (ls_arrived s))%nat) as I3' by (intros c Hc; apply I3 in Hc; lia).
  destruct (fresh_snoc _ _ _ I2 I3) as [F1 F2].
  destruct (Z.eqb_spec (if ca_init a =? 0 then ca_accept a else ca_init a) 0) as [Ez|Ez].
  - destruct (refresh_endpoints _ _); [|done|done]. intros [= <- <-]. constructor; simpl; try done.
    + by rewrite I1, app_assoc.
    + intros c. rewrite <- app_assoc, elem_of_app, elem_of_app, list_elem_of_singleton. intros [Hc|[->|Hc]]; [|lia|];
        apply I3'; rewrite elem_of_app; auto.
  - intros [= <- <-]. destruct (ca_init a =? 0); constructor; simpl; try done.
    intros c. rewrite !elem_of_app, list_elem_of_singleton. intros [Hc|[Hc| ->]]; [| |lia]; apply I3'; rewrite elem_of_app; auto.
Qed.

Lemma listener_event_inv ev s s' resumed : listener_inv s -> listener_event_step ev s = Some (s', resumed) -> listener_inv s'.
Proof.
  intros I. destruct ev as [status a| |]; simpl.
  - destruct (ls_open s); [|done]. destruct (on_connection status a s) as [[s1 r1]|e|] eqn:E; [|done|done]. intros [= <- <-].
    by eapply on_connection_inv.
  - unfold listener_close_on_loop. rewrite (lv_init _ I). simpl. destruct (ls_closing s); intros [= <- <-]; [done|].
    destruct I as [I1 I2 I3 I4 I5 I6]. by constructor.
  - destruct (_ && _) eqn:E; [|done]. apply andb_true_iff in E as [_ E]. intros [= <- <-]. destruct I as [I1 I2 I3 I4 I5 I6]. by constructor.
Qed.

Lemma accept_resume_inv f s : listener_inv s -> listener_inv (snd (accept_await_resume f s)).
Proof.
  intros I. unfold accept_await_resume. destruct f; [|done|done]. destruct (ls_pending s) as [|c rest] eqn:Ep; [by destruct (_ && _)|].
  destruct I as [I1 I2 I3 I4 I5 I6]. constructor; simpl; try done. by rewrite I1, Ep, <- app_assoc.
Qed.

Lemma accept_register_inv k s : listener_inv s -> listener_inv (snd (accept_register k s)).
Proof.
  intros I. unfold accept_register. destruct (_ || _ || _); [done|]. destruct (ls_accept_waiter s); [done|].
  destruct I as [I1 I2 I3 I4 I5 I6]. by constructor.
Qed.

Lemma listener_run_inv ls (w : @wait_state ListenerState unit nat) :
  wait_run ls (mkWait opened_listener []) = Some w -> listener_inv (ws_cell w).
Proof.
  apply (cell_stable_run listener_inv).
  - intros k rq rc s. simpl. destruct (rc =? 0); [apply accept_register_inv | done].
  - intros ev s s' resumed. apply listener_event_inv.
  - intros k rq f c s. apply accept_resume_inv.
  - constructor; simpl; try done; [apply NoDup_nil_2 | by intros c Hc%not_elem_of_nil].
Qed.

(** Connections are handed out once and in the order in which they arrived,
    in every interleaving of accepts and callbacks; an accept is suspended
    only on an open listener that has no connection and no error for it. *)
Theorem listener_accepts_in_order ls w :
  wait_run ls (mkWait opened_listener []) = Some w ->
  ls_accepted (ws_cell w) = ls_delivered (ws_cell w) ++ ls_pending (ws_cell w) /\
  NoDup (ls_accepted (ws_cell w)) /\
  (forall k, is_waiting w k ->
     ls_accept_waiter (ws_cell w) = Some k /\ ls_open (ws_cell w) = true /\ ls_pending (ws_cell w) = [] /\
     ls_accept_error (ws_cell w) = 0).
Proof.
  intros E. pose proof (listener_run_inv _ _ E) as I. split_and!; [apply I | |].
  { pose proof (lv_once _ I) as Hn. by apply NoDup_app in Hn as (Hn & _). }
  intros k Hk. apply (wait_run_inv ls) in E; [|apply exclusive_new; done]. apply (waiting_registered _ _ E) in Hk as [Hk Hr]. simpl in Hk, Hr.
  apply listener_ready_false in Hr as (R1 & R2 & R3 & R4 & R5).
  destruct (ls_accept_waiter (ws_cell w)) as [j|] eqn:Ew; [|by apply not_elem_of_nil in Hk].
  apply list_elem_of_singleton in Hk as ->. unfold ls_open. rewrite R1, R2, R3. by split_and!.
Qed.

(** For a caller that awaits each accept, an accept returns the next
    connection whenever there is one, and otherwise throws because libuv
    reported an error, or because the listener is closed. *)
Theorem accept_exact ls w k o w' :
  exclusive_run ls (mkWait opened_listener []) = Some w -> ws_ops w !! k = Some o -> op_pc o = Resuming NoFault ->
  wait_resume k w = Some w' ->
  exists r, ws_ops w' !! k = Some (set_pc (Finished r) o) /\
    match ls_pending (ws_cell w) with
    | c :: rest => r = Ok c /\ ls_pending (ws_cell w') = rest /\ ls_delivered (ws_cell w') = ls_delivered (ws_cell w) ++ [c]
    | [] => ls_accept_error (ws_cell w) <> 0 /\
            r = Throw (if ls_accept_error (ws_cell w) =? UV_ECANCELED then listener_closed_error
                       else throw_uv_error uv_strerror (ls_accept_error (ws_cell w)) "uv_listen/uv_accept"%bs)
    end.
Proof.
  intros Hx Hk Hpc. pose proof (listener_run_inv _ _ (exclusive_run_run _ _ _ Hx)) as I.
  apply exclusive_run_inv in Hx; [|by apply exclusive_new]. unfold wait_resume. rewrite Hk, Hpc.
  destruct (xi_resuming _ Hx _ _ _ Hk Hpc) as (_ & _ & Hready). specialize (Hready eq_refl). simpl in Hready.
  destruct (wc_resume _ _ _ _ _) as [r s] eqn:E. intros [= <-]. exists r. simpl.
  rewrite list_lookup_insert_eq by (by eapply lookup_lt_Some). split; [done|]. simpl in E.
  destruct (ls_pending (ws_cell w)) as [|c rest] eqn:Ep; [|by injection E as <- <-].
  assert (ls_accept_error (ws_cell w) <> 0) as He.
  { intros He. apply not_false_iff_true in Hready. apply Hready, listener_ready_false.
    assert (ls_closing (ws_cell w) = false) as Hcl by (apply not_true_iff_false; intros Hcl; by apply (lv_closing _ I) in Hcl).
    split_and!; try done; [apply I|]. apply not_true_iff_false. intros Hcd. apply (lv_closed _ I) in Hcd. congruence. }
  split; [done|]. replace (ls_accept_error (ws_cell w) =? 0) with false in E by lia. simpl in E.
  destruct (ls_accept_error (ws_cell w) =? UV_ECANCELED); by injection E as <- <-.
Qed.

(** An error of the listening socket is final.  [accept_error] is never
    reset: after one failed connection (too many open files, say) no accept
    ever waits again; without a queued connection each of them throws. *)
Theorem listener_error_is_final ls (w w' : @wait_state ListenerState unit nat) :
  ls_accept_error (ws_cell w) <> 0 -> wait_run ls w = Some w' ->
  ls_accept_error (ws_cell w') <> 0 /\ (forall k, accept_register k (ws_cell w') = (GoesOn NoFault, ws_cell w')).
Proof.
  intros He Hr. assert (ls_accept_error (ws_cell w') <> 0) as He'.
  { revert He Hr. apply (cell_stable_run (fun s => ls_accept_error s <> 0)).
    - intros k rq rc s Hs. simpl. destruct (rc =? 0); [|done]. unfold accept_register. by repeat case_match.
    - intros ev s s' resumed Hs. destruct ev as [status a| |]; simpl.
      + destruct (ls_open s); [|done]. unfold on_connection. destruct (Z.ltb_spec status 0); [intros [= <- <-]; simpl; lia|].
        destruct (Z.eqb_spec (if ca_init a =? 0 then ca_accept a else ca_init a) 0); [|by intros [= <- <-]].
        destruct (refresh_endpoints _ _); [|done|done]. by intros [= <- <-].
      + unfold listener_close_on_loop. destruct (negb _); [by intros [= <- <-]|]. destruct (ls_closing s); by intros [= <- <-].
      + destruct (_ && _); [|done]. by intros [= <- <-].
    - intros k rq f c s Hs. simpl. unfold accept_await_resume. by repeat case_match. }
  split; [done|]. intros k. unfold accept_register. replace (ls_accept_error (ws_cell w') =? 0) with false by lia.
  by rewrite !orb_true_r.
Qed.
End Listening.

(** ** Concrete environments *)

(** A network on which every name resolves to one address and every call
    succeeds, but the peer of a connection can no longer be asked for. *)
Definition gone_network : UvNet unit := {|
  un_errors := fun _ => "ENOTCONN"%bs;
  un_names := {| uv_inet_ntop _ _ := None |};
  uv_getaddrinfo _ _ _ e := (mkAnswer 0 0 [Some (SaInet [] 0)], e);
  uv_tcp_init e := (0, e);
  uv_tcp_connect _ e := (0, 0, e);
  uv_tcp_bind _ e := (0, e);
  uv_listen _ e := (0, e);
  uv_getsockname e := ((0, SaInet [] 0), e);
  uv_getpeername e := ((-107, SaInet [] 0), e)
|}.

(** The exception: a peer that is gone by the time its endpoint is read makes
    [connect] throw without closing the handle. *)
Theorem connect_leaks_handle :
  exists e n', connect (H := gone_network) "example.org"%bs 80 (mkNet tt [] []) = (Throw e, n') /\
    n_opened n' = [0%nat] /\ n_closed n' = [].
Proof. eexists _, _. split; [vm_compute; reflexivity | done]. Qed.

(** The same failure in [on_connection] throws out of a callback of libuv. *)
Theorem on_connection_throws `{UvErrors} `{UvNames} a s :
  ca_init a = 0 -> ca_accept a = 0 -> fst (ca_sock a) = 0 -> fst (ca_peer a) <> 0 ->
  exists e, on_connection 0 a s = Throw e.
Proof.
  intros H1 H2 H3 H4. unfold on_connection, refresh_endpoints, endpoint_from_uv_handle. simpl. rewrite H1, H2, H3. simpl.
  replace (fst (ca_peer a) =? 0) with false by lia. simpl. eauto.
Qed.

Definition good_connection : connection_answer := mkConnection 0 0 (0, SaOther 0) (0, SaOther 0).

Section Witnesses.
Context `{UvErrors} `{UvNames}.

(** Connections that are queued when the listener closes are neither handed
    out nor closed. *)
Theorem listener_close_leaks_pending :
  exists w : @wait_state ListenerState unit nat,
    wait_run [LEvent (LsConnection 0 good_connection); LEvent LsClose; LEvent LsOnClose] (mkWait opened_listener []) = Some w /\
    ls_pending (ws_cell w) = [0%nat] /\ ls_delivered (ws_cell w) = [] /\ ls_child_closed (ws_cell w) = [] /\
    ls_closed (ws_cell w) = true /\ ws_ops w = [] /\ wc_call tt (ws_cell w) = Some (Throw listener_closed_error).
Proof. eexists. split; [reflexivity | by split_and!]. Qed.
End Witnesses.

#[local] Instance plain_errors : UvErrors := fun _ => "error"%bs.
#[local] Instance plain_names : UvNames := {| uv_inet_ntop _ _ := None |}.

(** An accept that waits and is given the connection that arrives. *)
Definition accept_labels : list (@wait_label unit listener_event) :=
  [LCall tt false; LRegister 0 0; LEvent (LsConnection 0 good_connection)].
Definition accept_waiting : @wait_state ListenerState unit nat :=
  mkWait (mkListener true false false [] (Some 0%nat) 0 0 [] [] []) [mkOp tt false false Waiting].
Definition accept_woken : @wait_state ListenerState unit nat :=
  mkWait (mkListener true false false [0%nat] None 0 1 [0%nat] [] []) [mkOp tt false false (Resuming NoFault)].

Lemma listener_accepts_in_order_witness : ls_accept_waiter (ws_cell accept_waiting) = Some 0%nat.
Proof.
  refine (proj1 (proj2 (proj2 (listener_accepts_in_order (take 2 accept_labels) accept_waiting _)) 0%nat _)); [reflexivity|].
  eexists. split; reflexivity.
Defined.

Lemma accept_exact_witness : exists w', wait_resume 0 accept_woken = Some w' /\ ls_delivered (ws_cell w') = [0%nat].
Proof.
  eexists. split; [reflexivity|].
  destruct (accept_exact accept_labels accept_woken 0 (mkOp tt false false (Resuming NoFault)) _ eq_refl eq_refl eq_refl eq_refl)
    as (r & _ & _ & _ & Hd).
  exact Hd.
Defined.

Lemma listener_error_is_final_witness :
  exists w', wait_run [LEvent (LsConnection 0 good_connection); LCall tt false; LRegister 0 0; LResume 0]
    (mkWait (fail_accept (-24) opened_listener) []) = Some w' /\ ls_accept_error (ws_cell w') <> 0.
Proof.
  eexists. split; [reflexivity|].
  refine (proj1 (listener_error_is_final [LEvent (LsConnection 0 good_connection); LCall tt false; LRegister 0 0; LResume 0]
    (mkWait (fail_accept (-24) opened_listener) []) _ _ _)); [done | reflexivity].
Defined.
