(* ===== verification/NetUdp.v ===== *)
(** * UDP sockets (net.cpp, UdpSocket)

    [UdpState] is [UdpSocket::State].  [recv] and [recv_some] wait in two
    different slots of the state and share the queue of datagrams; both are
    operations of one instance of the waiting pattern of [NetWait.v].  A
    waiting [recv_some] is served directly: [recv_cb] copies the datagram into
    the caller's buffer and leaves the description in [recv_some_result].
    The model keeps track of what was copied into whose buffer, so that a
    result can be compared with the bytes the caller really has. *)

From S2P Require Import Prelude CxxString HttpUrl NetWait NetTcp NetListen.

Local Open Scope Z_scope.

(** ** Data *)

Record Datagram := mkDatagram { dg_peer : Endpoint; dg_payload : bytes; dg_flags : Z }.
Record DatagramInfo := mkInfo { di_peer : Endpoint; di_size : Z; di_flags : Z }.
Definition empty_endpoint : Endpoint := mkEndpoint [] 0.
Definition no_info : DatagramInfo := mkInfo empty_endpoint 0 0.

Definition UV_UDP_PARTIAL : Z := 2.
Definition truncated (flags : Z) : bool := negb (Z.land flags UV_UDP_PARTIAL =? 0).

Record UdpBindOptions := mkBindOptions {
  bo_ipv6_only : bool; bo_reuse_address : bool; bo_reuse_port : bool; bo_receive_errors : bool
}.
Definition UV_UDP_IPV6ONLY : Z := 1.
Definition UV_UDP_REUSEADDR : Z := 4.
Definition UV_UDP_REUSEPORT : Z := 64.
Definition UV_UDP_LINUX_RECVERR : Z := 32.
Definition udp_bind_flags (o : UdpBindOptions) : Z :=
  let flags := 0 in
  let flags := if bo_ipv6_only o then Z.lor flags UV_UDP_IPV6ONLY else flags in
  let flags := if bo_reuse_address o then Z.lor flags UV_UDP_REUSEADDR else flags in
  let flags := if bo_reuse_port o then Z.lor flags UV_UDP_REUSEPORT else flags in
  if bo_receive_errors o then Z.lor flags UV_UDP_LINUX_RECVERR else flags.

Record UdpState := mkUdp {
  ud_initialized : bool;
  ud_closing : bool;
  ud_closed : bool;
  ud_pending : list Datagram;
  ud_recv_waiter : option nat;
  ud_recv_some_waiter : option nat;
  ud_recv_some_capacity : Z;          (* with the buffer of [ud_recv_some_waiter] *)
  ud_recv_some_result : DatagramInfo;
  ud_recv_error : Z;
  ud_recv_started : bool;
  ud_peer : Endpoint;
  ud_copied : list (nat * bytes)      (* what [recv_cb] wrote into the buffers of operations *)
}.

Definition ud_open (s : UdpState) : bool := ud_initialized s && negb (ud_closing s) && negb (ud_closed s).

(** A socket that [bind] hands out. *)
Definition opened_udp : UdpState :=
  mkUdp true false false [] None None 0 no_info 0 false empty_endpoint [].

Definition set_waiters (r rs : option nat) (cap : Z) (s : UdpState) : UdpState :=
  mkUdp (ud_initialized s) (ud_closing s) (ud_closed s) (ud_pending s) r rs cap (ud_recv_some_result s) (ud_recv_error s)
    (ud_recv_started s) (ud_peer s) (ud_copied s).
Definition set_udp_error (e : Z) (s : UdpState) : UdpState :=
  mkUdp (ud_initialized s) (ud_closing s) (ud_closed s) (ud_pending s) (ud_recv_waiter s) (ud_recv_some_waiter s)
    (ud_recv_some_capacity s) (ud_recv_some_result s) e (ud_recv_started s) (ud_peer s) (ud_copied s).
Definition set_recv_started (b : bool) (s : UdpState) : UdpState :=
  mkUdp (ud_initialized s) (ud_closing s) (ud_closed s) (ud_pending s) (ud_recv_waiter s) (ud_recv_some_waiter s)
    (ud_recv_some_capacity s) (ud_recv_some_result s) (ud_recv_error s) b (ud_peer s) (ud_copied s).
Definition set_udp_closing (s : UdpState) : UdpState :=
  mkUdp (ud_initialized s) true (ud_closed s) (ud_pending s) (ud_recv_waiter s) (ud_recv_some_waiter s)
    (ud_recv_some_capacity s) (ud_recv_some_result s) (ud_recv_error s) (ud_recv_started s) (ud_peer s) (ud_copied s).
Definition set_udp_closed (s : UdpState) : UdpState :=
  mkUdp (ud_initialized s) (ud_closing s) true (ud_pending s) (ud_recv_waiter s) (ud_recv_some_waiter s)
    (ud_recv_some_capacity s) (ud_recv_some_result s) (ud_recv_error s) (ud_recv_started s) (ud_peer s) (ud_copied s).
Definition push_pending (d : Datagram) (s : UdpState) : UdpState :=
  mkUdp (ud_initialized s) (ud_closing s) (ud_closed s) (ud_pending s ++ [d]) (ud_recv_waiter s) (ud_recv_some_waiter s)
    (ud_recv_some_capacity s) (ud_recv_some_result s) (ud_recv_error s) (ud_recv_started s) (ud_peer s) (ud_copied s).
Definition pop_pending (rest : list Datagram) (s : UdpState) : UdpState :=
  mkUdp (ud_initialized s) (ud_closing s) (ud_closed s) rest (ud_recv_waiter s) (ud_recv_some_waiter s)
    (ud_recv_some_capacity s) (ud_recv_some_result s) (ud_recv_error s) (ud_recv_started s) (ud_peer s) (ud_copied s).
Definition set_result (i : DatagramInfo) (s : UdpState) : UdpState :=
  mkUdp (ud_initialized s) (ud_closing s) (ud_closed s) (ud_pending s) (ud_recv_waiter s) (ud_recv_some_waiter s)
    (ud_recv_some_capacity s) i (ud_recv_error s) (ud_recv_started s) (ud_peer s) (ud_copied s).
Definition copy_direct (k : nat) (data : bytes) (s : UdpState) : UdpState :=
  mkUdp (ud_initialized s) (ud_closing s) (ud_closed s) (ud_pending s) (ud_recv_waiter s) (ud_recv_some_waiter s)
    (ud_recv_some_capacity s) (ud_recv_some_result s) (ud_recv_error s) (ud_recv_started s) (ud_peer s)
    ((k, data) :: ud_copied s).

Definition set_peer (p : Endpoint) (s : UdpState) : UdpState :=
  mkUdp (ud_initialized s) (ud_closing s) (ud_closed s) (ud_pending s) (ud_recv_waiter s) (ud_recv_some_waiter s)
    (ud_recv_some_capacity s) (ud_recv_some_result s) (ud_recv_error s) (ud_recv_started s) p (ud_copied s).

(** [start_receiving_on_loop], with the return code of [uv_udp_recv_start]. *)
Definition start_receiving_on_loop (rc : Z) (s : UdpState) : Z * UdpState :=
  if negb (ud_open s) || ud_recv_started s || negb (ud_recv_error s =? 0) then (0, s)
  else if rc =? 0 then (rc, set_recv_started true s) else (rc, s).

Definition udp_waiters (s : UdpState) : list nat := waiter_list (ud_recv_waiter s) ++ waiter_list (ud_recv_some_waiter s).

Definition udp_close_on_loop (s : UdpState) : UdpState * list nat :=
  if negb (ud_initialized s) then (set_udp_closed s, [])
  else if ud_closing s then (s, [])
  else
    let resumed := udp_waiters s in
    let s := set_udp_closing s in
    let s := if ud_recv_started s then set_recv_started false s else s in
    let s := if bool_decide (ud_pending s = []) && (ud_recv_error s =? 0) then set_udp_error UV_ECANCELED s else s in
    (set_waiters None None 0 s, resumed).

Definition cancel_recv_waiter (k : nat) (s : UdpState) : UdpState * list nat :=
  if bool_decide (ud_recv_waiter s = Some k)
  then (set_waiters None (ud_recv_some_waiter s) (ud_recv_some_capacity s) s, [k])
  else (s, []).
Definition cancel_recv_some_waiter (k : nat) (s : UdpState) : UdpState * list nat :=
  if bool_decide (ud_recv_some_waiter s = Some k) then (set_waiters (ud_recv_waiter s) None 0 s, [k]) else (s, []).

(** The description of a datagram copied into a buffer of size [cap]. *)
Definition describe (cap : Z) (peer : Endpoint) (payload : bytes) (flags : Z) : DatagramInfo :=
  mkInfo peer (Z.min cap (size_of payload))
    (if cap <? size_of payload then Z.lor flags UV_UDP_PARTIAL else flags).

(** [recv_cb]; [addr] is the sender, if libuv gives it. *)
Definition recv_cb (nread : Z) (buf : bytes) (addr : option Endpoint) (flags : Z) (s : UdpState) : UdpState * list nat :=
  let peer := default (ud_peer s) addr in
  if 0 <? nread then
    let payload := take (Z.to_nat nread) buf in
    match ud_recv_some_waiter s with
    | Some k =>
        let cap := ud_recv_some_capacity s in
        let s1 := set_result (describe cap peer payload flags) (copy_direct k (take (Z.to_nat cap) payload) s) in
        (set_waiters None None 0 s1, waiter_list (ud_recv_waiter s) ++ [k])
    | None =>
        (set_waiters None None (ud_recv_some_capacity s) (push_pending (mkDatagram peer payload flags) s), waiter_list (ud_recv_waiter s))
    end
  else if nread <? 0 then
    (set_waiters None None 0 (set_recv_started false (set_udp_error nread s)), udp_waiters s)
  else (s, []).

(** ** Awaiters *)

Inductive udp_request := UdpRecv | UdpRecvSome (cap : Z).
Inductive udp_result :=
| Received (d : Datagram)
| ReceivedSome (i : DatagramInfo) (buffer : bytes).   (* with the bytes that are in the caller's buffer *)

(** [register_waiter] of [UdpRecvAwaiter] and of [UdpRecvSomeAwaiter]. *)
Definition udp_register (k : nat) (rq : udp_request) (rc : Z) (s : UdpState) : registered * UdpState :=
  if negb (bool_decide (ud_pending s = [])) || negb (ud_open s) || negb (ud_recv_error s =? 0) then (GoesOn NoFault, s)
  else
    let busy := match rq with
                | UdpRecv => bool_decide (ud_recv_waiter s <> None)
                | UdpRecvSome _ => bool_decide (ud_recv_waiter s <> None) || bool_decide (ud_recv_some_waiter s <> None)
                end in
    if busy then (GoesOn Concurrent, s)
    else
      let s0 := match rq with
                | UdpRecv => set_waiters (Some k) (ud_recv_some_waiter s) (ud_recv_some_capacity s) s
                | UdpRecvSome cap => set_waiters (ud_recv_waiter s) (Some k) cap s
                end in
      let '(rc, s1) := start_receiving_on_loop rc s0 in
      if negb (rc =? 0) then
        let s2 := match rq with
                  | UdpRecv => set_waiters None (ud_recv_some_waiter s1) (ud_recv_some_capacity s1) s1
                  | UdpRecvSome _ => set_waiters (ud_recv_waiter s1) None 0 s1
                  end in
        (GoesOn (SetupError rc), set_udp_error rc s2)
      else (Waits, s1).

Section Udp.
Context `{UvErrors}.

Definition udp_closed_error : exn := LogicError "corouv::net::UdpSocket is closed"%bs.
Definition concurrent_recv : exn := LogicError "corouv::net::UdpSocket does not support concurrent recv calls"%bs.
Definition recv_canceled : exn := SignalException "corouv::net::UdpSocket recv canceled"%bs.
Definition recv_some_canceled : exn := SignalException "corouv::net::UdpSocket recv_some canceled"%bs.

(** The end of both [await_resume] functions. *)
Definition recv_failed (s : UdpState) : exn :=
  if negb (ud_recv_error s =? 0) && negb (ud_recv_error s =? UV_ECANCELED)
  then throw_uv_error uv_strerror (ud_recv_error s) "uv_udp_recv"%bs
  else udp_closed_error.

(** [recv_some_result] counts as set if any field differs from its default. *)
Definition result_set (i : DatagramInfo) : bool :=
  (0 <? di_size i) || negb (di_flags i =? 0) || negb (bool_decide (ep_host (di_peer i) = [])) || negb (ep_port (di_peer i) =? 0).

(** What is in the buffer of operation [k]. *)
Fixpoint buffer_of (k : nat) (copied : list (nat * bytes)) : bytes :=
  match copied with [] => [] | (j, data) :: rest => if Nat.eqb j k then data else buffer_of k rest end.

Definition udp_await_resume (k : nat) (rq : udp_request) (f : fault) (canceled : bool) (s : UdpState)
    : result udp_result * UdpState :=
  match f with
  | Concurrent => (Throw concurrent_recv, s)
  | _ =>
      if canceled then (Throw (match rq with UdpRecv => recv_canceled | UdpRecvSome _ => recv_some_canceled end), s)
      else match f with
           | SetupError rc => (Throw (throw_uv_error uv_strerror rc "uv_udp_recv_start"%bs), s)
           | _ =>
               match rq with
               | UdpRecv =>
                   match ud_pending s with
                   | d :: rest => (Ok (Received d), pop_pending rest s)
                   | [] => (Throw (recv_failed s), s)
                   end
               | UdpRecvSome cap =>
                   match ud_pending s with
                   | d :: rest =>
                       (Ok (ReceivedSome (describe cap (dg_peer d) (dg_payload d) (dg_flags d))
                              (take (Z.to_nat (Z.min cap (size_of (dg_payload d)))) (dg_payload d))),
                        pop_pending rest s)
                   | [] =>
                       if result_set (ud_recv_some_result s)
                       then (Ok (ReceivedSome (ud_recv_some_result s) (buffer_of k (ud_copied s))), set_result no_info s)
                       else (Throw (recv_failed s), s)
                   end
               end
           end
  end.

(** [UdpCancel]: the posted call of [cancel_recv_waiter] or
    [cancel_recv_some_waiter] for operation [k], after its task was
    cancelled. *)
Inductive udp_event :=
| UdpDatagram (nread : Z) (buf : bytes) (addr : option Endpoint) (flags : Z)
| UdpClose
| UdpOnClose
| UdpCancel (k : nat)
| UdpCancelSome (k : nat).

Definition udp_event_step (ev : udp_event) (s : UdpState) : option (UdpState * list nat) :=
  match ev with
  | UdpDatagram nread buf addr flags =>
      if ud_recv_started s && (nread <=? size_of buf) then Some (recv_cb nread buf addr flags s) else None
  | UdpClose => Some (udp_close_on_loop s)
  | UdpOnClose => if ud_initialized s && ud_closing s then Some (set_udp_closed s, []) else None
  | UdpCancel k => Some (cancel_recv_waiter k s)
  | UdpCancelSome k => Some (cancel_recv_some_waiter k s)
  end.

Definition udp_ready (s : UdpState) : bool :=
  negb (bool_decide (ud_pending s = [])) || negb (ud_open s) || negb (ud_recv_error s =? 0).

#[export] Instance udp_cell : WaitCell UdpState udp_request udp_event udp_result := {
  wc_waiters := udp_waiters;
  wc_ready := udp_ready;
  wc_call _ s := if negb (ud_open s) then Some (Throw udp_closed_error) else None;
  wc_register := udp_register;
  wc_event := udp_event_step;
  wc_resume := udp_await_resume
}.

(** *** The laws of the pattern *)

(** Somebody waits only while the socket is receiving. *)
Definition udp_inv (s : UdpState) : Prop := udp_waiters s <> [] -> ud_recv_started s = true.

Lemma udp_ready_false s :
  udp_ready s = false <->
  ud_pending s = [] /\ ud_initialized s = true /\ ud_closing s = false /\ ud_closed s = false /\ ud_recv_error s = 0.
Proof.
  unfold udp_ready, ud_open. rewrite !orb_false_iff, !negb_false_iff, !andb_true_iff, !negb_true_iff, bool_decide_eq_true, Z.eqb_eq.
  tauto.
Qed.

Lemma udp_waits s : (udp_waiters s <> [] -> udp_ready s = false) -> udp_waiters s = [] \/ udp_ready s = false.
Proof. destruct (udp_waiters s); [by left | right; auto]. Qed.

(** A state that differs from [s] in the waiters only. *)
Lemma udp_ready_waiters r rs cap s : udp_ready (set_waiters r rs cap s) = udp_ready s.
Proof. done. Qed.

Lemma start_receiving_spec rc s rc' s' :
  udp_ready s = false -> start_receiving_on_loop rc s = (rc', s') ->
  udp_ready s' = false /\ udp_waiters s' = udp_waiters s /\ ud_pending s' = ud_pending s /\ ud_peer s' = ud_peer s /\
  ud_recv_some_waiter s' = ud_recv_some_waiter s /\ ud_recv_waiter s' = ud_recv_waiter s /\
  (rc' = 0 -> ud_recv_started s' = true) /\ (rc' <> 0 -> ud_recv_started s = false).
Proof.
  intros Hr. pose proof Hr as (R1 & R2 & R3 & R4 & R5)%udp_ready_false. unfold start_receiving_on_loop, ud_open. rewrite R2, R3, R4, R5. simpl.
  destruct (ud_recv_started s) eqn:Es; simpl; [by intros [= <- <-]|].
  destruct (Z.eqb_spec rc 0) as [->|Hne]; intros [= <- <-]; by split_and!.
Qed.

Lemma udp_register_ok k rq rc s o s' :
  udp_inv s -> k ∉ udp_waiters s -> (udp_waiters s <> [] -> udp_ready s = false) -> udp_register k rq rc s = (o, s') ->
  udp_inv s' /\
  match o with
  | Waits => udp_waiters s' ≡ₚ k :: udp_waiters s /\ udp_ready s' = false
  | GoesOn _ => udp_waiters s' ≡ₚ udp_waiters s /\ (udp_waiters s' <> [] -> udp_ready s' = false)
  end.
Proof.
  intros I Hk Hw. unfold udp_register. fold (udp_ready s). destruct (udp_ready s) eqn:Er; [intros [= <- <-]; split_and!; auto; by rewrite Er|].
  destruct (match rq with UdpRecv => _ | UdpRecvSome _ => _ end) eqn:Eb; [intros [= <- <-]; split_and!; auto|].
  destruct (start_receiving_on_loop rc _) as [rc' s1] eqn:Es.
  apply start_receiving_spec in Es as (S1 & S2 & S3 & S4 & S5 & S6 & S7 & S8); [|by destruct rq].
  pose proof (proj1 (udp_ready_false _) S1) as (P1 & _). pose proof (proj1 (udp_ready_false _) Er) as (P2 & _).
  assert (udp_waiters s1 ≡ₚ k :: udp_waiters s) as Hp.
  { rewrite S2. unfold udp_waiters. destruct rq; simpl in *.
    - apply bool_decide_eq_false, dec_stable in Eb. by rewrite Eb.
    - apply orb_false_iff in Eb as [E1 E2]. apply bool_decide_eq_false, dec_stable in E1, E2. by rewrite E1, E2. }
  destruct (Z.eqb_spec rc' 0) as [E0|E0]; simpl; intros [= <- <-].
  - split; [|done]. intros _. by apply S7.
  - assert (ud_recv_started s = false) as Hns by (specialize (S8 E0); by destruct rq).
    assert (udp_waiters s = []) as Hnil.
    { destruct (udp_waiters s) eqn:El; [done|]. rewrite I in Hns; [done | by rewrite El]. }
    apply app_eq_nil in Hnil as [N1 N2].
    assert (udp_waiters (set_udp_error rc' match rq with
      | UdpRecv => set_waiters None (ud_recv_some_waiter s1) (ud_recv_some_capacity s1) s1
      | UdpRecvSome _ => set_waiters (ud_recv_waiter s1) None 0 s1 end) = []) as Hz.
    { unfold udp_waiters. destruct rq; simpl; rewrite ?S5, ?S6; simpl; by rewrite ?N1, ?N2. }
    rewrite Hz. unfold udp_waiters. rewrite N1, N2. split_and!; try done. unfold udp_inv. by rewrite Hz.
Qed.

Lemma recv_cb_ok nread buf addr flags s s' resumed :
  udp_inv s -> (udp_waiters s <> [] -> udp_ready s = false) -> recv_cb nread buf addr flags s = (s', resumed) ->
  udp_inv s' /\ udp_waiters s ≡ₚ resumed ++ udp_waiters s' /\ (udp_waiters s' <> [] -> udp_ready s' = false).
Proof.
  intros I Hw. unfold recv_cb. destruct (0 <? nread).
  - destruct (ud_recv_some_waiter s) as [k|] eqn:Ek; intros [= <- <-]; unfold udp_inv, udp_waiters; simpl; rewrite Ek; simpl; rewrite ?app_nil_r; by split_and!.
  - destruct (nread <? 0); intros [= <- <-]; [|done]. rewrite app_nil_r. unfold udp_inv. by split_and!.
Qed.

Lemma udp_close_ok s s' resumed :
  udp_inv s -> (udp_waiters s <> [] -> udp_ready s = false) -> udp_close_on_loop s = (s', resumed) ->
  udp_inv s' /\ udp_waiters s ≡ₚ resumed ++ udp_waiters s' /\ (udp_waiters s' <> [] -> udp_ready s' = false).
Proof.
  intros I Hw. unfold udp_close_on_loop. destruct (ud_initialized s) eqn:Ei; simpl.
  - destruct (ud_closing s); [by intros [= <- <-]|]. intros [= <- <-]. simpl. unfold udp_waiters at 2. simpl. rewrite app_nil_r.
    unfold udp_inv. by split_and!.
  - intros [= <- <-]. split_and!; [done | done |]. apply udp_waits in Hw as [Hw|Hw].
    + by change (udp_waiters (set_udp_closed s)) with (udp_waiters s); rewrite Hw.
    + apply udp_ready_false in Hw as (_ & ? & _). congruence.
Qed.

Lemma cancel_ok k s s' resumed :
  udp_inv s -> (udp_waiters s <> [] -> udp_ready s = false) ->
  cancel_recv_waiter k s = (s', resumed) \/ cancel_recv_some_waiter k s = (s', resumed) ->
  udp_inv s' /\ udp_waiters s ≡ₚ resumed ++ udp_waiters s' /\ (udp_waiters s' <> [] -> udp_ready s' = false).
Proof.
  intros I Hw. unfold udp_inv in *.
  unfold cancel_recv_waiter, cancel_recv_some_waiter. intros [E|E]; case_bool_decide as Ek; injection E as <- <-; try done;
    unfold udp_waiters in *; simpl in *; rewrite Ek in *; simpl in *; rewrite ?app_nil_r in *.
  - split_and!; [|done|]; intros _; [by apply I | by apply Hw].
  - split_and!; [intros _; apply I; by destruct (ud_recv_waiter s) | symmetry; apply Permutation_cons_append|].
    intros _. apply Hw. by destruct (ud_recv_waiter s).
Qed.

Lemma udp_resume_ok k rq f canceled s r s' :
  udp_inv s -> (udp_waiters s <> [] -> udp_ready s = false) -> udp_await_resume k rq f canceled s = (r, s') ->
  udp_inv s' /\ udp_waiters s' ≡ₚ udp_waiters s /\ (udp_waiters s' <> [] -> udp_ready s' = false).
Proof.
  intros I Hw. assert (forall d rest, ud_pending s = d :: rest ->
    udp_inv (pop_pending rest s) /\ udp_waiters (pop_pending rest s) ≡ₚ udp_waiters s /\
    (udp_waiters (pop_pending rest s) <> [] -> udp_ready (pop_pending rest s) = false)) as Hpop.
  { intros d rest Ep. split_and!; [done|done|].
    change (udp_waiters (pop_pending rest s)) with (udp_waiters s). intros Hn. apply Hw in Hn.
      apply udp_ready_false in Hn as (? & _). congruence. }
  unfold udp_await_resume. repeat (case_match; try (intros [= <- <-]; split_and!; done)); intros [= <- <-]; try (by eapply Hpop).
Qed.

#[export] Instance udp_cell_laws : WaitCellLaws UdpState udp_request udp_event udp_result.
Proof.
  refine {| wc_inv := udp_inv |}; simpl.
  - apply udp_register_ok.
  - intros ev s s' resumed I Hw. destruct ev as [nread buf addr flags| | |k|k]; simpl.
    + destruct (_ && _); [|done]. intros [= E]. by eapply recv_cb_ok.
    + intros [= E]. by eapply udp_close_ok.
    + destruct (_ && _) eqn:E; [|done]. apply andb_true_iff in E as [_ E]. intros [= <- <-].
      split_and!; [done | done |]. apply udp_waits in Hw as [Hw|Hw].
      * by change (udp_waiters (set_udp_closed s)) with (udp_waiters s); rewrite Hw.
      * apply udp_ready_false in Hw as (_ & _ & ? & _). congruence.
    + intros [= E]. eapply cancel_ok; [done | done | by left].
    + intros [= E]. eapply cancel_ok; [done | done | by right].
  - apply udp_resume_ok.
Defined.

(** *** What arrives and what is returned *)

(** The datagrams [recv_cb] is called with on a socket connected to [peer].
    libuv reports both an empty datagram and a read that would block as
    [nread = 0]; they are not among them (see [udp_empty_datagram_lost]). *)
Definition arrival (peer : Endpoint) (l : @wait_label udp_request udp_event) : list Datagram :=
  match l with
  | LEvent (UdpDatagram nread buf addr flags) =>
      if 0 <? nread then [mkDatagram (default peer addr) (take (Z.to_nat nread) buf) flags] else []
  | _ => []
  end.

(** What the receive that a step completes returns to its caller. *)
Definition step_returns (l : @wait_label udp_request udp_event) (w' : @wait_state UdpState udp_request udp_result) : list udp_result :=
  match l with
  | LResume k =>
      match ws_ops w' !! k with
      | Some o => match op_pc o with Finished (Ok r) => [r] | _ => [] end
      | None => []
      end
  | _ => []
  end.
Fixpoint run_returns (ls : list wait_label) (w : @wait_state UdpState udp_request udp_result) : list udp_result :=
  match ls with
  | [] => []
  | l :: ls => match wait_step l w with Some w' => step_returns l w' ++ run_returns ls w' | None => [] end
  end.

(** Only [recv] is called. *)
Definition recv_only (ls : list (@wait_label udp_request udp_event)) : Prop :=
  Forall (fun l => match l with LCall (UdpRecvSome _) _ => False | _ => True end) ls.

Record recv_state (peer : Endpoint) (w : @wait_state UdpState udp_request udp_result) : Prop := {
  rs_peer : ud_peer (ws_cell w) = peer;
  rs_none : ud_recv_some_waiter (ws_cell w) = None;
  rs_ops k o : ws_ops w !! k = Some o -> op_req o = UdpRecv
}.

Lemma recv_state_insert peer w s k o pc :
  recv_state peer w -> ws_ops w !! k = Some o -> ud_peer s = peer -> ud_recv_some_waiter s = None ->
  recv_state peer (mkWait s (<[k := set_pc pc o]> (ws_ops w))).
Proof.
  intros [H1 H2 H3] Hk Hp Hn. constructor; [done | done |]. intros j u. simpl. destruct (decide (j = k)) as [->|Hne].
  - rewrite list_lookup_insert_eq by (by eapply lookup_lt_Some). intros [= <-]. simpl. by eapply H3.
  - rewrite list_lookup_insert_ne by done. apply H3.
Qed.

Lemma recv_register_keeps k rc s o s' :
  udp_register k UdpRecv rc s = (o, s') -> ud_recv_some_waiter s = None ->
  ud_peer s' = ud_peer s /\ ud_pending s' = ud_pending s /\ ud_recv_some_waiter s' = None.
Proof.
  unfold udp_register. fold (udp_ready s). destruct (udp_ready s) eqn:Er; [by intros [= _ <-]|].
  destruct (bool_decide (ud_recv_waiter s <> None)); [by intros [= _ <-]|].
  destruct (start_receiving_on_loop _ _) as [rc' s1] eqn:Es. apply start_receiving_spec in Es as (S1 & S2 & S3 & S4 & S5 & _); [|done].
  simpl in S3, S4, S5. destruct (negb (rc' =? 0)); intros [= _ <-] Hn; simpl; rewrite ?S3, ?S4, ?S5, ?Hn; done.
Qed.

(** One step: what arrives goes behind what is queued, what is returned is
    taken off its front. *)
Lemma recv_step peer l w w' :
  (match l with LCall (UdpRecvSome _) _ => False | _ => True end) -> recv_state peer w -> wait_step l w = Some w' ->
  recv_state peer w' /\
  map Received (ud_pending (ws_cell w) ++ arrival peer l) = step_returns l w' ++ map Received (ud_pending (ws_cell w')).
Proof.
  intros Hl I. pose proof I as [I1 I2 I3]. destruct l as [rq slot|k rc|k|ev|k]; simpl.
  - intros [= <-]. rewrite app_nil_r. split; [|done]. constructor; [done | done |]. intros j o. simpl. rewrite lookup_app.
    destruct (ws_ops w !! j) as [u|] eqn:E; [intros [= <-]; by eapply I3|].
    intros Ho. apply list_lookup_singleton_Some in Ho as [_ <-]. simpl. by destruct rq.
  - rewrite app_nil_r. unfold wait_register. destruct (ws_ops w !! k) as [o|] eqn:Hk; [|done]. destruct (op_pc o); try done.
    destruct (op_canceled o); [intros [= <-]; split; [by apply recv_state_insert | done]|]. rewrite (I3 k o Hk). simpl.
    destruct (udp_register k UdpRecv rc (ws_cell w)) as [r s] eqn:E. apply recv_register_keeps in E as (E1 & E2 & E3); [|done].
    destruct r; intros [= <-]; (split; [apply recv_state_insert; congruence | simpl; by rewrite E2]).
  - rewrite app_nil_r. unfold wait_resume. destruct (ws_ops w !! k) as [o|] eqn:Hk; [|done]. destruct (op_pc o) as [| |f|]; try done.
    rewrite (I3 k o Hk). destruct (wc_resume _ _ _ _ _) as [r s] eqn:E. intros [= <-]. simpl.
    rewrite list_lookup_insert_eq by (by eapply lookup_lt_Some). simpl. simpl in E. unfold udp_await_resume in E.
    assert (match r with
            | Ok x => exists d rest, ud_pending (ws_cell w) = d :: rest /\ x = Received d /\ s = pop_pending rest (ws_cell w)
            | _ => s = ws_cell w end) as Hr.
    { clear -E. repeat (case_match; simplify_eq/=; eauto). }
    destruct r as [x|e|]; [|subst s; split; [by apply recv_state_insert | done]..].
    destruct Hr as (d & rest & Hp & -> & ->). split; [by apply recv_state_insert | by rewrite Hp].
  - unfold wait_event. simpl. destruct (udp_event_step ev (ws_cell w)) as [[s resumed]|] eqn:E; [|done]. intros [= <-]. simpl.
    assert (ud_peer s = peer /\ ud_recv_some_waiter s = None /\ ud_pending s = ud_pending (ws_cell w) ++ arrival peer (LEvent ev)) as (S1 & S2 & S3).
    { destruct ev as [nread buf addr flags| | |j|j]; simpl in E |- *; rewrite ?app_nil_r.
      - destruct (_ && _); [|done]. unfold recv_cb in E. rewrite I2, I1 in E.
        destruct (0 <? nread); [by injection E as <- _|]. rewrite app_nil_r. destruct (nread <? 0); by injection E as <- _.
      - unfold udp_close_on_loop in E. repeat (case_match; simplify_eq/=; try done).
      - repeat (case_match; simplify_eq/=; try done).
      - unfold cancel_recv_waiter in E. repeat (case_match; simplify_eq/=; try done).
      - unfold cancel_recv_some_waiter in E. repeat (case_match; simplify_eq/=; try done). }
    split; [|by rewrite S3]. constructor; [done | done |]. intros k o. simpl. rewrite resume_op_lookup.
    destruct (decide _); [|apply I3]. intros (u & Hu & ->)%fmap_Some. simpl. by eapply I3.
  - rewrite app_nil_r. unfold wait_signal. destruct (ws_ops w !! k) as [o|] eqn:Hk; [|done]. destruct (op_slot o); [|done]. intros [= <-].
    split; [|done]. constructor; [done | done |]. intros j u. simpl. destruct (decide (j = k)) as [->|Hne].
    + rewrite list_lookup_insert_eq by (by eapply lookup_lt_Some). intros [= <-]. simpl. by eapply I3.
    + rewrite list_lookup_insert_ne by done. apply I3.
Qed.

Lemma recv_run peer ls : forall w w', recv_only ls -> recv_state peer w -> wait_run ls w = Some w' ->
  map Received (ud_pending (ws_cell w) ++ flat_map (arrival peer) ls) = run_returns ls w ++ map Received (ud_pending (ws_cell w')).
Proof.
  induction ls as [|l ls IH]; intros w w' Hl I; simpl; [intros [= <-]; by rewrite app_nil_r|].
  apply Forall_cons in Hl as [Hl Hls]. destruct (wait_step l w) as [w1|] eqn:E; [|done]. intros Hr.
  destruct (recv_step peer l w w1 Hl I E) as [I1 Heq].
  rewrite app_assoc, map_app, Heq, <- !app_assoc, <- map_app. f_equal. by eapply IH.
Qed.


#[local] Arguments describe : simpl never.
#[local] Arguments result_set : simpl never.

(** [recv_some] gives the same result whether its datagram was queued or
    arrives while it waits: the sender, the number of bytes copied, the
    truncation flag exactly if the buffer was too small, and these bytes in
    the caller's buffer. *)
Theorem udp_recv_some_exact k cap s nread buf addr flags :
  0 <= cap -> 0 < nread <= size_of buf -> udp_ready s = false -> udp_waiters s = [] -> ud_recv_some_result s = no_info ->
  let payload := take (Z.to_nat nread) buf in
  let peer := default (ud_peer s) addr in
  let got := ReceivedSome (describe cap peer payload flags) (take (Z.to_nat (Z.min cap nread)) payload) in
  (exists s1 s2 s3,
     udp_register k (UdpRecvSome cap) 0 s = (Waits, s1) /\
     udp_event_step (UdpDatagram nread buf addr flags) s1 = Some (s2, [k]) /\
     udp_await_resume k (UdpRecvSome cap) NoFault false s2 = (Ok got, s3) /\
     ud_recv_some_result s3 = no_info /\ udp_waiters s3 = [] /\ ud_pending s3 = []) /\
  (exists s4, udp_await_resume k (UdpRecvSome cap) NoFault false (push_pending (mkDatagram peer payload flags) s) = (Ok got, s4)).
Proof.
  intros Hcap Hn Hr Hw Hres payload peer got. pose proof Hr as (R1 & R2 & R3 & R4 & R5)%udp_ready_false.
  apply app_eq_nil in Hw as [W1 W2].
  assert (ud_recv_waiter s = None) as W1' by (by destruct (ud_recv_waiter s)).
  assert (ud_recv_some_waiter s = None) as W2' by (by destruct (ud_recv_some_waiter s)).
  assert (size_of payload = nread) as Hp by (apply size_of_take; lia).
  assert (take (Z.to_nat cap) payload = take (Z.to_nat (Z.min cap nread)) payload) as Ht.
  { unfold size_of in Hp. destruct (Z.le_ge_cases cap nread); [by rewrite Z.min_l|]. rewrite Z.min_r by lia. rewrite !take_ge by lia. done. }
  split.
  - unfold udp_register. fold (udp_ready s). rewrite Hr, W1', W2'. simpl.
    destruct (start_receiving_on_loop 0 _) as [rc s1] eqn:Es. assert (rc = 0) as ->.
    { unfold start_receiving_on_loop in Es. destruct (_ || _); [by injection Es|]. simpl in Es. by injection Es. }
    pose proof Es as (S1 & _ & _ & _ & S5 & S6 & S7 & _)%start_receiving_spec; [|done].
    assert (ud_recv_some_capacity s1 = cap /\ ud_peer s1 = ud_peer s) as [Hc Hpe].
    { unfold start_receiving_on_loop in Es. destruct (_ || _); [by injection Es as <-|]. by injection Es as <-. }
    simpl in S5, S6. simpl. eexists s1, _, _. split; [done|]. rewrite S7 by done. replace (nread <=? size_of buf) with true by lia. simpl.
    unfold recv_cb. replace (0 <? nread) with true by lia. rewrite S5, S6, Hc, Hpe. simpl. split; [reflexivity|].
    apply udp_ready_false in S1 as (P1 & _). simpl. rewrite P1. simpl. fold payload.
    assert (result_set (describe cap (default (ud_peer s) addr) payload flags) = true) as ->.
    { unfold result_set, describe. simpl. rewrite Hp. destruct (Z.ltb_spec cap nread) as [Hlt|Hge]; [|by replace (0 <? _) with true by lia].
      replace (Z.lor flags UV_UDP_PARTIAL =? 0) with false; [by rewrite orb_true_r|]. symmetry. apply Z.eqb_neq. intros Hz.
      apply (f_equal (fun z => Z.testbit z 1)) in Hz. rewrite Z.lor_spec, Z.bits_0 in Hz. simpl in Hz. by rewrite orb_true_r in Hz. }
    rewrite Nat.eqb_refl, Ht. by split_and!.
  - eexists. unfold udp_await_resume. simpl. rewrite R1. simpl. by rewrite Hp.
Qed.
End Udp.

(** ** Sending, connecting, binding *)

(** libuv, as these functions see it. *)
Class UvUdp (E : Type) := {
  uu_net :: UvNet E;
  uu_scheduled : E -> bool;      (* the loop takes the call *)
  uv_udp_init : E -> Z * E;
  uv_udp_bind : sockaddr -> Z -> E -> Z * E;
  uv_udp_connect : sockaddr -> E -> Z * E;
  uv_udp_try_send : bytes -> option sockaddr -> E -> Z * E;
  uv_udp_send : bytes -> option sockaddr -> E -> Z * Z * E   (* return code, status *)
}.

Section Socket.
Context {E : Type} `{UvUdp E}.

(** [LoopCallAwaiter] *)
Definition loop_call (fn : E -> Z * E) (e : E) : Z * E :=
  if uu_scheduled e then fn e else (UV_ECANCELED, e).

Definition resolve_udp (host : option bytes) (port : Z) (passive : bool) (n : net E) : result (list sockaddr) * net E :=
  let '(a, e) := uv_getaddrinfo host (to_string port) (mkHints false passive) (n_env n) in
  (addr_resume a, with_env e n).

(** [SendOp::start_on_loop], to its completion. *)
Definition udp_send_start (s : UdpState) (buffer : bytes) (address : option sockaddr) (e : E) : result Z * E :=
  let error rc := Throw (throw_uv_error uv_strerror rc "uv_udp_send"%bs) in
  if negb (ud_open s) then (error UV_ECANCELED, e)
  else
    let '(rc, e) := uv_udp_try_send buffer address e in
    if 0 <=? rc then (Ok rc, e)
    else if negb (write_would_block rc) then (error rc, e)
    else
      let '(send_rc, status, e) := uv_udp_send buffer address e in
      if negb (send_rc =? 0) then (error send_rc, e)
      else if negb (status =? 0) then (error status, e)
      else (Ok (size_of buffer), e).

(** [UdpSendAwaiter]: an empty buffer does not suspend. *)
Definition udp_send_awaiter (s : UdpState) (buffer : bytes) (address : option sockaddr) (e : E) : result Z * E :=
  if bool_decide (buffer = []) then (Ok (size_of buffer), e)
  else if negb (uu_scheduled e) then (Throw (throw_uv_error uv_strerror UV_ECANCELED "uv_udp_send"%bs), e)
  else udp_send_start s buffer address e.

Definition send_requires_connected : exn := LogicError "corouv::net::UdpSocket::send requires a connected socket"%bs.

Definition udp_send (s : UdpState) (buffer : bytes) (e : E) : result Z * E :=
  if negb (ud_open s) then (Throw udp_closed_error, e)
  else if bool_decide (ep_host (ud_peer s) = []) then (Throw send_requires_connected, e)
  else udp_send_awaiter s buffer None e.

Definition udp_send_to (s : UdpState) (buffer : bytes) (endpoint : Endpoint) (n : net E) : result Z * net E :=
  if negb (ud_open s) then (Throw udp_closed_error, n)
  else
    match resolve_udp (optional_host (ep_host endpoint)) (ep_port endpoint) false n with
    | (Ok addresses, n) => let '(r, e) := udp_send_awaiter s buffer (head addresses) (n_env n) in (r, with_env e n)
    | (Throw ex, n) => (Throw ex, n)
    | (OutOfFuel, n) => (OutOfFuel, n)
    end.

(** [refresh_peer_endpoint]: no peer is not an error. *)
Definition refresh_peer_endpoint (answer : Z * sockaddr) (s : UdpState) : UdpState :=
  set_peer (if fst answer =? 0 then endpoint_from_sockaddr (snd answer) else empty_endpoint) s.

Fixpoint udp_connect_loop (addresses : list sockaddr) (last_error : option Z) (s : UdpState) (n : net E)
    : result unit * UdpState * net E :=
  match addresses with
  | [] => (Throw (throw_uv_error uv_strerror (default UV_EINVAL last_error) "uv_udp_connect"%bs), s, n)
  | address :: rest =>
      let '(rc, e) := loop_call (uv_udp_connect address) (n_env n) in
      if rc =? 0 then
        let '(sock, e) := uv_getsockname e in
        match endpoint_from_uv_handle sock with
        | Ok _ => let '(peer, e) := uv_getpeername e in (Ok tt, refresh_peer_endpoint peer s, with_env e n)
        | Throw ex => (Throw ex, s, with_env e n)
        | OutOfFuel => (OutOfFuel, s, with_env e n)
        end
      else udp_connect_loop rest (Some rc) s (with_env e n)
  end.
Definition udp_connect (host : bytes) (port : Z) (s : UdpState) (n : net E) : result unit * UdpState * net E :=
  if negb (ud_open s) then (Throw udp_closed_error, s, n)
  else
    match resolve_udp (optional_host host) port false n with
    | (Ok addresses, n) => udp_connect_loop addresses None s n
    | (Throw ex, n) => (Throw ex, s, n)
    | (OutOfFuel, n) => (OutOfFuel, s, n)
    end.

Definition scheduled_init (e : E) : Z * E := loop_call uv_udp_init e.

Fixpoint udp_bind_loop (addresses : list sockaddr) (options : UdpBindOptions) (last_error : option Z) (n : net E)
    : result (nat * Endpoint * UdpState) * net E :=
  match addresses with
  | [] => (Throw (throw_uv_error uv_strerror (default UV_EINVAL last_error) "uv_udp_bind"%bs), n)
  | address :: rest =>
      let '(init_rc, h, n) := init_with scheduled_init n in
      if negb (init_rc =? 0) then udp_bind_loop rest options (Some init_rc) n
      else
        let '(bind_rc, e) := loop_call (uv_udp_bind address (udp_bind_flags options)) (n_env n) in
        if bind_rc =? 0 then
          let '(sock, e) := uv_getsockname e in
          match endpoint_from_uv_handle sock with
          | Ok local =>
              let '(peer, e) := uv_getpeername e in
              (Ok (h, local, refresh_peer_endpoint peer opened_udp), with_env e n)
          | Throw ex => (Throw ex, with_env e n)
          | OutOfFuel => (OutOfFuel, with_env e n)
          end
        else udp_bind_loop rest options (Some bind_rc) (close_handle true h (with_env e n))
  end.
Definition udp_bind (host : bytes) (port : Z) (options : UdpBindOptions) (n : net E)
    : result (nat * Endpoint * UdpState) * net E :=
  match resolve_udp (optional_host host) port true n with
  | (Ok addresses, n) => udp_bind_loop addresses options None n
  | (Throw ex, n) => (Throw ex, n)
  | (OutOfFuel, n) => (OutOfFuel, n)
  end.

(** The options: nothing happens on a socket that is not open; they must run
    on the loop thread; [rc] is libuv's answer, [call] the name it is
    reported under. *)
Definition udp_option (name call : bytes) (on_loop : bool) (rc : Z) (s : option UdpState) : result unit :=
  match s with
  | Some s =>
      if negb (ud_open s) then Ok tt
      else if negb on_loop then Throw (LogicError ("corouv::net::UdpSocket::"%bs ++ name ++ " must run on the loop thread"%bs))
      else if negb (rc =? 0) then Throw (throw_uv_error uv_strerror rc call)
      else Ok tt
  | None => Ok tt
  end.
Definition set_broadcast := udp_option "set_broadcast"%bs "uv_udp_set_broadcast"%bs.
Definition set_ttl := udp_option "set_ttl"%bs "uv_udp_set_ttl"%bs.
Definition set_multicast_loop := udp_option "set_multicast_loop"%bs "uv_udp_set_multicast_loop"%bs.
Definition set_multicast_ttl := udp_option "set_multicast_ttl"%bs "uv_udp_set_multicast_ttl"%bs.
Definition set_multicast_interface := udp_option "set_multicast_interface"%bs "uv_udp_set_multicast_interface"%bs.
Definition join_multicast := udp_option "join_multicast"%bs "uv_udp_set_membership(join)"%bs.
Definition leave_multicast := udp_option "leave_multicast"%bs "uv_udp_set_membership(leave)"%bs.
Definition join_multicast_source := udp_option "join_multicast_source"%bs "uv_udp_set_source_membership(join)"%bs.
Definition leave_multicast_source := udp_option "leave_multicast_source"%bs "uv_udp_set_source_membership(leave)"%bs.

Lemma udp_bind_loop_leaves addresses options last n r n' :
  udp_bind_loop addresses options last n = (r, n') -> leaves (fun x => fst (fst x)) r n n'.
Proof.
  revert last n. induction addresses as [|a rest IH]; intros last n; cbn [udp_bind_loop].
  - intros [= <- <-]. left. exists []. apply (grows_env n (n_env n)).
  - destruct (init_with scheduled_init n) as [[rc h] n1] eqn:Ei. apply init_with_grows in Ei.
    destruct (Z.eqb_spec rc 0) as [->|Hne]; simpl.
    + destruct (loop_call _ _) as [bind_rc e1]. destruct (bind_rc =? 0).
      * destruct (uv_getsockname e1) as [sock e2]. pose proof (endpoint_not_fuel sock) as Hnf.
        destruct (endpoint_from_uv_handle sock) as [l|ex|] eqn:Er; [| |done].
        -- destruct (uv_getpeername e2) as [peer e3]. intros [= <- <-]. exists [h]. by apply grows_same.
        -- intros [= <- <-]. right. split; [by eapply endpoint_from_uv_handle_throws|]. exists [h], h. by apply grows_same.
      * intros Hl. eapply leaves_after; [|by eapply IH]. by apply (grows_close n (with_env e1 n1)).
    + intros Hl. eapply leaves_after; [exact Ei | by eapply IH].
Qed.

(** [bind] leaves no handle behind, with the same exception as [connect] and
    [listen]. *)
Theorem udp_bind_handles host port options n :
  leaves (fun x => fst (fst x)) (fst (udp_bind host port options n)) n (snd (udp_bind host port options n)).
Proof.
  unfold udp_bind. destruct (resolve_udp _ _ _ n) as [ra n2] eqn:Er. unfold resolve_udp in Er.
  destruct (uv_getaddrinfo _ _ _ _) as [a e]. injection Er as Ea <-. destruct ra as [addresses|ex|]; simpl.
  - destruct (udp_bind_loop addresses options None (with_env e n)) as [r n2] eqn:Eg. eapply leaves_after; [apply grows_env|].
    by eapply udp_bind_loop_leaves.
  - left. exists []. apply grows_env.
  - unfold addr_resume in Ea. repeat (case_match; try done).
Qed.
End Socket.

(** ** Behaviours *)

Section Behaviours.
Context `{UvErrors}.

(** Empty datagrams do not exist for the socket: [send] of an empty buffer
    returns without a call of libuv, and an empty datagram that arrives
    ([nread = 0] with a sender) is dropped; a waiting call goes on waiting. *)
Theorem udp_empty_datagram_lost {E} `{UvUdp E} s buf addr flags address e :
  udp_send_awaiter s [] address e = (Ok 0, e) /\ recv_cb 0 buf addr flags s = (s, []).
Proof. done. Qed.

Definition peer1 : Endpoint := mkEndpoint "10.0.0.1"%bs 9.

(** [recv] does not notice a waiting [recv_some].  The next datagram goes to
    [recv_some]; [recv] is resumed as well, finds nothing and reports that
    the socket, which is open, is closed. *)
Theorem udp_recv_beside_recv_some :
  exists w : @wait_state UdpState udp_request udp_result,
    wait_run [LCall (UdpRecvSome 4) false; LRegister 0 0; LCall UdpRecv false; LRegister 1 0;
              LEvent (UdpDatagram 2 "hi"%bs (Some peer1) 0); LResume 1; LResume 0] (mkWait opened_udp []) = Some w /\
    map op_pc (ws_ops w) =
      [Finished (Ok (ReceivedSome (mkInfo peer1 2 0) "hi"%bs)); Finished (Throw udp_closed_error)] /\
    ud_open (ws_cell w) = true.
Proof. eexists. split_and!; vm_compute; reflexivity. Qed.

(** A result can be someone else's.  A datagram is copied to a waiting
    [recv_some], whose task is cancelled before it resumes: it throws, and
    its result stays in the state.  A later [recv_some] that is woken by an
    error returns that result: two bytes, of which its buffer has none. *)
Theorem udp_stale_result :
  exists w : @wait_state UdpState udp_request udp_result,
    wait_run [LCall (UdpRecvSome 4) true; LRegister 0 0; LEvent (UdpDatagram 2 "hi"%bs (Some peer1) 0); LSignal 0; LResume 0;
              LCall (UdpRecvSome 4) false; LRegister 1 0; LEvent (UdpDatagram (-111) [] None 0); LResume 1]
      (mkWait opened_udp []) = Some w /\
    map op_pc (ws_ops w) =
      [Finished (Throw recv_some_canceled); Finished (Ok (ReceivedSome (mkInfo peer1 2 0) []))].
Proof. eexists. split; vm_compute; reflexivity. Qed.

(** [recv_some] looks at the queue before its own result.  Two datagrams
    arrive before a waiting [recv_some] is resumed: the first is copied into
    its buffer, the second is queued, and the call takes the second off the
    queue, over the first, which is lost.  The description of the first stays
    in the state, and the next [recv_some] that is woken by an error returns
    it, with nothing in its buffer. *)
Theorem udp_recv_some_loses_datagram :
  exists w : @wait_state UdpState udp_request udp_result,
    exclusive_run [LCall (UdpRecvSome 4) false; LRegister 0 0; LEvent (UdpDatagram 2 "hi"%bs (Some peer1) 0);
                   LEvent (UdpDatagram 3 "you"%bs (Some peer1) 0); LResume 0;
                   LCall (UdpRecvSome 4) false; LRegister 1 0; LEvent (UdpDatagram (-111) [] None 0); LResume 1]
      (mkWait opened_udp []) = Some w /\
    map op_pc (ws_ops w) =
      [Finished (Ok (ReceivedSome (mkInfo peer1 3 0) "you"%bs)); Finished (Ok (ReceivedSome (mkInfo peer1 2 0) []))].
Proof. eexists. split; vm_compute; reflexivity. Qed.
End Behaviours.

#[local] Instance plain_uv_errors : UvErrors := fun _ => "error"%bs.

(** Two datagrams arrive; one is received, one is queued. *)
Definition udp_labels : list (@wait_label udp_request udp_event) :=
  [LCall UdpRecv true; LRegister 0 0; LEvent (UdpDatagram 2 "hi"%bs (Some peer1) 0); LEvent (UdpDatagram 3 "you"%bs (Some peer1) 0); LResume 0].
Definition udp_received_state : @wait_state UdpState udp_request udp_result :=
  mkWait (mkUdp true false false [mkDatagram peer1 "you"%bs 0] None None 0 no_info 0 true peer1 [])
    [mkOp UdpRecv true false (Finished (Ok (Received (mkDatagram peer1 "hi"%bs 0))))].


Lemma udp_recv_some_exact_witness :
  exists s4, udp_await_resume 0 (UdpRecvSome 2) NoFault false
    (push_pending (mkDatagram peer1 "hello"%bs 0) opened_udp) = (Ok (ReceivedSome (mkInfo peer1 2 2) "he"%bs), s4).
Proof.
  refine (proj2 (udp_recv_some_exact 0 2 opened_udp 5 "hello"%bs (Some peer1) 0 _ _ _ _ _)); [lia | | reflexivity | reflexivity | reflexivity].
  split; vm_compute; [reflexivity | discriminate].
Defined.
