(* ===== verification/Transport.v ===== *)
(** * Codec streams (transport.cpp, transport.h)

    [CodecStream] puts a codec (TLS, or nothing) between a TCP stream and its
    client.  [MemoryCodec] is the interface of the codecs as a class;
    [PassthroughCodec] and the two BearSSL codecs are instances, the engine of
    BearSSL being an interface of its own.  The coroutines of [CodecStream]
    are state-passing functions over the codec, the backlog and the stream
    below, which is any [ByteStream].

    The theorems: whatever the codec answers, the ciphertext it is fed is
    what the stream delivered, in order and once, and what goes out is what
    it produced ([codec_stream_faithful]); with the passthrough codec a
    [CodecStream] is again a reliable byte stream, so that the HTTP theorems
    hold over it. *)

From S2P Require Import Prelude Coroutine CxxString HttpHeaders Stream.

Local Open Scope Z_scope.
Local Open Scope co_scope.

(** ** MemoryCodec *)

(** [mc_read_plaintext] and [mc_read_ciphertext] return the bytes they put
    into the given buffer, the others the number of bytes they accept. *)
Class MemoryCodec (C : Type) := {
  mc_start_client : C -> result unit * C;
  mc_start_server : C -> result unit * C;
  mc_handshake_complete : C -> bool;
  mc_wants_input : C -> bool;
  mc_has_pending : C -> bool;                 (* has_pending_ciphertext *)
  mc_plaintext_eof : C -> bool;
  mc_handshake_timeout : C -> option Z;
  mc_write_plaintext : bytes -> C -> result Z * C;
  mc_feed_ciphertext : bytes -> C -> result Z * C;
  mc_read_plaintext : Z -> C -> result bytes * C;
  mc_read_ciphertext : Z -> C -> result bytes * C;
  mc_start_close : C -> result unit * C
}.

(** What a codec promises about ciphertext: it accepts a prefix of what it is
    offered and produces at most what there is room for; no other operation
    touches what it has accepted ([mc_fed]) and produced ([mc_emitted]). *)
Class CodecLaws (C : Type) `{MemoryCodec C} := {
  mc_fed : C -> bytes;
  mc_emitted : C -> bytes;
  mc_feed_ok : forall data c r c', mc_feed_ciphertext data c = (r, c') ->
    mc_emitted c' = mc_emitted c /\
    match r with
    | Ok n => 0 <= n <= size_of data /\ mc_fed c' = mc_fed c ++ take (Z.to_nat n) data
    | Throw _ => exists n, mc_fed c' = mc_fed c ++ take n data
    | OutOfFuel => False
    end;
  mc_drain_ok : forall cap c r c', 0 <= cap -> mc_read_ciphertext cap c = (r, c') ->
    mc_fed c' = mc_fed c /\
    match r with
    | Ok d => size_of d <= cap /\ mc_emitted c' = mc_emitted c ++ d
    | Throw _ => exists d, mc_emitted c' = mc_emitted c ++ d
    | OutOfFuel => False
    end;
  mc_plain_ok : forall data c, 
    (let '(r, c') := mc_write_plaintext data c in mc_fed c' = mc_fed c /\ mc_emitted c' = mc_emitted c /\ r <> OutOfFuel /\
       (forall n, r = Ok n -> 0 <= n <= size_of data)) /\
    (forall cap, let '(r, c') := mc_read_plaintext cap c in mc_fed c' = mc_fed c /\ mc_emitted c' = mc_emitted c /\ r <> OutOfFuel);
  mc_control_ok : forall c,
    (let '(r, c') := mc_start_client c in mc_fed c' = mc_fed c /\ mc_emitted c' = mc_emitted c /\ r <> OutOfFuel) /\
    (let '(r, c') := mc_start_server c in mc_fed c' = mc_fed c /\ mc_emitted c' = mc_emitted c /\ r <> OutOfFuel) /\
    (let '(r, c') := mc_start_close c in mc_fed c' = mc_fed c /\ mc_emitted c' = mc_emitted c /\ r <> OutOfFuel)
}.

(** ** CodecStream *)

(** The clock, and [TcpStream::shutdown_write]. *)
Class StreamEnv (S : Type) := {
  se_now : S -> Z;                (* [steady_clock::now()], in nanoseconds *)
  se_shutdown_write : S -> S
}.

Record CodecStream (S C : Type) := mkCodec {
  cs_stream : S;
  cs_codec : C;
  cs_backlog : bytes;             (* _ciphertext_backlog *)
  cs_offset : Z                   (* _ciphertext_backlog_offset *)
}.
Arguments mkCodec {S C} _ _ _ _.
Arguments cs_stream {S C} _.
Arguments cs_codec {S C} _.
Arguments cs_backlog {S C} _.
Arguments cs_offset {S C} _.

Definition SCRATCH : Z := 4096.
Definition handshake_stalled : exn := RuntimeError "corouv::transport handshake stalled"%bs.
Definition handshake_timeout : exn := RuntimeError "corouv::transport handshake timeout"%bs.
Definition handshake_eof : exn := RuntimeError "corouv::transport handshake hit eof"%bs.
Definition codec_closed : exn := LogicError "corouv::transport::CodecStream is closed"%bs.
Definition backlog_stalled : exn := RuntimeError "corouv::transport::CodecStream ciphertext backlog stalled"%bs.
Definition write_on_closed : exn := RuntimeError "corouv::transport::CodecStream write on closed TLS session"%bs.
Definition codec_write_stalled : exn := RuntimeError "corouv::transport::CodecStream write stalled"%bs.
Definition write_backlog_stalled : exn := RuntimeError "corouv::transport::CodecStream write backlog stalled"%bs.
Definition write_hit_eof : exn := RuntimeError "corouv::transport::CodecStream write hit eof"%bs.
Definition codec_read_exceeded : exn := RuntimeError "corouv::transport::CodecStream read_until_eof exceeded max_bytes"%bs.

Section CodecStream.
Context {S C : Type} `{ByteStream S} `{StreamEnv S} `{MemoryCodec C}.

Notation stream := (CodecStream S C).

Definition on_codec {A} (f : C -> result A * C) : Co stream A := fun s =>
  let '(r, c) := f (cs_codec s) in (r, mkCodec (cs_stream s) c (cs_backlog s) (cs_offset s)).
Definition on_stream {A} (f : S -> result A * S) : Co stream A := fun s =>
  let '(r, t) := f (cs_stream s) in (r, mkCodec t (cs_codec s) (cs_backlog s) (cs_offset s)).
Definition put_backlog (b : bytes) (o : Z) : Co stream unit := fun s => (Ok tt, mkCodec (cs_stream s) (cs_codec s) b o).

Definition new_codec_stream (t : S) (c : C) : stream := mkCodec t c [] 0.
Definition codec_is_open (s : stream) : bool := bs_is_open (cs_stream s).

Definition has_ciphertext_backlog (s : stream) : bool := cs_offset s <? size_of (cs_backlog s).
Definition backlog_view (s : stream) : bytes := drop (Z.to_nat (cs_offset s)) (cs_backlog s).

Definition compact_ciphertext_backlog : Co stream unit := fun s =>
  if cs_offset s =? 0 then (Ok tt, s)
  else if size_of (cs_backlog s) <=? cs_offset s then put_backlog [] 0 s
  else put_backlog (backlog_view s) 0 s.

(** The loop of [feed_ciphertext_backlog]; every iteration but the last
    advances, so that the length of the backlog is enough fuel. *)
Fixpoint feed_backlog_loop (fuel : nat) : Co stream unit :=
  match fuel with
  | O => co_fuel
  | Datatypes.S fuel =>
      co_if has_ciphertext_backlog
        (pending <- co_get backlog_view;;
         consumed <- on_codec (mc_feed_ciphertext pending);;
         if consumed =? 0 then co_ret tt
         else (fun s => put_backlog (cs_backlog s) (cs_offset s + consumed) s);;; feed_backlog_loop fuel)
        (co_ret tt)
  end.
Definition feed_ciphertext_backlog : Co stream unit := fun s =>
  (feed_backlog_loop (Datatypes.S (length (cs_backlog s)));;; compact_ciphertext_backlog) s.

(** The loop of [feed_ciphertext_bytes], on the bytes that are left. *)
Fixpoint feed_bytes_loop (fuel : nat) (data : bytes) : Co stream unit :=
  match fuel with
  | O => co_fuel
  | Datatypes.S fuel =>
      if decide (data = []) then co_ret tt
      else
        consumed <- on_codec (mc_feed_ciphertext data);;
        if consumed =? 0 then put_backlog data 0
        else feed_bytes_loop fuel (drop (Z.to_nat consumed) data)
  end.
Definition feed_ciphertext_bytes (data : bytes) : Co stream unit :=
  if decide (data = []) then co_ret tt
  else co_if has_ciphertext_backlog
    ((fun s => put_backlog (cs_backlog s ++ data) (cs_offset s) s);;; feed_ciphertext_backlog)
    (feed_bytes_loop (Datatypes.S (length data)) data).

Fixpoint flush_ciphertext (fuel : nat) : Co stream unit :=
  match fuel with
  | O => co_fuel
  | Datatypes.S fuel =>
      co_if (fun s => mc_has_pending (cs_codec s))
        (d <- on_codec (mc_read_ciphertext SCRATCH);;
         if decide (d = []) then co_ret tt
         else on_stream (bs_send_all d);;; flush_ciphertext fuel)
        (co_ret tt)
  end.

(** The read of [run_handshake], within the deadline. *)
Definition handshake_read (deadline : option Z) : Co stream bytes :=
  match deadline with
  | None => on_stream (bs_recv_some SCRATCH)
  | Some d =>
      now <- co_get (fun s => se_now (cs_stream s));;
      if d <=? now then co_throw handshake_timeout
      else
        let remaining := let ms := Z.quot (d - now) 1000000 in if ms <=? 0 then 1 else ms in
        co_if (fun s => bs_recv_expires remaining (cs_stream s)) (co_throw handshake_timeout) (on_stream (bs_recv_some SCRATCH))
  end.

(** [ffuel]: for each call of [flush_ciphertext]. *)
Fixpoint handshake_loop (ffuel fuel : nat) (deadline : option Z) : Co stream unit :=
  match fuel with
  | O => co_fuel
  | Datatypes.S fuel =>
      co_if (fun s => mc_handshake_complete (cs_codec s)) (co_ret tt)
        (flush_ciphertext ffuel;;; feed_ciphertext_backlog;;;
         co_if (fun s => mc_handshake_complete (cs_codec s)) (co_ret tt)
           (co_if (fun s => mc_wants_input (cs_codec s))
              (d <- handshake_read deadline;;
               if decide (d = []) then co_throw handshake_eof
               else feed_ciphertext_bytes d;;; handshake_loop ffuel fuel deadline)
              (co_if (fun s => mc_has_pending (cs_codec s)) (handshake_loop ffuel fuel deadline) (co_throw handshake_stalled))))
  end.

Definition run_handshake (ffuel fuel : nat) (client : bool) : Co stream unit :=
  (if client then on_codec mc_start_client else on_codec mc_start_server);;;
  deadline <- co_get (fun s => (fun ms => se_now (cs_stream s) + ms * 1000000) <$> mc_handshake_timeout (cs_codec s));;
  handshake_loop ffuel fuel deadline;;;
  flush_ciphertext ffuel;;; feed_ciphertext_backlog.
Definition handshake_client (ffuel fuel : nat) : Co stream unit := run_handshake ffuel fuel true.
Definition handshake_server (ffuel fuel : nat) : Co stream unit := run_handshake ffuel fuel false.

Definition close_notify (ffuel : nat) : Co stream unit :=
  co_if codec_is_open
    (on_codec mc_start_close;;; flush_ciphertext ffuel;;; on_stream (fun t => (Ok tt, se_shutdown_write t)))
    (co_ret tt).

(** What the codec has for a buffer of [cap] bytes: bytes, the end, or
    nothing yet. *)
Definition codec_ready (cap : Z) (otherwise : Co stream bytes) : Co stream bytes :=
  d <- on_codec (mc_read_plaintext cap);;
  if decide (d = []) then co_if (fun s => mc_plaintext_eof (cs_codec s)) (co_ret []) otherwise else co_ret d.

Fixpoint codec_read_loop (ffuel fuel : nat) (cap : Z) : Co stream bytes :=
  match fuel with
  | O => co_fuel
  | Datatypes.S fuel =>
      flush_ciphertext ffuel;;; feed_ciphertext_backlog;;;
      codec_ready cap
        (co_if has_ciphertext_backlog (co_throw backlog_stalled)
           (d <- on_stream (bs_recv_some SCRATCH);;
            if decide (d = []) then co_ret []
            else feed_ciphertext_bytes d;;; codec_ready cap (codec_read_loop ffuel fuel cap)))
  end.

Definition codec_read_some (ffuel fuel : nat) (cap : Z) : Co stream bytes :=
  co_if codec_is_open
    (if cap =? 0 then co_ret []
     else feed_ciphertext_backlog;;; codec_ready cap (codec_read_loop ffuel fuel cap))
    (co_throw codec_closed).

(** The loop of [write_all], on the bytes that are left. *)
Fixpoint codec_write_loop (ffuel fuel : nat) (data : bytes) : Co stream unit :=
  match fuel with
  | O => co_fuel
  | Datatypes.S fuel =>
      if decide (data = []) then co_ret tt
      else
        feed_ciphertext_backlog;;;
        consumed <- on_codec (mc_write_plaintext data);;
        let data := drop (Z.to_nat consumed) data in
        flush_ciphertext ffuel;;; feed_ciphertext_backlog;;;
        if decide (data = []) then co_ret tt
        else
          co_if (fun s => mc_plaintext_eof (cs_codec s)) (co_throw write_on_closed)
            (co_if (fun s => mc_wants_input (cs_codec s))
               (co_if has_ciphertext_backlog (co_throw write_backlog_stalled)
                  (d <- on_stream (bs_recv_some SCRATCH);;
                   if decide (d = []) then co_throw write_hit_eof
                   else feed_ciphertext_bytes d;;; codec_write_loop ffuel fuel data))
               (co_if (fun s => mc_has_pending (cs_codec s)) (codec_write_loop ffuel fuel data) (co_throw codec_write_stalled)))
  end.

Definition codec_write_all (ffuel fuel : nat) (data : bytes) : Co stream unit :=
  co_if codec_is_open (codec_write_loop ffuel fuel data;;; flush_ciphertext ffuel) (co_throw codec_closed).

Fixpoint codec_read_until_eof (ffuel rfuel fuel : nat) (max_bytes : Z) (out : bytes) : Co stream bytes :=
  match fuel with
  | O => co_fuel
  | Datatypes.S fuel =>
      d <- codec_read_some ffuel rfuel SCRATCH;;
      if decide (d = []) then co_ret out
      else if max_bytes <? sz_add (size_of out) (size_of d) then co_throw codec_read_exceeded
      else codec_read_until_eof ffuel rfuel fuel max_bytes (out ++ d)
  end.

Definition codec_shutdown_write (s : stream) : stream := mkCodec (se_shutdown_write (cs_stream s)) (cs_codec s) (cs_backlog s) (cs_offset s).
Definition codec_close (s : stream) : stream := mkCodec (bs_close (cs_stream s)) (cs_codec s) (cs_backlog s) (cs_offset s).
End CodecStream.

(** ** PassthroughCodec *)

Definition copy_and_erase (cap : Z) (buffer : bytes) : bytes * bytes :=
  let count := Z.min (size_of buffer) cap in (take (Z.to_nat count) buffer, drop (Z.to_nat count) buffer).

(** [pc_fed] and [pc_emitted] record all the ciphertext that went through. *)
Record PassthroughCodec := mkPass { pc_incoming : bytes; pc_outgoing : bytes; pc_fed : bytes; pc_emitted : bytes }.
Definition make_passthrough_codec : PassthroughCodec := mkPass [] [] [] [].

Definition pass_write_plaintext (data : bytes) (c : PassthroughCodec) : result Z * PassthroughCodec :=
  (Ok (size_of data), mkPass (pc_incoming c) (pc_outgoing c ++ data) (pc_fed c) (pc_emitted c)).
Definition pass_feed_ciphertext (data : bytes) (c : PassthroughCodec) : result Z * PassthroughCodec :=
  (Ok (size_of data), mkPass (pc_incoming c ++ data) (pc_outgoing c) (pc_fed c ++ data) (pc_emitted c)).
Definition pass_read_plaintext (cap : Z) (c : PassthroughCodec) : result bytes * PassthroughCodec :=
  let '(d, rest) := copy_and_erase cap (pc_incoming c) in (Ok d, mkPass rest (pc_outgoing c) (pc_fed c) (pc_emitted c)).
Definition pass_read_ciphertext (cap : Z) (c : PassthroughCodec) : result bytes * PassthroughCodec :=
  let '(d, rest) := copy_and_erase cap (pc_outgoing c) in (Ok d, mkPass (pc_incoming c) rest (pc_fed c) (pc_emitted c ++ d)).

#[export] Instance passthrough : MemoryCodec PassthroughCodec := {
  mc_start_client c := (Ok tt, c);
  mc_start_server c := (Ok tt, c);
  mc_handshake_complete _ := true;
  mc_wants_input _ := false;
  mc_has_pending c := negb (bool_decide (pc_outgoing c = []));
  mc_plaintext_eof _ := false;
  mc_handshake_timeout _ := None;
  mc_write_plaintext := pass_write_plaintext;
  mc_feed_ciphertext := pass_feed_ciphertext;
  mc_read_plaintext := pass_read_plaintext;
  mc_read_ciphertext := pass_read_ciphertext;
  mc_start_close c := (Ok tt, c)
}.

(** ** The BearSSL codecs

    [Engine] is the engine of BearSSL: its state flags, its error, and the
    four buffers.  A pair of [..._buf] and [..._ack] is one operation here:
    the length of the buffer ([0] for a null pointer), and the copy of bytes
    together with their acknowledgement. *)

Definition BR_SSL_CLOSED : Z := 1.
Definition BR_SSL_SENDREC : Z := 2.
Definition BR_SSL_RECVREC : Z := 4.
Definition BR_SSL_SENDAPP : Z := 8.
Definition BR_SSL_RECVAPP : Z := 16.

Class Engine (E : Type) := {
  br_current_state : E -> Z;
  br_last_error : E -> Z;
  br_sendapp_len : E -> Z;
  br_sendapp_ack : bytes -> E -> E;
  br_flush : E -> E;
  br_recvrec_len : E -> Z;
  br_recvrec_ack : bytes -> E -> E;
  br_recvapp_buf : E -> bytes;
  br_recvapp_ack : Z -> E -> E;
  br_sendrec_buf : E -> bytes;
  br_sendrec_ack : Z -> E -> E;
  br_close : E -> E;
  br_reset : E -> bool * E           (* br_ssl_client_reset, br_ssl_server_reset *)
}.

(** [client]: BearSslClientCodec or BearSslServerCodec. *)
Record BearSslCodec (E : Type) := mkBear {
  bear_client : bool;
  bear_engine : E;
  bear_timeout : option Z;
  bear_fed : bytes;
  bear_emitted : bytes
}.
Arguments mkBear {E} _ _ _ _ _.
Arguments bear_client {E} _.
Arguments bear_engine {E} _.
Arguments bear_timeout {E} _.
Arguments bear_fed {E} _.
Arguments bear_emitted {E} _.

Definition throw_tls_error (what : bytes) (err : Z) : exn :=
  RuntimeError (if err =? 0 then what else what ++ ": BearSSL error "%bs ++ to_string err).
Definition server_as_client : exn := LogicError "server TLS codec cannot start as client"%bs.
Definition client_as_server : exn := LogicError "client TLS codec cannot start as server"%bs.

Section BearSsl.
Context {E : Type} `{Engine E}.

Definition bear_state (flag : Z) (c : BearSslCodec E) : bool := negb (Z.land (br_current_state (bear_engine c)) flag =? 0).
Definition set_engine (e : E) (c : BearSslCodec E) : BearSslCodec E := mkBear (bear_client c) e (bear_timeout c) (bear_fed c) (bear_emitted c).

Definition ensure_ok : Co (BearSslCodec E) unit := fun c =>
  let err := br_last_error (bear_engine c) in
  if err =? 0 then (Ok tt, c) else (Throw (throw_tls_error "BearSSL engine failed"%bs err), c).

Definition bear_write_plaintext (data : bytes) : Co (BearSslCodec E) Z :=
  ensure_ok;;; fun c =>
    let len := br_sendapp_len (bear_engine c) in
    if negb (bear_state BR_SSL_SENDAPP c) || (len <=? 0) then (Ok 0, c)
    else
      let copied := Z.min (size_of data) len in
      (Ok copied, set_engine (br_flush (br_sendapp_ack (take (Z.to_nat copied) data) (bear_engine c))) c).

Definition bear_feed_ciphertext (data : bytes) : Co (BearSslCodec E) Z :=
  ensure_ok;;; fun c =>
    let len := br_recvrec_len (bear_engine c) in
    if negb (bear_state BR_SSL_RECVREC c) || (len <=? 0) then (Ok 0, c)
    else
      let copied := Z.min (size_of data) len in
      let d := take (Z.to_nat copied) data in
      (ensure_ok;;; co_ret copied)
        (mkBear (bear_client c) (br_recvrec_ack d (bear_engine c)) (bear_timeout c) (bear_fed c ++ d) (bear_emitted c)).

Definition bear_read_plaintext (cap : Z) : Co (BearSslCodec E) bytes :=
  ensure_ok;;; fun c =>
    let buf := br_recvapp_buf (bear_engine c) in
    if negb (bear_state BR_SSL_RECVAPP c) || bool_decide (buf = []) then (Ok [], c)
    else
      let copied := Z.min cap (size_of buf) in
      (Ok (take (Z.to_nat copied) buf), set_engine (br_recvapp_ack copied (bear_engine c)) c).

Definition bear_read_ciphertext (cap : Z) : Co (BearSslCodec E) bytes :=
  ensure_ok;;; fun c =>
    let buf := br_sendrec_buf (bear_engine c) in
    if negb (bear_state BR_SSL_SENDREC c) || bool_decide (buf = []) then (Ok [], c)
    else
      let copied := Z.min cap (size_of buf) in
      let d := take (Z.to_nat copied) buf in
      (ensure_ok;;; co_ret d)
        (mkBear (bear_client c) (br_sendrec_ack copied (bear_engine c)) (bear_timeout c) (bear_fed c) (bear_emitted c ++ d)).

Definition bear_start_close : Co (BearSslCodec E) unit :=
  ensure_ok;;; (fun c => (Ok tt, set_engine (br_close (bear_engine c)) c));;; ensure_ok.

Definition bear_reset (failed : bytes) : Co (BearSslCodec E) unit := fun c =>
  let '(ok, e) := br_reset (bear_engine c) in
  ((if ok then Ok tt else Throw (throw_tls_error failed 0)), set_engine e c).
Definition bear_start_client : Co (BearSslCodec E) unit := fun c =>
  if bear_client c then bear_reset "br_ssl_client_reset failed"%bs c else (Throw server_as_client, c).
Definition bear_start_server : Co (BearSslCodec E) unit := fun c =>
  if bear_client c then (Throw client_as_server, c) else bear_reset "br_ssl_server_reset failed"%bs c.

#[export] Instance bear_codec : MemoryCodec (BearSslCodec E) := {
  mc_start_client := bear_start_client;
  mc_start_server := bear_start_server;
  mc_handshake_complete c := bear_state (Z.lor BR_SSL_SENDAPP BR_SSL_RECVAPP) c;
  mc_wants_input c := bear_state BR_SSL_RECVREC c;
  mc_has_pending c := bear_state BR_SSL_SENDREC c;
  mc_plaintext_eof c := bear_state BR_SSL_CLOSED c;
  mc_handshake_timeout := bear_timeout;
  mc_write_plaintext := bear_write_plaintext;
  mc_feed_ciphertext := bear_feed_ciphertext;
  mc_read_plaintext := bear_read_plaintext;
  mc_read_ciphertext := bear_read_ciphertext;
  mc_start_close := bear_start_close
}.
End BearSsl.

(** ** The codecs keep the contract *)

#[export] Instance passthrough_laws : CodecLaws PassthroughCodec.
Proof.
  refine {| mc_fed := pc_fed; mc_emitted := pc_emitted |}; simpl.
  - intros data c r c' [= <- <-]. simpl. split; [done|]. pose proof (size_of_nonneg data). split; [lia|].
    by rewrite take_ge by (unfold size_of; lia).
  - intros cap c r c' Hcap [= <- <-]. simpl. split; [done|]. split; [|done]. pose proof (size_of_nonneg (pc_outgoing c)). rewrite size_of_take; lia.
  - intros data c. split; [|intros cap; simpl; done]. simpl. split_and!; try done. intros n [= <-]. pose proof (size_of_nonneg data). lia.
  - done.
Defined.

Section BearLaws.
Context {E : Type} `{Engine E}.

Lemma ensure_ok_inv (c : BearSslCodec E) r c' : ensure_ok c = (r, c') -> c' = c /\ r <> OutOfFuel.
Proof. unfold ensure_ok. destruct (_ =? 0); by intros [= <- <-]. Qed.

(** Every operation of the BearSSL codec starts with [ensure_ok]. *)
Lemma ensured {A} (f : BearSslCodec E -> result A * BearSslCodec E) c r c' :
  (ensure_ok;;; f) c = (r, c') -> f c = (r, c') \/ (exists e, r = Throw e) /\ c' = c.
Proof.
  intros Hc. apply co_bind_inv in Hc as [([] & z & Hz & Hf)|[(e & Hz & ->)|[Hz ->]]]; apply ensure_ok_inv in Hz as [-> Hz]; eauto. done.
Qed.

#[export] Instance bear_laws : CodecLaws (BearSslCodec E).
Proof.
  refine {| mc_fed := bear_fed; mc_emitted := bear_emitted |}; simpl.
  - intros data c r c' Hc. apply ensured in Hc as [Hc|[[e ->] ->]]; [|split; [done | exists 0%nat; by rewrite app_nil_r]].
    pose proof (size_of_nonneg data). cbv zeta in Hc. destruct (_ || _) eqn:Eb.
    + injection Hc as <- <-. split; [done|]. split; [lia|]. by rewrite app_nil_r.
    + apply orb_false_elim in Eb as [_ Eb]. apply co_bind_inv in Hc as [([] & z & Hz & Hf)|[(e & Hz & ->)|[Hz ->]]]; apply ensure_ok_inv in Hz as [-> Hz].
      * injection Hf as <- <-. simpl. split; [done|]. split; [lia | done].
      * simpl. eauto.
      * done.
  - intros cap c r c' Hcap Hc. apply ensured in Hc as [Hc|[[e ->] ->]]; [|split; [done | exists []; by rewrite app_nil_r]].
    cbv zeta in Hc. destruct (_ || _) eqn:Eb.
    + injection Hc as <- <-. split; [done|]. split; [done|]. by rewrite app_nil_r.
    + pose proof (size_of_nonneg (br_sendrec_buf (bear_engine c))).
      apply co_bind_inv in Hc as [([] & z & Hz & Hf)|[(e & Hz & ->)|[Hz ->]]]; apply ensure_ok_inv in Hz as [-> Hz].
      * injection Hf as <- <-. simpl. split; [done|]. split; [rewrite size_of_take; lia | done].
      * simpl. eauto.
      * done.
  - intros data c. split; [|intros cap].
    + destruct (bear_write_plaintext data c) as [r c'] eqn:Hc. apply ensured in Hc as [Hc|[[e ->] ->]]; [|by split_and!].
      pose proof (size_of_nonneg data). cbv zeta in Hc. destruct (_ || _) eqn:Eb; injection Hc as <- <-; simpl; split_and!; try done; intros n [= <-]; [lia|].
      apply orb_false_elim in Eb as [_ Eb]. lia.
    + destruct (bear_read_plaintext cap c) as [r c'] eqn:Hc. apply ensured in Hc as [Hc|[[e ->] ->]]; [|by split_and!].
      cbv zeta in Hc. destruct (_ || _); injection Hc as <- <-; by split_and!.
  - intros c. unfold bear_start_client, bear_start_server, bear_reset. split_and!.
    + destruct (bear_client c), (br_reset (bear_engine c)) as [[|] e]; by split_and!.
    + destruct (bear_client c), (br_reset (bear_engine c)) as [[|] e]; by split_and!.
    + destruct (bear_start_close c) as [r c'] eqn:Hc. unfold bear_start_close in Hc. apply ensured in Hc as [Hc|[[e ->] ->]]; [|by split_and!].
      unfold co_bind in Hc at 1. simpl in Hc. apply ensure_ok_inv in Hc as [-> Hc]. by split_and!.
Defined.
End BearLaws.

(** ** Faithfulness: no ciphertext is lost, repeated or reordered *)

Class StreamEnvLaws (S : Type) `{ReliableStream S} `{StreamEnv S} := {
  shutdown_ok : forall t, bs_is_open (se_shutdown_write t) = bs_is_open t /\
    bs_incoming (se_shutdown_write t) = bs_incoming t /\ bs_sent (se_shutdown_write t) = bs_sent t
}.

Section Faithful.
Context {S C : Type} `{StreamEnvLaws S} `{CodecLaws C}.

Notation stream := (CodecStream S C).

Definition codec_good (s : stream) : Prop := codec_is_open s = true /\ 0 <= cs_offset s <= size_of (cs_backlog s).

(** All the ciphertext of the session, up to now and to come: what the codec
    was fed, the backlog, what the stream will deliver. *)
Definition intake (s : stream) : bytes := mc_fed (cs_codec s) ++ backlog_view s ++ bs_incoming (cs_stream s).

(** A computation that returns moves ciphertext from the stream to the codec
    and from the codec to the stream, and changes nothing else; if it throws,
    the codec was fed a prefix, and what it produced last was not sent. *)
Definition moves (exact : bool) (x y : stream) : Prop :=
  if exact then codec_good y /\ intake y = intake x /\
    exists e, mc_emitted (cs_codec y) = mc_emitted (cs_codec x) ++ e /\ bs_sent (cs_stream y) = bs_sent (cs_stream x) ++ e
  else mc_fed (cs_codec y) `prefix_of` intake x /\
    exists e e', mc_emitted (cs_codec y) = mc_emitted (cs_codec x) ++ e ++ e' /\ bs_sent (cs_stream y) = bs_sent (cs_stream x) ++ e.

Definition keeps_bytes {A} (m : Co stream A) : Prop :=
  forall x r y, codec_good x -> m x = (r, y) -> moves (is_ok r) x y.

Lemma moves_refl x : codec_good x -> moves true x x.
Proof. intros Hx. split_and!; [done | done |]. exists []. by rewrite !app_nil_r. Qed.

Lemma moves_trans b x y z : moves true x y -> moves b y z -> moves b x z.
Proof.
  intros (_ & Hi & e & He & Hs). destruct b; simpl.
  - intros (Hg & Hi' & e1 & He1 & Hs1). split_and!; [done | congruence |]. exists (e ++ e1).
    by rewrite He1, Hs1, He, Hs, !app_assoc.
  - intros (Hp & e1 & e2 & He1 & Hs1). rewrite Hi in Hp. split; [done|]. exists (e ++ e1), e2.
    by rewrite He1, Hs1, He, Hs, !app_assoc.
Qed.

Lemma moves_weaken x y : moves true x y -> moves false x y.
Proof.
  intros (_ & Hi & e & He & Hs). split; [rewrite <- Hi; by eexists|]. exists e, []. by rewrite app_nil_r.
Qed.

Lemma keeps_ret {A} (a : A) : keeps_bytes (co_ret a).
Proof. intros x r y Hx [= <- <-]. by apply moves_refl. Qed.
Lemma keeps_throw {A} e : keeps_bytes (@co_throw _ A e).
Proof. intros x r y Hx [= <- <-]. by apply moves_weaken, moves_refl. Qed.
Lemma keeps_fuel {A} : keeps_bytes (@co_fuel _ A).
Proof. intros x r y Hx [= <- <-]. by apply moves_weaken, moves_refl. Qed.
Lemma keeps_get {A} (f : stream -> A) : keeps_bytes (co_get f).
Proof. intros x r y Hx [= <- <-]. by apply moves_refl. Qed.
Lemma keeps_if {A} b (m n : Co stream A) : keeps_bytes m -> keeps_bytes n -> keeps_bytes (co_if b m n).
Proof. intros Hm Hn x r y Hx. unfold co_if. destruct (b x); auto. Qed.
Lemma keeps_bind {A B} (m : Co stream A) (f : A -> Co stream B) :
  keeps_bytes m -> (forall a, keeps_bytes (f a)) -> keeps_bytes (co_bind m f).
Proof.
  intros Hm Hf x r y Hx Hr. apply co_bind_inv in Hr as [(a & z & Hz & Hr)|[(e & Hz & ->)|[Hz ->]]].
  - apply Hm in Hz; [|done]. eapply moves_trans; [exact Hz|]. eapply Hf; [apply Hz | done].
  - by apply Hm in Hz.
  - by apply Hm in Hz.
Qed.

(** An operation of the codec that is not about ciphertext. *)
Lemma keeps_codec {A} (f : C -> result A * C) :
  (forall c, let '(r, c') := f c in mc_fed c' = mc_fed c /\ mc_emitted c' = mc_emitted c /\ r <> OutOfFuel) -> keeps_bytes (on_codec f).
Proof.
  intros Hf x r y Hx. unfold on_codec. specialize (Hf (cs_codec x)). destruct (f (cs_codec x)) as [r' c']. destruct Hf as (Hfed & Hem & _).
  intros [= <- <-]. assert (moves true x (mkCodec (cs_stream x) c' (cs_backlog x) (cs_offset x))) as Hm.
  { unfold moves, intake, backlog_view. simpl. rewrite Hfed, Hem. split_and!; [exact Hx | done |]. exists []. by rewrite !app_nil_r. }
  destruct (is_ok r'); [done | by apply moves_weaken].
Qed.

Lemma keeps_compact : keeps_bytes compact_ciphertext_backlog.
Proof.
  intros x r y [Ho Hr]. unfold compact_ciphertext_backlog, put_backlog. destruct (Z.eqb_spec (cs_offset x) 0).
  - intros [= <- <-]. by apply moves_refl.
  - destruct (Z.leb_spec (size_of (cs_backlog x)) (cs_offset x)); intros [= <- <-]; (split; [|split]).
    + split; [done|]. simpl. unfold size_of. simpl. lia.
    + unfold intake, backlog_view. simpl. rewrite (drop_ge (cs_backlog x)) by (unfold size_of in *; lia). done.
    + exists []. by rewrite !app_nil_r.
    + split; [done|]. simpl. pose proof (size_of_nonneg (backlog_view x)). lia.
    + done.
    + exists []. by rewrite !app_nil_r.
Qed.

(** The codec takes a prefix of the backlog. *)
Lemma moves_feed x n c' :
  codec_good x -> 0 <= n <= size_of (backlog_view x) ->
  mc_fed c' = mc_fed (cs_codec x) ++ take (Z.to_nat n) (backlog_view x) -> mc_emitted c' = mc_emitted (cs_codec x) ->
  moves true x (mkCodec (cs_stream x) c' (cs_backlog x) (cs_offset x + n)).
Proof.
  intros [Ho Hr] Hn Hf He. unfold backlog_view in *. 
  rewrite size_of_drop in Hn by lia.
  split_and!; [split; simpl; [done | lia] | | exists []; simpl; by rewrite He, !app_nil_r].
  unfold intake, backlog_view. simpl. rewrite Hf, <- app_assoc. f_equal. rewrite Z2Nat.inj_add, <- drop_drop by lia.
  rewrite app_assoc. by rewrite take_drop.
Qed.

Lemma keeps_feed_loop fuel : keeps_bytes (feed_backlog_loop fuel).
Proof.
  induction fuel as [|fuel IH]; simpl; [apply keeps_fuel|]. apply keeps_if; [|apply keeps_ret]. intros x r y Hx. unfold co_bind at 1, co_get.
  unfold co_bind at 1, on_codec. destruct (mc_feed_ciphertext (backlog_view x) (cs_codec x)) as [r' c'] eqn:Ef.
  apply mc_feed_ok in Ef as [He Hf]. destruct r' as [n|e|]; [| |done].
  - destruct Hf as [Hn Hf]. pose proof (moves_feed x n c' Hx Hn Hf He) as Hm. destruct (Z.eqb_spec n 0) as [->|].
    + intros [= <- <-]. by rewrite Z.add_0_r in Hm.
    + unfold co_bind, put_backlog. simpl. intros Hr. eapply moves_trans; [exact Hm|]. eapply IH; [apply Hm | exact Hr].
  - intros [= <- <-]. destruct Hf as [n Hf]. split; simpl.
    + rewrite Hf. unfold intake. apply prefix_app. rewrite <- (take_drop n (backlog_view x)) at 2. rewrite <- app_assoc. by eexists.
    + exists [], []. by rewrite He, !app_nil_r.
Qed.

Lemma keeps_feed_backlog : keeps_bytes feed_ciphertext_backlog.
Proof.
  intros x r y. unfold feed_ciphertext_backlog. apply (keeps_bind (feed_backlog_loop _)); [apply keeps_feed_loop | intros _; apply keeps_compact].
Qed.

(** Feeding bytes that are in hand: they end up in the codec or the backlog. *)
Definition feeds (d : bytes) (x : stream) (ok : bool) (y : stream) : Prop :=
  cs_stream y = cs_stream x /\ mc_emitted (cs_codec y) = mc_emitted (cs_codec x) /\
  if ok then 0 <= cs_offset y <= size_of (cs_backlog y) /\ mc_fed (cs_codec y) ++ backlog_view y = mc_fed (cs_codec x) ++ backlog_view x ++ d
  else mc_fed (cs_codec y) `prefix_of` mc_fed (cs_codec x) ++ backlog_view x ++ d.

Lemma feed_bytes_feeds fuel d x r y :
  0 <= cs_offset x <= size_of (cs_backlog x) -> backlog_view x = [] -> feed_bytes_loop fuel d x = (r, y) -> feeds d x (is_ok r) y.
Proof.
  revert d x. induction fuel as [|fuel IH]; intros d x Hr Hv; simpl.
  { intros [= <- <-]. split_and!; [done | done | by eexists]. }
  destruct (decide (d = [])) as [->|Hd]; [intros [= <- <-]; split_and!; rewrite ?Hv, ?app_nil_r; done|].
  unfold co_bind at 1, on_codec. destruct (mc_feed_ciphertext d (cs_codec x)) as [r' c'] eqn:Ef.
  apply mc_feed_ok in Ef as [He Hf]. destruct r' as [n|e|]; [| |done].
  - destruct Hf as [Hn Hf]. destruct (Z.eqb_spec n 0) as [->|Hn0].
    + unfold put_backlog. intros [= <- <-]. simpl in Hf. rewrite app_nil_r in Hf. pose proof (size_of_nonneg d).
      split_and!; simpl; [done | done |]. split; [lia|]. unfold backlog_view at 1. simpl. by rewrite Hf, Hv.
    + set (x1 := mkCodec (cs_stream x) c' (cs_backlog x) (cs_offset x)).
      assert (mc_fed (cs_codec x1) ++ backlog_view x1 ++ drop (Z.to_nat n) d = mc_fed (cs_codec x) ++ backlog_view x ++ d) as Hx1.
      { change (backlog_view x1) with (backlog_view x). simpl. rewrite Hv, Hf. simpl. by rewrite <- app_assoc, take_drop. }
      intros Hl. apply IH in Hl as (S1 & S2 & S3); [|done | done]. unfold feeds. rewrite Hx1 in S3. simpl in S1, S2. by rewrite S1, S2, He.
  - intros [= <- <-]. destruct Hf as [n Hf]. split_and!; simpl; [done | done |]. rewrite Hf, Hv. apply prefix_app. simpl.
    rewrite <- (take_drop n d) at 2. by eexists.
Qed.

(** The stream has delivered [d]. *)
Definition arrived_bytes (d : bytes) (x0 x : stream) : Prop :=
  codec_good x0 /\ codec_is_open x = true /\ bs_incoming (cs_stream x0) = d ++ bs_incoming (cs_stream x) /\
  bs_sent (cs_stream x) = bs_sent (cs_stream x0) /\ cs_codec x = cs_codec x0 /\ cs_backlog x = cs_backlog x0 /\ cs_offset x = cs_offset x0.

Lemma feeds_moves d x0 x b y : arrived_bytes d x0 x -> feeds d x b y -> moves b x0 y.
Proof.
  intros ([Ho0 Hr0] & Ho & Hi & Hs & Hc & Hb & Hof) (F1 & F2 & F3).
  assert (backlog_view x = backlog_view x0) as Hv by (unfold backlog_view; congruence). rewrite Hc, Hv in F3. destruct b; simpl.
  - destruct F3 as [Hr Hf]. split_and!; [split; [unfold codec_is_open; by rewrite F1 | done] | |].
    + unfold intake. by rewrite app_assoc, Hf, F1, Hi, <- !app_assoc.
    + exists []. by rewrite F1, F2, Hc, Hs, !app_nil_r.
  - split; [|exists [], []; by rewrite F1, F2, Hc, Hs, !app_nil_r]. etrans; [exact F3|]. unfold intake. rewrite Hi. eexists. by rewrite <- !app_assoc.
Qed.

Lemma feed_bytes_moves d x0 x r y : arrived_bytes d x0 x -> feed_ciphertext_bytes d x = (r, y) -> moves (is_ok r) x0 y.
Proof.
  intros Hd. pose proof Hd as ([Ho0 Hr0] & Ho & Hi & Hs & Hc & Hb & Hof). unfold feed_ciphertext_bytes. destruct (decide (d = [])) as [->|Hne].
  - intros [= <- <-]. apply (feeds_moves [] _ _ _ _ Hd). split_and!; rewrite ?app_nil_r; try done. by rewrite Hof, Hb.
  - unfold co_if, has_ciphertext_backlog. destruct (Z.ltb_spec (cs_offset x) (size_of (cs_backlog x))) as [Hlt|Hge].
    + unfold co_bind at 1, put_backlog. intros Hr. set (x' := mkCodec _ _ _ _) in Hr. assert (feeds d x true x') as Hf.
      { split_and!; [done | done | simpl; lia | simpl; rewrite size_of_app; pose proof (size_of_nonneg d); lia |].
        unfold backlog_view. simpl. rewrite drop_app_le by (unfold size_of in *; lia). done. }
      apply (feeds_moves _ _ _ _ _ Hd) in Hf. eapply moves_trans; [exact Hf|]. eapply keeps_feed_backlog; [apply Hf | exact Hr].
    + intros Hr. eapply feeds_moves; [exact Hd|]. eapply feed_bytes_feeds; [| |exact Hr]; [by rewrite Hof, Hb|].
      unfold backlog_view. apply drop_ge. unfold size_of in *. lia.
Qed.

(** A computation that reads from the stream below. *)
Definition reads (m : Co stream bytes) : Prop := forall x r y, codec_good x -> m x = (r, y) ->
  match r with Ok d => arrived_bytes d x y | _ => y = x end.

Lemma reads_recv : reads (on_stream (bs_recv_some SCRATCH)).
Proof.
  intros x r y [Ho Hr]. unfold on_stream. destruct (recv_reliable SCRATCH (cs_stream x) Ho) as (d & t & -> & R1 & R2 & R3 & R4 & R5); [done|].
  intros [= <- <-]. by split_and!.
Qed.

Lemma reads_handshake deadline : reads (handshake_read deadline).
Proof.
  destruct deadline as [d|]; [|apply reads_recv]. intros x r y Hx. unfold handshake_read, co_bind, co_get. destruct (_ <=? _); [by intros [= <- <-]|].
  unfold co_if. rewrite recv_prompt. by apply reads_recv.
Qed.

(** Read, and feed what was read. *)
Lemma keeps_read {A} (m : Co stream bytes) (eof rest : Co stream A) :
  reads m -> keeps_bytes eof -> keeps_bytes rest -> keeps_bytes (d <- m;; if decide (d = []) then eof else feed_ciphertext_bytes d;;; rest).
Proof.
  intros Hm He Hr x r y Hx Hrun. apply co_bind_inv in Hrun as [(d & z & Hz & Hrun)|[(e & Hz & ->)|[Hz ->]]]; apply Hm in Hz as Hd; try done.
  - destruct (decide (d = [])) as [->|Hne].
    + assert (moves true x z) as Hxz; [|eapply moves_trans; [exact Hxz | eapply He; [apply Hxz | done]]].
      apply (feeds_moves [] _ z _ _ Hd). destruct Hx as [_ Hx]. destruct Hd as (_ & _ & _ & _ & _ & Hb & Hof).
      split_and!; rewrite ?app_nil_r, ?Hof, ?Hb; done || lia.
    + apply co_bind_inv in Hrun as [(u & w & Hw & Hrun)|[(e & Hw & ->)|[Hw ->]]]; apply (feed_bytes_moves _ _ _ _ _ Hd) in Hw; try done.
      eapply moves_trans; [exact Hw|]. eapply Hr; [apply Hw | done].
  - subst. by apply moves_weaken, moves_refl.
  - subst. by apply moves_weaken, moves_refl.
Qed.

Lemma keeps_flush fuel : keeps_bytes (flush_ciphertext fuel).
Proof.
  induction fuel as [|fuel IH]; simpl; [apply keeps_fuel|]. apply keeps_if; [|apply keeps_ret]. intros x r y [Ho Hr] Hb.
  apply co_bind_inv in Hb. unfold on_codec in Hb. destruct (mc_read_ciphertext SCRATCH (cs_codec x)) as [r' c'] eqn:Ef.
  apply mc_drain_ok in Ef as [Hf Hd]; [|done]. destruct Hb as [(d & z & [= -> <-] & Hb)|[(e & [= -> <-] & ->)|[[= -> _] _]]]; [| |done].
  - destruct Hd as [_ Hd]. destruct (decide (d = [])) as [->|Hne].
    + injection Hb as <- <-. split_and!; [done | unfold intake; simpl; by rewrite Hf |]. exists []. simpl. by rewrite Hd, !app_nil_r.
    + apply co_bind_inv in Hb. unfold on_stream in Hb. simpl in Hb. destruct (send_reliable d (cs_stream x) Ho) as (t & Hs & S1 & S2 & S3). rewrite Hs in Hb.
      destruct Hb as [([] & w & [= <-] & Hb)|[(e & [=] & _)|[[=] _]]].
      assert (moves true x (mkCodec t c' (cs_backlog x) (cs_offset x))) as Hm.
      { split_and!; [done | unfold intake; simpl; by rewrite Hf, S2 |]. exists d. by rewrite <- Hd, <- S3. }
      eapply moves_trans; [exact Hm|]. eapply IH; [apply Hm | done].
  - destruct Hd as [d Hd]. split; simpl; [rewrite Hf; by eexists|]. exists [], d. by rewrite Hd, app_nil_r.
Qed.

Lemma keeps_ready cap otherwise : keeps_bytes otherwise -> keeps_bytes (codec_ready cap otherwise).
Proof.
  intros Ho. apply keeps_bind.
  - apply keeps_codec. intros c. apply (proj2 (mc_plain_ok [] c)).
  - intros d. destruct (decide _); [apply keeps_if; [apply keeps_ret | done] | apply keeps_ret].
Qed.

#[local] Hint Resolve keeps_ret keeps_throw keeps_fuel keeps_if keeps_bind keeps_flush keeps_feed_backlog keeps_ready keeps_read
  reads_recv reads_handshake : codec.
#[local] Hint Extern 1 (keeps_bytes (if decide ?P then _ else _)) => destruct (decide P) : codec.

Lemma keeps_write_plaintext data : keeps_bytes (on_codec (mc_write_plaintext data)).
Proof.
  apply keeps_codec. intros c. pose proof (proj1 (mc_plain_ok data c)) as Hc. destruct (mc_write_plaintext data c). naive_solver.
Qed.

Lemma keeps_control :
  keeps_bytes (on_codec mc_start_client) /\ keeps_bytes (on_codec mc_start_server) /\ keeps_bytes (on_codec mc_start_close).
Proof. split_and!; apply keeps_codec; intros c; apply (mc_control_ok c). Qed.

Lemma keeps_handshake ffuel fuel client : keeps_bytes (run_handshake ffuel fuel client).
Proof.
  unfold run_handshake. apply keeps_bind; [destruct client; apply keeps_control | intros _]. apply keeps_bind; [apply keeps_get | intros deadline].
  apply keeps_bind; [|auto with codec]. induction fuel as [|fuel IH]; simpl; auto 10 with codec.
Qed.

Lemma keeps_read_some ffuel fuel cap : keeps_bytes (codec_read_some ffuel fuel cap).
Proof.
  unfold codec_read_some. apply keeps_if; [|auto with codec]. destruct (cap =? 0); [auto with codec|].
  apply keeps_bind; [auto with codec | intros _]. apply keeps_ready. induction fuel as [|fuel IH]; simpl; auto 10 with codec.
Qed.

Lemma keeps_write_all ffuel fuel data : keeps_bytes (codec_write_all ffuel fuel data).
Proof.
  unfold codec_write_all. apply keeps_if; [|auto with codec]. apply keeps_bind; [|auto with codec].
  revert data. induction fuel as [|fuel IH]; intros data; simpl; [apply keeps_fuel|]. destruct (decide _); [apply keeps_ret|].
  apply keeps_bind; [auto with codec | intros _]. apply keeps_bind; [apply keeps_write_plaintext | intros k]. auto 10 with codec.
Qed.

Lemma keeps_read_until_eof ffuel rfuel fuel limit out : keeps_bytes (codec_read_until_eof ffuel rfuel fuel limit out).
Proof.
  revert out. induction fuel as [|fuel IH]; intros out; simpl; [apply keeps_fuel|]. apply keeps_bind; [apply keeps_read_some | intros d].
  destruct (decide _); [apply keeps_ret|]. destruct (_ <? _); [apply keeps_throw | apply IH].
Qed.

Lemma keeps_close_notify ffuel : keeps_bytes (close_notify ffuel).
Proof.
  unfold close_notify. apply keeps_if; [|apply keeps_ret]. apply keeps_bind; [apply keeps_control | intros _].
  apply keeps_bind; [apply keeps_flush | intros _]. intros x r y [Ho Hr] [= <- <-]. destruct (shutdown_ok (cs_stream x)) as (E1 & E2 & E3).
  split_and!; [split; [unfold codec_is_open in *; simpl; by rewrite E1 | done] | unfold intake; simpl; by rewrite E2 |].
  exists []. simpl. by rewrite E3, !app_nil_r.
Qed.

(** The operations of a stream after it was made. *)
Inductive codec_call :=
| CallHandshake (client : bool) | CallRead (cap : Z) | CallWrite (data : bytes) | CallReadAll (max_bytes : Z) | CallCloseNotify.

Definition run_call (fuel : nat) (c : codec_call) : Co stream unit :=
  match c with
  | CallHandshake client => run_handshake fuel fuel client
  | CallRead cap => codec_read_some fuel fuel cap;;; co_ret tt
  | CallWrite data => codec_write_all fuel fuel data
  | CallReadAll n => codec_read_until_eof fuel fuel fuel n [];;; co_ret tt
  | CallCloseNotify => close_notify fuel
  end.
Definition run_calls (fuel : nat) : list codec_call -> Co stream unit :=
  fix go cs := match cs with [] => co_ret tt | c :: cs => run_call fuel c;;; go cs end.

Lemma keeps_calls fuel cs : keeps_bytes (run_calls fuel cs).
Proof.
  induction cs as [|c cs IH]; simpl; [apply keeps_ret|]. apply keeps_bind; [|done]. destruct c; simpl;
    try (apply keeps_bind; [|intros ?; apply keeps_ret]); auto using keeps_handshake, keeps_read_some, keeps_write_all, keeps_read_until_eof, keeps_close_notify.
Qed.
End Faithful.

(** ** Theorems *)

(** C27: Whatever the codec does within its contract, and however the stream below
    segments the bytes: after any sequence of handshakes, reads, writes and
    closes that returns, what the codec was fed, followed by the backlog and
    by what the stream still delivers, is what the stream delivers, in order
    and without loss; and what was sent is what the codec produced.  If an
    operation throws, the codec was fed a prefix, and what was sent is a
    prefix of what it produced. *)
Theorem codec_stream_faithful {S C} `{StreamEnvLaws S} `{CodecLaws C} fuel cs (t : S) (c : C) r s :
  bs_is_open t = true -> mc_fed c = [] -> mc_emitted c = [] -> bs_sent t = [] ->
  run_calls fuel cs (new_codec_stream t c) = (r, s) ->
  mc_fed (cs_codec s) `prefix_of` bs_incoming t /\ bs_sent (cs_stream s) `prefix_of` mc_emitted (cs_codec s) /\
  (r = Ok tt -> mc_fed (cs_codec s) ++ backlog_view s ++ bs_incoming (cs_stream s) = bs_incoming t /\
                bs_sent (cs_stream s) = mc_emitted (cs_codec s)).
Proof.
  intros Ho Hf He Hs Hr. apply keeps_calls in Hr; [|split; [done|]; simpl; unfold size_of; simpl; lia].
  assert (intake (new_codec_stream t c) = bs_incoming t) as Hin by (unfold intake; simpl; by rewrite Hf). split_and!.
  - destruct (is_ok r); [apply moves_weaken in Hr|]; destruct Hr as [Hr _]; by rewrite Hin in Hr.
  - destruct (is_ok r); [apply moves_weaken in Hr|]; destruct Hr as (_ & e & e' & Hr & ->); simpl in *; rewrite Hr, He, Hs; by eexists.
  - intros ->. destruct Hr as (_ & Hi & e & Hr & ->). rewrite Hin in Hi. split; [exact Hi|]. simpl in *. by rewrite Hr, He, Hs.
Qed.

Lemma feed_no_backlog {S C} `{MemoryCodec C} (s : CodecStream S C) : cs_backlog s = [] -> cs_offset s = 0 -> feed_ciphertext_backlog s = (Ok tt, s).
Proof.
  intros Hb Ho. unfold feed_ciphertext_backlog. rewrite Hb. simpl. unfold co_bind, co_if, has_ciphertext_backlog. rewrite Hb, Ho. simpl.
  unfold compact_ciphertext_backlog. by rewrite Ho.
Qed.

Lemma flush_idle {S C} `{ByteStream S} `{MemoryCodec C} fuel (s : CodecStream S C) :
  mc_has_pending (cs_codec s) = false -> flush_ciphertext (Datatypes.S fuel) s = (Ok tt, s).
Proof. intros Hp. simpl. unfold co_if. by rewrite Hp. Qed.

(** ** A passthrough stream is a reliable byte stream *)
Section Passthrough.
Context {S : Type} `{ReliableStream S}.

Notation stream := (CodecStream S PassthroughCodec).

#[local] Arguments size_of : simpl never.

(** Between operations there is no backlog and nothing to send. *)
Definition settled (s : stream) : bool :=
  bool_decide (cs_backlog s = []) && (cs_offset s =? 0) && bool_decide (pc_outgoing (cs_codec s) = []).

Lemma settled_true s : Is_true (settled s) <-> cs_backlog s = [] /\ cs_offset s = 0 /\ pc_outgoing (cs_codec s) = [].
Proof. unfold settled. rewrite Is_true_true, !andb_true_iff, !bool_decide_eq_true, Z.eqb_eq. tauto. Qed.

Definition with_incoming (d : bytes) (c : PassthroughCodec) : PassthroughCodec :=
  mkPass (pc_incoming c ++ d) (pc_outgoing c) (pc_fed c ++ d) (pc_emitted c).

Lemma pass_feed d (s : stream) :
  d <> [] -> cs_backlog s = [] -> cs_offset s = 0 ->
  feed_ciphertext_bytes d s = (Ok tt, mkCodec (cs_stream s) (with_incoming d (cs_codec s)) [] 0).
Proof.
  intros Hd Hb Ho. unfold feed_ciphertext_bytes. rewrite decide_False by done. unfold co_if, has_ciphertext_backlog. rewrite Hb, Ho.
  change (0 <? size_of []) with false. cbv iota. destruct d as [|a d]; [done|]. simpl. unfold co_bind, on_codec. simpl.
  rewrite decide_True by (apply drop_ge; unfold size_of; lia). unfold co_ret, with_incoming. by rewrite Hb, Ho.
Qed.

(** What [copy_and_erase] takes. *)
Lemma copy_and_erase_ok cap buffer :
  0 < cap -> let '(d, rest) := copy_and_erase cap buffer in buffer = d ++ rest /\ size_of d <= cap /\ (d = [] -> buffer = []).
Proof.
  intros Hc. pose proof (size_of_nonneg buffer). simpl. split_and!; [by rewrite take_drop | rewrite size_of_take; lia |].
  intros Hd. apply (f_equal size_of) in Hd. rewrite size_of_take in Hd by lia. apply size_of_nil_inv. change (size_of []) with 0 in Hd. lia.
Qed.

Lemma pass_flush fuel (s : stream) :
  bs_is_open (cs_stream s) = true -> (length (pc_outgoing (cs_codec s)) < fuel)%nat ->
  exists t e, flush_ciphertext fuel s =
      (Ok tt, mkCodec t (mkPass (pc_incoming (cs_codec s)) [] (pc_fed (cs_codec s)) e) (cs_backlog s) (cs_offset s)) /\
    bs_is_open t = true /\ bs_incoming t = bs_incoming (cs_stream s) /\ bs_sent t = bs_sent (cs_stream s) ++ pc_outgoing (cs_codec s).
Proof.
  revert s. induction fuel as [|fuel IH]; intros [t [inc out fed em] b o] Ho Hf; simpl in *; [lia|]. unfold co_if. simpl.
  destruct (decide (out = [])) as [->|Hne]; [simpl; eexists _, _; split; [reflexivity|]; by rewrite app_nil_r|].
  rewrite bool_decide_eq_false_2 by done. simpl. unfold co_bind at 1, on_codec. simpl. unfold pass_read_ciphertext.
  pose proof (copy_and_erase_ok SCRATCH out ltac:(done)) as Hce. unfold copy_and_erase in *. cbv zeta in *.
  set (d := take _ out) in *. set (rest := drop _ out) in *. clearbody d rest. destruct Hce as (-> & _ & Hd).
  destruct (decide (d = [])) as [->|Hd']; [exfalso; auto|].
  unfold co_bind, on_stream. simpl. destruct (send_reliable d t Ho) as (t1 & -> & T1 & T2 & T3).
  destruct (IH (mkCodec t1 (mkPass inc rest fed (em ++ d)) b o)) as (t2 & e & E1 & E2 & E3 & E4); simpl in *; [done | |].
  { rewrite length_app in Hf. destruct d; [done | simpl in Hf; lia]. }
  exists t2, e. split; [exact E1|]. split_and!; [done | congruence | by rewrite E4, T3, app_assoc].
Qed.

(** Nothing to send: one unit of fuel is enough. *)
Lemma pass_flush_idle fuel (s : stream) : pc_outgoing (cs_codec s) = [] -> flush_ciphertext (Datatypes.S fuel) s = (Ok tt, s).
Proof. intros Ho. apply flush_idle. simpl. by rewrite Ho. Qed.

(** [read_plaintext] of the codec. *)
Lemma pass_ready cap otherwise (s : stream) :
  0 < cap ->
  codec_ready cap otherwise s =
    (if decide (pc_incoming (cs_codec s) = []) then otherwise s
     else let '(d, rest) := copy_and_erase cap (pc_incoming (cs_codec s)) in
          (Ok d, mkCodec (cs_stream s) (mkPass rest (pc_outgoing (cs_codec s)) (pc_fed (cs_codec s)) (pc_emitted (cs_codec s))) (cs_backlog s) (cs_offset s))).
Proof.
  intros Hc. unfold codec_ready. unfold co_bind, on_codec. destruct s as [t [inc out fed em] b o]. simpl.
  pose proof (copy_and_erase_ok cap inc Hc) as Hce. unfold copy_and_erase in *. cbv zeta in *.
  set (d := take _ inc) in *. set (rest := drop _ inc) in *. destruct Hce as (He & _ & Hd). destruct (decide (d = [])) as [E|E].
  - rewrite decide_True by auto. unfold co_if. simpl. f_equal. rewrite (Hd E), E in He. simpl in He. by rewrite <- He, (Hd E).
  - rewrite decide_False; [done|]. intros ->. apply E. unfold d. by rewrite take_nil.
Qed.

Definition pass_incoming (s : stream) : bytes := pc_incoming (cs_codec s) ++ bs_incoming (cs_stream s).

(** The codec hands out plaintext it has. *)
Lemma pass_take cap (s : stream) :
  0 < cap -> cs_backlog s = [] -> cs_offset s = 0 -> pc_outgoing (cs_codec s) = [] -> pc_incoming (cs_codec s) <> [] -> codec_is_open s = true ->
  exists d s', (let '(d, rest) := copy_and_erase cap (pc_incoming (cs_codec s)) in
      (Ok d, mkCodec (cs_stream s) (mkPass rest (pc_outgoing (cs_codec s)) (pc_fed (cs_codec s)) (pc_emitted (cs_codec s))) (cs_backlog s) (cs_offset s)))
      = (Ok d, s') /\ Is_true (settled s') /\ codec_is_open s' = true /\ pass_incoming s = d ++ pass_incoming s' /\ size_of d <= cap /\ d <> [] /\
    bs_sent (cs_stream s') = bs_sent (cs_stream s).
Proof.
  intros Hc Hb Ho Hout Hin Hop. pose proof (copy_and_erase_ok cap (pc_incoming (cs_codec s)) Hc) as Hce.
  destruct (copy_and_erase cap (pc_incoming (cs_codec s))) as [d rest]. destruct Hce as (E1 & E2 & E3). eexists d, _. split; [reflexivity|].
  split_and!; try done; [by apply settled_true | | auto]. unfold pass_incoming. simpl. by rewrite E1, <- app_assoc.
Qed.

Lemma pass_read cap (s : stream) :
  Is_true (settled s) -> codec_is_open s = true -> 0 < cap ->
  exists d s', codec_read_some 1 1 cap s = (Ok d, s') /\ Is_true (settled s') /\ codec_is_open s' = true /\
    pass_incoming s = d ++ pass_incoming s' /\ size_of d <= cap /\ (d = [] -> pass_incoming s = []) /\
    bs_sent (cs_stream s') = bs_sent (cs_stream s).
Proof.
  intros Hset Hop Hcap. apply settled_true in Hset as (Hb & Ho & Hout). unfold codec_read_some, co_if. rewrite Hop.
  replace (cap =? 0) with false by lia. unfold co_bind at 1. rewrite feed_no_backlog by done. rewrite pass_ready by done.
  destruct (decide _) as [He|He].
  - cbn [codec_read_loop]. unfold co_bind at 1. rewrite (pass_flush_idle 0) by done. unfold co_bind at 1. rewrite feed_no_backlog by done.
    rewrite pass_ready, decide_True by done. unfold co_if, has_ciphertext_backlog. rewrite Hb, Ho. change (0 <? size_of []) with false. cbv iota.
    unfold co_bind at 1, on_stream. destruct (recv_reliable SCRATCH (cs_stream s) Hop) as (d & t & -> & R1 & R2 & R3 & R4 & R5); [done|].
    destruct (decide (d = [])) as [->|Hd].
    + eexists [], _. split; [reflexivity|]. split_and!; try done.
      * by apply settled_true.
      * unfold pass_incoming. simpl. by rewrite R2.
      * change (size_of []) with 0. lia.
      * intros _. unfold pass_incoming. by rewrite He, R4.
    + unfold co_bind at 1. rewrite pass_feed by done. rewrite pass_ready by done. set (s1 := mkCodec _ _ _ _).
      rewrite decide_False by (simpl; rewrite He; done).
      destruct (pass_take cap s1) as (d' & s' & -> & G1 & G2 & G3 & G4 & G5 & G6); [done | done | done | done | simpl; rewrite He; done | done |].
      exists d', s'. split_and!; try done; [|by rewrite G6].
      rewrite <- G3. unfold pass_incoming. simpl. by rewrite He, R2.
  - destruct (pass_take cap s) as (d & s' & -> & G1 & G2 & G3 & G4 & G5 & G6); [done..|]. by exists d, s'.
Qed.

Lemma pass_write data (s : stream) :
  Is_true (settled s) -> codec_is_open s = true ->
  exists s', codec_write_all (Datatypes.S (length data)) 1 data s = (Ok tt, s') /\ Is_true (settled s') /\ codec_is_open s' = true /\
    pass_incoming s' = pass_incoming s /\ bs_sent (cs_stream s') = bs_sent (cs_stream s) ++ data.
Proof.
  intros Hset Hop. apply settled_true in Hset as (Hb & Ho & Hout). unfold codec_write_all, co_if. rewrite Hop.
  unfold co_bind at 1. cbn [codec_write_loop]. destruct (decide (data = [])) as [->|Hd].
  - unfold co_ret. rewrite pass_flush_idle by done. exists s. rewrite app_nil_r. split_and!; try done. by apply settled_true.
  - unfold co_bind at 1. rewrite feed_no_backlog by done. unfold co_bind at 1, on_codec. cbn [mc_write_plaintext passthrough]. unfold pass_write_plaintext.
    cbv beta iota zeta. rewrite drop_ge by (unfold size_of; lia). set (s1 := mkCodec _ _ _ _).
    destruct (pass_flush (Datatypes.S (length data)) s1) as (t & e & Hf & T1 & T2 & T3); [done | simpl; rewrite Hout; simpl; lia |].
    unfold co_bind at 1. rewrite Hf. unfold co_bind at 1. rewrite feed_no_backlog by (simpl; congruence). rewrite decide_True by done.
    unfold co_ret. rewrite pass_flush_idle by done. eexists. split; [reflexivity|]. split_and!; try done.
    + apply settled_true. simpl. by rewrite Hb, Ho.
    + unfold pass_incoming. simpl. by rewrite T2.
    + simpl. rewrite T3. simpl. by rewrite Hout.
Qed.

(** A passthrough stream between operations. *)
Definition SettledStream : Type := { s : stream | Is_true (settled s) }.

Lemma closed_codec_read f1 f2 cap (s : stream) : codec_is_open s = false -> codec_read_some f1 f2 cap s = (Throw codec_closed, s).
Proof. intros Ho. unfold codec_read_some, co_if. by rewrite Ho. Qed.
Lemma closed_codec_write f1 f2 data (s : stream) : codec_is_open s = false -> codec_write_all f1 f2 data s = (Throw codec_closed, s).
Proof. intros Ho. unfold codec_write_all, co_if. by rewrite Ho. Qed.

Lemma pass_read_settled cap (s : stream) : Is_true (settled s) -> Is_true (settled (snd (codec_read_some 1 1 (Z.max 0 cap) s))).
Proof.
  intros Hs. destruct (Z.ltb_spec 0 cap) as [Hc|Hc].
  2:{ replace (Z.max 0 cap) with 0 by lia. unfold codec_read_some, co_if. by destruct (codec_is_open s). }
  replace (Z.max 0 cap) with cap by lia. destruct (codec_is_open s) eqn:Ho; [|by rewrite closed_codec_read].
  destruct (pass_read cap s Hs Ho Hc) as (d & s' & -> & H1 & _). done.
Qed.
Lemma pass_write_settled data (s : stream) : Is_true (settled s) -> Is_true (settled (snd (codec_write_all (Datatypes.S (length data)) 1 data s))).
Proof.
  intros Hs. destruct (codec_is_open s) eqn:Ho; [|by rewrite closed_codec_write].
  destruct (pass_write data s Hs Ho) as (s' & -> & H1 & _). done.
Qed.

(** A size is never negative. *)
#[export] Instance pass_byte_stream : ByteStream SettledStream := {
  bs_is_open s := codec_is_open (proj1_sig s);
  bs_recv_some cap s :=
    (fst (codec_read_some 1 1 (Z.max 0 cap) (proj1_sig s)), exist _ (snd (codec_read_some 1 1 (Z.max 0 cap) (proj1_sig s))) (pass_read_settled cap _ (proj2_sig s)));
  bs_send_all data s :=
    (fst (codec_write_all (Datatypes.S (length data)) 1 data (proj1_sig s)),
     exist _ (snd (codec_write_all (Datatypes.S (length data)) 1 data (proj1_sig s))) (pass_write_settled data _ (proj2_sig s)));
  bs_close s := exist _ (codec_close (proj1_sig s)) (proj2_sig s);
  bs_recv_expires d s := bs_recv_expires d (cs_stream (proj1_sig s));
  bs_send_expires d s := bs_send_expires d (cs_stream (proj1_sig s))
}.

#[export] Instance pass_reliable : ReliableStream SettledStream.
Proof.
  refine (reliable_stream (fun s => pass_incoming (proj1_sig s)) (fun s => bs_sent (cs_stream (proj1_sig s))) _ _ _ _ _).
  - intros cap [s Hs] Ho Hc. simpl in Ho. destruct (pass_read cap s Hs Ho Hc) as (d & s' & E & E1 & E2 & E3 & E4 & E5 & E6).
    rewrite <- (Z.max_r 0 cap) in E by lia. eexists d, _. cbn [bs_recv_some pass_byte_stream proj1_sig].
    split; [rewrite E at 1; reflexivity|]. cbn [bs_is_open pass_byte_stream proj1_sig]. rewrite E. by split_and!.
  - intros data [s Hs] Ho. simpl in Ho. destruct (pass_write data s Hs Ho) as (s' & E & E1 & E2 & E3 & E4).
    eexists _. split; [cbn [bs_send_all pass_byte_stream proj1_sig]; rewrite E at 1; reflexivity|]. cbn [bs_is_open pass_byte_stream proj1_sig]. rewrite E. by split_and!.
  - intros [s Hs]. exact (close_ok (cs_stream s)).
  - intros d [s Hs]. exact (recv_prompt d (cs_stream s)).
  - intros d [s Hs]. exact (send_prompt d (cs_stream s)).
Defined.
End Passthrough.

(** ** Behaviours *)

(** A TLS session that is cut off looks like one that was closed.  When the
    stream below ends and the codec is not at its end, [read_some] returns
    zero bytes, which means the end of the data, although no close_notify was
    received. *)
Theorem codec_truncation_is_eof {S C} `{ByteStream S} `{MemoryCodec C} cap (s : CodecStream S C) t :
  codec_is_open s = true -> cap <> 0 -> cs_backlog s = [] -> cs_offset s = 0 ->
  mc_has_pending (cs_codec s) = false -> mc_plaintext_eof (cs_codec s) = false ->
  mc_read_plaintext cap (cs_codec s) = (Ok [], cs_codec s) -> bs_recv_some SCRATCH (cs_stream s) = (Ok [], t) ->
  exists s', codec_read_some 1 1 cap s = (Ok [], s') /\ mc_plaintext_eof (cs_codec s') = false.
Proof.
  intros Ho Hc Hb Hof Hp He Hr Ht. destruct s as [t0 c b o]. simpl in *. subst b o.
  assert (forall m, codec_ready cap m (mkCodec t0 c [] 0) = m (mkCodec t0 c [] 0)) as Hready.
  { intros m. unfold codec_ready, co_bind, on_codec, co_if. simpl. rewrite Hr. simpl. by rewrite He. }
  unfold codec_read_some, co_if. rewrite Ho. replace (cap =? 0) with false by lia. unfold co_bind at 1. rewrite feed_no_backlog, Hready by done.
  cbn [codec_read_loop]. unfold co_bind at 1. rewrite flush_idle by done. unfold co_bind at 1. rewrite feed_no_backlog, Hready by done.
  unfold co_if, has_ciphertext_backlog, co_bind at 1, on_stream. simpl. rewrite Ht. simpl. eexists. split; [reflexivity | done].
Qed.

(** ** A scripted peer *)

#[export] Instance script_env : StreamEnv script := {| se_now _ := 0; se_shutdown_write s := s |}.
#[export] Instance script_env_laws : StreamEnvLaws script.
Proof. by constructor. Defined.

Definition sample_calls : list codec_call := [CallHandshake true; CallRead 3; CallWrite "xy"%bs; CallRead 8; CallCloseNotify].

Lemma codec_stream_faithful_witness :
  exists s, run_calls 5 sample_calls (new_codec_stream (mkScript true ["abcd"%bs; "ef"%bs; "gh"%bs] []) make_passthrough_codec) = (Ok tt, s) /\
    mc_fed (cs_codec s) ++ backlog_view s ++ bs_incoming (cs_stream s) = "abcdefgh"%bs /\ mc_fed (cs_codec s) = "abcd"%bs /\
    bs_sent (cs_stream s) = mc_emitted (cs_codec s) /\ bs_sent (cs_stream s) = "xy"%bs.
Proof.
  exists (mkCodec (mkScript true ["ef"%bs; "gh"%bs] "xy"%bs) (mkPass [] [] "abcd"%bs "xy"%bs) [] 0).
  assert (run_calls 5 sample_calls (new_codec_stream (mkScript true ["abcd"%bs; "ef"%bs; "gh"%bs] []) make_passthrough_codec) =
    (Ok tt, mkCodec (mkScript true ["ef"%bs; "gh"%bs] "xy"%bs) (mkPass [] [] "abcd"%bs "xy"%bs) [] 0)) as Hr by (vm_compute; reflexivity).
  split; [exact Hr|].
  eapply (codec_stream_faithful 5 sample_calls (mkScript true ["abcd"%bs; "ef"%bs; "gh"%bs] []) make_passthrough_codec) in Hr as (_ & _ & H);
    [|reflexivity..]. destruct (H eq_refl) as [H1 H2]. split; [exact H1|]. split; [reflexivity|]. split; [exact H2 | reflexivity].
Defined.

Lemma codec_truncation_is_eof_witness :
  exists s', codec_read_some 1 1 10 (new_codec_stream (mkScript true [] []) make_passthrough_codec) = (Ok [], s') /\
    mc_plaintext_eof (cs_codec s') = false.
Proof.
  apply (codec_truncation_is_eof 10 (new_codec_stream (mkScript true [] []) make_passthrough_codec) (mkScript true [] []));
    try reflexivity; discriminate.
Defined.
