(* ===== verification/TlsConfig.v ===== *)
(** * TLS configuration (transport.cpp)

    The PEM texts of a TLS configuration become the certificates, trust
    anchors and keys that the BearSSL codecs are made with:
    [decode_pem_objects], [load_certificates], [load_private_key],
    [certificate_to_trust_anchor] and the constructors of the two codecs.  The
    decoders are BearSSL's ([PemDecoder], [CertDecoder], [KeyDecoder]); what a
    PEM text holds is given by [PemLaws], as the decoder documents it: pushing
    consumes input up to the next event, and hands out the decoded bytes.

    The theorems: [decode_pem_objects] ends on every text and yields the objects
    it holds, in order; a server has exactly the certificates of its texts in
    order and the first key; a client has one trust anchor per certificate;
    and everything else is an exception. *)

From S2P Require Import Prelude CxxString HttpHeaders Transport.

Local Open Scope Z_scope.

(** ** The configurations *)

Record TlsClientConfig := mkTlsClient { tc_server_name : bytes; tc_trust_anchors_pem : list bytes; tc_handshake_timeout : option Z }.
Record TlsServerConfig := mkTlsServer { ts_certificate_chain_pem : list bytes; ts_private_key_pem : bytes; ts_handshake_timeout : option Z }.

(** ** The decoders of BearSSL *)

Inductive pem_event := PemNone | PemBegin | PemEnd | PemError.

(** [br_pem_decoder_push] returns how much it consumed and what it handed to the
    destination; [br_pem_decoder_event] clears the event. *)
Class PemDecoder (D : Type) := {
  pem_init : D;
  pem_push : bytes -> D -> (nat * bytes) * D;
  pem_take_event : D -> pem_event * D;
  pem_name : D -> bytes
}.

Inductive key_kind := KeyRsa | KeyEc | KeyOther.
Record RsaKey := mkRsa { rsa_n_bitlen : Z; rsa_p : bytes; rsa_q : bytes; rsa_dp : bytes; rsa_dq : bytes; rsa_iq : bytes }.
Record EcKey := mkEc { ec_curve : Z; ec_x : bytes }.
(** [br_skey_decoder_*]: the error and, without one, the key. *)
Class KeyDecoder := {
  skey_error : bytes -> Z;
  skey_kind : bytes -> key_kind;
  skey_rsa : bytes -> RsaKey;
  skey_ec : bytes -> EcKey
}.

Inductive public_key := PkRsa (n e : bytes) | PkEc (curve : Z) (q : bytes) | PkOther.
(** [br_x509_decoder_*] on one certificate. *)
Class CertDecoder := {
  x509_pkey : bytes -> option public_key;
  x509_error : bytes -> Z;
  x509_dn : bytes -> bytes;
  x509_is_ca : bytes -> bool;
  x509_signer_key_type : bytes -> Z
}.

(** ** PEM texts *)

Record PemObject := mkPem { po_name : bytes; po_data : bytes }.

Definition invalid_pem : exn := throw_tls_error "invalid PEM data"%bs 0.
Definition pem_source (input : bytes) : bytes := if decide (input = [] \/ last input <> Some LF) then input ++ [LF] else input.

Section Pem.
Context {D : Type} `{PemDecoder D}.

(** The loop: [dest] says whether the destination is set; before, what is
    decoded goes nowhere. *)
Fixpoint pem_loop (fuel : nat) (d : D) (buf : bytes) (dest : bool) (current : bytes) (out : list PemObject) : result (list PemObject) :=
  match buf with
  | [] => Ok out
  | _ =>
      match fuel with
      | O => OutOfFuel
      | S fuel =>
          let '((used, data), d) := pem_push buf d in
          let current := if dest then current ++ data else current in
          let buf := drop used buf in
          match pem_take_event d with
          | (PemBegin, d) => pem_loop fuel d buf true [] out
          | (PemEnd, d) => pem_loop fuel d buf dest [] (out ++ [mkPem (pem_name d) current])
          | (PemError, d) => Throw invalid_pem
          | (PemNone, d) => pem_loop fuel d buf dest current out
          end
      end
  end.
Definition decode_pem_objects (input : bytes) : result (list PemObject) :=
  pem_loop (length (pem_source input)) pem_init (pem_source input) false [] [].

(** ** Certificates and keys *)

Definition is_certificate (o : PemObject) : bool :=
  bool_decide (po_name o = "CERTIFICATE"%bs) || bool_decide (po_name o = "X509 CERTIFICATE"%bs).
Definition no_certificate : exn := throw_tls_error "no certificate found in PEM input"%bs 0.

Fixpoint collect_certificates (pems : list bytes) (blobs : list bytes) : result (list bytes) :=
  match pems with
  | [] => Ok blobs
  | pem :: pems =>
      objects ← decode_pem_objects pem;
      collect_certificates pems (blobs ++ map po_data (List.filter is_certificate objects))
  end.
Definition load_certificates (pems : list bytes) : result (list bytes) :=
  blobs ← collect_certificates pems [];
  match blobs with [] => Throw no_certificate | _ => Ok blobs end.

Context `{KeyDecoder} `{CertDecoder}.

Inductive OwnedPrivateKey := KeyNone | OwnedRsa (k : RsaKey) | OwnedEc (k : EcKey).

Definition is_private_key (o : PemObject) : bool :=
  bool_decide (po_name o = "RSA PRIVATE KEY"%bs) || bool_decide (po_name o = "EC PRIVATE KEY"%bs) || bool_decide (po_name o = "PRIVATE KEY"%bs).
Definition no_private_key : exn := throw_tls_error "no private key found in PEM input"%bs 0.
(** The body of the loop for an object that is a key. *)
Definition decode_key (data : bytes) : result OwnedPrivateKey :=
  let err := skey_error data in
  if negb (err =? 0) then Throw (throw_tls_error "failed to decode private key"%bs err)
  else
    match skey_kind data with
    | KeyRsa => Ok (OwnedRsa (skey_rsa data))
    | KeyEc => Ok (OwnedEc (skey_ec data))
    | KeyOther => Throw (throw_tls_error "unsupported private key type"%bs 0)
    end.
Fixpoint first_key (objects : list PemObject) : result OwnedPrivateKey :=
  match objects with
  | [] => Throw no_private_key
  | o :: objects => if is_private_key o then decode_key (po_data o) else first_key objects
  end.
Definition load_private_key (pem : bytes) : result OwnedPrivateKey := objects ← decode_pem_objects pem; first_key objects.

(** A trust anchor owns the bytes it refers to. *)
Record OwnedTrustAnchor := mkAnchor { ta_dn : bytes; ta_ca : bool; ta_key : public_key }.
Definition certificate_to_trust_anchor (cert : bytes) : result OwnedTrustAnchor :=
  match x509_pkey cert with
  | None => Throw (throw_tls_error "failed to decode trust anchor certificate"%bs (x509_error cert))
  | Some PkOther => Throw (throw_tls_error "unsupported trust anchor key type"%bs 0)
  | Some k => Ok (mkAnchor (x509_dn cert) (x509_is_ca cert) k)
  end.
Fixpoint trust_anchors (certs : list bytes) : result (list OwnedTrustAnchor) :=
  match certs with
  | [] => Ok []
  | cert :: certs => a ← certificate_to_trust_anchor cert; rest ← trust_anchors certs; Ok (a :: rest)
  end.
Definition certificate_signer_key_type (cert : bytes) : result Z :=
  let err := x509_error cert in
  if negb (err =? 0) then Throw (throw_tls_error "failed to decode certificate signer"%bs err) else Ok (x509_signer_key_type cert).

(** ** The codecs *)

(** What BearSSL's engine is initialized with. *)
Inductive engine_setup :=
| ClientSetup (anchors : list OwnedTrustAnchor)
| RsaSetup (chain : list bytes) (key : RsaKey)
| EcSetup (chain : list bytes) (issuer_key_type : Z) (key : EcKey).

Variable E : Type.
Variable init_engine : engine_setup -> E.

Definition make_bearssl_client_codec (config : TlsClientConfig) : result (BearSslCodec E) :=
  if decide (tc_server_name config = []) then Throw (throw_tls_error "TLS client config requires server_name"%bs 0)
  else
    certs ← load_certificates (tc_trust_anchors_pem config);
    anchors ← trust_anchors certs;
    Ok (mkBear true (init_engine (ClientSetup anchors)) (tc_handshake_timeout config) [] []).

Definition make_bearssl_server_codec (config : TlsServerConfig) : result (BearSslCodec E) :=
  chain ← load_certificates (ts_certificate_chain_pem config);
  key ← load_private_key (ts_private_key_pem config);
  let codec setup := mkBear false (init_engine setup) (ts_handshake_timeout config) [] [] in
  match key with
  | OwnedRsa k => Ok (codec (RsaSetup chain k))
  | OwnedEc k =>
      match chain with
      | cert :: _ => issuer ← certificate_signer_key_type cert; Ok (codec (EcSetup chain issuer k))
      | [] => Throw OtherException
      end
  | KeyNone => Throw (throw_tls_error "unsupported server private key"%bs 0)
  end.
End Pem.

(** ** What a PEM text holds *)

(** A text as the decoder reads it: decoded bytes and events. *)
Inductive pem_token := TByte (c : ascii) | TBegin | TEnd (name : bytes) | TError.

(** The contract of the decoder.  [pem_tokens d text] is what a decoder in
    state [d] finds in [text]; a push, made when no event is pending, consumes
    something, stops at the first event, and what it hands out and the event
    are the first tokens of the text. *)
Class PemLaws (D : Type) `{PemDecoder D} := {
  pem_idle : D -> Prop;
  pem_tokens : D -> bytes -> list pem_token;
  pem_init_idle : pem_idle pem_init;
  pem_tokens_nil : forall d, pem_tokens d [] = [];
  pem_push_spec : forall d buf used data d1 ev d2,
    pem_idle d -> buf <> [] -> pem_push buf d = ((used, data), d1) -> pem_take_event d1 = (ev, d2) ->
    (0 < used <= length buf)%nat /\ pem_idle d2 /\
    exists rest, pem_tokens d buf =
      map TByte data ++ match ev with PemNone => [] | PemBegin => [TBegin] | PemEnd => [TEnd (pem_name d2)] | PemError => [TError] end ++ rest /\
      (ev <> PemError -> rest = pem_tokens d2 (drop used buf))
}.

(** The tokens of an object, and the objects that a text holds: whatever comes
    behind them is unfinished. *)
Definition object_tokens (o : PemObject) : list pem_token := TBegin :: map TByte (po_data o) ++ [TEnd (po_name o)].
Definition quiet_token (t : pem_token) : bool := match t with TEnd _ | TError => false | _ => true end.
Definition text_holds {D} `{PemLaws D} (input : bytes) (objects : list PemObject) : Prop :=
  exists tail, pem_tokens pem_init (pem_source input) = concat (map object_tokens objects) ++ tail /\ Forall (fun t => quiet_token t = true) tail.

Section PemProofs.
Context {D : Type} `{PemLaws D}.

Fixpoint assemble (ts : list pem_token) (dest : bool) (current : bytes) (out : list PemObject) : result (list PemObject) :=
  match ts with
  | [] => Ok out
  | TByte c :: ts => assemble ts dest (if dest then current ++ [c] else current) out
  | TBegin :: ts => assemble ts true [] out
  | TEnd name :: ts => assemble ts dest [] (out ++ [mkPem name current])
  | TError :: _ => Throw invalid_pem
  end.

Lemma assemble_bytes data ts dest current out :
  assemble (map TByte data ++ ts) dest current out = assemble ts dest (if dest then current ++ data else current) out.
Proof.
  revert current. induction data as [|c data IH]; intros current; simpl; [destruct dest; by rewrite ?app_nil_r|].
  rewrite IH. destruct dest; [by rewrite <- app_assoc | done].
Qed.

(** The loop reads the tokens of its text: however the decoder splits it, in at
    most as many steps as it has bytes. *)
Lemma pem_loop_assemble fuel d buf dest current out :
  pem_idle d -> (length buf <= fuel)%nat -> pem_loop fuel d buf dest current out = assemble (pem_tokens d buf) dest current out.
Proof.
  revert d buf dest current out. induction fuel as [|fuel IH]; intros d buf dest current out Hd Hf.
  - destruct buf; [|simpl in Hf; lia]. by rewrite pem_tokens_nil.
  - destruct buf as [|c buf]; [by rewrite pem_tokens_nil|]. cbn [pem_loop].
    destruct (pem_push (c :: buf) d) as [[used data] d1] eqn:Ep. destruct (pem_take_event d1) as [ev d2] eqn:Ee.
    assert (c :: buf <> []) as Hne by done.
    destruct (pem_push_spec d (c :: buf) used data d1 ev d2 Hd Hne Ep Ee) as (Hu & Hd2 & rest & Ht & Hrest). rewrite Ht, assemble_bytes.
    destruct ev; [rewrite Hrest by done.. | done]; simpl app; cbn [assemble]; apply IH; try done; rewrite length_drop; lia.
Qed.

Lemma assemble_quiet tail dest current out : Forall (fun t => quiet_token t = true) tail -> assemble tail dest current out = Ok out.
Proof. intros Hq. revert dest current. induction Hq as [|[] tail Ht Hq IH]; intros dest current; simpl; try done; apply IH. Qed.

Lemma assemble_objects objects tail dest current out :
  Forall (fun t => quiet_token t = true) tail -> assemble (concat (map object_tokens objects) ++ tail) dest current out = Ok (out ++ objects).
Proof.
  intros Hq. revert dest current out. induction objects as [|o objects IH]; intros dest current out; simpl; [by rewrite app_nil_r, assemble_quiet|].
  rewrite <- !app_assoc, assemble_bytes. simpl. rewrite IH, <- app_assoc. by destruct o.
Qed.

Lemma decode_holds input objects : text_holds input objects -> decode_pem_objects input = Ok objects.
Proof.
  intros (tail & Ht & Hq). unfold decode_pem_objects. rewrite pem_loop_assemble by (apply pem_init_idle || lia). by rewrite Ht, assemble_objects.
Qed.

(** Decoding ends on every text. *)
Lemma decode_total input : decode_pem_objects input <> OutOfFuel.
Proof.
  unfold decode_pem_objects. rewrite pem_loop_assemble by (apply pem_init_idle || lia).
  generalize (pem_tokens pem_init (pem_source input)) false (@nil ascii) (@nil PemObject).
  intros ts. induction ts as [|[] ts IH]; intros dest current out; simpl; try done; apply IH.
Qed.

Lemma collect_holds pems objects blobs :
  Forall2 text_holds pems objects ->
  collect_certificates pems blobs = Ok (blobs ++ map po_data (List.filter is_certificate (concat objects))).
Proof.
  intros Hp. revert blobs. induction Hp as [|pem os pems oss Hp Hps IH]; intros blobs; simpl; [by rewrite app_nil_r|].
  rewrite (decode_holds _ _ Hp). simpl. rewrite IH, List.filter_app, map_app. by rewrite app_assoc.
Qed.
End PemProofs.

(** *** What the codecs are made with *)

Definition certificates_of (objects : list (list PemObject)) : list bytes := map po_data (List.filter is_certificate (concat objects)).

(** A server codec for texts that hold given objects: its chain is every
    certificate of the texts, in order, and its key the first that the key's
    text holds; the codec is made if and only if there are both and the key can
    be decoded, and, for an elliptic curve, the first certificate. *)
Theorem server_codec_exact {D} `{PemLaws D} `{KeyDecoder} `{CertDecoder} {E} (init_engine : engine_setup -> E) config chains keys :
  Forall2 text_holds (ts_certificate_chain_pem config) chains -> text_holds (ts_private_key_pem config) keys ->
  make_bearssl_server_codec E init_engine config =
    match certificates_of chains with
    | [] => Throw no_certificate
    | cert :: _ =>
        match List.find is_private_key keys with
        | None => Throw no_private_key
        | Some o =>
            setup ← (k ← decode_key (po_data o);
                     match k with
                     | OwnedRsa k => Ok (RsaSetup (certificates_of chains) k)
                     | OwnedEc k => issuer ← certificate_signer_key_type cert; Ok (EcSetup (certificates_of chains) issuer k)
                     | KeyNone => Throw (throw_tls_error "unsupported server private key"%bs 0)
                     end);
            Ok (mkBear false (init_engine setup) (ts_handshake_timeout config) [] [])
        end
    end.
Proof.
  intros Hc Hk. unfold make_bearssl_server_codec, load_certificates, load_private_key. rewrite (collect_holds _ _ _ Hc), (decode_holds _ _ Hk).
  cbn [mbind result_bind app]. fold (certificates_of chains). destruct (certificates_of chains) as [|cert certs]; [done|]. cbn [mbind result_bind].
  assert (first_key keys = match List.find is_private_key keys with None => Throw no_private_key | Some o => decode_key (po_data o) end) as ->.
  { clear Hk. induction keys as [|o keys IH]; simpl; [done|]. by destruct (is_private_key o). }
  destruct (List.find is_private_key keys) as [o|]; [|done]. destruct (decode_key (po_data o)) as [[|k|k]| |]; try done. simpl.
  by destruct (certificate_signer_key_type cert).
Qed.

(** A client codec needs a server name and a certificate it can trust; it
    trusts one anchor per certificate, in order. *)
Theorem client_codec_exact {D} `{PemLaws D} `{CertDecoder} {E} (init_engine : engine_setup -> E) config chains anchors :
  tc_server_name config <> [] -> Forall2 text_holds (tc_trust_anchors_pem config) chains -> certificates_of chains <> [] ->
  Forall2 (fun cert a => certificate_to_trust_anchor cert = Ok a) (certificates_of chains) anchors ->
  make_bearssl_client_codec E init_engine config = Ok (mkBear true (init_engine (ClientSetup anchors)) (tc_handshake_timeout config) [] []).
Proof.
  intros Hn Hc Hne Ha. unfold make_bearssl_client_codec, load_certificates. rewrite decide_False, (collect_holds _ _ _ Hc) by done.
  cbn [mbind result_bind app]. fold (certificates_of chains). assert (trust_anchors (certificates_of chains) = Ok anchors) as Ht.
  { clear Hne. induction Ha as [|cert a certs anchors Ea Ha IH]; simpl; [done|]. by rewrite Ea, IH. }
  destruct (certificates_of chains) as [|cert certs]; [done|]. cbn [mbind result_bind]. by rewrite Ht.
Qed.

(** ** A decoder for a small notation

    [B] begins an object, [C] ends a certificate and [K] a key, [!] is an
    error, a line feed is nothing and every other byte stands for itself. *)
Record SmallPem := mkSmall { sp_event : pem_event; sp_name : bytes }.
Definition small_read (c : ascii) : bytes * pem_event * bytes :=
  if decide (c = "B"%char) then ([], PemBegin, [])
  else if decide (c = "C"%char) then ([], PemEnd, "CERTIFICATE"%bs)
  else if decide (c = "K"%char) then ([], PemEnd, "PRIVATE KEY"%bs)
  else if decide (c = "!"%char) then ([], PemError, [])
  else if decide (c = LF) then ([], PemNone, [])
  else ([c], PemNone, []).
Definition small_tokens (c : ascii) : list pem_token :=
  let '(data, ev, name) := small_read c in
  map TByte data ++ match ev with PemNone => [] | PemBegin => [TBegin] | PemEnd => [TEnd name] | PemError => [TError] end.
#[export] Instance small_pem : PemDecoder SmallPem := {|
  pem_init := mkSmall PemNone [];
  pem_push buf d := match buf with c :: _ => let '(data, ev, name) := small_read c in ((1%nat, data), mkSmall ev name) | [] => ((0%nat, []), d) end;
  pem_take_event d := (sp_event d, mkSmall PemNone (sp_name d));
  pem_name := sp_name
|}.
#[export] Instance small_pem_laws : PemLaws SmallPem.
Proof.
  refine {| pem_idle d := sp_event d = PemNone; pem_tokens _ text := concat (map small_tokens text) |}; [done | done|].
  intros d [|c buf] used data d1 ev d2 _ Hne Hp He; [done|]. simpl in Hp, He.
  assert (small_tokens c = small_tokens c) as Ht by done. unfold small_tokens at 2 in Ht. destruct (small_read c) as [[dat e] name]. simplify_eq. simpl.
  split; [lia|]. split; [done|]. exists (concat (map small_tokens buf)). split; [by rewrite Ht, <- app_assoc | done].
Defined.
#[export] Instance small_keys : KeyDecoder := {| skey_error _ := 0; skey_kind _ := KeyEc; skey_rsa _ := mkRsa 0 [] [] [] [] []; skey_ec d := mkEc 23 d |}.
#[export] Instance small_certs : CertDecoder :=
  {| x509_pkey d := Some (PkEc 23 d); x509_error _ := 0; x509_dn d := d; x509_is_ca _ := true; x509_signer_key_type _ := 1 |}.

Definition cert_object (data : bytes) : PemObject := mkPem "CERTIFICATE"%bs data.

(** Two texts with three certificates and a key; the last certificate is cut
    off. *)
Lemma server_codec_exact_witness :
  make_bearssl_server_codec (D := SmallPem) engine_setup (fun s => s) (mkTlsServer ["BaCBbC"%bs; "BcC"%bs; "Bcut"%bs] "BxCBkK"%bs None) =
    Ok (mkBear false (EcSetup ["a"%bs; "b"%bs; "c"%bs] 1 (mkEc 23 "k"%bs)) None [] []).
Proof.
  etransitivity; [apply (server_codec_exact (D := SmallPem) (fun s => s) (mkTlsServer ["BaCBbC"%bs; "BcC"%bs; "Bcut"%bs] "BxCBkK"%bs None)
    [[cert_object "a"%bs; cert_object "b"%bs]; [cert_object "c"%bs]; []] [cert_object "x"%bs; mkPem "PRIVATE KEY"%bs "k"%bs])|].
  - repeat constructor; eexists; (split; [vm_compute; reflexivity | repeat constructor]).
  - eexists. split; [vm_compute; reflexivity | repeat constructor].
  - vm_compute. reflexivity.
Defined.
