(* ===== verification/NetHttp.v ===== *)
(** * HTTP over TCP

    The composition of [HttpExchange.v] with [NetTcp.v]: [HealthyTcp]
    satisfies the interface the HTTP theorems rely on, so that a request that
    goes through [TcpStream::write_all] on one side and comes out of
    [TcpStream::read_some] on the other is the same request, however libuv
    splits the writes and the network segments the bytes.  The same holds with
    a [CodecStream] of transport.cpp in between. *)

From S2P Require Import Prelude CxxString HttpHeaders HttpForm HttpUrl Stream HttpBody HttpConnection HttpExchange NetWait NetTcp Transport.

Local Open Scope Z_scope.

Section Fresh.
Context {E : Type} `{UvReliable E}.

Lemma fresh_healthy (e : E) : Is_true (healthy (mkStream (Some opened_tcp) e)).
Proof. done. Qed.

(** A connection object on a stream that was just opened. *)
Definition tcp_conn {K} (e : E) (k : K) : conn HealthyTcp K :=
  mkConn (exist _ (mkStream (Some opened_tcp) e) (fresh_healthy e)) [] 0 None k.

Lemma tcp_conn_ok {K} (e : E) (k : K) : size_of (uv_incoming e) < 2 ^ 62 -> conn_ok (tcp_conn e k) /\ input (tcp_conn e k) = uv_incoming e.
Proof. intros Hs. split; [|done]. split_and!; [done | done |]. change (0 + size_of (uv_incoming e) < 2 ^ 62). lia. Qed.
End Fresh.

(** A request written to a TCP connection is read from the other end.  On
    connections on which nothing fails, [write_request] returns, whatever
    libuv accepts per call; and a server connection that receives these
    bytes, in whatever segments, followed by [rest], reads the same request
    and has [rest] left to read. *)
Theorem request_over_tcp {E1 E2 K1 K2} `{UvReliable E1} `{UvReliable E2} `{PhrLaws}
    limits wlimits wt rt q host (e1 : E1) (k1 : K1) wfuel :
  request_fits limits q host -> (2 <= wfuel)%nat ->
  exists w' wire,
    write_request wlimits wt wfuel q host (tcp_conn e1 k1) = (Ok tt, w') /\
    uv_sent (ts_env (proj1_sig (c_stream w'))) = uv_sent e1 ++ wire /\
    forall (e2 : E2) (k2 : K2) rest rfuel,
      uv_incoming e2 = wire ++ rest -> size_of (uv_incoming e2) < 2 ^ 62 ->
      (length (uv_incoming e2) + body_fuel (rq_body q) (rq_trailers q) <= rfuel)%nat ->
      exists r', read_request limits rt rfuel (tcp_conn e2 k2) = (Ok (Some (received_request q host)), r') /\ input r' = rest.
Proof.
  intros Hfit Hwf. destruct (request_headers_ok limits q host Hfit) as (_ & _ & _ & He & _).
  destruct (write_request_ok wlimits wt q host wfuel (tcp_conn e1 k1)) as (w' & Hw & Sw & _);
    [done | apply (qf_minor _ _ _ Hfit) | done | done |].
  exists w', (request_wire q host). split_and!; [done | apply Sw |]. intros e2 k2 rest rfuel Hin Hsz Hf.
  destruct (tcp_conn_ok e2 k2 Hsz) as [Hok Hinp].
  destruct (read_request_ok limits rt q host rest rfuel (tcp_conn e2 k2) Hok) as (r' & Hr & Hto); [congruence | done | done |].
  exists r'. split; [done|]. apply Hto.
Qed.

Lemma request_over_tcp_witness :
  exists w' wire,
    write_request sample_limits no_timeouts 2 sample_chunked "example.org:8080"%bs (tcp_conn (mkWire [] [] [3; 0; 5]) tt) = (Ok tt, w') /\
    uv_sent (ts_env (proj1_sig (c_stream w'))) = [] ++ wire.
Proof.
  destruct (request_over_tcp (E1 := NetTcp.wire) (E2 := NetTcp.wire) (K2 := unit) sample_limits sample_limits no_timeouts no_timeouts sample_chunked
    "example.org:8080"%bs (mkWire [] [] [3; 0; 5]) tt 2) as (w' & wire & Hw & Hs & _).
  - apply sample_fits. by right.
  - lia.
  - exists w', wire. split; [exact Hw | exact Hs].
Defined.

(** ** Over a codec stream *)

Section Codec.
Context {S : Type} `{ReliableStream S}.

Lemma fresh_settled (t : S) : Is_true (settled (new_codec_stream t make_passthrough_codec)).
Proof. done. Qed.

(** [make_passthrough], under a connection object. *)
Definition codec_conn {K} (t : S) (k : K) : conn SettledStream K := mkConn (exist _ (new_codec_stream t make_passthrough_codec) (fresh_settled t)) [] 0 None k.
End Codec.

(** A request written to a passthrough stream over a reliable stream is read
    from a passthrough stream at the other end: the composition of
    [HttpExchange.v], [Transport.v] and whatever is below. *)
Theorem request_over_codec {S1 S2 K1 K2} `{ReliableStream S1} `{ReliableStream S2} `{PhrLaws}
    limits wlimits wt rt q host (t1 : S1) (k1 : K1) wfuel :
  request_fits limits q host -> bs_is_open t1 = true -> (2 <= wfuel)%nat ->
  exists w' wire,
    write_request wlimits wt wfuel q host (codec_conn t1 k1) = (Ok tt, w') /\
    bs_sent (cs_stream (proj1_sig (c_stream w'))) = bs_sent t1 ++ wire /\
    forall (t2 : S2) (k2 : K2) rest rfuel,
      bs_is_open t2 = true -> bs_incoming t2 = wire ++ rest -> size_of (bs_incoming t2) < 2 ^ 62 ->
      (length (bs_incoming t2) + body_fuel (rq_body q) (rq_trailers q) <= rfuel)%nat ->
      exists r', read_request limits rt rfuel (codec_conn t2 k2) = (Ok (Some (received_request q host)), r') /\ input r' = rest.
Proof.
  intros Hfit Ho Hwf. destruct (request_headers_ok limits q host Hfit) as (_ & _ & _ & He & _).
  destruct (write_request_ok wlimits wt q host wfuel (codec_conn t1 k1)) as (w' & Hw & Sw & _);
    [done | apply (qf_minor _ _ _ Hfit) | done | done |].
  exists w', (request_wire q host). split_and!; [done | apply Sw |]. intros t2 k2 rest rfuel Ho2 Hin Hsz Hf.
  destruct (read_request_ok limits rt q host rest rfuel (codec_conn t2 k2)) as (r' & Hr & Hto).
  - split_and!; [done | done |]. change (0 + size_of (bs_incoming t2) < 2 ^ 62). lia.
  - exact Hin.
  - done.
  - exact Hf.
  - exists r'. split; [done|]. apply Hto.
Qed.
