(* ===== verification/UvExecutor.v ===== *)
(** * The executor and its one-shot operations (uv_executor.cpp, poll.h, blocking.h)

    [UvExecutor] queues functions from any thread and runs them on the loop
    thread when libuv calls [on_async].  The model keeps the granularity of
    the code: the test of [closing], the push under the mutex and
    [uv_async_send] are separate steps, so that threads interleave between
    them; libuv may merge several sends into one callback.  The theorems say
    that functions run once and in the order in which they were queued, and
    that a queued function always has a callback on its way.

    The second part models the operations that run on the loop and complete
    exactly once: [TimerOp] of the delayed [schedule], [Op] of [poll::wait],
    and [Op] of [blocking::run]. *)

From S2P Require Import Prelude NetWait.

(** ** UvExecutor::State *)

(** A thread in [enqueue]. *)
Inductive enqueue_pc :=
| EnqTest (f : nat)        (* before the test of [closing] *)
| EnqPush (f : nat)        (* before the push *)
| EnqSend (f : nat)        (* before [uv_async_send] *)
| EnqDone (ok : bool).

Record Executor := mkExecutor {
  x_queue : list nat;
  x_pending : Z;                 (* the counter [pending] *)
  x_closing : bool;
  x_signal : bool;               (* libuv will call [on_async] *)
  x_local : list nat;            (* [local] of the running [on_async], still to run *)
  x_draining : bool;             (* [on_async] is running *)
  x_counted : bool;              (* it has reduced [pending] *)
  x_threads : list enqueue_pc;
  x_pushed : list nat;           (* every function queued so far *)
  x_executed : list nat          (* every function run so far *)
}.
Definition new_executor : Executor := mkExecutor [] 0 false false [] false true [] [] [].

Definition set_thread (i : nat) (pc : enqueue_pc) (x : Executor) : Executor :=
  mkExecutor (x_queue x) (x_pending x) (x_closing x) (x_signal x) (x_local x) (x_draining x) (x_counted x)
    (<[i := pc]> (x_threads x)) (x_pushed x) (x_executed x).
Definition push_func (f : nat) (x : Executor) : Executor :=
  mkExecutor (x_queue x ++ [f]) (x_pending x + 1) (x_closing x) (x_signal x) (x_local x) (x_draining x) (x_counted x) (x_threads x)
    (x_pushed x ++ [f]) (x_executed x).
Definition send_async (x : Executor) : Executor :=
  mkExecutor (x_queue x) (x_pending x) (x_closing x) (negb (x_closing x) || x_signal x) (x_local x) (x_draining x) (x_counted x) (x_threads x)
    (x_pushed x) (x_executed x).

(** The next step of thread [i] in [enqueue]. *)
Definition enqueue_step (i : nat) (x : Executor) : option Executor :=
  match x_threads x !! i with
  | Some (EnqTest f) => Some (set_thread i (if x_closing x then EnqDone false else EnqPush f) x)
  | Some (EnqPush f) => Some (push_func f (set_thread i (EnqSend f) x))
  | Some (EnqSend f) => Some (send_async (set_thread i (EnqDone true) x))
  | _ => None
  end.

(** [on_async]: the queue is swapped out under the mutex, then [pending] is
    reduced, then the functions run one by one. *)
Definition on_async (x : Executor) : option Executor :=
  if x_signal x && negb (x_draining x) && negb (x_closing x) then
    Some (mkExecutor [] (x_pending x) (x_closing x) false (x_queue x) true false (x_threads x) (x_pushed x) (x_executed x))
  else None.
Definition reduce_pending (x : Executor) : option Executor :=
  if x_draining x && negb (x_counted x) then
    Some (mkExecutor (x_queue x) (x_pending x - size_of (x_local x)) (x_closing x) (x_signal x) (x_local x) true true (x_threads x)
            (x_pushed x) (x_executed x))
  else None.
Definition run_next (x : Executor) : option Executor :=
  if x_draining x && x_counted x then
    match x_local x with
    | f :: rest =>
        Some (mkExecutor (x_queue x) (x_pending x) (x_closing x) (x_signal x) rest true true (x_threads x) (x_pushed x)
                (x_executed x ++ [f]))
    | [] =>
        Some (mkExecutor (x_queue x) (x_pending x) (x_closing x) (x_signal x) [] false true (x_threads x) (x_pushed x) (x_executed x))
    end
  else None.

(** [shutdown], on the loop thread: the handle is closed and [on_async] will
    not be called again; a running [on_async] goes on. *)
Definition shutdown_executor (x : Executor) : Executor :=
  mkExecutor (x_queue x) (x_pending x) true (if x_closing x then x_signal x else false) (x_local x) (x_draining x) (x_counted x) (x_threads x)
    (x_pushed x) (x_executed x).

Inductive executor_event :=
| XSchedule (f : nat)      (* a thread calls [schedule] *)
| XEnqueue (i : nat)
| XAsync
| XReduce
| XRun
| XShutdown.

Definition executor_step (ev : executor_event) (x : Executor) : option Executor :=
  match ev with
  | XSchedule f =>
      Some (mkExecutor (x_queue x) (x_pending x) (x_closing x) (x_signal x) (x_local x) (x_draining x) (x_counted x)
              (x_threads x ++ [EnqTest f]) (x_pushed x) (x_executed x))
  | XEnqueue i => enqueue_step i x
  | XAsync => on_async x
  | XReduce => reduce_pending x
  | XRun => run_next x
  | XShutdown => Some (shutdown_executor x)
  end.

Fixpoint executor_run (evs : list executor_event) (x : Executor) : option Executor :=
  match evs with
  | [] => Some x
  | ev :: evs => match executor_step ev x with Some x' => executor_run evs x' | None => None end
  end.

(** *** Invariant *)

Definition about_to_send (x : Executor) : Prop := exists i f, x_threads x !! i = Some (EnqSend f).

Record executor_inv (x : Executor) : Prop := {
  xv_order : x_pushed x = x_executed x ++ x_local x ++ x_queue x;
  xv_pending : x_pending x = (size_of (x_queue x) + (if x_counted x then 0 else size_of (x_local x)))%Z;
  xv_idle : x_draining x = false -> x_local x = [] /\ x_counted x = true;
  xv_signal : x_queue x <> [] -> x_closing x = false -> x_signal x = true \/ about_to_send x
}.

Lemma about_to_send_insert i pc x : ~ (exists f, x_threads x !! i = Some (EnqSend f)) -> about_to_send x -> about_to_send (set_thread i pc x).
Proof.
  intros Hi (j & f & Hj). exists j, f. simpl. rewrite list_lookup_insert_ne; [done|]. intros ->. apply Hi. eauto.
Qed.

Lemma executor_step_inv ev x x' : executor_inv x -> executor_step ev x = Some x' -> executor_inv x'.
Proof.
  intros [I1 I2 I3 I4]. destruct ev as [f|i| | | |]; simpl.
  - intros [= <-]. constructor; simpl; try done. intros Hq Hc. destruct (I4 Hq Hc) as [?|(i & g & Hi)]; [by left|].
    right. exists i, g. simpl. by apply lookup_app_l_Some.
  - unfold enqueue_step. destruct (x_threads x !! i) as [[f|f|f|ok]|] eqn:Hi; [| | |done|done]; intros [= <-].
    + constructor; simpl; try done. intros Hq Hc. destruct (I4 Hq Hc) as [?|Hs]; [by left|]. right.
      apply about_to_send_insert; [|done]. intros (g & Hg). congruence.
    + constructor; simpl; try done.
      * by rewrite I1, !app_assoc.
      * rewrite I2, size_of_app. unfold size_of. simpl. lia.
      * intros _ _. right. exists i, f. simpl. rewrite list_lookup_insert_eq; [done | by eapply lookup_lt_Some].
    + constructor; simpl; try done. intros _ Hc. left. by rewrite Hc.
  - unfold on_async. destruct (_ && _ && _) eqn:E; [|done]. rewrite !andb_true_iff, !negb_true_iff in E. destruct E as [[_ Ed] _]. intros [= <-].
    destruct (I3 Ed) as [El Ec]. rewrite El in I1. rewrite Ec in I2. simpl in I1.
    constructor; simpl; try done; [by rewrite app_nil_r | unfold size_of in *; simpl; lia].
  - unfold reduce_pending. destruct (_ && _) eqn:E; [|done]. rewrite andb_true_iff, negb_true_iff in E. destruct E as [_ Ec]. intros [= <-].
    rewrite Ec in I2. constructor; simpl; try done; lia.
  - unfold run_next. destruct (x_draining x && x_counted x) eqn:Ed; [|done]. apply andb_prop in Ed as [Ed Ec]. rewrite Ec in I2. destruct (x_local x) as [|f rest] eqn:El; intros [= <-]; constructor; simpl; try done.
    by rewrite I1, <- app_assoc.
  - intros [= <-]. constructor; simpl; try done.
Qed.

(** Only [shutdown] closes the executor. *)
Lemma executor_step_closing ev x x' : ev <> XShutdown -> executor_step ev x = Some x' -> x_closing x' = x_closing x.
Proof.
  intros Hev. destruct ev as [f|i| | | |]; simpl; [by intros [= <-] | | | | | done].
  - unfold enqueue_step. destruct (x_threads x !! i) as [[]|]; by intros [= <-] || done.
  - unfold on_async. destruct (_ && _); by intros [= <-] || done.
  - unfold reduce_pending. destruct (_ && _); by intros [= <-] || done.
  - unfold run_next. destruct (_ && _); [|done]. destruct (x_local x); by intros [= <-].
Qed.

Lemma executor_run_inv evs x : executor_run evs new_executor = Some x -> executor_inv x.
Proof.
  assert (executor_inv new_executor) as H0 by (by constructor). revert H0. generalize new_executor. 
  induction evs as [|ev evs IH]; intros y Hy; simpl; [by intros [= <-]|].
  destruct (executor_step ev y) as [y1|] eqn:E; [|done]. apply IH. by eapply executor_step_inv.
Qed.

(** C21: In every interleaving of threads that schedule, of the loop and of
    [shutdown], the functions run in the order in which they were queued, each
    at most once: those queued are those run, those of the running callback
    and those waiting.  While the executor is not shut down, a waiting
    function has a callback of [on_async] on its way, and the counter
    [pending] is the length of the queue, once [on_async] has reduced it. *)
Theorem executor_runs_in_order evs x :
  executor_run evs new_executor = Some x ->
  x_pushed x = x_executed x ++ x_local x ++ x_queue x /\
  x_pending x = (size_of (x_queue x) + (if x_counted x then 0 else size_of (x_local x)))%Z /\
  (x_queue x <> [] -> x_closing x = false -> x_signal x = true \/ about_to_send x).
Proof. intros E. apply executor_run_inv in E as [I1 I2 _ I4]. by split_and!. Qed.

(** Two threads schedule, one is served. *)
Definition executor_events : list executor_event :=
  [XSchedule 1; XSchedule 2; XEnqueue 0; XEnqueue 1; XEnqueue 1; XEnqueue 1; XAsync; XReduce; XRun; XEnqueue 0].
Definition executor_sample : Executor :=
  mkExecutor [1] 1 false false [] true true [EnqSend 1; EnqDone true] [2; 1] [2].

Lemma executor_runs_in_order_witness :
  executor_run executor_events new_executor = Some executor_sample /\ x_pushed executor_sample = [2] ++ [] ++ [1].
Proof.
  split; [reflexivity|]. refine (proj1 (executor_runs_in_order executor_events executor_sample _)). reflexivity.
Defined.

(** A function that [schedule] accepted is dropped when the executor is shut
    down before the callback: it is neither run nor reported. *)
Theorem executor_shutdown_drops :
  exists x, executor_run [XSchedule 1; XEnqueue 0; XEnqueue 0; XEnqueue 0; XShutdown] new_executor = Some x /\
    x_threads x = [EnqDone true] /\ x_queue x = [1] /\
    forall evs x', executor_run evs x = Some x' -> 1 ∉ x_executed x'.
Proof.
  eexists. split; [reflexivity|]. split; [done|]. split; [done|].
  assert (forall evs y y', executor_run evs y = Some y' -> x_closing y = true -> x_signal y = false -> x_draining y = false ->
    x_executed y = [] -> x_executed y' = []) as Hgen.
  { induction evs as [|ev evs IH]; intros y y'; simpl; [by intros [= <-]|].
    destruct (executor_step ev y) as [y1|] eqn:E; [|done]. intros Hr Hc Hs Hd He. eapply IH; [exact Hr|..];
      destruct ev as [f|i| | | |]; simpl in E;
      repeat match goal with
      | E : Some _ = Some _ |- _ => injection E as <-
      | E : enqueue_step _ _ = Some _ |- _ => unfold enqueue_step in E
      | E : on_async _ = Some _ |- _ => unfold on_async in E; rewrite Hs in E; done
      | E : reduce_pending _ = Some _ |- _ => unfold reduce_pending in E; rewrite Hd in E; done
      | E : run_next _ = Some _ |- _ => unfold run_next in E; rewrite Hd in E; done
      | E : match ?t with _ => _ end = Some _ |- _ => destruct t
      end; simpl; rewrite ?Hc; simpl; try done. }
  intros evs x' Hr. rewrite (Hgen evs _ x' Hr); [apply not_elem_of_nil | done | done | done | done].
Qed.

(** ** Handles of one-shot operations *)

Inductive uv_handle := HNone | HIdle | HActive | HClosing.

(** ** TimerOp of the delayed [schedule] *)

Record TimerOp := mkTimer {
  tm_done : bool;
  tm_started : bool;        (* [timer_started] *)
  tm_start_pending : bool;  (* the call of [start_timer_on_loop] is still to come *)
  tm_handle : uv_handle;
  tm_calls : nat            (* how often [func] was called *)
}.
Definition new_timer : TimerOp := mkTimer false false true HNone 0.

(** [start_timer_on_loop], with the codes of [uv_timer_init] and
    [uv_timer_start]; on an error it throws. *)
Definition start_timer_on_loop (init_rc start_rc : Z) (t : TimerOp) : option TimerOp :=
  if negb (tm_start_pending t) then None
  else if tm_done t then Some (mkTimer true (tm_started t) false (tm_handle t) (tm_calls t))
  else if negb (init_rc =? 0)%Z then None
  else if negb (start_rc =? 0)%Z then None
  else Some (mkTimer false true false HActive (tm_calls t)).

Definition timer_complete_on_loop (t : TimerOp) : TimerOp :=
  if tm_done t then t
  else mkTimer true (tm_started t) (tm_start_pending t) (if tm_started t then HClosing else tm_handle t) (S (tm_calls t)).

(** The delayed [schedule] itself.  [Duration] counts microseconds; libuv's
    timers count milliseconds, and a delay that is not positive is 0. *)
Definition delay_ms (us : Z) : Z := let ms := Z.quot us 1000 in if (ms <=? 0)%Z then 0%Z else ms.

Inductive delayed :=
| DelayedDropped                  (* the executor has no state any more *)
| DelayedQueued (ok : bool)       (* already cancelled: [func] itself is queued; [ok] is [enqueue]'s answer *)
| DelayedStarted (ms : Z)         (* [start_timer_on_loop], here and now *)
| DelayedPosted (ms : Z)          (* it is queued *)
| DelayedCompleted.               (* the executor is closing: [complete_on_loop], here and now *)

(** [slot]: whether the task has one, and whether it is cancelled already. *)
Definition schedule_delayed (state closing on_loop : bool) (slot : option bool) (us : Z) : delayed :=
  if negb state then DelayedDropped
  else
    match slot with
    | Some true => DelayedQueued (negb closing)
    | _ =>
        if on_loop then DelayedStarted (delay_ms us)
        else if negb closing then DelayedPosted (delay_ms us) else DelayedCompleted
    end.

(** Whether the function is still to be called, or has been. *)
Definition delayed_kept (d : delayed) : bool :=
  match d with DelayedDropped | DelayedQueued false => false | _ => true end.

(** A delay is rounded down to milliseconds: it is never longer than asked,
    and less than a millisecond shorter. *)
Lemma delay_ms_bounds us : (0 <= us -> us - 1000 < delay_ms us * 1000 <= us)%Z /\ (us <= 0 -> delay_ms us = 0)%Z.
Proof.
  unfold delay_ms. pose proof (Z.quot_rem' us 1000) as Hq. split; intros Hu.
  - pose proof (Z.rem_bound_pos us 1000 Hu ltac:(lia)). destruct (Z.leb_spec (Z.quot us 1000) 0); lia.
  - pose proof (Z.quot_le_mono us 0 1000 ltac:(lia) Hu) as Hm. rewrite Z.quot_0_l in Hm by lia. by replace (Z.quot us 1000 <=? 0)%Z with true by lia.
Qed.

(** The function of a delayed [schedule] is lost exactly if the executor was
    shut down, or is closing and the task is cancelled already; in the second
    case a task that is not cancelled would be resumed at once. *)
Theorem delayed_lost state closing on_loop slot us :
  delayed_kept (schedule_delayed state closing on_loop slot us) = false <->
  state = false \/ (slot = Some true /\ closing = true).
Proof. unfold schedule_delayed. destruct state, closing, on_loop, slot as [[]|]; simpl; naive_solver. Qed.

Inductive timer_event :=
| TmStart (init_rc start_rc : Z)
| TmTimeout                    (* [on_timeout] *)
| TmCancel.                    (* the posted call of [request_cancel_from_any_thread] *)

Definition timer_step (ev : timer_event) (t : TimerOp) : option TimerOp :=
  match ev with
  | TmStart a b => start_timer_on_loop a b t
  | TmTimeout => match tm_handle t with HActive => Some (timer_complete_on_loop t) | _ => None end
  | TmCancel => Some (timer_complete_on_loop t)
  end.

Definition run_steps {S Ev} (step : Ev -> S -> option S) : list Ev -> S -> option S :=
  fix go evs s := match evs with [] => Some s | ev :: evs => match step ev s with Some s' => go evs s' | None => None end end.

Lemma run_steps_inv {S Ev} (step : Ev -> S -> option S) (P : S -> Prop) evs s s' :
  (forall ev s s', P s -> step ev s = Some s' -> P s') -> P s -> run_steps step evs s = Some s' -> P s'.
Proof.
  intros Hstep. revert s. induction evs as [|ev evs IH]; intros s HP; simpl; [by intros [= <-]|].
  destruct (step ev s) as [s1|] eqn:E; [|done]. apply IH. by eapply Hstep.
Qed.

Definition timer_inv (t : TimerOp) : Prop :=
  tm_calls t = (if tm_done t then 1 else 0) /\ (tm_started t = true <-> tm_handle t <> HNone) /\
  (tm_done t = false -> tm_start_pending t = true /\ tm_handle t = HNone \/ tm_handle t = HActive) /\
  (tm_done t = true -> tm_handle t = HNone \/ tm_handle t = HClosing).

Lemma timer_step_inv ev t t' : timer_inv t -> timer_step ev t = Some t' -> timer_inv t'.
Proof.
  intros (H1 & H2 & H3 & H4). unfold timer_inv. destruct t as [d st sp h c]. simpl in *.
  destruct ev as [a b| |]; simpl; unfold start_timer_on_loop, timer_complete_on_loop; simpl.
  - destruct sp; [|done]. simpl. destruct d; [intros [= <-]; simpl; by split_and!|].
    destruct (negb (a =? 0)%Z); [done|]. destruct (negb (b =? 0)%Z); [done|]. intros [= <-]. simpl. subst c. split_and!; naive_solver.
  - destruct h; try done. destruct d; [destruct (H4 eq_refl); congruence|]. intros [= <-]. simpl. subst c.
    destruct st; simpl; split_and!; naive_solver.
  - destruct d; intros [= <-]; simpl; [by split_and!|]. subst c.
    destruct (H3 eq_refl) as [[_ ->]| ->], st; simpl; split_and!; try done; try naive_solver.
Qed.

(** The function of a delayed [schedule] is called exactly when the operation
    completes, and once, whether the timer expires or the task is cancelled,
    before or after the timer was started; an operation that has not
    completed is still to be started or has an active timer; one that has
    completed has no active timer. *)
Theorem timer_calls_once evs t :
  run_steps timer_step evs new_timer = Some t ->
  tm_calls t = (if tm_done t then 1 else 0) /\
  (tm_done t = false -> tm_start_pending t = true \/ tm_handle t = HActive) /\
  (tm_done t = true -> tm_handle t = HNone \/ tm_handle t = HClosing).
Proof.
  intros Hr. apply (run_steps_inv timer_step timer_inv) in Hr as (H1 & _ & H3 & H4); [|apply timer_step_inv | by split_and!; auto].
  split_and!; [done | intros Hd; destruct (H3 Hd) as [[? _]|?]; auto | done].
Qed.

Lemma timer_calls_once_witness :
  exists t, run_steps timer_step [TmCancel; TmStart 0 0] new_timer = Some t /\ tm_calls t = 1.
Proof.
  eexists. split; [reflexivity|].
  refine (proj1 (timer_calls_once [TmCancel; TmStart 0 0] _ _)). reflexivity.
Defined.

(** ** Op of [poll::wait] *)

Record PollOp := mkPoll {
  pl_started : bool;
  pl_done : bool;
  pl_cancel_requested : bool;
  pl_start_rc : Z;
  pl_status : Z;
  pl_start_pending : bool;
  pl_handle : uv_handle;
  pl_resumed : nat
}.
Definition new_poll : PollOp := mkPoll false false false 0 0 true HNone 0.

Definition poll_complete_on_loop (p : PollOp) : PollOp :=
  if pl_done p then p
  else mkPoll (pl_started p) true (pl_cancel_requested p) (pl_start_rc p) (pl_status p) (pl_start_pending p)
         (if pl_started p then HClosing else pl_handle p) (S (pl_resumed p)).

Definition poll_start_on_loop (init_rc start_rc : Z) (p : PollOp) : PollOp :=
  let p := mkPoll (pl_started p) (pl_done p) (pl_cancel_requested p) (pl_start_rc p) (pl_status p) false (pl_handle p) (pl_resumed p) in
  if pl_done p then p
  else if negb (init_rc =? 0)%Z then
    mkPoll (pl_started p) true (pl_cancel_requested p) init_rc (pl_status p) false (pl_handle p) (S (pl_resumed p))
  else if negb (start_rc =? 0)%Z then
    mkPoll (pl_started p) true (pl_cancel_requested p) start_rc (pl_status p) false HClosing (S (pl_resumed p))
  else
    let p := mkPoll true (pl_done p) (pl_cancel_requested p) (pl_start_rc p) (pl_status p) false HActive (pl_resumed p) in
    if pl_cancel_requested p then poll_complete_on_loop p else p.

Definition on_poll (status : Z) (p : PollOp) : PollOp :=
  poll_complete_on_loop (mkPoll (pl_started p) (pl_done p) (pl_cancel_requested p) (pl_start_rc p) status (pl_start_pending p)
    (pl_handle p) (pl_resumed p)).

Inductive poll_event :=
| PlStart (init_rc start_rc : Z)
| PlPoll (status : Z)
| PlRequestCancel               (* the cancellation handler *)
| PlCancel.                     (* the posted [cancel_on_loop] *)

Definition poll_step (ev : poll_event) (p : PollOp) : option PollOp :=
  match ev with
  | PlStart a b => if pl_start_pending p then Some (poll_start_on_loop a b p) else None
  | PlPoll status => match pl_handle p with HActive => Some (on_poll status p) | _ => None end
  | PlRequestCancel =>
      Some (mkPoll (pl_started p) (pl_done p) true (pl_start_rc p) (pl_status p) (pl_start_pending p) (pl_handle p) (pl_resumed p))
  | PlCancel => if pl_cancel_requested p then Some (poll_complete_on_loop p) else None
  end.

Definition poll_canceled : exn := SignalException "corouv poll canceled"%bs.
(** [await_resume] *)
Definition poll_await_resume (uv_strerror : Z -> bytes) (canceled : bool) (p : PollOp) : result unit :=
  if canceled then Throw poll_canceled
  else if negb (pl_start_rc p =? 0)%Z then
    Throw (throw_uv_error uv_strerror (pl_start_rc p) "uv_poll_init_socket/uv_poll_start"%bs)
  else if (pl_status p <? 0)%Z then Throw (throw_uv_error uv_strerror (pl_status p) "uv_poll"%bs)
  else Ok tt.

Definition poll_inv (p : PollOp) : Prop :=
  pl_resumed p = (if pl_done p then 1 else 0) /\
  (pl_done p = false ->
     pl_start_pending p = true /\ pl_handle p = HNone /\ pl_started p = false \/ 
     pl_start_pending p = false /\ pl_handle p = HActive /\ pl_started p = true) /\
  (pl_done p = true -> pl_handle p = HNone \/ pl_handle p = HClosing).

Lemma poll_step_inv ev p p' : poll_inv p -> poll_step ev p = Some p' -> poll_inv p'.
Proof.
  intros (H1 & H3 & H4). unfold poll_inv. destruct p as [st d cr rc stat sp h c]. simpl in *.
  destruct ev as [a b|status| |]; simpl; unfold poll_start_on_loop, on_poll, poll_complete_on_loop; simpl.
  - destruct sp; [|done]. destruct d; [intros [= <-]; simpl; by split_and!|]. subst c.
    destruct (H3 eq_refl) as [(_ & -> & ->)|(? & _)]; [|done].
    destruct (negb (a =? 0)%Z); [intros [= <-]; simpl; split_and!; naive_solver|].
    destruct (negb (b =? 0)%Z); [intros [= <-]; simpl; split_and!; naive_solver|].
    destruct cr; intros [= <-]; simpl; split_and!; naive_solver.
  - destruct h; try done. destruct d; [destruct (H4 eq_refl); congruence|]. subst c. intros [= <-]. simpl.
    destruct (H3 eq_refl) as [(_ & ? & _)|(_ & _ & ->)]; [done|]. split_and!; naive_solver.
  - intros [= <-]. simpl. by split_and!.
  - destruct cr; [|done]. destruct d; intros [= <-]; simpl; [by split_and!|]. subst c.
    destruct (H3 eq_refl) as [(_ & -> & ->)|(_ & -> & ->)]; split_and!; naive_solver.
Qed.

(** A poll is resumed exactly when it completes, and once, in every order of
    readiness, errors and cancellation; until then it is to be started or has
    an active handle, afterwards it has none. *)
Theorem poll_resumes_once evs p :
  run_steps poll_step evs new_poll = Some p ->
  pl_resumed p = (if pl_done p then 1 else 0) /\
  (pl_done p = false -> pl_start_pending p = true \/ pl_handle p = HActive) /\
  (pl_done p = true -> pl_handle p = HNone \/ pl_handle p = HClosing).
Proof.
  intros Hr. apply (run_steps_inv poll_step poll_inv) in Hr as (H1 & H3 & H4); [|apply poll_step_inv | by split_and!; auto].
  split_and!; [done | intros Hd; destruct (H3 Hd) as [(? & _)|(_ & ? & _)]; auto | done].
Qed.

Lemma poll_resumes_once_witness :
  exists p, run_steps poll_step [PlRequestCancel; PlStart 0 0; PlCancel] new_poll = Some p /\ pl_resumed p = 1.
Proof.
  eexists. split; [reflexivity|].
  refine (proj1 (poll_resumes_once [PlRequestCancel; PlStart 0 0; PlCancel] _ _)). reflexivity.
Defined.

(** ** Op of [blocking::run] *)

(** Where libuv has the request. *)
Inductive work_phase := WkNew | WkInPool | WkRan | WkRemoved | WkAfterDone.

Section Work.
Context {R : Type}.

Record WorkOp := mkWork {
  wk_queued : bool;
  wk_cancel_requested : bool;
  wk_abandoned : bool;
  wk_start_rc : Z;
  wk_after_status : Z;
  wk_result : option (result R);      (* [value] or [ep] *)
  wk_phase : work_phase;
  wk_resumed : nat
}.
Definition new_work : WorkOp := mkWork false false false 0 0 None WkNew 0.

Definition try_cancel_on_loop (w : WorkOp) : WorkOp :=
  if negb (wk_queued w) then w
  else match wk_phase w with
       | WkInPool => mkWork true (wk_cancel_requested w) (wk_abandoned w) (wk_start_rc w) (wk_after_status w) (wk_result w) WkRemoved (wk_resumed w)
       | _ => w      (* [uv_cancel] refuses: the work has started or is over *)
       end.

(** The end of [await_suspend], with the code of [uv_queue_work]. *)
Definition work_queue (rc : Z) (w : WorkOp) : option WorkOp :=
  match wk_phase w with
  | WkNew =>
      if negb (rc =? 0)%Z then
        Some (mkWork false (wk_cancel_requested w) (wk_abandoned w) rc (wk_after_status w) (wk_result w) WkAfterDone (S (wk_resumed w)))
      else
        let w := mkWork true (wk_cancel_requested w) (wk_abandoned w) 0 (wk_after_status w) (wk_result w) WkInPool (wk_resumed w) in
        Some (if wk_cancel_requested w then try_cancel_on_loop w else w)
  | _ => None
  end.

(** [on_work], on a thread of the pool: [r] is what the function does. *)
Definition on_work (r : result R) (w : WorkOp) : option WorkOp :=
  match wk_phase w with
  | WkInPool => Some (mkWork (wk_queued w) (wk_cancel_requested w) (wk_abandoned w) (wk_start_rc w) (wk_after_status w) (Some r) WkRan (wk_resumed w))
  | _ => None
  end.

(** [on_after_work]: libuv reports [UV_ECANCELED] for a request it removed. *)
Definition on_after_work (w : WorkOp) : option WorkOp :=
  let finish status :=
    Some (mkWork (wk_queued w) (wk_cancel_requested w) (wk_abandoned w) (wk_start_rc w) status (wk_result w) WkAfterDone
            (if wk_abandoned w then wk_resumed w else S (wk_resumed w))) in
  match wk_phase w with WkRan => finish 0%Z | WkRemoved => finish UV_ECANCELED | _ => None end.

Inductive work_event :=
| WkQueue (rc : Z)
| WkRun (r : result R)
| WkRequestCancel
| WkTryCancel
| WkAfter
| WkDestroy.                   (* [~WorkAwaiter] while suspended *)

Definition work_step (ev : work_event) (w : WorkOp) : option WorkOp :=
  match ev with
  | WkQueue rc => work_queue rc w
  | WkRun r => on_work r w
  | WkRequestCancel =>
      Some (mkWork (wk_queued w) true (wk_abandoned w) (wk_start_rc w) (wk_after_status w) (wk_result w) (wk_phase w) (wk_resumed w))
  | WkTryCancel => Some (try_cancel_on_loop w)
  | WkAfter => on_after_work w
  | WkDestroy =>
      match wk_phase w with
      | WkInPool | WkRan | WkRemoved =>
          Some (mkWork (wk_queued w) (wk_cancel_requested w) true (wk_start_rc w) (wk_after_status w) (wk_result w) (wk_phase w) (wk_resumed w))
      | _ => None
      end
  end.

Definition run_canceled : exn := SignalException "corouv blocking::run canceled"%bs.
Definition run_uv_canceled : exn := RuntimeError "corouv blocking::run canceled (UV_ECANCELED)"%bs.

(** [await_resume]; [None]: it reads a value that was never stored. *)
Definition work_await_resume (uv_strerror : Z -> bytes) (canceled : bool) (w : WorkOp) : option (result R) :=
  if canceled then Some (Throw run_canceled)
  else if negb (wk_start_rc w =? 0)%Z then Some (Throw (throw_uv_error uv_strerror (wk_start_rc w) "uv_queue_work"%bs))
  else if (wk_after_status w =? UV_ECANCELED)%Z then Some (Throw run_uv_canceled)
  else wk_result w.

(** The awaiter as a whole: [await_ready] sees whether the task is cancelled;
    [await_suspend] makes the operation and installs the handler, which fails
    if the task has been cancelled meanwhile ([emplaced], for a task with a
    slot), and queues the work.  The answer is the operation, if there is one,
    and whether the coroutine is suspended. *)
Definition work_begin (canceled : bool) (emplaced : option bool) (rc : Z) : option WorkOp * bool :=
  if canceled then (None, false)
  else match emplaced with
       | Some false => (Some new_work, false)
       | _ => (work_queue rc new_work, (rc =? 0)%Z)
       end.

Definition missing_state : exn := LogicError "corouv blocking::run: missing state"%bs.
Definition work_finish (uv_strerror : Z -> bytes) (canceled : bool) (op : option WorkOp) : option (result R) :=
  if canceled then Some (Throw run_canceled)
  else match op with
       | None => Some (Throw missing_state)
       | Some w => work_await_resume uv_strerror false w
       end.

(** A coroutine that is not suspended at all resumes with a cancellation or
    with the error of [uv_queue_work]: given that a signal stays emitted and
    that a handler is refused only for an emitted one, the state is there and
    no value is read. *)
Lemma work_not_suspended uv_strerror before emplaced rc now op :
  work_begin before emplaced rc = (op, false) -> (before = true -> now = true) -> (emplaced = Some false -> now = true) ->
  work_finish uv_strerror now op = Some (Throw run_canceled) \/
  (rc <> 0%Z /\ work_finish uv_strerror now op = Some (Throw (throw_uv_error uv_strerror rc "uv_queue_work"%bs))).
Proof.
  unfold work_begin, work_finish. intros Hb H1 H2. destruct before; [left; by rewrite H1|].
  destruct now; [by left|]. destruct emplaced as [[]|]; [|by specialize (H2 eq_refl)|];
    injection Hb as <- Hrc; unfold work_queue; simpl; rewrite Hrc; simpl; unfold work_await_resume; simpl; rewrite Hrc; right; (split; [lia | done]).
Qed.

Definition work_inv (w : WorkOp) : Prop :=
  (wk_queued w = true -> wk_phase w <> WkNew) /\
  match wk_phase w with
  | WkNew | WkInPool | WkRemoved => wk_resumed w = 0 /\ wk_result w = None /\ wk_start_rc w = 0%Z
  | WkRan => wk_resumed w = 0 /\ wk_result w <> None /\ wk_start_rc w = 0%Z
  | WkAfterDone =>
      wk_resumed w <= 1 /\
      ((wk_start_rc w <> 0%Z /\ wk_result w = None) \/
       (wk_start_rc w = 0%Z /\ wk_after_status w = UV_ECANCELED /\ wk_result w = None) \/
       (wk_start_rc w = 0%Z /\ wk_after_status w = 0%Z /\ wk_result w <> None))
  end.

Lemma work_step_inv ev w w' : work_inv w -> work_step ev w = Some w' -> work_inv w'.
Proof.
  unfold work_inv. destruct w as [q cr ab rc st res ph n].
  destruct ev as [c|r| | | |]; simpl; unfold work_queue, on_work, on_after_work, try_cancel_on_loop; simpl; intros [Hq Hp].
  - destruct ph; try done. destruct Hp as (-> & -> & ->). destruct (Z.eqb_spec c 0) as [->|]; simpl; [|intros [= <-]; simpl; auto 10].
    destruct cr; intros [= <-]; by simpl.
  - destruct ph; try done. intros [= <-]. simpl. naive_solver.
  - intros [= <-]. done.
  - destruct q; simpl; [|by intros [= <-]]. destruct ph; intros [= <-]; simpl in *; auto.
  - destruct ph; try done; intros [= <-]; simpl in *; destruct Hp as (-> & Hr & ->); destruct ab; simpl; auto 10.
  - destruct ph; try done; intros [= <-]; by simpl.
Qed.

(** Blocking work is resumed at most once, and when it is, [await_resume]
    finds what it needs: the error of [uv_queue_work], the mark of a request
    that was removed from the pool, or the value or the exception of the
    function; a value that was never stored is not read. *)
Theorem blocking_result_present uv_strerror evs w canceled :
  run_steps work_step evs new_work = Some w ->
  wk_resumed w <= 1 /\
  (wk_resumed w = 1 -> exists r, work_await_resume uv_strerror canceled w = Some r /\
     (canceled = false -> wk_start_rc w = 0%Z -> wk_after_status w = 0%Z -> wk_result w = Some r)).
Proof.
  intros Hr. apply (run_steps_inv work_step work_inv) in Hr as [_ Hi]; [|apply work_step_inv | by split_and!].
  destruct w as [q cr ab rc st res ph n]. unfold work_await_resume. simpl in *.
  assert (n <= 1 /\ (n = 1 -> ph = WkAfterDone)) as [Hn Hph] by (destruct ph; naive_solver lia).
  split; [done|]. intros H1. specialize (Hph H1). subst ph. destruct Hi as [_ Hi].
  destruct canceled; [by eexists|]. destruct Hi as [[Hrc _]|[(-> & -> & _)|(-> & -> & Hres)]].
  - replace (rc =? 0)%Z with false by lia. simpl. eexists. split; [done|]. intros _ ?. lia.
  - simpl. eexists. split; [done|]. intros _ _ ?. done.
  - simpl. destruct res as [r|]; [eauto|done].
Qed.
End Work.
Arguments WorkOp _ : clear implicits.

Lemma blocking_result_present_witness :
  exists w : WorkOp nat, run_steps work_step [WkQueue 0; WkRequestCancel; WkRun (Ok 5); WkTryCancel; WkAfter] new_work = Some w /\
    wk_resumed w <= 1.
Proof.
  eexists. split; [reflexivity|].
  refine (proj1 (blocking_result_present (fun _ => []) [WkQueue 0; WkRequestCancel; WkRun (Ok 5); WkTryCancel; WkAfter] _ false _)).
  reflexivity.
Defined.
