(* ===== verification/SocketOwner.v ===== *)
(** * Ownership of sockets (net.cpp)

    [TcpStream], [TcpListener] and [UdpSocket] are the same kind of object: a
    shared pointer to a state that also keeps itself alive through its libuv
    handle until the handle is closed.  [close] and the destructor request
    the close and drop the pointer; moving hands the pointer over.  The model
    keeps the states and the objects that point to them, and lets the loop
    close handles in any order.  The theorem says that an open socket has
    exactly one owner, so that when the objects are gone every handle is
    closed or on its way; the exception is a move assignment to an object
    that has an open socket. *)

From S2P Require Import Prelude CxxString HttpUrl NetWait NetTcp NetListen UvExecutor.

(** ** State *)

Inductive sock_state :=
| SkOpen
| SkCloseQueued                (* [close_on_loop] is queued on the executor *)
| SkClosing                    (* [uv_close] was called *)
| SkClosed.                    (* the close callback has dropped the handle's own reference *)

Record Sockets := mkSockets {
  so_states : list sock_state;
  so_objects : gmap nat (option nat)     (* the [_state] of every object *)
}.
Definition no_sockets : Sockets := mkSockets [] ∅.

Definition set_state (h : nat) (st : sock_state) (s : Sockets) : Sockets := mkSockets (<[h := st]> (so_states s)) (so_objects s).
Definition set_object (o : nat) (p : option nat) (s : Sockets) : Sockets := mkSockets (so_states s) (<[o := p]> (so_objects s)).

(** ** Operations *)

(** An object around a new state, as [connect], [accept], [listen] and [bind]
    make it. *)
Definition sock_new (o : nat) (s : Sockets) : Sockets :=
  mkSockets (so_states s ++ [SkOpen]) (<[o := Some (length (so_states s))]> (so_objects s)).

(** [State::request_close] and [close_on_loop]; [scheduled]: the answer of
    [schedule], asked for off the loop thread only. *)
Definition sock_request_close (on_loop scheduled : bool) (h : nat) (s : Sockets) : Sockets :=
  match so_states s !! h with
  | Some SkOpen => set_state h (if negb on_loop && scheduled then SkCloseQueued else SkClosing) s
  | _ => s
  end.

Definition sock_close (on_loop scheduled : bool) (o : nat) (s : Sockets) : Sockets :=
  match so_objects s !! o with
  | Some (Some h) => set_object o None (sock_request_close on_loop scheduled h s)
  | _ => s
  end.

Definition sock_destroy (on_loop scheduled : bool) (o : nat) (s : Sockets) : Sockets :=
  let s := sock_close on_loop scheduled o s in mkSockets (so_states s) (delete o (so_objects s)).

(** The move constructor, and the move assignment, which replaces the pointer
    and nothing else. *)
Definition sock_move (from to : nat) (s : Sockets) : Sockets :=
  match so_objects s !! from with
  | Some p => set_object to p (set_object from None s)
  | None => s
  end.
Definition sock_assign (from to : nat) (s : Sockets) : Sockets :=
  match so_objects s !! from with
  | Some p => if decide (from = to) then s else set_object to p (set_object from None s)
  | None => s
  end.

(** ** What an object answers *)

Definition sock_is_open (o : nat) (s : Sockets) : bool :=
  match so_objects s !! o with
  | Some (Some h) => match so_states s !! h with Some SkOpen | Some SkCloseQueued => true | _ => false end
  | _ => false
  end.

Definition kInvalidSocket : Z := (-1)%Z.
(** [fileno]: the code of [uv_fileno] and the descriptor. *)
Definition sock_native_handle (fileno : nat -> Z * Z) (o : nat) (s : Sockets) : Z :=
  if negb (sock_is_open o s) then kInvalidSocket
  else match so_objects s !! o with
       | Some (Some h) => let '(rc, fd) := fileno h in if negb (rc =? 0)%Z then kInvalidSocket else fd
       | _ => kInvalidSocket
       end.

Definition default_endpoint : Endpoint := mkEndpoint [] 0%Z.
Definition sock_local_endpoint (local : nat -> Endpoint) (o : nat) (s : Sockets) : Endpoint :=
  match so_objects s !! o with Some (Some h) => local h | _ => default_endpoint end.
Definition sock_peer_endpoint (peer : nat -> Endpoint) (o : nat) (s : Sockets) : Endpoint :=
  match so_objects s !! o with Some (Some h) => peer h | _ => default_endpoint end.

(** [TcpStream::shutdown_write]: whether [uv_shutdown] is called, now or when
    the executor runs the function, and whether its request is freed at once
    because it failed. *)
Inductive shutdown_outcome := ShutdownIgnored | ShutdownStarted (freed : bool) | ShutdownQueued (ok : bool).
Definition shutdown_start (open : bool) (rc : Z) : shutdown_outcome :=
  if negb open then ShutdownIgnored else ShutdownStarted (negb (rc =? 0)%Z).
Definition shutdown_write (on_loop scheduled : bool) (rc : Z) (o : nat) (s : Sockets) : shutdown_outcome :=
  if negb (sock_is_open o s) then ShutdownIgnored
  else if on_loop then shutdown_start (sock_is_open o s) rc else ShutdownQueued scheduled.

(** ** Steps *)

Inductive sock_event :=
| SkNew (o : nat)
| SkClose (o : nat) (on_loop scheduled : bool)
| SkDestroy (o : nat) (on_loop scheduled : bool)
| SkMove (from to : nat)
| SkAssign (from to : nat)
| SkRunClose (h : nat)         (* the executor runs a queued [close_on_loop] *)
| SkCloseCallback (h : nat).

(** Constructors make objects that do not exist yet; the rest is about
    objects that do. *)
Definition sock_step (ev : sock_event) (s : Sockets) : option Sockets :=
  match ev with
  | SkNew o => match so_objects s !! o with None => Some (sock_new o s) | Some _ => None end
  | SkClose o b c => match so_objects s !! o with Some _ => Some (sock_close b c o s) | None => None end
  | SkDestroy o b c => match so_objects s !! o with Some _ => Some (sock_destroy b c o s) | None => None end
  | SkMove from to =>
      match so_objects s !! from, so_objects s !! to with Some _, None => Some (sock_move from to s) | _, _ => None end
  | SkAssign from to =>
      match so_objects s !! from, so_objects s !! to with Some _, Some _ => Some (sock_assign from to s) | _, _ => None end
  | SkRunClose h => match so_states s !! h with Some SkCloseQueued => Some (set_state h SkClosing s) | _ => None end
  | SkCloseCallback h => match so_states s !! h with Some SkClosing => Some (set_state h SkClosed s) | _ => None end
  end.

(** A move assignment that would drop an open socket. *)
Definition drops_open (ev : sock_event) (s : Sockets) : bool :=
  match ev with
  | SkAssign from to => bool_decide (from <> to) && match so_objects s !! to with Some (Some _) => true | _ => false end
  | _ => false
  end.
Definition careful_step (ev : sock_event) (s : Sockets) : option Sockets :=
  if drops_open ev s then None else sock_step ev s.

(** ** Ownership *)

Record owned (s : Sockets) : Prop := {
  ow_open : forall o h, so_objects s !! o = Some (Some h) -> so_states s !! h = Some SkOpen;
  ow_unique : forall o o' h, so_objects s !! o = Some (Some h) -> so_objects s !! o' = Some (Some h) -> o = o';
  ow_owner : forall h, so_states s !! h = Some SkOpen -> exists o, so_objects s !! o = Some (Some h)
}.

Lemma owned_new o s : so_objects s !! o = None -> owned s -> owned (sock_new o s).
Proof.
  intros Ho [I1 I2 I3].
  assert (forall o' h, so_objects s !! o' = Some (Some h) -> h < length (so_states s)) as Hlt.
  { intros o' h Hh%I1. by eapply lookup_lt_Some. }
  constructor; simpl.
  - intros o' h [[<- [= <-]]|[Hne Hh]]%lookup_insert_Some; [by rewrite list_lookup_middle|].
    apply lookup_app_l_Some. by eapply I1.
  - intros o1 o2 h [[<- [= <-]]|[Hne Hh]]%lookup_insert_Some [[<- Heq]|[Hne' Hh']]%lookup_insert_Some; [done | | |by eapply I2].
    + apply Hlt in Hh'. lia.
    + injection Heq as <-. apply Hlt in Hh. lia.
  - intros h [Hh|[Hge Hh]]%lookup_app_Some.
    + destruct (I3 h Hh) as [o' Ho']. exists o'. rewrite lookup_insert_ne; [done|]. intros ->. congruence.
    + apply list_lookup_singleton_Some in Hh as [Hz _]. exists o. rewrite lookup_insert_eq. do 2 f_equal. lia.
Qed.

(** A close takes the state from its owner. *)
Lemma owned_close b c o s : owned s -> owned (sock_close b c o s).
Proof.
  intros [I1 I2 I3]. unfold sock_close. destruct (so_objects s !! o) as [[h|]|] eqn:Ho; [|done|done].
  pose proof (I1 o h Ho) as Hh. unfold sock_request_close. rewrite Hh. set (st := if negb b && c then SkCloseQueued else SkClosing).
  assert (st <> SkOpen) as Hst by (unfold st; by destruct (_ && _)).
  constructor; simpl.
  - intros o' h' [[_ ?]|[Hne Hh']]%lookup_insert_Some; [done|]. rewrite list_lookup_insert_ne; [by eapply I1|].
    intros ->. apply Hne. by eapply I2.
  - intros o1 o2 h' [[_ ?]|[_ H1]]%lookup_insert_Some [[_ ?]|[_ H2]]%lookup_insert_Some; [done..|]. by eapply I2.
  - intros h' [(_ & ? & _)|[Hne Hh']]%list_lookup_insert_Some; [congruence|]. destruct (I3 h' Hh') as [o' Ho'].
    exists o'. rewrite lookup_insert_ne; [done|]. intros ->. congruence.
Qed.

Lemma close_empties b c o s h : so_objects (sock_close b c o s) !! o <> Some (Some h).
Proof. unfold sock_close. destruct (so_objects s !! o) as [[h'|]|] eqn:Ho; simpl; by rewrite ?lookup_insert_eq, ?Ho. Qed.

Lemma owned_forget o s : (forall h, so_objects s !! o <> Some (Some h)) -> owned s -> owned (mkSockets (so_states s) (delete o (so_objects s))).
Proof.
  intros Ho [I1 I2 I3]. constructor; simpl.
  - intros o' h [_ Hh]%lookup_delete_Some. by eapply I1.
  - intros o1 o2 h [_ H1]%lookup_delete_Some [_ H2]%lookup_delete_Some. by eapply I2.
  - intros h Hh. destruct (I3 h Hh) as [o' Ho']. exists o'. apply lookup_delete_Some. split; [|done]. intros ->. by destruct (Ho h).
Qed.

(** Handing the pointer over to an object that has none. *)
Lemma owned_hand_over from to p s :
  from <> to -> so_objects s !! from = Some p -> (forall h, so_objects s !! to <> Some (Some h)) -> owned s ->
  owned (set_object to p (set_object from None s)).
Proof.
  intros Hne Hf Ht [I1 I2 I3]. constructor; simpl.
  - intros o h [[<- ->]|[_ [[_ ?]|[_ Hh]]%lookup_insert_Some]]%lookup_insert_Some; [by eapply I1 | done | by eapply I1].
  - intros o1 o2 h [[<- ->]|[N1 [[_ ?]|[M1 H1]]%lookup_insert_Some]]%lookup_insert_Some
      [[<- E]|[N2 [[_ ?]|[M2 H2]]%lookup_insert_Some]]%lookup_insert_Some; try done.
    + destruct M2. by eapply I2.
    + subst p. destruct M1. by eapply I2.
    + by eapply I2.
  - intros h Hh. destruct (I3 h Hh) as [o Ho]. destruct (decide (o = from)) as [->|Hof].
    + exists to. rewrite lookup_insert_eq. congruence.
    + exists o. assert (o <> to) by (intros ->; by destruct (Ht h)). by rewrite !lookup_insert_ne.
Qed.

Lemma owned_state h st st' s : so_states s !! h = Some st -> st <> SkOpen -> st' <> SkOpen -> owned s -> owned (set_state h st' s).
Proof.
  intros Hh Hst Hst' [I1 I2 I3]. constructor; simpl; [|done|].
  - intros o h' Ho%I1. rewrite list_lookup_insert_ne; [done|]. intros ->. congruence.
  - intros h' [(_ & ? & _)|[_ Hh']]%list_lookup_insert_Some; [congruence|]. by apply I3.
Qed.

Lemma careful_step_owned ev s s' : owned s -> careful_step ev s = Some s' -> owned s'.
Proof.
  intros Hi. unfold careful_step. destruct (drops_open ev s) eqn:Ed; [done|].
  destruct ev as [o|o b c|o b c|from to|from to|h|h]; simpl.
  - destruct (so_objects s !! o) eqn:Ho; [done|]. intros [= <-]. by apply owned_new.
  - destruct (so_objects s !! o); [|done]. intros [= <-]. by apply owned_close.
  - destruct (so_objects s !! o); [|done]. intros [= <-]. apply owned_forget; [|by apply owned_close].
    intros h. by apply close_empties.
  - destruct (so_objects s !! from) as [p|] eqn:Hf; [|done]. destruct (so_objects s !! to) eqn:Ht; [done|]. intros [= <-].
    unfold sock_move. rewrite Hf. apply owned_hand_over; try done; [congruence | by rewrite Ht].
  - destruct (so_objects s !! from) as [p|] eqn:Hf; [|done]. destruct (so_objects s !! to) as [q|] eqn:Ht; [|done]. intros [= <-].
    unfold sock_assign. rewrite Hf. case_decide as E; [done|]. apply owned_hand_over; try done. rewrite Ht. intros h [= ->].
    simpl in Ed. rewrite Ht, bool_decide_eq_true_2 in Ed by done. done.
  - destruct (so_states s !! h) as [[]|] eqn:Hh; try done. intros [= <-]. by apply (owned_state h SkCloseQueued).
  - destruct (so_states s !! h) as [[]|] eqn:Hh; try done. intros [= <-]. by apply (owned_state h SkClosing).
Qed.

(** Sockets are owned.  However TCP streams, listeners and UDP sockets are
    made, moved, assigned (to objects without a socket), closed and
    destroyed, on whatever thread, and whenever the loop closes their
    handles: an object that has a state has an open one, no two objects share
    one, and every open socket has an owner.  When all objects are gone, no
    socket is open. *)
Theorem sockets_owned evs s :
  run_steps careful_step evs no_sockets = Some s ->
  (forall o h, so_objects s !! o = Some (Some h) -> so_states s !! h = Some SkOpen /\
     forall o', so_objects s !! o' = Some (Some h) -> o' = o) /\
  (so_objects s = ∅ -> SkOpen ∉ so_states s).
Proof.
  intros Hr. apply (run_steps_inv careful_step owned) in Hr as [I1 I2 I3]; [|apply careful_step_owned|].
  2: { constructor; simpl; [by intros o h H; rewrite lookup_empty in H | by intros o o' h H; rewrite lookup_empty in H | done]. }
  split.
  - intros o h Ho. split; [by eapply I1|]. intros o' Ho'. by eapply I2.
  - intros He (h & Hh)%list_elem_of_lookup. destruct (I3 h Hh) as [o Ho]. by rewrite He, lookup_empty in Ho.
Qed.

Definition sock_events : list sock_event :=
  [SkNew 0; SkNew 1; SkMove 0 2; SkClose 1 false true; SkAssign 2 1; SkDestroy 0 true false; SkDestroy 1 true false;
   SkDestroy 2 true false; SkCloseCallback 0; SkRunClose 1].
Lemma sockets_owned_witness :
  run_steps careful_step sock_events no_sockets = Some (mkSockets [SkClosed; SkClosing] ∅) /\ SkOpen ∉ [SkClosed; SkClosing].
Proof.
  split; [vm_compute; reflexivity|].
  refine (proj2 (sockets_owned sock_events (mkSockets [SkClosed; SkClosing] ∅) _) _); [vm_compute; reflexivity | reflexivity].
Defined.

(** A move assignment to an object with an open socket drops the only pointer
    by which the socket could be closed: nothing the objects or the loop do
    later closes it. *)
Definition leaked (h : nat) (s : Sockets) : Prop :=
  so_states s !! h = Some SkOpen /\ forall o, so_objects s !! o <> Some (Some h).

Lemma leaked_close h b c o s : leaked h s -> leaked h (sock_close b c o s).
Proof.
  intros [H1 H2]. unfold sock_close. destruct (so_objects s !! o) as [[h'|]|] eqn:Ho; [|done|done].
  assert (h' <> h) as Hne by (intros ->; by destruct (H2 o)). unfold sock_request_close. split; simpl.
  - destruct (so_states s !! h') as [[]|]; simpl; [|done..]. by rewrite list_lookup_insert_ne.
  - intros o'. simpl. destruct (decide (o' = o)) as [->|]; [by rewrite lookup_insert_eq | rewrite lookup_insert_ne by done].
    destruct (so_states s !! h') as [[]|]; apply H2.
Qed.

Lemma leaked_hand_over h from to p s :
  so_objects s !! from = Some p -> leaked h s -> leaked h (set_object to p (set_object from None s)).
Proof.
  intros Hf [H1 H2]. split; [done|]. intros o. simpl. intros [[_ ->]|[_ [[_ ?]|[_ Hh]]%lookup_insert_Some]]%lookup_insert_Some;
    [by destruct (H2 from) | done | by destruct (H2 o)].
Qed.

Lemma leaked_step h ev s s' : leaked h s -> sock_step ev s = Some s' -> leaked h s'.
Proof.
  intros Hl. destruct ev as [o|o b c|o b c|from to|from to|h'|h']; simpl.
  - destruct (so_objects s !! o) eqn:Ho; [done|]. intros [= <-]. destruct Hl as [H1 H2]. split; simpl; [by apply lookup_app_l_Some|].
    intros o' [[_ [= E]]|[_ Hh]]%lookup_insert_Some; [|by destruct (H2 o')]. apply lookup_lt_Some in H1. lia.
  - destruct (so_objects s !! o); [|done]. intros [= <-]. by apply leaked_close.
  - destruct (so_objects s !! o); [|done]. intros [= <-]. destruct (leaked_close h b c o s Hl) as [H1 H2]. split; [done|].
    simpl. intros o' [_ Hh]%lookup_delete_Some. by destruct (H2 o').
  - destruct (so_objects s !! from) as [p|] eqn:Hf; [|done]. destruct (so_objects s !! to); [done|]. intros [= <-].
    unfold sock_move. rewrite Hf. by apply leaked_hand_over.
  - destruct (so_objects s !! from) as [p|] eqn:Hf; [|done]. destruct (so_objects s !! to); [|done]. intros [= <-].
    unfold sock_assign. rewrite Hf. case_decide; [done|]. by apply leaked_hand_over.
  - destruct (so_states s !! h') as [[]|] eqn:Hh; try done. intros [= <-]. destruct Hl as [H1 H2]. split; [|done]. simpl.
    rewrite list_lookup_insert_ne; [done|]. intros ->. congruence.
  - destruct (so_states s !! h') as [[]|] eqn:Hh; try done. intros [= <-]. destruct Hl as [H1 H2]. split; [|done]. simpl.
    rewrite list_lookup_insert_ne; [done|]. intros ->. congruence.
Qed.

Theorem move_assignment_leaks :
  exists s, run_steps sock_step [SkNew 0; SkNew 1; SkAssign 1 0] no_sockets = Some s /\
    forall evs s', run_steps sock_step evs s = Some s' -> so_states s' !! 0 = Some SkOpen.
Proof.
  exists (mkSockets [SkOpen; SkOpen] (<[0 := Some 1]> (<[1 := None]> (<[1 := Some 1]> (<[0 := Some 0]> ∅))))).
  split; [reflexivity|].
  intros evs s' Hr. apply (run_steps_inv sock_step (leaked 0)) in Hr as [H _]; [done | apply leaked_step |].
  split; [done|]. intros o. simpl. rewrite !lookup_insert_Some, lookup_empty. naive_solver.
Qed.
