(* ===== verification/Runtime.v ===== *)
(** * Loop, runtime and run (loop.h, runtime.h, sync_wait.h, uv_executor.cpp)

    [Rt] is a [Runtime]: its [Loop], its [UvExecutor] and its own flag.  Of
    libuv's loop the model keeps what the code can observe: the handles and
    their states, the number of active requests, and the flag of [uv_stop].  A call of [uv_run] is a frame on
    the stack of the loop thread; while it is there, libuv and the user's
    callbacks make steps in any order, and it may return when libuv says so:
    in the default mode if somebody has called [uv_stop] or nothing keeps the
    loop alive.  async_simple's part is that a started task completes at most
    once, inside [uv_run], and then calls its callback.

    The theorems: [run] gives what its task completed with and never anything
    else, and fails only if somebody else stops the loop; handles are closed
    once; destroying the runtime on its thread closes the loop with every
    handle, and on another thread terminates the program; what was posted
    runs in order. *)

From S2P Require Import Prelude NetWait UvExecutor.

(** ** State *)

Section Runtime.
Context {V : Type}.

(** The callback a task was started with: [run]'s, which writes [out] and
    stops the loop, that of [start], and that of [detach]. *)
Inductive task_callback := CbOut | CbUser | CbDetach.
Inductive task_state := TaskPending (cb : task_callback) | TaskCompleted (r : result V).

(** The innermost [uv_run] on the stack of the loop thread. *)
Inductive run_frame :=
| NoFrame
| FramePollOnce                      (* [poll_once] *)
| FrameRunLoop                       (* [run_loop] *)
| FrameRun (t : nat)                 (* [run], of task [t] *)
| FrameShutdown (destroying : bool)  (* [shutdown], called by [~Runtime] or not *)
| FrameLoopClose.                    (* [Loop::close] *)

Record Rt := mkRt {
  rt_handles : gmap nat uv_handle;   (* libuv's handles, the one of the executor included *)
  rt_stop_flag : bool;
  rt_closed : bool;                  (* [Loop::_closed] *)
  rt_exec : Executor;                (* the [State] of the executor *)
  rt_async : nat;                    (* its handle *)
  rt_state : bool;                   (* [UvExecutor::_state] is set *)
  rt_shutdown : bool;                (* [_shutdown] *)
  rt_frame : run_frame;
  rt_out : option (result V);        (* [out] of the running [run] *)
  rt_tasks : list task_state;
  rt_destroyed : bool;
  rt_returned : list (nat * result V); (* what the calls of [run] gave *)
  rt_dangling : bool;                (* a callback wrote the [out] of a [run] that was over *)
  rt_double_close : bool;            (* [uv_close] was called on a closing handle *)
  rt_uncaught : bool;                (* an exception left the callback of [detach] *)
  rt_requests : nat;                 (* libuv's active requests *)
  rt_terminated : bool               (* [std::terminate] was called *)
}.

Definition set_loop (hs : gmap nat uv_handle) (stop closed : bool) (s : Rt) : Rt :=
  mkRt hs stop closed (rt_exec s) (rt_async s) (rt_state s) (rt_shutdown s) (rt_frame s) (rt_out s) (rt_tasks s)
    (rt_destroyed s) (rt_returned s) (rt_dangling s) (rt_double_close s) (rt_uncaught s)
    (rt_requests s) (rt_terminated s).
Definition set_exec (x : Executor) (st : bool) (s : Rt) : Rt :=
  mkRt (rt_handles s) (rt_stop_flag s) (rt_closed s) x (rt_async s) st (rt_shutdown s) (rt_frame s) (rt_out s) (rt_tasks s)
    (rt_destroyed s) (rt_returned s) (rt_dangling s) (rt_double_close s) (rt_uncaught s)
    (rt_requests s) (rt_terminated s).
Definition set_rt_shutdown (s : Rt) : Rt :=
  mkRt (rt_handles s) (rt_stop_flag s) (rt_closed s) (rt_exec s) (rt_async s) (rt_state s) true (rt_frame s) (rt_out s)
    (rt_tasks s) (rt_destroyed s) (rt_returned s) (rt_dangling s) (rt_double_close s) (rt_uncaught s)
    (rt_requests s) (rt_terminated s).
Definition set_frame (f : run_frame) (out : option (result V)) (s : Rt) : Rt :=
  mkRt (rt_handles s) (rt_stop_flag s) (rt_closed s) (rt_exec s) (rt_async s) (rt_state s) (rt_shutdown s) f out (rt_tasks s)
    (rt_destroyed s) (rt_returned s) (rt_dangling s) (rt_double_close s) (rt_uncaught s)
    (rt_requests s) (rt_terminated s).
Definition set_tasks (ts : list task_state) (s : Rt) : Rt :=
  mkRt (rt_handles s) (rt_stop_flag s) (rt_closed s) (rt_exec s) (rt_async s) (rt_state s) (rt_shutdown s) (rt_frame s)
    (rt_out s) ts (rt_destroyed s) (rt_returned s) (rt_dangling s) (rt_double_close s) (rt_uncaught s)
    (rt_requests s) (rt_terminated s).
Definition set_destroyed (s : Rt) : Rt :=
  mkRt (rt_handles s) (rt_stop_flag s) (rt_closed s) (rt_exec s) (rt_async s) (rt_state s) (rt_shutdown s) NoFrame
    None (rt_tasks s) true (rt_returned s) (rt_dangling s) (rt_double_close s) (rt_uncaught s)
    (rt_requests s) (rt_terminated s).
Definition set_returned (rs : list (nat * result V)) (s : Rt) : Rt :=
  mkRt (rt_handles s) (rt_stop_flag s) (rt_closed s) (rt_exec s) (rt_async s) (rt_state s) (rt_shutdown s) (rt_frame s)
    (rt_out s) (rt_tasks s) (rt_destroyed s) rs (rt_dangling s) (rt_double_close s) (rt_uncaught s)
    (rt_requests s) (rt_terminated s).
Definition set_faults (dangling double uncaught : bool) (s : Rt) : Rt :=
  mkRt (rt_handles s) (rt_stop_flag s) (rt_closed s) (rt_exec s) (rt_async s) (rt_state s) (rt_shutdown s) (rt_frame s)
    (rt_out s) (rt_tasks s) (rt_destroyed s) (rt_returned s) dangling double uncaught
    (rt_requests s) (rt_terminated s).

Definition set_requests (n : nat) (s : Rt) : Rt :=
  mkRt (rt_handles s) (rt_stop_flag s) (rt_closed s) (rt_exec s) (rt_async s) (rt_state s) (rt_shutdown s) (rt_frame s)
    (rt_out s) (rt_tasks s) (rt_destroyed s) (rt_returned s) (rt_dangling s) (rt_double_close s) (rt_uncaught s) n (rt_terminated s).
(** An exception leaves the destructor: the end. *)
Definition set_terminated (s : Rt) : Rt :=
  mkRt (rt_handles s) (rt_stop_flag s) (rt_closed s) (rt_exec s) (rt_async s) (rt_state s) (rt_shutdown s) NoFrame
    None (rt_tasks s) true (rt_returned s) (rt_dangling s) (rt_double_close s) (rt_uncaught s) (rt_requests s) true.

(** ** libuv *)

(** [uv_close]; libuv aborts when the handle is closing already. *)
Definition uv_close (h : nat) (s : Rt) : Rt :=
  match rt_handles s !! h with
  | Some HClosing | None => set_faults (rt_dangling s) true (rt_uncaught s) s
  | Some _ => set_loop (<[h := HClosing]> (rt_handles s)) (rt_stop_flag s) (rt_closed s) s
  end.
Definition uv_stop (s : Rt) : Rt := set_loop (rt_handles s) true (rt_closed s) s.

(** What keeps [uv_run] going: a handle that is active or closing, and an
    active request. *)
Definition keeps_alive (st : uv_handle) : bool := match st with HActive | HClosing => true | _ => false end.
Definition loop_alive (s : Rt) : bool :=
  negb (Nat.eqb (rt_requests s) 0) || bool_decide (map_Exists (fun _ st => keeps_alive st = true) (rt_handles s)).

Definition uv_is_closing (h : nat) (s : Rt) : bool := match rt_handles s !! h with Some HClosing => true | _ => false end.

(** [uv_walk] of [Loop::close], with its callback. *)
Definition close_visited (s : Rt) (h : nat) : Rt := if negb (uv_is_closing h s) then uv_close h s else s.
Definition walk_close (s : Rt) : Rt := fold_left close_visited (map fst (map_to_list (rt_handles s))) s.

(** ** UvExecutor *)

(** The constructor: the null loop, the code of [uv_async_init]. *)
Definition new_uv_executor (uv_strerror : Z -> bytes) (loop : bool) (rc : Z) : result Executor :=
  if negb loop then Throw (InvalidArgument "UvExecutor: loop is null"%bs)
  else if negb (rc =? 0)%Z then Throw (throw_uv_error uv_strerror rc "uv_async_init"%bs)
  else Ok new_executor.

Definition off_thread : exn := LogicError "UvExecutor::shutdown must be called on the loop thread"%bs.

(** [UvExecutor::shutdown]. *)
Definition uv_executor_shutdown (on_loop : bool) (s : Rt) : result unit * Rt :=
  if negb (rt_state s) then (Ok tt, s)
  else if negb on_loop then (Throw off_thread, s)
  else if x_closing (rt_exec s) then (Ok tt, set_exec (rt_exec s) false s)
  else (Ok tt, set_exec (shutdown_executor (rt_exec s)) false (uv_close (rt_async s) s)).

(** [~UvExecutor]; the object, with its [_state], is gone. *)
Definition uv_executor_destroy (on_loop : bool) (s : Rt) : Rt :=
  if negb (rt_state s) then s
  else if on_loop then snd (uv_executor_shutdown true s)
  else
    let x := rt_exec s in
    set_exec (mkExecutor (x_queue x) (x_pending x) true (x_signal x) (x_local x) (x_draining x) (x_counted x) (x_threads x)
                (x_pushed x) (x_executed x)) false s.

(** [schedule] by a thread that is not interrupted: the steps of [enqueue]. *)
Definition enqueue_now (f : nat) (x : Executor) : bool * Executor :=
  let i := length (x_threads x) in
  let evs := if x_closing x then [XSchedule f; XEnqueue i] else [XSchedule f; XEnqueue i; XEnqueue i; XEnqueue i] in
  match executor_run evs x with Some x' => (negb (x_closing x), x') | None => (false, x) end.
Definition uv_schedule (f : nat) (s : Rt) : bool * Rt :=
  if negb (rt_state s) then (false, s)
  else let '(ok, x) := enqueue_now f (rt_exec s) in (ok, set_exec x (rt_state s) s).
Definition uv_stat (s : Rt) : Z := if rt_state s then x_pending (rt_exec s) else 0%Z.

(** ** Loop *)

Definition loop_init_error (uv_strerror : Z -> bytes) (rc : Z) : exn := RuntimeError ("uv_loop_init: "%bs ++ uv_strerror rc).
Definition new_loop (uv_strerror : Z -> bytes) (rc : Z) : result unit :=
  if negb (rc =? 0)%Z then Throw (loop_init_error uv_strerror rc) else Ok tt.

Definition UV_EBUSY : Z := (-16)%Z.
(** [uv_loop_close]: it refuses a loop that has handles or active requests. *)
Definition uv_loop_close (s : Rt) : Z := if bool_decide (rt_handles s = ∅) && Nat.eqb (rt_requests s) 0 then 0%Z else UV_EBUSY.

(** [Loop::close] up to its [uv_run], and behind it; [Some rc] when it
    returns. *)
Definition loop_close_end (s : Rt) : Z * Rt :=
  let rc := uv_loop_close s in
  (rc, if (rc =? 0)%Z then set_loop (rt_handles s) (rt_stop_flag s) true s else s).
Definition loop_close_begin (s : Rt) : option Z * Rt :=
  if rt_closed s then (Some 0%Z, s)
  else if (uv_loop_close s =? UV_EBUSY)%Z then
    (None, set_frame FrameLoopClose None (walk_close s))
  else let '(rc, s) := loop_close_end s in (Some rc, s).

(** ** Runtime *)

(** The constructor, when libuv's two calls succeed: a loop with the handle of
    the executor. *)
Definition new_runtime : Rt :=
  mkRt {[0 := HActive]} false false new_executor 0 true false NoFrame None [] false [] false false false 0 false.
Definition runtime_construct (uv_strerror : Z -> bytes) (loop_rc async_rc : Z) : result Rt :=
  match new_loop uv_strerror loop_rc with
  | Ok _ => match new_uv_executor uv_strerror true async_rc with
            | Ok _ => Ok new_runtime | Throw e => Throw e | OutOfFuel => OutOfFuel end
  | Throw e => Throw e
  | OutOfFuel => OutOfFuel
  end.

Definition is_shut_down : exn := LogicError "corouv::Runtime is shut down"%bs.
Definition never_completed : exn := LogicError "corouv::run: task never completed"%bs.
Definition post_failed : exn := RuntimeError "corouv::Runtime::post failed"%bs.

Definition ensure_running (s : Rt) : result unit := if rt_shutdown s then Throw is_shut_down else Ok tt.

(** [via(&ex).start(cb)]: the task is under way. *)
Definition start_task (cb : task_callback) (s : Rt) : Rt := set_tasks (rt_tasks s ++ [TaskPending cb]) s.

(** [corouv::run] up to its [uv_run], and behind it. *)
Definition run_begin (s : Rt) : Rt := set_frame (FrameRun (length (rt_tasks s))) None (start_task CbOut s).
Definition run_end (t : nat) (s : Rt) : result V * Rt :=
  let r := match rt_out s with None => Throw never_completed | Some r => r end in
  (r, set_returned (rt_returned s ++ [(t, r)]) (set_frame NoFrame None s)).

Definition runtime_run (s : Rt) : result unit * Rt :=
  match ensure_running s with Ok _ => (Ok tt, run_begin s) | r => (r, s) end.
Definition runtime_start (s : Rt) : result unit * Rt :=
  match ensure_running s with Ok _ => (Ok tt, start_task CbUser s) | r => (r, s) end.
Definition runtime_detach (s : Rt) : result unit * Rt :=
  match ensure_running s with Ok _ => (Ok tt, start_task CbDetach s) | r => (r, s) end.
Definition runtime_post (f : nat) (s : Rt) : result unit * Rt :=
  match ensure_running s with
  | Ok _ => let '(ok, s') := uv_schedule f s in (if ok then Ok tt else Throw post_failed, s')
  | r => (r, s)
  end.
Definition runtime_shutdown (destroying on_loop : bool) (s : Rt) : result unit * Rt :=
  if rt_shutdown s then (Ok tt, s)
  else
    match uv_executor_shutdown on_loop (set_rt_shutdown s) with
    | (Ok _, s1) => (Ok tt, set_frame (FrameShutdown destroying) None s1)
    | r => r
    end.

(** [~Runtime]: [shutdown], then the members in reverse order, [~UvExecutor]
    and [~Loop].  The exception of a [shutdown] on another thread than the
    loop's leaves the destructor. *)
Definition destroy_members (on_loop : bool) (s : Rt) : Rt :=
  match loop_close_begin (uv_executor_destroy on_loop s) with
  | (Some _, s1) => set_destroyed s1
  | (None, s1) => s1
  end.
Definition runtime_destroy (on_loop : bool) (s : Rt) : Rt :=
  if rt_shutdown s then destroy_members on_loop s
  else match runtime_shutdown true on_loop s with
       | (Ok _, s1) => s1
       | (_, s1) => set_terminated s1
       end.

(** ** Steps *)

(** A task completes and its callback is called. *)
Definition complete_task (t : nat) (r : result V) (s : Rt) : option Rt :=
  match rt_tasks s !! t with
  | Some (TaskPending cb) =>
      let s1 := set_tasks (<[t := TaskCompleted r]> (rt_tasks s)) s in
      Some match cb with
           | CbOut =>
               match rt_frame s with
               | FrameRun t' =>
                   if bool_decide (t' = t) then uv_stop (set_frame (rt_frame s) (Some r) s1)
                   else uv_stop (set_faults true (rt_double_close s) (rt_uncaught s) s1)
               | _ => uv_stop (set_faults true (rt_double_close s) (rt_uncaught s) s1)
               end
           | CbUser => s1
           | CbDetach =>
               match r with Ok _ => s1 | _ => set_faults (rt_dangling s) (rt_double_close s) true s1 end
           end
  | _ => None
  end.

(** [uv_run] returns. *)
Definition can_return (s : Rt) : bool :=
  match rt_frame s with
  | NoFrame => false
  | FramePollOnce => true
  | _ => rt_stop_flag s || negb (loop_alive s)
  end.
Definition uv_run_returns (s : Rt) : option Rt :=
  if can_return s then
    let s1 := set_loop (rt_handles s) false (rt_closed s) s in
    match rt_frame s with
    | FrameRun t => Some (snd (run_end t s1))
    | FrameShutdown true => Some (destroy_members true (set_frame NoFrame None s1))
    | FrameLoopClose => Some (set_destroyed (snd (loop_close_end s1)))
    | _ => Some (set_frame NoFrame None s1)
    end
  else None.

Inductive rt_event :=
| CallRun | CallStart | CallDetach
| CallPost (f : nat)
| CallPollOnce | CallRunLoop | CallStop
| CallShutdown (on_loop : bool)
| CallDestroy (on_loop : bool)
| UserHandle (h : nat) (st : uv_handle)  (* a handle of the user's is initialised, started or stopped *)
| UserClose (h : nat)                    (* the user closes one *)
| CloseCallback (h : nat)
| Complete (t : nat) (r : result V)
| Exec (ev : executor_event)             (* another thread schedules, or the loop drains *)
| RequestBegin                           (* a request is made: a write, a lookup, work for the pool *)
| RequestDone                            (* its callback *)
| Return.

(** No call on a runtime that is destroyed; [uv_run] is not re-entered. *)
Definition runtime_idle (s : Rt) : bool :=
  negb (rt_destroyed s) && match rt_frame s with NoFrame => true | _ => false end.
Definition in_loop (s : Rt) : bool := match rt_frame s with NoFrame => false | _ => true end.

Definition rt_step (ev : rt_event) (s : Rt) : option Rt :=
  match ev with
  | CallRun => if runtime_idle s then Some (snd (runtime_run s)) else None
  | CallStart => if negb (rt_destroyed s) then Some (snd (runtime_start s)) else None
  | CallDetach => if negb (rt_destroyed s) then Some (snd (runtime_detach s)) else None
  | CallPost f => if negb (rt_destroyed s) then Some (snd (runtime_post f s)) else None
  | CallPollOnce => if runtime_idle s then Some (set_frame FramePollOnce None s) else None
  | CallRunLoop => if runtime_idle s then Some (set_frame FrameRunLoop None s) else None
  | CallStop => if negb (rt_destroyed s) then Some (uv_stop s) else None
  | CallShutdown on_loop => if runtime_idle s then Some (snd (runtime_shutdown false on_loop s)) else None
  | CallDestroy on_loop => if runtime_idle s then Some (runtime_destroy on_loop s) else None
  | UserHandle h st =>
      if negb (rt_destroyed s) && bool_decide (h <> rt_async s) then
        match st, rt_handles s !! h with
        | (HIdle | HActive), (None | Some HIdle | Some HActive) =>
            Some (set_loop (<[h := st]> (rt_handles s)) (rt_stop_flag s) (rt_closed s) s)
        | _, _ => None
        end
      else None
  | UserClose h =>
      if negb (rt_destroyed s) && bool_decide (h <> rt_async s) then
        match rt_handles s !! h with Some HIdle | Some HActive => Some (uv_close h s) | _ => None end
      else None
  | CloseCallback h =>
      match in_loop s, rt_handles s !! h with
      | true, Some HClosing => Some (set_loop (delete h (rt_handles s)) (rt_stop_flag s) (rt_closed s) s)
      | _, _ => None
      end
  | Complete t r => if in_loop s then complete_task t r s else None
  | Exec ev =>
      match ev with
      | XShutdown => None
      | XSchedule _ | XEnqueue _ => x ← executor_step ev (rt_exec s); Some (set_exec x (rt_state s) s)
      | _ => if in_loop s then x ← executor_step ev (rt_exec s); Some (set_exec x (rt_state s) s) else None
      end
  | RequestBegin => if negb (rt_destroyed s) then Some (set_requests (S (rt_requests s)) s) else None
  | RequestDone =>
      match in_loop s, rt_requests s with
      | true, S n => Some (set_requests n s)
      | _, _ => None
      end
  | Return => uv_run_returns s
  end.
End Runtime.
Arguments Rt _ : clear implicits.
Arguments rt_event _ : clear implicits.

(** ** Invariant *)

Section Invariant.
Context {V : Type}.
Implicit Types s : Rt V.

Definition frame_ok s : Prop :=
  match rt_frame s with
  | FrameRun t =>
      rt_state s = true /\
      ((rt_out s = None /\ rt_tasks s !! t = Some (TaskPending CbOut)) \/
       (exists r, rt_out s = Some r /\ rt_stop_flag s = true /\ rt_tasks s !! t = Some (TaskCompleted r)))
  | FrameShutdown _ | FrameLoopClose => rt_state s = false
  | _ => True
  end.

(** [seen]: somebody has called [stop]. *)
Record rt_inv (seen : bool) s : Prop := {
  ri_exec : executor_inv (rt_exec s);
  ri_open : rt_state s = true -> rt_handles s !! rt_async s = Some HActive /\ x_closing (rt_exec s) = false;
  ri_gone : rt_state s = false -> rt_shutdown s = true /\ rt_handles s !! rt_async s <> Some HIdle /\ rt_handles s !! rt_async s <> Some HActive;
  ri_closed : rt_state s = true -> rt_closed s = false;
  ri_double : rt_double_close s = false;
  ri_frame : frame_ok s;
  ri_returned : forall t r, (t, r) ∈ rt_returned s ->
    rt_tasks s !! t = Some (TaskCompleted r) \/ (r = Throw never_completed /\ seen = true);
  ri_own : seen = false -> rt_dangling s = false /\
    (forall t, rt_tasks s !! t = Some (TaskPending CbOut) -> rt_frame s = FrameRun t) /\
    (rt_stop_flag s = true -> exists t, rt_frame s = FrameRun t /\ rt_out s <> None)
}.

Lemma new_runtime_inv : rt_inv false (new_runtime (V := V)).
Proof.
  constructor; simpl; try done. by intros t r Ht%elem_of_nil.
Qed.

(** An open executor keeps the loop alive. *)
Lemma open_alive s seen : rt_inv seen s -> rt_state s = true -> loop_alive s = true.
Proof.
  intros I Hs. destruct (ri_open _ _ I Hs) as [Ha _]. apply orb_true_iff. right. apply bool_decide_eq_true. by exists (rt_async s), HActive.
Qed.

(** A task list that grows keeps what was known of its tasks. *)
Lemma start_task_inv cb seen s : cb <> CbOut -> rt_inv seen s -> rt_inv seen (start_task cb s).
Proof.
  intros Hcb [I1 I2 I3 Icl I4 I5 I6 I7]. constructor; simpl; try done.
  - unfold frame_ok in *. simpl. destruct (rt_frame s); try done. destruct I5 as [Hs [[Ho Ht]|(r & Ho & Hst & Ht)]].
    + split; [done|]. left. split; [done|]. by apply lookup_app_l_Some.
    + split; [done|]. right. exists r. split_and!; try done. by apply lookup_app_l_Some.
  - intros t r Ht. destruct (I6 t r Ht) as [?|?]; [left; by apply lookup_app_l_Some | by right].
  - intros Hseen. destruct (I7 Hseen) as (Hd & Hp & Hst). split_and!; try done.
    intros t [Ht|[Hl Ht]]%lookup_app_Some; [by apply Hp|].
    destruct (t - length (rt_tasks s)) as [|n]; simpl in Ht; [congruence | by rewrite lookup_nil in Ht].
Qed.

Lemma set_exec_inv seen x s :
  executor_inv x -> x_closing x = x_closing (rt_exec s) -> rt_inv seen s -> rt_inv seen (set_exec x (rt_state s) s).
Proof. intros Hx Hc [I1 I2 I3 Icl I4 I5 I6 I7]. constructor; simpl; try done. by rewrite Hc. Qed.

(** The handles of the user change; the executor's stays. *)
Lemma set_handles_inv seen hs s :
  hs !! rt_async s = rt_handles s !! rt_async s \/ (rt_state s = false /\ (hs !! rt_async s = None \/ hs !! rt_async s = Some HClosing)) ->
  rt_inv seen s -> rt_inv seen (set_loop hs (rt_stop_flag s) (rt_closed s) s).
Proof.
  intros Hh [I1 I2 I3 Icl I4 I5 I6 I7]. constructor; simpl; try done.
  - intros Hs. destruct Hh as [->|[? _]]; [by apply I2 | congruence].
  - intros Hs. destruct (I3 Hs) as (? & ? & ?). destruct Hh as [->|[_ [-> | ->]]]; by split_and!.
Qed.

Lemma enqueue_now_inv f x : executor_inv x -> executor_inv (snd (enqueue_now f x)) /\ x_closing (snd (enqueue_now f x)) = x_closing x.
Proof.
  intros I. unfold enqueue_now.
  assert (forall evs y y', executor_inv y -> executor_run evs y = Some y' ->
    Forall (fun ev => ev <> XShutdown) evs -> executor_inv y' /\ x_closing y' = x_closing y) as Hgen.
  { induction evs as [|ev evs IH]; intros y y' Iy; simpl; [by intros [= <-]|].
    destruct (executor_step ev y) as [y1|] eqn:E; [|done]. intros Hr [Hev Hall]%Forall_cons.
    destruct (IH y1 y') as [Iy' ->]; [by eapply executor_step_inv | done | done |]. split; [done|].
    by eapply executor_step_closing. }
  destruct (executor_run _ x) as [x'|] eqn:E; [|done]. simpl. eapply Hgen; [done | exact E|].
  destruct (x_closing x); repeat constructor; done.
Qed.
End Invariant.

Section Steps.
Context {V : Type}.
Implicit Types s : Rt V.

(** [shutdown] of the executor, by the loop thread. *)
Lemma uv_executor_shutdown_inv seen s :
  rt_inv seen s -> rt_shutdown s = true -> (forall t, rt_frame s <> FrameRun t) ->
  rt_inv seen (snd (uv_executor_shutdown true s)) /\ rt_state (snd (uv_executor_shutdown true s)) = false /\
  fst (uv_executor_shutdown true s) = Ok tt /\ rt_shutdown (snd (uv_executor_shutdown true s)) = true /\
  rt_frame (snd (uv_executor_shutdown true s)) = rt_frame s /\
  rt_closed (snd (uv_executor_shutdown true s)) = rt_closed s /\
  rt_stop_flag (snd (uv_executor_shutdown true s)) = rt_stop_flag s.
Proof.
  intros [I1 I2 I3 Icl I4 I5 I6 I7] Hsd Hf. unfold uv_executor_shutdown. destruct (rt_state s) eqn:Es; simpl.
  - destruct (I2 eq_refl) as [Ha Hc]. rewrite Hc. unfold uv_close. rewrite Ha. split_and!; try done.
    constructor; simpl; try done.
    + by apply (executor_step_inv XShutdown (rt_exec s)).
    + intros _. rewrite lookup_insert_eq. by split_and!.
    + unfold frame_ok in *. simpl. destruct (rt_frame s) eqn:E; try done. by destruct (Hf t).
  - split_and!; try done. constructor; try done; by rewrite Es.
Qed.

Lemma shutdown_flag_inv seen s : rt_inv seen s -> rt_inv seen (set_rt_shutdown s).
Proof.
  intros [I1 I2 I3 Icl I4 I5 I6 I7]. constructor; simpl; try done. intros Hs. by split; [|apply I3].
Qed.

(** Entering and leaving a frame that is not [run]'s. *)
Lemma set_frame_inv seen f s :
  rt_inv seen s -> (forall t, rt_frame s <> FrameRun t) -> (forall t, f <> FrameRun t) ->
  (match f with FrameShutdown _ | FrameLoopClose => rt_state s = false | _ => True end) ->
  rt_inv seen (set_frame f None s).
Proof.
  intros [I1 I2 I3 Icl I4 I5 I6 I7] Hs Hf Hst. constructor; simpl; try done.
  - unfold frame_ok. simpl. destruct f; try done. by destruct (Hf t).
  - intros Hseen. destruct (I7 Hseen) as (Hd & Hp & Hstop). split_and!; try done.
    + intros t Ht%Hp. by destruct (Hs t).
    + intros Ht%Hstop. destruct Ht as [t [Ht _]]. by destruct (Hs t).
Qed.

Lemma set_destroyed_inv seen s : rt_inv seen s -> (forall t, rt_frame s <> FrameRun t) -> rt_inv seen (set_destroyed s).
Proof.
  intros Hi Hs. assert (rt_inv seen (set_frame NoFrame None s)) as [I1 I2 I3 Icl I4 I5 I6 I7] by (by apply set_frame_inv). by constructor.
Qed.

(** The walk closes each handle that is not closing, and each once. *)
Lemma close_visited_all hs s :
  (forall h, h ∈ hs -> is_Some (rt_handles s !! h)) ->
  exists m, fold_left close_visited hs s = set_loop m (rt_stop_flag s) (rt_closed s) s /\
    forall h, m !! h = if decide (h ∈ hs) then Some HClosing else rt_handles s !! h.
Proof.
  revert s. induction hs as [|h hs IH]; intros s Hin; cbn [fold_left].
  - exists (rt_handles s). split; [by destruct s|]. intros h. destruct (decide (h ∈ [])) as [Hh|]; [by apply elem_of_nil in Hh | done].
  - assert (exists m1, close_visited s h = set_loop m1 (rt_stop_flag s) (rt_closed s) s /\ m1 = <[h := HClosing]> (rt_handles s)) as (m1 & E1 & ->).
    { eexists. split; [|done]. unfold close_visited, uv_is_closing, uv_close. destruct (Hin h) as [st Hst]; [by left|]. rewrite Hst.
      destruct st; simpl; try done. rewrite insert_id by done. by destruct s. }
    rewrite E1. destruct (IH (set_loop (<[h := HClosing]> (rt_handles s)) (rt_stop_flag s) (rt_closed s) s)) as (m & E & Hm).
    { intros k Hk. simpl. destruct (decide (k = h)) as [->|Hne]; [rewrite lookup_insert_eq; eauto|].
      rewrite lookup_insert_ne by done. apply Hin. by right. }
    exists m. split; [exact E|]. intros k. rewrite Hm. cbn [rt_handles set_loop]. destruct (decide (k = h)) as [->|Hne].
    + rewrite lookup_insert_eq, (decide_True (P := h ∈ h :: hs)) by (by left). by destruct (decide _).
    + rewrite lookup_insert_ne by done. assert (k ∈ h :: hs <-> k ∈ hs) as Hiff by (rewrite elem_of_cons; naive_solver).
      destruct (decide (k ∈ hs)), (decide (k ∈ h :: hs)); naive_solver.
Qed.
Lemma walk_close_all s : walk_close s = set_loop ((fun _ => HClosing) <$> rt_handles s) (rt_stop_flag s) (rt_closed s) s.
Proof.
  unfold walk_close. assert (forall h, h ∈ map fst (map_to_list (rt_handles s)) <-> is_Some (rt_handles s !! h)) as Hk.
  { intros h. rewrite list_elem_of_fmap. split.
    - intros ([k st] & -> & Hin). apply elem_of_map_to_list in Hin. eauto.
    - intros [st Hst]. exists (h, st). split; [done|]. by apply elem_of_map_to_list. }
  destruct (close_visited_all (map fst (map_to_list (rt_handles s))) s) as (m & -> & Hm); [by intros h ?%Hk|].
  f_equal. apply map_eq. intros h. rewrite Hm, lookup_fmap. destruct (decide _) as [Hin|Hin]; rewrite Hk in Hin.
  - by destruct Hin as [st ->].
  - destruct (rt_handles s !! h); [destruct Hin; eauto | done].
Qed.
Lemma walk_close_lookup (hs : gmap nat uv_handle) h :
  ((fun _ => HClosing) <$> hs) !! h = None \/ ((fun _ => HClosing) <$> hs) !! h = Some HClosing.
Proof. rewrite lookup_fmap. destruct (hs !! h); auto. Qed.

Lemma loop_close_end_inv seen s : rt_inv seen s -> rt_inv seen (snd (loop_close_end s)).
Proof.
  intros I. unfold loop_close_end, uv_loop_close. simpl. destruct (bool_decide_reflect (rt_handles s = ∅)) as [He|He]; simpl; [|done].
  destruct (Nat.eqb _ 0); simpl; [|done]. destruct I as [I1 I2 I3 Icl I4 I5 I6 I7]. constructor; try done. simpl. intros Hs.
  destruct (I2 Hs) as [Ha _]. by rewrite He, lookup_empty in Ha.
Qed.

(** All handles closing, and the state of the executor gone. *)
Lemma walked_inv seen s x :
  rt_inv seen s -> rt_shutdown s = true -> (forall t, rt_frame s <> FrameRun t) -> executor_inv x ->
  rt_inv seen (set_frame FrameLoopClose None (walk_close (set_exec x false s))).
Proof.
  intros I Hsd Hf Hx. rewrite walk_close_all.
  assert (rt_inv seen (set_loop ((fun _ => HClosing) <$> rt_handles s) (rt_stop_flag s) (rt_closed s) (set_exec x false s))) as Hw.
  { destruct I as [I1 I2 I3 Icl I4 I5 I6 I7]. constructor; simpl; try done.
    - intros _. split; [done|]. by destruct (walk_close_lookup (rt_handles s) (rt_async s)) as [-> | ->].
    - unfold frame_ok in *. simpl. destruct (rt_frame s) eqn:E; try done. by destruct (Hf t). }
  by apply set_frame_inv.
Qed.

Lemma loop_close_end_frame s : rt_frame (snd (loop_close_end s)) = rt_frame s.
Proof. unfold loop_close_end. simpl. by destruct (_ =? 0)%Z. Qed.

Lemma destroy_members_inv on_loop seen s :
  rt_inv seen s -> rt_shutdown s = true -> (forall t, rt_frame s <> FrameRun t) -> rt_inv seen (destroy_members on_loop s).
Proof.
  intros I Hsd Hf. unfold destroy_members.
  assert (forall s1, rt_inv seen s1 -> rt_state s1 = false -> rt_shutdown s1 = true -> rt_frame s1 = rt_frame s ->
    rt_inv seen (match loop_close_begin s1 with (Some _, s2) => set_destroyed s2 | (None, s2) => s2 end)) as Hend.
  { intros s1 I1 Hs1 Hsd1 Hf1. rewrite <- Hf1 in Hf. unfold loop_close_begin. destruct (rt_closed s1) eqn:Ec; [by apply set_destroyed_inv|].
    destruct (_ =? UV_EBUSY)%Z.
    - replace s1 with (set_exec (rt_exec s1) false s1) by (rewrite <- Hs1; by destruct s1). apply walked_inv; try done. apply I1.
    - destruct (loop_close_end s1) as [rc s2] eqn:E. replace s2 with (snd (loop_close_end s1)) by (by rewrite E).
      apply set_destroyed_inv; [by apply loop_close_end_inv | by rewrite loop_close_end_frame]. }
  unfold uv_executor_destroy. destruct (rt_state s) eqn:Es; simpl; [|by apply Hend].
  destruct on_loop.
  - destruct (uv_executor_shutdown_inv seen s I Hsd Hf) as (? & ? & _ & ? & ? & _). by apply Hend.
  - unfold loop_close_begin. simpl. rewrite (ri_closed _ _ I Es). destruct (ri_open _ _ I Es) as [Ha _]. unfold uv_loop_close. simpl.
    rewrite bool_decide_eq_false_2 by (intros E; by rewrite E, lookup_empty in Ha). simpl. apply walked_inv; try done.
    destruct (ri_exec _ _ I) as [X1 X2 X3 X4]. by constructor.
Qed.

Lemma runtime_shutdown_inv seen d on_loop s :
  rt_inv seen s -> (forall t, rt_frame s <> FrameRun t) -> rt_inv seen (snd (runtime_shutdown d on_loop s)).
Proof.
  intros I Hf. unfold runtime_shutdown. destruct (rt_shutdown s); [done|].
  pose proof (shutdown_flag_inv seen s I) as I1. destruct on_loop.
  - destruct (uv_executor_shutdown_inv seen (set_rt_shutdown s) I1 eq_refl Hf) as (I2 & Hs & Hr & _ & Hfr & _).
    destruct (uv_executor_shutdown true (set_rt_shutdown s)) as [r s2]. simpl in *. subst r. simpl.
    apply set_frame_inv; try done. by rewrite Hfr.
  - unfold uv_executor_shutdown. destruct (rt_state (set_rt_shutdown s)) eqn:E; simpl; [done|].
    apply set_frame_inv; done.
Qed.

Lemma set_terminated_inv seen s : rt_inv seen s -> (forall t, rt_frame s <> FrameRun t) -> rt_inv seen (set_terminated s).
Proof.
  intros Hi Hs. destruct (set_destroyed_inv seen s Hi Hs) as [I1 I2 I3 Icl I4 I5 I6 I7]. by constructor.
Qed.

Lemma runtime_shutdown_thrown d on_loop s :
  match fst (runtime_shutdown d on_loop s) with Ok _ => True | _ => rt_frame (snd (runtime_shutdown d on_loop s)) = rt_frame s end.
Proof.
  unfold runtime_shutdown. destruct (rt_shutdown s); [done|]. unfold uv_executor_shutdown. simpl.
  destruct (rt_state s), on_loop; simpl; try done. by destruct (x_closing _).
Qed.

(** [run] starts its task and enters its frame. *)
Lemma run_begin_inv seen s :
  rt_inv seen s -> rt_frame s = NoFrame -> rt_shutdown s = false -> rt_inv seen (run_begin s).
Proof.
  intros [I1 I2 I3 Icl I4 I5 I6 I7] Hf Hsd. constructor; simpl; try done.
  - unfold frame_ok. simpl. split.
    + destruct (rt_state s) eqn:E; [done|]. destruct (I3 eq_refl). congruence.
    + left. split; [done|]. by rewrite list_lookup_middle.
  - intros t r Ht. destruct (I6 t r Ht) as [?|?]; [left; by apply lookup_app_l_Some | by right].
  - intros Hseen. destruct (I7 Hseen) as (Hd & Hp & Hst). split_and!; [done | | intros [t [? _]]%Hst; congruence].
    intros t [Ht|[Hl Ht]]%lookup_app_Some; [apply Hp in Ht; congruence|].
    destruct (t - length (rt_tasks s)) as [|n] eqn:E; simpl in Ht; [f_equal; lia | by rewrite lookup_nil in Ht].
Qed.

(** A completed task stays completed; the result is recorded. *)
Lemma rt_returned_insert seen t r0 cb s :
  rt_inv seen s -> rt_tasks s !! t = Some (TaskPending cb) ->
  forall t' r, (t', r) ∈ rt_returned s ->
    <[t := TaskCompleted r0]> (rt_tasks s) !! t' = Some (TaskCompleted r) \/ (r = Throw never_completed /\ seen = true).
Proof.
  intros I Ht t' r Hr. destruct (ri_returned _ _ I t' r Hr) as [H|H]; [left | by right].
  rewrite list_lookup_insert_ne; [done|]. intros ->. congruence.
Qed.

Lemma pending_insert (t : nat) (r0 : result V) (ts : list (@task_state V)) t' :
  <[t := TaskCompleted r0]> ts !! t' = Some (TaskPending CbOut) -> t' <> t /\ ts !! t' = Some (TaskPending CbOut).
Proof.
  intros H. destruct (decide (t' = t)) as [->|Hne]; [|by rewrite list_lookup_insert_ne in H].
  apply list_lookup_insert_Some in H as [(_ & ? & _)|[? _]]; done.
Qed.

(** A task other than that of the running [run] completes. *)
Lemma complete_other seen t r cb st dg uc s :
  rt_inv seen s -> rt_tasks s !! t = Some (TaskPending cb) -> rt_frame s <> FrameRun t ->
  (rt_stop_flag s = true -> st = true) ->
  (seen = false -> dg = false /\ (st = true -> exists t', rt_frame s = FrameRun t' /\ rt_out s <> None)) ->
  rt_inv seen (set_loop (rt_handles s) st (rt_closed s)
    (set_faults dg (rt_double_close s) uc (set_tasks (<[t := TaskCompleted r]> (rt_tasks s)) s))).
Proof.
  intros Hi Ht Hne Hst Hseen. pose proof (rt_returned_insert seen t r cb s Hi Ht) as Hret.
  destruct Hi as [I1 I2 I3 Icl I4 I5 I6 I7]. constructor; simpl; try done.
  - unfold frame_ok in *. simpl. destruct (rt_frame s) as [| | |t'|d|]; try done.
    assert (t' <> t) by congruence. rewrite !list_lookup_insert_ne by done. naive_solver.
  - intros Hs. destruct (Hseen Hs) as [-> Hstop]. destruct (I7 Hs) as (_ & Hp & _). split_and!; [done | | done].
    intros t' [_ Ht']%pending_insert. by apply Hp.
Qed.

(** The task of the running [run] completes. *)
Lemma complete_own seen t r s :
  rt_inv seen s -> rt_tasks s !! t = Some (TaskPending CbOut) -> rt_frame s = FrameRun t ->
  rt_inv seen (uv_stop (set_frame (rt_frame s) (Some r) (set_tasks (<[t := TaskCompleted r]> (rt_tasks s)) s))).
Proof.
  intros Hi Ht Hf. pose proof (rt_returned_insert seen t r _ s Hi Ht) as Hret. pose proof (lookup_lt_Some _ _ _ Ht) as Hlt.
  destruct Hi as [I1 I2 I3 Icl I4 I5 I6 I7]. constructor; simpl; try done.
  - unfold frame_ok in *. simpl. rewrite Hf in *. destruct I5 as [Hs _]. split; [done|]. right. exists r.
    by rewrite list_lookup_insert_eq.
  - intros Hs. destruct (I7 Hs) as (Hd & Hp & _). split_and!; [done | | eauto].
    intros t' [_ Ht']%pending_insert. by apply Hp.
Qed.

Lemma complete_task_inv seen t r s s' : rt_inv seen s -> complete_task t r s = Some s' -> rt_inv seen s'.
Proof.
  intros Hi. unfold complete_task. destruct (rt_tasks s !! t) as [[cb|]|] eqn:Ht; [|done|done]. intros [= <-].
  assert (cb <> CbOut -> rt_frame s <> FrameRun t) as Hcb.
  { intros Hne Hf. pose proof (ri_frame _ _ Hi) as Hok. unfold frame_ok in Hok. rewrite Hf, Ht in Hok.
    destruct Hok as [_ [[_ ?]|(? & _ & _ & ?)]]; congruence. }
  assert (forall uc, cb <> CbOut -> rt_inv seen
    (set_faults (rt_dangling s) (rt_double_close s) uc (set_tasks (<[t := TaskCompleted r]> (rt_tasks s)) s))) as Hother.
  { intros uc Hne. apply (complete_other seen t r cb (rt_stop_flag s) (rt_dangling s) uc s Hi Ht (Hcb Hne)); [done|].
    intros Hs. destruct (ri_own _ _ Hi Hs) as (Hd & _ & Hst). done. }
  destruct cb.
  - assert (rt_frame s <> FrameRun t -> rt_inv seen (uv_stop (set_faults true (rt_double_close s) (rt_uncaught s)
      (set_tasks (<[t := TaskCompleted r]> (rt_tasks s)) s)))) as Hdangle.
    { intros Hne. apply (complete_other seen t r CbOut true true (rt_uncaught s) s Hi Ht Hne); [done|].
      intros Hs. destruct (ri_own _ _ Hi Hs) as (_ & Hp & _). by apply Hp in Ht. }
    destruct (rt_frame s) as [| | |t'|d|] eqn:Ef; try (by apply Hdangle).
    case_bool_decide as E; [|apply Hdangle; congruence]. subst t'. rewrite <- Ef. by apply complete_own.
  - apply (Hother (rt_uncaught s)). done.
  - destruct r; [apply (Hother (rt_uncaught s)) | apply Hother | apply Hother]; done.
Qed.

(** [uv_run] of [run] returns. *)
Lemma run_end_inv seen t s :
  rt_inv seen s -> rt_frame s = FrameRun t -> can_return s = true ->
  rt_inv seen (snd (run_end t (set_loop (rt_handles s) false (rt_closed s) s))).
Proof.
  intros Hi Hf Hr. pose proof (ri_frame _ _ Hi) as Hok. unfold frame_ok in Hok. rewrite Hf in Hok. destruct Hok as [Hs Hout].
  assert (rt_stop_flag s = true) as Hstop.
  { unfold can_return in Hr. rewrite Hf, (open_alive s seen Hi Hs), orb_false_r in Hr. done. }
  destruct Hi as [I1 I2 I3 Icl I4 I5 I6 I7]. constructor; simpl; try done.
  - intros t' r [Hin|Hin%list_elem_of_singleton]%elem_of_app; [by apply I6|]. injection Hin as -> ->.
    destruct Hout as [[Ho Ht]|(r & -> & _ & Ht)]; [|by left]. rewrite Ho. right. split; [done|].
    destruct seen; [done|]. destruct (I7 eq_refl) as (_ & _ & Hst). by destruct (Hst Hstop) as (t' & _ & ?).
  - intros Hseen. destruct (I7 Hseen) as (Hd & Hp & Hst). split_and!; [done | | done].
    intros t' Ht'. pose proof (Hp t' Ht') as E. rewrite Hf in E. injection E as ->.
    destruct (Hst Hstop) as (? & _ & Ho). destruct Hout as [[? _]|(r & _ & _ & Ht)]; congruence.
Qed.
End Steps.

Section Theorems.
Context {V : Type}.
Implicit Types s : Rt V.

Definition is_stop (ev : rt_event V) : bool := match ev with CallStop => true | _ => false end.

Lemma clear_stop_inv seen s :
  rt_inv seen s -> (forall t, rt_frame s <> FrameRun t) ->
  rt_inv seen (set_loop (rt_handles s) false (rt_closed s) s).
Proof.
  intros [I1 I2 I3 Icl I4 I5 I6 I7] Hf. constructor; simpl; try done.
  - unfold frame_ok in *. simpl. destruct (rt_frame s); try done. by destruct (Hf t).
  - intros Hs. by destruct (I7 Hs) as (? & ? & _).
Qed.

Lemma uv_run_returns_inv seen s s' : rt_inv seen s -> uv_run_returns s = Some s' -> rt_inv seen s'.
Proof.
  intros Hi. unfold uv_run_returns. destruct (can_return s) eqn:Hr; [|done].
  destruct (rt_frame s) as [| | |t|d|] eqn:Hf.
  4: { intros [= <-]. by apply run_end_inv. }
  all: assert (forall t, rt_frame s <> FrameRun t) as Hne by (by rewrite Hf).
  all: pose proof (clear_stop_inv seen s Hi Hne) as H1.
  - by unfold can_return in Hr; rewrite Hf in Hr.
  - intros [= <-]. by apply set_frame_inv.
  - intros [= <-]. by apply set_frame_inv.
  - pose proof (ri_frame _ _ Hi) as Hok. unfold frame_ok in Hok. rewrite Hf in Hok.
    destruct (ri_gone _ _ Hi Hok) as [Hsd _].
    destruct d; intros [= <-]; [apply destroy_members_inv; try done|]; by apply set_frame_inv.
  - intros E. assert (s' = set_destroyed (snd (loop_close_end (set_loop (rt_handles s) false (rt_closed s) s)))) as -> by congruence.
    apply set_destroyed_inv; [by apply loop_close_end_inv | by rewrite loop_close_end_frame].
Qed.

Lemma inv_seen seen s : rt_inv seen s -> rt_inv true s.
Proof.
  intros [I1 I2 I3 Icl I4 I5 I6 I7]. constructor; try done. intros t r Ht. destruct (I6 t r Ht) as [?|[? _]]; auto.
Qed.

Lemma runtime_idle_frame s : runtime_idle s = true -> rt_frame s = NoFrame.
Proof. unfold runtime_idle. destruct (rt_frame s); by rewrite ?andb_false_r. Qed.

Lemma rt_step_inv seen ev s s' : rt_inv seen s -> rt_step ev s = Some s' -> rt_inv (is_stop ev || seen) s'.
Proof.
  intros Hi. assert (runtime_idle s = true -> forall t, rt_frame s <> FrameRun t) as Hidle.
  { intros ->%runtime_idle_frame t. done. }
  destruct ev as [| | |f| | | |on_loop|on_loop|h st|h|h|t r|ev| | |]; simpl.
  - destruct (runtime_idle s) eqn:Ei; [|done]. intros [= <-]. unfold runtime_run, ensure_running.
    destruct (rt_shutdown s) eqn:Esd; [done|]. apply run_begin_inv; [done | by apply runtime_idle_frame | done].
  - destruct (negb _); [|done]. intros [= <-]. unfold runtime_start, ensure_running.
    destruct (rt_shutdown s); [done|]. by apply start_task_inv.
  - destruct (negb _); [|done]. intros [= <-]. unfold runtime_detach, ensure_running.
    destruct (rt_shutdown s); [done|]. by apply start_task_inv.
  - destruct (negb _); [|done]. intros [= <-]. unfold runtime_post, ensure_running, uv_schedule.
    destruct (rt_shutdown s); [done|]. destruct (rt_state s) eqn:Es; [|done]. simpl.
    destruct (enqueue_now_inv f (rt_exec s) (ri_exec _ _ Hi)) as [Hx Hc].
    destruct (enqueue_now f (rt_exec s)) as [ok x]. simpl in *. rewrite <- Es. by apply set_exec_inv.
  - destruct (runtime_idle s) eqn:Ei; [|done]. intros [= <-]. apply set_frame_inv; try done. by apply Hidle.
  - destruct (runtime_idle s) eqn:Ei; [|done]. intros [= <-]. apply set_frame_inv; try done. by apply Hidle.
  - destruct (negb _); [|done]. intros [= <-]. apply inv_seen in Hi as [I1 I2 I3 Icl I4 I5 I6 I7]. constructor; try done.
    unfold frame_ok in *. simpl. destruct (rt_frame s); naive_solver.
  - destruct (runtime_idle s) eqn:Ei; [|done]. intros [= <-]. apply runtime_shutdown_inv; [done | by apply Hidle].
  - destruct (runtime_idle s) eqn:Ei; [|done]. intros [= <-]. unfold runtime_destroy.
    destruct (rt_shutdown s) eqn:Esd; [apply destroy_members_inv; auto|].
    pose proof (runtime_shutdown_inv seen true on_loop s Hi (Hidle eq_refl)) as Hsh.
    pose proof (runtime_shutdown_thrown true on_loop s) as Hfr.
    destruct (runtime_shutdown true on_loop s) as [[[]|e|] s1]; simpl in *; [done | |]; apply set_terminated_inv; auto; intros t; rewrite Hfr; by apply Hidle.
  - destruct (negb _); [|done]. simpl. case_bool_decide as Hh; [|done]. intros E.
    assert (s' = set_loop (<[h := st]> (rt_handles s)) (rt_stop_flag s) (rt_closed s) s) as ->.
    { by destruct st, (rt_handles s !! h) as [[]|]; simplify_eq. }
    apply set_handles_inv; [|done]. left. by rewrite lookup_insert_ne.
  - destruct (negb _); [|done]. simpl. case_bool_decide as Hh; [|done]. intros E.
    assert (s' = set_loop (<[h := HClosing]> (rt_handles s)) (rt_stop_flag s) (rt_closed s) s) as ->.
    { unfold uv_close in E. by destruct (rt_handles s !! h) as [[]|]; simplify_eq. }
    apply set_handles_inv; [|done]. left. by rewrite lookup_insert_ne.
  - destruct (in_loop s); [|done]. destruct (rt_handles s !! h) as [[]|] eqn:Eh; try done. intros [= <-].
    apply set_handles_inv; [|done]. destruct (decide (h = rt_async s)) as [->|Hne]; [|left; by rewrite lookup_delete_ne].
    right. rewrite lookup_delete_eq. split; [|by left]. destruct (rt_state s) eqn:Es; [|done].
    destruct (ri_open _ _ Hi Es). congruence.
  - destruct (in_loop s); [|done]. by apply complete_task_inv.
  - assert (ev <> XShutdown -> (x ← executor_step ev (rt_exec s); Some (set_exec x (rt_state s) s)) = Some s' ->
      rt_inv seen s') as Hgen.
    { intros Hev. destruct (executor_step ev (rt_exec s)) as [x|] eqn:E; simpl; [|done]. intros [= <-].
      apply set_exec_inv; [eapply executor_step_inv; [apply (ri_exec _ _ Hi) | done] | by eapply executor_step_closing | done]. }
    destruct ev; try (by apply Hgen); try done; destruct (in_loop s); try done; by apply Hgen.
  - destruct (negb _); [|done]. intros [= <-]. destruct Hi as [I1 I2 I3 Icl I4 I5 I6 I7]. by constructor.
  - destruct (in_loop s); [|done]. destruct (rt_requests s) as [|n]; [done|]. intros [= <-].
    destruct Hi as [I1 I2 I3 Icl I4 I5 I6 I7]. by constructor.
  - by apply uv_run_returns_inv.
Qed.

Lemma rt_run_inv evs s seen s' :
  rt_inv seen s -> run_steps rt_step evs s = Some s' -> rt_inv (existsb is_stop evs || seen) s'.
Proof.
  revert s seen. induction evs as [|ev evs IH]; intros s seen Hi; simpl; [by intros [= <-]|].
  destruct (rt_step ev s) as [s1|] eqn:E; [|done]. intros Hr. apply (rt_step_inv seen) in E; [|done].
  apply (IH _ _ E) in Hr. by destruct (is_stop ev), (existsb is_stop evs), seen.
Qed.

Lemma no_stop evs : CallStop ∉ evs -> existsb is_stop evs = false.
Proof.
  induction evs as [|ev evs IH]; [done|]. rewrite not_elem_of_cons. intros [Hne Hin]. simpl. rewrite IH by done.
  by destruct ev.
Qed.
End Theorems.

(** C22: [run] gives what its task completed with.  In every interleaving of
    calls, callbacks, completions, other tasks, other threads and the ends of
    [uv_run], what a call of [run] returned or threw is what its task
    completed with; the only other end is the error that the task never
    completed, which needs somebody to have called [stop].  As long as nobody
    does, no callback writes to a [run] that is over, [run] does not end
    before its task has, and once the task has completed it can. *)
Theorem run_exact {V} evs (s : Rt V) :
  run_steps rt_step evs new_runtime = Some s ->
  (forall t r, (t, r) ∈ rt_returned s ->
     rt_tasks s !! t = Some (TaskCompleted r) \/ (r = Throw never_completed /\ CallStop ∈ evs)) /\
  (CallStop ∉ evs -> rt_dangling s = false /\
     forall t, rt_frame s = FrameRun t -> rt_tasks s !! t = Some (TaskPending CbOut) -> rt_step Return s = None) /\
  (forall t r, rt_frame s = FrameRun t -> rt_tasks s !! t = Some (TaskCompleted r) ->
     exists s', rt_step Return s = Some s' /\ rt_returned s' = rt_returned s ++ [(t, r)]).
Proof.
  intros Hr. apply (rt_run_inv _ _ false) in Hr; [|apply new_runtime_inv]. rewrite orb_false_r in Hr.
  split_and!.
  - intros t r [?|[-> Hs]]%(ri_returned _ _ Hr); [by left|]. right. split; [done|].
    apply existsb_exists in Hs as (ev & Hin & Hev). destruct ev; try done. by apply list_elem_of_In.
  - intros Hno%no_stop. rewrite Hno in Hr. destruct (ri_own _ _ Hr eq_refl) as (Hd & _ & Hst). split; [done|].
    intros t Hf Ht. simpl. unfold uv_run_returns, can_return. rewrite Hf. pose proof (ri_frame _ _ Hr) as Hok.
    unfold frame_ok in Hok. rewrite Hf, Ht in Hok. destruct Hok as [Hs [[Ho _]|(? & _ & _ & ?)]]; [|done].
    rewrite (open_alive s _ Hr Hs), orb_false_r. destruct (rt_stop_flag s); [|done].
    by destruct (Hst eq_refl) as (? & _ & ?).
  - intros t r Hf Ht. pose proof (ri_frame _ _ Hr) as Hok. unfold frame_ok in Hok. rewrite Hf, Ht in Hok.
    destruct Hok as [_ [[_ ?]|(r' & Ho & Hst & [= ->])]]; [done|].
    simpl. unfold uv_run_returns, can_return. rewrite Hf, Hst. eexists. split; [done|]. simpl. by rewrite Ho.
Qed.

(** A task that runs beside a detached one, and a second [run] whose task
    fails. *)
Definition run_events : list (rt_event Z) :=
  [CallDetach; CallPost 7; CallRun; Exec XAsync; Exec XReduce; Exec XRun; Complete 0 (Ok 1%Z); Exec XRun; Complete 1 (Ok 5%Z); Return;
   CallRun; Complete 2 (Throw OtherException); Return].
Definition run_sample : Rt Z :=
  set_returned [(1, Ok 5%Z); (2, Throw OtherException)]
    (set_tasks [TaskCompleted (Ok 1%Z); TaskCompleted (Ok 5%Z); TaskCompleted (Throw OtherException)]
      (set_exec (mkExecutor [] 0 false false [] false true [EnqDone true] [7] [7]) true new_runtime)).
Lemma run_exact_witness :
  run_steps rt_step run_events new_runtime = Some run_sample /\
  forall t r, (t, r) ∈ rt_returned run_sample ->
     rt_tasks run_sample !! t = Some (TaskCompleted r) \/ (r = Throw never_completed /\ CallStop ∈ run_events).
Proof.
  split; [reflexivity|]. refine (proj1 (run_exact run_events run_sample _)). reflexivity.
Defined.

(** [run] after a [stop] that no loop has consumed (or when anything else
    stops the loop) throws and leaves its task under way; the callback of the
    task refers to the variables of the [run] that is over, and writes to
    them when the task completes. *)
Theorem run_after_stop_dangles :
  let before := [CallStop; CallRun; Return] in
  let after := [CallRunLoop; Complete 0 (Ok 3%Z)] in
  (rt_returned <$> run_steps rt_step before (new_runtime (V := Z))) = Some [(0, Throw never_completed)] /\
  (rt_dangling <$> run_steps rt_step (before ++ after) (new_runtime (V := Z))) = Some true.
Proof. split; vm_compute; reflexivity. Qed.

(** [shutdown] from another thread throws, but the runtime counts as shut
    down from then on: calling it again on the loop thread does nothing, and
    the handle of the executor stays open. *)
Theorem shutdown_not_repeatable {V} (s : Rt V) :
  rt_shutdown s = false -> rt_state s = true ->
  exists s', runtime_shutdown false false s = (Throw off_thread, s') /\ rt_handles s' = rt_handles s /\
    runtime_shutdown false true s' = (Ok tt, s') /\ forall f, runtime_post f s' = (Throw is_shut_down, s').
Proof.
  intros Hsd Hst. exists (set_rt_shutdown s). unfold runtime_shutdown, uv_executor_shutdown. simpl. by rewrite Hsd, Hst.
Qed.

(** ** Destruction *)

Section Destroy.
Context {V : Type}.
Implicit Types s : Rt V.

(** What a step other than the end of [uv_run] and the calls that enter or
    leave it does to the loop. *)
Lemma close_closed s h : rt_closed (uv_close h s) = rt_closed s /\ rt_destroyed (uv_close h s) = rt_destroyed s /\
  rt_frame (uv_close h s) = rt_frame s /\ rt_shutdown (uv_close h s) = rt_shutdown s.
Proof. unfold uv_close. by destruct (rt_handles s !! h) as [[]|]. Qed.

Lemma executor_shutdown_closed b s :
  rt_closed (snd (uv_executor_shutdown b s)) = rt_closed s /\ rt_destroyed (snd (uv_executor_shutdown b s)) = rt_destroyed s.
Proof.
  unfold uv_executor_shutdown. destruct (rt_state s), b; simpl; try done. destruct (x_closing _); [done|]. simpl.
  split; apply close_closed.
Qed.

Lemma complete_task_frame t r s s' : complete_task t r s = Some s' ->
  rt_frame s' = rt_frame s /\ rt_closed s' = rt_closed s /\ rt_destroyed s' = rt_destroyed s /\
  rt_handles s' = rt_handles s /\ rt_shutdown s' = rt_shutdown s.
Proof.
  unfold complete_task. destruct (rt_tasks s !! t) as [[cb|]|]; [|done|done]. intros [= <-].
  destruct cb; [|done|by destruct r]. destruct (rt_frame s) eqn:E; simpl; rewrite ?E; try done.
  case_bool_decide; simpl; by rewrite ?E.
Qed.

(** Only the destructor closes the loop. *)
Definition closed_by_destructor s : Prop := rt_closed s = true -> rt_destroyed s = true.

Lemma destroy_members_closed on_loop s : closed_by_destructor s -> closed_by_destructor (destroy_members on_loop s).
Proof.
  unfold closed_by_destructor, destroy_members, loop_close_begin. intros H.
  assert (rt_closed (uv_executor_destroy on_loop s) = rt_closed s /\ rt_destroyed (uv_executor_destroy on_loop s) = rt_destroyed s) as [Ec Ed].
  { unfold uv_executor_destroy. destruct (rt_state s), on_loop; simpl; try done; apply executor_shutdown_closed. }
  rewrite Ec. destruct (rt_closed s); [done|]. destruct (_ =? UV_EBUSY)%Z; [simpl; rewrite walk_close_all; simpl; congruence|].
  unfold loop_close_end. by destruct (_ =? 0)%Z.
Qed.

Lemma runtime_shutdown_closed d b s : closed_by_destructor s -> closed_by_destructor (snd (runtime_shutdown d b s)).
Proof.
  unfold closed_by_destructor, runtime_shutdown. intros H. destruct (rt_shutdown s); [done|].
  destruct (executor_shutdown_closed b (set_rt_shutdown s)) as [Ec Ed].
  destruct (uv_executor_shutdown b (set_rt_shutdown s)) as [[[]|e|] s1]; simpl in *; by rewrite Ec, Ed.
Qed.

Lemma rt_step_closed ev s s' : closed_by_destructor s -> rt_step ev s = Some s' -> closed_by_destructor s'.
Proof.
  intros H. destruct ev as [| | |f| | | |on_loop|on_loop|h st|h|h|t r|ev| | |]; simpl.
  - destruct (runtime_idle s); [|done]. intros [= <-]. unfold runtime_run. by destruct (ensure_running s).
  - destruct (negb _); [|done]. intros [= <-]. unfold runtime_start. by destruct (ensure_running s).
  - destruct (negb _); [|done]. intros [= <-]. unfold runtime_detach. by destruct (ensure_running s).
  - destruct (negb _); [|done]. intros [= <-]. unfold runtime_post, uv_schedule. destruct (ensure_running s); try done.
    destruct (rt_state s); [|done]. simpl. by destruct (enqueue_now f (rt_exec s)).
  - by destruct (runtime_idle s); [intros [= <-]|].
  - by destruct (runtime_idle s); [intros [= <-]|].
  - by destruct (negb _); [intros [= <-]|].
  - destruct (runtime_idle s); [|done]. intros [= <-]. by apply runtime_shutdown_closed.
  - destruct (runtime_idle s); [|done]. intros [= <-]. unfold runtime_destroy.
    destruct (rt_shutdown s); [by apply destroy_members_closed|]. pose proof (runtime_shutdown_closed true on_loop s H) as Hsh.
    by destruct (runtime_shutdown true on_loop s) as [[[]|e|] s1].
  - destruct (_ && _); [|done]. by destruct st, (rt_handles s !! h) as [[]|]; intros; simplify_eq.
  - destruct (_ && _); [|done]. unfold closed_by_destructor.
    destruct (rt_handles s !! h) as [[]|]; try done; intros [= <-]; destruct (close_closed s h) as (-> & -> & _); done.
  - destruct (in_loop s); [|done]. by destruct (rt_handles s !! h) as [[]|]; intros; simplify_eq.
  - destruct (in_loop s); [|done]. unfold closed_by_destructor. by intros (_ & -> & -> & _)%complete_task_frame.
  - unfold closed_by_destructor. destruct ev; try done; try (destruct (in_loop s); [|done]);
      intros (x & _ & [= <-])%bind_Some; done.
  - by destruct (negb _); [intros [= <-]|].
  - destruct (in_loop s); [|done]. destruct (rt_requests s); [done|]. by intros [= <-].
  - unfold uv_run_returns. destruct (can_return s); [|done]. destruct (rt_frame s) as [| | |t|[]|]; try (by intros [= <-]).
    intros E. assert (s' = destroy_members true (set_frame NoFrame None (set_loop (rt_handles s) false (rt_closed s) s))) as -> by congruence.
    by apply destroy_members_closed.
Qed.

(** After [~Runtime] was called: [shutdown]'s [uv_run], then that of
    [Loop::close] with every handle closing, then the end. *)
Definition winding_down s : Prop :=
  rt_shutdown s = true /\ rt_inv false s /\ closed_by_destructor s /\
  match rt_frame s with
  | FrameShutdown true => rt_destroyed s = false
  | FrameLoopClose => rt_destroyed s = false /\ forall h st, rt_handles s !! h = Some st -> st = HClosing
  | NoFrame => rt_destroyed s = true /\ rt_closed s = true /\ rt_handles s = ∅
  | _ => False
  end.

Lemma destroy_members_winds s :
  rt_inv false s -> rt_shutdown s = true -> rt_frame s = NoFrame -> rt_destroyed s = false -> closed_by_destructor s ->
  winding_down (destroy_members true s).
Proof.
  intros Hi Hsd Hf Hd Hc.
  assert (forall t, rt_frame s <> FrameRun t) as Hne by (by rewrite Hf).
  pose proof (destroy_members_inv true false s Hi Hsd Hne) as Hi'. pose proof (destroy_members_closed true s Hc) as Hc'.
  assert (rt_closed s = false) as Ecl by (destruct (rt_closed s) eqn:E; [by rewrite (Hc E) in Hd | done]).
  revert Hi' Hc'. unfold destroy_members, loop_close_begin.
  assert (exists s1, uv_executor_destroy true s = s1 /\ rt_closed s1 = false /\ rt_shutdown s1 = true /\ rt_destroyed s1 = false)
    as (s1 & -> & E1 & E2 & E3).
  { eexists. split; [done|]. unfold uv_executor_destroy. destruct (rt_state s); simpl; [|done].
    destruct (uv_executor_shutdown_inv false s Hi Hsd Hne) as (_ & _ & _ & ? & _ & ? & _).
    destruct (executor_shutdown_closed true s). by split_and!; congruence. }
  rewrite E1. unfold loop_close_end. destruct (uv_loop_close s1 =? UV_EBUSY)%Z eqn:Ebusy; simpl; intros Hi' Hc'.
  - unfold winding_down; simpl; rewrite walk_close_all in *; simpl in *; split_and!; try done.
    intros h st Hh. destruct (walk_close_lookup (rt_handles s1) h) as [E|E]; congruence.
  - unfold uv_loop_close in *. destruct (bool_decide_reflect (rt_handles s1 = ∅)) as [He|He]; [|done].
    destruct (Nat.eqb (rt_requests s1) 0); [|done]. by split_and!.
Qed.

Lemma destroy_winds s s' :
  rt_inv false s -> closed_by_destructor s -> rt_step (CallDestroy true) s = Some s' -> winding_down s'.
Proof.
  intros Hi Hc E. pose proof (rt_step_inv false (CallDestroy true) s s' Hi E) as Hi'. pose proof (rt_step_closed _ _ _ Hc E) as Hc'.
  simpl in E. destruct (runtime_idle s) eqn:Hid; [|done]. assert (s' = runtime_destroy true s) as -> by congruence. clear E.
  pose proof (runtime_idle_frame s Hid) as Hf. assert (rt_destroyed s = false) as Hd by (unfold runtime_idle in Hid; by destruct (rt_destroyed s)).
  unfold runtime_destroy in *. destruct (rt_shutdown s) eqn:Hsd; [by apply destroy_members_winds|].
  revert Hi' Hc'. unfold runtime_shutdown. rewrite Hsd.
  destruct (uv_executor_shutdown_inv false (set_rt_shutdown s)) as (_ & _ & Hr & Hs & _); [by apply shutdown_flag_inv | done | by simpl; rewrite Hf |].
  destruct (executor_shutdown_closed true (set_rt_shutdown s)) as [_ Hde].
  destruct (uv_executor_shutdown true (set_rt_shutdown s)) as [r s1]. simpl in *. subst r. simpl. intros Hi' Hc'.
  unfold winding_down. simpl. split_and!; try done; congruence.
Qed.

(** Nothing keeps a loop alive whose handles are all closed. *)
Lemma not_alive_empty s :
  loop_alive s = false -> (forall h st, rt_handles s !! h = Some st -> st = HClosing) -> rt_handles s = ∅ /\ rt_requests s = 0.
Proof.
  intros [Hq%negb_false_iff%Nat.eqb_eq Hl%bool_decide_eq_false]%orb_false_iff Hall. split; [|done]. apply map_empty. intros h. destruct (rt_handles s !! h) as [st|] eqn:E; [|done].
  destruct Hl. exists h, st. by rewrite (Hall h st E) in E |- *.
Qed.

Lemma winding_return s s' : winding_down s -> rt_step Return s = Some s' -> winding_down s'.
Proof.
  intros (Hsd & Hi & Hc & Hfr) E. pose proof (rt_step_inv false Return s s' Hi E) as Hi'.
  pose proof (rt_step_closed _ _ _ Hc E) as Hc'. simpl in E. unfold uv_run_returns in E.
  destruct (can_return s) eqn:Hr; [|done]. unfold can_return in Hr. destruct (rt_frame s) as [| | | |[]|] eqn:Ef; try done.
  - assert (s' = destroy_members true (set_frame NoFrame None (set_loop (rt_handles s) false (rt_closed s) s))) as -> by congruence.
    apply destroy_members_winds; try done. apply set_frame_inv; try done; [|by simpl; rewrite Ef].
    apply clear_stop_inv; [done | by rewrite Ef].
  - destruct Hfr as [Hd Hall]. destruct (ri_own _ _ Hi eq_refl) as (_ & _ & Hst).
    destruct (rt_stop_flag s); [destruct (Hst eq_refl) as (t & Ht & _); congruence|].
    apply negb_true_iff in Hr. destruct (not_alive_empty s Hr Hall) as [Hem Hq].
    assert (s' = set_destroyed (snd (loop_close_end (set_loop (rt_handles s) false (rt_closed s) s)))) as -> by congruence.
    clear E. revert Hi' Hc'. unfold loop_close_end, uv_loop_close. simpl. rewrite bool_decide_eq_true_2, Hq by done. intros. unfold winding_down. simpl. by split_and!.
Qed.

Lemma winding_step ev s s' :
  ev <> CallStop -> (forall h st, ev <> UserHandle h st) -> winding_down s -> rt_step ev s = Some s' -> winding_down s'.
Proof.
  intros Hstop Huser (Hsd & Hi & Hc & Hfr) E.
  pose proof (rt_step_closed _ _ _ Hc E) as Hc'. pose proof (rt_step_inv false ev s s' Hi E) as Hi'.
  replace (is_stop ev || false) with false in Hi' by (by destruct ev).
  assert (runtime_idle s = false) as Hid by (unfold runtime_idle; destruct (rt_frame s) as [| | | |[]|]; try done; [destruct Hfr as [-> _] | by rewrite andb_false_r ..]; done).
  assert (ensure_running s = Throw is_shut_down) as Her by (unfold ensure_running; by rewrite Hsd).
  destruct ev as [| | |f| | | |on_loop|on_loop|h st|h|h|t r|ev| | |]; simpl in E; rewrite ?Hid in E; try done.
  - unfold runtime_start in E. rewrite Her in E. by destruct (negb _); simplify_eq.
  - unfold runtime_detach in E. rewrite Her in E. by destruct (negb _); simplify_eq.
  - unfold runtime_post in E. rewrite Her in E. by destruct (negb _); simplify_eq.
  - by destruct (Huser h st).
  - destruct (_ && _); [|done]. assert (rt_handles s !! h <> Some HClosing /\ rt_handles s !! h <> None /\ s' = uv_close h s) as (H1 & H2 & ->).
    { by destruct (rt_handles s !! h) as [[]|]; simplify_eq. }
    destruct (rt_handles s !! h) as [st|] eqn:Eh; [|done]. destruct (close_closed s h) as (Ec & Ed & Ef & Es).
    unfold winding_down. rewrite Ef, Ec, Ed, Es. split_and!; try done. destruct (rt_frame s) as [| | | |[]|]; try done.
    + destruct Hfr as (_ & _ & Hem). by rewrite Hem, lookup_empty in Eh.
    + destruct Hfr as [_ Hall]. apply Hall in Eh. congruence.
  - destruct (in_loop s); [|done]. assert (s' = set_loop (delete h (rt_handles s)) (rt_stop_flag s) (rt_closed s) s) as ->.
    { by destruct (rt_handles s !! h) as [[]|]; simplify_eq. }
    unfold winding_down. simpl. split_and!; try done. destruct (rt_frame s) as [| | | |[]|]; try done.
    + destruct Hfr as (? & ? & ->). by rewrite delete_empty.
    + destruct Hfr as [Hd Hall]. split; [done|]. intros h' st [_ Hh]%lookup_delete_Some. by eapply Hall.
  - destruct (in_loop s); [|done]. apply complete_task_frame in E as (Ef & Ec & Ed & Eh & Es).
    unfold winding_down. rewrite Ef, Ec, Ed, Eh, Es. by split_and!.
  - assert (exists x, s' = set_exec x (rt_state s) s) as [x ->]; [|by split_and!].
    destruct ev; try done; try (destruct (in_loop s); [|done]); apply bind_Some in E as (x & _ & [= <-]); by exists x.
  - by destruct (negb _); simplify_eq.
  - destruct (in_loop s); [|done]. destruct (rt_requests s); [done|]. by simplify_eq.
  - by apply (winding_return s).
Qed.

Lemma run_steps_cons ev evs s :
  run_steps rt_step (ev :: evs) s = match rt_step ev s with Some s' => run_steps rt_step evs s' | None => None end.
Proof. done. Qed.

Lemma winding_run evs s s' :
  CallStop ∉ evs -> (forall h st, UserHandle h st ∉ evs) -> winding_down s ->
  run_steps rt_step evs s = Some s' -> winding_down s'.
Proof.
  revert s. induction evs as [|ev evs IH]; intros s Hs Hu Hw; simpl; [by intros [= <-]|].
  destruct (rt_step ev s) as [s1|] eqn:E; [|done]. apply not_elem_of_cons in Hs as [Hs1 Hs2].
  apply IH; [done | intros h st Hin; eapply Hu, list_elem_of_further, Hin |].
  apply (winding_step ev s); [done | | done | done]. intros h st ->. apply (Hu h st), list_elem_of_here.
Qed.

(** The callbacks of requests and handles come, and [uv_run] returns. *)
Lemma winding_finishes s :
  winding_down s -> rt_frame s = FrameLoopClose ->
  exists evs s', length evs = S (size (rt_handles s) + rt_requests s) /\ run_steps rt_step evs s = Some s' /\
    rt_destroyed s' = true /\ rt_closed s' = true.
Proof.
  remember (size (rt_handles s) + rt_requests s) as n eqn:En. revert s En. induction n as [|n IH]; intros s En Hw Hf.
  - assert (rt_handles s = ∅) as Hem by (apply map_size_empty_inv; lia). assert (rt_requests s = 0) as Hq by lia. clear En. exists [Return]. simpl.
    destruct (rt_step Return s) as [s'|] eqn:E.
    + exists s'. pose proof (winding_return s s' Hw E) as Hw'. simpl in E. rewrite E. split_and!; try done;
        unfold uv_run_returns in E; rewrite Hf in E; destruct (can_return s); try done;
        destruct Hw' as (_ & _ & _ & Hfr); assert (rt_frame s' = NoFrame) as Ef by (by injection E as <-);
        rewrite Ef in Hfr; by destruct Hfr as (? & ? & _).
    + exfalso. simpl in E. unfold uv_run_returns, can_return in E. rewrite Hf in E.
      replace (loop_alive s) with false in E; [by rewrite orb_true_r in E|]. symmetry. unfold loop_alive. rewrite Hq. apply bool_decide_eq_false.
      rewrite Hem. intros (h & st & Hh & _). by rewrite lookup_empty in Hh.
  - destruct (rt_requests s) as [|q] eqn:Eq; cycle 1.
    { assert (rt_step RequestDone s = Some (set_requests q s)) as E by (simpl; unfold in_loop; by rewrite Hf, Eq).
      destruct (IH (set_requests q s)) as (evs & s' & Hl & Hr & Hd & Hc); [simpl; lia | by apply (winding_step RequestDone s) | done |].
      exists (RequestDone :: evs), s'. split_and!; [simpl; by rewrite Hl | by rewrite run_steps_cons, E | done | done]. }
    destruct (map_choose (rt_handles s)) as (h & st & Hh); [intros E; rewrite E, map_size_empty in En; lia|].
    destruct (Hw) as (_ & _ & _ & Hfr). rewrite Hf in Hfr. destruct Hfr as [_ Hall]. pose proof (Hall h st Hh) as ->.
    set (s1 := set_loop (delete h (rt_handles s)) (rt_stop_flag s) (rt_closed s) s).
    assert (rt_step (CloseCallback h) s = Some s1) as E by (simpl; unfold in_loop; by rewrite Hf, Hh).
    destruct (IH s1) as (evs & s' & Hl & Hr & Hd & Hc); [| | done |].
    + simpl. rewrite map_size_delete_Some, Eq by (by eexists). lia.
    + by apply (winding_step (CloseCallback h) s).
    + exists (CloseCallback h :: evs), s'. split_and!; [simpl; by rewrite Hl | | done | done].
      by rewrite run_steps_cons, E.
Qed.

(** C23: Destroying a runtime on its thread closes its loop.  From any state that the
    runtime can be in between two calls, with whatever handles and tasks left
    behind, [~Runtime] ends only with the loop closed and every handle closed
    exactly once, unless somebody stops the loop or opens a handle meanwhile;
    and once [Loop::close] has closed the handles, their close callbacks, those
    of the requests that are under way and the end of [uv_run] are all that is
    left to happen.  What was posted has
    run at most once and in order. *)
Theorem runtime_destroy_closes evs s evs' s' :
  run_steps rt_step evs (new_runtime (V := V)) = Some s ->
  run_steps rt_step (CallDestroy true :: evs') s = Some s' ->
  CallStop ∉ evs ++ evs' -> (forall h st, UserHandle h st ∉ evs') ->
  rt_double_close s' = false /\
  x_pushed (rt_exec s') = x_executed (rt_exec s') ++ x_local (rt_exec s') ++ x_queue (rt_exec s') /\
  (rt_destroyed s' = true -> rt_closed s' = true /\ rt_handles s' = ∅) /\
  (rt_frame s' = FrameLoopClose -> exists evs'' s'', length evs'' = S (size (rt_handles s') + rt_requests s') /\
     run_steps rt_step evs'' s' = Some s'' /\ rt_destroyed s'' = true /\ rt_closed s'' = true).
Proof.
  intros Hr Hr' Hstop Huser. apply not_elem_of_app in Hstop as [Hs1 Hs2].
  assert (closed_by_destructor s) as Hc.
  { apply (run_steps_inv rt_step closed_by_destructor) in Hr; [done | apply rt_step_closed | done]. }
  apply (rt_run_inv _ _ false) in Hr; [|apply new_runtime_inv]. rewrite orb_false_r, no_stop in Hr by done.
  rewrite run_steps_cons in Hr'. destruct (rt_step (CallDestroy true) s) as [s1|] eqn:E1; [|done].
  pose proof (destroy_winds s s1 Hr Hc E1) as Hw.
  apply (winding_run evs' s1 s' Hs2 Huser Hw) in Hr'. destruct (Hr') as (_ & Hi & _ & Hf).
  split_and!; [apply (ri_double _ _ Hi) | apply (xv_order _ (ri_exec _ _ Hi)) | |].
  - intros Hd. destruct (rt_frame s') as [| | | |[]|]; try done; [by destruct Hf | congruence | destruct Hf; congruence].
  - intros Ef. by apply winding_finishes.
Qed.
End Destroy.

(** A runtime with an active handle of the user's and a detached task that
    never ends is shut down, then destroyed. *)
Definition destroy_events : list (rt_event Z) := [CallDetach; CallPost 7; UserHandle 3 HIdle; RequestBegin; CallShutdown true; CloseCallback 0; RequestDone; Return; RequestBegin].
Definition destroy_events' : list (rt_event Z) := [RequestDone; CloseCallback 3; Return].
Definition before_destroy : Rt Z :=
  match run_steps rt_step destroy_events new_runtime with Some s => s | None => new_runtime end.
Definition after_destroy : Rt Z :=
  match run_steps rt_step (CallDestroy true :: destroy_events') before_destroy with Some s => s | None => new_runtime end.
Lemma runtime_destroy_closes_witness :
  rt_destroyed after_destroy = true /\ rt_closed after_destroy = true /\ rt_handles after_destroy = ∅.
Proof.
  assert (rt_destroyed after_destroy = true) as Hd by (vm_compute; reflexivity). split; [exact Hd|].
  refine (proj1 (proj2 (proj2 (runtime_destroy_closes destroy_events before_destroy destroy_events' after_destroy _ _ _ _))) Hd).
  - vm_compute. reflexivity.
  - vm_compute. reflexivity.
  - intros Hin. apply list_elem_of_In in Hin. simpl in Hin. intuition discriminate.
  - intros h st Hin. apply list_elem_of_In in Hin. simpl in Hin. destruct Hin as [Hin|[Hin|[Hin|Hin]]]; [discriminate Hin.. | destruct Hin].
Defined.

(** A [stop] that no loop has consumed ends the [uv_run] of [Loop::close]
    before the close callbacks: the loop is left open, with its handles. *)
Theorem stop_before_destroy_leaves_loop :
  let s := run_steps rt_step [UserHandle 3 HIdle; CallShutdown true; CloseCallback 0; Return; CallStop; CallDestroy true; Return]
             (new_runtime (V := Z)) in
  (rt_destroyed <$> s) = Some true /\ (rt_closed <$> s) = Some false /\ ((fun s => rt_handles s !! 3) <$> s) = Some (Some HClosing).
Proof. split_and!; vm_compute; reflexivity. Qed.

(** A runtime that is destroyed on another thread, and has not been shut down
    before, throws from its destructor: the program is terminated, with the
    loop and its handles open. *)
Theorem destroy_off_thread_terminates {V} evs (s : Rt V) :
  run_steps rt_step evs new_runtime = Some s -> runtime_idle s = true -> rt_shutdown s = false ->
  exists s', rt_step (CallDestroy false) s = Some s' /\ rt_terminated s' = true /\ rt_closed s' = rt_closed s /\ rt_handles s' = rt_handles s.
Proof.
  intros Hr Hid Hsd. apply (rt_run_inv _ _ false) in Hr; [|apply new_runtime_inv].
  assert (rt_state s = true) as Hst by (destruct (rt_state s) eqn:E; [done|]; destruct (ri_gone _ _ Hr E); congruence).
  simpl. rewrite Hid. eexists. split; [done|]. unfold runtime_destroy, runtime_shutdown, uv_executor_shutdown. simpl. by rewrite Hsd, Hst.
Qed.
