(* ===== verification/Cancel.v ===== *)
(** * Cancellation and timeouts (cancel.h, timeout.h, timer.h)

    [async_simple::Signal] and [async_simple::Slot] are not part of this
    repository.  [SignalLib] is the part of their interface that cancel.h
    uses, [SignalLaws] what their documentation says of it: a signal is a word
    of 64 bits that are only ever set; [emits] sets bits at once and answers
    with those that take effect, a bit of the lower half only the first time;
    a slot with a chained signal hands the bits of its signal on to that one,
    in the course of the call of [emits], and nothing else sets a bit.  [counted_signals] is an implementation, on which
    the witness runs.

    [CancellationLocal] makes such chains: from the signal of the enclosing
    task and from that of the token to a fresh, combined signal, and looks
    after each whether the signal had been set before.  Each of these is a
    step of its own.  The theorem says, for every implementation, that the
    combined signal gets exactly what the two others get, in every
    interleaving: nothing is lost between the chain and the look, and nothing
    comes from anywhere else.

    [with_timeout] is the race of a task with a timer, of which
    [async_simple::collectAny] reports the first to end. *)

From S2P Require Import Prelude Stream NetWait UvExecutor.

Local Open Scope Z_scope.

(** ** Signals and slots *)

Definition Terminate : Z := 1.
Definition bit (k : Z) (b : Z) : Prop := Z.testbit b k = true.
Definition signal_bits (b : Z) : Prop := 0 <= b < 2 ^ 64.   (* [SignalType] *)

Class SignalLib (G : Type) := {
  sl_none : G;
  sl_signal : nat -> G -> bool;                (* the signal exists *)
  sl_create : G -> nat * G;                    (* [Signal::create] *)
  sl_state : nat -> G -> Z;                    (* [Signal::state] *)
  sl_emits : nat -> Z -> G -> Z * G;           (* [Signal::emits], before it goes through the slots *)
  sl_walk : nat -> G -> option G;              (* a call of [emits] that is under way comes to a slot *)
  sl_chain : nat -> nat -> G -> G;             (* a [Slot] of a signal, with [chainedSignal] *)
  sl_unchain : nat -> G -> G                   (* the slots chained to a signal are destroyed *)
}.

(** [sl_linked g i j]: a slot of [i] is chained to [j].  [sl_due g i j k]: a
    call of [emits] that is under way still has to hand bit [k] of [i] on to
    [j]. *)
Class SignalLaws (G : Type) `{SignalLib G} := {
  sl_linked : G -> nat -> nat -> Prop;
  sl_due : G -> nat -> nat -> Z -> Prop;
  sl_range i g : signal_bits (sl_state i g);
  sl_none_signal i : sl_signal i sl_none = false;
  sl_none_linked i j : ~ sl_linked sl_none i j;
  sl_create_law g c g' : sl_create g = (c, g') ->
    sl_signal c g = false /\ sl_signal c g' = true /\ sl_state c g' = 0 /\ (forall i, ~ sl_linked g' i c) /\
    (forall i, sl_signal i g = true -> sl_signal i g' = true /\ sl_state i g' = sl_state i g) /\
    (forall i j, sl_linked g' i j <-> sl_linked g i j) /\ (forall i j k, sl_due g i j k -> sl_due g' i j k);
  sl_emits_law i b g r g' : sl_signal i g = true -> signal_bits b -> sl_emits i b g = (r, g') ->
    r = Z.ldiff b (Z.land (sl_state i g) (Z.ones 32)) /\ sl_state i g' = Z.lor (sl_state i g) b /\
    (forall j, j <> i -> sl_state j g' = sl_state j g) /\ (forall j, sl_signal j g' = sl_signal j g) /\
    (forall i' j, sl_linked g' i' j <-> sl_linked g i' j) /\ (forall i' j k, sl_due g i' j k -> sl_due g' i' j k) /\
    (forall j k, sl_linked g i j -> bit k b -> ~ bit k (sl_state i g) -> sl_due g' i j k);
  sl_walk_law n g g' : sl_walk n g = Some g' ->
    (forall j, sl_signal j g' = sl_signal j g) /\ (forall i j, sl_linked g' i j <-> sl_linked g i j) /\
    (forall j k, bit k (sl_state j g) -> bit k (sl_state j g')) /\
    (forall j k, bit k (sl_state j g') -> bit k (sl_state j g) \/ exists i, sl_linked g i j /\ bit k (sl_state i g)) /\
    (forall i j k, sl_linked g i j -> sl_due g i j k -> bit k (sl_state i g) -> sl_due g' i j k \/ bit k (sl_state j g')) /\
    (forall i j k, sl_linked g i j -> bit k (sl_state i g') -> ~ bit k (sl_state i g) -> sl_due g' i j k);
  sl_chain_law i j g : sl_signal i g = true -> sl_signal j g = true ->
    (forall m, sl_signal m (sl_chain i j g) = sl_signal m g) /\ (forall m, sl_state m (sl_chain i j g) = sl_state m g) /\
    (forall i' j', sl_linked (sl_chain i j g) i' j' <-> sl_linked g i' j' \/ (i' = i /\ j' = j)) /\
    (forall i' j' k, sl_due g i' j' k -> sl_due (sl_chain i j g) i' j' k);
  sl_unchain_law c g :
    (forall m, sl_signal m (sl_unchain c g) = sl_signal m g) /\ (forall m, sl_state m (sl_unchain c g) = sl_state m g) /\
    (forall i j, sl_linked (sl_unchain c g) i j <-> sl_linked g i j /\ j <> c) /\
    (forall i j k, j <> c -> sl_due g i j k -> sl_due (sl_unchain c g) i j k)
}.

(** ** Bits *)

Lemma bit_lor k a b : bit k (Z.lor a b) <-> bit k a \/ bit k b.
Proof. unfold bit. rewrite Z.lor_spec. apply orb_true_iff. Qed.
Lemma bit_0 k : ~ bit k 0.
Proof. unfold bit. by rewrite Z.bits_0. Qed.
Lemma bit_dec k b : bit k b \/ ~ bit k b.
Proof. unfold bit. destruct (Z.testbit b k); auto. Qed.
Lemma bits_eq a b : (forall k, bit k a <-> bit k b) -> a = b.
Proof.
  intros H. apply Z.bits_inj. intros k. specialize (H k). unfold bit in H. destruct (Z.testbit a k), (Z.testbit b k); naive_solver.
Qed.

(** The constructor of [CancellationLocal]: what it does next. *)
Inductive local_pc :=
| ChainOuter | CheckOuter | EmitOuter
| ChainToken | CheckToken | EmitToken
| LocalMade
| LocalGone.                      (* destroyed, with its slots *)

Record CancellationLocal := mkLocal {
  lc_outer : option nat;          (* the signal of the enclosing task *)
  lc_token : option nat;
  lc_combined : nat;
  lc_pc : local_pc
}.

Section Cancellation.
Context {G : Type} `{SignalLib G}.

Record Signals := mkSignals {
  sg_lib : G;
  sg_locals : list CancellationLocal;
  sg_emitted : list (nat * Z)     (* every emission from outside so far *)
}.
Definition no_signals : Signals := mkSignals sl_none [] [].

Definition with_lib (lib : G) (g : Signals) : Signals := mkSignals lib (sg_locals g) (sg_emitted g).
Definition set_locals (ls : list CancellationLocal) (g : Signals) : Signals := mkSignals (sg_lib g) ls (sg_emitted g).

(** ** CancellationSource and CancellationToken *)

Definition new_source (g : G) : nat * G := sl_create g.
Definition source_token (source : nat) : option nat := Some source.
Definition source_cancel (source : nat) (g : G) : bool * G :=
  let '(fresh, g') := sl_emits source Terminate g in (negb (fresh =? 0), g').
Definition source_canceled (source : nat) (g : G) : bool := negb (Z.land (sl_state source g) Terminate =? 0).
Definition token_canceled (token : option nat) (g : G) : bool :=
  match token with Some i => source_canceled i g | None => false end.

(** ** CancellationLocal *)

(** [with_cancellation] begins: the combined signal is created. *)
Definition with_cancellation_begin (outer token : option nat) (g : Signals) : Signals :=
  let '(c, lib) := sl_create (sg_lib g) in
  mkSignals lib (sg_locals g ++ [mkLocal outer token c ChainOuter]) (sg_emitted g).

Definition set_local_pc (n : nat) (pc : local_pc) (l : CancellationLocal) (g : Signals) : Signals :=
  set_locals (<[n := mkLocal (lc_outer l) (lc_token l) (lc_combined l) pc]> (sg_locals g)) g.

(** One step of the constructor. *)
Definition local_step (n : nat) (g : Signals) : option Signals :=
  match sg_locals g !! n with
  | None => None
  | Some l =>
      let lib := sg_lib g in
      match lc_pc l with
      | ChainOuter =>
          match lc_outer l with
          | Some o => Some (set_local_pc n CheckOuter l (with_lib (sl_chain o (lc_combined l) lib) g))
          | None => Some (set_local_pc n ChainToken l g)
          end
      | CheckOuter =>
          match lc_outer l with
          | Some o => Some (set_local_pc n (if sl_state o lib =? 0 then ChainToken else EmitOuter) l g)
          | None => None
          end
      | EmitOuter =>
          match lc_outer l with
          | Some o => Some (set_local_pc n ChainToken l (with_lib (snd (sl_emits (lc_combined l) (sl_state o lib) lib)) g))
          | None => None
          end
      | ChainToken =>
          match lc_token l with
          | Some o => Some (set_local_pc n CheckToken l (with_lib (sl_chain o (lc_combined l) lib) g))
          | None => Some (set_local_pc n LocalMade l g)
          end
      | CheckToken =>
          match lc_token l with
          | Some o => Some (set_local_pc n (if sl_state o lib =? 0 then LocalMade else EmitToken) l g)
          | None => None
          end
      | EmitToken =>
          match lc_token l with
          | Some o => Some (set_local_pc n LocalMade l (with_lib (snd (sl_emits (lc_combined l) (sl_state o lib) lib)) g))
          | None => None
          end
      | LocalMade | LocalGone => None
      end
  end.

(** The task is over: its slots leave the signals. *)
Definition local_destroy (n : nat) (g : Signals) : option Signals :=
  match sg_locals g !! n with
  | Some l =>
      match lc_pc l with
      | LocalMade => Some (set_local_pc n LocalGone l (with_lib (sl_unchain (lc_combined l) (sg_lib g)) g))
      | _ => None
      end
  | None => None
  end.

Inductive cancel_event :=
| NewSource
| Emit (i : nat) (b : Z)               (* [cancel], or whatever sets a signal from outside *)
| Walk (n : nat)                       (* an emission under way goes on *)
| WithCancellation (outer token : option nat)
| LocalStep (n : nat)
| LocalDestroy (n : nat).

Definition exists_signal (g : Signals) (s : option nat) : bool :=
  match s with Some i => sl_signal i (sg_lib g) | None => true end.

Definition cancel_step (ev : cancel_event) (g : Signals) : option Signals :=
  match ev with
  | NewSource => Some (with_lib (snd (new_source (sg_lib g))) g)
  | Emit i b =>
      if exists_signal g (Some i) && (0 <=? b) && (b <? 2 ^ 64)
      then Some (mkSignals (snd (sl_emits i b (sg_lib g))) (sg_locals g) (sg_emitted g ++ [(i, b)])) else None
  | Walk n => match sl_walk n (sg_lib g) with Some lib => Some (with_lib lib g) | None => None end
  | WithCancellation o t =>
      if exists_signal g o && exists_signal g t then Some (with_cancellation_begin o t g) else None
  | LocalStep n => local_step n g
  | LocalDestroy n => local_destroy n g
  end.
End Cancellation.
Arguments Signals : clear implicits.

(** ** Invariant *)

(** The constructor is between the chain from [i] and the look at [i]. *)
Definition looking (l : CancellationLocal) (i : nat) : Prop :=
  (lc_outer l = Some i /\ (lc_pc l = CheckOuter \/ lc_pc l = EmitOuter)) \/
  (lc_token l = Some i /\ (lc_pc l = CheckToken \/ lc_pc l = EmitToken)).
Definition outer_chained (pc : local_pc) : bool := match pc with ChainOuter | LocalGone => false | _ => true end.
Definition token_chained (pc : local_pc) : bool := match pc with CheckToken | EmitToken | LocalMade => true | _ => false end.
Definition chained (l : CancellationLocal) (i : nat) : Prop :=
  (lc_outer l = Some i /\ outer_chained (lc_pc l) = true) \/ (lc_token l = Some i /\ token_chained (lc_pc l) = true).

Section Invariant.
Context {G : Type} `{SignalLaws G}.
Implicit Types (g : Signals G) (lib : G) (l : CancellationLocal).

Definition bits_of (s : option nat) lib : Z := match s with Some i => sl_state i lib | None => 0 end.

(** Bit [k] of [i] has reached the combined signal of [l], or is on its way. *)
Definition reaches l (i : nat) (k : Z) lib : Prop :=
  bit k (sl_state (lc_combined l) lib) \/ sl_due lib i (lc_combined l) k \/ looking l i.

(** Where the bits of a combined signal may come from. *)
Definition sourced l (k : Z) g : Prop :=
  bit k (bits_of (lc_outer l) (sg_lib g)) \/ bit k (bits_of (lc_token l) (sg_lib g)) \/
  exists b, (lc_combined l, b) ∈ sg_emitted g /\ bit k b.

Record local_ok l g : Prop := {
  lo_combined : sl_signal (lc_combined l) (sg_lib g) = true;
  lo_sources i : lc_outer l = Some i \/ lc_token l = Some i -> sl_signal i (sg_lib g) = true;
  lo_into i : sl_linked (sg_lib g) i (lc_combined l) -> lc_outer l = Some i \/ lc_token l = Some i;
  lo_chained i : chained l i -> sl_linked (sg_lib g) i (lc_combined l);
  lo_source k : bit k (sl_state (lc_combined l) (sg_lib g)) -> sourced l k g;
  lo_reach i k : chained l i -> bit k (sl_state i (sg_lib g)) -> reaches l i k (sg_lib g)
}.

Definition signals_inv g : Prop :=
  (forall n l, sg_locals g !! n = Some l -> local_ok l g) /\
  (forall n m l l', sg_locals g !! n = Some l -> sg_locals g !! m = Some l' -> lc_combined l = lc_combined l' -> n = m).

Lemma bits_of_mono s lib lib' k :
  (forall i, s = Some i -> bit k (sl_state i lib) -> bit k (sl_state i lib')) -> bit k (bits_of s lib) -> bit k (bits_of s lib').
Proof. destruct s as [i|]; simpl; [intros Hi; by apply Hi | done]. Qed.

(** What all operations of the library have in common. *)
Record lib_grows (lib lib' : G) : Prop := {
  lg_signal i : sl_signal i lib = true -> sl_signal i lib' = true;
  lg_state i k : sl_signal i lib = true -> bit k (sl_state i lib) -> bit k (sl_state i lib')
}.

Lemma sourced_grows l k g g' :
  lib_grows (sg_lib g) (sg_lib g') -> (forall e, e ∈ sg_emitted g -> e ∈ sg_emitted g') ->
  (forall i, lc_outer l = Some i \/ lc_token l = Some i -> sl_signal i (sg_lib g) = true) -> sourced l k g -> sourced l k g'.
Proof.
  intros [_ G2] He Hv [Hk|[Hk|(b & Hb & Hk)]].
  - left. eapply bits_of_mono; [|exact Hk]. intros i Hi. apply G2, Hv. by left.
  - right; left. eapply bits_of_mono; [|exact Hk]. intros i Hi. apply G2, Hv. by right.
  - right; right. exists b. split; [by apply He | done].
Qed.

(** A local that did not move keeps its invariant when the library grows. *)
Lemma local_ok_grows l g g' :
  local_ok l g -> lib_grows (sg_lib g) (sg_lib g') -> (forall e, e ∈ sg_emitted g -> e ∈ sg_emitted g') ->
  (forall i, sl_linked (sg_lib g') i (lc_combined l) <-> sl_linked (sg_lib g) i (lc_combined l)) ->
  (forall k, bit k (sl_state (lc_combined l) (sg_lib g')) -> bit k (sl_state (lc_combined l) (sg_lib g)) \/ sourced l k g') ->
  (forall i k, chained l i -> bit k (sl_state i (sg_lib g')) -> ~ bit k (sl_state i (sg_lib g)) -> reaches l i k (sg_lib g')) ->
  (forall i k, chained l i -> bit k (sl_state i (sg_lib g)) -> sl_due (sg_lib g) i (lc_combined l) k ->
     sl_due (sg_lib g') i (lc_combined l) k \/ bit k (sl_state (lc_combined l) (sg_lib g'))) ->
  local_ok l g'.
Proof.
  intros [L1 L2 L3 L4 L5 L6] Hg He Hl Hs Hnew Hdue. pose proof Hg as [G1 G2]. constructor.
  - by apply G1.
  - intros i Hi. apply G1. by apply L2.
  - intros i Hi. apply L3. by apply Hl.
  - intros i Hi. apply Hl. by apply L4.
  - intros k [Hk|?]%Hs; [|done]. eapply sourced_grows; eauto.
  - intros i k Hc Hk. destruct (bit_dec k (sl_state i (sg_lib g))) as [Hb|Hb]; [|by apply Hnew].
    destruct (L6 i k Hc Hb) as [Hr|[Hr|Hr]].
    + left. by apply G2.
    + destruct (Hdue i k Hc Hb Hr); [by right; left | by left].
    + by right; right.
Qed.

Lemma chained_source l i : chained l i -> lc_outer l = Some i \/ lc_token l = Some i.
Proof. intros [[? _]|[? _]]; auto. Qed.

(** An emission on any signal. *)
Lemma emits_grows i b lib : sl_signal i lib = true -> signal_bits b -> lib_grows lib (snd (sl_emits i b lib)).
Proof.
  intros Hi Hb. destruct (sl_emits i b lib) as [r lib'] eqn:E. simpl.
  destruct (sl_emits_law i b lib r lib' Hi Hb E) as (_ & E2 & E3 & E4 & _). constructor.
  - intros j. by rewrite E4.
  - intros j k _ Hk. destruct (decide (j = i)) as [->|Hne]; [rewrite E2, bit_lor; by left | by rewrite E3].
Qed.

Lemma emits_local_ok l i b g es :
  local_ok l g -> sl_signal i (sg_lib g) = true -> signal_bits b ->
  let g' := mkSignals (snd (sl_emits i b (sg_lib g))) (sg_locals g) es in
  (forall e, e ∈ sg_emitted g -> e ∈ es) -> (lc_combined l = i -> forall k, bit k b -> sourced l k g') -> local_ok l g'.
Proof.
  intros L Hi Hb g' He Hsrc. pose proof (emits_grows i b (sg_lib g) Hi Hb) as Hg. subst g'.
  destruct (sl_emits i b (sg_lib g)) as [r lib'] eqn:E. simpl in *.
  destruct (sl_emits_law i b _ r lib' Hi Hb E) as (_ & E2 & E3 & E4 & E5 & E6 & E7).
  apply (local_ok_grows l g); simpl; auto.
  - intros k Hk. destruct (decide (lc_combined l = i)) as [Ec|Hne]; [|left; by rewrite E3 in Hk].
    rewrite Ec, E2, bit_lor in Hk. destruct Hk as [Hk|Hk]; [left; by rewrite Ec | right; by apply Hsrc].
  - intros j k Hc Hk Hn. destruct (decide (j = i)) as [->|Hne]; [|by rewrite E3 in Hk].
    rewrite E2, bit_lor in Hk. destruct Hk as [?|Hk]; [done|]. right; left. apply E7; [by apply (lo_chained _ _ L) | done | done].
Qed.

Lemma chained_pc l pc i :
  chained (mkLocal (lc_outer l) (lc_token l) (lc_combined l) pc) i ->
  (outer_chained pc = true -> outer_chained (lc_pc l) = true) -> (token_chained pc = true -> token_chained (lc_pc l) = true) -> chained l i.
Proof. unfold chained. simpl. intuition. Qed.

(** The local itself moves on, without a new chain. *)
Lemma local_ok_pc l pc g g' :
  let l' := mkLocal (lc_outer l) (lc_token l) (lc_combined l) pc in
  local_ok l g' -> (forall i, chained l' i -> chained l i) ->
  (forall i k, chained l' i -> looking l i -> bit k (sl_state i (sg_lib g')) -> reaches l' i k (sg_lib g')) ->
  sg_lib g' = sg_lib g -> sg_emitted g' = sg_emitted g -> local_ok l' g.
Proof.
  intros l' [L1 L2 L3 L4 L5 L6] Hc Hlook El Ee. rewrite El in *. constructor; simpl; auto.
  - intros k Hk. specialize (L5 k Hk). unfold sourced in *. by rewrite El, Ee in L5.
  - intros i k Hi Hk. destruct (L6 i k (Hc i Hi) Hk) as [?|[?|?]]; [by left | by right; left | by apply Hlook].
Qed.

Lemma inv_locals_pc n l pc lib g :
  sg_locals g !! n = Some l -> signals_inv g ->
  let g' := set_local_pc n pc l (with_lib lib g) in
  (forall m x, m <> n -> sg_locals g !! m = Some x -> local_ok x g -> lc_combined x <> lc_combined l -> local_ok x g') ->
  (local_ok l g -> local_ok (mkLocal (lc_outer l) (lc_token l) (lc_combined l) pc) g') -> signals_inv g'.
Proof.
  intros Hn [I1 I2] g' Hothers Hself. subst g'. split.
  - intros m x. simpl. destruct (decide (m = n)) as [->|Hne].
    + rewrite list_lookup_insert_eq by (by eapply lookup_lt_Some). intros [= <-]. apply Hself. by eapply I1.
    + rewrite list_lookup_insert_ne by done. intros Hm. eapply Hothers; eauto.
  - assert (forall m x, <[n := mkLocal (lc_outer l) (lc_token l) (lc_combined l) pc]> (sg_locals g) !! m = Some x ->
      exists y, sg_locals g !! m = Some y /\ lc_combined y = lc_combined x) as Hl.
    { intros m x. destruct (decide (m = n)) as [->|Hne].
      - rewrite list_lookup_insert_eq by (by eapply lookup_lt_Some). intros [= <-]. by exists l.
      - rewrite list_lookup_insert_ne by done. by exists x. }
    intros m m' x x' (y & Hy & Ey)%Hl (y' & Hy' & Ey')%Hl E. eapply I2; eauto. congruence.
Qed.

(** *** The steps *)

Lemma create_local_ok l g c lib es :
  local_ok l g -> sl_create (sg_lib g) = (c, lib) -> (forall e, e ∈ sg_emitted g -> e ∈ es) ->
  forall ls, local_ok l (mkSignals lib ls es).
Proof.
  intros L E He ls. destruct (sl_create_law _ _ _ E) as (_ & _ & _ & _ & E5 & E6 & E7).
  assert (lib_grows (sg_lib g) lib) as Hg.
  { constructor; [intros i Hi; by apply E5 | intros i k Hi; by rewrite (proj2 (E5 i Hi))]. }
  apply (local_ok_grows l g); simpl; auto.
  - intros k. rewrite (proj2 (E5 _ (lo_combined _ _ L))). by left.
  - intros i k Hc. rewrite (proj2 (E5 i (lo_sources _ _ L i (chained_source _ _ Hc)))). done.
Qed.

Lemma walk_local_ok l g n lib :
  local_ok l g -> sl_walk n (sg_lib g) = Some lib -> local_ok l (with_lib lib g).
Proof.
  intros L E. destruct (sl_walk_law _ _ _ E) as (E1 & E2 & E3 & E4 & E5 & E6).
  assert (lib_grows (sg_lib g) lib) as Hg by (constructor; [intros i; by rewrite E1 | intros i k _; apply E3]).
  apply (local_ok_grows l g); simpl; auto.
  - intros k [Hk|(i & Hl & Hk)]%E4; [by left | right]. apply (lo_into _ _ L) in Hl. unfold sourced, bits_of. simpl.
    destruct Hl as [-> | ->]; [left | right; left]; by apply E3.
  - intros i k Hc Hk Hn. right; left. apply E6; [by apply (lo_chained _ _ L) | done | done].
  - intros i k Hc Hk Hd. apply E5; [by apply (lo_chained _ _ L) | done | done].
Qed.

(** A chain from [o] to the combined signal of [l]. *)
Lemma chain_other l x o g pc n :
  local_ok x g -> local_ok l g -> sl_signal o (sg_lib g) = true -> lc_combined x <> lc_combined l ->
  local_ok x (set_local_pc n pc l (with_lib (sl_chain o (lc_combined l) (sg_lib g)) g)).
Proof.
  intros X L Ho Hne. destruct (sl_chain_law o (lc_combined l) (sg_lib g) Ho (lo_combined _ _ L)) as (C1 & C2 & C3 & C4).
  apply (local_ok_grows x g); simpl; auto.
  - constructor; [intros i; by rewrite C1 | intros i k _; by rewrite C2].
  - intros i. rewrite C3. naive_solver.
  - intros k. rewrite C2. by left.
  - intros i k _. by rewrite C2.
Qed.

Lemma chain_self l o g pc n :
  local_ok l g -> lc_outer l = Some o \/ lc_token l = Some o ->
  let l' := mkLocal (lc_outer l) (lc_token l) (lc_combined l) pc in
  (forall i, chained l' i -> chained l i \/ (i = o /\ looking l' o)) -> (forall i, ~ looking l i) ->
  local_ok l' (set_local_pc n pc l (with_lib (sl_chain o (lc_combined l) (sg_lib g)) g)).
Proof.
  intros L Ho l' Hc Hlook. pose proof L as [L1 L2 L3 L4 L5 L6].
  destruct (sl_chain_law o (lc_combined l) (sg_lib g) (L2 o Ho) L1) as (C1 & C2 & C3 & C4). constructor; simpl.
  - by rewrite C1.
  - intros i. rewrite C1. apply L2.
  - intros i. rewrite C3. intros [Hi|[-> _]]; [by apply L3 | done].
  - intros i Hi. apply C3. destruct (Hc i Hi) as [?|[-> _]]; [left; by apply L4 | by right].
  - intros k. rewrite C2. intros Hk. specialize (L5 k Hk). unfold sourced, bits_of in *. simpl.
    destruct (lc_outer l), (lc_token l); rewrite ?C2; exact L5.
  - intros i k Hi. rewrite C2. intros Hk. destruct (Hc i Hi) as [Hci|[-> Hlk]]; [|by right; right].
    unfold reaches. simpl. rewrite C2. destruct (L6 i k Hci Hk) as [?|[?|Hlk]]; [by left | right; left; by apply C4 | by apply Hlook in Hlk].
Qed.

(** The bits of [o], emitted on the combined signal of [l]. *)
Lemma emit_step l n o g pc :
  signals_inv g -> sg_locals g !! n = Some l -> lc_outer l = Some o \/ lc_token l = Some o ->
  let l' := mkLocal (lc_outer l) (lc_token l) (lc_combined l) pc in
  (forall i, chained l' i -> chained l i) -> (forall i, looking l i -> i = o) ->
  signals_inv (set_local_pc n pc l (with_lib (snd (sl_emits (lc_combined l) (sl_state o (sg_lib g)) (sg_lib g))) g)).
Proof.
  intros I Hn Ho l' Hc Hlook. pose proof (proj1 I n l Hn) as L. pose proof (lo_combined _ _ L) as Hi.
  pose proof (sl_range o (sg_lib g)) as Hb. set (g1 := with_lib (snd (sl_emits (lc_combined l) (sl_state o (sg_lib g)) (sg_lib g))) g).
  pose proof (emits_grows _ _ _ Hi Hb) as Hg.
  assert (forall x, local_ok x g -> (lc_combined x = lc_combined l -> x = l) -> local_ok x g1) as Hok.
  { intros x X Hx. apply (emits_local_ok x _ _ g (sg_emitted g) X Hi Hb); [done|]. intros ->%Hx k Hk. unfold sourced, bits_of. simpl.
    destruct Ho as [Ho|Ho]; rewrite Ho; [left | right; left]; apply (lg_state _ _ Hg); try done; apply (lo_sources _ _ L); auto. }
  apply (inv_locals_pc n l pc); [done | done | |].
  - intros m x Hne Hm X Hcx. pose proof (Hok x X ltac:(done)) as [X1 X2 X3 X4 X5 X6]. by constructor.
  - intros _. apply (local_ok_pc l pc _ g1); try done; [by apply Hok|].
    intros i k Hi' Hlk Hk. left. apply Hlook in Hlk as ->. simpl in Hk |- *.
    destruct (sl_emits (lc_combined l) (sl_state o (sg_lib g)) (sg_lib g)) as [r lib'] eqn:E. simpl in *.
    destruct (sl_emits_law _ _ _ _ _ Hi Hb E) as (_ & E2 & E3 & _).
    destruct (decide (o = lc_combined l)) as [->|Hne]; [done|]. rewrite E2, bit_lor. right. by rewrite E3 in Hk.
Qed.

Lemma local_step_inv n g g' : signals_inv g -> local_step n g = Some g' -> signals_inv g'.
Proof.
  intros I. unfold local_step. destruct (sg_locals g !! n) as [l|] eqn:Hn; [|done]. pose proof (proj1 I n l Hn) as L.
  assert (forall pc, (forall i, chained (mkLocal (lc_outer l) (lc_token l) (lc_combined l) pc) i -> chained l i) ->
    (forall i k, looking l i -> bit k (sl_state i (sg_lib g)) -> reaches (mkLocal (lc_outer l) (lc_token l) (lc_combined l) pc) i k (sg_lib g)) ->
    signals_inv (set_local_pc n pc l g)) as Hmove.
  { intros pc Hc Hlk. replace g with (with_lib (sg_lib g) g) by (by destruct g). apply (inv_locals_pc n l pc); [done | done | |].
    - intros m x _ _ [X1 X2 X3 X4 X5 X6] _. by constructor.
    - intros _. apply (local_ok_pc l pc _ g); try done. intros i k _. by apply Hlk. }
  assert (forall pc o, lc_outer l = Some o \/ lc_token l = Some o ->
    (forall i, chained (mkLocal (lc_outer l) (lc_token l) (lc_combined l) pc) i ->
       chained l i \/ (i = o /\ looking (mkLocal (lc_outer l) (lc_token l) (lc_combined l) pc) o)) -> (forall i, ~ looking l i) ->
    signals_inv (set_local_pc n pc l (with_lib (sl_chain o (lc_combined l) (sg_lib g)) g))) as Hchain.
  { intros pc o Ho Hc Hlk. apply (inv_locals_pc n l pc); [done | done | |].
    - intros m x _ _ X Hne. apply chain_other; try done. by apply (lo_sources _ _ L).
    - intros _. by apply chain_self. }
  unfold chained, looking, reaches in *. simpl in *.
  destruct (lc_pc l) eqn:Epc; try done.
  - destruct (lc_outer l) as [o|] eqn:Eo; intros [= <-].
    + apply Hchain; clear Hmove Hchain I L Hn; simpl; [by left | naive_solver | naive_solver].
    + apply Hmove; clear Hmove Hchain I L Hn; simpl; naive_solver.
  - destruct (lc_outer l) as [o|] eqn:Eo; [|done]. intros [= <-].
    destruct (Z.eqb_spec (sl_state o (sg_lib g)) 0) as [Ez|Ez]; apply Hmove; clear Hmove Hchain I L Hn; simpl.
    + naive_solver.
    + intros i k [[[= ->] _]|[_ [?|?]]]; [|done|done]. rewrite Ez. by intros ?%bit_0.
    + naive_solver.
    + intros i k [[[= ->] _]|[_ [?|?]]] _; [|done|done]. right; right; left. auto.
  - destruct (lc_outer l) as [o|] eqn:Eo; [|done]. intros [= <-].
    clear Hmove Hchain. apply emit_step; [done | done | by left | |]; unfold chained, looking; simpl; rewrite Epc.
    + intros i [[E _]|[_ ?]]; [left; by split | done].
    + intros i [[E _]|[_ [?|?]]]; congruence.
  - destruct (lc_token l) as [o|] eqn:Eo; intros [= <-].
    + apply Hchain; clear Hmove Hchain I L Hn; simpl; [by right | naive_solver | naive_solver].
    + apply Hmove; clear Hmove Hchain I L Hn; simpl; naive_solver.
  - destruct (lc_token l) as [o|] eqn:Eo; [|done]. intros [= <-].
    destruct (Z.eqb_spec (sl_state o (sg_lib g)) 0) as [Ez|Ez]; apply Hmove; clear Hmove Hchain I L Hn; simpl.
    + naive_solver.
    + intros i k [[_ [?|?]]|[[= ->] _]]; [done|done|]. rewrite Ez. by intros ?%bit_0.
    + naive_solver.
    + intros i k [[_ [?|?]]|[[= ->] _]] _; [done|done|]. right; right; right. auto.
  - destruct (lc_token l) as [o|] eqn:Eo; [|done]. intros [= <-].
    clear Hmove Hchain. apply emit_step; [done | done | by right | |]; unfold chained, looking; simpl; rewrite Epc.
    + intros i [[E _]|[E _]]; [left | right]; by split.
    + intros i [[_ [?|?]]|[E _]]; congruence.
Qed.

Lemma local_destroy_inv n g g' : signals_inv g -> local_destroy n g = Some g' -> signals_inv g'.
Proof.
  intros I. unfold local_destroy. destruct (sg_locals g !! n) as [l|] eqn:Hn; [|done]. destruct (lc_pc l) eqn:Epc; try done. intros [= <-].
  destruct (sl_unchain_law (lc_combined l) (sg_lib g)) as (U1 & U2 & U3 & U4). apply (inv_locals_pc n l LocalGone); [done | done | |].
  - intros m x _ _ X Hne. apply (local_ok_grows x g); simpl; auto.
    + constructor; [intros i; by rewrite U1 | intros i k _; by rewrite U2].
    + intros i. rewrite U3. tauto.
    + intros k. rewrite U2. by left.
    + intros i k _. by rewrite U2.
  - intros [L1 L2 L3 L4 L5 L6]. constructor; simpl; unfold chained; simpl; [by rewrite U1 | | | by intros i [[_ ?]|[_ ?]] | | by intros i k [[_ ?]|[_ ?]]].
    + intros i. rewrite U1. apply L2.
    + intros i. rewrite U3. tauto.
    + intros k. rewrite U2. intros Hk. specialize (L5 k Hk). unfold sourced, bits_of in *. simpl.
      destruct (lc_outer l), (lc_token l); rewrite ?U2; exact L5.
Qed.

Lemma begin_inv o t g :
  signals_inv g -> exists_signal g o = true -> exists_signal g t = true -> signals_inv (with_cancellation_begin o t g).
Proof.
  intros [I1 I2] Ho Ht. unfold with_cancellation_begin. destruct (sl_create (sg_lib g)) as [c lib] eqn:E.
  pose proof (sl_create_law _ _ _ E) as (E1 & E2 & E3 & E4 & E5 & E6 & E7).
  assert (forall n l, (sg_locals g ++ [mkLocal o t c ChainOuter]) !! n = Some l ->
    sg_locals g !! n = Some l \/ (n = length (sg_locals g) /\ l = mkLocal o t c ChainOuter)) as Hl.
  { intros n l. rewrite lookup_app. destruct (sg_locals g !! n) as [x|] eqn:Ex; [by left|]. apply lookup_ge_None in Ex.
    intros Hx. apply list_lookup_singleton_Some in Hx as [Hx <-]. right. split; [lia | done]. }
  split.
  - intros n l [Hn|[_ ->]]%Hl; [eapply create_local_ok; eauto|]. constructor; simpl.
    + done.
    + intros i Hi. apply (E5 i). destruct Hi as [-> | ->]; done.
    + intros i Hi. by apply E4 in Hi.
    + by intros i [[_ ?]|[_ ?]].
    + intros k. rewrite E3. by intros ?%bit_0.
    + by intros i k [[_ ?]|[_ ?]].
  - intros n m l l' [Hn|[-> ->]]%Hl [Hm|[-> ->]]%Hl; simpl; [by eapply I2 | | | done].
    + intros Hc. pose proof (lo_combined _ _ (I1 _ _ Hn)). congruence.
    + intros Hc. pose proof (lo_combined _ _ (I1 _ _ Hm)). congruence.
Qed.

Lemma cancel_step_inv ev g g' : signals_inv g -> cancel_step ev g = Some g' -> signals_inv g'.
Proof.
  intros I. pose proof I as [I1 I2]. destruct ev as [|i b|n|o t|n|n]; simpl.
  - intros [= <-]. unfold new_source. destruct (sl_create (sg_lib g)) as [c lib] eqn:E. split; [|done].
    intros n l Hn. eapply create_local_ok; eauto.
  - destruct (_ && _ && _) eqn:Eg; [|done]. apply andb_true_iff in Eg as [[Hi Hb1%Z.leb_le]%andb_true_iff Hb2%Z.ltb_lt]. intros [= <-].
    split; [|done]. intros n l Hn. apply (emits_local_ok l i b g); [by eapply I1 | done | done | |].
    + intros e He. apply elem_of_app. by left.
    + intros <- k Hk. right; right. exists b. split; [|done]. apply elem_of_app. right. by apply list_elem_of_singleton.
  - destruct (sl_walk n (sg_lib g)) as [lib|] eqn:E; [|done]. intros [= <-]. split; [|done]. intros m l Hm.
    eapply walk_local_ok; eauto.
  - destruct (exists_signal g o) eqn:Eo; [|done]. destruct (exists_signal g t) eqn:Et; [|done]. intros [= <-]. by apply begin_inv.
  - by apply local_step_inv.
  - by apply local_destroy_inv.
Qed.
End Invariant.

(** ** Theorems *)

Section Exact.
Context {G : Type} `{SignalLaws G}.
Implicit Types (g : Signals G) (lib : G).

(** C24: A task under [with_cancellation] sees exactly the cancellations of
    its token and of the enclosing task, over every implementation of signals
    and slots that keeps their documented laws.  In every interleaving of
    emissions on any signal, their way through the slots, the steps of the
    constructors (nested ones included) and destructions, no bit of the
    combined signal comes from anywhere but the two signals or a direct
    emission on the combined signal itself; and once no emission has anything
    left to hand on to it, every bit of the two is a bit of the combined
    signal, also one that was set while it was being chained.  So a combined
    signal nobody else emits on is the union of the two. *)
Theorem cancellation_exact evs g n l :
  run_steps cancel_step evs no_signals = Some g -> sg_locals g !! n = Some l ->
  (forall k, bit k (sl_state (lc_combined l) (sg_lib g)) ->
     bit k (bits_of (lc_outer l) (sg_lib g)) \/ bit k (bits_of (lc_token l) (sg_lib g)) \/
     exists b, (lc_combined l, b) ∈ sg_emitted g /\ bit k b) /\
  (lc_pc l = LocalMade -> (forall i k, ~ sl_due (sg_lib g) i (lc_combined l) k) ->
   (forall k, bit k (bits_of (lc_outer l) (sg_lib g)) \/ bit k (bits_of (lc_token l) (sg_lib g)) ->
      bit k (sl_state (lc_combined l) (sg_lib g))) /\
   ((forall b, (lc_combined l, b) ∉ sg_emitted g) ->
      sl_state (lc_combined l) (sg_lib g) = Z.lor (bits_of (lc_outer l) (sg_lib g)) (bits_of (lc_token l) (sg_lib g)))).
Proof.
  intros Hr Hn. apply (run_steps_inv cancel_step signals_inv) in Hr as [I _]; [|exact cancel_step_inv | by split].
  pose proof (I n l Hn) as L. split; [exact (lo_source _ _ L)|]. intros Hpc Hdue.
  assert (forall i k, chained l i -> bit k (sl_state i (sg_lib g)) -> bit k (sl_state (lc_combined l) (sg_lib g))) as H2.
  { intros i k Hc Hk. destruct (lo_reach _ _ L i k Hc Hk) as [?|[Hd|Hlk]]; [done | by apply Hdue in Hd |].
    unfold looking in Hlk. rewrite Hpc in Hlk. by destruct Hlk as [[_ [?|?]]|[_ [?|?]]]. }
  assert (forall k, bit k (bits_of (lc_outer l) (sg_lib g)) \/ bit k (bits_of (lc_token l) (sg_lib g)) ->
    bit k (sl_state (lc_combined l) (sg_lib g))) as H3.
  { unfold bits_of. intros k [Hk|Hk].
    - destruct (lc_outer l) as [o|] eqn:Eo; [|by apply bit_0 in Hk]. apply (H2 o k); [|done]. left. by rewrite Hpc.
    - destruct (lc_token l) as [t|] eqn:Et; [|by apply bit_0 in Hk]. apply (H2 t k); [|done]. right. by rewrite Hpc. }
  split; [done|]. intros Hno. apply bits_eq. intros k. rewrite bit_lor. split; [|apply H3].
  intros [?|[?|(b & Hb & _)]]%(lo_source _ _ L); [by left | by right | by destruct (Hno b)].
Qed.

Lemma terminate_set z : negb (Z.land z Terminate =? 0) = Z.odd z.
Proof.
  unfold Terminate. change 1 with (Z.ones 1). rewrite Z.land_ones by lia. change (2 ^ 1) with 2. rewrite Zmod_odd. by destruct (Z.odd z).
Qed.
Lemma terminate_fresh z : negb (Z.ldiff Terminate (Z.land z (Z.ones 32)) =? 0) = negb (negb (Z.land z Terminate =? 0)).
Proof.
  assert (Z.odd (Z.land z (Z.ones 32)) = Z.odd z) as E by (rewrite <- !Z.bit0_odd, Z.land_spec; apply andb_true_r).
  rewrite terminate_set, <- E, Z.ldiff_land, Z.land_comm, terminate_set. unfold Z.lnot.
  by rewrite Z.odd_pred, <- Z.negb_odd, Z.odd_opp.
Qed.

(** [cancel] answers whether it was the first, and the source is cancelled
    afterwards; another source is not touched by it at once. *)
Theorem cancel_first source lib :
  sl_signal source lib = true ->
  fst (source_cancel source lib) = negb (source_canceled source lib) /\
  source_canceled source (snd (source_cancel source lib)) = true /\
  forall j, j <> source -> source_canceled j (snd (source_cancel source lib)) = source_canceled j lib.
Proof.
  intros Hv. unfold source_cancel. destruct (sl_emits source Terminate lib) as [fresh lib'] eqn:E. simpl.
  assert (signal_bits Terminate) as Hb by (unfold signal_bits, Terminate; lia).
  destruct (sl_emits_law _ _ _ _ _ Hv Hb E) as (-> & E2 & E3 & _).
  unfold source_canceled. rewrite terminate_fresh, E2. split_and!; [done | |].
  - rewrite !terminate_set, <- Z.bit0_odd, Z.lor_spec. by rewrite orb_true_r.
  - intros j Hj. by rewrite E3.
Qed.
End Exact.

(** ** An implementation *)

(** The words, the slots with a chained signal, and what calls of [emits]
    have still to do: pairs of a signal and one to hand its bits on to. *)
Record counted_signals := mkCounted {
  cs_words : list Z;
  cs_chains : list (nat * nat);
  cs_flight : list (nat * nat)
}.
Definition cs_state (i : nat) (g : counted_signals) : Z := Z.land (default 0 (cs_words g !! i)) (Z.ones 64).
Definition cs_exists (i : nat) (g : counted_signals) : bool := bool_decide (i < length (cs_words g))%nat.
Definition cs_linked (g : counted_signals) (i j : nat) : Prop := (i, j) ∈ cs_chains g /\ (j < length (cs_words g))%nat.
Definition cs_create (g : counted_signals) : nat * counted_signals :=
  let c := length (cs_words g) in (c, mkCounted (cs_words g ++ [0]) (filter (fun e => snd e <> c) (cs_chains g)) (cs_flight g)).
Definition cs_emits (i : nat) (b : Z) (g : counted_signals) : Z * counted_signals :=
  (Z.ldiff b (Z.land (cs_state i g) (Z.ones 32)),
   mkCounted (<[i := Z.lor (cs_state i g) b]> (cs_words g)) (cs_chains g) (cs_flight g ++ filter (fun e => fst e = i) (cs_chains g))).
Definition cs_walk (n : nat) (g : counted_signals) : option counted_signals :=
  match cs_flight g !! n with
  | Some (i, j) =>
      let g0 := mkCounted (cs_words g) (cs_chains g) (delete n (cs_flight g)) in
      Some (if bool_decide ((i, j) ∈ cs_chains g) && cs_exists j g then snd (cs_emits j (cs_state i g) g0) else g0)
  | None => None
  end.
Definition cs_chain (i j : nat) (g : counted_signals) : counted_signals :=
  mkCounted (cs_words g) ((i, j) :: cs_chains g) (cs_flight g).
Definition cs_unchain (c : nat) (g : counted_signals) : counted_signals :=
  mkCounted (cs_words g) (filter (fun e => snd e <> c) (cs_chains g)) (cs_flight g).

#[export] Instance counted_lib : SignalLib counted_signals := {
  sl_none := mkCounted [] [] [];
  sl_signal := cs_exists;
  sl_create := cs_create;
  sl_state := cs_state;
  sl_emits := cs_emits;
  sl_walk := cs_walk;
  sl_chain := cs_chain;
  sl_unchain := cs_unchain
}.

Lemma cs_state_range i g : signal_bits (cs_state i g).
Proof. unfold signal_bits, cs_state. rewrite Z.land_ones by lia. apply Z.mod_pos_bound. lia. Qed.

Lemma signal_bits_land b : signal_bits b -> Z.land b (Z.ones 64) = b.
Proof. intros Hb. rewrite Z.land_ones by lia. apply Z.mod_small. exact Hb. Qed.

Lemma cs_emits_state i b g j :
  (i < length (cs_words g))%nat -> signal_bits b ->
  cs_state j (snd (cs_emits i b g)) = if decide (j = i) then Z.lor (cs_state i g) b else cs_state j g.
Proof.
  intros Hi Hb. unfold cs_state at 1. simpl. case_decide as E.
  - subst j. rewrite list_lookup_insert_eq by done. simpl.
    by rewrite Z.land_comm, Z.land_lor_distr_r, !(Z.land_comm (Z.ones 64)), (signal_bits_land b Hb), (signal_bits_land _ (cs_state_range i g)).
  - by rewrite list_lookup_insert_ne.
Qed.

Lemma cs_emits_signal i b g j : cs_exists j (snd (cs_emits i b g)) = cs_exists j g.
Proof. unfold cs_exists. simpl. by rewrite length_insert. Qed.
Lemma cs_emits_linked i b g i' j : cs_linked (snd (cs_emits i b g)) i' j <-> cs_linked g i' j.
Proof. unfold cs_linked. simpl. by rewrite length_insert. Qed.
Lemma cs_emits_flight i b g e : e ∈ cs_flight (snd (cs_emits i b g)) <-> e ∈ cs_flight g \/ (fst e = i /\ e ∈ cs_chains g).
Proof. simpl. by rewrite elem_of_app, list_elem_of_filter. Qed.

Lemma cs_exists_lt i g : cs_exists i g = true -> (i < length (cs_words g))%nat.
Proof. apply bool_decide_eq_true_1. Qed.

Lemma cs_create_law g c g' : cs_create g = (c, g') ->
  cs_exists c g = false /\ cs_exists c g' = true /\ cs_state c g' = 0 /\ (forall i, ~ cs_linked g' i c) /\
  (forall i, cs_exists i g = true -> cs_exists i g' = true /\ cs_state i g' = cs_state i g) /\
  (forall i j, cs_linked g' i j <-> cs_linked g i j) /\ (forall i j, (i, j) ∈ cs_flight g -> (i, j) ∈ cs_flight g').
Proof.
  intros [= <- <-]. unfold cs_exists, cs_state, cs_linked. simpl. rewrite length_app. simpl. split_and!.
  - apply bool_decide_eq_false_2. lia.
  - apply bool_decide_eq_true_2. lia.
  - by rewrite lookup_app_r, Nat.sub_diag by lia.
  - intros i [[Hi _]%list_elem_of_filter _]. done.
  - intros i Hi%bool_decide_eq_true_1. split; [apply bool_decide_eq_true_2; lia | by rewrite lookup_app_l].
  - intros i j. rewrite list_elem_of_filter. simpl. split; [intros [[Hj Hc] Hl] | intros [Hc Hl]]; split_and?; try done; lia.
  - done.
Qed.

Lemma cs_walk_law n g g' : cs_walk n g = Some g' ->
  (forall j, cs_exists j g' = cs_exists j g) /\ (forall i j, cs_linked g' i j <-> cs_linked g i j) /\
  (forall j k, bit k (cs_state j g) -> bit k (cs_state j g')) /\
  (forall j k, bit k (cs_state j g') -> bit k (cs_state j g) \/ exists i, cs_linked g i j /\ bit k (cs_state i g)) /\
  (forall i j k, cs_linked g i j -> (i, j) ∈ cs_flight g -> bit k (cs_state i g) -> (i, j) ∈ cs_flight g' \/ bit k (cs_state j g')) /\
  (forall i j k, cs_linked g i j -> bit k (cs_state i g') -> ~ bit k (cs_state i g) -> (i, j) ∈ cs_flight g').
Proof.
  unfold cs_walk. destruct (cs_flight g !! n) as [[i j]|] eqn:Hn; [|done]. set (g0 := mkCounted _ _ _).
  assert (forall e, e ∈ cs_flight g -> e ∈ cs_flight g0 \/ e = (i, j)) as Hdel.
  { intros e (m & Hm)%list_elem_of_lookup. destruct (decide (m = n)) as [->|Hne]; [right; congruence | left].
    apply list_elem_of_lookup. destruct (decide (m < n)%nat).
    - exists m. simpl. by rewrite list_lookup_delete_lt.
    - exists (m - 1)%nat. simpl. rewrite list_lookup_delete_ge by lia. by replace (Datatypes.S (m - 1)) with m by lia. }
  destruct (bool_decide ((i, j) ∈ cs_chains g) && cs_exists j g) eqn:Eg; intros E.
  - assert (g' = snd (cs_emits j (cs_state i g) g0)) as -> by congruence. clear E. apply andb_true_iff in Eg as [Hc%bool_decide_eq_true_1 Hj%cs_exists_lt].
    pose proof (fun m => cs_emits_state j (cs_state i g) g0 m Hj (cs_state_range i g)) as Hs.
    split_and!; [exact (cs_emits_signal j (cs_state i g) g0) | exact (cs_emits_linked j (cs_state i g) g0) | | | |].
    + intros m k Hk. rewrite Hs. case_decide; [subst; rewrite bit_lor; by left | done].
    + intros m k. rewrite Hs. case_decide; [subst m; rewrite bit_lor | by left]. intros [?|Hk]; [by left | right; by exists i].
    + intros a b k Hl Hin Hk. rewrite cs_emits_flight. destruct (Hdel _ Hin) as [?|[= -> ->]]; [by left; left|].
      right. rewrite Hs, decide_True, bit_lor by done. by right.
    + intros a b k [Hl _] Hk Hnk. rewrite cs_emits_flight. rewrite Hs in Hk. case_decide; [by right | done].
  - injection E as <-. split_and!; try done; [by intros m k; left|].
    intros a b k [Hl1 Hl2] Hin Hk. left. destruct (Hdel _ Hin) as [?|[= -> ->]]; [done|].
    apply andb_false_iff in Eg as [Eg%bool_decide_eq_false_1|Eg%bool_decide_eq_false_1]; done.
Qed.

#[export] Instance counted_laws : SignalLaws counted_signals.
Proof.
  refine {| sl_linked := cs_linked; sl_due g i j _ := (i, j) ∈ cs_flight g |}.
  - exact cs_state_range.
  - done.
  - intros i j [Hin _]. by apply elem_of_nil in Hin.
  - intros g c g' (C1 & C2 & C3 & C4 & C5 & C6 & C7)%cs_create_law. split_and!; auto.
  - intros i b g r g' Hi%cs_exists_lt Hb E. cbn [sl_emits counted_lib] in E.
    assert (r = fst (cs_emits i b g)) as -> by (by rewrite E). assert (g' = snd (cs_emits i b g)) as -> by (by rewrite E). clear E.
    cbn [sl_state sl_signal counted_lib]. split_and!; [done | | | | | |].
    + by rewrite cs_emits_state, decide_True.
    + intros j Hj. by rewrite cs_emits_state, decide_False.
    + intros j. apply cs_emits_signal.
    + intros i' j. apply cs_emits_linked.
    + intros i' j _ Hin. rewrite cs_emits_flight. by left.
    + intros j k [Hl _] _ _. rewrite cs_emits_flight. by right.
  - exact cs_walk_law.
  - intros i j g Hi Hj%cs_exists_lt. split_and!; [done | done | |].
    + intros i' j'. unfold cs_linked. simpl. rewrite elem_of_cons. split; [intros [[[= -> ->]|?] ?] | intros [[? ?]|[-> ->]]]; auto.
    + done.
  - intros c g. split_and!; [done | done | |].
    + intros i j. unfold cs_linked. simpl. rewrite list_elem_of_filter. simpl. tauto.
    + done.
Defined.

(** A source with one bit set already, a token and an enclosing task: the
    token is cancelled after it was chained and before the constructor looks
    at it. *)
Definition cancel_events : list cancel_event :=
  [NewSource; NewSource; Emit 0 4; WithCancellation (Some 0%nat) (Some 1%nat)] ++ replicate 4 (LocalStep 0) ++
  [Emit 1 Terminate; LocalStep 0; LocalStep 0; Walk 0]%nat.
Definition cancel_sample : Signals counted_signals :=
  mkSignals (mkCounted [4; 1; 5] [(1, 2); (0, 2)]%nat []) [mkLocal (Some 0) (Some 1) 2 LocalMade]%nat [(0%nat, 4); (1%nat, 1)].
Lemma cancellation_exact_witness :
  run_steps cancel_step cancel_events no_signals = Some cancel_sample /\ sl_state 2 (sg_lib cancel_sample) = Z.lor 4 1.
Proof.
  split; [vm_compute; reflexivity|].
  refine (proj2 (proj2 (cancellation_exact cancel_events cancel_sample 0%nat (mkLocal (Some 0) (Some 1) 2 LocalMade)%nat _ _) _ _) _).
  - vm_compute. reflexivity.
  - reflexivity.
  - reflexivity.
  - intros i k Hd. apply list_elem_of_In in Hd. destruct Hd.
  - intros b Hb. apply list_elem_of_In in Hb. simpl in Hb. destruct Hb as [Hb|[Hb|Hb]]; [discriminate Hb.. | destruct Hb].
Defined.

(** ** Timeouts *)

Section Timeout.
Context {T : Type}.

(** [detail::timeout_after]: a tag when [sleep_for] returns. *)
Definition timeout_after (slept : result unit) : result unit :=
  match slept with Ok _ => Ok tt | Throw e => Throw e | OutOfFuel => OutOfFuel end.

(** What [collectAny] reports: which of the two ended first, and how. *)
Inductive first_done := TaskFirst (r : result T) | TimerFirst (r : result unit).

Definition with_timeout_race (first : first_done) : result T :=
  match first with
  | TaskFirst r => match r with Ok v => Ok v | Throw e => Throw e | OutOfFuel => OutOfFuel end
  | TimerFirst _ => Throw TimeoutError
  end.

End Timeout.

(** The connections' [with_timeout] (Stream.v) is this race, with the
    environment choosing who is first. *)
Lemma with_timeout_is_race {S K A} (expires : Z -> S -> bool) (task : M S K A) dur (c : conn S K) :
  fst (with_timeout expires task dur c) =
  with_timeout_race (if expires dur (c_stream c) then TimerFirst (timeout_after (Ok tt)) else TaskFirst (fst (task c))).
Proof. unfold with_timeout. destruct (expires dur (c_stream c)); [done|]. simpl. by destruct (fst (task c)). Qed.
