(* ===== verification/AsyncEvent.v ===== *)
(** * ManualResetEvent (event.h)

    An event that coroutines wait for.  One transition is one critical
    section of [_mu] or one atomic step, so that setters, cancelling threads
    and the executor interleave freely: [request_resume] is three steps (the
    exchange of [done], [remove_waiter], the hand-over of the continuation),
    and [await_suspend] installs the cancellation handler before it
    registers.  A continuation runs on the executor and not in the middle of
    the [await_suspend] of the same coroutine.  The destructor of the awaiter
    is one step.  The theorems: no wakeup is lost, and a waiter that cannot
    be cancelled is resumed exactly once; a waiter that is cancelled between
    the handler and its registration can be resumed twice. *)

From S2P Require Import Prelude Counting AsyncWait.

(** ** State *)

Inductive ev_phase :=
| EvReady        (* before [await_ready] *)
| EvEmplace      (* [await_suspend], before [tryEmplace] *)
| EvRegister     (* [await_suspend], before [register_waiter] *)
| EvSuspended
| EvImmediate    (* [await_ready] was true: before [await_resume], without an op *)
| EvResumed      (* before [await_resume] *)
| EvReturned
| EvThrown (e : exn).

#[export] Instance ev_phase_eq_dec : EqDecision ev_phase.
Proof. solve_decision. Defined.

(** A waiting coroutine with its [ManualResetEventOp]. *)
Record EvOp := mkEvOp {
  eo_phase : ev_phase;
  eo_slot : bool;
  eo_canceled : bool;
  eo_handler : bool;
  eo_done : bool;
  eo_abandoned : bool;
  eo_continuation : bool
}.
Definition new_ev_op (slot : bool) : EvOp := mkEvOp EvReady slot false false false false true.

Inductive ev_action :=
| RequestResume (i : nat)    (* a call of [request_resume] *)
| RemoveWaiter (i : nat)     (* it has set [done] *)
| HandOver (i : nat)         (* it has removed the waiter *)
| Continue (i : nat).        (* [h.resume()], posted *)

Record Event := mkEvent {
  ev_signaled : bool;
  ev_waiters : list nat;
  ev_ops : list EvOp;
  ev_pending : list ev_action;
  ev_fault : bool            (* a coroutine was resumed that is not suspended *)
}.
Definition new_event (signaled : bool) : Event := mkEvent signaled [] [] [] false.

Definition set_ev_phase (p : ev_phase) (o : EvOp) : EvOp :=
  mkEvOp p (eo_slot o) (eo_canceled o) (eo_handler o) (eo_done o) (eo_abandoned o) (eo_continuation o).
Definition put_op (i : nat) (o : EvOp) (s : Event) : Event :=
  mkEvent (ev_signaled s) (ev_waiters s) (<[i := o]> (ev_ops s)) (ev_pending s) (ev_fault s).
Definition set_ev_waiters (l : list nat) (s : Event) : Event :=
  mkEvent (ev_signaled s) l (ev_ops s) (ev_pending s) (ev_fault s).
Definition set_ev_pending (l : list ev_action) (s : Event) : Event :=
  mkEvent (ev_signaled s) (ev_waiters s) (ev_ops s) l (ev_fault s).

Definition op_done (ops : list EvOp) (i : nat) : bool := match ops !! i with Some o => eo_done o | None => true end.

(** [compact_waiters_locked] and [remove_waiter] *)
Definition compact_waiters (ops : list EvOp) (l : list nat) : list nat := List.filter (fun i => negb (op_done ops i)) l.
Definition erase_waiter (j : nat) (ops : list EvOp) (l : list nat) : list nat :=
  List.filter (fun i => negb (Nat.eqb i j) && negb (op_done ops i)) l.

Definition event_set (s : Event) : Event :=
  mkEvent true [] (ev_ops s) (ev_pending s ++ map RequestResume (compact_waiters (ev_ops s) (ev_waiters s))) (ev_fault s).
Definition event_reset (s : Event) : Event :=
  mkEvent false (compact_waiters (ev_ops s) (ev_waiters s)) (ev_ops s) (ev_pending s) (ev_fault s).
Definition is_set (s : Event) : bool := ev_signaled s.

Definition event_canceled : exn := SignalException "corouv event canceled"%bs.

(** The next step of coroutine [i]; [tryEmplace] fails if the signal was
    emitted. *)
Definition event_advance (i : nat) (s : Event) : option Event :=
  match ev_ops s !! i with
  | None => None
  | Some o =>
      match eo_phase o with
      | EvReady => Some (put_op i (set_ev_phase (if ev_signaled s || eo_canceled o then EvImmediate else EvEmplace) o) s)
      | EvImmediate => Some (put_op i (set_ev_phase (if eo_canceled o then EvThrown event_canceled else EvReturned) o) s)
      | EvEmplace =>
          if eo_slot o then
            if eo_canceled o then Some (put_op i (set_ev_phase EvResumed o) s)
            else Some (put_op i (mkEvOp EvRegister true false true (eo_done o) (eo_abandoned o) (eo_continuation o)) s)
          else Some (put_op i (set_ev_phase EvRegister o) s)
      | EvRegister =>
          let s := set_ev_waiters (compact_waiters (ev_ops s) (ev_waiters s)) s in
          if ev_signaled s then Some (put_op i (set_ev_phase EvResumed o) s)
          else Some (put_op i (set_ev_phase EvSuspended o) (set_ev_waiters (ev_waiters s ++ [i]) s))
      | EvResumed =>
          (* [await_resume], then [~Awaiter] *)
          let o' := mkEvOp (if eo_canceled o then EvThrown event_canceled else EvReturned) (eo_slot o) (eo_canceled o) false true true false in
          let s := put_op i o' s in
          Some (set_ev_waiters (erase_waiter i (ev_ops s) (ev_waiters s)) s)
      | _ => None
      end
  end.

(** The coroutine is in the middle of a callback. *)
Definition ev_busy (p : ev_phase) : bool :=
  match p with EvReady | EvEmplace | EvRegister | EvImmediate | EvResumed => true | _ => false end.

Definition event_perform (a : ev_action) (s : Event) : option Event :=
  match a with
  | RequestResume i =>
      match ev_ops s !! i with
      | Some o =>
          if eo_done o then Some s
          else Some (set_ev_pending (ev_pending s ++ [RemoveWaiter i])
                 (put_op i (mkEvOp (eo_phase o) (eo_slot o) (eo_canceled o) (eo_handler o) true (eo_abandoned o) (eo_continuation o)) s))
      | None => None
      end
  | RemoveWaiter i =>
      Some (set_ev_pending (ev_pending s ++ [HandOver i]) (set_ev_waiters (erase_waiter i (ev_ops s) (ev_waiters s)) s))
  | HandOver i =>
      match ev_ops s !! i with
      | Some o =>
          if eo_abandoned o then Some s
          else if eo_continuation o then
            Some (set_ev_pending (ev_pending s ++ [Continue i])
                   (put_op i (mkEvOp (eo_phase o) (eo_slot o) (eo_canceled o) (eo_handler o) (eo_done o) false false) s))
          else Some s
      | None => None
      end
  | Continue i =>
      match ev_ops s !! i with
      | Some o =>
          if ev_busy (eo_phase o) then None
          else if decide (eo_phase o = EvSuspended) then Some (put_op i (set_ev_phase EvResumed o) s)
          else Some (mkEvent (ev_signaled s) (ev_waiters s) (ev_ops s) (ev_pending s) true)
      | None => None
      end
  end.

(** The cancellation signal; an installed handler calls [request_resume]. *)
Definition event_signal (i : nat) (s : Event) : option Event :=
  match ev_ops s !! i with
  | Some o =>
      if eo_slot o && negb (eo_canceled o) then
        let s' := put_op i (mkEvOp (eo_phase o) true true (eo_handler o) (eo_done o) (eo_abandoned o) (eo_continuation o)) s in
        Some (if eo_handler o then set_ev_pending (ev_pending s' ++ [RequestResume i]) s' else s')
      else None
  | None => None
  end.

Inductive event_label :=
| ELWait (slot : bool) | ELSet | ELReset | ELAdvance (i : nat) | ELPerform (k : nat) | ELSignal (i : nat).

Definition event_step (l : event_label) (s : Event) : option Event :=
  match l with
  | ELWait slot => Some (mkEvent (ev_signaled s) (ev_waiters s) (ev_ops s ++ [new_ev_op slot]) (ev_pending s) (ev_fault s))
  | ELSet => Some (event_set s)
  | ELReset => Some (event_reset s)
  | ELAdvance i => event_advance i s
  | ELPerform k =>
      match ev_pending s !! k with
      | Some a => event_perform a (set_ev_pending (take k (ev_pending s) ++ drop (S k) (ev_pending s)) s)
      | None => None
      end
  | ELSignal i => event_signal i s
  end.

Fixpoint event_run (ls : list event_label) (s : Event) : option Event :=
  match ls with
  | [] => Some s
  | l :: ls => match event_step l s with Some s' => event_run ls s' | None => None end
  end.

(** ** Invariant *)

Definition is_request (i : nat) (a : ev_action) : bool := match a with RequestResume j => Nat.eqb i j | _ => false end.
Definition is_chain (i : nat) (a : ev_action) : bool :=
  match a with RemoveWaiter j | HandOver j => Nat.eqb i j | _ => false end.
Definition is_continue (i : nat) (a : ev_action) : bool := match a with Continue j => Nat.eqb i j | _ => false end.

(** [request_resume] won by somebody is under way, up to the posted
    continuation, exactly if [done] is set. *)
Definition chain_ok (o : EvOp) (c g : nat) : Prop :=
  if eo_done o then (c = 1 /\ g = 0 /\ eo_continuation o = true) \/ (c = 0 /\ g = 1 /\ eo_continuation o = false)
  else c = 0 /\ g = 0 /\ eo_continuation o = true.

(** [r], [c], [g]: calls, won calls, continuations on their way; [w]: places
    in the list of waiters. *)
Definition op_ok (o : EvOp) (r c g w : nat) : Prop :=
  (eo_slot o = false -> eo_canceled o = false /\ eo_handler o = false) /\
  match eo_phase o with
  | EvReady | EvEmplace =>
      r = 0 /\ c = 0 /\ g = 0 /\ w = 0 /\ eo_done o = false /\ eo_continuation o = true /\ eo_abandoned o = false /\ eo_handler o = false
  | EvRegister =>
      w = 0 /\ eo_abandoned o = false /\ chain_ok o c g /\ (eo_slot o = false -> r = 0 /\ eo_done o = false)
  | EvSuspended =>
      eo_abandoned o = false /\ chain_ok o c g /\ (eo_done o = false -> 1 <= w + r) /\
      (eo_slot o = false -> r + c + g + w = 1)
  | _ => eo_slot o = false -> r = 0 /\ c = 0 /\ g = 0 /\ w = 0
  end.

Definition ok_at (ops : list EvOp) (pending : list ev_action) (waiters : list nat) (i : nat) : Prop :=
  let r := count (is_request i) pending in
  let c := count (is_chain i) pending in
  let g := count (is_continue i) pending in
  let w := count (Nat.eqb i) waiters in
  match ops !! i with
  | Some o => op_ok o r c g w
  | None => r = 0 /\ c = 0 /\ g = 0 /\ w = 0
  end.

Record event_inv (s : Event) : Prop := {
  ei_ok i : ok_at (ev_ops s) (ev_pending s) (ev_waiters s) i;
  ei_signaled : ev_signaled s = true -> ev_waiters s = [];
  ei_fault : ev_fault s = true -> Exists (fun o => eo_slot o = true) (ev_ops s)
}.

(** Removing waiters that are done changes nothing. *)
Lemma op_ok_compact o r c g w : op_ok o r c g w -> op_ok o r c g (if eo_done o then 0 else w).
Proof.
  intros [H0 H]. split; [done|]. destruct (eo_phase o) eqn:Ep, (eo_done o) eqn:Ed; try done.
  all: unfold chain_ok in *; rewrite ?Ed in *; try naive_solver.
  - destruct H as (H1 & H2 & H3 & H4). split_and!; try done. intros Hs. specialize (H4 Hs). destruct H2 as [(-> & -> & _)|(-> & -> & _)]; lia.
Qed.

Lemma ok_compact ops pending l i : ok_at ops pending l i -> ok_at ops pending (compact_waiters ops l) i.
Proof.
  unfold ok_at, compact_waiters. rewrite count_filter. unfold op_done. destruct (ops !! i) as [o|]; simpl; [|naive_solver].
  intros H. apply op_ok_compact in H. by destruct (eo_done o).
Qed.

(** The operation [i] changes, with what is pending about it. *)
Lemma ok_put ops i o o' p p' l l' :
  ops !! i = Some o -> (forall j, ok_at ops p l j) ->
  (forall j, j <> i -> count (is_request j) p' = count (is_request j) p /\ count (is_chain j) p' = count (is_chain j) p /\
    count (is_continue j) p' = count (is_continue j) p /\
    (count (Nat.eqb j) l' = count (Nat.eqb j) l \/ op_done ops j = true /\ count (Nat.eqb j) l' = 0)) ->
  op_ok o' (count (is_request i) p') (count (is_chain i) p') (count (is_continue i) p') (count (Nat.eqb i) l') ->
  forall j, ok_at (<[i := o']> ops) p' l' j.
Proof.
  intros Hi Hok Hother Hnew j. unfold ok_at. destruct (decide (j = i)) as [->|Hne].
  - rewrite list_lookup_insert_eq by (by eapply lookup_lt_Some). done.
  - rewrite list_lookup_insert_ne by done. specialize (Hok j). unfold ok_at in Hok. destruct (Hother j Hne) as (-> & -> & -> & Hw).
    destruct (ops !! j) as [u|] eqn:Ej; [|destruct Hw as [->|[_ ->]]; naive_solver].
    destruct Hw as [->|[Hd ->]]; [done|]. apply op_ok_compact in Hok. unfold op_done in Hd. rewrite Ej in Hd. by rewrite Hd in Hok.
Qed.

(** Only the pending actions change. *)
Lemma ok_same ops p p' l l' :
  (forall j, ok_at ops p l j) ->
  (forall j o, ops !! j = Some o ->
    op_ok o (count (is_request j) p) (count (is_chain j) p) (count (is_continue j) p) (count (Nat.eqb j) l) ->
    op_ok o (count (is_request j) p') (count (is_chain j) p') (count (is_continue j) p') (count (Nat.eqb j) l')) ->
  (forall j, ops !! j = None ->
    count (is_request j) p' <= count (is_request j) p + count (Nat.eqb j) l /\ count (is_chain j) p' <= count (is_chain j) p /\
    count (is_continue j) p' <= count (is_continue j) p /\ count (Nat.eqb j) l' <= count (Nat.eqb j) l) ->
  forall j, ok_at ops p' l' j.
Proof.
  intros Hok HS HN j. specialize (Hok j). unfold ok_at in *. destruct (ops !! j) as [o|] eqn:E; [by apply HS|]. specialize (HN j E). lia.
Qed.

Lemma count_map_request j l : count (is_request j) (map RequestResume l) = count (Nat.eqb j) l.
Proof. unfold count. induction l as [|x l IH]; simpl; [done|]. destruct (Nat.eqb j x); simpl; by rewrite IH. Qed.

Lemma count_map_other (f : ev_action -> bool) l :
  (forall i, f (RequestResume i) = false) -> count f (map RequestResume l) = 0.
Proof. intros Hf. unfold count. induction l as [|x l IH]; simpl; [done|]. by rewrite Hf. Qed.

(** The calls of [set] take the places of the waiters. *)
Lemma op_ok_set o r c g w : op_ok o r c g w -> op_ok o (r + (if eo_done o then 0 else w)) c g 0.
Proof.
  intros [H0 H]. split; [done|]. destruct (eo_phase o) eqn:Ep; unfold chain_ok in *; destruct (eo_done o) eqn:Ed; try naive_solver lia.
Qed.

Lemma event_set_inv s : event_inv s -> event_inv (event_set s).
Proof.
  intros [Hok Hsig Hf]. constructor; simpl; [|done|done]. eapply ok_same; [exact Hok| |].
  - intros j o Hj H. rewrite !count_split, count_map_request, !count_map_other by done. rewrite !Nat.add_0_r.
    unfold compact_waiters. rewrite count_filter. unfold op_done. rewrite Hj. apply op_ok_set in H. by destruct (eo_done o).
  - intros j Hj. rewrite !count_split, count_map_request, !count_map_other by done.
    unfold compact_waiters. rewrite count_filter. unfold op_done. rewrite Hj. simpl. split_and!; [lia | lia | lia | apply Nat.le_0_l].
Qed.

Lemma event_reset_inv s : event_inv s -> event_inv (event_reset s).
Proof. intros [Hok Hsig Hf]. constructor; simpl; [intros i; by apply ok_compact | done | done]. Qed.

Lemma event_wait_inv slot s : event_inv s ->
  event_inv (mkEvent (ev_signaled s) (ev_waiters s) (ev_ops s ++ [new_ev_op slot]) (ev_pending s) (ev_fault s)).
Proof.
  intros [Hok Hsig Hf]. constructor; simpl; [|done|].
  - intros i. specialize (Hok i). unfold ok_at in *. destruct (decide (i < length (ev_ops s))).
    + by rewrite lookup_app_l.
    + rewrite lookup_ge_None_2 in Hok by lia. destruct Hok as (-> & -> & -> & ->). rewrite lookup_app_r by lia.
      destruct (i - length (ev_ops s)) as [|k]; simpl; [|done]. by repeat split.
  - intros H. apply Exists_app. left. by apply Hf.
Qed.

(** The list after [erase_waiter] for another coroutine. *)
Lemma erase_waiter_count j i ops l :
  count (Nat.eqb j) (erase_waiter i ops l) = if Nat.eqb j i || op_done ops j then 0 else count (Nat.eqb j) l.
Proof. unfold erase_waiter. rewrite count_filter. by destruct (Nat.eqb j i), (op_done ops j). Qed.

Lemma exists_slot_insert ops i o o' :
  ops !! i = Some o -> eo_slot o' = eo_slot o ->
  Exists (fun o => eo_slot o = true) ops -> Exists (fun o => eo_slot o = true) (<[i := o']> ops).
Proof.
  intros Hi Hs. rewrite !Exists_exists. intros (u & Hu & Ht). apply list_elem_of_lookup in Hu as [k Hk]. destruct (decide (k = i)) as [->|].
  - exists o'. split; [|congruence]. apply list_elem_of_lookup. exists i. apply list_lookup_insert_eq. by eapply lookup_lt_Some.
  - exists u. split; [|done]. apply list_elem_of_lookup. exists k. by rewrite list_lookup_insert_ne.
Qed.

Lemma op_done_insert_ne ops i j o : j <> i -> op_done (<[i := o]> ops) j = op_done ops j.
Proof. intros H. unfold op_done. by rewrite list_lookup_insert_ne. Qed.

#[local] Hint Resolve exists_slot_insert : core.

(** A step of coroutine [i] that changes its operation and keeps the pending
    actions. *)
Lemma event_put_inv s i o o' l' :
  event_inv s -> ev_ops s !! i = Some o -> eo_slot o' = eo_slot o ->
  (ev_signaled s = true -> l' = []) ->
  (forall j, j <> i -> count (Nat.eqb j) l' = count (Nat.eqb j) (ev_waiters s) \/ op_done (ev_ops s) j = true /\ count (Nat.eqb j) l' = 0) ->
  (forall r c g w, r = count (is_request i) (ev_pending s) -> c = count (is_chain i) (ev_pending s) -> g = count (is_continue i) (ev_pending s) ->
    w = count (Nat.eqb i) (ev_waiters s) -> op_ok o r c g w -> op_ok o' r c g (count (Nat.eqb i) l')) ->
  event_inv (set_ev_waiters l' (put_op i o' s)).
Proof.
  intros [Hok Hsig Hf] Hi Hslot Hl Hother Hnew. constructor; simpl; [|done|eauto].
  eapply ok_put; [exact Hi | exact Hok | naive_solver |]. eapply Hnew; try reflexivity. specialize (Hok i). unfold ok_at in Hok. by rewrite Hi in Hok.
Qed.

Lemma compact_other ops l j :
  count (Nat.eqb j) (compact_waiters ops l) = count (Nat.eqb j) l \/ op_done ops j = true /\ count (Nat.eqb j) (compact_waiters ops l) = 0.
Proof. unfold compact_waiters. rewrite count_filter. destruct (op_done ops j); simpl; [by right | by left]. Qed.

Lemma put_op_waiters i o s : put_op i o s = set_ev_waiters (ev_waiters s) (put_op i o s).
Proof. done. Qed.

(** The steps that keep the list of waiters. *)
Lemma event_put_only_inv s i o o' :
  event_inv s -> ev_ops s !! i = Some o -> eo_slot o' = eo_slot o -> (forall r c g w, op_ok o r c g w -> op_ok o' r c g w) -> event_inv (put_op i o' s).
Proof.
  intros Hinv Hi Hslot Hnew. rewrite put_op_waiters. pose proof (ei_signaled _ Hinv). eapply event_put_inv; eauto.
  by intros r c g w -> -> -> -> ?; apply Hnew.
Qed.

Ltac op_state Ep :=
  let H0 := fresh "Hslot" in let H := fresh "Hphase" in
  intros [H0 H]; rewrite Ep in H; split; simpl; [|try unfold chain_ok in H; try unfold chain_ok; simpl in H |- *];
  first [naive_solver lia | destruct (eo_done _) eqn:?; naive_solver lia | naive_solver].
Ltac op_case Ep := intros ????; op_state Ep.

Lemma event_register_inv i o s s' :
  event_inv s -> ev_ops s !! i = Some o -> eo_phase o = EvRegister -> event_advance i s = Some s' -> event_inv s'.
Proof.
  intros Hinv Hi Ep H. unfold event_advance in H. rewrite Hi, Ep in H. simpl in H. pose proof (ei_signaled _ Hinv) as Hsig.
  pose proof (ei_ok _ Hinv i) as Ho. unfold ok_at in Ho. rewrite Hi in Ho. destruct Ho as [_ Ho]. rewrite Ep in Ho. destruct Ho as [Hw _].
  assert (count (Nat.eqb i) (compact_waiters (ev_ops s) (ev_waiters s)) = 0) as Hw'
    by (unfold compact_waiters; rewrite count_filter, Hw; by destruct (negb _)).
  destruct (ev_signaled s) eqn:Es; injection H as <-.
  - change (put_op i ?o (set_ev_waiters ?l s)) with (set_ev_waiters l (put_op i o s)).
    eapply event_put_inv; [done | done | done | by rewrite Hsig | intros; apply compact_other |]. intros ???? _ _ _ ->. rewrite Hw, Hw'. op_state Ep.
  - change (put_op i ?o (set_ev_waiters ?l _)) with (set_ev_waiters l (put_op i o s)).
    eapply event_put_inv; [done | done | done | by rewrite Es | |].
    + intros j Hne. rewrite count_split, count_one. destruct (Nat.eqb_spec j i); [done|]. rewrite Nat.add_0_r. apply compact_other.
    + intros ???? _ _ _ ->. rewrite count_split, count_one, Nat.eqb_refl, Hw, Hw'. op_state Ep.
Qed.

Lemma event_advance_inv i s s' : event_inv s -> event_advance i s = Some s' -> event_inv s'.
Proof.
  intros Hinv H. unfold event_advance in H. destruct (ev_ops s !! i) as [o|] eqn:Hi; [|done].
  pose proof (ei_signaled _ Hinv) as Hsig. destruct (eo_phase o) eqn:Ep; simpl in H; try done.
  - injection H as <-. eapply event_put_only_inv; eauto. destruct (ev_signaled s || eo_canceled o); op_case Ep.
  - destruct (eo_slot o) eqn:Eslot; [destruct (eo_canceled o)|]; injection H as <-; eapply event_put_only_inv; eauto; op_case Ep.
  - eapply event_register_inv; [done | exact Hi | exact Ep |]. unfold event_advance. by rewrite Hi, Ep.
  - injection H as <-. eapply event_put_only_inv; eauto. destruct (eo_canceled o) eqn:?; op_case Ep.
  - injection H as <-. eapply event_put_inv; [done | exact Hi | done | intros Hs; simpl; by rewrite (Hsig Hs) | |].
    + intros j Hne. simpl. rewrite erase_waiter_count, op_done_insert_ne by done. destruct (Nat.eqb_spec j i); [done|]. simpl.
      destruct (op_done (ev_ops s) j); [by right | by left].
    + intros ???? _ _ _ _. rewrite erase_waiter_count, Nat.eqb_refl. simpl. destruct (eo_canceled o) eqn:Ec; op_state Ep.
Qed.

(** An action is taken from the list. *)
Lemma event_take_ok s k a i :
  event_inv s -> ev_pending s !! k = Some a -> let p' := take k (ev_pending s) ++ drop (S k) (ev_pending s) in
  match ev_ops s !! i with
  | Some o =>
      op_ok o (count (is_request i) p' + (if is_request i a then 1 else 0)) (count (is_chain i) p' + (if is_chain i a then 1 else 0))
        (count (is_continue i) p' + (if is_continue i a then 1 else 0)) (count (Nat.eqb i) (ev_waiters s))
  | None => is_request i a = false /\ is_chain i a = false /\ is_continue i a = false /\
      count (is_request i) p' = 0 /\ count (is_chain i) p' = 0 /\ count (is_continue i) p' = 0 /\ count (Nat.eqb i) (ev_waiters s) = 0
  end.
Proof.
  intros Hinv Hk p'. pose proof (ei_ok _ Hinv i) as H. unfold ok_at in H. rewrite !(count_remove _ _ _ _ Hk) in H. fold p' in H.
  destruct (ev_ops s !! i); [done|]. destruct (is_request i a), (is_chain i a), (is_continue i a); lia.
Qed.

Definition action_op (a : ev_action) : nat := match a with RequestResume i | RemoveWaiter i | HandOver i | Continue i => i end.

Lemma action_other j a : j <> action_op a -> is_request j a = false /\ is_chain j a = false /\ is_continue j a = false.
Proof. destruct a; simpl; intros H; apply Nat.eqb_neq in H; by rewrite ?H. Qed.

Lemma count_others (f : ev_action -> bool) extra :
  Forall (fun a => f a = false) extra -> count f extra = 0.
Proof. intros H. unfold count. induction H as [|x l Hx H IH]; simpl; [done|]. by rewrite Hx. Qed.

(** An action about [i] is performed: it changes the operation [i], the
    waiters and adds actions about [i]. *)
Lemma event_act_inv s k a i o o' extra l' f :
  event_inv s -> ev_pending s !! k = Some a -> action_op a = i -> Forall (fun b => action_op b = i) extra ->
  ev_ops s !! i = Some o -> eo_slot o' = eo_slot o -> (ev_signaled s = true -> l' = []) ->
  (f = true -> ev_fault s = true \/ eo_slot o = true) ->
  (forall j, j <> i -> count (Nat.eqb j) l' = count (Nat.eqb j) (ev_waiters s) \/ op_done (ev_ops s) j = true /\ count (Nat.eqb j) l' = 0) ->
  (forall r c g w, w = count (Nat.eqb i) (ev_waiters s) ->
    op_ok o (r + (if is_request i a then 1 else 0)) (c + (if is_chain i a then 1 else 0)) (g + (if is_continue i a then 1 else 0)) w ->
    op_ok o' (r + count (is_request i) extra) (c + count (is_chain i) extra) (g + count (is_continue i) extra) (count (Nat.eqb i) l')) ->
  event_inv (mkEvent (ev_signaled s) l' (<[i := o']> (ev_ops s)) ((take k (ev_pending s) ++ drop (S k) (ev_pending s)) ++ extra) f).
Proof.
  intros Hinv Hk Ha Hextra Hi Hslot Hl Hf Hother Hnew. constructor; simpl; [|done|].
  - eapply ok_put; [exact Hi | apply (ei_ok _ Hinv) | |].
    + intros j Hne. rewrite !(count_remove _ _ _ _ Hk), !(count_split _ _ extra).
      destruct (action_other j a) as (-> & -> & ->); [congruence|].
      rewrite !(count_others _ extra); [split_and!; [lia | lia | lia | auto] | ..].
      all: eapply Forall_impl; [exact Hextra|]; simpl; intros b Hb; destruct (action_other j b) as (? & ? & ?); congruence.
    + rewrite !(count_split _ _ extra). eapply Hnew; [reflexivity|]. pose proof (event_take_ok s k a i Hinv Hk) as Ht. simpl in Ht.
      by rewrite Hi in Ht.
  - intros Hft. eapply exists_slot_insert; eauto. destruct (Hf Hft) as [H|H]; [by apply (ei_fault _ Hinv)|].
    apply Exists_exists. exists o. split; [by eapply list_elem_of_lookup_2 | done].
Qed.

Definition without (k : nat) (s : Event) : Event := set_ev_pending (take k (ev_pending s) ++ drop (S k) (ev_pending s)) s.

(** An action without effect. *)
Lemma event_drop_inv s k a i o :
  event_inv s -> ev_pending s !! k = Some a -> action_op a = i -> ev_ops s !! i = Some o ->
  (forall r c g w, op_ok o (r + (if is_request i a then 1 else 0)) (c + (if is_chain i a then 1 else 0)) (g + (if is_continue i a then 1 else 0)) w ->
    op_ok o r c g w) -> event_inv (without k s).
Proof.
  intros Hinv Hk Ha Hi Hnew.
  pose proof (event_act_inv s k a i o o [] (ev_waiters s) (ev_fault s) Hinv Hk Ha (Forall_nil_2 _) Hi eq_refl (ei_signaled _ Hinv)) as Hact.
  rewrite app_nil_r, list_insert_id in Hact by done. apply Hact; [by left | by left|]. intros r c g w ->.
  change (count _ []) with 0. rewrite !Nat.add_0_r. apply Hnew.
Qed.

Ltac op_phases o :=
  let H0 := fresh "Hslot" in let H := fresh "Hphase" in
  rewrite ?count_one; simpl; rewrite ?Nat.eqb_refl, ?Nat.add_0_r; intros [H0 H]; split; [simpl; naive_solver|];
  destruct (eo_phase o) eqn:?; simpl; try unfold chain_ok in H; try unfold chain_ok; simpl in H |- *; repeat (case_match; simplify_eq/=);
  solve [intuition (first [congruence | lia])].

Lemma event_request_inv k i s s' :
  event_inv s -> ev_pending s !! k = Some (RequestResume i) -> event_perform (RequestResume i) (without k s) = Some s' -> event_inv s'.
Proof.
  intros Hinv Hk H. unfold event_perform in H. change (ev_ops (without k s)) with (ev_ops s) in H. destruct (ev_ops s !! i) as [o|] eqn:Hi; [|done].
  pose proof (ei_signaled _ Hinv) as Hsig. destruct (eo_done o) eqn:Ed; injection H as <-.
  - eapply event_drop_inv; eauto. intros r c g w. simpl. op_phases o.
  - apply (event_act_inv s k (RequestResume i) i o _ [RemoveWaiter i] (ev_waiters s) (ev_fault s)); auto. intros r c g w ->. op_phases o.
Qed.

Lemma event_remove_inv k i s s' :
  event_inv s -> ev_pending s !! k = Some (RemoveWaiter i) -> event_perform (RemoveWaiter i) (without k s) = Some s' -> event_inv s'.
Proof.
  intros Hinv Hk [= <-]. pose proof (ei_signaled _ Hinv) as Hsig. pose proof (event_take_ok s k _ i Hinv Hk) as Hi. simpl in Hi.
  rewrite Nat.eqb_refl in Hi. destruct (ev_ops s !! i) as [o|] eqn:Ho; [clear Hi | naive_solver].
  pose proof (event_act_inv s k (RemoveWaiter i) i o o [HandOver i] (erase_waiter i (ev_ops s) (ev_waiters s)) (ev_fault s)) as Hact.
  rewrite list_insert_id in Hact by done. apply Hact; auto; clear Hact.
  - intros Hs. by rewrite (Hsig Hs).
  - intros j Hne. rewrite erase_waiter_count. apply Nat.eqb_neq in Hne. rewrite Hne. destruct (op_done _ j); simpl; auto.
  - intros r c g w _. rewrite erase_waiter_count. op_phases o.
Qed.

Lemma event_hand_over_inv k i s s' :
  event_inv s -> ev_pending s !! k = Some (HandOver i) -> event_perform (HandOver i) (without k s) = Some s' -> event_inv s'.
Proof.
  intros Hinv Hk H. unfold event_perform in H. change (ev_ops (without k s)) with (ev_ops s) in H. destruct (ev_ops s !! i) as [o|] eqn:Hi; [|done].
  pose proof (ei_signaled _ Hinv) as Hsig. destruct (eo_abandoned o) eqn:Ea; [|destruct (eo_continuation o) eqn:Ec]; injection H as <-.
  - eapply event_drop_inv; eauto. intros r c g w. simpl. op_phases o.
  - apply (event_act_inv s k (HandOver i) i o _ [Continue i] (ev_waiters s) (ev_fault s)); auto. intros r c g w ->. op_phases o.
  - eapply event_drop_inv; eauto. intros r c g w. simpl. op_phases o.
Qed.

Lemma event_continue_inv k i s s' :
  event_inv s -> ev_pending s !! k = Some (Continue i) -> event_perform (Continue i) (without k s) = Some s' -> event_inv s'.
Proof.
  intros Hinv Hk H. unfold event_perform in H. change (ev_ops (without k s)) with (ev_ops s) in H. destruct (ev_ops s !! i) as [o|] eqn:Hi; [|done].
  pose proof (ei_signaled _ Hinv) as Hsig. destruct (ev_busy (eo_phase o)) eqn:Eb; [done|].
  pose proof (event_act_inv s k (Continue i) i o) as Hact. destruct (decide _) as [Ep|Ep]; injection H as <-.
  - specialize (Hact (set_ev_phase EvResumed o) [] (ev_waiters s) (ev_fault s)). rewrite app_nil_r in Hact. apply Hact; auto.
    intros r c g w ->. rewrite Nat.add_0_r. op_phases o.
  - specialize (Hact o [] (ev_waiters s) true). rewrite app_nil_r, list_insert_id in Hact by done. apply Hact; auto.
    + intros _. right. pose proof (event_take_ok s k _ i Hinv Hk) as Ho. simpl in Ho. rewrite Hi, Nat.eqb_refl in Ho. destruct Ho as [_ Ho].
      destruct (eo_slot o); [done|]. destruct (eo_phase o); naive_solver lia.
    + intros r c g w ->. op_phases o.
Qed.

Lemma event_signal_inv i s s' : event_inv s -> event_signal i s = Some s' -> event_inv s'.
Proof.
  intros Hinv H. unfold event_signal in H. destruct (ev_ops s !! i) as [o|] eqn:Hi; [|done]. destruct (eo_slot o && _) eqn:Es; [|done].
  apply andb_prop in Es as [Es _]. injection H as <-. destruct (eo_handler o) eqn:Eh.
  - destruct Hinv as [Hok Hsig Hf]. constructor; simpl; [|done|eauto]. eapply ok_put; [exact Hi | exact Hok | |].
    + intros j Hne. rewrite !count_split, !count_one. destruct (action_other j (RequestResume i) Hne) as (-> & -> & ->). lia.
    + specialize (Hok i). unfold ok_at in Hok. rewrite Hi in Hok. rewrite !count_split, !count_one. revert Hok. op_phases o.
  - eapply event_put_only_inv; eauto. intros r c g w. op_phases o.
Qed.

Lemma event_step_inv l s s' : event_inv s -> event_step l s = Some s' -> event_inv s'.
Proof.
  intros Hinv H. destruct l as [slot| | |i|k|i]; simpl in H.
  - injection H as <-. by apply event_wait_inv.
  - injection H as <-. by apply event_set_inv.
  - injection H as <-. by apply event_reset_inv.
  - by eapply event_advance_inv.
  - destruct (ev_pending s !! k) as [a|] eqn:Hk; [|done]. fold (without k s) in H.
    destruct a; [eapply event_request_inv | eapply event_remove_inv | eapply event_hand_over_inv | eapply event_continue_inv]; eauto.
  - by eapply event_signal_inv.
Qed.

Lemma event_run_inv ls s s' : event_inv s -> event_run ls s = Some s' -> event_inv s'.
Proof.
  revert s. induction ls as [|l ls IH]; intros s Hinv H; simpl in H; [by injection H as <-|].
  destruct (event_step l s) as [t|] eqn:E; [|done]. eapply IH; [|exact H]. by eapply event_step_inv.
Qed.

Lemma new_event_inv b : event_inv (new_event b).
Proof. constructor; simpl; [|done|done]. intros i. unfold ok_at. by rewrite lookup_nil. Qed.

(** ** Theorems *)

(** C25: A suspended coroutine is resumed by something.  After any interleaving of
    waits, [set], [reset], cancellations and the steps of [request_resume]:
    while the event is set, a call of [request_resume] for each suspended
    coroutine or its posted continuation is on its way; while it is not set,
    the coroutine is in the list of waiters, or the same holds. *)
Theorem event_no_lost_wakeup b ls s i o :
  event_run ls (new_event b) = Some s -> ev_ops s !! i = Some o -> eo_phase o = EvSuspended ->
  (exists a, a ∈ ev_pending s /\ action_op a = i) \/ (is_set s = false /\ i ∈ ev_waiters s).
Proof.
  intros Hrun Hi Ep. pose proof (event_run_inv _ _ _ (new_event_inv b) Hrun) as Hinv. pose proof (ei_ok _ Hinv i) as H.
  unfold ok_at in H. rewrite Hi in H. destruct H as [_ H]. rewrite Ep in H. destruct H as (_ & Hc & Hw & _).
  assert (forall f, (forall a, f a = true -> action_op a = i) -> 1 <= count f (ev_pending s) -> exists a, a ∈ ev_pending s /\ action_op a = i) as Hex.
  { intros f Hf Hpos. apply count_pos in Hpos as (a & Ha & Hfa). eauto. }
  assert (forall a, is_request i a = true \/ is_chain i a = true \/ is_continue i a = true -> action_op a = i) as Hact.
  { intros [] Ha; simpl in Ha; rewrite ?Nat.eqb_eq in Ha; simpl; intuition congruence. }
  unfold chain_ok in Hc. destruct (eo_done o).
  - left. destruct Hc as [(Hc & _)|(_ & Hc & _)]; [apply (Hex (is_chain i)) | apply (Hex (is_continue i))]; eauto; lia.
  - specialize (Hw eq_refl). destruct (count (is_request i) (ev_pending s)) eqn:Er; [|left; apply (Hex (is_request i)); eauto; lia].
    right. destruct (count_pos (Nat.eqb i) (ev_waiters s)) as (x & Hx & Heq); [lia|]. apply Nat.eqb_eq in Heq as <-. split; [|done].
    unfold is_set. destruct (ev_signaled s) eqn:Es; [|done]. rewrite (ei_signaled _ Hinv Es) in Hx. by apply not_elem_of_nil in Hx.
Qed.

Lemma event_no_lost_wakeup_witness :
  exists a, a ∈ [RequestResume 0] /\ action_op a = 0.
Proof.
  destruct (event_no_lost_wakeup false [ELWait false; ELAdvance 0; ELAdvance 0; ELAdvance 0; ELSet]
    (mkEvent true [] [mkEvOp EvSuspended false false false false false true] [RequestResume 0] false) 0
    (mkEvOp EvSuspended false false false false false true)) as [H|[H _]]; [reflexivity | reflexivity | reflexivity | exact H | discriminate H].
Defined.

(** Coroutines that wait without a cancellation slot are never resumed while
    they are not suspended, and about each one that is suspended there is
    exactly one thing that can resume it: its place in the list, a call of
    [request_resume], or the posted continuation. *)
Theorem event_resumes_once b ls s :
  event_run ls (new_event b) = Some s -> Forall (fun o => eo_slot o = false) (ev_ops s) ->
  ev_fault s = false /\
  forall i o, ev_ops s !! i = Some o -> eo_phase o = EvSuspended ->
    count (Nat.eqb i) (ev_waiters s) + count (fun a => Nat.eqb i (action_op a)) (ev_pending s) = 1.
Proof.
  intros Hrun Hslot. pose proof (event_run_inv _ _ _ (new_event_inv b) Hrun) as Hinv. split.
  - destruct (ev_fault s) eqn:Ef; [|done]. pose proof (ei_fault _ Hinv Ef) as Hex. apply Exists_exists in Hex as (o & Ho & Ht).
    rewrite Forall_forall in Hslot. specialize (Hslot o Ho). congruence.
  - intros i o Hi Ep. pose proof (ei_ok _ Hinv i) as H. unfold ok_at in H. rewrite Hi in H. destruct H as [_ H]. rewrite Ep in H.
    destruct H as (_ & _ & _ & H). rewrite Forall_forall in Hslot. specialize (H (Hslot o (list_elem_of_lookup_2 _ _ _ Hi))).
    enough (count (fun a => Nat.eqb i (action_op a)) (ev_pending s) =
      count (is_request i) (ev_pending s) + count (is_chain i) (ev_pending s) + count (is_continue i) (ev_pending s)) by lia.
    clear. unfold count. induction (ev_pending s) as [|[j|j|j|j] l IH]; simpl; [done|..]; destruct (Nat.eqb i j); simpl; lia.
Qed.

Lemma event_resumes_once_witness :
  count (Nat.eqb 0) [] + count (fun a => Nat.eqb 0 (action_op a)) [RequestResume 0] = 1.
Proof.
  destruct (event_resumes_once false [ELWait false; ELAdvance 0; ELAdvance 0; ELAdvance 0; ELSet]
    (mkEvent true [] [mkEvOp EvSuspended false false false false false true] [RequestResume 0] false)) as [_ H];
    [reflexivity | by repeat constructor |].
  apply (H 0 (mkEvOp EvSuspended false false false false false true)); reflexivity.
Defined.

(** A cancellation between the handler and the registration, and an event
    that is set before the registration: [await_suspend] does not suspend,
    the coroutine goes on and finishes, and the continuation that the handler
    posted resumes it again. *)
Theorem event_double_resume :
  exists s, event_run [ELWait true; ELAdvance 0; ELAdvance 0; ELSignal 0; ELPerform 0; ELPerform 0; ELPerform 0;
                       ELSet; ELAdvance 0; ELAdvance 0; ELPerform 0] (new_event false) = Some s /\
    ev_fault s = true.
Proof. eexists. split; vm_compute; reflexivity. Qed.
