(* ===== verification/TaskGroup.v ===== *)
(** * TaskGroup (task_group.h)

    A group of child tasks that fail together.  One transition is one
    critical section of [mu] or one call made outside of it: [finish] is the
    critical section ([finish_locked]) and, later, the calls
    [cancel_source.cancel()] and [drained.set()] it has decided on
    ([finish_after]); [wait] is the wait for [drained] and the critical
    section that takes the error.  The task that waits can itself be
    cancelled, at any time: then [drained.wait()] throws.  Whether a spawn can
    come between the two parts of [finish] is a parameter of the run: it
    cannot when everything runs on the thread of the loop.  The theorems:
    [wait] never hangs, on the loop it is released only when no child runs or
    it is cancelled, and the error it reports is the first one; from another
    thread a spawn can leave [drained] set while a child runs. *)

From S2P Require Import Prelude AsyncEvent.

(** ** State *)

(** How a call of [wait] ended: behind [drained.wait()], with the error it
    took; or with the exception of [drained.wait()] ([event_canceled]),
    because the task that waits was cancelled. *)
Inductive wait_outcome := Waited (ep : option exn) | WaitCanceled.
Definition wait_result (o : wait_outcome) : result unit :=
  match o with Waited None => Ok tt | Waited (Some e) => Throw e | WaitCanceled => Throw event_canceled end.

Record TaskGroup := mkTaskGroup {
  tg_pending : nat;
  tg_canceled : bool;               (* [cancel_source] *)
  tg_drained : bool;                (* [drained] *)
  tg_first_error : option exn;
  tg_children : nat;                (* children that have been started and not finished *)
  tg_after : list (bool * bool);    (* [should_cancel], [signal_drained] of calls of [finish] under way *)
  tg_waiting : nat;                 (* coroutines suspended in [drained.wait()] *)
  tg_released : nat;                (* coroutines that leave [drained.wait()], not cancelled *)
  tg_quit : nat;                    (* coroutines that leave it, cancelled *)
  tg_results : list wait_outcome;   (* outcomes of [wait], oldest first *)
  tg_failures : list exn            (* what children have thrown, oldest first *)
}.
Definition new_task_group : TaskGroup := mkTaskGroup 0 false true None 0 [] 0 0 0 [] [].

Definition is_signal_exception (ep : exn) : bool := match ep with SignalException _ => true | _ => false end.

(** [spawn]: its critical section and the start of the child; [None]: it
    returns false. *)
Definition spawn_child (s : TaskGroup) : option TaskGroup :=
  if tg_canceled s then None
  else Some (mkTaskGroup (S (tg_pending s)) (tg_canceled s) (if Nat.eqb (tg_pending s) 0 then false else tg_drained s) (tg_first_error s)
               (S (tg_children s)) (tg_after s) (tg_waiting s) (tg_released s) (tg_quit s) (tg_results s) (tg_failures s)).

(** Whether [finish] records the error. *)
Definition records (ep : option exn) (s : TaskGroup) : bool :=
  match ep, tg_first_error s with
  | Some e, None => negb (tg_canceled s && is_signal_exception e)
  | _, _ => false
  end.

Definition finish_locked (ep : option exn) (s : TaskGroup) : TaskGroup :=
  let should_cancel := records ep s in
  let pending := if Nat.ltb 0 (tg_pending s) then Nat.pred (tg_pending s) else tg_pending s in
  mkTaskGroup pending (tg_canceled s) (tg_drained s) (if should_cancel then ep else tg_first_error s) (Nat.pred (tg_children s))
    (tg_after s ++ [(should_cancel, Nat.eqb pending 0)]) (tg_waiting s) (tg_released s) (tg_quit s) (tg_results s)
    (tg_failures s ++ match ep with Some e => [e] | None => [] end).

Definition tg_cancel (s : TaskGroup) : TaskGroup :=
  mkTaskGroup (tg_pending s) true (tg_drained s) (tg_first_error s) (tg_children s) (tg_after s) (tg_waiting s) (tg_released s)
    (tg_quit s) (tg_results s) (tg_failures s).

(** [drained.set()] releases whoever waits. *)
Definition drained_set (s : TaskGroup) : TaskGroup :=
  mkTaskGroup (tg_pending s) (tg_canceled s) true (tg_first_error s) (tg_children s) (tg_after s) 0 (tg_released s + tg_waiting s)
    (tg_quit s) (tg_results s) (tg_failures s).

Definition set_after (l : list (bool * bool)) (s : TaskGroup) : TaskGroup :=
  mkTaskGroup (tg_pending s) (tg_canceled s) (tg_drained s) (tg_first_error s) (tg_children s) l (tg_waiting s) (tg_released s)
    (tg_quit s) (tg_results s) (tg_failures s).

Definition finish_after (d : bool * bool) (s : TaskGroup) : TaskGroup :=
  let s := if fst d then tg_cancel s else s in
  if snd d then drained_set s else s.

(** [drained.wait()] begins; [canceled]: the task that waits has been
    cancelled, [await_ready] is true and [await_resume] throws. *)
Definition wait_begin (canceled : bool) (s : TaskGroup) : TaskGroup :=
  let ready := tg_drained s in
  mkTaskGroup (tg_pending s) (tg_canceled s) (tg_drained s) (tg_first_error s) (tg_children s) (tg_after s)
    (if canceled || ready then tg_waiting s else S (tg_waiting s)) (if negb canceled && ready then S (tg_released s) else tg_released s)
    (if canceled then S (tg_quit s) else tg_quit s) (tg_results s) (tg_failures s).

(** The task that waits is cancelled: it leaves the event if it is suspended
    there; if the event has released it and it has not run yet, its
    [await_resume] throws all the same. *)
Definition wait_cancel (suspended : bool) (s : TaskGroup) : option TaskGroup :=
  match (if suspended then tg_waiting s else tg_released s) with
  | O => None
  | S n => Some (mkTaskGroup (tg_pending s) (tg_canceled s) (tg_drained s) (tg_first_error s) (tg_children s) (tg_after s)
                   (if suspended then n else tg_waiting s) (if suspended then tg_released s else n)
                   (S (tg_quit s)) (tg_results s) (tg_failures s))
  end.

(** The exchange of [first_error], rethrown if there is one. *)
Definition wait_end (s : TaskGroup) : option TaskGroup :=
  match tg_released s with
  | O => None
  | S n => Some (mkTaskGroup (tg_pending s) (tg_canceled s) (tg_drained s) None (tg_children s) (tg_after s) (tg_waiting s) n
                   (tg_quit s) (tg_results s ++ [Waited (tg_first_error s)]) (tg_failures s))
  end.

(** [await_resume] throws: [first_error] stays where it is. *)
Definition wait_throw (s : TaskGroup) : option TaskGroup :=
  match tg_quit s with
  | O => None
  | S n => Some (mkTaskGroup (tg_pending s) (tg_canceled s) (tg_drained s) (tg_first_error s) (tg_children s) (tg_after s)
                   (tg_waiting s) (tg_released s) n (tg_results s ++ [WaitCanceled]) (tg_failures s))
  end.

Definition pending (s : TaskGroup) : nat := tg_pending s.
Definition tg_empty (s : TaskGroup) : bool := Nat.eqb (pending s) 0.

Inductive tg_label :=
| TSpawn | TFinish (ep : option exn) | TAfter (k : nat) | TCancel
| TWait (canceled : bool) | TWaitCancel (suspended : bool) | TWaitEnd | TWaitThrow.

(** [loop]: [spawn] does not come between the two parts of [finish]. *)
Definition tg_step (loop : bool) (l : tg_label) (s : TaskGroup) : option TaskGroup :=
  match l with
  | TSpawn => if loop && negb (match tg_after s with [] => true | _ => false end) then None else spawn_child s
  | TFinish ep => if Nat.eqb (tg_children s) 0 then None else Some (finish_locked ep s)
  | TAfter k =>
      match tg_after s !! k with
      | Some d => Some (finish_after d (set_after (take k (tg_after s) ++ drop (S k) (tg_after s)) s))
      | None => None
      end
  | TCancel => Some (tg_cancel s)
  | TWait canceled => Some (wait_begin canceled s)
  | TWaitCancel suspended => wait_cancel suspended s
  | TWaitEnd => wait_end s
  | TWaitThrow => wait_throw s
  end.

Fixpoint tg_run (loop : bool) (ls : list tg_label) (s : TaskGroup) : option TaskGroup :=
  match ls with
  | [] => Some s
  | l :: ls => match tg_step loop l s with Some s' => tg_run loop ls s' | None => None end
  end.

(** What [wait] has taken from [first_error], and what is still there. *)
Definition taken_error (o : wait_outcome) : option exn := match o with Waited ep => ep | WaitCanceled => None end.
Definition reported (s : TaskGroup) : list exn := omap taken_error (tg_results s) ++ match tg_first_error s with Some e => [e] | None => [] end.

(** ** Invariants *)

(** With any interleaving. *)
Record tg_inv (s : TaskGroup) : Prop := {
  ti_pending : tg_pending s = tg_children s;
  ti_drained : tg_pending s = 0 -> tg_drained s = true \/ Exists (fun d => snd d = true) (tg_after s);
  ti_waiting : tg_drained s = true -> tg_waiting s = 0
}.

(** On the loop. *)
Record tg_loop_inv (s : TaskGroup) : Prop := {
  tl_drained : tg_drained s = true -> tg_pending s = 0;
  tl_after : Exists (fun d => snd d = true) (tg_after s) -> tg_pending s = 0
}.

(** Every error comes from a child. *)
Definition tg_source_inv (s : TaskGroup) : Prop := forall e, e ∈ reported s -> e ∈ tg_failures s.

(** Nobody cancels a task that waits. *)
Definition waiter_kept (l : tg_label) : Prop := match l with TWait c => c = false | TWaitCancel _ => False | _ => True end.
Definition tg_kept_inv (s : TaskGroup) : Prop := tg_quit s = 0 /\ WaitCanceled ∉ tg_results s.

(** Without calls of [cancel]. *)
Record tg_error_inv (s : TaskGroup) : Prop := {
  te_head : head (reported s) = head (tg_failures s);
  te_canceled : tg_canceled s = true -> tg_failures s <> [];
  te_after : Exists (fun d => fst d = true) (tg_after s) -> tg_failures s <> []
}.

Lemma Exists_remove {A} (P : A -> Prop) l k a :
  l !! k = Some a -> Exists P l <-> P a \/ Exists P (take k l ++ drop (S k) l).
Proof.
  intros H. rewrite <- (take_drop_middle l k a H) at 1. rewrite !Exists_app, Exists_cons. tauto.
Qed.

Ltac tg_cases H :=
  let k := fresh "k" in let d := fresh "d" in
  match type of H with tg_step _ ?l _ = Some _ => destruct l as [|ep|k| |c|b| |] end; simpl in H;
  [ case_match; [done|]; unfold spawn_child in H; case_match; [done|]
  | case_match; [done|]
  | destruct (tg_after _ !! k) as [d|] eqn:?; [|done]
  | | | unfold wait_cancel in H; case_match; [done|] | unfold wait_end in H; case_match; [done|]
  | unfold wait_throw in H; case_match; [done|] ]; injection H as <-.

Lemma tg_step_inv loop l s s' : tg_inv s -> tg_step loop l s = Some s' -> tg_inv s'.
Proof.
  intros [Hp Hd Hw] H. tg_cases H.
  - constructor; simpl; [lia | lia |]. by destruct (Nat.eqb (tg_pending s) 0).
  - apply Nat.eqb_neq in H0. constructor; simpl; [destruct (tg_pending s); simpl; lia | | done]. intros Hz. right. apply Exists_app. right.
    apply Exists_cons. left. simpl. by apply Nat.eqb_eq.
  - destruct d as [c [|]], c; constructor; simpl; auto; intros Hz; destruct (Hd Hz) as [Hdr|Hex]; auto; right;
      apply (Exists_remove _ _ _ _ Heqo) in Hex; naive_solver.
  - by constructor.
  - constructor; simpl; auto. destruct (tg_drained s) eqn:E; [|done]. rewrite orb_true_r. auto.
  - constructor; simpl; auto. intros Hdr. destruct b; [specialize (Hw Hdr); lia | auto].
  - by constructor.
  - by constructor.
Qed.

Lemma tg_step_loop l s s' : tg_inv s -> tg_loop_inv s -> tg_step true l s = Some s' -> tg_loop_inv s'.
Proof.
  intros [Hp Hd Hw] [Hl Ha] H. tg_cases H.
  - destruct (tg_after s) eqn:E; [|done]. constructor; simpl; rewrite ?E.
    + destruct (tg_pending s) eqn:Ep; [done|]. simpl. intros Hdr. specialize (Hl Hdr). lia.
    + by intros Hex%Exists_nil.
  - constructor; simpl; [intros Hdr; rewrite (Hl Hdr); done |].
    rewrite Exists_app, Exists_cons, Exists_nil. simpl. rewrite Nat.eqb_eq. intros [Hex|[Hz|[]]]; [|done]. by rewrite (Ha Hex).
  - pose proof (Exists_remove (fun d => snd d = true) _ _ _ Heqo) as Hex.
    destruct d as [c [|]], c; constructor; simpl in *; naive_solver.
  - by constructor.
  - by constructor.
  - by constructor.
  - by constructor.
  - by constructor.
Qed.

Lemma reported_empty s : reported s = [] -> tg_first_error s = None.
Proof. unfold reported. intros H. apply app_eq_nil in H as [_ H]. by destruct (tg_first_error s). Qed.

Lemma head_nil_iff {A} (l1 l2 : list A) : head l1 = head l2 -> l2 = [] -> l1 = [].
Proof. by destruct l1, l2. Qed.

Lemma head_app {A} (l1 l2 : list A) : l1 <> [] -> head (l1 ++ l2) = head l1.
Proof. by destruct l1. Qed.

(** [finish] keeps the first failure in front. *)
Lemma finish_locked_head ep s : tg_error_inv s -> head (reported (finish_locked ep s)) = head (tg_failures (finish_locked ep s)).
Proof.
  intros [Hh Hc _]. destruct ep as [e|]; [|by unfold reported; simpl; rewrite app_nil_r].
  unfold reported, records. simpl. destruct (tg_failures s) as [|f fs] eqn:Ef.
  - pose proof (head_nil_iff _ _ Hh eq_refl) as Hr. pose proof (reported_empty s Hr) as He. unfold reported in Hr. rewrite He, app_nil_r in Hr.
    rewrite He, Hr. destruct (tg_canceled s); [by destruct (Hc eq_refl)|]. done.
  - assert (reported s <> []) as Hne by (intros E; by rewrite E in Hh). simpl in *. rewrite <- Hh. unfold reported in *.
    destruct (tg_first_error s) as [x|]; [done|]. rewrite app_nil_r in *. by apply head_app.
Qed.

Lemma reported_end s n s' :
  s' = mkTaskGroup (tg_pending s) (tg_canceled s) (tg_drained s) None (tg_children s) (tg_after s) (tg_waiting s) n
         (tg_quit s) (tg_results s ++ [Waited (tg_first_error s)]) (tg_failures s) -> reported s' = reported s.
Proof. intros ->. unfold reported. simpl. rewrite omap_app, app_nil_r. simpl. by destruct (tg_first_error s). Qed.
Lemma reported_throw s n s' :
  s' = mkTaskGroup (tg_pending s) (tg_canceled s) (tg_drained s) (tg_first_error s) (tg_children s) (tg_after s)
         (tg_waiting s) (tg_released s) n (tg_results s ++ [WaitCanceled]) (tg_failures s) -> reported s' = reported s.
Proof. intros ->. unfold reported. simpl. by rewrite omap_app, app_nil_r. Qed.

Lemma tg_step_error loop l s s' : l <> TCancel -> tg_error_inv s -> tg_step loop l s = Some s' -> tg_error_inv s'.
Proof.
  intros Hl Hinv H. pose proof Hinv as [Hh Hc Ha]. tg_cases H.
  - by constructor.
  - constructor; [by apply finish_locked_head | |]; simpl.
    + intros Hcan E. apply app_eq_nil in E as [E _]. by apply (Hc Hcan).
    + rewrite Exists_app, Exists_cons, Exists_nil. simpl. intros [Hex|[Hr|[]]] E; apply app_eq_nil in E as [E E']; [by apply (Ha Hex)|].
      unfold records in Hr. by destruct ep.
  - pose proof (Exists_remove (fun d => fst d = true) _ _ _ Heqo) as Hex.
    destruct d as [[|] c], c; constructor; simpl in *; naive_solver.
  - done.
  - by constructor.
  - by constructor.
  - constructor; simpl; [|done|done]. by rewrite (reported_end s _ _ eq_refl).
  - constructor; simpl; [|done|done]. by rewrite (reported_throw s _ _ eq_refl).
Qed.

Lemma tg_step_source loop l s s' : tg_source_inv s -> tg_step loop l s = Some s' -> tg_source_inv s'.
Proof.
  intros Hs H. tg_cases H; try exact Hs.
  - intros e He. simpl. apply elem_of_app. unfold reported in He. simpl in He. unfold records in He.
    unfold tg_source_inv, reported in Hs. revert He Hs.
    destruct ep as [x|], (tg_first_error s) as [y|]; intros He Hs; try (left; apply Hs; exact He).
    destruct (negb _); [|left; by apply Hs]. rewrite app_nil_r in Hs. apply elem_of_app in He as [He|He]; [left; by apply Hs | by right].
  - destruct d as [[|] [|]]; exact Hs.
  - unfold tg_source_inv. simpl. by rewrite (reported_end s _ _ eq_refl).
  - unfold tg_source_inv. simpl. by rewrite (reported_throw s _ _ eq_refl).
Qed.

Lemma tg_step_kept loop l s s' : waiter_kept l -> tg_kept_inv s -> tg_step loop l s = Some s' -> tg_kept_inv s'.
Proof.
  intros Hl [Hq Hr] H. tg_cases H; simpl in Hl; try done.
  - destruct d as [[|] [|]]; by split.
  - subst c. done.
  - split; simpl; [done|]. rewrite elem_of_app, list_elem_of_singleton. by intros [?|?].
Qed.

Lemma tg_run_ind (P : TaskGroup -> Prop) (ok : tg_label -> Prop) loop ls s s' :
  (forall l t t', ok l -> P t -> tg_step loop l t = Some t' -> P t') -> Forall ok ls -> P s -> tg_run loop ls s = Some s' -> P s'.
Proof.
  intros Hstep Hok. revert s. induction Hok as [|l ls Hl Hok IH]; intros s Hs H; simpl in H; [by injection H as <-|].
  destruct (tg_step loop l s) as [t|] eqn:E; [|done]. eauto.
Qed.

Lemma tg_run_inv loop ls s : tg_run loop ls new_task_group = Some s -> tg_inv s.
Proof.
  apply (tg_run_ind tg_inv (fun _ => True)); [intros ?????; by apply tg_step_inv | by apply Forall_true |].
  constructor; simpl; auto.
Qed.

Lemma tg_run_loop_inv ls s : tg_run true ls new_task_group = Some s -> tg_inv s /\ tg_loop_inv s.
Proof.
  apply (tg_run_ind (fun s => tg_inv s /\ tg_loop_inv s) (fun _ => True)); [|by apply Forall_true|].
  - intros ??? _ [??] ?. split; [by eapply tg_step_inv | by eapply tg_step_loop].
  - split; constructor; simpl; auto.
Qed.

Lemma tg_run_snoc loop ls l s t s' : tg_run loop ls s = Some t -> tg_step loop l t = Some s' -> tg_run loop (ls ++ [l]) s = Some s'.
Proof.
  revert s. induction ls as [|k ls IH]; intros s; simpl; [intros [= ->] H; by rewrite H|]. destruct (tg_step loop k s); [apply IH | done].
Qed.

(** ** Theorems *)

(** [wait] never hangs: with any interleaving of threads, once no child is
    left, no coroutine is suspended in [wait], or a call of [finish] that
    releases it is under way; and as long as one is suspended, a child or
    such a call is there. *)
Theorem task_group_wait_released loop ls s :
  tg_run loop ls new_task_group = Some s ->
  pending s = tg_children s /\
  (tg_waiting s <> 0 -> tg_children s <> 0 \/ Exists (fun d => snd d = true) (tg_after s)).
Proof.
  intros Hrun. destruct (tg_run_inv _ _ _ Hrun) as [Hp Hd Hw]. split; [done|]. intros Hne.
  destruct (tg_children s) eqn:Ec; [|by left]. right. destruct (Hd Hp) as [Hdr|]; [|done]. by destruct Hne, (Hw Hdr).
Qed.

Lemma task_group_wait_released_witness :
  exists s, tg_run false [TSpawn; TWait false; TFinish None] new_task_group = Some s /\
    (tg_waiting s <> 0 -> tg_children s <> 0 \/ Exists (fun d => snd d = true) (tg_after s)).
Proof.
  eexists. split; [reflexivity|]. exact (proj2 (task_group_wait_released false [TSpawn; TWait false; TFinish None] _ eq_refl)).
Defined.

(** On the loop, [drained] is set only while no child runs, and a coroutine
    gets behind [drained.wait()] only in such a state: the step that releases
    it ends with no child left. *)
Theorem task_group_waits_for_all ls l s s' :
  tg_run true ls new_task_group = Some s -> tg_step true l s = Some s' ->
  (tg_drained s' = true -> tg_children s' = 0) /\ (tg_released s < tg_released s' -> tg_children s' = 0).
Proof.
  intros Hrun Hstep.
  destruct (tg_run_loop_inv _ _ Hrun) as [Hi Hl].
  pose proof (tg_step_inv _ _ _ _ Hi Hstep) as [Hp _ _]. pose proof (tg_step_loop _ _ _ Hi Hl Hstep) as [Hd _].
  split; [intros H; rewrite <- Hp; auto|]. intros Hrel. rewrite <- Hp. apply Hd. revert Hrel. clear Hp Hd.
  tg_cases Hstep; simpl; try lia.
  - destruct d as [[|] [|]]; simpl; done || lia.
  - destruct (tg_drained s), c; done || (simpl; lia).
  - destruct b; lia.
Qed.

Lemma task_group_waits_for_all_witness :
  exists s s', tg_run true [TSpawn; TWait false; TFinish None] new_task_group = Some s /\ tg_step true (TAfter 0) s = Some s' /\
    tg_released s < tg_released s' /\ tg_children s' = 0.
Proof.
  eexists _, _. split; [reflexivity|]. split; [reflexivity|]. split; [simpl; lia|].
  apply (proj2 (task_group_waits_for_all [TSpawn; TWait false; TFinish None] (TAfter 0) _ _ eq_refl eq_refl)). simpl. lia.
Defined.

(** C26: The first error wins: as long as nobody calls [cancel] on the group,
    the first error that [wait] takes, or that is there to be taken, is
    exactly what the first failing child threw, and the group is not canceled
    unless a child failed.  A call of [wait] returns, throws what a child
    threw, or throws the exception of its own cancellation; the last only if
    a task that waits was cancelled, and then the error stays for the next
    [wait]. *)
Theorem task_group_first_error loop ls s :
  tg_run loop ls new_task_group = Some s ->
  (Forall (fun l => l <> TCancel) ls ->
     head (reported s) = head (tg_failures s) /\ (tg_canceled s = true -> tg_failures s <> [])) /\
  (forall o e, o ∈ tg_results s -> wait_result o = Throw e -> e ∈ tg_failures s \/ (o = WaitCanceled /\ e = event_canceled)) /\
  (Forall waiter_kept ls -> WaitCanceled ∉ tg_results s) /\
  (forall s', tg_step loop TWaitThrow s = Some s' -> tg_first_error s' = tg_first_error s /\ tg_results s' = tg_results s ++ [WaitCanceled]).
Proof.
  intros Hrun. split_and!.
  - intros Hok. assert (tg_error_inv s) as [Hh Hc _]; [|done].
    revert Hrun. apply (tg_run_ind tg_error_inv (fun l => l <> TCancel)); [intros ?????; by apply tg_step_error | done |].
    constructor; simpl; [done | done |]. by intros ?%Exists_nil.
  - assert (tg_source_inv s) as Hs.
    { revert Hrun. apply (tg_run_ind tg_source_inv (fun _ => True)); [intros l t t' _; apply tg_step_source | by apply Forall_true | by intros e He]. }
    intros o e Ho He. destruct o as [[x|]|]; [injection He as -> | done | injection He as <-; by right]. left. apply Hs. unfold reported.
    apply elem_of_app. left. apply list_elem_of_omap. by exists (Waited (Some e)).
  - intros Hok. assert (tg_kept_inv s) as [_ Hk]; [|done].
    revert Hrun. apply (tg_run_ind tg_kept_inv waiter_kept); [intros l t t'; apply tg_step_kept | done |]. split; [done|]. by intros ?%elem_of_nil.
  - intros s'. simpl. unfold wait_throw. destruct (tg_quit s); [done|]. by intros [= <-].
Qed.

Lemma task_group_first_error_witness :
  exists s, tg_run true [TSpawn; TSpawn; TFinish (Some TimeoutError); TAfter 0; TWait false; TWaitCancel true; TFinish (Some (SignalException []));
                         TAfter 0; TWaitThrow; TWait false; TWaitEnd] new_task_group = Some s /\
    tg_results s = [WaitCanceled; Waited (Some TimeoutError)] /\ head (reported s) = head (tg_failures s).
Proof.
  exists (mkTaskGroup 0 true true None 0 [] 0 0 0 [WaitCanceled; Waited (Some TimeoutError)] [TimeoutError; SignalException []]).
  split; [vm_compute; reflexivity|]. split; [reflexivity|].
  refine (proj1 (proj1 (task_group_first_error true [TSpawn; TSpawn; TFinish (Some TimeoutError); TAfter 0; TWait false; TWaitCancel true;
    TFinish (Some (SignalException [])); TAfter 0; TWaitThrow; TWait false; TWaitEnd] _ _) _)); [vm_compute; reflexivity | repeat constructor; discriminate].
Defined.

(** From another thread a spawn can come between the critical section of
    [finish] and [drained.set()]: the event is then set while the new child
    runs, and [wait] returns although the group is not empty. *)
Theorem task_group_spawn_race :
  exists s, tg_run false [TSpawn; TFinish None; TSpawn; TAfter 0; TWait false; TWaitEnd] new_task_group = Some s /\
    tg_results s = [Waited None] /\ tg_children s = 1 /\ tg_drained s = true.
Proof. eexists. split; [reflexivity|]. done. Qed.
