(* ===== verification/HttpServer.v ===== *)
(** * The servers (http.cpp, https.cpp)

    [Server::serve] accepts connections and gives each to [handle_client] in
    a task of a [TaskGroup]; [close], from any task, closes the listener.
    The model composes [TaskGroup.v] with the accept loop: one step is the
    outcome of an accept, a step of a connection's task, the end of the wait
    for the group, [close], or the cancellation of the task that runs [serve],
    on whose slot a handler closes the listener.  Everything runs on the
    thread of the loop.
    The HTTPS server differs in [handle_client], which performs the TLS
    handshake first, and in the text of one error; its client performs the
    handshake in [connect].

    The theorems: unless it is cancelled, [serve] returns only when every
    connection it accepted has been finished; a cancelled one throws at once,
    and leaves them behind; if no connection's task fails, a server that is
    closed cancels nobody and returns.  One failing task, however, takes the whole
    server down: a connection that is reset while a request is read, or, with
    HTTPS, a handshake that fails, is such a failure. *)

From S2P Require Import Prelude CxxString HttpHeaders HttpForm HttpUrl Stream HttpBody HttpConnection HttpExchange NetWait AsyncEvent TaskGroup Transport.

(** ** [Server::serve] *)

Inductive serve_phase :=
| Accepting                    (* suspended in [_listener->accept()] *)
| Draining                     (* in [connections.wait()] *)
| Served (r : result unit).

Record Server := mkServer {
  sv_open : bool;              (* the listener is open *)
  sv_group : TaskGroup;        (* [connections] *)
  sv_failure : option exn;
  sv_phase : serve_phase;
  sv_canceled : bool           (* the task that runs [serve] has been cancelled *)
}.
(** [serve] has a listener and a group; [canceled]: its task had been
    cancelled before, so that [tryEmplace] did not install the handler. *)
Definition new_server (canceled : bool) : Server := mkServer true new_task_group None Accepting canceled.

Definition set_group (g : TaskGroup) (s : Server) : Server := mkServer (sv_open s) g (sv_failure s) (sv_phase s) (sv_canceled s).

(** [std::logic_error] and the exceptions derived from it. *)
Definition is_logic_error (e : exn) : bool :=
  match e with LogicError _ | InvalidArgument _ | OutOfRange _ => true | _ => false end.

(** The end of the accept loop: [connections.wait()] starts. *)
Definition serve_break (s : Server) : Server := 
  mkServer (sv_open s) (wait_begin (sv_canceled s) (sv_group s)) (sv_failure s) Draining (sv_canceled s).
(** [failure = std::current_exception(); connections.cancel(); break;] *)
Definition serve_fail (e : exn) (s : Server) : Server :=
  serve_break (mkServer (sv_open s) (tg_cancel (sv_group s)) (Some e) (sv_phase s) (sv_canceled s)).
(** The test of the [while]. *)
Definition serve_next (s : Server) : Server := if sv_open s then s else serve_break s.

Definition server_close (s : Server) : Server := mkServer false (sv_group s) (sv_failure s) (sv_phase s) (sv_canceled s).

(** The outcome of an accept: a connection, or an exception. *)
Definition serve_accept (spawn_failed : exn) (r : option exn) (s : Server) : Server :=
  match r with
  | None =>
      match spawn_child (sv_group s) with
      | Some g => serve_next (set_group g s)
      | None => serve_fail spawn_failed s
      end
  | Some (SignalException _) =>
      let s := server_close s in serve_break (set_group (tg_cancel (sv_group s)) s)
  | Some e =>
      if is_logic_error e && negb (sv_open s) then serve_break s else serve_fail e s
  end.

(** The task that runs [serve] is cancelled.  Until the loop is left the
    handler on its slot is the one that closes the listener; [connections.wait()]
    installs another one when it suspends ([kept]: both are called). *)
Definition serve_cancel (kept : bool) (s : Server) : option Server :=
  let canceled o g := Some (mkServer o g (sv_failure s) (sv_phase s) true) in
  if sv_canceled s then None
  else match sv_phase s with
       | Accepting => canceled false (sv_group s)
       | Draining =>
           match wait_cancel true (sv_group s), wait_cancel false (sv_group s) with
           | Some g, _ => canceled (if kept then false else sv_open s) g
           | None, Some g => canceled false g
           | None, None => None
           end
       | Served _ => None
       end.

(** [connections.wait()] returns or throws; [serve] ends, and with it the
    group, whose destructor cancels it. *)
Definition serve_end (o : wait_outcome) (g : TaskGroup) (s : Server) : Server :=
  let failure := match sv_failure s with
                 | Some e => Some e
                 | None => match wait_result o with Throw e => Some e | _ => None end
                 end in
  mkServer (sv_open s) (tg_cancel g) failure (Served (match failure with Some e => Throw e | None => Ok tt end)) (sv_canceled s).
Definition serve_finish (s : Server) : option Server :=
  match wait_throw (sv_group s), wait_end (sv_group s) with
  | Some g, _ => Some (serve_end WaitCanceled g s)
  | None, Some g => Some (serve_end (Waited (tg_first_error (sv_group s))) g s)
  | None, None => None
  end.

Definition http_spawn_failed : exn := RuntimeError "corouv::http::Server spawn failed"%bs.
Definition https_spawn_failed : exn := RuntimeError "corouv::https::Server spawn failed"%bs.

Inductive serve_label :=
| SvAccept (r : option exn)
| SvChild (ep : option exn)    (* a connection's task ends: [TaskGroup::finish], both parts *)
| SvClose
| SvCancel (kept : bool)
| SvFinish.

Definition serve_step (spawn_failed : exn) (l : serve_label) (s : Server) : option Server :=
  match l with
  | SvAccept r => match sv_phase s with Accepting => Some (serve_accept spawn_failed r s) | _ => None end
  | SvChild ep => (fun g => set_group g s) <$> tg_run true [TFinish ep; TAfter 0] (sv_group s)
  | SvClose => Some (server_close s)
  | SvCancel kept => serve_cancel kept s
  | SvFinish => match sv_phase s with Draining => serve_finish s | _ => None end
  end.

(** [https::Server::serve]: the same loop, with its own error. *)
Definition https_serve_step (l : serve_label) (s : Server) : option Server := serve_step https_spawn_failed l s.
Fixpoint serve_run (spawn_failed : exn) (ls : list serve_label) (s : Server) : option Server :=
  match ls with
  | [] => Some s
  | l :: ls => match serve_step spawn_failed l s with Some s' => serve_run spawn_failed ls s' | None => None end
  end.

(** ** Invariants *)

(** How many of the calls of [wait], of which there is one at most, are in
    which state. *)
Definition waits (g : TaskGroup) : nat * nat * nat := (tg_waiting g, tg_released g, tg_quit g).

Record serve_inv (s : Server) : Prop := {
  si_group : exists ls, tg_run true ls new_task_group = Some (sv_group s);
  si_after : tg_after (sv_group s) = [];
  si_phase : match sv_phase s with
             | Accepting => waits (sv_group s) = (0, 0, 0)
             | Draining =>
                 if sv_canceled s then waits (sv_group s) = (0, 0, 1)
                 else waits (sv_group s) = (1, 0, 0) \/ (waits (sv_group s) = (0, 1, 0) /\ tg_children (sv_group s) = 0)
             | Served r => tg_children (sv_group s) = 0 \/ (sv_canceled s = true /\ exists e, r = Throw e)
             end
}.

(** The group, with everything its invariants say on the loop. *)
Lemma serve_group s : serve_inv s -> tg_inv (sv_group s) /\ tg_loop_inv (sv_group s).
Proof. intros [[ls H] _ _]. by eapply tg_run_loop_inv. Qed.

Lemma group_step s l g : serve_inv s -> tg_step true l (sv_group s) = Some g -> exists ls, tg_run true ls new_task_group = Some g.
Proof. intros [[ls H] _ _] Hg. exists (ls ++ [l]). by eapply tg_run_snoc. Qed.

(** The state in which the accept loop is left. *)
Lemma serve_break_inv s : serve_inv s -> sv_phase s = Accepting -> serve_inv (serve_break s).
Proof.
  intros Hs Hp. destruct (serve_group s Hs) as [[G1 _ _] [G2 _]]. destruct Hs as [Hg Ha Hph]. rewrite Hp in Hph.
  injection Hph as Hw Hr Hq. constructor; simpl; [|done|].
  - destruct Hg as [ls Hls]. exists (ls ++ [TWait (sv_canceled s)]). by eapply tg_run_snoc.
  - unfold waits. simpl. rewrite Hw, Hr, Hq. destruct (sv_canceled s); [done|].
    destruct (tg_drained (sv_group s)) eqn:Ed; [right | by left]. split; [done|]. rewrite <- G1. auto.
Qed.

Lemma serve_cancel_group_inv s f o : serve_inv s -> serve_inv (mkServer o (tg_cancel (sv_group s)) f (sv_phase s) (sv_canceled s)).
Proof.
  intros Hs. pose proof (group_step s TCancel _ Hs eq_refl) as Hg. destruct Hs as [_ Ha Hph]. constructor; [done | done|]. simpl. by destruct (sv_phase s).
Qed.

Lemma serve_cancel_inv kept s s' : serve_inv s -> serve_cancel kept s = Some s' -> serve_inv s'.
Proof.
  intros Hs. pose proof (si_phase _ Hs) as Hph. unfold serve_cancel. destruct (sv_canceled s) eqn:Ec; [done|].
  destruct (sv_phase s) eqn:Ep; [| |done].
  - intros [= <-]. destruct Hs as [Hg Ha _]. by constructor.
  - assert (forall b g o, wait_cancel b (sv_group s) = Some g -> serve_inv (mkServer o g (sv_failure s) Draining true)) as Hc.
    { intros b g o E. pose proof (group_step s (TWaitCancel b) g Hs E) as Hg. unfold wait_cancel in E. unfold waits in Hph.
      destruct b; case_match; try done; injection E as <-; (constructor; simpl; [done | apply Hs |]); unfold waits; simpl;
        destruct Hph as [[= ???]|[[= ???] _]]; congruence. }
    destruct (wait_cancel true (sv_group s)) as [g|] eqn:E1; [intros [= <-]; by eapply Hc|].
    destruct (wait_cancel false (sv_group s)) as [g|] eqn:E2; [intros [= <-]; by eapply Hc | done].
Qed.

(** [TaskGroup::finish] in one go. *)
Definition finish_group (ep : option exn) (g : TaskGroup) : TaskGroup :=
  let g1 := finish_locked ep g in
  finish_after (records ep g, Nat.eqb (tg_pending g1) 0) (set_after [] g1).

Lemma finish_group_run ep g g' :
  tg_after g = [] -> tg_run true [TFinish ep; TAfter 0] g = Some g' <-> tg_children g <> 0 /\ g' = finish_group ep g.
Proof.
  intros Ha. cbn [tg_run tg_step]. destruct (Nat.eqb_spec (tg_children g) 0) as [E|E]; [by split; [|intros [? _]]|].
  assert (tg_after (finish_locked ep g) = [(records ep g, Nat.eqb (tg_pending (finish_locked ep g)) 0)]) as -> by (simpl; by rewrite Ha).
  cbn. split; [intros [= <-]; done | intros [_ ->]; done].
Qed.

Lemma serve_child_inv ep s g : serve_inv s -> tg_run true [TFinish ep; TAfter 0] (sv_group s) = Some g -> serve_inv (set_group g s).
Proof.
  intros Hs Hrun. destruct (serve_group s Hs) as [[G1 _ _] _]. destruct Hs as [[ls Hls] Ha Hph].
  assert (exists ls, tg_run true ls new_task_group = Some g) as Hg.
  { cbn [tg_run] in Hrun. destruct (tg_step true (TFinish ep) (sv_group s)) as [g1|] eqn:E1; [|done].
    destruct (tg_step true (TAfter 0) g1) as [g2|] eqn:E2; [|done]. injection Hrun as <-. exists ((ls ++ [TFinish ep]) ++ [TAfter 0]).
    eapply tg_run_snoc; [eapply tg_run_snoc|]; done. }
  apply finish_group_run in Hrun as [Hc ->]; [|done].
  assert (Nat.ltb 0 (tg_pending (sv_group s)) = true) as Hpos by (apply Nat.ltb_lt; lia).
  constructor; [exact Hg | |]; unfold finish_group, finish_after, finish_locked; simpl; rewrite Hpos, G1.
  - by destruct (records ep _), (Nat.eqb _ 0).
  - unfold waits in *. destruct (sv_phase s), (sv_canceled s), (records ep _); destruct (Nat.eqb_spec (Nat.pred (tg_children (sv_group s))) 0);
      simpl; try exact Hph; repeat match goal with H : _ \/ _ |- _ => destruct H | H : _ /\ _ |- _ => destruct H | H : (_, _, _) = _ |- _ => injection H as H1 H2 H3; rewrite ?H1, ?H2, ?H3 end; auto; lia.
Qed.

Lemma serve_finish_inv s s' : serve_inv s -> sv_phase s = Draining -> serve_finish s = Some s' -> serve_inv s'.
Proof.
  intros Hs Ep. pose proof (si_phase _ Hs) as Hph. rewrite Ep in Hph. unfold serve_finish, waits in *.
  assert (forall l g o, tg_step true l (sv_group s) = Some g -> tg_after g = [] -> tg_children g = tg_children (sv_group s) ->
    (tg_children (sv_group s) = 0 \/ (sv_canceled s = true /\ o = WaitCanceled)) -> serve_inv (serve_end o g s)) as Hend.
  { intros l g o Hl Ha Hc Ho. pose proof (group_step s l g Hs Hl) as [ls Hls]. constructor; simpl; [|done|].
    - exists (ls ++ [TCancel]). by eapply tg_run_snoc.
    - rewrite Hc. destruct Ho as [?|[? ->]]; [by left|]. right. split; [done|]. destruct (sv_failure s); eauto. }
  destruct (wait_throw (sv_group s)) as [g|] eqn:E1; [intros [= <-] | destruct (wait_end (sv_group s)) as [g|] eqn:E2; [intros [= <-] | done]].
  - apply (Hend TWaitThrow); [done | | |]; unfold wait_throw in E1; destruct (tg_quit (sv_group s)); try done; injection E1 as <-;
      [apply Hs | done |]. right. destruct (sv_canceled s); [done|]. by destruct Hph as [[=]|[[=] _]].
  - apply (Hend TWaitEnd); [done | | |]; unfold wait_end in E2; destruct (tg_released (sv_group s)); try done; injection E2 as <-;
      [apply Hs | done |]. left. destruct (sv_canceled s); [done|]. by destruct Hph as [[=]|[[=] ?]].
Qed.

Lemma serve_step_inv sf l s s' : serve_inv s -> serve_step sf l s = Some s' -> serve_inv s'.
Proof.
  intros Hs. destruct l as [r|ep| |kept|]; simpl.
  - destruct (sv_phase s) eqn:Ep; [|done|done]. intros [= <-]. unfold serve_accept.
    assert (forall e, serve_inv (serve_fail e s)) as Hfail by (intros e; apply serve_break_inv; [by apply serve_cancel_group_inv | done]).
    destruct r as [e|].
    + assert (serve_inv (if is_logic_error e && negb (sv_open s) then serve_break s else serve_fail e s)) as Hother
        by (destruct (_ && _); [by apply serve_break_inv | done]).
      destruct e; try done. apply serve_break_inv; [by apply (serve_cancel_group_inv s (sv_failure s) false) | done].
    + destruct (spawn_child (sv_group s)) as [g|] eqn:Eg; [|done].
      assert (serve_inv (set_group g s)) as Hg.
      { pose proof (group_step s TSpawn g Hs) as Hg. simpl in Hg. rewrite (si_after _ Hs) in Hg. specialize (Hg Eg).
        pose proof (si_phase _ Hs) as Hph. rewrite Ep in Hph. unfold spawn_child in Eg. destruct (tg_canceled _); [done|]. injection Eg as <-.
        constructor; [done | apply Hs|]. simpl. by rewrite Ep. }
      unfold serve_next. destruct (sv_open _); [done | by apply serve_break_inv].
  - intros Hf. apply fmap_Some in Hf as (g & Hg & ->). by eapply serve_child_inv.
  - intros [= <-]. by destruct Hs as [Hg Ha Hph].
  - by apply serve_cancel_inv.
  - destruct (sv_phase s) eqn:Ep; [done| |done]. by apply serve_finish_inv.
Qed.

Lemma new_server_inv canceled : serve_inv (new_server canceled).
Proof. constructor; simpl; [by exists [] | done | done]. Qed.

Lemma serve_run_ind (P : Server -> Prop) sf ls s s' :
  (forall l t t', P t -> serve_step sf l t = Some t' -> P t') -> P s -> serve_run sf ls s = Some s' -> P s'.
Proof.
  intros Hstep. revert s. induction ls as [|l ls IH]; intros s Hs H; simpl in H; [by injection H as <-|].
  destruct (serve_step sf l s) as [t|] eqn:E; [|done]. eauto.
Qed.

Lemma serve_run_inv sf canceled ls s : serve_run sf ls (new_server canceled) = Some s -> serve_inv s.
Proof. apply serve_run_ind; [intros l t t'; apply serve_step_inv | apply new_server_inv]. Qed.

(** Only a cancellation cancels. *)
Lemma serve_run_canceled sf canceled ls s :
  serve_run sf ls (new_server canceled) = Some s ->
  sv_canceled s = canceled || existsb (fun l => match l with SvCancel _ => true | _ => false end) ls.
Proof.
  change canceled with (sv_canceled (new_server canceled)) at 2. generalize (new_server canceled).
  induction ls as [|l ls IH]; intros t; simpl; [intros [= <-]; by rewrite orb_false_r|].
  destruct (serve_step sf l t) as [t'|] eqn:E; [|done]. intros ->%IH. rewrite orb_assoc. f_equal.
  destruct l as [r|ep| |kept|]; simpl in E; rewrite ?orb_false_r, ?orb_true_r.
  - destruct (sv_phase t); try done. injection E as <-. unfold serve_accept, serve_next.
    destruct r as [e|]; [destruct e; simpl; try case_match; done | destruct (spawn_child _); simpl; [by destruct (sv_open t) | done]].
  - apply fmap_Some in E as (g & _ & ->). done.
  - by injection E as <-.
  - unfold serve_cancel in E. repeat case_match; by simplify_eq.
  - unfold serve_finish in E. repeat case_match; by simplify_eq.
Qed.

(** No connection's task fails, accept throws only because the listener was
    closed, and nobody cancels [serve]. *)
Definition clean_step (l : serve_label) (s : Server) : Prop :=
  match l with
  | SvAccept (Some e) => is_logic_error e = true /\ sv_open s = false
  | SvChild ep => ep = None
  | SvCancel _ => False
  | _ => True
  end.
Fixpoint clean_run (sf : exn) (ls : list serve_label) (s : Server) : Prop :=
  match ls with
  | [] => True
  | l :: ls => clean_step l s /\ match serve_step sf l s with Some s' => clean_run sf ls s' | None => True end
  end.

Record clean_inv (s : Server) : Prop := {
  ci_task : sv_canceled s = false;
  ci_error : tg_first_error (sv_group s) = None;
  ci_failure : sv_failure s = None;
  ci_phase : match sv_phase s with Served r => r = Ok tt | _ => tg_canceled (sv_group s) = false end
}.

Lemma clean_step_inv sf l s s' : serve_inv s -> clean_step l s -> clean_inv s -> serve_step sf l s = Some s' -> clean_inv s'.
Proof.
  intros Hs Hl [C1 C2 C3 C4]. destruct l as [r|ep| |kept|]; simpl in *.
  - destruct (sv_phase s) eqn:Ep; [|done|done]. intros [= <-]. unfold serve_accept. destruct r as [e|].
    + destruct Hl as [He Ho]. assert (clean_inv (serve_break s)) as Hb by by constructor.
      rewrite He, Ho. simpl. by destruct e.
    + unfold spawn_child. rewrite C4. unfold serve_next. simpl. destruct (sv_open s); constructor; simpl; try done. by rewrite Ep.
  - subst ep. intros Hf. apply fmap_Some in Hf as (g & Hg & ->). apply finish_group_run in Hg as [_ ->]; [|apply Hs].
    unfold finish_group, finish_after. simpl. destruct (Nat.eqb _ 0); constructor; simpl; done.
  - by intros [= <-].
  - done.
  - pose proof (si_phase _ Hs) as Hph. destruct (sv_phase s); [done| |done]. rewrite C1 in Hph. unfold serve_finish, wait_throw, wait_end, waits in *.
    destruct (tg_quit _); [|by destruct Hph as [[=]|[[=] _]]]. destruct (tg_released _); [done|]. intros [= <-].
    constructor; simpl; rewrite ?C2, ?C3; done.
Qed.

(** ** Theorems *)



(** A cancelled [serve] does not wait: the handler closes the listener, the
    accept throws, and so does [connections.wait()], because the slot has been
    cancelled.  The connection is told to stop, but it still runs when
    [serve] has ended, and its task uses the server object. *)
Theorem serve_canceled_leaves_connections :
  exists s, serve_run http_spawn_failed [SvAccept None; SvCancel true; SvAccept (Some (LogicError [])); SvFinish] (new_server false) = Some s /\
    sv_phase s = Served (Throw event_canceled) /\ tg_children (sv_group s) = 1 /\ tg_canceled (sv_group s) = true.
Proof. eexists. split; [vm_compute; reflexivity|]. done. Qed.

(** A graceful stop: as long as no connection's task fails and nobody cancels
    [serve], no connection is cancelled, every accept is answered with a task,
    and when the server is closed [serve] returns without an error. *)
Theorem serve_graceful sf ls s :
  serve_run sf ls (new_server false) = Some s -> clean_run sf ls (new_server false) ->
  sv_failure s = None /\
  match sv_phase s with
  | Served r => r = Ok tt /\ tg_children (sv_group s) = 0
  | _ => tg_canceled (sv_group s) = false
  end.
Proof.
  assert (clean_inv (new_server false)) as H0 by by constructor. pose proof (new_server_inv false) as Hi. revert H0 Hi. generalize (new_server false).
  induction ls as [|l ls IH]; intros t Ht Hi Hrun Hc; simpl in *.
  - injection Hrun as <-. destruct Ht as [C1 C2 C3 C4], Hi as [_ _ Hph]. split; [done|]. destruct (sv_phase t); [done | done |].
    split; [done|]. destruct Hph as [?|[? _]]; congruence.
  - destruct (serve_step sf l t) as [t'|] eqn:E; [|done]. destruct Hc as [Hl Hc].
    apply (IH t'); [by eapply clean_step_inv | by eapply serve_step_inv | done | done].
Qed.

Lemma serve_graceful_witness :
  exists s, serve_run http_spawn_failed [SvAccept None; SvClose; SvAccept (Some (LogicError [])); SvChild None; SvFinish] (new_server false) = Some s /\
    sv_phase s = Served (Ok tt) /\ sv_failure s = None.
Proof.
  exists (mkServer false (mkTaskGroup 0 true true None 0 [] 0 0 0 [Waited None] []) None (Served (Ok tt)) false).
  split; [vm_compute; reflexivity|]. split; [reflexivity|].
  apply (serve_graceful http_spawn_failed [SvAccept None; SvClose; SvAccept (Some (LogicError [])); SvChild None; SvFinish]); [vm_compute; reflexivity|].
  simpl. by repeat split.
Defined.

(** One connection whose task fails takes the server down: it cancels all the
    others, and the next connection ends [serve] with an error. *)
Theorem serve_one_failure_stops_all sf s e :
  sv_phase s = Accepting -> tg_after (sv_group s) = [] -> tg_children (sv_group s) <> 0 ->
  tg_canceled (sv_group s) = false -> tg_first_error (sv_group s) = None ->
  exists s1 s2, serve_step sf (SvChild (Some e)) s = Some s1 /\ tg_canceled (sv_group s1) = true /\
    serve_step sf (SvAccept None) s1 = Some s2 /\ sv_phase s2 = Draining /\ sv_failure s2 = Some sf.
Proof.
  intros Hp Ha Hc Hcan Herr. exists (set_group (finish_group (Some e) (sv_group s)) s).
  assert (tg_canceled (finish_group (Some e) (sv_group s)) = true) as Hcan'.
  { unfold finish_group, finish_after, records. rewrite Herr, Hcan. simpl. by destruct (Nat.eqb _ 0). }
  eexists. split_and!; [| exact Hcan' | | |].
  - unfold serve_step. rewrite (proj2 (finish_group_run (Some e) (sv_group s) (finish_group (Some e) (sv_group s)) Ha)); [reflexivity|]. by split.
  - unfold serve_step. simpl. rewrite Hp. unfold serve_accept, spawn_child. simpl. rewrite Hcan'. reflexivity.
  - done.
  - done.
Qed.

(** ** HTTPS *)

Section Https.
Context {S C : Type} `{ByteStream S} `{StreamEnv S} `{MemoryCodec C} `{PhrParser}.
Variable limits : Limits.
Variable timeouts : IoTimeouts.

(** [http::Connection] runs over a [CodecStream]; [fuel] bounds the loops of
    each operation. *)
Definition codec_bytes (fuel : nat) : ByteStream (CodecStream S C) := {|
  bs_is_open := codec_is_open;
  bs_recv_some := codec_read_some fuel fuel;
  bs_send_all := codec_write_all fuel fuel;
  bs_close := codec_close;
  bs_recv_expires d s := bs_recv_expires d (cs_stream s);
  bs_send_expires d s := bs_send_expires d (cs_stream s)
|}.

(** [https::Server::handle_client]; [make_codec]: [make_bearssl_server_codec]. *)
Definition https_handle_client {K} (handler : Request -> K -> result Response * K) (fuel : nat) (make_codec : result C) (t : S) (k : K) : result unit * K :=
  match make_codec with
  | Throw e => (Throw e, k)
  | OutOfFuel => (OutOfFuel, k)
  | Ok c =>
      match handshake_server fuel fuel (new_codec_stream t c) with
      | (Ok _, s) =>
          let '(r, cn) := handle_client (H := codec_bytes fuel) limits timeouts handler fuel (mkConn s [] 0%Z None k) in (r, c_env cn)
      | (Throw e, _) => (Throw e, k)
      | (OutOfFuel, _) => (OutOfFuel, k)
      end
  end.

Definition https_format_host_header (host : bytes) (port : Z) : bytes :=
  let bracket := bool_decide (find_char ":"%char host <> None) in
  if (port =? 443)%Z then (if bracket then "["%bs ++ host ++ "]"%bs else host)
  else endpoint_to_string (mkEndpoint host port).

(** [https::Client::connect]: [server_name] of the TLS options is the host if
    it is empty; [net_connect] and [make_codec] are [net::connect] and
    [make_bearssl_client_codec]. *)
Variable net_connect : bytes -> Z -> result S.
Variable make_codec : bytes -> result C.

Definition https_connect (fuel : nat) (server_name host : bytes) (port : Z) (cl : @Client (CodecStream S C)) : result unit * Client :=
  let cl := client_close cl in
  let name := if decide (server_name = []) then host else server_name in
  match net_connect host port, make_codec name with
  | Ok t, Ok c =>
      match handshake_client fuel fuel (new_codec_stream t c) with
      | (Ok _, s) => (Ok tt, mkClient host port (Some (mkConn s [] 0%Z None tt)) (cl_keep_alive cl))
      | (Throw e, _) => (Throw e, cl)
      | (OutOfFuel, _) => (OutOfFuel, cl)
      end
  | Ok _, Throw e | Throw e, _ => (Throw e, cl)
  | _, _ => (OutOfFuel, cl)
  end.

Definition https_is_connected (cl : @Client (CodecStream S C)) : bool :=
  match cl_connection cl with Some c => codec_is_open (c_stream c) | None => false end.
Definition https_close (cl : @Client (CodecStream S C)) : @Client (CodecStream S C) := client_close cl.

Definition https_request (fuel : nat) (request : Request) (cl : @Client (CodecStream S C)) : result Response * Client :=
  let not_connected := LogicError "corouv::https::Client is not connected"%bs in
  match cl_connection cl with
  | None => (Throw not_connected, cl)
  | Some c =>
      if negb (codec_is_open (c_stream c)) then (Throw not_connected, cl)
      else
        let request := set_rq_keep_alive (rq_keep_alive request && cl_keep_alive cl) request in
        let '(r, c') := m_bind (write_request (H := codec_bytes fuel) limits timeouts fuel request (https_format_host_header (cl_host cl) (cl_port cl)))
                          (fun _ => read_response (H := codec_bytes fuel) limits timeouts fuel (rq_method request)) c in
        let cl := mkClient (cl_host cl) (cl_port cl) (Some c') (cl_keep_alive cl) in
        match r with
        | Ok response =>
            if negb (rq_keep_alive request) || negb (rs_keep_alive response)
            then (Ok response, client_close cl) else (Ok response, cl)
        | r => (r, cl)
        end
  end.

Definition https_fetch (fuel : nat) (url : bytes) (request : Request) (server_name : bytes) (keep_alive : bool) : result Response :=
  parsed ← parse_url url;
  if bool_decide (u_scheme parsed <> "https"%bs)
  then Throw (InvalidArgument "corouv::https::fetch requires https:// URL"%bs)
  else
    let request := if bool_decide (rq_target request = [] \/ rq_target request = "/"%bs)
                   then set_rq_target (u_target parsed) request else request in
    let '(r, cl) := https_connect fuel server_name (u_host parsed) (u_port parsed) (mkClient [] 0%Z None keep_alive) in
    _ ← r; fst (https_request fuel request cl).
End Https.

(** ** What fails a task *)

(** A connection that the peer resets: libuv reports the error, and the read
    throws it. *)
Definition reset_error : exn := RuntimeError "uv_read: connection reset by peer"%bs.
#[local] Instance reset_stream : ByteStream unit := {|
  bs_is_open _ := true;
  bs_recv_some _ s := (Throw reset_error, s);
  bs_send_all _ s := (Ok tt, s);
  bs_close s := s;
  bs_recv_expires _ _ := false;
  bs_send_expires _ _ := false
|}.

(** [handle_client] answers the errors of [http::Error] only: the error of
    the connection leaves it and fails its task. *)
Theorem reset_fails_task `{PhrParser} handler :
  exists c, handle_client sample_limits no_timeouts handler 3 (mkConn tt [] 0%Z None tt) = (Throw reset_error, c).
Proof. eexists. vm_compute. reflexivity. Qed.

(** An engine that waits for the first record of the handshake. *)
#[local] Instance waiting_engine : Engine unit := {|
  br_current_state _ := BR_SSL_RECVREC;
  br_last_error _ := 0%Z;
  br_sendapp_len _ := 0%Z;
  br_sendapp_ack _ e := e;
  br_flush e := e;
  br_recvrec_len _ := 16%Z;
  br_recvrec_ack _ e := e;
  br_recvapp_buf _ := [];
  br_recvapp_ack _ e := e;
  br_sendrec_buf _ := [];
  br_sendrec_ack _ e := e;
  br_close e := e;
  br_reset e := (true, e)
|}.

(** A client that connects to the HTTPS server and closes the connection
    without a handshake fails its task. *)
Theorem handshake_fails_task `{PhrParser} limits handler fuel :
  https_handle_client limits no_timeouts handler (Datatypes.S (Datatypes.S fuel)) (Ok (mkBear false tt None [] [])) (mkScript true [] []) tt =
    (Throw handshake_eof, tt).
Proof. reflexivity. Qed.

(** Two connections are served; a third client closes its connection without
    a handshake.  The next one ends the server: the first two are cancelled
    and [serve] throws. *)
Theorem https_server_stopped_by_client :
  exists s, serve_run https_spawn_failed
      [SvAccept None; SvAccept None; SvAccept None; SvChild (Some handshake_eof); SvAccept None;
       SvChild (Some (SignalException [])); SvChild (Some (SignalException [])); SvFinish] (new_server false) = Some s /\
    sv_phase s = Served (Throw https_spawn_failed) /\ tg_canceled (sv_group s) = true.
Proof. eexists. split; [vm_compute; reflexivity|]. done. Qed.
