(* ===== verification/WebClient.v ===== *)
(** * The client and server of the web layer (web.h)

    [web::Client] holds an HTTP client, an HTTPS client or none, with the
    origin (scheme, host, port) it belongs to; [fetch] connects when the URL
    has another origin or the connection is gone.  [ClientBuilder],
    [web::Server] and [ServerBuilder] collect options and choose between the
    two protocols; a router that is built into a server stays shared with the
    builder.

    The theorems: whatever operations came before, [fetch] sends its request
    to the origin of its URL and over TLS exactly for https, reusing the
    connection only if it is open and belongs to that origin; the builder
    builds a server from the handler or else the router.  One theorem is about
    behaviour that is not intended: a client that failed to read a response
    stays connected, and the rest of that response answers the next request. *)

From S2P Require Import Prelude CxxString HttpHeaders HttpForm HttpUrl Stream HttpBody HttpConnection HttpExchange WebRouter Transport TlsConfig TaskGroup HttpServer.

Local Open Scope Z_scope.

(** ** Options *)

Record WebClientOptions := mkWebOptions { wo_limits : Limits; wo_keep_alive : bool; wo_tls : TlsClientConfig; wo_timeouts : IoTimeouts }.

(** ** [web::Client] *)

Section WebClient.
Context {T C : Type} `{ByteStream T} `{StreamEnv T} `{MemoryCodec C} `{PhrParser}.

Abbreviation HttpClient := (@Client T).
Abbreviation HttpsClient := (@Client (CodecStream T C)).

(** [_impl] *)
Inductive web_impl := ImplNone | ImplHttp (cl : HttpClient) | ImplHttps (cl : HttpsClient).

Record WebClient := mkWebClient {
  wc_options : WebClientOptions;
  wc_impl : web_impl;
  wc_scheme : bytes;
  wc_host : bytes;
  wc_port : Z
}.
Definition new_web_client (options : WebClientOptions) : WebClient := mkWebClient options ImplNone [] [] 0.

Definition web_is_connected (c : WebClient) : bool :=
  match wc_impl c with
  | ImplHttp cl => client_is_connected cl
  | ImplHttps cl => https_is_connected cl
  | ImplNone => false
  end.
Definition web_is_tls (c : WebClient) : bool := bool_decide (wc_scheme c = "https"%bs).
Definition web_close (c : WebClient) : WebClient := mkWebClient (wc_options c) ImplNone [] [] 0.
Definition same_origin (c : WebClient) (parsed : Url) : bool :=
  bool_decide (wc_scheme c = u_scheme parsed) && bool_decide (wc_host c = u_host parsed) && (wc_port c =? u_port parsed).

(** The environment: [net::connect] and [make_bearssl_client_codec]; [fuel]
    bounds the loops of one call. *)
Variable net_connect : bytes -> Z -> result T.
Variable make_codec : TlsClientConfig -> result C.
Variable fuel : nat.

(** The clients of the two protocols, made and connected. *)
Definition http_open (o : WebClientOptions) (host : bytes) (port : Z) : result unit * HttpClient :=
  client_connect net_connect host port (mkClient [] 0 None (wo_keep_alive o)).
Definition https_open (o : WebClientOptions) (host : bytes) (port : Z) : result unit * HttpsClient :=
  https_connect net_connect (fun name => make_codec (mkTlsClient name (tc_trust_anchors_pem (wo_tls o)) (tc_handshake_timeout (wo_tls o))))
    fuel (tc_server_name (wo_tls o)) host port (mkClient [] 0 None (wo_keep_alive o)).

Definition web_connect (url : bytes) (c : WebClient) : result unit * WebClient :=
  let c := web_close c in
  match parse_url url with
  | Ok parsed =>
      let o := wc_options c in
      let at_origin impl := mkWebClient o impl (u_scheme parsed) (u_host parsed) (u_port parsed) in
      if bool_decide (u_scheme parsed = "http"%bs) then
        match http_open o (u_host parsed) (u_port parsed) with
        | (Ok _, cl) => (Ok tt, at_origin (ImplHttp cl))
        | (r, _) => (r, at_origin ImplNone)
        end
      else if bool_decide (u_scheme parsed = "https"%bs) then
        match https_open o (u_host parsed) (u_port parsed) with
        | (Ok _, cl) => (Ok tt, at_origin (ImplHttps cl))
        | (r, _) => (r, at_origin ImplNone)
        end
      else (Throw (InvalidArgument "corouv::web::Client only supports http/https"%bs), at_origin ImplNone)
  | Throw e => (Throw e, c)
  | OutOfFuel => (OutOfFuel, c)
  end.

Definition set_impl (impl : web_impl) (c : WebClient) : WebClient := mkWebClient (wc_options c) impl (wc_scheme c) (wc_host c) (wc_port c).
Definition web_request (request : Request) (c : WebClient) : result Response * WebClient :=
  let o := wc_options c in
  match wc_impl c with
  | ImplHttp cl => let '(r, cl) := client_request (wo_limits o) (wo_timeouts o) fuel request cl in (r, set_impl (ImplHttp cl) c)
  | ImplHttps cl => let '(r, cl) := https_request (wo_limits o) (wo_timeouts o) fuel request cl in (r, set_impl (ImplHttps cl) c)
  | ImplNone => (Throw (LogicError "corouv::web::Client is not connected"%bs), c)
  end.

Definition fetch_target (request : Request) (parsed : Url) : Request :=
  if bool_decide (rq_target request = [] \/ rq_target request = "/"%bs) then set_rq_target (u_target parsed) request else request.
Definition web_fetch (url : bytes) (request : Request) (c : WebClient) : result Response * WebClient :=
  match parse_url url with
  | Ok parsed =>
      let request := fetch_target request parsed in
      if negb (same_origin c parsed) || negb (web_is_connected c) then
        match web_connect url c with
        | (Ok _, c) => web_request request c
        | (Throw e, c) => (Throw e, c)
        | (OutOfFuel, c) => (OutOfFuel, c)
        end
      else web_request request c
  | Throw e => (Throw e, c)
  | OutOfFuel => (OutOfFuel, c)
  end.
End WebClient.

(** *** Every request goes to the origin of its URL *)

Section Origin.
Context {T C : Type} `{ByteStream T} `{StreamEnv T} `{MemoryCodec C} `{PhrParser}.

(** What the fields say of the client inside. *)
Definition origin_inv (c : @WebClient T C) : Prop :=
  match wc_impl c with
  | ImplHttp cl => wc_scheme c = "http"%bs /\ cl_host cl = wc_host c /\ cl_port cl = wc_port c
  | ImplHttps cl => wc_scheme c = "https"%bs /\ cl_host cl = wc_host c /\ cl_port cl = wc_port c
  | ImplNone => True
  end.

(** One call of an operation, with the answers of the environment to it. *)
Inductive web_op :=
| OpConnect (net_connect : bytes -> Z -> result T) (make_codec : TlsClientConfig -> result C) (fuel : nat) (url : bytes)
| OpRequest (fuel : nat) (request : Request)
| OpFetch (net_connect : bytes -> Z -> result T) (make_codec : TlsClientConfig -> result C) (fuel : nat) (url : bytes) (request : Request)
| OpClose.
Definition web_step (o : web_op) (c : WebClient) : WebClient :=
  match o with
  | OpConnect net_connect make_codec fuel url => snd (web_connect net_connect make_codec fuel url c)
  | OpRequest fuel request => snd (web_request fuel request c)
  | OpFetch net_connect make_codec fuel url request => snd (web_fetch net_connect make_codec fuel url request c)
  | OpClose => web_close c
  end.
Definition web_run (os : list web_op) (c : WebClient) : WebClient := fold_left (fun c o => web_step o c) os c.

Lemma client_connect_at (net_connect : bytes -> Z -> result T) host port cl u cl' :
  client_connect net_connect host port cl = (Ok u, cl') -> cl_host cl' = host /\ cl_port cl' = port.
Proof. unfold client_connect. destruct (net_connect host port); intros; by simplify_eq. Qed.

Lemma https_connect_at (net_connect : bytes -> Z -> result T) (make_codec : bytes -> result C) fuel name host port cl u cl' :
  https_connect net_connect make_codec fuel name host port cl = (Ok u, cl') -> cl_host cl' = host /\ cl_port cl' = port.
Proof.
  unfold https_connect. set (name' := if decide _ then host else name). destruct (net_connect host port); [|by destruct (make_codec name')..].
  destruct (make_codec name'); try done. destruct (handshake_client _ _ _) as [[] ?]; intros; by simplify_eq.
Qed.

Lemma client_request_at limits timeouts fuel request (cl : @Client T) :
  cl_host (snd (client_request limits timeouts fuel request cl)) = cl_host cl /\ cl_port (snd (client_request limits timeouts fuel request cl)) = cl_port cl.
Proof. unfold client_request. repeat case_match; done. Qed.

Lemma https_request_at limits timeouts fuel request (cl : @Client (CodecStream T C)) :
  cl_host (snd (https_request limits timeouts fuel request cl)) = cl_host cl /\ cl_port (snd (https_request limits timeouts fuel request cl)) = cl_port cl.
Proof. unfold https_request. repeat case_match; done. Qed.

Lemma web_connect_inv (net_connect : bytes -> Z -> result T) (make_codec : TlsClientConfig -> result C) fuel url c :
  origin_inv (snd (web_connect net_connect make_codec fuel url c)).
Proof.
  unfold web_connect. destruct (parse_url url) as [p| |]; try done.
  case_bool_decide as Es.
  { destruct (http_open _ _ _ _) as [[] cl] eqn:E; try done. apply client_connect_at in E. done. }
  case_bool_decide as Es'; [|done]. destruct (https_open _ _ _ _ _ _) as [[] cl] eqn:E; try done. by apply https_connect_at in E.
Qed.

Lemma web_request_inv fuel request c : origin_inv c -> origin_inv (snd (web_request fuel request c)).
Proof.
  unfold web_request, origin_inv. destruct (wc_impl c) as [|cl|cl] eqn:E; [simpl; by rewrite E| |]; intros (Hs & Hh & Hp).
  - pose proof (client_request_at (wo_limits (wc_options c)) (wo_timeouts (wc_options c)) fuel request cl) as [Eh Ep].
    destruct (client_request _ _ _ _ _) as [r cl']. simpl in *. by rewrite Eh, Ep.
  - pose proof (https_request_at (wo_limits (wc_options c)) (wo_timeouts (wc_options c)) fuel request cl) as [Eh Ep].
    destruct (https_request _ _ _ _ _) as [r cl']. simpl in *. by rewrite Eh, Ep.
Qed.

Lemma web_step_inv o c : origin_inv c -> origin_inv (web_step o c).
Proof.
  intros Hc. destruct o as [nc mc fuel url|fuel request|nc mc fuel url request|]; simpl; [apply web_connect_inv | by apply web_request_inv | | done].
  unfold web_fetch. destruct (parse_url url); try done. case_match; [|by apply web_request_inv].
  pose proof (web_connect_inv nc mc fuel url c) as Hi. destruct (web_connect _ _ _ _ _) as [[] c']; simpl in *; try done. by apply web_request_inv.
Qed.

Lemma web_run_inv os c : origin_inv c -> origin_inv (web_run os c).
Proof. revert c. induction os as [|o os IH]; intros c Hc; simpl; [done|]. by apply IH, web_step_inv. Qed.
End Origin.

(** The client that carries a fetch of [p]: the current one, which is then
    open, or a new one; its host and port are those of the URL. *)
Definition carries {T C} `{ByteStream T} `{StreamEnv T} `{MemoryCodec C} (net_connect : bytes -> Z -> result T) (make_codec : TlsClientConfig -> result C) fuel
    (c : @WebClient T C) (p : Url) (impl : @web_impl T C) : Prop :=
  (wc_impl c = impl /\ web_is_connected c = true \/
   match impl with
   | ImplHttp cl => http_open net_connect (wc_options c) (u_host p) (u_port p) = (Ok tt, cl)
   | ImplHttps cl => https_open net_connect make_codec fuel (wc_options c) (u_host p) (u_port p) = (Ok tt, cl)
   | ImplNone => False
   end) /\
  match impl with
  | ImplHttp cl => u_scheme p = "http"%bs /\ cl_host cl = u_host p /\ cl_port cl = u_port p
  | ImplHttps cl => u_scheme p = "https"%bs /\ cl_host cl = u_host p /\ cl_port cl = u_port p
  | ImplNone => False
  end.

(** C32: After any operations, a fetch either fails to connect or sends its request,
    with the target of the URL if it has none, over a client for exactly the
    scheme, host and port of the URL. *)
Theorem web_fetch_right_origin {T C} `{ByteStream T} `{StreamEnv T} `{MemoryCodec C} `{PhrParser} options (os : list (@web_op T C))
    (net_connect : bytes -> Z -> result T) (make_codec : TlsClientConfig -> result C) fuel url p request :
  parse_url url = Ok p ->
  let c := web_run os (new_web_client options) in
  (exists impl, carries net_connect make_codec fuel c p impl /\
     web_fetch net_connect make_codec fuel url request c =
     web_request fuel (fetch_target request p) (mkWebClient (wc_options c) impl (u_scheme p) (u_host p) (u_port p))) \/
  (exists r c', web_connect net_connect make_codec fuel url c = (r, c') /\ (forall u, r <> Ok u) /\
     (forall resp, fst (web_fetch net_connect make_codec fuel url request c) <> Ok resp)).
Proof.
  intros Hp c. assert (origin_inv c) as Hc by (by apply web_run_inv). unfold web_fetch. rewrite Hp.
  pose proof (parse_url_ok url) as Hok. rewrite Hp in Hok. destruct Hok as [Hscheme _].
  destruct (same_origin c p && web_is_connected c) eqn:E.
  - apply andb_prop in E as [Eo Ec]. rewrite Eo, Ec. simpl. left. exists (wc_impl c).
    unfold same_origin in Eo. apply andb_prop in Eo as [Eo E3]. apply andb_prop in Eo as [E1 E2].
    apply bool_decide_eq_true in E1, E2. apply Z.eqb_eq in E3.
    split; [|destruct c; simpl in *; by subst].
    split; [by left|]. unfold origin_inv in Hc. unfold web_is_connected in Ec. destruct (wc_impl c); [done | |]; rewrite <- E1, <- E2, <- E3; exact Hc.
  - assert (negb (same_origin c p) || negb (web_is_connected c) = true) as -> by (by rewrite <- negb_andb, E).
    unfold web_connect. rewrite Hp. simpl. destruct Hscheme as [Es|Es]; rewrite Es; simpl.
    + destruct (http_open _ _ _ _) as [[[]|e|] cl] eqn:Eh; [left | right; by eexists _, _..].
      exists (ImplHttp cl). split; [|done]. split; [by right|]. by split; [|apply client_connect_at in Eh].
    + destruct (https_open _ _ _ _ _ _) as [[[]|e|] cl] eqn:Eh; [left | right; by eexists _, _..].
      exists (ImplHttps cl). split; [|done]. split; [by right|]. by split; [|apply https_connect_at in Eh].
Qed.

Definition sample_options : WebClientOptions := mkWebOptions sample_limits true (mkTlsClient [] [] None) no_timeouts.
Definition get_request : Request := mkRequest "GET"%bs "/"%bs [] [] [] 1 true false.
Definition no_codec (config : TlsClientConfig) : result PassthroughCodec := Throw OtherException.
(** A peer that sends [text] and then waits. *)
Definition peer_sends (text : bytes) (host : bytes) (port : Z) : result script := Ok (mkScript true [text] []).
Definition no_peer (host : bytes) (port : Z) : result script := Throw OtherException.

Lemma web_fetch_right_origin_witness :
  let p := mkUrl "http"%bs "h"%bs 80 "/a"%bs in
  let c := web_run [OpConnect (peer_sends []) no_codec 10 "http://other/"%bs] (new_web_client sample_options) in
  parse_url "http://h/a"%bs = Ok p /\
  exists cl, http_open (peer_sends []) sample_options "h"%bs 80 = (Ok tt, cl) /\
    web_fetch (peer_sends []) no_codec 10 "http://h/a"%bs get_request c =
    web_request 10 (fetch_target get_request p) (mkWebClient sample_options (ImplHttp cl) "http"%bs "h"%bs 80).
Proof.
  intros p c. split; [reflexivity|].
  destruct (web_fetch_right_origin sample_options [OpConnect (peer_sends []) no_codec 10 "http://other/"%bs] (peer_sends []) no_codec 10 "http://h/a"%bs p get_request eq_refl)
    as [(impl & [Hc Hi] & E)|(r & c' & E & Hr & _)]; [|by vm_compute in E; simplify_eq; destruct (Hr tt)].
  destruct impl as [|cl|cl]; [done | | by destruct Hi]. exists cl. split; [|exact E].
  destruct Hi as (_ & Hh & _). destruct Hc as [[Hc _]|Hc]; [|exact Hc]. exfalso. vm_compute in Hc. simplify_eq.
Defined.

(** *** What is not intended *)

Definition carried_response : bytes := "HTTP/1.1 200 OK"%bs ++ crlf ++ "Content-Length: 2"%bs ++ crlf ++ crlf ++ "hi"%bs.
Definition long_response : bytes := "HTTP/1.1 200 OK"%bs ++ crlf ++ "Content-Length: 999999"%bs ++ crlf ++ crlf ++ carried_response.

Definition first_fetch := web_fetch (peer_sends long_response) no_codec 2000 "http://h/a"%bs get_request (new_web_client sample_options).
Definition second_fetch := web_fetch no_peer no_codec 2000 "http://h/b"%bs get_request (snd first_fetch).

(** The answer to the first request is longer than the client allows: the
    fetch throws and the client stays connected.  The next fetch, of another
    page, returns what the first answer carried in its body, and no connection
    is made. *)
Theorem web_fetch_stale_response :
  fst first_fetch = Throw (HttpError 413 "HTTP body too large"%bs) /\ web_is_connected (snd first_fetch) = true /\
  fst second_fetch = Ok (mkResponse 200 "OK"%bs [mkHeader "Content-Length"%bs "2"%bs] "hi"%bs [] 1 true false).
Proof. split_and!; vm_compute; reflexivity. Qed.

(** ** [ClientBuilder] *)

Definition cb_limits (value : Limits) (o : WebClientOptions) : WebClientOptions := mkWebOptions value (wo_keep_alive o) (wo_tls o) (wo_timeouts o).
Definition cb_keep_alive (enabled : bool) (o : WebClientOptions) : WebClientOptions := mkWebOptions (wo_limits o) enabled (wo_tls o) (wo_timeouts o).
Definition cb_timeouts (value : IoTimeouts) (o : WebClientOptions) : WebClientOptions := mkWebOptions (wo_limits o) (wo_keep_alive o) (wo_tls o) value.
Definition cb_read_headers_timeout (value : Z) (o : WebClientOptions) : WebClientOptions :=
  cb_timeouts (mkTimeouts (Some value) (t_read_body (wo_timeouts o)) (t_write (wo_timeouts o))) o.
Definition cb_read_body_timeout (value : Z) (o : WebClientOptions) : WebClientOptions :=
  cb_timeouts (mkTimeouts (t_read_headers (wo_timeouts o)) (Some value) (t_write (wo_timeouts o))) o.
Definition cb_write_timeout (value : Z) (o : WebClientOptions) : WebClientOptions :=
  cb_timeouts (mkTimeouts (t_read_headers (wo_timeouts o)) (t_read_body (wo_timeouts o)) (Some value)) o.
Definition cb_clear_timeouts (o : WebClientOptions) : WebClientOptions := cb_timeouts no_timeouts o.
Definition cb_tls (config : TlsClientConfig) (o : WebClientOptions) : WebClientOptions := mkWebOptions (wo_limits o) (wo_keep_alive o) config (wo_timeouts o).
Definition cb_server_name (value : bytes) (o : WebClientOptions) : WebClientOptions :=
  cb_tls (mkTlsClient value (tc_trust_anchors_pem (wo_tls o)) (tc_handshake_timeout (wo_tls o))) o.
Definition cb_trust_anchor (pem : bytes) (o : WebClientOptions) : WebClientOptions :=
  cb_tls (mkTlsClient (tc_server_name (wo_tls o)) (tc_trust_anchors_pem (wo_tls o) ++ [pem]) (tc_handshake_timeout (wo_tls o))) o.
(** [build]: the builder keeps its options. *)
Definition cb_build {T C} (o : WebClientOptions) : @WebClient T C := new_web_client o.
(** [ClientBuilder::fetch]: a client for one request, which goes with its
    connection. *)
Definition cb_fetch {T C} `{ByteStream T} `{StreamEnv T} `{MemoryCodec C} `{PhrParser} (net_connect : bytes -> Z -> result T)
    (make_codec : TlsClientConfig -> result C) (fuel : nat) (url : bytes) (request : Request) (o : WebClientOptions) : result Response :=
  fst (web_fetch net_connect make_codec fuel url request (cb_build o)).

(** ** [web::Server] and [ServerBuilder] *)

Section ServerBuilder.
Context {W : Type}.

Record WebServerOptions := mkServerOptions {
  so_host : bytes; so_port : Z; so_backlog : Z; so_limits : Limits; so_tls : option TlsServerConfig; so_timeouts : IoTimeouts
}.
Definition default_server_options : WebServerOptions := mkServerOptions "127.0.0.1"%bs 0 128 default_limits None no_timeouts.

(** [Server::Handler]: a function of the application, or the one that
    [Router::handler] makes, which holds the router's shared state. *)
Inductive ServerHandler := PlainHandler (f : Request -> @Act W) | RouterHandler (router : nat).

(** What the server calls for a request, when the shared states are [st]. *)
Definition call_handler (fuel : nat) (st : @Store W) (h : ServerHandler) (request : Request) : Act :=
  match h with
  | PlainHandler f => f request
  | RouterHandler r => handle fuel st r request
  end.

(** [web::Server]: one of the two servers. *)
Inductive WebServer := PlainServer (h : ServerHandler) (o : WebServerOptions) | TlsServer (h : ServerHandler) (tls : TlsServerConfig) (o : WebServerOptions).
Definition ws_is_tls (s : WebServer) : bool := match s with TlsServer _ _ _ => true | PlainServer _ _ => false end.
Definition ws_handler (s : WebServer) : ServerHandler := match s with PlainServer h _ | TlsServer h _ _ => h end.

(** [serve] and [close] go to the server inside. *)
Definition ws_serve_step (s : WebServer) (l : serve_label) (running : Server) : option Server :=
  match s with
  | PlainServer _ _ => serve_step http_spawn_failed l running
  | TlsServer _ _ _ => https_serve_step l running
  end.
Definition ws_close (s : WebServer) (running : Server) : Server := server_close running.

(** The builder and the store of the router states; [sb_next] is the next
    state [std::make_shared] will make. *)
Record ServerBuilder := mkBuilder {
  sb_options : WebServerOptions;
  sb_handler : option (Request -> @Act W);
  sb_router : option nat;
  sb_store : @Store W;
  sb_next : nat
}.
Definition new_builder (st : Store) (next : nat) : ServerBuilder := mkBuilder default_server_options None None st next.

Definition sb_set_options (o : WebServerOptions) (b : ServerBuilder) : ServerBuilder := mkBuilder o (sb_handler b) (sb_router b) (sb_store b) (sb_next b).
Definition sb_host (value : bytes) (b : ServerBuilder) : ServerBuilder :=
  let o := sb_options b in sb_set_options (mkServerOptions value (so_port o) (so_backlog o) (so_limits o) (so_tls o) (so_timeouts o)) b.
Definition sb_port (value : Z) (b : ServerBuilder) : ServerBuilder :=
  let o := sb_options b in sb_set_options (mkServerOptions (so_host o) value (so_backlog o) (so_limits o) (so_tls o) (so_timeouts o)) b.
Definition sb_listen_on (host : bytes) (port : Z) (b : ServerBuilder) : ServerBuilder :=
  let o := sb_options b in sb_set_options (mkServerOptions host port (so_backlog o) (so_limits o) (so_tls o) (so_timeouts o)) b.
Definition sb_backlog (value : Z) (b : ServerBuilder) : ServerBuilder :=
  let o := sb_options b in sb_set_options (mkServerOptions (so_host o) (so_port o) value (so_limits o) (so_tls o) (so_timeouts o)) b.
Definition sb_limits (value : Limits) (b : ServerBuilder) : ServerBuilder :=
  let o := sb_options b in sb_set_options (mkServerOptions (so_host o) (so_port o) (so_backlog o) value (so_tls o) (so_timeouts o)) b.
Definition sb_set_timeouts (value : IoTimeouts) (b : ServerBuilder) : ServerBuilder :=
  let o := sb_options b in sb_set_options (mkServerOptions (so_host o) (so_port o) (so_backlog o) (so_limits o) (so_tls o) value) b.
Definition sb_read_headers_timeout (value : Z) (b : ServerBuilder) : ServerBuilder :=
  let t := so_timeouts (sb_options b) in sb_set_timeouts (mkTimeouts (Some value) (t_read_body t) (t_write t)) b.
Definition sb_read_body_timeout (value : Z) (b : ServerBuilder) : ServerBuilder :=
  let t := so_timeouts (sb_options b) in sb_set_timeouts (mkTimeouts (t_read_headers t) (Some value) (t_write t)) b.
Definition sb_write_timeout (value : Z) (b : ServerBuilder) : ServerBuilder :=
  let t := so_timeouts (sb_options b) in sb_set_timeouts (mkTimeouts (t_read_headers t) (t_read_body t) (Some value)) b.
Definition sb_clear_timeouts (b : ServerBuilder) : ServerBuilder := sb_set_timeouts no_timeouts b.
Definition sb_set_tls (value : option TlsServerConfig) (b : ServerBuilder) : ServerBuilder :=
  let o := sb_options b in sb_set_options (mkServerOptions (so_host o) (so_port o) (so_backlog o) (so_limits o) value (so_timeouts o)) b.
Definition sb_tls (config : TlsServerConfig) (b : ServerBuilder) : ServerBuilder := sb_set_tls (Some config) b.
Definition sb_clear_tls (b : ServerBuilder) : ServerBuilder := sb_set_tls None b.

Definition sb_handle (f : Request -> @Act W) (b : ServerBuilder) : ServerBuilder := mkBuilder (sb_options b) (Some f) (sb_router b) (sb_store b) (sb_next b).
(** [routes] and [app]: the router of the caller, with its shared state. *)
Definition sb_routes (router : nat) (b : ServerBuilder) : ServerBuilder := mkBuilder (sb_options b) (sb_handler b) (Some router) (sb_store b) (sb_next b).

(** [ensure_router]: the router to use, made if there is none. *)
Definition ensure_router (b : ServerBuilder) : nat * ServerBuilder :=
  match sb_router b with
  | Some r => (r, b)
  | None => (sb_next b, mkBuilder (sb_options b) (sb_handler b) (Some (sb_next b)) (<[sb_next b := empty_state]> (sb_store b)) (S (sb_next b)))
  end.
Definition on_router (f : nat -> @Store W -> Store) (b : ServerBuilder) : ServerBuilder :=
  let '(r, b) := ensure_router b in mkBuilder (sb_options b) (sb_handler b) (sb_router b) (f r (sb_store b)) (sb_next b).
Definition sb_route (method : option bytes) (path : bytes) (f : Next) (prefix : bool) := on_router (fun r => route r method path f prefix).
Definition sb_any (path : bytes) (f : Next) := on_router (fun r => router_any r path f).
Definition sb_get (path : bytes) (f : Next) := on_router (fun r => router_get r path f).
Definition sb_post (path : bytes) (f : Next) := on_router (fun r => router_post r path f).
Definition sb_put (path : bytes) (f : Next) := on_router (fun r => router_put r path f).
Definition sb_patch (path : bytes) (f : Next) := on_router (fun r => router_patch r path f).
Definition sb_delete (path : bytes) (f : Next) := on_router (fun r => router_delete r path f).
Definition sb_prefix (path : bytes) (f : Next) := on_router (fun r => router_prefix r path f).
Definition sb_mount (path : bytes) (router : nat) := on_router (fun r => mount r path router).
Definition sb_use (m : Middleware) := on_router (fun r => use r m).
Definition sb_not_found (f : Next) := on_router (fun r => not_found r f).

Definition sb_build (b : ServerBuilder) : result WebServer :=
  let handler := match sb_handler b with Some f => Some (PlainHandler f) | None => RouterHandler <$> sb_router b end in
  match handler with
  | None => Throw (LogicError "corouv::web::ServerBuilder requires a handler"%bs)
  | Some h => Ok (match so_tls (sb_options b) with Some tls => TlsServer h tls (sb_options b) | None => PlainServer h (sb_options b) end)
  end.
End ServerBuilder.

(** *** What a builder builds *)

Section Built.
Context {W : Type}.

(** The calls that register something, on the builder, on a router, and on the
    state of one. *)
Inductive register_op :=
| RegRoute (method : option bytes) (path : bytes) (f : @Next W) (prefix : bool)
| RegMount (path : bytes) (router : nat)
| RegUse (m : @Middleware W)
| RegNotFound (f : @Next W).
Definition register (o : register_op) (r : nat) : @Store W -> Store :=
  match o with
  | RegRoute method path f prefix => route r method path f prefix
  | RegMount path router => mount r path router
  | RegUse m => use r m
  | RegNotFound f => not_found r f
  end.
Definition with_registration (s : @State W) (o : register_op) : State :=
  match o with
  | RegRoute method path f prefix => mkState (s_routes s ++ [mkRoute method path (HUser f) prefix false]) (s_middlewares s) (s_not_found s)
  | RegMount path router => mkState (s_routes s ++ [mkRoute None path (HMounted router) true true]) (s_middlewares s) (s_not_found s)
  | RegUse m => mkState (s_routes s) (s_middlewares s ++ [m]) (s_not_found s)
  | RegNotFound f => mkState (s_routes s) (s_middlewares s) (Some (HUser f))
  end.
Definition sb_register (b : @ServerBuilder W) (o : register_op) : ServerBuilder := on_router (register o) b.

Lemma state_of_insert r s (st : @Store W) r' : state_of (<[r := s]> st) r' = if decide (r' = r) then s else state_of st r'.
Proof.
  unfold state_of, Store in *. case_decide; subst; [by rewrite (lookup_insert_eq (M := gmap nat)) | by rewrite (lookup_insert_ne (M := gmap nat)) by congruence].
Qed.

Lemma register_state o r (st : @Store W) r' :
  state_of (register o r st) r' = if decide (r' = r) then with_registration (state_of st r) o else state_of st r'.
Proof. destruct o; simpl; unfold route, mount, use, not_found, add_route; by rewrite state_of_insert. Qed.

Definition builder_state (b : @ServerBuilder W) : State := match sb_router b with Some r => state_of (sb_store b) r | None => empty_state end.

(** A registration keeps the rest of the builder, and changes one state. *)
Lemma sb_register_spec b o :
  sb_options (sb_register b o) = sb_options b /\ sb_handler (sb_register b o) = sb_handler b /\
  (exists r, sb_router (sb_register b o) = Some r /\ (forall r0, sb_router b = Some r0 -> r = r0)) /\
  builder_state (sb_register b o) = with_registration (builder_state b) o.
Proof.
  unfold sb_register, on_router, ensure_router, builder_state. destruct (sb_router b) as [r|] eqn:E; simpl; rewrite ?E.
  - split_and!; [done | done | by exists r; split; [|congruence] |]. by rewrite register_state, decide_True.
  - split_and!; [done | done | by eexists|]. rewrite register_state, decide_True by done. f_equal. by rewrite state_of_insert, decide_True.
Qed.

Lemma sb_registers_spec ops b :
  sb_options (fold_left sb_register ops b) = sb_options b /\ sb_handler (fold_left sb_register ops b) = sb_handler b /\
  (sb_router b <> None \/ ops <> [] -> sb_router (fold_left sb_register ops b) <> None) /\
  (forall r, sb_router b = Some r -> sb_router (fold_left sb_register ops b) = Some r) /\
  builder_state (fold_left sb_register ops b) = fold_left with_registration ops (builder_state b).
Proof.
  revert b. induction ops as [|o ops IH]; intros b; simpl; [naive_solver|].
  destruct (sb_register_spec b o) as (E1 & E2 & (r & E3 & E4) & E5). destruct (IH (sb_register b o)) as (I1 & I2 & I3 & I4 & I5).
  rewrite I1, I2, I5, E1, E2, E5. split_and!; try done; [intros _; apply I3; left; congruence|]. intros r0 Hr. apply I4. rewrite E3. f_equal. by apply E4.
Qed.

(** A builder without a handler of its own builds a server whose handler is the
    router with exactly what was registered, in order; with TLS if and only if
    it was configured; and what is registered with the builder later is served
    by that server too. *)
Theorem builder_serves_registered ops later b fuel request :
  sb_handler b = None -> sb_router b <> None \/ ops <> [] ->
  exists s r, sb_build (fold_left sb_register ops b) = Ok s /\ (ws_is_tls s = true <-> so_tls (sb_options b) <> None) /\
    state_of (sb_store (fold_left sb_register ops b)) r = fold_left with_registration ops (builder_state b) /\
    state_of (sb_store (fold_left sb_register (ops ++ later) b)) r = fold_left with_registration (ops ++ later) (builder_state b) /\
    call_handler fuel (sb_store (fold_left sb_register (ops ++ later) b)) (ws_handler s) request =
      handle fuel (sb_store (fold_left sb_register (ops ++ later) b)) r request.
Proof.
  intros Hh Hr. destruct (sb_registers_spec ops b) as (E1 & E2 & E3 & _ & E5). rewrite !fold_left_app. set (b1 := fold_left sb_register ops b) in *.
  destruct (sb_registers_spec later b1) as (_ & _ & _ & L4 & L5). destruct (sb_router b1) as [r|] eqn:Er; [|by destruct (E3 Hr)].
  specialize (L4 r eq_refl). set (b2 := fold_left sb_register later b1) in *.
  assert (builder_state b1 = state_of (sb_store b1) r) as S1 by (unfold builder_state; by rewrite Er).
  assert (builder_state b2 = state_of (sb_store b2) r) as S2 by (unfold builder_state; by rewrite L4).
  eexists _, r. unfold sb_build. rewrite E2, Hh, Er, E1. simpl. split; [done|].
  rewrite <- S1, <- S2, L5, E5. split_and!; try done; by destruct (so_tls (sb_options b)).
Qed.
End Built.

Lemma builder_serves_registered_witness :
  let b := sb_tls (mkTlsServer [] [] None) (new_builder (W := nat) ∅ 0) in
  let ops := [RegRoute (Some "GET"%bs) "/a"%bs (fun _ w => (Ok not_found_response, w)) false] in
  exists s r, sb_build (fold_left sb_register ops b) = Ok s /\ ws_is_tls s = true /\
    state_of (sb_store (fold_left sb_register ops b)) r = fold_left with_registration ops empty_state.
Proof.
  intros b ops. destruct (builder_serves_registered ops [] b 1 get_request eq_refl) as (s & r & Hb & Ht & Hs & _); [by right|].
  exists s, r. split; [exact Hb|]. split; [by apply Ht | exact Hs].
Defined.

(** A handler of its own takes precedence over the routes of the builder. *)
Lemma builder_prefers_handler {W} (b : @ServerBuilder W) f : sb_handler b = Some f ->
  exists s, sb_build b = Ok s /\ ws_handler s = PlainHandler f.
Proof. intros H. unfold sb_build. rewrite H. destruct (so_tls (sb_options b)); by eexists. Qed.
