(* ===== verification/ServerEndpoint.v ===== *)
(** * Where servers listen (http.cpp, https.cpp, web.h), and the overloads
      without an executor

    [http::Server] and [https::Server] own a listener: [listen] opens one if
    there is none, [serve] calls it, [close] closes it, [port] and [host] say
    where it is.  [web::Server] is one of the two.  The handles are those of
    [NetListen.v], so that the theorem can say which of them are left.

    The functions of the library that need a [UvExecutor] have overloads that
    take the one of the running task; [on_uv_executor] is their common form. *)

From S2P Require Import Prelude CxxString HttpHeaders HttpUrl Stream HttpConnection NetWait NetTcp NetListen NetUdp Transport TlsConfig UvExecutor TaskGroup HttpServer WebRouter WebClient.

Local Open Scope Z_scope.

(** ** Servers and their listeners *)

(** [to_http_options] and [to_https_options]: what a client of web.h gives to
    the client it makes. *)
Definition to_http_options (o : WebClientOptions) : Limits * bool * IoTimeouts := (wo_limits o, wo_keep_alive o, wo_timeouts o).
Definition to_https_options (o : WebClientOptions) : Limits * TlsClientConfig * bool * IoTimeouts :=
  (wo_limits o, wo_tls o, wo_keep_alive o, wo_timeouts o).

Section Servers.
Context {E : Type} `{UvNet E}.

(** The listener: its handle, whether it is open, its local endpoint. *)
Record Listening := mkListening { li_handle : nat; li_open : bool; li_local : Endpoint }.
Record ServerState := mkServerState { ss_listener : option Listening; ss_host : bytes; ss_port : Z; ss_backlog : Z }.
Definition new_server_state (host : bytes) (port backlog : Z) : ServerState := mkServerState None host port backlog.

Definition server_listening (s : ServerState) : bool :=
  match ss_listener s with Some l => li_open l | None => false end.

(** [Server::listen] of http.cpp. *)
Definition server_listen (s : ServerState) (n : net E) : result unit * ServerState * net E :=
  if server_listening s then (Ok tt, s, n)
  else
    match listen (ss_host s) (ss_port s) (ss_backlog s) n with
    | (Ok (h, local), n) => (Ok tt, mkServerState (Some (mkListening h true local)) (ss_host s) (ss_port s) (ss_backlog s), n)
    | (Throw e, n) => (Throw e, s, n)
    | (OutOfFuel, n) => (OutOfFuel, s, n)
    end.
(** [Server::close]; closing a listener that is closed does nothing. *)
Definition server_stop (s : ServerState) (n : net E) : ServerState * net E :=
  match ss_listener s with
  | Some l =>
      (mkServerState (Some (mkListening (li_handle l) false (li_local l))) (ss_host s) (ss_port s) (ss_backlog s),
       close_handle (li_open l) (li_handle l) n)
  | None => (s, n)
  end.
Definition server_port (s : ServerState) : Z :=
  match ss_listener s with Some l => if li_open l then ep_port (li_local l) else ss_port s | None => ss_port s end.
Definition server_host (s : ServerState) : bytes :=
  match ss_listener s with Some l => if li_open l then ep_host (li_local l) else ss_host s | None => ss_host s end.

(** The beginning of [Server::serve]. *)
Definition serve_listen (s : ServerState) (n : net E) : result unit * ServerState * net E :=
  if server_listening s then (Ok tt, s, n) else server_listen s n.

(** The same functions of https.cpp. *)
Definition https_server_listen : ServerState -> net E -> result unit * ServerState * net E := server_listen.
Definition https_server_close : ServerState -> net E -> ServerState * net E := server_stop.
Definition https_server_port : ServerState -> Z := server_port.
Definition https_server_host : ServerState -> bytes := server_host.

(** [web::Server] *)
Inductive WebListening := WebHttp (s : ServerState) | WebHttps (s : ServerState).
Definition web_listen (w : WebListening) (n : net E) : result unit * WebListening * net E :=
  match w with
  | WebHttp s => let '(r, s, n) := server_listen s n in (r, WebHttp s, n)
  | WebHttps s => let '(r, s, n) := https_server_listen s n in (r, WebHttps s, n)
  end.
Definition web_close_server (w : WebListening) (n : net E) : WebListening * net E :=
  match w with
  | WebHttp s => let '(s, n) := server_stop s n in (WebHttp s, n)
  | WebHttps s => let '(s, n) := https_server_close s n in (WebHttps s, n)
  end.
Definition web_port (w : WebListening) : Z := match w with WebHttp s => server_port s | WebHttps s => https_server_port s end.
Definition web_host (w : WebListening) : bytes := match w with WebHttp s => server_host s | WebHttps s => https_server_host s end.

(** ** What a server leaves open *)

Inductive server_call := CallListen | CallServe | CallClose.
(** A sequence of calls, with what the calls of [listen] and [serve] said. *)
Fixpoint server_calls (cs : list server_call) (s : ServerState) (n : net E) : list (result unit) * ServerState * net E :=
  match cs with
  | [] => ([], s, n)
  | CallClose :: cs => let '(s, n) := server_stop s n in server_calls cs s n
  | c :: cs =>
      let '(r, s, n) := match c with CallListen => server_listen s n | _ => serve_listen s n end in
      let '(rs, s, n) := server_calls cs s n in (r :: rs, s, n)
  end.

(** The handles opened since [n0] are closed, but for [live]. *)
Definition tracks (n0 n : net E) (live : list nat) : Prop :=
  exists x c, n_opened n = n_opened n0 ++ x /\ n_closed n = n_closed n0 ++ c /\ x ≡ₚ c ++ live.

Definition listening_handles (s : ServerState) : list nat :=
  match ss_listener s with Some l => if li_open l then [li_handle l] else [] | None => [] end.

Lemma tracks_refl n : tracks n n [].
Proof. exists [], []. by rewrite !app_nil_r. Qed.

Lemma tracks_grows n0 n n' x live : tracks n0 n [] -> grows n n' x live -> tracks n0 n' live.
Proof.
  intros (x0 & c0 & Ho & Hc & Hp) (Ho' & c & Hc' & ->). exists (x0 ++ c ++ live), (c0 ++ c).
  rewrite Ho', Hc', Ho, Hc, !app_assoc. split_and!; [done | done |]. rewrite app_nil_r in Hp. by rewrite Hp.
Qed.

Lemma tracks_close n0 n h : tracks n0 n [h] -> tracks n0 (close_handle true h n) [].
Proof.
  intros (x & c & Ho & Hc & Hp). exists x, (c ++ [h]). simpl. rewrite Hc, <- app_assoc, app_nil_r. done.
Qed.

Definition told_apart (r : result unit) : Prop := match r with Throw e => ~ refresh_failed e | _ => True end.

Lemma server_listen_tracks s n n0 r s' n' :
  tracks n0 n (listening_handles s) -> server_listen s n = (r, s', n') -> told_apart r ->
  tracks n0 n' (listening_handles s').
Proof.
  unfold server_listen. intros Ht. destruct (server_listening s) eqn:El; [by intros [= <- <- <-]|].
  assert (listening_handles s = []) as Hnil.
  { unfold server_listening in El. unfold listening_handles. destruct (ss_listener s) as [l|]; [by rewrite El | done]. }
  rewrite Hnil in Ht. pose proof (proj2 (connect_listen_handles (ss_host s) (ss_port s) (ss_backlog s) n)) as Hl.
  destruct (listen (ss_host s) (ss_port s) (ss_backlog s) n) as [[[h local]|e|] n1]; simpl in Hl; [| |done]; intros [= <- <- <-] Ha.
  - destruct Hl as [x Hx]. by eapply tracks_grows.
  - rewrite Hnil. destruct Hl as [[x Hx]|[Hf _]]; [by eapply tracks_grows | by destruct Ha].
Qed.

Lemma server_listen_options s n r s' n' :
  server_listen s n = (r, s', n') -> ss_port s' = ss_port s /\ ss_host s' = ss_host s.
Proof. unfold server_listen. intros E0. repeat case_match; by simplify_eq. Qed.

Lemma serve_listen_same s n : serve_listen s n = server_listen s n.
Proof. unfold serve_listen, server_listen. by destruct (server_listening s). Qed.

(** A server has at most one listener open.  After any sequence of [listen],
    [serve] and [close], of which those that opened a listener could read its
    endpoint, the only handle the server has opened and not closed is the one
    of the listener that is open, and there is none if it is not; [port] and
    [host] are then those the server was made with. *)
Theorem server_one_listener cs s0 n0 rs s n :
  ss_listener s0 = None -> server_calls cs s0 n0 = (rs, s, n) -> Forall told_apart rs ->
  tracks n0 n (listening_handles s) /\
  (server_listening s = false -> listening_handles s = [] /\ server_port s = ss_port s0 /\ server_host s = ss_host s0).
Proof.
  intros H0 Hr Ha.
  assert (tracks n0 n0 (listening_handles s0)) as Ht by (unfold listening_handles; rewrite H0; apply tracks_refl).
  assert (ss_port s = ss_port s0 /\ ss_host s = ss_host s0 /\ tracks n0 n (listening_handles s)) as (Hp & Hh & Hn).
  { revert Hr Ha Ht. generalize n0 at 1 3 as m. clear H0. revert rs s0.
    induction cs as [|c cs IH]; intros rs s0 m; simpl; [by intros [= <- <- <-]|]. destruct c.
    - destruct (server_listen s0 m) as [[r s1] n1] eqn:El. destruct (server_calls cs s1 n1) as [[rs' s2] n2] eqn:Ec.
      intros [= <- <- <-] [Hr Hrs]%Forall_cons Ht.
      destruct (server_listen_options _ _ _ _ _ El) as [<- <-].
      eapply (IH rs'); [exact Ec | done | by eapply server_listen_tracks].
    - rewrite serve_listen_same. destruct (server_listen s0 m) as [[r s1] n1] eqn:El. destruct (server_calls cs s1 n1) as [[rs' s2] n2] eqn:Ec.
      intros [= <- <- <-] [Hr Hrs]%Forall_cons Ht.
      destruct (server_listen_options _ _ _ _ _ El) as [<- <-].
      eapply (IH rs'); [exact Ec | done | by eapply server_listen_tracks].
    - unfold server_stop. destruct (ss_listener s0) as [l|] eqn:E0; intros Hc Ha Ht.
      + apply (IH rs (mkServerState (Some (mkListening (li_handle l) false (li_local l))) (ss_host s0) (ss_port s0) (ss_backlog s0)) _ Hc Ha).
        unfold listening_handles in Ht. rewrite E0 in Ht. simpl. destruct (li_open l); [by apply tracks_close | done].
      + by apply (IH rs s0 _ Hc Ha). }
  split; [done|]. unfold server_listening, listening_handles, server_port, server_host.
  destruct (ss_listener s) as [l|]; [|done]. by intros ->.
Qed.
End Servers.

(** ** Overloads without an executor *)

Definition not_uv_executor (name : bytes) : exn := LogicError (name ++ " requires CurrentExecutor to be UvExecutor"%bs).
(** [is_uv]: the executor of the task is a [UvExecutor]. *)
Definition on_uv_executor {A T} (is_uv : bool) (name : bytes) (m : T -> result A * T) (t : T) : result A * T :=
  if is_uv then m t else (Throw (not_uv_executor name), t).

Section Overloads.
Context {E : Type} `{UvNet E}.
Definition connect_current (is_uv : bool) (host : bytes) (port : Z) : net E -> result opened_stream * net E :=
  on_uv_executor is_uv "corouv::net::connect"%bs (connect host port).
Definition listen_current (is_uv : bool) (host : bytes) (port backlog : Z) : net E -> result (nat * Endpoint) * net E :=
  on_uv_executor is_uv "corouv::net::listen"%bs (listen host port backlog).
End Overloads.

Definition bind_current {E} `{UvUdp E} (is_uv : bool) (host : bytes) (port : Z) (options : UdpBindOptions)
    : net E -> result (nat * Endpoint * UdpState) * net E :=
  on_uv_executor is_uv "corouv::net::bind"%bs (udp_bind host port options).

Definition make_task_group (is_uv : bool) : result TaskGroup :=
  if is_uv then Ok new_task_group else Throw (not_uv_executor "corouv::make_task_group"%bs).

Section Fetches.
Context {T C : Type} `{ByteStream T} `{StreamEnv T} `{MemoryCodec C} `{PhrParser}.
Variable net_connect : bytes -> Z -> result T.
Variable limits : Limits.
Variable timeouts : IoTimeouts.
Definition http_fetch_current (is_uv : bool) (fuel : nat) (url : bytes) (request : Request) (keep_alive : bool) : result Response :=
  if is_uv then fetch limits timeouts net_connect fuel url request keep_alive
  else Throw (not_uv_executor "corouv::http::fetch"%bs).
Variable make_codec : bytes -> result C.
Definition https_fetch_current (is_uv : bool) (fuel : nat) (url : bytes) (request : Request) (server_name : bytes)
    (keep_alive : bool) : result Response :=
  if is_uv then https_fetch limits timeouts net_connect make_codec fuel url request server_name keep_alive
  else Throw (not_uv_executor "corouv::https::fetch"%bs).
End Fetches.

(** Off a [UvExecutor] these do nothing but throw: the network is as before. *)
Lemma overloads_need_executor {E} `{UvNet E} host port backlog (n : net E) :
  snd (connect_current false host port n) = n /\ snd (listen_current false host port backlog n) = n /\
  connect_current true host port n = connect host port n /\ listen_current true host port backlog n = listen host port backlog n.
Proof. done. Qed.
