(* ===== verification/FileIo.v ===== *)
(** * Files (fs.h, file.h)

    [fs.h] wraps one request of libuv per class; [file.h] builds [io::File]
    on them: a descriptor with a position, shared by operations that run at
    the same time.  [acquire] and [release] are the critical sections of the
    mutex; between them the request is under way.

    The first part is the state of a file and these critical sections, the
    second the operations as coroutines over libuv's requests, which are an
    interface ([UvFs], with the laws [FsLaws] of a file system on which
    nothing fails).  The third is the interleaving of operations of several
    tasks.  The theorems: an operation never runs on a descriptor that was
    closed, and at most one of those that move the position runs at a time;
    [write_all] writes exactly its data, and [read_until_eof] reads it back,
    however libuv splits the transfers. *)

From S2P Require Import Prelude Coroutine Counting CxxString NetWait.

Local Open Scope Z_scope.
Local Open Scope co_scope.

(** ** Requests of libuv *)

(** The code of the call that starts the request, and the [result] of the
    request. *)
Definition uv_answer : Type := Z * Z.
Definition normalize_uv_fs_rc (a : uv_answer) : Z := if fst a <? 0 then fst a else to_int (snd a).

Class UvFs (E : Type) := {
  uv_strerror_fs : Z -> bytes;
  uv_fs_open : bytes -> Z -> Z -> E -> uv_answer * E;
  uv_fs_fstat : Z -> E -> (uv_answer * Z) * E;          (* with [st_size] *)
  uv_fs_read : Z -> Z -> Z -> E -> (uv_answer * bytes) * E;
  uv_fs_write : Z -> bytes -> Z -> E -> uv_answer * E;
  uv_fs_fsync : Z -> E -> uv_answer * E;
  uv_fs_fdatasync : Z -> E -> uv_answer * E;
  uv_fs_close : Z -> E -> uv_answer * E
}.

Definition UINT32_MAX : Z := 2 ^ 32 - 1.
Definition INT64_MAX : Z := 2 ^ 63 - 1.

(** ** The state of a file *)

Record File := mkFile {
  f_file : option Z;           (* [file]; [None]: [invalid_file()] *)
  f_offset : Z;
  f_inflight : nat;
  f_busy : bool;               (* [sequential_busy] *)
  f_closing : bool
}.
Definition new_file (fd offset : Z) : File := mkFile (Some fd) offset 0 false false.

Definition file_closed (op : bytes) : exn := LogicError ("corouv::io::File cannot "%bs ++ op ++ " on a closed file"%bs).
Definition file_concurrent (op : bytes) : exn := LogicError ("corouv::io::File does not support concurrent "%bs ++ op ++ " operations"%bs).
Definition file_seek_busy : exn := LogicError "corouv::io::File::seek requires no sequential operation in flight"%bs.
Definition close_in_progress : exn := LogicError "corouv::io::File::close already in progress"%bs.
Definition close_busy : exn := LogicError "corouv::io::File::close requires no operations in flight"%bs.
Definition file_stalled : exn := RuntimeError "corouv::io::File write stalled"%bs.
Definition file_read_failed : exn := RuntimeError "corouv::io::File read failed"%bs.
Definition file_exceeded : exn := RuntimeError "corouv::io::File read_until_eof exceeded max_bytes"%bs.

Definition file_is_open (f : File) : bool := match f_file f with Some _ => negb (f_closing f) | None => false end.

Definition to_offset (value : Z) (what : bytes) : result Z :=
  if INT64_MAX <? value then Throw (OutOfRange ("corouv::io::File::"%bs ++ what ++ " offset exceeds int64_t"%bs)) else Ok value.

(** The lease: descriptor and position. *)
Definition acquire (sequential : bool) (op : bytes) : Co File (Z * Z) := fun f =>
  match f_file f with
  | None => (Throw (file_closed op), f)
  | Some fd =>
      if f_closing f then (Throw (file_closed op), f)
      else if sequential && f_busy f then (Throw (file_concurrent op), f)
      else (Ok (fd, f_offset f), mkFile (f_file f) (f_offset f) (S (f_inflight f)) (sequential || f_busy f) (f_closing f))
  end.

(** [update]: the new offset, if it is updated. *)
Definition release_file (sequential : bool) (update : option Z) (f : File) : File :=
  mkFile (f_file f) (match update with Some o => o | None => f_offset f end) (Nat.pred (f_inflight f))
    (if sequential then false else f_busy f) (f_closing f).

Definition file_position : Co File Z := fun f => if file_is_open f then (Ok (f_offset f), f) else (Throw (file_closed "position"%bs), f).

Definition seek (offset : Z) : Co File unit := fun f =>
  match to_offset offset "seek"%bs with
  | Ok value =>
      if file_is_open f then
        if f_closing f || f_busy f then (Throw file_seek_busy, f)
        else (Ok tt, mkFile (f_file f) value (f_inflight f) (f_busy f) (f_closing f))
      else (Throw (file_closed "seek"%bs), f)
  | Throw e => (Throw e, f)
  | OutOfFuel => (OutOfFuel, f)
  end.
Definition rewind : Co File unit := seek 0.

(** The first critical section of [close]; [None]: the file is closed. *)
Definition close_begin : Co File (option Z) := fun f =>
  match f_file f with
  | None => (Ok None, f)
  | Some fd =>
      if f_closing f then (Throw close_in_progress, f)
      else if negb (Nat.eqb (f_inflight f) 0) || f_busy f then (Throw close_busy, f)
      else (Ok (Some fd), mkFile (f_file f) (f_offset f) (f_inflight f) (f_busy f) true)
  end.
(** The last one, after [fs::Close] has returned or thrown. *)
Definition close_end (ok : bool) (f : File) : File :=
  if ok then mkFile None 0 (f_inflight f) (f_busy f) false
  else mkFile (f_file f) (f_offset f) (f_inflight f) (f_busy f) false.

(** The destructor: the descriptor it closes. *)
Definition close_sync (f : File) : option Z * File :=
  match f_file f with
  | None => (None, f)
  | Some fd => (Some fd, mkFile None (f_offset f) 0 false false)
  end.

(** ** The operations *)
Section Operations.
Context {E : Type} `{UvFs E}.

(** [fs::Read] and its siblings: the code is normalized, an error thrown. *)
Definition fs_check {A} (what : bytes) (a : uv_answer) (v : A) : result A :=
  if normalize_uv_fs_rc a <? 0 then Throw (throw_uv_error uv_strerror_fs (normalize_uv_fs_rc a) what) else Ok v.

Definition fs_Open (path : bytes) (flags mode : Z) : Co E Z := fun e =>
  let '(a, e) := uv_fs_open (c_string path) flags mode e in (fs_check "uv_fs_open"%bs a (snd a), e).
Definition fs_Fstat (fd : Z) : Co E Z := fun e =>
  let '((a, size), e) := uv_fs_fstat fd e in (fs_check "uv_fs_fstat"%bs a size, e).
Definition fs_Read (fd cap off : Z) : Co E (Z * bytes) := fun e =>
  let '((a, d), e) := uv_fs_read fd (Z.min cap UINT32_MAX) off e in (fs_check "uv_fs_read"%bs a (snd a, d), e).
Definition fs_Write (fd : Z) (buf : bytes) (off : Z) : Co E Z := fun e =>
  let '(a, e) := uv_fs_write fd (take (Z.to_nat (Z.min (size_of buf) UINT32_MAX)) buf) off e in (fs_check "uv_fs_write"%bs a (snd a), e).
Definition fs_Fsync (fd : Z) : Co E unit := fun e => let '(a, e) := uv_fs_fsync fd e in (fs_check "uv_fs_fsync"%bs a tt, e).
Definition fs_Fdatasync (fd : Z) : Co E unit := fun e => let '(a, e) := uv_fs_fdatasync fd e in (fs_check "uv_fs_fdatasync"%bs a tt, e).
Definition fs_Close (fd : Z) : Co E unit := fun e => let '(a, e) := uv_fs_close fd e in (fs_check "uv_fs_close"%bs a tt, e).

(** An operation sees the file and libuv. *)
Definition on_file {A} (m : Co File A) : Co (File * E) A := fun x => let '(r, f) := m (fst x) in (r, (f, snd x)).
Definition on_fs {A} (m : Co E A) : Co (File * E) A := fun x => let '(r, e) := m (snd x) in (r, (fst x, e)).
Definition upd (g : File -> File) : Co (File * E) unit := fun x => (Ok tt, (g (fst x), snd x)).

(** [acquire]; the body; [release] on both ways out. *)
Definition with_lease {A} (sequential : bool) (op : bytes) (body : Z * Z -> Co (File * E) (A * option Z)) : Co (File * E) A :=
  lease <- on_file (acquire sequential op);;
  r <- co_cleanup (body lease) (fun x => (release_file sequential None (fst x), snd x));;
  upd (release_file sequential (snd r));;; co_ret (fst r).

Definition file_stat : Co (File * E) Z :=
  with_lease false "stat"%bs (fun l => st <- on_fs (fs_Fstat (fst l));; co_ret (st, None)).
Definition file_size : Co (File * E) Z := st <- file_stat;; co_ret (if 0 <? st then st else 0).

(** [to_offset] comes after [acquire] and outside of the [try]. *)
Definition read_at (offset cap : Z) : Co (File * E) bytes :=
  lease <- on_file (acquire false "read_at"%bs);;
  pos <- (fun x => (to_offset offset "read_at"%bs, x));;
  r <- co_cleanup (on_fs (fs_Read (fst lease) cap pos)) (fun x => (release_file false None (fst x), snd x));;
  upd (release_file false None);;; co_ret (if 0 <? fst r then take (Z.to_nat (fst r)) (snd r) else []).
Definition write_at (offset : Z) (buffer : bytes) : Co (File * E) Z :=
  lease <- on_file (acquire false "write_at"%bs);;
  pos <- (fun x => (to_offset offset "write_at"%bs, x));;
  n <- co_cleanup (on_fs (fs_Write (fst lease) buffer pos)) (fun x => (release_file false None (fst x), snd x));;
  upd (release_file false None);;; co_ret (if 0 <? n then n else 0).

Definition file_read_some (cap : Z) : Co (File * E) bytes :=
  with_lease true "read_some"%bs (fun l =>
    r <- on_fs (fs_Read (fst l) cap (snd l));;
    co_ret (if 0 <? fst r then (take (Z.to_nat (fst r)) (snd r), Some (snd l + fst r)) else ([], Some (snd l)))).
Definition file_write_some (buffer : bytes) : Co (File * E) Z :=
  with_lease true "write_some"%bs (fun l =>
    n <- on_fs (fs_Write (fst l) buffer (snd l));;
    co_ret (if 0 <? n then (n, Some (snd l + n)) else (0, Some (snd l)))).

(** The loop of [write_all], on the bytes that are left. *)
Fixpoint file_write_loop (fuel : nat) (fd : Z) (buffer : bytes) (offset : Z) : Co (File * E) Z :=
  match fuel with
  | O => co_fuel
  | Datatypes.S fuel =>
      if decide (buffer = []) then co_ret offset
      else
        n <- on_fs (fs_Write fd buffer offset);;
        if n <=? 0 then co_throw file_stalled
        else file_write_loop fuel fd (drop (Z.to_nat n) buffer) (offset + n)
  end.
Definition file_write_all (buffer : bytes) : Co (File * E) unit :=
  with_lease true "write_all"%bs (fun l =>
    o <- file_write_loop (Datatypes.S (length buffer)) (fst l) buffer (snd l);; co_ret (tt, Some o)).

Fixpoint file_read_loop (fuel : nat) (fd max_bytes offset : Z) (out : bytes) : Co (File * E) (bytes * Z) :=
  match fuel with
  | O => co_fuel
  | Datatypes.S fuel =>
      r <- on_fs (fs_Read fd 4096 offset);;
      if fst r =? 0 then co_ret (out, offset)
      else if fst r <? 0 then co_throw file_read_failed
      else if max_bytes <? sz_add (size_of out) (fst r) then co_throw file_exceeded
      else file_read_loop fuel fd max_bytes (offset + fst r) (out ++ take (Z.to_nat (fst r)) (snd r))
  end.
Definition file_read_until_eof (fuel : nat) (max_bytes : Z) : Co (File * E) bytes :=
  with_lease true "read_until_eof"%bs (fun l =>
    r <- file_read_loop fuel (fst l) max_bytes (snd l) [];; co_ret (fst r, Some (snd r))).

Definition file_sync : Co (File * E) unit :=
  with_lease false "sync"%bs (fun l => on_fs (fs_Fsync (fst l));;; co_ret (tt, None)).
Definition file_datasync : Co (File * E) unit :=
  with_lease false "datasync"%bs (fun l => on_fs (fs_Fdatasync (fst l));;; co_ret (tt, None)).

Definition file_close : Co (File * E) unit :=
  c <- on_file close_begin;;
  match c with
  | None => co_ret tt
  | Some fd => co_cleanup (on_fs (fs_Close fd)) (fun x => (close_end false (fst x), snd x));;; upd (close_end true)
  end.

(** [io::open]: [to_offset] comes after the file was opened. *)
Definition file_open (path : bytes) (flags mode offset : Z) : Co E File :=
  fd <- fs_Open path flags mode;;
  o <- (fun e => (to_offset offset "open"%bs, e));;
  co_ret (new_file fd o).

(** [fs::read_file]: a file of [st_size] bytes, read into a string of that
    size; on an exception the descriptor is closed again. *)
Fixpoint read_file_loop (fuel : nat) (fd size : Z) (out : bytes) : Co E bytes :=
  match fuel with
  | O => co_fuel
  | Datatypes.S fuel =>
      if size <=? size_of out then co_ret out
      else
        r <- fs_Read fd (size - size_of out) (size_of out);;
        if fst r =? 0 then co_ret out else read_file_loop fuel fd size (out ++ take (Z.to_nat (fst r)) (snd r))
  end.
Definition read_file (fuel : nat) (path : bytes) : Co E bytes :=
  fd <- fs_Open path 0 0;;
  co_cleanup
    (st <- fs_Fstat fd;;
     out <- read_file_loop fuel fd (if 0 <? st then st else 0) [];;
     fs_Close fd;;; co_ret out)
    (fun e => snd (uv_fs_close fd e)).
End Operations.

(** ** Several tasks *)

(** A task in the middle of an operation. *)
Inductive file_pc :=
| FpRunning (sequential : bool) (fd : Z)   (* a request is under way *)
| FpClosing (fd : Z)                       (* in [fs::Close] *)
| FpDone.

Record FileTasks := mkTasks {
  ft_file : File;
  ft_tasks : list file_pc;
  ft_leaked : nat                          (* leases that were not given back *)
}.

Inductive file_label :=
| FStart (sequential : bool) (op : bytes)
| FStartAt (offset : Z) (op : bytes)       (* [read_at] and [write_at] *)
| FEnd (k : nat) (update : option Z)       (* the request has ended; the position is updated or not *)
| FSeek (offset : Z)
| FClose
| FClosed (k : nat) (ok : bool).

(** The call and its first critical section; the pc of the new task. *)
Definition file_enter (r : result (Z * Z)) (sequential : bool) : file_pc :=
  match r with Ok l => FpRunning sequential (fst l) | _ => FpDone end.

Definition file_step (l : file_label) (s : FileTasks) : option FileTasks :=
  let add f pc leaked := Some (mkTasks f (ft_tasks s ++ [pc]) leaked) in
  match l with
  | FStart sequential op =>
      let '(r, f) := acquire sequential op (ft_file s) in add f (file_enter r sequential) (ft_leaked s)
  | FStartAt offset op =>
      let '(r, f) := acquire false op (ft_file s) in
      match r, to_offset offset op with
      | Ok _, Throw _ => add f FpDone (Datatypes.S (ft_leaked s))
      | _, _ => add f (file_enter r false) (ft_leaked s)
      end
  | FEnd k update =>
      match ft_tasks s !! k with
      | Some (FpRunning sequential _) =>
          Some (mkTasks (release_file sequential (if sequential then update else None) (ft_file s)) (<[k := FpDone]> (ft_tasks s)) (ft_leaked s))
      | _ => None
      end
  | FSeek offset => Some (mkTasks (snd (seek offset (ft_file s))) (ft_tasks s) (ft_leaked s))
  | FClose =>
      let '(r, f) := close_begin (ft_file s) in
      add f (match r with Ok (Some fd) => FpClosing fd | _ => FpDone end) (ft_leaked s)
  | FClosed k ok =>
      match ft_tasks s !! k with
      | Some (FpClosing _) => Some (mkTasks (close_end ok (ft_file s)) (<[k := FpDone]> (ft_tasks s)) (ft_leaked s))
      | _ => None
      end
  end.

Fixpoint file_run (ls : list file_label) (s : FileTasks) : option FileTasks :=
  match ls with
  | [] => Some s
  | l :: ls => match file_step l s with Some s' => file_run ls s' | None => None end
  end.

Definition is_running (pc : file_pc) : bool := match pc with FpRunning _ _ => true | _ => false end.
Definition is_sequential (pc : file_pc) : bool := match pc with FpRunning b _ => b | _ => false end.
Definition is_closing (pc : file_pc) : bool := match pc with FpClosing _ => true | _ => false end.

Record file_inv (s : FileTasks) : Prop := {
  fi_inflight : f_inflight (ft_file s) = (count is_running (ft_tasks s) + ft_leaked s)%nat;
  fi_sequential : count is_sequential (ft_tasks s) = if f_busy (ft_file s) then 1%nat else 0%nat;
  fi_closing : count is_closing (ft_tasks s) = if f_closing (ft_file s) then 1%nat else 0%nat;
  fi_fd : Forall (fun pc => match pc with
                            | FpRunning _ fd => f_file (ft_file s) = Some fd /\ f_closing (ft_file s) = false
                            | FpClosing fd => f_file (ft_file s) = Some fd
                            | FpDone => True
                            end) (ft_tasks s);
  fi_open : f_closing (ft_file s) = true -> f_file (ft_file s) <> None
}.

Lemma no_running l : count is_running l = 0%nat -> forall k b fd, l !! k <> Some (FpRunning b fd).
Proof. intros H k b fd Hk. eapply count_zero; [by eapply list_elem_of_lookup_2 | | exact H]. done. Qed.

(** A new task, and a task that ends. *)
Lemma file_inv_add s f pc leaked :
  file_inv s -> f_file f = f_file (ft_file s) -> f_closing f = f_closing (ft_file s) -> pc <> FpDone -> is_closing pc = false ->
  (match pc with FpRunning _ fd => f_file f = Some fd /\ f_closing f = false | _ => True end) ->
  f_inflight f = Datatypes.S (f_inflight (ft_file s)) -> (f_busy f = is_sequential pc || f_busy (ft_file s)) ->
  (is_sequential pc = true -> f_busy (ft_file s) = false) -> leaked = ft_leaked s ->
  file_inv (mkTasks f (ft_tasks s ++ [pc]) leaked).
Proof.
  intros [I1 I2 I3 I4 I5] Hf Hc Hpc Hncl Hfd Hin Hb Hseq ->. destruct pc as [b fd| |]; [|done|done]. simpl in *.
  constructor; simpl; rewrite ?count_snoc; simpl.
  - lia.
  - rewrite I2, Hb. destruct b; simpl; [by rewrite Hseq | lia].
  - rewrite I3, Hc. lia.
  - apply Forall_app. split; [by rewrite Hf, Hc | by apply Forall_singleton].
  - by rewrite Hc, Hf.
Qed.

Lemma file_inv_done s f leaked :
  file_inv s -> f_file f = f_file (ft_file s) -> f_closing f = f_closing (ft_file s) -> f_busy f = f_busy (ft_file s) ->
  (f_inflight f + ft_leaked s = f_inflight (ft_file s) + leaked)%nat -> file_inv (mkTasks f (ft_tasks s ++ [FpDone]) leaked).
Proof.
  intros [I1 I2 I3 I4 I5] Hf Hc Hb Hin. constructor; simpl; rewrite ?count_snoc, ?Hf, ?Hc, ?Hb; simpl.
  - lia.
  - lia.
  - lia.
  - apply Forall_app. split; [done | by repeat constructor].
  - done.
Qed.

Lemma acquire_cases sequential op f r f' :
  acquire sequential op f = (r, f') ->
  (exists fd, r = Ok (fd, f_offset f) /\ f_file f = Some fd /\ f_closing f = false /\ (sequential = true -> f_busy f = false) /\
     f' = mkFile (f_file f) (f_offset f) (Datatypes.S (f_inflight f)) (sequential || f_busy f) (f_closing f)) \/
  ((exists e, r = Throw e) /\ f' = f).
Proof.
  unfold acquire. destruct (f_file f) as [fd|] eqn:Ef; [|intros [= <- <-]; eauto]. destruct (f_closing f) eqn:Ec; [intros [= <- <-]; eauto|].
  destruct (sequential && f_busy f) eqn:Eb; intros [= <- <-]; [eauto|]. left. exists fd. split_and!; try done. intros ->. by destruct (f_busy f).
Qed.

Lemma seek_file offset f : let f' := snd (seek offset f) in
  f_file f' = f_file f /\ f_inflight f' = f_inflight f /\ f_busy f' = f_busy f /\ f_closing f' = f_closing f.
Proof. unfold seek. destruct (to_offset _ _), (file_is_open f), (f_closing f || f_busy f); done. Qed.

Lemma file_end_inv s k b fd update :
  file_inv s -> ft_tasks s !! k = Some (FpRunning b fd) ->
  file_inv (mkTasks (release_file b update (ft_file s)) (<[k := FpDone]> (ft_tasks s)) (ft_leaked s)).
Proof.
  intros [I1 I2 I3 I4 I5] Hk.
  pose proof (count_insert is_running _ k _ FpDone Hk) as C1. pose proof (count_insert is_sequential _ k _ FpDone Hk) as C2.
  pose proof (count_insert is_closing _ k _ FpDone Hk) as C3. simpl in *. constructor; simpl.
  - lia.
  - destruct b; destruct (f_busy (ft_file s)); simpl in *; lia.
  - lia.
  - by apply Forall_insert.
  - done.
Qed.

Lemma file_close_begin_inv s r f :
  file_inv s -> close_begin (ft_file s) = (r, f) ->
  file_inv (mkTasks f (ft_tasks s ++ [match r with Ok (Some fd) => FpClosing fd | _ => FpDone end]) (ft_leaked s)).
Proof.
  intros Hs. pose proof (fun f H1 H2 H3 H4 => file_inv_done s f (ft_leaked s) Hs H1 H2 H3 H4) as Hdone. destruct Hs as [I1 I2 I3 I4 I5].
  unfold close_begin. destruct (f_file (ft_file s)) as [fd|] eqn:Ef; [|intros [= <- <-]; apply Hdone; congruence].
  destruct (f_closing (ft_file s)) eqn:Ec; [intros [= <- <-]; apply Hdone; congruence|].
  destruct (negb _ || _) eqn:Eb; [intros [= <- <-]; apply Hdone; congruence|]. apply orb_false_elim in Eb as [Ei Eb].
  apply negb_false_iff, Nat.eqb_eq in Ei. intros [= <- <-]. constructor; simpl; rewrite ?count_snoc; simpl.
  - lia.
  - rewrite I2, Eb. lia.
  - lia.
  - apply Forall_app. split; [|by apply Forall_singleton].
    apply Forall_lookup. intros k pc Hk. rewrite Forall_lookup in I4. specialize (I4 k pc Hk). destruct pc as [b fd'| |]; [|by destruct I4|done].
    exfalso. eapply no_running; [|exact Hk]. lia.
  - done.
Qed.

Lemma file_closed_inv s k fd ok :
  file_inv s -> ft_tasks s !! k = Some (FpClosing fd) ->
  file_inv (mkTasks (close_end ok (ft_file s)) (<[k := FpDone]> (ft_tasks s)) (ft_leaked s)).
Proof.
  intros [I1 I2 I3 I4 I5] Hk.
  pose proof (count_insert is_running _ k _ FpDone Hk) as C1. pose proof (count_insert is_sequential _ k _ FpDone Hk) as C2.
  pose proof (count_insert is_closing _ k _ FpDone Hk) as C3. simpl in *.
  assert (f_closing (ft_file s) = true) as Hc by (destruct (f_closing (ft_file s)); [done | lia]). rewrite Hc in *.
  assert (count is_closing (<[k := FpDone]> (ft_tasks s)) = 0%nat) as C4 by lia.
  unfold close_end. destruct ok; constructor; simpl; try (done || lia).
  all: apply Forall_lookup; intros j pc Hj; destruct pc as [b fd'|fd'|]; [| |done].
  all: assert (j <> k) as Hne by (intros ->; rewrite list_lookup_insert_eq in Hj by (by eapply lookup_lt_Some); done).
  all: pose proof Hj as Hj'; rewrite list_lookup_insert_ne in Hj' by done; rewrite Forall_lookup in I4; specialize (I4 j _ Hj'); simpl in I4.
  - by destruct I4.
  - exfalso. eapply (count_zero is_closing); [exact (list_elem_of_lookup_2 _ _ _ Hj) | done | exact C4].
  - by destruct I4.
  - done.
Qed.

Lemma file_step_inv l s s' : file_inv s -> file_step l s = Some s' -> file_inv s'.
Proof.
  intros Hs. destruct l as [b op|o op|k update|o| |k ok]; simpl.
  - destruct (acquire b op (ft_file s)) as [r f] eqn:E. intros [= <-].
    apply acquire_cases in E as [(fd & -> & E1 & E2 & E3 & ->)|[[e ->] ->]]; [|by apply file_inv_done].
    by apply file_inv_add.
  - destruct (acquire false op (ft_file s)) as [r f] eqn:E.
    apply acquire_cases in E as [(fd & -> & E1 & E2 & E3 & ->)|[[e ->] ->]].
    + unfold to_offset. destruct (_ <? _); intros [= <-]; [apply file_inv_done; simpl; try done; lia | by apply file_inv_add].
    + intros [= <-]. by apply file_inv_done.
  - destruct (ft_tasks s !! k) as [[b fd| |]|] eqn:Hk; [|done|done|done]. intros [= <-]. by eapply file_end_inv.
  - intros [= <-]. destruct (seek_file o (ft_file s)) as (F1 & F2 & F3 & F4). destruct Hs as [I1 I2 I3 I4 I5].
    constructor; simpl; rewrite ?F1, ?F2, ?F3, ?F4; done.
  - destruct (close_begin (ft_file s)) as [r f] eqn:E. intros [= <-]. by apply file_close_begin_inv.
  - destruct (ft_tasks s !! k) as [[b fd|fd|]|] eqn:Hk; [done| |done|done]. intros [= <-]. by eapply file_closed_inv.
Qed.

Lemma file_run_inv ls s s' : file_inv s -> file_run ls s = Some s' -> file_inv s'.
Proof.
  revert s. induction ls as [|l ls IH]; intros s Hs H; simpl in H; [by injection H as <-|].
  destruct (file_step l s) as [t|] eqn:E; [|done]. eapply IH; [by eapply file_step_inv | done].
Qed.

Definition opened_tasks (fd offset : Z) : FileTasks := mkTasks (new_file fd offset) [] 0.
Lemma opened_tasks_inv fd offset : file_inv (opened_tasks fd offset).
Proof. constructor; simpl; try done. Qed.

(** ** Transfers *)

Definition overwrite (off : nat) (d content : bytes) : bytes := take off content ++ d ++ drop (off + length d) content.

(** A file system on which nothing fails: transfers may be short. *)
Class FsLaws (E : Type) `{UvFs E} := {
  fs_data : Z -> E -> bytes;
  fs_read_ok : forall fd len off e, 0 < len -> 0 <= off -> exists d e',
    uv_fs_read fd len off e = (((0, size_of d), d), e') /\ size_of d <= len /\ size_of d < 2 ^ 31 /\
    d `prefix_of` drop (Z.to_nat off) (fs_data fd e) /\ (d = [] -> size_of (fs_data fd e) <= off) /\ fs_data fd e' = fs_data fd e;
  fs_write_ok : forall fd d off e, d <> [] -> 0 <= off <= size_of (fs_data fd e) -> exists n e',
    uv_fs_write fd d off e = ((0, n), e') /\ 0 < n <= size_of d /\ n < 2 ^ 31 /\
    fs_data fd e' = overwrite (Z.to_nat off) (take (Z.to_nat n) d) (fs_data fd e)
}.


Lemma overwrite_app off d1 d2 content :
  (off <= length content)%nat -> overwrite (off + length d1) d2 (overwrite off d1 content) = overwrite off (d1 ++ d2) content.
Proof.
  intros Ho. unfold overwrite. assert (length (take off content) = off) as Ht by (rewrite length_take; lia).
  rewrite take_app_ge, Ht by lia. replace (off + length d1 - off)%nat with (length d1) by lia. rewrite take_app_length.
  rewrite drop_app_ge, Ht by lia. rewrite drop_app_ge by lia. rewrite drop_drop, length_app, <- !app_assoc. do 4 f_equal. lia.
Qed.

Section Transfers.
Context {E : Type} `{FsLaws E}.

Lemma fs_Write_ok fd buffer off e :
  buffer <> [] -> 0 <= off <= size_of (fs_data fd e) -> exists n e',
    fs_Write fd buffer off e = (Ok n, e') /\ 0 < n <= size_of buffer /\
    fs_data fd e' = overwrite (Z.to_nat off) (take (Z.to_nat n) buffer) (fs_data fd e).
Proof.
  intros Hb Hoff. unfold fs_Write. set (m := Z.min (size_of buffer) UINT32_MAX).
  assert (0 < m <= size_of buffer) as Hm.
  { destruct buffer as [|c l]; [done|]. unfold m, UINT32_MAX, size_of. simpl. lia. }
  destruct (fs_write_ok fd (take (Z.to_nat m) buffer) off e) as (n & e' & -> & Hn & Hn31 & Hd); [|done|].
  { intros Hz. apply (f_equal size_of) in Hz. rewrite size_of_take in Hz by lia. unfold size_of in Hz. simpl in Hz. lia. }
  rewrite size_of_take in Hn by lia. exists n, e'. unfold fs_check, normalize_uv_fs_rc. simpl. rewrite to_int_small by lia.
  replace (n <? 0) with false by lia. split_and!; [done | lia | lia |]. rewrite Hd, take_take. do 2 f_equal. lia.
Qed.

Lemma fs_Read_ok fd len off e :
  0 < len -> 0 <= off -> exists d e',
    fs_Read fd len off e = (Ok (size_of d, d), e') /\ size_of d <= len /\ d `prefix_of` drop (Z.to_nat off) (fs_data fd e) /\
    (d = [] -> size_of (fs_data fd e) <= off) /\ fs_data fd e' = fs_data fd e.
Proof.
  intros Hl Ho. unfold fs_Read. destruct (fs_read_ok fd (Z.min len UINT32_MAX) off e) as (d & e' & -> & R1 & R2 & R3 & R4 & R5);
    [unfold UINT32_MAX; lia | done |].
  pose proof (size_of_nonneg d). exists d, e'. unfold fs_check, normalize_uv_fs_rc. simpl. rewrite to_int_small by lia.
  replace (size_of d <? 0) with false by lia. split_and!; try done. lia.
Qed.

Lemma file_write_loop_ok fuel fd buffer off e :
  (length buffer < fuel)%nat -> 0 <= off <= size_of (fs_data fd e) ->
  exists e', (forall f, file_write_loop fuel fd buffer off (f, e) = (Ok (off + size_of buffer), (f, e'))) /\
    fs_data fd e' = overwrite (Z.to_nat off) buffer (fs_data fd e).
Proof.
  revert buffer off e. induction fuel as [|fuel IH]; intros buffer off e Hf Ho; [lia|]. simpl. destruct (decide (buffer = [])) as [->|Hb].
  - exists e. unfold size_of, overwrite. simpl. rewrite Z.add_0_r, Nat.add_0_r, take_drop. done.
  - destruct (fs_Write_ok fd buffer off e Hb Ho) as (n & e1 & Hw & Hn & Hd).
    assert (length (take (Z.to_nat n) buffer) = Z.to_nat n) as Hlt by (rewrite length_take; unfold size_of in *; lia).
    destruct (IH (drop (Z.to_nat n) buffer) (off + n) e1) as (e2 & Hl & Hd2).
    { rewrite length_drop. unfold size_of in *. lia. }
    { rewrite Hd. unfold overwrite, size_of in *. rewrite !length_app, Hlt, length_take, length_drop. lia. }
    exists e2. split.
    + intros f. erewrite co_bind_ok by (unfold on_fs; simpl; by rewrite Hw). simpl. replace (n <=? 0) with false by lia.
      rewrite Hl. do 2 f_equal. rewrite size_of_drop by (unfold size_of in *; lia). lia.
    + rewrite Hd2, Hd, Z2Nat.inj_add by lia. rewrite <- Hlt at 1. rewrite overwrite_app by (unfold size_of in *; lia). by rewrite take_drop.
Qed.

Lemma file_read_loop_ok fuel fd limit off out e :
  (length (drop (Z.to_nat off) (fs_data fd e)) < fuel)%nat -> 0 <= off <= size_of (fs_data fd e) ->
  size_of out + size_of (drop (Z.to_nat off) (fs_data fd e)) <= limit -> limit < 2 ^ 63 ->
  exists e', (forall f, file_read_loop fuel fd limit off out (f, e) = (Ok (out ++ drop (Z.to_nat off) (fs_data fd e), size_of (fs_data fd e)), (f, e'))) /\
    fs_data fd e' = fs_data fd e.
Proof.
  revert off out e. induction fuel as [|fuel IH]; intros off out e Hf Ho Hl Hl63; [lia|]. cbn [file_read_loop].
  destruct (fs_Read_ok fd 4096 off e) as (d & e1 & Hr & R1 & (rest & R2) & R3 & R4); [done | lia |].
  assert (forall f : File, on_fs (fs_Read fd 4096 off) (f, e) = (Ok (size_of d, d), (f, e1))) as Hrf
    by (intros f; unfold on_fs; cbn [fst snd]; by rewrite Hr).
  pose proof (size_of_nonneg d). pose proof (size_of_nonneg out). destruct (Z.eqb_spec (size_of d) 0) as [Hz|Hz].
  - apply size_of_nil_inv in Hz. specialize (R3 Hz). exists e1. rewrite drop_ge by (unfold size_of in *; lia). rewrite app_nil_r.
    split; [|done]. intros f. rewrite (co_bind_ok _ _ _ _ _ (Hrf f)). cbn [fst snd]. rewrite Hz. cbn. unfold co_ret. do 3 f_equal. lia.
  - rewrite R2, size_of_app in Hl. pose proof (size_of_nonneg rest).
    assert (drop (Z.to_nat (off + size_of d)) (fs_data fd e1) = rest) as Hdrop.
    { rewrite R4, Z2Nat.inj_add, <- drop_drop, R2 by lia. rewrite drop_app_ge by (unfold size_of; lia).
      replace (Z.to_nat (size_of d) - length d)%nat with 0%nat by (unfold size_of; lia). done. }
    destruct (IH (off + size_of d) (out ++ d) e1) as (e2 & Hl2 & Hd2).
    { rewrite Hdrop. rewrite R2, length_app in Hf. unfold size_of in *. lia. }
    { rewrite R4. apply (f_equal size_of) in R2. rewrite size_of_drop, size_of_app in R2 by lia. lia. }
    { rewrite Hdrop, size_of_app. lia. }
    { done. }
    exists e2. split; [|congruence]. intros f. rewrite (co_bind_ok _ _ _ _ _ (Hrf f)). cbn [fst snd].
    replace (size_of d =? 0) with false by lia. replace (size_of d <? 0) with false by lia.
    rewrite sz_add_small by (unfold W64; lia). replace (limit <? size_of out + size_of d) with false by lia.
    rewrite (take_ge d) by (unfold size_of; lia). by rewrite Hl2, Hdrop, R2, R4, <- app_assoc.
Qed.

(** A file on which nothing is under way. *)
Definition file_idle (fd : Z) (f : File) : Prop :=
  f_file f = Some fd /\ f_closing f = false /\ f_busy f = false /\ f_inflight f = 0%nat.

Definition at_offset (o : Z) (f : File) : File := mkFile (f_file f) o (f_inflight f) (f_busy f) (f_closing f).

(** A sequential operation whose body succeeds. *)
Lemma with_lease_ok {A} op (body : Z * Z -> Co (File * E) (A * option Z)) fd f e a o e' :
  file_idle fd f ->
  (forall g, body (fd, f_offset f) (g, e) = (Ok (a, Some o), (g, e'))) ->
  with_lease true op body (f, e) = (Ok a, (at_offset o f, e')).
Proof.
  intros (F1 & F2 & F3 & F4) Hb. unfold with_lease. erewrite co_bind_ok by (unfold on_file, acquire; cbn [fst snd]; rewrite F1, F2, F3; reflexivity).
  erewrite co_bind_ok by (unfold co_cleanup; rewrite Hb; reflexivity). unfold co_bind, upd, co_ret, release_file, at_offset. cbn. by rewrite F1, F2, F3, F4.
Qed.

Lemma file_write_all_ok buffer fd f e :
  file_idle fd f -> 0 <= f_offset f <= size_of (fs_data fd e) ->
  exists e', file_write_all buffer (f, e) = (Ok tt, (at_offset (f_offset f + size_of buffer) f, e')) /\
    fs_data fd e' = overwrite (Z.to_nat (f_offset f)) buffer (fs_data fd e).
Proof.
  intros Hi Ho.
  destruct (file_write_loop_ok (Datatypes.S (length buffer)) fd buffer (f_offset f) e) as (e' & Hw & Hd); [lia | done |].
  exists e'. split; [|done]. apply with_lease_ok with fd; [done|]. intros g. by rewrite (co_bind_ok _ _ _ _ _ (Hw g)).
Qed.

Lemma file_read_until_eof_ok fuel limit fd f e :
  file_idle fd f -> 0 <= f_offset f <= size_of (fs_data fd e) -> size_of (fs_data fd e) <= limit < 2 ^ 63 -> (length (fs_data fd e) < fuel)%nat ->
  exists e', file_read_until_eof fuel limit (f, e) = (Ok (drop (Z.to_nat (f_offset f)) (fs_data fd e)), (at_offset (size_of (fs_data fd e)) f, e')) /\
    fs_data fd e' = fs_data fd e.
Proof.
  intros Hi Ho Hl Hf. pose proof (size_of_nonneg (fs_data fd e)).
  destruct (file_read_loop_ok fuel fd limit (f_offset f) [] e) as (e' & Hr & Hd).
  - rewrite length_drop. lia.
  - done.
  - rewrite size_of_drop by lia. change (size_of []) with 0. lia.
  - lia.
  - exists e'. split; [|done]. apply with_lease_ok with fd; [done|]. intros g. by rewrite (co_bind_ok _ _ _ _ _ (Hr g)).
Qed.
End Transfers.

(** ** Theorems *)

(** C29: Whatever operations of a file are called, whenever their requests end and
    whenever [close] is called and succeeds or fails: a request under way is
    on the file's descriptor, which is not being closed; at most one of the
    operations that move the position is under way; while [fs::Close] is
    under way nothing else is; and [inflight] counts the requests under way
    together with the leases that were lost. *)
Theorem file_lease_safety ls fd offset s :
  file_run ls (opened_tasks fd offset) = Some s ->
  (forall k b fd', ft_tasks s !! k = Some (FpRunning b fd') -> f_file (ft_file s) = Some fd' /\ f_closing (ft_file s) = false) /\
  (count is_sequential (ft_tasks s) <= 1)%nat /\
  (f_closing (ft_file s) = true -> count is_running (ft_tasks s) = 0%nat) /\
  f_inflight (ft_file s) = (count is_running (ft_tasks s) + ft_leaked s)%nat.
Proof.
  intros Hrun. pose proof (file_run_inv _ _ _ (opened_tasks_inv fd offset) Hrun) as [I1 I2 I3 I4 I5]. split_and!; [| | |done].
  - intros k b fd' Hk. rewrite Forall_lookup in I4. exact (I4 k _ Hk).
  - rewrite I2. by destruct (f_busy (ft_file s)); lia.
  - intros Hc. destruct (count is_running (ft_tasks s)) eqn:Er; [done|].
    destruct (count_pos is_running (ft_tasks s)) as (pc & Hpc & Hr); [lia|]. rewrite Forall_forall in I4. specialize (I4 pc Hpc).
    destruct pc; try done. destruct I4. congruence.
Qed.

Lemma file_lease_safety_witness :
  exists s, file_run [FStart true []; FStart true []; FStart false []; FClose; FEnd 0 (Some 5); FEnd 2 None; FClose; FClosed 4 true] (opened_tasks 7 0) = Some s /\
    f_inflight (ft_file s) = 0%nat /\ f_file (ft_file s) = None.
Proof.
  eexists. split; [vm_compute; reflexivity|]. split; [|reflexivity].
  exact (proj2 (proj2 (proj2 (file_lease_safety [FStart true []; FStart true []; FStart false []; FClose; FEnd 0 (Some 5); FEnd 2 None; FClose; FClosed 4 true]
    7 0 (mkTasks (mkFile None 0 0 false false) [FpDone; FpDone; FpDone; FpDone; FpDone] 0) eq_refl)))).
Defined.

(** C30: Data survives the file: on a file system on which nothing fails,
    [write_all] at a position replaces exactly the bytes there, in spite of
    short writes, and after [seek] back to that position [read_until_eof]
    returns the data and what follows it, in spite of short reads; the
    position ends behind what was written and at the end of the file. *)
Theorem file_write_read_roundtrip {E} `{FsLaws E} buffer fd f (e : E) fuel limit :
  file_idle fd f -> 0 <= f_offset f <= size_of (fs_data fd e) -> f_offset f + size_of buffer + size_of (fs_data fd e) <= limit < 2 ^ 63 ->
  (length (fs_data fd e) + length buffer < fuel)%nat ->
  exists e1 e2,
    file_write_all buffer (f, e) = (Ok tt, (at_offset (f_offset f + size_of buffer) f, e1)) /\
    fs_data fd e1 = overwrite (Z.to_nat (f_offset f)) buffer (fs_data fd e) /\
    (on_file (seek (f_offset f));;; file_read_until_eof fuel limit) (at_offset (f_offset f + size_of buffer) f, e1) =
      (Ok (buffer ++ drop (Z.to_nat (f_offset f) + length buffer) (fs_data fd e)), (at_offset (size_of (fs_data fd e1)) f, e2)).
Proof.
  intros Hi Ho Hl Hf. destruct (file_write_all_ok buffer fd f e Hi Ho) as (e1 & Hw & Hd). pose proof (size_of_nonneg buffer).
  assert (length (fs_data fd e1) <= length (fs_data fd e) + length buffer /\ (Z.to_nat (f_offset f) + length buffer <= length (fs_data fd e1)))%nat as Hlen.
  { rewrite Hd. unfold overwrite, size_of in *. rewrite !length_app, length_take, length_drop. lia. }
  destruct Hi as (F1 & F2 & F3 & F4).
  destruct (file_read_until_eof_ok fuel limit fd f e1) as (e2 & Hr & _); [done | unfold size_of in *; lia | unfold size_of in *; lia | lia |].
  exists e1, e2. split; [done|]. split; [done|].
  erewrite co_bind_ok.
  2:{ unfold on_file, seek, to_offset, INT64_MAX. cbn [fst snd]. replace (2 ^ 63 - 1 <? f_offset f) with false by (unfold size_of in *; lia).
      unfold file_is_open. cbn [f_file f_closing f_busy at_offset]. rewrite F1, F2, F3. reflexivity. }
  assert (mkFile (f_file (at_offset (f_offset f + size_of buffer) f)) (f_offset f) (f_inflight f) (f_busy f) (f_closing f) = f) as Hf' by (by destruct f).
  cbn [fst snd f_file at_offset f_inflight f_busy f_closing] in *. rewrite F1, F2, F3 in Hf'. rewrite Hf', Hr, Hd. do 3 f_equal.
  unfold overwrite. rewrite drop_app_ge by (rewrite length_take; lia). rewrite length_take, Nat.min_l by (unfold size_of in *; lia).
  by rewrite Nat.sub_diag.
Qed.

(** *** A file in memory, with short transfers *)

Record MemFs := mkMem { mf_data : bytes; mf_quota : Z }.
(** How much a transfer of [len] bytes moves at most. *)
Definition mem_len (e : MemFs) (len : Z) : nat := Z.to_nat (Z.min len (Z.min (Z.max 1 (mf_quota e)) 2147479552)).

#[export] Instance mem_fs : UvFs MemFs := {
  uv_strerror_fs _ := "error"%bs;
  uv_fs_open _ _ _ e := ((0, 3), e);
  uv_fs_fstat _ e := (((0, 0), size_of (mf_data e)), e);
  uv_fs_read _ len off e := let d := take (mem_len e len) (drop (Z.to_nat off) (mf_data e)) in (((0, size_of d), d), e);
  uv_fs_write _ d off e :=
    let t := take (mem_len e (size_of d)) d in ((0, size_of t), mkMem (overwrite (Z.to_nat off) t (mf_data e)) (mf_quota e));
  uv_fs_fsync _ e := ((0, 0), e);
  uv_fs_fdatasync _ e := ((0, 0), e);
  uv_fs_close _ e := ((0, 0), e)
}.

#[export] Instance mem_fs_laws : FsLaws MemFs.
Proof.
  refine {| fs_data _ e := mf_data e |}; simpl.
  - intros _ len off e Hl Ho. eexists _, e. split; [reflexivity|].
    assert (0 < Z.min len (Z.min (Z.max 1 (mf_quota e)) 2147479552) <= len) as Hq by lia.
    unfold size_of at 1 2. rewrite length_take, length_drop. unfold mem_len.
    split_and!; try done; [lia | lia | by eexists; rewrite take_drop |].
    intros Hd. apply (f_equal length) in Hd. rewrite length_take, length_drop in Hd. unfold size_of. simpl in Hd. lia.
  - intros _ d off e Hd Ho. set (n := mem_len e (size_of d)).
    assert (0 < size_of d) as Hpos by (destruct d; [done | unfold size_of; simpl; lia]).
    assert (size_of (take n d) = Z.of_nat n /\ 0 < Z.of_nat n <= size_of d /\ Z.of_nat n < 2 ^ 31) as (Hsz & Hn & H31).
    { unfold n, mem_len, size_of in *. rewrite length_take. lia. }
    eexists _, _. split; [reflexivity|]. simpl. rewrite Hsz. split_and!; [lia | lia | lia |].
    by rewrite Nat2Z.id.
Defined.

Lemma file_write_read_roundtrip_witness :
  exists e1 e2 : MemFs,
    file_write_all "world"%bs (new_file 3 6, mkMem "hello there, all"%bs 2) = (Ok tt, (new_file 3 11, e1)) /\
    (on_file (seek 6);;; file_read_until_eof 30 100) (new_file 3 11, e1) = (Ok ("world"%bs ++ ", all"%bs), (new_file 3 16, e2)).
Proof.
  destruct (file_write_read_roundtrip "world"%bs 3 (new_file 3 6) (mkMem "hello there, all"%bs 2) 30 100) as (e1 & e2 & H1 & _ & H2).
  - by repeat split.
  - vm_compute. split; discriminate.
  - vm_compute. split; [discriminate | reflexivity].
  - vm_compute. lia.
  - exists e1, e2. split; [exact H1|]. injection H1 as <-. exact H2.
Defined.

(** *** Behaviours *)

(** [read_at] and [write_at] convert the offset after [acquire] and outside
    of the [try]: an offset beyond [INT64_MAX] throws and the lease is never
    given back, so that the file cannot be closed any more. *)
Theorem file_lease_leak fd offset value op ls s s' :
  INT64_MAX < value -> file_step (FStartAt value op) (opened_tasks fd offset) = Some s -> file_run ls s = Some s' ->
  ft_tasks s = [FpDone] /\ close_begin (ft_file s') = (Throw close_busy, ft_file s').
Proof.
  intros Hv Hs. assert (ft_tasks s = [FpDone] /\ ft_leaked s = 1%nat /\ f_file (ft_file s) = Some fd /\ f_closing (ft_file s) = false) as (T1 & T2 & T3 & T4).
  { simpl in Hs. unfold to_offset in Hs. replace (INT64_MAX <? value) with true in Hs by lia. by injection Hs as <-. }
  pose proof (file_step_inv _ _ _ (opened_tasks_inv fd offset) Hs) as Hi. intros Hr. split; [done|]. clear Hs T1.
  assert (ft_leaked s <> 0%nat /\ f_file (ft_file s) = Some fd /\ f_closing (ft_file s) = false) as Hp by (split_and!; [lia | done | done]).
  clear T2 T3 T4. revert s Hi Hp Hr. induction ls as [|l ls IH]; intros s Hi (P1 & P2 & P3) Hr; simpl in Hr.
  - injection Hr as <-. unfold close_begin. rewrite P2, P3. pose proof (fi_inflight _ Hi).
    replace (Nat.eqb (f_inflight (ft_file s)) 0) with false; [done|]. symmetry. apply Nat.eqb_neq. lia.
  - destruct (file_step l s) as [t|] eqn:E; [|done]. apply (IH t); [by eapply file_step_inv | | done]. clear IH Hr.
    destruct l as [b op'|o op'|k update|o| |k ok]; simpl in E.
    + destruct (acquire b op' (ft_file s)) as [r f] eqn:Ea. injection E as <-.
      by apply acquire_cases in Ea as [(? & -> & ? & ? & ? & ->)|[_ ->]]; simpl; split_and!.
    + destruct (acquire false op' (ft_file s)) as [r f] eqn:Ea.
      apply acquire_cases in Ea as [(? & -> & ? & ? & ? & ->)|[[? ->] ->]]; destruct (to_offset o op'); injection E as <-; simpl; by split_and!.
    + destruct (ft_tasks s !! k) as [[]|]; simplify_eq/=; by split_and!.
    + injection E as <-. destruct (seek_file o (ft_file s)) as (F1 & _ & _ & F4). simpl. rewrite F1, F4. by split_and!.
    + unfold close_begin in E. rewrite P2, P3 in E. pose proof (fi_inflight _ Hi).
      replace (Nat.eqb (f_inflight (ft_file s)) 0) with false in E by (symmetry; apply Nat.eqb_neq; lia). injection E as <-. by split_and!.
    + destruct (ft_tasks s !! k) as [pc|] eqn:Hk; [|done]. destruct pc; try done. exfalso. pose proof (fi_closing _ Hi) as Hc. rewrite P3 in Hc.
      eapply (count_zero is_closing); [exact (list_elem_of_lookup_2 _ _ _ Hk) | done | exact Hc].
Qed.

(** [io::open] converts the offset after the file was opened: if it throws,
    nobody closes the descriptor. *)
Theorem open_leaks_descriptor {E} `{UvFs E} path flags mode offset (e e' : E) fd :
  INT64_MAX < offset -> 0 <= fd < 2 ^ 31 -> uv_fs_open (c_string path) flags mode e = ((0, fd), e') ->
  exists x, file_open path flags mode offset e = (Throw x, e').
Proof.
  intros Ho Hfd He. unfold file_open, fs_Open, co_bind. rewrite He. unfold fs_check, normalize_uv_fs_rc. simpl. rewrite to_int_small by lia.
  replace (fd <? 0) with false by lia. unfold to_offset. replace (INT64_MAX <? offset) with true by lia. eauto.
Qed.

(** [read_file] closes the descriptor in its handler; when the exception is
    the one of [fs::Close], it is closed a second time. *)
Theorem read_file_closes_twice {E} `{UvFs E} path (e e1 e2 e3 : E) fd code :
  0 <= fd < 2 ^ 31 -> code < 0 -> uv_fs_open (c_string path) 0 0 e = ((0, fd), e1) -> uv_fs_fstat fd e1 = (((0, 0), 0), e2) ->
  uv_fs_close fd e2 = ((code, 0), e3) ->
  exists x, read_file 1 path e = (Throw x, snd (uv_fs_close fd e3)).
Proof.
  intros Hfd Hc Ho Hs Hcl. unfold read_file, fs_Open, co_bind at 1. rewrite Ho. unfold fs_check, normalize_uv_fs_rc. simpl. rewrite to_int_small by lia.
  replace (fd <? 0) with false by lia. unfold co_cleanup, fs_Fstat, co_bind at 1. rewrite Hs. simpl. unfold fs_Close, co_bind. simpl. rewrite Hcl.
  unfold fs_check, normalize_uv_fs_rc. simpl. replace (code <? 0) with true by lia. replace (code <? 0) with true by lia. eauto.
Qed.
