(* ===== verification/Paths.v ===== *)
(** * Paths (filesystem.h)

    [detail::normalize_path], [detail::normalized_to_string] and
    [detail::join_path].  Normalization is lexical: a path is a drive prefix,
    a flag and a list of parts, from which [.] is dropped and [..] removes the
    part before it.

    The theorems: the loop computes the parts that a scan of the whole path
    defines; what it returns is in normal form; printing and normalizing again
    changes nothing, unless the printed path begins with what looks like a
    drive. *)

From S2P Require Import Prelude CxxString.

Definition PSLASH : ascii := "/"%char.
Definition is_path_separator (ch : ascii) : bool := bool_decide (ch = "/"%char) || bool_decide (ch = "\"%char).

Record NormalizedPath := mkNormalized { np_prefix : bytes; np_absolute : bool; np_parts : list bytes }.

Definition isalpha (c : ascii) : bool := isupper c || islower c.

(** The separators at the front, and the text up to the next one. *)
Fixpoint skip_separators (s : bytes) : bytes :=
  match s with
  | c :: t => if is_path_separator c then skip_separators t else s
  | [] => []
  end.
Fixpoint take_part (s : bytes) : bytes * bytes :=
  match s with
  | c :: t => if is_path_separator c then ([], s) else let '(p, r) := take_part t in (c :: p, r)
  | [] => ([], [])
  end.

Definition dot : bytes := "."%bs.
Definition dotdot : bytes := ".."%bs.

(** The body of the loop, for one part. *)
Definition push_part (absolute : bool) (parts : list bytes) (part : bytes) : list bytes :=
  if decide (part = [] \/ part = dot) then parts
  else if decide (part = dotdot) then
    if decide (parts <> [] /\ last parts <> Some dotdot) then removelast parts
    else if absolute then parts else parts ++ [part]
  else parts ++ [part].

(** The loop over the rest of the path. *)
Fixpoint parts_of_path (fuel : nat) (absolute : bool) (parts : list bytes) (s : bytes) : list bytes :=
  match fuel with
  | O => parts
  | S fuel =>
      let '(part, rest) := take_part s in
      let parts := push_part absolute parts part in
      match skip_separators rest with
      | [] => parts
      | rest => parts_of_path fuel absolute parts rest
      end
  end.

Definition drive_prefix (path : bytes) : bytes :=
  match path with
  | c :: ":"%char :: _ => if isalpha c then take 2 path else []
  | _ => []
  end.

Definition normalize_path (path : bytes) : NormalizedPath :=
  let prefix := drive_prefix path in
  let rest := drop (length prefix) path in
  let body := skip_separators rest in
  let absolute := negb (bool_decide (length body = length rest)) in
  mkNormalized prefix absolute (parts_of_path (S (length body)) absolute [] body).

(** A separator before a part that is not the first. *)
Definition append_part (first : bool) (out part : bytes) : bytes :=
  (if first then out
   else match last out with
        | None => out
        | Some c => if decide (c = PSLASH) then out else out ++ [PSLASH]
        end) ++ part.
Fixpoint append_parts (first : bool) (out : bytes) (parts : list bytes) : bytes :=
  match parts with
  | [] => out
  | p :: parts => append_parts false (append_part first out p) parts
  end.

Definition path_root (p : NormalizedPath) : bytes := np_prefix p ++ (if np_absolute p then [PSLASH] else []).
Definition normalized_to_string (p : NormalizedPath) : bytes :=
  match append_parts true (path_root p) (np_parts p) with
  | [] => if np_absolute p then [PSLASH] else dot
  | out => out
  end.

Definition join_path (base name : bytes) : bytes :=
  if decide (base = [] \/ base = dot) then name
  else (match last base with
        | Some c => if decide (c = PSLASH) then base else base ++ [PSLASH]
        | None => base
        end) ++ name.

(** ** The parts, from a scan of the whole path *)

(** The text between separators; [cur] is the part begun. *)
Fixpoint path_tokens (cur s : bytes) : list bytes :=
  match s with
  | [] => [cur]
  | c :: t => if is_path_separator c then cur :: path_tokens [] t else path_tokens (cur ++ [c]) t
  end.

Lemma take_part_spec s : let '(p, r) := take_part s in s = p ++ r /\ Forall (fun c => is_path_separator c = false) p /\
  (r = [] \/ exists c t, r = c :: t /\ is_path_separator c = true).
Proof.
  induction s as [|c s IH]; simpl; [split_and!; [done | constructor | by left]|].
  destruct (is_path_separator c) eqn:Ec; [split_and!; [done | constructor | right; eauto]|].
  destruct (take_part s) as [p r]. destruct IH as (-> & Hp & Hr). split_and!; [done | by constructor | done].
Qed.

Lemma path_tokens_part cur p s :
  Forall (fun c => is_path_separator c = false) p -> path_tokens cur (p ++ s) = path_tokens (cur ++ p) s.
Proof.
  intros Hp. revert cur. induction Hp as [|c p Hc Hp IH]; intros cur; simpl; [by rewrite app_nil_r|].
  rewrite Hc, IH, <- app_assoc. done.
Qed.

Lemma push_nil absolute parts : push_part absolute parts [] = parts.
Proof. unfold push_part. rewrite decide_True by (by left). done. Qed.

(** Separators in a row have empty parts between them, which are dropped. *)
Lemma tokens_skip absolute parts s :
  fold_left (push_part absolute) (path_tokens [] (skip_separators s)) parts = fold_left (push_part absolute) (path_tokens [] s) parts.
Proof.
  induction s as [|c s IH]; simpl; [done|]. destruct (is_path_separator c) eqn:Ec; [|simpl; by rewrite Ec]. simpl. by rewrite push_nil.
Qed.

Lemma skip_separators_length s : length (skip_separators s) <= length s.
Proof. induction s as [|c s IH]; simpl; [lia|]. destruct (is_path_separator c); simpl; lia. Qed.

(** The fuel is enough: every round takes a part that is not empty. *)
Lemma parts_of_path_spec fuel absolute parts s :
  length s < fuel -> (s = [] \/ exists c t, s = c :: t /\ is_path_separator c = false) ->
  parts_of_path fuel absolute parts s = fold_left (push_part absolute) (path_tokens [] s) parts.
Proof.
  revert parts s. induction fuel as [|fuel IH]; intros parts s Hf Hs; [lia|]. simpl.
  pose proof (take_part_spec s) as Hp. destruct (take_part s) as [p r] eqn:Et. destruct Hp as (-> & Hp & Hr).
  rewrite (path_tokens_part [] p r Hp). simpl.
  destruct Hr as [->|(c & t & -> & Hc)]; simpl; [done|]. rewrite Hc. simpl.
  pose proof (tokens_skip absolute (push_part absolute parts p) t) as Hskip.
  destruct (skip_separators t) as [|c' t'] eqn:Ek; [simpl in Hskip; by rewrite push_nil in Hskip|].
  rewrite IH; [exact Hskip | |].
  - pose proof (skip_separators_length t). rewrite Ek in *. rewrite length_app in Hf. simpl in *. lia.
  - right. exists c', t'. split; [done|]. clear -Ek. induction t as [|a t IHt]; [done|]. simpl in Ek.
    destruct (is_path_separator a) eqn:Ea; [by apply IHt | congruence].
Qed.

Lemma skip_separators_head s : skip_separators s = [] \/ exists c t, skip_separators s = c :: t /\ is_path_separator c = false.
Proof.
  induction s as [|c s IH]; simpl; [by left|]. destruct (is_path_separator c) eqn:Ec; [done|]. right. eauto.
Qed.

(** [normalize_path] in terms of the scan. *)
Lemma normalize_parts path :
  np_parts (normalize_path path) =
  fold_left (push_part (np_absolute (normalize_path path))) (path_tokens [] (skip_separators (drop (length (drive_prefix path)) path))) [].
Proof. unfold normalize_path. cbn [np_parts np_absolute]. apply parts_of_path_spec; [lia | apply skip_separators_head]. Qed.

(** ** The normal form *)

Definition plain_text (p : bytes) : Prop := Forall (fun c => is_path_separator c = false) p.
Definition path_part_ok (p : bytes) : Prop := p <> [] /\ p <> dot /\ plain_text p.

(** Parents first, and none of them under a root. *)
Definition normal_parts (absolute : bool) (parts : list bytes) : Prop :=
  exists k rest, parts = replicate k dotdot ++ rest /\ Forall (fun p => p <> dotdot) rest /\ Forall path_part_ok parts /\ (absolute = true -> k = 0).

Lemma dotdot_ok : path_part_ok dotdot.
Proof. split_and!; [done | done |]. repeat constructor. Qed.

Lemma push_part_normal absolute parts p : plain_text p -> normal_parts absolute parts -> normal_parts absolute (push_part absolute parts p).
Proof.
  intros Hp (k & rest & -> & Hr & Hok & Hk). unfold push_part. case_decide as Hempty; [by exists k, rest|].
  apply Decidable.not_or in Hempty as [Hne Hnd]. case_decide as Hdd.
  - subst p. destruct rest as [|x rest _] using rev_ind.
    + rewrite app_nil_r in *. rewrite decide_False.
      * destruct absolute; [exists k, []; by rewrite app_nil_r|]. exists (S k), []. rewrite app_nil_r. split_and!; try done.
        -- simpl. by rewrite replicate_cons_app.
        -- rewrite Forall_app. split; [done|]. repeat constructor; apply dotdot_ok.
      * intros [Hnil Hl]. apply Hl. destruct k as [|k]; [done|]. simpl. rewrite replicate_cons_app. apply last_snoc.
    + rewrite !app_assoc in *. apply Forall_app in Hr as [Hr Hx]. apply Forall_cons in Hx as [Hx _]. apply Forall_app in Hok as [Hok _].
      rewrite decide_True; [|split; [by destruct (replicate k dotdot ++ rest) | rewrite last_snoc; congruence]].
      rewrite removelast_last. by exists k, rest.
  - exists k, (rest ++ [p]). rewrite app_assoc. split_and!; try done.
    + rewrite Forall_app. split; [done | by constructor].
    + rewrite Forall_app. split; [done|]. by repeat constructor.
Qed.

Lemma path_tokens_plain cur s : plain_text cur -> Forall plain_text (path_tokens cur s).
Proof.
  revert cur. induction s as [|c s IH]; intros cur Hc; simpl; [by constructor|]. destruct (is_path_separator c) eqn:Ec.
  - constructor; [done|]. apply IH. constructor.
  - apply IH. apply Forall_app. split; [done | by constructor].
Qed.

Lemma fold_push_normal absolute tokens parts :
  Forall plain_text tokens -> normal_parts absolute parts -> normal_parts absolute (fold_left (push_part absolute) tokens parts).
Proof.
  intros Ht. revert parts. induction Ht as [|p tokens Hp Ht IH]; intros parts Hn; simpl; [done|]. by apply IH, push_part_normal.
Qed.

(** What [normalize_path] returns is in normal form. *)
Lemma normalize_normal path : normal_parts (np_absolute (normalize_path path)) (np_parts (normalize_path path)).
Proof.
  rewrite normalize_parts. apply fold_push_normal; [apply path_tokens_plain; constructor|]. by exists 0, [].
Qed.

(** Parts in normal form go through the loop unchanged. *)
Lemma push_ordinary absolute parts p : path_part_ok p -> (p = dotdot -> parts = [] \/ last parts = Some dotdot) -> (p = dotdot -> absolute = false) ->
  push_part absolute parts p = parts ++ [p].
Proof.
  intros (Hne & Hnd & _) Hl Ha. unfold push_part. rewrite decide_False by naive_solver. case_decide as Hdd; [|done].
  rewrite decide_False; [by rewrite (Ha Hdd) | destruct (Hl Hdd) as [-> | ->]; naive_solver].
Qed.

Lemma fold_push_id absolute parts : normal_parts absolute parts -> fold_left (push_part absolute) parts [] = parts.
Proof.
  intros (k & rest & -> & Hr & Hok & Hk). rewrite fold_left_app.
  assert (forall l done, Forall (fun p => p <> dotdot) l -> Forall path_part_ok l -> fold_left (push_part absolute) l done = done ++ l) as Hrest.
  { induction l as [|p l IH]; intros dn Hl Hlo; simpl; [by rewrite app_nil_r|]. apply Forall_cons in Hl as [Hp Hl], Hlo as [Hpo Hlo].
    rewrite push_ordinary by done. rewrite IH by done. by rewrite <- app_assoc. }
  assert (fold_left (push_part absolute) (replicate k dotdot) [] = replicate k dotdot) as ->.
  { destruct absolute; [by rewrite (Hk eq_refl)|]. clear Hok Hk. induction k as [|k IH]; [done|].
    cbn [replicate]. rewrite replicate_cons_app, fold_left_app, IH. apply push_ordinary; [apply dotdot_ok | | done].
    intros _. destruct k as [|k]; [by left|]. right. cbn [replicate]. rewrite replicate_cons_app. apply last_snoc. }
  apply Forall_app in Hok as [_ Hok]. by rewrite Hrest.
Qed.

(** ** Printing *)

Definition slashed (parts : list bytes) : bytes := concat (map (cons PSLASH) parts).

Lemma append_parts_rest out c parts :
  Forall path_part_ok parts -> last out = Some c -> is_path_separator c = false -> append_parts false out parts = out ++ slashed parts.
Proof.
  intros Hp. revert out c. induction Hp as [|p parts Hp Hps IH]; intros out c Hl Hc; simpl; [unfold slashed; simpl; by rewrite app_nil_r|].
  unfold append_part. rewrite Hl. rewrite decide_False by (intros ->; discriminate Hc).
  destruct Hp as (Hne & _ & Hpl). destruct p as [|x p _] using rev_ind; [done|]. apply Forall_app in Hpl as [_ Hx]. apply Forall_cons in Hx as [Hx _].
  rewrite (IH _ x); [|by rewrite !app_assoc, last_snoc | done]. unfold slashed. simpl. by rewrite <- !app_assoc.
Qed.

Lemma to_string_parts p parts prefix absolute :
  Forall path_part_ok (p :: parts) ->
  normalized_to_string (mkNormalized prefix absolute (p :: parts)) = path_root (mkNormalized prefix absolute (p :: parts)) ++ p ++ slashed parts.
Proof.
  intros Hok. apply Forall_cons in Hok as [Hp Hps]. unfold normalized_to_string. simpl. unfold append_part.
  destruct Hp as (Hne & _ & Hpl). destruct p as [|x p _] using rev_ind; [done|]. apply Forall_app in Hpl as [_ Hx]. apply Forall_cons in Hx as [Hx _].
  rewrite (append_parts_rest _ x); [|done | by rewrite app_assoc, last_snoc | done]. rewrite <- app_assoc.
  by destruct (path_root _ ++ (p ++ [x]) ++ slashed parts) eqn:E; [destruct (path_root _), p|].
Qed.

Lemma to_string_nil prefix absolute :
  normalized_to_string (mkNormalized prefix absolute []) = if decide (prefix = [] /\ absolute = false) then dot else prefix ++ (if absolute then [PSLASH] else []).
Proof.
  unfold normalized_to_string, path_root. simpl. case_decide as E; [by destruct E as [-> ->]|].
  destruct prefix as [|c prefix]; [|done]. by destruct absolute; [|destruct E].
Qed.

Lemma path_tokens_slashed p parts : Forall path_part_ok (p :: parts) -> path_tokens [] (p ++ slashed parts) = p :: parts.
Proof.
  revert p. induction parts as [|q parts IH]; intros p Hok; apply Forall_cons in Hok as [Hp Hps]; rewrite path_tokens_part by apply Hp.
  - done.
  - unfold slashed. simpl. f_equal. by apply IH.
Qed.

Lemma skip_plain c s : is_path_separator c = false -> skip_separators (c :: s) = c :: s.
Proof. intros Hc. simpl. by rewrite Hc. Qed.

Lemma drive_prefix_cases path :
  drive_prefix path = [] \/ exists c, drive_prefix path = [c; ":"%char] /\ isalpha c = true /\ exists t, path = [c; ":"%char] ++ t.
Proof.
  unfold drive_prefix. destruct path as [|c [|d t]]; try by left. destruct d as [[] [] [] [] [] [] [] []]; try by left.
  destruct (isalpha c) eqn:Ec; [|by left]. right. exists c. split_and!; [done | done | by exists t].
Qed.
Lemma drive_prefix_app c t : isalpha c = true -> drive_prefix ([c; ":"%char] ++ t) = [c; ":"%char].
Proof. intros Hc. unfold drive_prefix. simpl. by rewrite Hc. Qed.

(** The printed form, normalized: the root is recognized, and the parts. *)
Lemma normalize_printed prefix (absolute : bool) body parts :
  drive_prefix (prefix ++ (if absolute then [PSLASH] else []) ++ body) = prefix ->
  (body = [] \/ exists c t, body = c :: t /\ is_path_separator c = false) ->
  fold_left (push_part absolute) (path_tokens [] body) [] = parts ->
  normalize_path (prefix ++ (if absolute then [PSLASH] else []) ++ body) = mkNormalized prefix absolute parts.
Proof.
  intros Hpre Hbody Hparts. set (path := prefix ++ _ ++ body) in *.
  assert (drop (length prefix) path = (if absolute then [PSLASH] else []) ++ body) as Hdrop by (unfold path; apply drop_app_length).
  assert (skip_separators ((if absolute then [PSLASH] else []) ++ body) = body) as Hskip.
  { destruct Hbody as [->|(c & t & -> & Hc)]; destruct absolute; simpl; try done; by rewrite Hc. }
  assert (np_absolute (normalize_path path) = absolute) as Habs.
  { unfold normalize_path. cbn [np_absolute]. rewrite Hpre, Hdrop, Hskip, length_app. destruct absolute; simpl.
    - by rewrite bool_decide_false by lia.
    - by rewrite bool_decide_true by lia. }
  assert (np_prefix (normalize_path path) = prefix) as Hp by exact Hpre.
  pose proof (normalize_parts path) as Hn. rewrite Habs, Hpre, Hdrop, Hskip, Hparts in Hn.
  revert Hp Habs Hn. clear. destruct (normalize_path path). simpl. by intros -> -> ->.
Qed.

(** The printed form of a path without a root looks like a drive. *)
Definition looks_like_drive (p : NormalizedPath) : Prop :=
  np_prefix p = [] /\ np_absolute p = false /\ drive_prefix (normalized_to_string p) <> [].

(** C38: Normalizing is idempotent: the printed normal form of a path
    normalizes to the same, unless a relative path comes to begin with what
    looks like a drive; and the normal form has neither empty parts nor [.],
    and [..] only in front of a relative path. *)
Theorem normalize_path_idempotent path :
  ~ looks_like_drive (normalize_path path) ->
  normalize_path (normalized_to_string (normalize_path path)) = normalize_path path /\
  normal_parts (np_absolute (normalize_path path)) (np_parts (normalize_path path)).
Proof.
  intros Hd. pose proof (normalize_normal path) as Hn. split; [|done].
  assert (np_prefix (normalize_path path) = drive_prefix path) as Hpre by done.
  destruct (normalize_path path) as [prefix absolute parts]. simpl in *. subst prefix. set (prefix := drive_prefix path) in *.
  destruct Hn as (k & rest & Hsplit & Hrest & Hok & Hk). pose proof (fold_push_id absolute parts) as Hid.
  specialize (Hid ltac:(by exists k, rest)).
  assert (forall body, (prefix = [] -> absolute = false -> drive_prefix body = []) ->
    drive_prefix (prefix ++ (if absolute then [PSLASH] else []) ++ body) = prefix) as Hroot.
  { intros body Hb. destruct (drive_prefix_cases path) as [E|(c & E & Hc & _)]; fold prefix in E; rewrite E in *.
    - destruct absolute; simpl; [by destruct body as [|[[] [] [] [] [] [] [] []] ?] | by apply Hb].
    - by apply drive_prefix_app. }
  unfold looks_like_drive in Hd. simpl in Hd. destruct parts as [|p parts].
  - rewrite to_string_nil. case_decide as E.
    + destruct E as [-> ->]. apply (normalize_printed [] false dot []); [done | right; by exists "."%char, [] | done].
    + rewrite <- (app_nil_r (if absolute then [PSLASH] else [])). apply normalize_printed; [by apply Hroot | by left | done].
  - rewrite to_string_parts in * by done. unfold path_root in *. cbn [np_prefix np_absolute] in *. rewrite <- app_assoc in *.
    apply normalize_printed; [apply Hroot | |].
    + intros -> ->. destruct (decide (drive_prefix ([] ++ [] ++ p ++ slashed parts) = [])) as [|Hne]; [done|]. by destruct Hd.
    + right. apply Forall_cons in Hok as [(Hne & _ & Hpl) _]. destruct p as [|c p]; [done|]. exists c, (p ++ slashed parts). split; [done|]. by apply Forall_cons in Hpl as [? _].
    + by rewrite path_tokens_slashed.
Qed.

Lemma normalize_path_idempotent_witness :
  normalize_path (normalized_to_string (normalize_path "C:\a\.\b\..\..\..\c//d"%bs)) = mkNormalized "C:"%bs true ["c"%bs; "d"%bs].
Proof. exact (proj1 (normalize_path_idempotent "C:\a\.\b\..\..\..\c//d"%bs ltac:(vm_compute; intros (? & ? & ?); discriminate))). Defined.

(** The path [./c:/x] is relative; its printed normal form [c:/x] is not. *)
Theorem normalize_makes_drive :
  np_absolute (normalize_path "./c:/x"%bs) = false /\
  normalized_to_string (normalize_path "./c:/x"%bs) = "c:/x"%bs /\
  np_absolute (normalize_path (normalized_to_string (normalize_path "./c:/x"%bs))) = true.
Proof. vm_compute. done. Qed.
