(* ===== verification/FileSystem.v ===== *)
(** * Directories and path operations (fs.h, filesystem.h)

    The requests of fs.h that take paths and directories, [io::Directory],
    and the operations of filesystem.h: [exists], [create_directories],
    [remove_all], [read_directory] and those that wrap one request.

    libuv is an interface ([UvPath]).  The theorems use a view of it as a tree
    of names ([FsTree], with the documented behaviour of the requests on a
    tree without symbolic links): [create_directories] makes exactly the
    directories that are missing, [remove_all] removes exactly the tree below
    its path, and both leave no directory open; and in every interleaving of
    reads and closes of one [Directory] the requests are on its open handle,
    one at a time.  On a tree with a symbolic link, [remove_all] follows it. *)

From S2P Require Import Prelude Coroutine Counting CxxString NetWait FileIo Paths.

Local Open Scope Z_scope.
Local Open Scope co_scope.

(** ** Requests of libuv *)

Record uv_timespec := mkTimespec { tv_sec : Z; tv_nsec : Z }.
Record uv_stat_t := mkStat {
  st_dev : Z; st_mode : Z; st_nlink : Z; st_ino : Z; st_size : Z;
  st_mtim : uv_timespec; st_ctim : uv_timespec; st_birthtim : uv_timespec
}.

(** Answers as in [FileIo]; a pointer that may be null is an [option], a
    directory entry is a name and a type. *)
Class UvPath (E Dir : Type) := {
  uv_path_strerror : Z -> bytes;
  uv_fs_stat : bytes -> E -> (uv_answer * uv_stat_t) * E;
  uv_fs_access : bytes -> Z -> E -> uv_answer * E;
  uv_fs_mkdir : bytes -> Z -> E -> uv_answer * E;
  uv_fs_unlink : bytes -> E -> uv_answer * E;
  uv_fs_rmdir : bytes -> E -> uv_answer * E;
  uv_fs_rename : bytes -> bytes -> E -> uv_answer * E;
  uv_fs_copyfile : bytes -> bytes -> Z -> E -> uv_answer * E;
  uv_fs_symlink : bytes -> bytes -> Z -> E -> uv_answer * E;
  uv_fs_readlink : bytes -> E -> (uv_answer * option bytes) * E;
  uv_fs_realpath : bytes -> E -> (uv_answer * option bytes) * E;
  uv_fs_opendir : bytes -> E -> (uv_answer * Dir) * E;
  uv_fs_readdir : Dir -> Z -> E -> (uv_answer * list (option bytes * Z)) * E;
  uv_fs_closedir : Dir -> E -> uv_answer * E
}.

Definition UV_DIRENT_UNKNOWN : Z := 0.
Definition UV_DIRENT_FILE : Z := 1.
Definition UV_DIRENT_DIR : Z := 2.
Definition UV_DIRENT_LINK : Z := 3.

Record DirectoryEntry := mkEntry { de_name : bytes; de_type : Z }.
Definition entry_is_file (e : DirectoryEntry) : bool := de_type e =? UV_DIRENT_FILE.
Definition entry_is_directory (e : DirectoryEntry) : bool := de_type e =? UV_DIRENT_DIR.
Definition entry_is_symlink (e : DirectoryEntry) : bool := de_type e =? UV_DIRENT_LINK.

Definition S_IFMT : Z := 61440.
Definition S_IFDIR : Z := 16384.
Definition S_IFREG : Z := 32768.
Definition is_directory (st : uv_stat_t) : bool := Z.land (st_mode st) S_IFMT =? S_IFDIR.
Definition is_regular_file (st : uv_stat_t) : bool := Z.land (st_mode st) S_IFMT =? S_IFREG.

Section Requests.
Context {E Dir : Type} `{UvPath E Dir}.

(** A code below zero is thrown. *)
Definition path_check {A} (what : bytes) (a : uv_answer) (v : A) : result A :=
  if normalize_uv_fs_rc a <? 0 then Throw (throw_uv_error uv_path_strerror (normalize_uv_fs_rc a) what) else Ok v.
Definition path_request (what : bytes) (f : E -> uv_answer * E) : Co E unit := fun e => let '(a, e) := f e in (path_check what a tt, e).
Definition path_result {A B} (what : bytes) (f : E -> (uv_answer * A) * E) (g : uv_answer -> A -> B) : Co E B := fun e =>
  let '((a, v), e) := f e in (path_check what a (g a v), e).

Definition fs_Stat (path : bytes) : Co E uv_stat_t := path_result "uv_fs_stat"%bs (uv_fs_stat (c_string path)) (fun _ st => st).
Definition fs_Mkdir (path : bytes) (mode : Z) : Co E unit := path_request "uv_fs_mkdir"%bs (uv_fs_mkdir (c_string path) mode).
Definition fs_Unlink (path : bytes) : Co E unit := path_request "uv_fs_unlink"%bs (uv_fs_unlink (c_string path)).
Definition fs_Rmdir (path : bytes) : Co E unit := path_request "uv_fs_rmdir"%bs (uv_fs_rmdir (c_string path)).
Definition fs_Rename (from to : bytes) : Co E unit := path_request "uv_fs_rename"%bs (uv_fs_rename (c_string from) (c_string to)).
Definition fs_Copyfile (from to : bytes) (flags : Z) : Co E unit := path_request "uv_fs_copyfile"%bs (uv_fs_copyfile (c_string from) (c_string to) flags).
Definition fs_Symlink (target link : bytes) (flags : Z) : Co E unit := path_request "uv_fs_symlink"%bs (uv_fs_symlink (c_string target) (c_string link) flags).
Definition fs_Readlink (path : bytes) : Co E bytes := path_result "uv_fs_readlink"%bs (uv_fs_readlink (c_string path)) (fun _ => default []).
Definition fs_Realpath (path : bytes) : Co E bytes := path_result "uv_fs_realpath"%bs (uv_fs_realpath (c_string path)) (fun _ => default []).
Definition fs_Access (path : bytes) (mode : Z) : Co E unit := path_request "uv_fs_access"%bs (uv_fs_access (c_string path) mode).
Definition fs_Opendir (path : bytes) : Co E Dir := path_result "uv_fs_opendir"%bs (uv_fs_opendir (c_string path)) (fun _ d => d).
(** At least one entry is asked for; [count] entries come back. *)
Definition fs_Readdir (dir : Dir) (max_entries : Z) : Co E (list DirectoryEntry) :=
  path_result "uv_fs_readdir"%bs (uv_fs_readdir dir (if max_entries =? 0 then 1 else max_entries))
    (fun a raw => map (fun r => mkEntry (default [] (fst r)) (snd r)) (if 0 <? snd a then take (Z.to_nat (snd a)) raw else [])).
Definition fs_Closedir (dir : Dir) : Co E unit := path_request "uv_fs_closedir"%bs (uv_fs_closedir dir).

(** ** [io::Directory] *)

Record Directory := mkDirectory { dr_dir : option Dir; dr_inflight : bool; dr_closing : bool }.
Definition new_directory (d : Dir) : Directory := mkDirectory (Some d) false false.

Definition dir_is_open (d : Directory) : bool := match dr_dir d with Some _ => negb (dr_closing d) | None => false end.
Definition dir_closed (op : bytes) : exn := LogicError ("corouv::io::Directory cannot "%bs ++ op ++ " on a closed directory"%bs).
Definition dir_concurrent (op : bytes) : exn := LogicError ("corouv::io::Directory does not support concurrent "%bs ++ op ++ " operations"%bs).
Definition dir_close_in_progress : exn := LogicError "corouv::io::Directory::close already in progress"%bs.
Definition dir_close_busy : exn := LogicError "corouv::io::Directory::close requires no read in flight"%bs.

Definition dir_acquire (op : bytes) : Co Directory Dir := fun d =>
  match dr_dir d with
  | Some h =>
      if dr_closing d then (Throw (dir_closed op), d)
      else if dr_inflight d then (Throw (dir_concurrent op), d)
      else (Ok h, mkDirectory (dr_dir d) true (dr_closing d))
  | None => (Throw (dir_closed op), d)
  end.
Definition dir_release (d : Directory) : Directory := mkDirectory (dr_dir d) false (dr_closing d).

(** The critical sections of [close]; [None]: it was closed before.  A close
    under way counts as closed, so that the test for one is never reached. *)
Definition dir_close_begin : Co Directory (option Dir) := fun d =>
  if negb (dir_is_open d) then (Ok None, d)
  else if dr_closing d then (Throw dir_close_in_progress, d)
  else if dr_inflight d then (Throw dir_close_busy, d)
  else (Ok (dr_dir d), mkDirectory (dr_dir d) (dr_inflight d) true).
Definition dir_close_end (ok : bool) (d : Directory) : Directory :=
  if ok then mkDirectory None (dr_inflight d) false else mkDirectory (dr_dir d) (dr_inflight d) false.

(** An operation sees the directory and libuv. *)
Definition on_dir {A} (m : Co Directory A) : Co (Directory * E) A := fun x => let '(r, d) := m (fst x) in (r, (d, snd x)).
Definition on_uv {A} (m : Co E A) : Co (Directory * E) A := fun x => let '(r, e) := m (snd x) in (r, (fst x, e)).
Definition dir_upd (g : Directory -> Directory) (x : Directory * E) : Directory * E := (g (fst x), snd x).

Definition dir_read_some (max_entries : Z) : Co (Directory * E) (list DirectoryEntry) :=
  h <- on_dir (dir_acquire "read_some"%bs);;
  entries <- co_cleanup (on_uv (fs_Readdir h max_entries)) (dir_upd dir_release);;
  (fun x => (Ok entries, dir_upd dir_release x)).
Definition dir_read_one : Co (Directory * E) (option DirectoryEntry) :=
  batch <- dir_read_some 1;; co_ret (head batch).
Fixpoint dir_read_all (fuel : nat) (batch_size : Z) (out : list DirectoryEntry) : Co (Directory * E) (list DirectoryEntry) :=
  match fuel with
  | O => co_fuel
  | S fuel =>
      batch <- dir_read_some batch_size;;
      match batch with
      | [] => co_ret out
      | _ => dir_read_all fuel batch_size (out ++ batch)
      end
  end.
Definition dir_close : Co (Directory * E) unit :=
  c <- on_dir dir_close_begin;;
  match c with
  | None => co_ret tt
  | Some h => co_cleanup (on_uv (fs_Closedir h)) (dir_upd (dir_close_end false));;; (fun x => (Ok tt, dir_upd (dir_close_end true) x))
  end.

(** The destructor of the state: an open directory is closed. *)
Definition dir_close_sync (x : Directory * E) : E :=
  match dr_dir (fst x) with
  | Some h => snd (uv_fs_closedir h (snd x))
  | None => snd x
  end.

(** A scope that opens a directory and uses it; the object is destroyed at
    the end of the scope. *)
Definition with_directory {A} (path : bytes) (body : Co (Directory * E) A) : Co E A :=
  h <- fs_Opendir path;;
  (fun e => let '(r, x) := body (new_directory h, e) in (r, dir_close_sync x)).

(** ** Path operations *)

Definition fs_exists (path : bytes) : Co E bool := fun e =>
  match fs_Access path 0 e with
  | (Ok _, e) => (Ok true, e)
  | (Throw _, e) => (Ok false, e)
  | (OutOfFuel, e) => (OutOfFuel, e)
  end.

(** One part of [create_directories]: [current] is the path up to it. *)
Definition create_directory (current : bytes) (mode : Z) : Co E unit :=
  there <- fs_exists current;;
  if (there : bool) then co_ret tt
  else fun e =>
    match fs_Mkdir current mode e with
    | (Ok _, e) => (Ok tt, e)
    | (Throw failure, e) => (now <- fs_exists current;; if (now : bool) then co_ret tt else co_throw failure) e
    | (OutOfFuel, e) => (OutOfFuel, e)
    end.
Fixpoint create_directories_loop (first : bool) (current : bytes) (parts : list bytes) (mode : Z) : Co E unit :=
  match parts with
  | [] => co_ret tt
  | part :: parts =>
      let current := append_part first current part in
      create_directory current mode;;; create_directories_loop false current parts mode
  end.
Definition create_directories (path : bytes) (mode : Z) : Co E unit :=
  let normalized := normalize_path path in
  create_directories_loop true (path_root normalized) (np_parts normalized) mode.

(** [read_all] and [close] of a directory that was just opened. *)
Definition list_and_close (fuel : nat) (batch_size : Z) : Co (Directory * E) (list DirectoryEntry) :=
  entries <- dir_read_all fuel batch_size [];; dir_close;;; co_ret entries.
Definition read_directory (fuel : nat) (path : bytes) (batch_size : Z) : Co E (list DirectoryEntry) :=
  with_directory path (list_and_close fuel batch_size).

(** [depth] bounds the recursion, [fuel] the loop over one directory.  The
    directory object lives until the end; it was closed before the loop. *)
Fixpoint remove_all (depth fuel : nat) (path : bytes) : Co E unit :=
  match depth with
  | O => co_fuel
  | S depth =>
      there <- fs_exists path;;
      if negb (there : bool) then co_ret tt
      else
        st <- fs_Stat path;;
        if negb (is_directory st) then fs_Unlink path
        else
          entries <- with_directory path (list_and_close fuel 32);;
          (fix loop (entries : list DirectoryEntry) : Co E unit :=
             match entries with
             | [] => co_ret tt
             | e :: entries => remove_all depth fuel (join_path path (de_name e));;; loop entries
             end) entries;;;
          fs_Rmdir path
  end.

(** The functions of the header that wrap these: with an executor they are the
    request itself; without one they take the executor of the task, which has
    to be a [UvExecutor]. *)
Definition on_current {A} (is_uv : bool) (name : bytes) (m : Co E A) : Co E A :=
  if is_uv then m else co_throw (LogicError (name ++ " requires CurrentExecutor to be UvExecutor"%bs)).
Definition io_stat (is_uv : bool) (path : bytes) := on_current is_uv "corouv::io::stat"%bs (fs_Stat path).
Definition io_exists (is_uv : bool) (path : bytes) := on_current is_uv "corouv::io::exists"%bs (fs_exists path).
Definition io_mkdir (is_uv : bool) (path : bytes) (mode : Z) := on_current is_uv "corouv::io::mkdir"%bs (fs_Mkdir path mode).
Definition io_create_directories (is_uv : bool) (path : bytes) (mode : Z) := on_current is_uv "corouv::io::create_directories"%bs (create_directories path mode).
Definition io_remove_file (is_uv : bool) (path : bytes) := on_current is_uv "corouv::io::remove_file"%bs (fs_Unlink path).
Definition io_remove_directory (is_uv : bool) (path : bytes) := on_current is_uv "corouv::io::remove_directory"%bs (fs_Rmdir path).
Definition io_rename (is_uv : bool) (from to : bytes) := on_current is_uv "corouv::io::rename"%bs (fs_Rename from to).
Definition io_copy_file (is_uv : bool) (from to : bytes) (flags : Z) := on_current is_uv "corouv::io::copy_file"%bs (fs_Copyfile from to flags).
Definition io_readlink (is_uv : bool) (path : bytes) := on_current is_uv "corouv::io::readlink"%bs (fs_Readlink path).
Definition io_realpath (is_uv : bool) (path : bytes) := on_current is_uv "corouv::io::realpath"%bs (fs_Realpath path).
Definition io_symlink (is_uv : bool) (target link : bytes) (flags : Z) := on_current is_uv "corouv::io::symlink"%bs (fs_Symlink target link flags).
Definition io_remove_all (is_uv : bool) (depth fuel : nat) (path : bytes) := on_current is_uv "corouv::io::remove_all"%bs (remove_all depth fuel path).
Definition io_open_directory (is_uv : bool) (path : bytes) := on_current is_uv "corouv::io::open_directory"%bs (h <- fs_Opendir path;; co_ret (new_directory h)).
Definition io_read_directory (is_uv : bool) (fuel : nat) (path : bytes) (batch_size : Z) := on_current is_uv "corouv::io::read_directory"%bs (read_directory fuel path batch_size).
End Requests.
Arguments Directory : clear implicits.

(** ** Files as a tree of names *)

(** A path from the root, as a list of names, leads to a file, a directory or
    a symbolic link. *)
Inductive Node := NFile | NDir | NLink (target : list bytes).
#[export] Instance Node_eq_dec : EqDecision Node.
Proof. solve_decision. Defined.
Abbreviation Tree := (gmap (list bytes) Node).

Definition NUL : ascii := "000"%char.
Definition name_ok (n : bytes) : Prop := n <> [] /\ n <> dot /\ n <> dotdot /\ Forall (fun c => c <> PSLASH /\ c <> NUL) n.

(** The names of a path string; empty ones are skipped, as POSIX has it. *)
Fixpoint slash_tokens (cur s : bytes) : list bytes :=
  match s with
  | [] => [cur]
  | c :: t => if decide (c = PSLASH) then cur :: slash_tokens [] t else slash_tokens (cur ++ [c]) t
  end.
Definition path_names (s : bytes) : list bytes := List.filter (fun n => match n with [] => false | _ => true end) (slash_tokens [] s).
(** A path that does not begin with a slash starts at the working directory. *)
Definition from_cwd (cwd : list bytes) (p : bytes) : list bytes := match p with c :: _ => if decide (c = PSLASH) then [] else cwd | [] => cwd end.
Definition denotes (cwd : list bytes) (p : bytes) (k : list bytes) : Prop :=
  p <> [] /\ NUL ∉ p /\ from_cwd cwd p ++ path_names p = k /\ Forall name_ok k.

(** Names are proper, parents are directories, and there are no links. *)
Definition tree_ok (t : Tree) : Prop :=
  t !! [] = Some NDir /\ (forall k n x, t !! (k ++ [n]) = Some x -> name_ok n /\ t !! k = Some NDir) /\ (forall k target, t !! k <> Some (NLink target)).

Definition fs_ok (a : uv_answer) : bool := 0 <=? normalize_uv_fs_rc a.

(** The documented behaviour of the requests on such a tree, when the process
    may do what it asks for and nothing fails but for the state of the tree;
    [fs_cwd] is the working directory. *)
Class FsTree (E Dir : Type) `{UvPath E Dir} := {
  fs_cwd : list bytes;
  fs_tree : E -> Tree;
  open_dirs : E -> list Dir;
  dir_left : Dir -> E -> option (list bytes);
  access_spec p k e : tree_ok (fs_tree e) -> denotes fs_cwd p k ->
    exists a e', uv_fs_access p 0 e = (a, e') /\ fs_ok a = bool_decide (is_Some (fs_tree e !! k)) /\ fs_tree e' = fs_tree e /\ open_dirs e' = open_dirs e;
  stat_spec p k e n : tree_ok (fs_tree e) -> denotes fs_cwd p k -> fs_tree e !! k = Some n ->
    exists a st e', uv_fs_stat p e = ((a, st), e') /\ fs_ok a = true /\ Z.land (st_mode st) S_IFMT = (if decide (n = NDir) then S_IFDIR else S_IFREG) /\
      fs_tree e' = fs_tree e /\ open_dirs e' = open_dirs e;
  mkdir_spec p k n mode e : tree_ok (fs_tree e) -> denotes fs_cwd p (k ++ [n]) -> fs_tree e !! (k ++ [n]) = None -> fs_tree e !! k = Some NDir ->
    exists a e', uv_fs_mkdir p mode e = (a, e') /\ fs_ok a = true /\ fs_tree e' = <[k ++ [n] := NDir]> (fs_tree e) /\ open_dirs e' = open_dirs e;
  unlink_spec p k e : tree_ok (fs_tree e) -> denotes fs_cwd p k -> fs_tree e !! k = Some NFile ->
    exists a e', uv_fs_unlink p e = (a, e') /\ fs_ok a = true /\ fs_tree e' = delete k (fs_tree e) /\ open_dirs e' = open_dirs e;
  rmdir_spec p k e : tree_ok (fs_tree e) -> denotes fs_cwd p k -> k <> [] -> fs_tree e !! k = Some NDir -> (forall n, fs_tree e !! (k ++ [n]) = None) ->
    exists a e', uv_fs_rmdir p e = (a, e') /\ fs_ok a = true /\ fs_tree e' = delete k (fs_tree e) /\ open_dirs e' = open_dirs e;
  opendir_spec p k e : tree_ok (fs_tree e) -> denotes fs_cwd p k -> fs_tree e !! k = Some NDir ->
    exists a d e' names, uv_fs_opendir p e = ((a, d), e') /\ fs_ok a = true /\ fs_tree e' = fs_tree e /\ open_dirs e' = d :: open_dirs e /\
      dir_left d e' = Some names /\ NoDup names /\ forall n, n ∈ names <-> is_Some (fs_tree e !! (k ++ [n]));
  readdir_spec d max e names : dir_left d e = Some names -> 0 < max ->
    exists a raw e', uv_fs_readdir d max e = ((a, raw), e') /\ fs_ok a = true /\ fs_tree e' = fs_tree e /\ open_dirs e' = open_dirs e /\
      0 <= snd a <= size_of names /\ (names <> [] -> 0 < snd a) /\ (map fst raw = map Some (take (Z.to_nat (snd a)) names)) /\
      dir_left d e' = Some (drop (Z.to_nat (snd a)) names);
  closedir_spec d rest e : open_dirs e = d :: rest ->
    exists a e', uv_fs_closedir d e = (a, e') /\ fs_ok a = true /\ fs_tree e' = fs_tree e /\ open_dirs e' = rest
}.

(** ** Facts about path strings *)

Lemma slash_tokens_app cur a b : slash_tokens cur (a ++ PSLASH :: b) = slash_tokens cur a ++ slash_tokens [] b.
Proof. revert cur. induction a as [|c a IH]; intros cur; simpl; [done|]. case_decide; simpl; by rewrite IH. Qed.
Lemma path_names_app a b : path_names (a ++ PSLASH :: b) = path_names a ++ path_names b.
Proof. unfold path_names. by rewrite slash_tokens_app, List.filter_app. Qed.

Lemma slash_tokens_name cur n : Forall (fun c => c <> PSLASH /\ c <> NUL) n -> slash_tokens cur n = [cur ++ n].
Proof.
  intros Hn. revert cur. induction Hn as [|c n [Hc _] Hn IH]; intros cur; simpl; [by rewrite app_nil_r|].
  rewrite decide_False by done. rewrite IH, <- app_assoc. done.
Qed.
Lemma path_names_name n : name_ok n -> path_names n = [n].
Proof. intros (Hne & _ & _ & Hn). unfold path_names. rewrite slash_tokens_name by done. simpl. by destruct n. Qed.

Lemma name_no_nul n : name_ok n -> NUL ∉ n.
Proof. intros (_ & _ & _ & Hn) Hin. rewrite Forall_forall in Hn. by destruct (Hn _ Hin). Qed.

Lemma denotes_c_string cwd p k : denotes cwd p k -> c_string p = p.
Proof. intros (_ & Hn & _). unfold c_string. apply find_char_None in Hn. unfold NUL in Hn. by rewrite Hn. Qed.

Lemma from_cwd_app cwd p q : p <> [] -> from_cwd cwd (p ++ q) = from_cwd cwd p.
Proof. by destruct p. Qed.

(** A name behind a path, with a separator where there is none yet. *)
Lemma denotes_slash cwd p k n :
  denotes cwd p k -> name_ok n ->
  denotes cwd ((match last p with Some c => if decide (c = PSLASH) then p else p ++ [PSLASH] | None => p end) ++ n) (k ++ [n]).
Proof.
  intros (Hne & Hnul & Hk & Hok) Hn. pose proof (name_no_nul n Hn) as Hnn. rewrite <- (from_cwd_app cwd p n Hne) in Hk.
  assert (PSLASH <> NUL) as Hps by done. destruct p as [|c p _] using rev_ind; [done|]. rewrite last_snoc. case_decide as Hc.
  - subst c. split_and!; [by destruct p | rewrite not_elem_of_app; set_solver | | rewrite Forall_app; split; [done | by constructor]].
    rewrite <- Hk, <- !(app_assoc (from_cwd _ _)). f_equal. rewrite <- app_assoc. simpl. rewrite path_names_app, (path_names_name n Hn). by rewrite path_names_app, app_nil_r.
  - rewrite from_cwd_app in Hk by done. split_and!; [by destruct p | rewrite !not_elem_of_app in *; set_solver | | rewrite Forall_app; split; [done | by constructor]].
    rewrite <- (app_assoc (p ++ [c])), (from_cwd_app cwd (p ++ [c])) by done. simpl. rewrite path_names_app, (path_names_name n Hn), app_assoc. by rewrite Hk.
Qed.
Lemma denotes_join cwd p k n : denotes cwd p k -> name_ok n -> denotes cwd (join_path p n) (k ++ [n]).
Proof.
  intros Hp Hn. unfold join_path. rewrite decide_False; [by apply denotes_slash|]. destruct Hp as (Hne & _ & Hk & Hok).
  intros [->| ->]; [done|]. simpl in Hk. subst k. apply Forall_app in Hok as [_ Hok]. apply Forall_cons in Hok as [(_ & Hd & _) _]. done.
Qed.

(** ** Facts about trees *)

Lemma tree_ancestor t k r x : tree_ok t -> t !! (k ++ r) = Some x -> r <> [] -> t !! k = Some NDir.
Proof.
  intros (_ & Hp & _). revert x. induction r as [|n r IH] using rev_ind; intros x Hx Hr; [done|]. rewrite app_assoc in Hx.
  destruct (Hp _ _ _ Hx) as [_ Hd]. destruct r as [|a r _] using rev_ind; [by rewrite app_nil_r in Hd|].
  apply (IH _ Hd). by destruct r.
Qed.
Lemma tree_child t k n r x : tree_ok t -> t !! (k ++ n :: r) = Some x -> is_Some (t !! (k ++ [n])).
Proof.
  intros Ht Hx. destruct r as [|m r]; [eauto|]. rewrite (app_assoc k [n] (m :: r) : k ++ n :: m :: r = _) in Hx.
  rewrite (tree_ancestor t (k ++ [n]) (m :: r) x Ht Hx); eauto.
Qed.

(** The tree without what is at [k] and below. *)
Definition prune (k : list bytes) (t : Tree) : Tree := filter (fun kv => ~ k `prefix_of` fst kv) t.

Lemma prune_lookup k t q : prune k t !! q = if decide (k `prefix_of` q) then None else t !! q.
Proof.
  unfold prune. case_decide as Hq.
  - apply map_lookup_filter_None. right. intros x _. simpl. tauto.
  - rewrite map_lookup_filter. destruct (t !! q); simpl; [|done]. by rewrite option_guard_True.
Qed.
Lemma prune_ok k t : tree_ok t -> k <> [] -> tree_ok (prune k t).
Proof.
  intros (Hroot & Hp & Hl) Hk. split_and!.
  - rewrite prune_lookup, decide_False; [done|]. intros Hpre. by apply prefix_nil_inv in Hpre.
  - intros q n x. rewrite !prune_lookup. case_decide as Hq; [done|]. intros Hx. apply Hp in Hx as [Hn Hd]. split; [done|].
    rewrite decide_False; [done|]. intros Hpre. apply Hq. by apply prefix_app_r.
  - intros q target. rewrite prune_lookup. case_decide; [done | apply Hl].
Qed.
Lemma prune_absent k t : tree_ok t -> t !! k = None -> prune k t = t.
Proof.
  intros Ht Hk. apply map_eq. intros q. rewrite prune_lookup. case_decide as Hq; [|done]. destruct Hq as [r ->].
  destruct (t !! (k ++ r)) as [x|] eqn:Ex; [|done]. exfalso. destruct r as [|n r]; [rewrite app_nil_r in Ex; congruence|].
  rewrite (tree_ancestor t k (n :: r) x Ht Ex) in Hk; done.
Qed.
Lemma prune_leaf k t : tree_ok t -> (forall n, t !! (k ++ [n]) = None) -> prune k t = delete k t.
Proof.
  intros Ht Hn. apply map_eq. intros q. rewrite prune_lookup. destruct (decide (q = k)) as [->|Hqk].
  - rewrite lookup_delete_eq, decide_True; done.
  - rewrite lookup_delete_ne by done. case_decide as Hq; [|done]. destruct Hq as [[|n r] ->]; [by rewrite app_nil_r in Hqk|].
    destruct (t !! (k ++ n :: r)) as [x|] eqn:Ex; [|done]. destruct (tree_child t k n r x Ht Ex) as [y Hy]. by rewrite Hn in Hy.
Qed.
Lemma file_leaf k t : tree_ok t -> t !! k = Some NFile -> forall n, t !! (k ++ [n]) = None.
Proof. intros (_ & Hp & _) Hk n. destruct (t !! (k ++ [n])) eqn:E; [|done]. apply Hp in E as [_ E]. congruence. Qed.

(** Removing the children one by one, then the directory. *)
Definition prune_children (k : list bytes) (names : list bytes) (t : Tree) : Tree := fold_left (fun t n => prune (k ++ [n]) t) names t.

Lemma prune_children_lookup k names t q :
  prune_children k names t !! q = if decide (Exists (fun n => (k ++ [n]) `prefix_of` q) names) then None else t !! q.
Proof.
  revert t. induction names as [|n names IH]; intros t.
  - rewrite decide_False; [done|]. intros Hex. inversion Hex.
  - change (prune_children k (n :: names) t) with (prune_children k names (prune (k ++ [n]) t)). rewrite IH, prune_lookup. repeat case_decide; try done; exfalso; rewrite Exists_cons in *; tauto.
Qed.
Lemma prune_children_ok k names t : tree_ok t -> tree_ok (prune_children k names t).
Proof. revert t. induction names as [|n names IH]; intros t Ht; simpl; [done|]. apply IH, prune_ok; [done | by destruct k]. Qed.
Lemma prune_children_self k names t : prune_children k names t !! k = t !! k.
Proof.
  rewrite prune_children_lookup, decide_False; [done|]. intros Hex. apply Exists_exists in Hex as (n & _ & [r Hr]).
  apply (f_equal length) in Hr. rewrite !length_app in Hr. simpl in Hr. lia.
Qed.
Lemma prune_children_leaf k names t n :
  (forall n, is_Some (t !! (k ++ [n])) -> n ∈ names) -> prune_children k names t !! (k ++ [n]) = None.
Proof.
  intros Hn. rewrite prune_children_lookup. case_decide as Hex; [done|]. destruct (t !! (k ++ [n])) eqn:E; [|done].
  exfalso. apply Hex, Exists_exists. exists n. split; [apply Hn; eauto | done].
Qed.
Lemma prune_children_all k names t :
  tree_ok t -> (forall n, is_Some (t !! (k ++ [n])) -> n ∈ names) -> delete k (prune_children k names t) = prune k t.
Proof.
  intros Ht Hn. rewrite <- prune_leaf; [|by apply prune_children_ok | intros n; by apply prune_children_leaf].
  apply map_eq. intros q. rewrite !prune_lookup, prune_children_lookup. case_decide as Hq; [done|]. rewrite decide_False; [done|].
  intros Hex. apply Exists_exists in Hex as (n & _ & Hpre). apply Hq. by eapply prefix_app_l.
Qed.

(** There are no more children than nodes. *)
Lemma children_bound (t : Tree) k names : NoDup names -> (forall n, n ∈ names -> is_Some (t !! (k ++ [n]))) -> (length names <= size t)%nat.
Proof.
  intros Hd Hn. rewrite <- size_dom. rewrite <- (length_map (fun n => k ++ [n]) names).
  rewrite <- (size_list_to_set (C := gset (list bytes)) (map (fun n => k ++ [n]) names)).
  - apply subseteq_size. intros q Hq. apply elem_of_list_to_set, list_elem_of_fmap in Hq as (n & -> & Hin). apply elem_of_dom. by apply Hn.
  - apply NoDup_fmap_2; [|done]. intros a b Hab. apply app_inj_tail in Hab. tauto.
Qed.

Lemma prune_nodes (k : list bytes) (t : Tree) : (size (prune k t) <= size t)%nat.
Proof. apply map_subseteq_size. apply map_filter_subseteq. Qed.

(** ** The operations on a tree *)
Section OnTree.
Context {E Dir : Type} `{FsTree E Dir}.

Lemma path_check_ok {A} what a (v : A) : fs_ok a = true -> path_check what a v = Ok v.
Proof. unfold path_check, fs_ok. intros Ha. by replace (normalize_uv_fs_rc a <? 0) with false by lia. Qed.
Lemma path_check_bad {A} what a (v : A) : fs_ok a = false -> exists ex, path_check what a v = Throw ex.
Proof. unfold path_check, fs_ok. intros Ha. replace (normalize_uv_fs_rc a <? 0) with true by lia. eauto. Qed.

Lemma exists_ok p k e : tree_ok (fs_tree e) -> denotes fs_cwd p k ->
  exists e', fs_exists p e = (Ok (bool_decide (is_Some (fs_tree e !! k))), e') /\ fs_tree e' = fs_tree e /\ open_dirs e' = open_dirs e.
Proof.
  intros Ht Hp. destruct (access_spec p k e Ht Hp) as (a & e' & Ea & Hok & Hsame). exists e'. split; [|done].
  unfold fs_exists, fs_Access, path_request. rewrite (denotes_c_string fs_cwd p k Hp), Ea. case_bool_decide.
  - by rewrite path_check_ok.
  - destruct (path_check_bad (A := unit) "uv_fs_access"%bs a tt Hok) as [ex ->]. done.
Qed.

(** *** [create_directories] *)

(** The directories on the way to [q ++ parts], those that are missing made. *)
Definition add_dirs (q parts : list bytes) (t : Tree) : Tree :=
  fold_left (fun t i => match t !! (q ++ take i parts) with Some _ => t | None => <[q ++ take i parts := NDir]> t end) (seq 1 (length parts)) t.

Lemma insert_dir_ok t k n : tree_ok t -> name_ok n -> t !! k = Some NDir -> t !! (k ++ [n]) = None -> tree_ok (<[k ++ [n] := NDir]> t).
Proof.
  intros (Hr & Hp & Hl) Hn Hk Hnone. split_and!.
  - rewrite lookup_insert_ne; [done|]. by destruct k.
  - intros q m x Hx. destruct (decide (q ++ [m] = k ++ [n])) as [Heq|Hne].
    + apply app_inj_tail in Heq as [-> ->]. split; [done|]. rewrite lookup_insert_ne; [done|]. intros Heq. apply (f_equal length) in Heq. rewrite length_app in Heq. simpl in Heq. lia.
    + rewrite lookup_insert_ne in Hx by done. apply Hp in Hx as [Hm Hd]. split; [done|].
      rewrite lookup_insert_ne; [done|]. intros Heq. rewrite Heq in Hnone. congruence.
  - intros q target. destruct (decide (q = k ++ [n])) as [->|Hne]; [by rewrite lookup_insert_eq | rewrite lookup_insert_ne by done; apply Hl].
Qed.

Lemma create_directory_ok p k n mode e :
  tree_ok (fs_tree e) -> denotes fs_cwd p (k ++ [n]) -> fs_tree e !! k = Some NDir ->
  exists e', create_directory p mode e = (Ok tt, e') /\ open_dirs e' = open_dirs e /\
    fs_tree e' = match fs_tree e !! (k ++ [n]) with Some _ => fs_tree e | None => <[k ++ [n] := NDir]> (fs_tree e) end.
Proof.
  intros Ht Hp Hk. destruct (exists_ok p (k ++ [n]) e Ht Hp) as (e1 & E1 & Ht1 & Ho1). unfold create_directory. rewrite (co_bind_ok _ _ _ _ _ E1).
  destruct (fs_tree e !! (k ++ [n])) as [x|] eqn:Ex.
  - rewrite bool_decide_true by eauto. by exists e1.
  - rewrite bool_decide_false by (intros [? ?]; congruence). rewrite <- Ht1 in *.
    destruct (mkdir_spec p k n mode e1 Ht Hp Ex Hk) as (a & e2 & Ea & Hok & Ht2 & Ho2). exists e2.
    unfold fs_Mkdir, path_request. rewrite (denotes_c_string fs_cwd p _ Hp), Ea, path_check_ok by done. split_and!; [done | congruence | done].
Qed.

(** Where the loop of [create_directories] is. *)
Definition starts_at (first : bool) (out : bytes) (q : list bytes) : Prop :=
  if first then (out = [] /\ q = fs_cwd /\ Forall name_ok fs_cwd) \/ (out = [PSLASH] /\ q = []) else denotes fs_cwd out q.

Lemma denotes_append first out q n :
  starts_at first out q -> name_ok n -> denotes fs_cwd (append_part first out n) (q ++ [n]).
Proof.
  intros Hout Hn. unfold append_part. destruct first.
  - destruct Hout as [(-> & -> & Hcwd)|[-> ->]]; cbn [app].
    + split_and!; [apply Hn | by apply name_no_nul | | apply Forall_app; split; [done | by constructor]]. rewrite (path_names_name n Hn). f_equal.
      destruct Hn as (Hne & _ & _ & Hn). destruct n as [|c n]; [done|]. apply Forall_cons in Hn as [[Hc _] _]. simpl. by rewrite decide_False.
    + split_and!; [done | apply not_elem_of_cons; split; [done | by apply name_no_nul] | | by constructor].
      change (path_names (PSLASH :: n) = [n]). change (PSLASH :: n) with ([] ++ PSLASH :: n). rewrite path_names_app. by rewrite (path_names_name n Hn).
  - by apply denotes_slash.
Qed.

Lemma add_dirs_cons q n parts t : add_dirs q (n :: parts) t = add_dirs (q ++ [n]) parts (match t !! (q ++ [n]) with Some _ => t | None => <[q ++ [n] := NDir]> t end).
Proof.
  unfold add_dirs. cbn [length seq fold_left take]. rewrite <- (seq_shift (length parts) 1). assert (take 0 parts = []) as -> by done.
  generalize (match t !! (q ++ [n]) with Some _ => t | None => <[q ++ [n] := NDir]> t end). induction (seq 1 (length parts)) as [|i l IH]; intros t0; [done|].
  simpl. rewrite <- IH. by rewrite <- app_assoc.
Qed.

Lemma add_dirs_lookup q parts t r :
  add_dirs q parts t !! r = match t !! r with
                            | Some x => Some x
                            | None => if decide (Exists (fun i => r = q ++ take i parts) (seq 1 (length parts))) then Some NDir else None
                            end.
Proof.
  unfold add_dirs. generalize (seq 1 (length parts)). intros l. revert t. induction l as [|i l IH]; intros t.
  - rewrite decide_False by (intros Hex; inversion Hex). simpl. by destruct (t !! r).
  - cbn [fold_left]. rewrite IH. destruct (t !! (q ++ take i parts)) as [x|] eqn:Ex.
    + destruct (t !! r) eqn:Er; [done|]. apply decide_ext. rewrite Exists_cons. split; [tauto|]. intros [->|Hl]; [congruence | done].
    + destruct (decide (r = q ++ take i parts)) as [->|Hne].
      * rewrite lookup_insert_eq, Ex, decide_True; [done|]. by left.
      * rewrite lookup_insert_ne by done. destruct (t !! r); [done|]. apply decide_ext. rewrite Exists_cons. tauto.
Qed.

Lemma create_loop_ok first out q parts mode e :
  tree_ok (fs_tree e) -> starts_at first out q -> Forall name_ok parts ->
  fs_tree e !! q = Some NDir -> (forall i, (0 < i < length parts)%nat -> fs_tree e !! (q ++ take i parts) = None \/ fs_tree e !! (q ++ take i parts) = Some NDir) ->
  exists e', create_directories_loop first out parts mode e = (Ok tt, e') /\ fs_tree e' = add_dirs q parts (fs_tree e) /\ open_dirs e' = open_dirs e.
Proof.
  revert first out q e. induction parts as [|n parts IH]; intros first out q e Ht Hout Hn Hq Hway; [by exists e|].
  apply Forall_cons in Hn as [Hn1 Hn]. pose proof (denotes_append first out q n Hout Hn1) as Hd. cbn [create_directories_loop].
  destruct (create_directory_ok _ q n mode e Ht Hd Hq) as (e1 & E1 & Ho1 & Ht1). rewrite (co_bind_ok _ _ _ _ _ E1).
  rewrite add_dirs_cons, <- Ht1, <- Ho1.
  assert (tree_ok (fs_tree e1)) as Hok1 by (rewrite Ht1; destruct (fs_tree e !! (q ++ [n])) eqn:E0; [done | by apply insert_dir_ok]).
  destruct parts as [|m parts]; [by exists e1|].
  assert (fs_tree e1 !! (q ++ [n]) = Some NDir) as Hq1.
  { rewrite Ht1. specialize (Hway 1%nat ltac:(simpl; lia)). simpl in Hway. destruct (fs_tree e !! (q ++ [n])) as [x|] eqn:Ex; [by destruct Hway; simplify_eq | by rewrite lookup_insert_eq]. }
  apply IH; [done | done | done | done |]. intros i Hi. rewrite <- app_assoc. simpl. specialize (Hway (S i) ltac:(simpl in *; lia)). simpl in Hway.
  rewrite Ht1. destruct (fs_tree e !! (q ++ [n])); [done|]. rewrite lookup_insert_ne; [done|].
  intros Heq. apply app_inv_head in Heq. destruct i; [lia|]. discriminate.
Qed.

(** *** [remove_all] *)

Definition same_files (e e' : E) : Prop := fs_tree e' = fs_tree e /\ open_dirs e' = open_dirs e.

Lemma read_some_ok h names e max :
  dir_left h e = Some names -> 0 < max ->
  exists batch e', dir_read_some max (new_directory h, e) = (Ok batch, (new_directory h, e')) /\ same_files e e' /\
    map de_name batch = take (length batch) names /\ dir_left h e' = Some (drop (length batch) names) /\ (names <> [] -> batch <> []) /\ (names = [] -> batch = []).
Proof.
  intros Hl Hmax. destruct (readdir_spec h max e names Hl Hmax) as (a & raw & e' & Ea & Hok & Ht & Ho & Hn & Hpos & Hraw & Hl').
  assert (Z.to_nat (snd a) <= length names)%nat as Hle by (unfold size_of in Hn; lia).
  assert (length raw = Z.to_nat (snd a)) as Hlen.
  { apply (f_equal length) in Hraw. rewrite !length_map, length_take in Hraw. lia. }
  set (batch := map (fun r => mkEntry (default [] (fst r)) (snd r)) raw). exists batch, e'.
  assert (length batch = Z.to_nat (snd a)) as Hb by (unfold batch; by rewrite length_map).
  assert (map de_name batch = take (length batch) names) as Hnames.
  { unfold batch at 1. rewrite List.map_map. simpl. rewrite <- (List.map_map fst (default [])), Hraw, List.map_map, Hb. simpl. apply List.map_id. }
  split_and!; [| by split | done | by rewrite Hb | |].
  - unfold dir_read_some, on_dir, co_bind, dir_acquire. simpl. unfold co_cleanup, on_uv, fs_Readdir, path_result. simpl.
    replace (max =? 0) with false by lia. rewrite Ea, path_check_ok by done. unfold dir_upd, dir_release. simpl. do 2 f_equal.
    destruct (Z.ltb_spec 0 (snd a)); [rewrite <- Hlen, firstn_all; done|]. destruct raw; [done | simpl in *; lia].
  - intros Hne Hbn. apply (f_equal length) in Hbn. specialize (Hpos Hne). rewrite Hb in Hbn. simpl in Hbn. lia.
  - intros ->. destruct batch; [done|]. simpl in *. lia.
Qed.

Lemma read_all_ok h fuel names out e :
  dir_left h e = Some names -> (length names < fuel)%nat ->
  exists es e', dir_read_all fuel 32 out (new_directory h, e) = (Ok (out ++ es), (new_directory h, e')) /\ map de_name es = names /\ same_files e e'.
Proof.
  revert names out e. induction fuel as [|fuel IH]; intros names out e Hl Hf; [lia|]. simpl.
  destruct (read_some_ok h names e 32 Hl ltac:(lia)) as (batch & e1 & E1 & [Ht1 Ho1] & Hn & Hl1 & Hne & Hnil). rewrite (co_bind_ok _ _ _ _ _ E1).
  destruct batch as [|b batch].
  - exists [], e1. rewrite app_nil_r. split_and!; [done | | done]. simpl. destruct names as [|n names]; [done|]. by destruct (Hne ltac:(done)).
  - destruct names as [|n names]; [by specialize (Hnil eq_refl)|].
    destruct (IH (drop (length (b :: batch)) (n :: names)) (out ++ b :: batch) e1 Hl1) as (es & e2 & E2 & Hes & [Ht2 Ho2]).
    { rewrite length_drop. simpl in *. lia. }
    exists ((b :: batch) ++ es), e2. rewrite E2, <- app_assoc. split_and!; [done | | split; congruence].
    rewrite map_app, Hn, Hes. apply take_drop.
Qed.

Lemma list_directory_ok p k e fuel :
  tree_ok (fs_tree e) -> denotes fs_cwd p k -> fs_tree e !! k = Some NDir -> (size (fs_tree e) < fuel)%nat ->
  exists es e', with_directory p (list_and_close fuel 32) e = (Ok es, e') /\ same_files e e' /\
    NoDup (map de_name es) /\ forall n, n ∈ map de_name es <-> is_Some (fs_tree e !! (k ++ [n])).
Proof.
  intros Ht Hp Hk Hf. destruct (opendir_spec p k e Ht Hp Hk) as (a & h & e1 & names & Ea & Hok & Ht1 & Ho1 & Hl & Hd & Hn).
  assert (length names < fuel)%nat as Hlen by (pose proof (children_bound (fs_tree e) k names Hd (fun n => proj1 (Hn n))); lia).
  destruct (read_all_ok h fuel names [] e1 Hl Hlen) as (es & e2 & E2 & Hes & [Ht2 Ho2]). rewrite Ho1 in Ho2.
  destruct (closedir_spec h (open_dirs e) e2 Ho2) as (a3 & e3 & Ea3 & Hok3 & Ht3 & Ho3).
  exists es, e3. split_and!; [| split; congruence | by rewrite Hes | by rewrite Hes].
  unfold with_directory, fs_Opendir, path_result, co_bind. rewrite (denotes_c_string fs_cwd p k Hp), Ea, path_check_ok by done.
  unfold list_and_close. rewrite (co_bind_ok _ _ _ _ _ E2). unfold dir_close, co_bind, on_dir, dir_close_begin. simpl.
  unfold co_cleanup, on_uv, fs_Closedir, path_request. simpl. rewrite Ea3, path_check_ok by done. done.
Qed.

(** The loop over the entries of a directory. *)
Definition remove_entries (depth fuel : nat) (path : bytes) : list DirectoryEntry -> Co E unit :=
  fix loop (entries : list DirectoryEntry) : Co E unit :=
    match entries with
    | [] => co_ret tt
    | e :: entries => remove_all depth fuel (join_path path (de_name e));;; loop entries
    end.

(** What is below [k] is at most [depth] levels down. *)
Definition within (depth : nat) (k : list bytes) (t : Tree) : Prop := forall q, is_Some (t !! (k ++ q)) -> (length q <= depth)%nat.

Definition removes (depth fuel : nat) : Prop := forall p k e,
  tree_ok (fs_tree e) -> denotes fs_cwd p k -> k <> [] -> within depth k (fs_tree e) -> (size (fs_tree e) < fuel)%nat ->
  exists e', remove_all (S depth) fuel p e = (Ok tt, e') /\ fs_tree e' = prune k (fs_tree e) /\ open_dirs e' = open_dirs e.

Lemma remove_entries_ok depth fuel p k es e :
  removes depth fuel -> tree_ok (fs_tree e) -> denotes fs_cwd p k -> Forall (fun x => name_ok (de_name x)) es ->
  within (S depth) k (fs_tree e) -> (size (fs_tree e) < fuel)%nat ->
  exists e', remove_entries (S depth) fuel p es e = (Ok tt, e') /\ fs_tree e' = prune_children k (map de_name es) (fs_tree e) /\ open_dirs e' = open_dirs e.
Proof.
  intros Hrec. revert e. induction es as [|x es IH]; intros e Ht Hp Hn Hdep Hf; [by exists e|]. apply Forall_cons in Hn as [Hx Hn].
  cbn [remove_entries]. destruct (Hrec (join_path p (de_name x)) (k ++ [de_name x]) e Ht (denotes_join fs_cwd p k _ Hp Hx)) as (e1 & E1 & Ht1 & Ho1).
  { by destruct k. }
  { intros q Hq. rewrite <- app_assoc in Hq. apply Hdep in Hq. simpl in Hq. lia. }
  { done. }
  rewrite (co_bind_ok _ _ _ _ _ E1). destruct (IH e1) as (e2 & E2 & Ht2 & Ho2).
  - rewrite Ht1. apply prune_ok; [done | by destruct k].
  - done.
  - done.
  - intros q Hq. apply Hdep. rewrite Ht1, prune_lookup in Hq. case_decide; [by destruct Hq | done].
  - rewrite Ht1. pose proof (prune_nodes (k ++ [de_name x]) (fs_tree e)). lia.
  - exists e2. split_and!; [done | by rewrite Ht2, Ht1 | congruence].
Qed.

Lemma remove_all_unfold depth fuel path :
  remove_all (S depth) fuel path =
  (there <- fs_exists path;;
   if negb (there : bool) then co_ret tt
   else
     st <- fs_Stat path;;
     if negb (is_directory st) then fs_Unlink path
     else entries <- with_directory path (list_and_close fuel 32);; remove_entries depth fuel path entries;;; fs_Rmdir path).
Proof. done. Qed.

(** One level: what is there is removed, its entries as assumed. *)
Lemma remove_level depth fuel p k e :
  (forall es e, tree_ok (fs_tree e) -> Forall (fun x => name_ok (de_name x)) es -> (forall n, n ∈ map de_name es -> is_Some (fs_tree e !! (k ++ [n]))) ->
     within depth k (fs_tree e) -> (size (fs_tree e) < fuel)%nat ->
     exists e', remove_entries depth fuel p es e = (Ok tt, e') /\ fs_tree e' = prune_children k (map de_name es) (fs_tree e) /\ open_dirs e' = open_dirs e) ->
  tree_ok (fs_tree e) -> denotes fs_cwd p k -> k <> [] -> within depth k (fs_tree e) -> (size (fs_tree e) < fuel)%nat ->
  exists e', remove_all (S depth) fuel p e = (Ok tt, e') /\ fs_tree e' = prune k (fs_tree e) /\ open_dirs e' = open_dirs e.
Proof.
  intros Hent Ht Hp Hk Hdep Hf. rewrite remove_all_unfold.
  destruct (exists_ok p k e Ht Hp) as (e1 & E1 & Ht1 & Ho1). rewrite (co_bind_ok _ _ _ _ _ E1). destruct (fs_tree e !! k) as [x|] eqn:Ek.
  2: { rewrite bool_decide_false by (intros [? ?]; done). exists e1. split_and!; [done | by rewrite prune_absent | done]. }
  rewrite bool_decide_true by eauto. cbn [negb]. rewrite <- Ht1, <- Ho1 in *. clear E1 Ht1 Ho1 e.
  destruct (stat_spec p k e1 x Ht Hp Ek) as (a & st & e2 & Ea & Hok & Hmode & Ht2 & Ho2).
  assert (fs_Stat p e1 = (Ok st, e2)) as E2 by (unfold fs_Stat, path_result; by rewrite (denotes_c_string fs_cwd p k Hp), Ea, path_check_ok).
  rewrite (co_bind_ok _ _ _ _ _ E2). unfold is_directory. rewrite Hmode, <- Ht2, <- Ho2 in *. clear E2 Ea Ht2 Ho2 e1.
  destruct x as [| |target]; [| |exfalso; by apply (proj2 (proj2 Ht) k target)].
  - rewrite decide_False by done. cbn [negb Z.eqb S_IFREG S_IFDIR Pos.eqb].
    destruct (unlink_spec p k e2 Ht Hp Ek) as (a2 & e3 & Ea2 & Hok2 & Ht3 & Ho3). exists e3.
    unfold fs_Unlink, path_request. rewrite (denotes_c_string fs_cwd p k Hp), Ea2, path_check_ok by done. split_and!; [done | | done].
    rewrite prune_leaf by (done || by apply file_leaf). done.
  - rewrite decide_True by done. cbn [negb Z.eqb S_IFDIR Pos.eqb].
    destruct (list_directory_ok p k e2 fuel Ht Hp Ek Hf) as (es & e3 & E3 & [Ht3 Ho3] & Hnd & Hnames). rewrite (co_bind_ok _ _ _ _ _ E3).
    rewrite <- Ht3, <- Ho3 in *. clear E3 Ht3 Ho3 e2.
    destruct (Hent es e3 Ht) as (e4 & E4 & Ht4 & Ho4).
    { apply Forall_forall. intros y Hy. assert (is_Some (fs_tree e3 !! (k ++ [de_name y]))) as [z Hz] by (apply Hnames; by apply list_elem_of_fmap_2).
      apply (proj1 (proj2 Ht)) in Hz. tauto. }
    { intros n Hn. by apply Hnames. }
    { done. }
    { done. }
    rewrite (co_bind_ok _ _ _ _ _ E4).
    destruct (rmdir_spec p k e4) as (a5 & e5 & Ea5 & Hok5 & Ht5 & Ho5).
    + rewrite Ht4. by apply prune_children_ok.
    + done.
    + done.
    + rewrite Ht4. by rewrite prune_children_self.
    + intros n. rewrite Ht4. apply prune_children_leaf. intros m Hm. by apply Hnames.
    + exists e5. unfold fs_Rmdir, path_request. rewrite (denotes_c_string fs_cwd p k Hp), Ea5, path_check_ok by done.
      split_and!; [done | | congruence]. rewrite Ht5, Ht4. apply prune_children_all; [done|]. intros n Hn. by apply Hnames.
Qed.

Lemma remove_all_removes depth fuel : removes depth fuel.
Proof.
  induction depth as [|depth IH]; intros p k e Ht Hp Hk Hdep Hf; (apply (remove_level _ fuel p k e); [|done..]);
    intros es e1 Ht1 Hn1 Hex Hdep1 Hf1.
  - destruct es as [|x es]; [by exists e1|]. exfalso. assert (is_Some (fs_tree e1 !! (k ++ [de_name x]))) as Hx by (apply Hex; simpl; left).
    apply Hdep1 in Hx. simpl in Hx. lia.
  - by apply remove_entries_ok.
Qed.
End OnTree.

(** C36: [remove_all] removes exactly what is at its path and below, and leaves no
    directory open: one level of recursion more than the tree is deep is
    enough, and in each directory one batch more than there are nodes. *)
Theorem remove_all_exact {E Dir} `{FsTree E Dir} depth fuel p k e :
  tree_ok (fs_tree e) -> denotes fs_cwd p k -> k <> [] -> within depth k (fs_tree e) -> (size (fs_tree e) < fuel)%nat ->
  exists e', remove_all (S depth) fuel p e = (Ok tt, e') /\ open_dirs e' = open_dirs e /\
    forall q, fs_tree e' !! q = if decide (k `prefix_of` q) then None else fs_tree e !! q.
Proof.
  intros Ht Hp Hk Hdep Hf. destruct (remove_all_removes depth fuel p k e Ht Hp Hk Hdep Hf) as (e' & E' & Ht' & Ho').
  exists e'. split_and!; [done | done |]. intros q. rewrite Ht'. apply prune_lookup.
Qed.

(** [create_directories] makes the directories on the way that are missing and
    nothing else, for a path whose normal form has no drive and no [..], when
    no file is in the way; a relative path starts at the working directory. *)
Theorem create_directories_exact {E Dir} `{FsTree E Dir} path mode e :
  let parts := np_parts (normalize_path path) in
  let base := if np_absolute (normalize_path path) then [] else fs_cwd in
  tree_ok (fs_tree e) -> np_prefix (normalize_path path) = [] -> Forall name_ok (fs_cwd ++ parts) -> fs_tree e !! fs_cwd = Some NDir ->
  (forall i, (0 < i < length parts)%nat -> fs_tree e !! (base ++ take i parts) = None \/ fs_tree e !! (base ++ take i parts) = Some NDir) ->
  exists e', create_directories path mode e = (Ok tt, e') /\ open_dirs e' = open_dirs e /\
    forall q, fs_tree e' !! q = match fs_tree e !! q with
                                | Some x => Some x
                                | None => if decide (base `prefix_of` q /\ q `prefix_of` base ++ parts) then Some NDir else None
                                end.
Proof.
  intros parts base Ht Hpre [Hcwd Hn]%Forall_app Hdir Hway.
  destruct (create_loop_ok true (path_root (normalize_path path)) base parts mode e Ht) as (e' & E' & Ht' & Ho').
  - unfold path_root, base. rewrite Hpre. destruct (np_absolute _); [by right | by left].
  - done.
  - unfold base. destruct (np_absolute _); [apply Ht | done].
  - done.
  - exists e'. split_and!; [done | done |]. intros q. rewrite Ht', add_dirs_lookup. destruct (fs_tree e !! q) as [x|] eqn:Eq; [done|].
    apply decide_ext. rewrite Exists_exists. split.
    + intros (i & _ & ->). split; [by exists (take i parts)|]. exists (drop i parts). by rewrite <- app_assoc, take_drop.
    + intros [[r ->] [r' Hr]]. rewrite <- app_assoc in Hr. apply app_inv_head in Hr. exists (length r). rewrite Hr, take_app_length. split; [|done].
      apply elem_of_seq. rewrite length_app. destruct r; [|simpl; lia]. rewrite app_nil_r in Eq. exfalso.
      unfold base in Eq. destruct (np_absolute _); [by rewrite (proj1 Ht) in Eq | congruence].
Qed.

(** ** A file system in memory

    With symbolic links, which are followed on the way, and at the end by the
    requests that POSIX lets follow them.  The working directory is the root. *)
Record TreeFs := mkTreeFs { tf_tree : Tree; tf_open : list (nat * list bytes); tf_next : nat }.

Fixpoint walk (fuel : nat) (follow : bool) (t : Tree) (done todo : list bytes) : option (list bytes) :=
  match todo with
  | [] => Some done
  | n :: rest =>
      match fuel with
      | O => None
      | S fuel =>
          match t !! (done ++ [n]) with
          | Some (NLink target) => if follow || negb (bool_decide (rest = [])) then walk fuel follow t [] (target ++ rest) else Some (done ++ [n])
          | Some NDir => walk fuel follow t (done ++ [n]) rest
          | _ => if decide (rest = []) then Some (done ++ [n]) else None
          end
      end
  end.
Definition find_node (follow : bool) (t : Tree) (p : bytes) : option (list bytes) :=
  match p with [] => None | _ => walk (length (path_names p) + 40) follow t [] (path_names p) end.

Definition child_of (k q : list bytes) : option bytes := if decide (take (length k) q = k /\ length q = S (length k)) then last q else None.
Definition children (t : Tree) (k : list bytes) : list bytes := remove_dups (omap (child_of k) (map fst (map_to_list t))).

Definition set_tree (t : Tree) (e : TreeFs) : TreeFs := mkTreeFs t (tf_open e) (tf_next e).
Definition fs_fail (code : Z) : uv_answer := (0, code).
Definition node_mode (n : Node) : Z := match n with NDir => S_IFDIR | _ => S_IFREG end.
Definition tf_edit (follow : bool) (p : bytes) (f : list bytes -> option Node -> uv_answer * option Tree) (e : TreeFs) : uv_answer * TreeFs :=
  match find_node follow (tf_tree e) p with
  | None => (fs_fail (-2), e)
  | Some q => let '(a, t) := f q (tf_tree e !! q) in (a, match t with Some t => set_tree t e | None => e end)
  end.

(** The open directories, each with the names that were not read yet. *)
Fixpoint find_dir (d : nat) (l : list (nat * list bytes)) : option (list bytes) :=
  match l with [] => None | (d', names) :: l => if decide (d' = d) then Some names else find_dir d l end.
Fixpoint update_dir (d : nat) (names : list bytes) (l : list (nat * list bytes)) : list (nat * list bytes) :=
  match l with [] => [] | (d', ns) :: l => if decide (d' = d) then (d', names) :: l else (d', ns) :: update_dir d names l end.
Fixpoint drop_dir (d : nat) (l : list (nat * list bytes)) : list (nat * list bytes) :=
  match l with [] => [] | (d', ns) :: l => if decide (d' = d) then l else (d', ns) :: drop_dir d l end.

Definition tf_opendir (p : bytes) (e : TreeFs) : (uv_answer * nat) * TreeFs :=
  match find_node true (tf_tree e) p with
  | Some q =>
      match tf_tree e !! q with
      | Some NDir => (((0, 0), tf_next e), mkTreeFs (tf_tree e) ((tf_next e, children (tf_tree e) q) :: tf_open e) (S (tf_next e)))
      | _ => ((fs_fail (-20), 0%nat), e)
      end
  | None => ((fs_fail (-2), 0%nat), e)
  end.
Definition tf_readdir (d : nat) (max : Z) (e : TreeFs) : (uv_answer * list (option bytes * Z)) * TreeFs :=
  match find_dir d (tf_open e) with
  | Some names =>
      let n := Nat.min (Nat.min (Z.to_nat max) 100) (length names) in
      (((0, Z.of_nat n), map (fun x => (Some x, UV_DIRENT_UNKNOWN)) (take n names)), mkTreeFs (tf_tree e) (update_dir d (drop n names) (tf_open e)) (tf_next e))
  | None => ((fs_fail (-9), []), e)
  end.
Definition no_time : uv_timespec := mkTimespec 0 0.
Definition tf_stat (p : bytes) (e : TreeFs) : (uv_answer * uv_stat_t) * TreeFs :=
  let answer (o : option Node) := match o with
    | Some n => ((0, 0), mkStat 0 (node_mode n) 1 0 0 no_time no_time no_time)
    | None => (fs_fail (-2), mkStat 0 0 0 0 0 no_time no_time no_time)
    end in
  (answer (match find_node true (tf_tree e) p with Some q => tf_tree e !! q | None => None end), e).

#[export] Instance tree_fs : UvPath TreeFs nat := {|
  uv_path_strerror _ := "error"%bs;
  uv_fs_stat := tf_stat;
  uv_fs_access p _ := tf_edit true p (fun _ o => (match o with Some _ => (0, 0) | None => fs_fail (-2) end, None));
  uv_fs_mkdir p _ e := tf_edit false p (fun q o => match o with None => ((0, 0), Some (<[q := NDir]> (tf_tree e))) | Some _ => (fs_fail (-17), None) end) e;
  uv_fs_unlink p e := tf_edit false p (fun q o => match o with Some NDir => (fs_fail (-21), None) | Some _ => ((0, 0), Some (delete q (tf_tree e))) | None => (fs_fail (-2), None) end) e;
  uv_fs_rmdir p e := tf_edit false p (fun q o =>
    match o with
    | Some NDir => if decide (children (tf_tree e) q = [] /\ q <> []) then ((0, 0), Some (delete q (tf_tree e))) else (fs_fail (-39), None)
    | Some _ => (fs_fail (-20), None)
    | None => (fs_fail (-2), None)
    end) e;
  uv_fs_rename _ _ e := (fs_fail (-38), e);
  uv_fs_copyfile _ _ _ e := (fs_fail (-38), e);
  uv_fs_symlink target p _ e := tf_edit false p (fun q o => match o with None => ((0, 0), Some (<[q := NLink (path_names target)]> (tf_tree e))) | Some _ => (fs_fail (-17), None) end) e;
  uv_fs_readlink _ e := ((fs_fail (-38), None), e);
  uv_fs_realpath _ e := ((fs_fail (-38), None), e);
  uv_fs_opendir := tf_opendir;
  uv_fs_readdir := tf_readdir;
  uv_fs_closedir d e := ((0, 0), mkTreeFs (tf_tree e) (drop_dir d (tf_open e)) (tf_next e))
|}.

(** In a tree without links a path leads where it says. *)
Lemma walk_some fuel follow t dn todo q : (forall k target, t !! k <> Some (NLink target)) -> walk fuel follow t dn todo = Some q -> q = dn ++ todo.
Proof.
  intros Hl. revert dn todo. induction fuel as [|fuel IH]; intros dn [|n todo]; simpl; try (intros [= <-]; by rewrite app_nil_r).
  destruct (t !! (dn ++ [n])) as [[| |target]|] eqn:E; [| | by apply Hl in E |].
  - case_decide; [|done]. intros [= <-]. by subst.
  - intros Hw. apply IH in Hw. by rewrite <- app_assoc in Hw.
  - case_decide; [|done]. intros [= <-]. by subst.
Qed.
Lemma walk_ok fuel follow t dn todo :
  (length todo <= fuel)%nat -> (forall i, (0 < i < length todo)%nat -> t !! (dn ++ take i todo) = Some NDir) -> (forall k target, t !! k <> Some (NLink target)) ->
  walk fuel follow t dn todo = Some (dn ++ todo).
Proof.
  revert dn todo. induction fuel as [|fuel IH]; intros dn [|n todo] Hf Hd Hl; simpl in *; try (by rewrite app_nil_r); [lia|].
  destruct (decide (todo = [])) as [->|Hne].
  - destruct (t !! (dn ++ [n])) as [[| |target]|] eqn:E; try done; [by destruct fuel | by apply Hl in E].
  - assert (t !! (dn ++ [n]) = Some NDir) as Hn by (specialize (Hd 1%nat); simpl in Hd; apply Hd; destruct todo; [done | simpl; lia]). rewrite Hn.
    rewrite IH; [by rewrite <- app_assoc | lia | | done]. intros i Hi. rewrite <- app_assoc. apply (Hd (S i)). lia.
Qed.

Lemma from_root p : from_cwd [] p ++ path_names p = path_names p.
Proof. unfold from_cwd. destruct p as [|c p]; [done|]. by case_decide. Qed.

Lemma find_node_there follow t p k x : tree_ok t -> denotes [] p k -> t !! k = Some x -> find_node follow t p = Some k.
Proof.
  intros Ht (Hne & _ & Hk & _) Hx. rewrite from_root in Hk. unfold find_node. destruct p as [|c p]; [done|]. rewrite Hk. apply walk_ok; [lia | | apply Ht].
  intros i Hi. simpl. apply (tree_ancestor t (take i k) (drop i k) x Ht); [by rewrite take_drop|]. intros Hn. apply (f_equal length) in Hn. rewrite length_drop in Hn. simpl in Hn. lia.
Qed.
Lemma find_node_parent follow t p k n : tree_ok t -> denotes [] p (k ++ [n]) -> t !! k = Some NDir -> find_node follow t p = Some (k ++ [n]).
Proof.
  intros Ht (Hne & _ & Hk & _) Hx. rewrite from_root in Hk. unfold find_node. destruct p as [|c p]; [done|]. rewrite Hk. apply (walk_ok _ follow t [] (k ++ [n])); [lia | | apply Ht].
  intros i Hi. simpl. rewrite length_app in Hi. simpl in Hi. rewrite take_app_le by lia. destruct (decide (i = length k)) as [->|Hi'].
  - by rewrite firstn_all.
  - apply (tree_ancestor t (take i k) (drop i k) NDir Ht); [by rewrite take_drop|]. intros Hn. apply (f_equal length) in Hn. rewrite length_drop in Hn. simpl in Hn. lia.
Qed.
Lemma find_node_only follow t p k q : tree_ok t -> denotes [] p k -> find_node follow t p = Some q -> q = k.
Proof.
  intros Ht (Hne & _ & Hk & _). rewrite from_root in Hk. unfold find_node. destruct p as [|c p]; [done|]. rewrite Hk. intros Hw. by apply walk_some in Hw; [|apply Ht].
Qed.

Lemma elem_children t k n : n ∈ children t k <-> is_Some (t !! (k ++ [n])).
Proof.
  unfold children. rewrite elem_of_remove_dups, list_elem_of_omap. split.
  - intros (q & Hq & Hc). apply list_elem_of_fmap in Hq as ([q' x] & -> & Hx). apply elem_of_map_to_list in Hx. simpl in *.
    unfold child_of in Hc. case_decide as Hd; [|done]. destruct Hd as [Htk Hlen]. destruct q' as [|a q' _] using rev_ind; [done|].
    rewrite last_snoc in Hc. injection Hc as ->. rewrite length_app in Hlen. simpl in Hlen.
    rewrite take_app_le, firstn_all2 in Htk by lia. subst. eauto.
  - intros [x Hx]. exists (k ++ [n]). split.
    + apply list_elem_of_fmap. exists (k ++ [n], x). split; [done|]. by apply elem_of_map_to_list.
    + unfold child_of. rewrite decide_True, last_snoc; [done|]. rewrite take_app_length, length_app. simpl. split; [done | lia].
Qed.

(** An edit at a node that is there, and one at a node whose parent is. *)
Lemma tf_edit_there follow p k x e f : tree_ok (tf_tree e) -> denotes [] p k -> tf_tree e !! k = Some x ->
  tf_edit follow p f e = (fst (f k (Some x)), match snd (f k (Some x)) with Some t => set_tree t e | None => e end).
Proof. intros Ht Hp Hx. unfold tf_edit. rewrite (find_node_there _ _ _ _ _ Ht Hp Hx), Hx. by destruct (f k (Some x)). Qed.

#[export] Instance tree_fs_laws : FsTree TreeFs nat.
Proof.
  unshelve econstructor; [exact [] | exact tf_tree | exact (fun e => map fst (tf_open e)) | exact (fun d e => find_dir d (tf_open e)) | ..].
  - intros p k e Ht Hp. cbn [uv_fs_access tree_fs]. destruct (tf_tree e !! k) as [x|] eqn:Ek.
    + rewrite (tf_edit_there _ _ _ _ _ _ Ht Hp Ek). eexists _, _. split_and!; [done | by rewrite bool_decide_true by eauto | done | done].
    + rewrite bool_decide_false by (by intros []). unfold tf_edit. destruct (find_node true (tf_tree e) p) as [q|] eqn:Ef.
      * apply (find_node_only _ _ _ _ _ Ht Hp) in Ef as ->. rewrite Ek. by eexists _, _.
      * by eexists _, _.
  - intros p k e n Ht Hp Hn. cbn [uv_fs_stat tree_fs]. unfold tf_stat. rewrite (find_node_there _ _ _ _ _ Ht Hp Hn), Hn.
    eexists _, _, _. split_and!; [done | done | | done | done]. destruct n; by repeat case_decide.
  - intros p k n mode e Ht Hp Hn Hk. cbn [uv_fs_mkdir tree_fs]. unfold tf_edit. rewrite (find_node_parent _ _ _ _ _ Ht Hp Hk), Hn.
    by eexists _, _.
  - intros p k e Ht Hp Hk. cbn [uv_fs_unlink tree_fs]. rewrite (tf_edit_there _ _ _ _ _ _ Ht Hp Hk). by eexists _, _.
  - intros p k e Ht Hp Hne Hk Hn. cbn [uv_fs_rmdir tree_fs]. rewrite (tf_edit_there _ _ _ _ _ _ Ht Hp Hk). rewrite decide_True; [by eexists _, _|].
    split; [|done]. apply elem_of_nil_inv. intros n Hin. apply elem_children in Hin as [y Hy]. by rewrite Hn in Hy.
  - intros p k e Ht Hp Hk. cbn [uv_fs_opendir tree_fs]. unfold tf_opendir. rewrite (find_node_there _ _ _ _ _ Ht Hp Hk), Hk.
    eexists _, _, _, (children (tf_tree e) k). split_and!; [done | done | done | done | simpl; by rewrite decide_True | apply NoDup_remove_dups | apply elem_children].
  - intros d max e names Hl Hmax. cbn [uv_fs_readdir tree_fs]. unfold tf_readdir. rewrite Hl. set (n := Nat.min (Nat.min (Z.to_nat max) 100) (length names)).
    assert (forall l, map fst (update_dir d (drop n names) l) = map fst l) as Hfst.
    { induction l as [|[d' ns] l IH]; simpl; [done|]. case_decide; simpl; congruence. }
    assert (forall l ns, find_dir d l = Some ns -> find_dir d (update_dir d (drop n names) l) = Some (drop n names)) as Hupd.
    { induction l as [|[d' ns] l IH]; simpl; [done|]. intros ns' Hf. case_decide; simpl; [by rewrite decide_True | rewrite decide_False by done; eauto]. }
    eexists _, _, _. split; [done|]. cbn [fst snd tf_tree tf_open]. rewrite Nat2Z.id. split_and!.
    + unfold fs_ok, normalize_uv_fs_rc. cbn [fst snd]. rewrite to_int_small by lia. apply Z.leb_le. simpl. lia.
    + done.
    + apply Hfst.
    + lia.
    + unfold size_of. lia.
    + intros Hne. destruct names; [done|]. simpl in *. lia.
    + by rewrite List.map_map.
    + by eapply Hupd.
  - intros d rest e Ho. cbn [uv_fs_closedir tree_fs]. eexists _, _. split_and!; [done | done | done |]. simpl.
    simpl in Ho. destruct (tf_open e) as [|[d' ns] l]; [done|]. simpl in *. injection Ho as -> <-. by rewrite decide_True.
Defined.

(** A tree for examples: [a], [a/b], [a/b/f], [a/g] and [z]. *)
Definition sample_tree : Tree :=
  {[ [] := NDir; ["a"%bs] := NDir; ["a"%bs; "b"%bs] := NDir; ["a"%bs; "b"%bs; "f"%bs] := NFile; ["a"%bs; "g"%bs] := NFile; ["z"%bs] := NFile ]}.
Definition sample_fs : TreeFs := mkTreeFs sample_tree [] 3.

(** A finite check of [tree_ok]. *)
Definition name_okb (n : bytes) : bool :=
  negb (bool_decide (n = [] \/ n = dot \/ n = dotdot)) && forallb (fun c => negb (bool_decide (c = PSLASH)) && negb (bool_decide (c = NUL))) n.
Definition tree_okb (t : Tree) : bool :=
  bool_decide (t !! [] = Some NDir) &&
  forallb (fun kx : list bytes * Node => match kx with
             | (_, NLink _) => false
             | ([], _) => true
             | (k, _) => match last k with Some n => name_okb n | None => false end && bool_decide (t !! removelast k = Some NDir)
             end) (map_to_list t).
Lemma name_okb_ok n : name_okb n = true -> name_ok n.
Proof.
  unfold name_okb. intros Hb. apply andb_true_iff in Hb as [H1 H2]. apply negb_true_iff, bool_decide_eq_false in H1.
  split_and!; [tauto | tauto | tauto |]. apply Forall_forall. intros c Hc. rewrite forallb_forall in H2. specialize (H2 c (proj1 (list_elem_of_In _ _) Hc)).
  apply andb_true_iff in H2 as [Ha Hb]. apply negb_true_iff, bool_decide_eq_false in Ha, Hb. done.
Qed.
Lemma tree_okb_ok t : tree_okb t = true -> tree_ok t.
Proof.
  unfold tree_okb. intros Hb. apply andb_true_iff in Hb as [Hr Hall]. apply bool_decide_eq_true in Hr. rewrite forallb_forall in Hall.
  assert (forall k x, t !! k = Some x -> In (k, x) (map_to_list t)) as Hin by (intros k x Hx; by apply list_elem_of_In, elem_of_map_to_list).
  split_and!; [done | |].
  - intros k n x Hx. specialize (Hall _ (Hin _ _ Hx)). simpl in Hall.
    destruct (k ++ [n]) as [|c l] eqn:E; [by destruct k|]. destruct x as [| |target]; [| |done]; rewrite <- E, last_snoc, removelast_last in Hall;
      apply andb_true_iff in Hall as [Hn Hd]; apply bool_decide_eq_true in Hd; (split; [by apply name_okb_ok | done]).
  - intros k target Hx. specialize (Hall _ (Hin _ _ Hx)). simpl in Hall. by destruct k.
Qed.

Lemma within_okb (depth : nat) (k : list bytes) (t : Tree) : forallb (fun kx : list bytes * Node => Nat.leb (length (fst kx)) (length k + depth)%nat) (map_to_list t) = true -> within depth k t.
Proof.
  rewrite forallb_forall. intros Hall q [x Hx]. assert (In (k ++ q, x) (map_to_list t)) as Hin by (by apply list_elem_of_In, elem_of_map_to_list).
  apply Hall, Nat.leb_le in Hin. simpl in Hin. rewrite length_app in Hin. lia.
Qed.

Lemma remove_all_exact_witness :
  exists e', remove_all 3 7 "a"%bs sample_fs = (Ok tt, e') /\ open_dirs e' = open_dirs sample_fs /\
    forall q, fs_tree e' !! q = if decide (["a"%bs] `prefix_of` q) then None else fs_tree sample_fs !! q.
Proof.
  apply (remove_all_exact 2 7 "a"%bs ["a"%bs] sample_fs).
  - apply tree_okb_ok. vm_compute. reflexivity.
  - split_and!; [done | apply find_char_None; reflexivity | reflexivity | repeat constructor; try done].
  - done.
  - apply within_okb. vm_compute. reflexivity.
  - apply Nat.ltb_lt. vm_compute. reflexivity.
Defined.

Lemma create_directories_exact_witness :
  exists e', create_directories "a//./x\y"%bs 493 sample_fs = (Ok tt, e') /\ open_dirs e' = open_dirs sample_fs /\
    fs_tree e' !! ["a"%bs; "x"%bs] = Some NDir.
Proof.
  destruct (create_directories_exact "a//./x\y"%bs 493 sample_fs) as (e' & He & Ho & Ht).
  - apply tree_okb_ok. vm_compute. reflexivity.
  - reflexivity.
  - repeat constructor; done.
  - reflexivity.
  - intros [|[|[|i]]] Hi; simpl in Hi; try lia; [by right | by left].
  - exists e'. split_and!; [exact He | exact Ho |]. rewrite Ht. reflexivity.
Defined.

(** ** Symbolic links, and files in the way *)

(** [remove_all] asks with [stat], which follows links: given a directory with
    a link to another directory, it removes the files in that one, which is not
    below its path, and then fails. *)
Definition linked_fs : TreeFs :=
  mkTreeFs {[ [] := NDir; ["a"%bs] := NDir; ["a"%bs; "l"%bs] := NLink ["z"%bs]; ["z"%bs] := NDir; ["z"%bs; "f"%bs] := NFile ]} [] 0.
Theorem remove_all_follows_links :
  tf_tree linked_fs !! ["z"%bs; "f"%bs] = Some NFile /\
  exists ex e', remove_all 5 5 "a"%bs linked_fs = (Throw ex, e') /\ tf_tree e' !! ["z"%bs; "f"%bs] = None /\ tf_tree e' !! ["a"%bs; "l"%bs] = Some (NLink ["z"%bs]).
Proof. split; [done|]. eexists _, _. split_and!; vm_compute; reflexivity. Qed.

(** A link that leads nowhere counts as missing, and stays; so its directory
    cannot be removed. *)
Definition dangling_fs : TreeFs := mkTreeFs {[ [] := NDir; ["a"%bs] := NDir; ["a"%bs; "l"%bs] := NLink ["q"%bs] ]} [] 0.
Theorem remove_all_keeps_dangling :
  exists ex e', remove_all 5 5 "a"%bs dangling_fs = (Throw ex, e') /\ tf_tree e' = tf_tree dangling_fs.
Proof. eexists _, _. split; vm_compute; reflexivity. Qed.

(** [create_directories] is content with a file where the directory should
    be. *)
Theorem create_directories_accepts_file : exists e', create_directories "z"%bs 493 sample_fs = (Ok tt, e') /\ tf_tree e' !! ["z"%bs] = Some NFile.
Proof. eexists. split; vm_compute; reflexivity. Qed.

(** A second [close] while the first is under way returns at once, although
    the directory is open; the exception that is meant for it is never thrown. *)
Theorem second_close_returns {Dir} (h : Dir) : dir_close_begin (mkDirectory (Some h) false true) = (Ok None, mkDirectory (Some h) false true).
Proof. done. Qed.

(** ** Reads and closes at the same time

    Any number of tasks use one [Directory]: the critical sections before and
    after a request are steps, and between them the request is under way. *)

Record dir_use (Dir : Type) := mkDirUse { du_dir : Directory Dir; du_reads : list Dir; du_closes : list Dir }.
Arguments mkDirUse {Dir} _ _ _.
Arguments du_dir {Dir} _.
Arguments du_reads {Dir} _.
Arguments du_closes {Dir} _.
Inductive dir_label := DirRead | DirReadDone | DirClose | DirCloseDone (ok : bool).

Section DirectoryUse.
Context {Dir : Type}.

Definition dir_step (l : dir_label) (u : dir_use Dir) : option (dir_use Dir) :=
  match l with
  | DirRead =>
      match dir_acquire "read_some"%bs (du_dir u) with
      | (Ok h, d) => Some (mkDirUse d (h :: du_reads u) (du_closes u))
      | (_, d) => Some (mkDirUse d (du_reads u) (du_closes u))
      end
  | DirReadDone =>
      match du_reads u with
      | _ :: reads => Some (mkDirUse (dir_release (du_dir u)) reads (du_closes u))
      | [] => None
      end
  | DirClose =>
      match dir_close_begin (du_dir u) with
      | (Ok (Some h), d) => Some (mkDirUse d (du_reads u) (h :: du_closes u))
      | (_, d) => Some (mkDirUse d (du_reads u) (du_closes u))
      end
  | DirCloseDone ok =>
      match du_closes u with
      | _ :: closes => Some (mkDirUse (dir_close_end ok (du_dir u)) (du_reads u) closes)
      | [] => None
      end
  end.
Fixpoint dir_steps (ls : list dir_label) (u : dir_use Dir) : option (dir_use Dir) :=
  match ls with
  | [] => Some u
  | l :: ls => match dir_step l u with Some u => dir_steps ls u | None => None end
  end.

(** The flags say what is under way, on which handle. *)
Definition dir_use_inv (u : dir_use Dir) : Prop :=
  match dr_dir (du_dir u) with
  | Some h => du_reads u = (if dr_inflight (du_dir u) then [h] else []) /\ du_closes u = (if dr_closing (du_dir u) then [h] else []) /\
              (dr_inflight (du_dir u) && dr_closing (du_dir u) = false)
  | None => du_reads u = [] /\ du_closes u = [] /\ dr_closing (du_dir u) = false
  end.

Lemma dir_step_inv l u u' : dir_use_inv u -> dir_step l u = Some u' -> dir_use_inv u'.
Proof.
  destruct u as [[[h|] inf clo] reads closes]; unfold dir_use_inv, dir_step, dir_acquire, dir_close_begin, dir_is_open, dir_release, dir_close_end; simpl.
  all: intros (-> & -> & Hx) Hs; destruct l as [| | |[]], inf, clo; simpl in *; simplify_eq; simpl; auto.
Qed.

(** C37: In every interleaving at most one request is under way on a directory, it
    is on the handle that is still open, and a read and a close are never under
    way together; so libuv is never asked to read a closed directory, or to
    close one twice. *)
Theorem directory_requests_safe h ls u :
  dir_steps ls (mkDirUse (new_directory h) [] []) = Some u ->
  (length (du_reads u ++ du_closes u) <= 1)%nat /\ forall k, k ∈ du_reads u ++ du_closes u -> dr_dir (du_dir u) = Some k.
Proof.
  intros Hr. assert (dir_use_inv u) as Hi.
  { assert (dir_use_inv (mkDirUse (new_directory h) [] [])) as H0 by done. revert H0 Hr. generalize (mkDirUse (new_directory h) [] []) as v.
    induction ls as [|l ls IH]; intros v H0 Hr; simpl in Hr; [by simplify_eq|]. destruct (dir_step l v) as [v'|] eqn:E; [|done].
    apply (IH v'); [by eapply dir_step_inv | done]. }
  unfold dir_use_inv in Hi. destruct u as [[[k|] inf clo] reads closes]; simpl in *; destruct Hi as (-> & -> & Hx); [|split; [simpl; lia | set_solver]].
  destruct inf, clo; simpl in *; try done; (split; [lia|]); intros j Hj; set_solver.
Qed.

End DirectoryUse.

Lemma directory_requests_safe_witness :
  exists u, dir_steps [DirRead; DirClose; DirReadDone; DirClose; DirRead; DirCloseDone false; DirRead] (mkDirUse (new_directory 7%nat) [] []) = Some u /\
    forall k, k ∈ du_reads u ++ du_closes u -> dr_dir (du_dir u) = Some k.
Proof.
  eexists. split; [reflexivity|].
  apply (directory_requests_safe 7%nat [DirRead; DirClose; DirReadDone; DirClose; DirRead; DirCloseDone false; DirRead]). reflexivity.
Defined.
