(* ===== verification/FileWatcher.v ===== *)
(** * Watching files (filesystem.h)

    [io::watch] and [io::FileWatcher].  The loop thread runs the callbacks of
    libuv, any thread may call [close], and consumers call [next]; the state
    is shared through atomic flags and the queue.  Each load, store, push and
    pop is one step ([watch_step]); the queue is the unbounded
    [AsyncQueue<std::optional<WatchEvent>>], which delivers in order what was
    pushed (see [AsyncQueue]), so that a suspended [pop] is resumed when the
    queue is not empty.

    The theorems: as long as nobody closes the watcher, the events that libuv
    reports are returned to the consumers in order, each once; closing ends,
    if the executor takes it; and a sole consumer that waits when the watcher
    is closed is released.  Three theorems are about behaviour that is not
    intended: a close that the executor refuses leaks the handle, of three
    waiting consumers one is never released, and an event may arrive behind
    the end. *)

From S2P Require Import Prelude Counting CxxString NetWait FileIo FileSystem.

Local Open Scope Z_scope.

(** ** Events, options and filters *)

Definition UV_RENAME : Z := 1.
Definition UV_CHANGE : Z := 2.
Definition UV_FS_EVENT_WATCH_ENTRY : Z := 1.
Definition UV_FS_EVENT_STAT : Z := 2.
Definition UV_FS_EVENT_RECURSIVE : Z := 4.

Record WatchEvent := mkEvent { we_path : bytes; we_filename : option bytes; we_events : Z; we_status : Z }.
Definition we_is_rename (e : WatchEvent) : bool := negb (Z.land (we_events e) UV_RENAME =? 0).
Definition we_is_change (e : WatchEvent) : bool := negb (Z.land (we_events e) UV_CHANGE =? 0).

Inductive WatchBackend := WatchByEvent | WatchByPoll.
Record WatchOptions := mkWatchOptions { wo_entry : bool; wo_stat_fallback : bool; wo_recursive : bool; wo_backend : WatchBackend; wo_interval : Z }.
Record WatchFilter := mkFilter { wf_filename : option bytes; wf_rename : bool; wf_change : bool; wf_errors : bool }.
Definition default_filter : WatchFilter := mkFilter None true true true.

Definition watch_flags (o : WatchOptions) : Z :=
  Z.lor (Z.lor (if wo_entry o then UV_FS_EVENT_WATCH_ENTRY else 0) (if wo_stat_fallback o then UV_FS_EVENT_STAT else 0))
    (if wo_recursive o then UV_FS_EVENT_RECURSIVE else 0).

Definition matches (e : WatchEvent) (f : WatchFilter) : bool :=
  match wf_filename f with
  | Some name => match we_filename e with Some n => bool_decide (n = name) | None => false end
  | None => true
  end &&
  (if negb (we_status e =? 0) then wf_errors f
   else (wf_rename f && we_is_rename e) || (wf_change f && we_is_change e)).

Definition next_change_filter (filename : option bytes) : WatchFilter := mkFilter filename false true false.
Definition next_rename_filter (filename : option bytes) : WatchFilter := mkFilter filename true false false.

(** ** What a poll reports *)

Definition same_timespec (a b : uv_timespec) : bool := (tv_sec a =? tv_sec b) && (tv_nsec a =? tv_nsec b).
Definition classify_poll_events (prev curr : uv_stat_t) : Z :=
  let identity_changed :=
    negb (st_dev prev =? st_dev curr) || negb (st_ino prev =? st_ino curr) || negb (Z.land (st_mode prev) S_IFMT =? Z.land (st_mode curr) S_IFMT) in
  let content_changed :=
    negb (st_size prev =? st_size curr) || negb (st_mode prev =? st_mode curr) || negb (st_nlink prev =? st_nlink curr) ||
    negb (same_timespec (st_mtim prev) (st_mtim curr)) || negb (same_timespec (st_ctim prev) (st_ctim curr)) ||
    negb (same_timespec (st_birthtim prev) (st_birthtim curr)) in
  let events := Z.lor (if identity_changed then UV_RENAME else 0) (if content_changed then UV_CHANGE else 0) in
  if events =? 0 then UV_CHANGE else events.

(** The events the callbacks make of libuv's reports. *)
Definition event_of_fs_event (path : bytes) (filename : option bytes) (events status : Z) : WatchEvent := mkEvent path filename (events mod 2 ^ 32) status.
Definition event_of_poll (path : bytes) (status : Z) (prev curr : option uv_stat_t) : WatchEvent :=
  mkEvent path None (match prev, curr with Some p, Some c => if status =? 0 then classify_poll_events p c else 0 | _, _ => 0 end) status.

(** ** The state *)

(** libuv's handle: with the callback started or not, being closed, closed.
    The heap object that keeps the state alive is deleted by [on_close]. *)
Inductive watch_handle := HdOpen | HdClosing | HdClosed.
(** A thread in [request_close]. *)
Inductive closer_pc := ClIdle | ClDrain | ClPush | ClSchedule | ClDone.
(** A consumer in [next], with what it returns. *)
Inductive next_pc := NxTry | NxCheck | NxPop | NxDone (r : option WatchEvent).

Record Watcher := mkWatcher {
  wt_started : bool;
  wt_closing : bool;
  wt_closed : bool;
  wt_queue : list (option WatchEvent);       (* [None] is the end *)
  wt_handle : watch_handle;
  wt_loop : option (option WatchEvent);      (* a callback that is about to push *)
  wt_closer : closer_pc;
  wt_scheduled : bool;                       (* [close_on_loop] is in the executor *)
  wt_nexts : list next_pc
}.

(** How the executor takes a function from another thread or from its own. *)
Inductive dispatch_answer := OnLoop | Accepted | Refused.

(** [LoopCallAwaiter]: the function runs on the loop, or not at all. *)
Definition watch_loop_call {S} (ex : option dispatch_answer) (fn : S -> Z * S) (s : S) : Z * S :=
  match ex with
  | None => (UV_EBADF, s)
  | Some Refused => (UV_ECANCELED, s)
  | Some _ => fn s
  end.

(** [watch]: [init_rc] and [start_rc] are libuv's answers; the state is the
    handle, when libuv knows it.  A handle that was initialized and cannot be
    started is closed. *)
Definition start_watch (init_rc start_rc : Z) (h : option watch_handle) : Z * option watch_handle :=
  if negb (init_rc =? 0) then (init_rc, h)
  else if negb (start_rc =? 0) then (start_rc, Some HdClosing)
  else (0, Some HdOpen).
Definition watch (uv_strerror : Z -> bytes) (ex : option dispatch_answer) (backend : WatchBackend) (init_rc start_rc : Z) : result Watcher * option watch_handle :=
  let '(rc, h) := watch_loop_call ex (start_watch init_rc start_rc) None in
  if negb (rc =? 0)
  then (Throw (throw_uv_error uv_strerror rc (match backend with WatchByEvent => "uv_fs_event_start"%bs | WatchByPoll => "uv_fs_poll_start"%bs end)), h)
  else (Ok (mkWatcher true false false [] HdOpen None ClIdle false []), h).
Definition watching : Watcher := mkWatcher true false false [] HdOpen None ClIdle false [].

Definition watcher_is_open (w : Watcher) : bool := wt_started w && negb (wt_closing w) && negb (wt_closed w).

Definition wt_push (x : option WatchEvent) (w : Watcher) : Watcher :=
  mkWatcher (wt_started w) (wt_closing w) (wt_closed w) (wt_queue w ++ [x]) (wt_handle w) (wt_loop w) (wt_closer w) (wt_scheduled w) (wt_nexts w).
Definition wt_pop (w : Watcher) : Watcher :=
  mkWatcher (wt_started w) (wt_closing w) (wt_closed w) (tl (wt_queue w)) (wt_handle w) (wt_loop w) (wt_closer w) (wt_scheduled w) (wt_nexts w).
Definition wt_set_loop (l : option (option WatchEvent)) (w : Watcher) : Watcher :=
  mkWatcher (wt_started w) (wt_closing w) (wt_closed w) (wt_queue w) (wt_handle w) l (wt_closer w) (wt_scheduled w) (wt_nexts w).
Definition wt_set_closer (c : closer_pc) (w : Watcher) : Watcher :=
  mkWatcher (wt_started w) (wt_closing w) (wt_closed w) (wt_queue w) (wt_handle w) (wt_loop w) c (wt_scheduled w) (wt_nexts w).
Definition wt_set_next (k : nat) (pc : next_pc) (w : Watcher) : Watcher :=
  mkWatcher (wt_started w) (wt_closing w) (wt_closed w) (wt_queue w) (wt_handle w) (wt_loop w) (wt_closer w) (wt_scheduled w) (<[k := pc]> (wt_nexts w)).
Definition wt_set_closed (w : Watcher) : Watcher :=
  mkWatcher (wt_started w) (wt_closing w) true (wt_queue w) (wt_handle w) (wt_loop w) (wt_closer w) (wt_scheduled w) (wt_nexts w).

(** ** The callbacks and operations *)

(** [on_event] and [on_poll] up to the push. *)
Definition on_event (e : WatchEvent) (w : Watcher) : Watcher :=
  if wt_closed w || wt_closing w then w else wt_set_loop (Some (Some e)) w.
Definition loop_push (w : Watcher) : Watcher :=
  match wt_loop w with Some x => wt_set_loop None (wt_push x w) | None => w end.

(** [on_close] up to the push: the holder is deleted at its end. *)
Definition on_close (w : Watcher) : Watcher :=
  mkWatcher (wt_started w) (wt_closing w) true (wt_queue w) HdClosed (Some None) (wt_closer w) (wt_scheduled w) (wt_nexts w).

(** The lambda of [request_close]. *)
Definition close_on_loop (w : Watcher) : Watcher :=
  if wt_closed w then w
  else match wt_handle w with
       | HdOpen => mkWatcher (wt_started w) (wt_closing w) (wt_closed w) (wt_queue w) HdClosing (wt_loop w) (wt_closer w) (wt_scheduled w) (wt_nexts w)
       | _ => w
       end.

(** [request_close], step by step. *)
Definition request_close (w : Watcher) : Watcher :=
  if wt_closing w then w
  else mkWatcher (wt_started w) true (wt_closed w) (wt_queue w) (wt_handle w) (wt_loop w) ClDrain (wt_scheduled w) (wt_nexts w).
Definition drain_step (w : Watcher) : Watcher :=
  match wt_queue w with [] => wt_set_closer ClPush w | _ => wt_pop w end.
Definition schedule_step (a : dispatch_answer) (w : Watcher) : Watcher :=
  wt_set_closer ClDone
    (match a with
     | OnLoop => close_on_loop w
     | Accepted => mkWatcher (wt_started w) (wt_closing w) (wt_closed w) (wt_queue w) (wt_handle w) (wt_loop w) (wt_closer w) true (wt_nexts w)
     | Refused => wt_set_closed w
     end).
Definition run_scheduled (w : Watcher) : Watcher :=
  close_on_loop (mkWatcher (wt_started w) (wt_closing w) (wt_closed w) (wt_queue w) (wt_handle w) (wt_loop w) (wt_closer w) false (wt_nexts w)).

(** [next]: [try_pop]; then the flags; then [pop]. *)
Definition next_step (k : nat) (w : Watcher) : option Watcher :=
  match wt_nexts w !! k with
  | Some NxTry =>
      Some (match wt_queue w with
            | x :: _ => wt_set_next k (NxDone x) (wt_pop w)
            | [] => wt_set_next k NxCheck w
            end)
  | Some NxCheck => Some (wt_set_next k (if negb (watcher_is_open w) && wt_closed w then NxDone None else NxPop) w)
  | Some NxPop => match wt_queue w with x :: _ => Some (wt_set_next k (NxDone x) (wt_pop w)) | [] => None end
  | _ => None
  end.

(** [try_next]: what it returns and what it leaves.  The end and an empty
    queue look the same to the caller. *)
Definition try_next (w : Watcher) : option WatchEvent * Watcher :=
  match wt_queue w with x :: _ => (x, wt_pop w) | [] => (None, w) end.

(** [next] with a filter calls [next] until an event matches or the end comes:
    [results] is what the calls return; [None] when it waits for more. *)
Fixpoint next_filtered (f : WatchFilter) (results : list (option WatchEvent)) : option (option WatchEvent * list (option WatchEvent)) :=
  match results with
  | [] => None
  | None :: rest => Some (None, rest)
  | Some e :: rest => if matches e f then Some (Some e, rest) else next_filtered f rest
  end.
Definition next_change (filename : option bytes) := next_filtered (next_change_filter filename).
Definition next_rename (filename : option bytes) := next_filtered (next_rename_filter filename).

Inductive watch_label :=
| WEvent (e : WatchEvent) | WPush | WClose | WDrain | WEnd | WSchedule (a : dispatch_answer) | WRun | WOnClose | WNext | WNextStep (k : nat) | WTryNext.

Definition loop_idle (w : Watcher) : bool := match wt_loop w with None => true | Some _ => false end.
(** Callbacks and scheduled functions run on the loop, one at a time. *)
Definition watch_step (l : watch_label) (w : Watcher) : option Watcher :=
  let idle := loop_idle w in
  match l with
  | WEvent e => match wt_handle w with HdOpen => if idle then Some (on_event e w) else None | _ => None end
  | WPush => if idle then None else Some (loop_push w)
  | WClose => Some (request_close w)
  | WDrain => match wt_closer w with ClDrain => Some (drain_step w) | _ => None end
  | WEnd => match wt_closer w with ClPush => Some (wt_set_closer ClSchedule (wt_push None w)) | _ => None end
  | WSchedule a => match wt_closer w, a with ClSchedule, OnLoop => if idle then Some (schedule_step a w) else None | ClSchedule, _ => Some (schedule_step a w) | _, _ => None end
  | WRun => if idle && wt_scheduled w then Some (run_scheduled w) else None
  | WOnClose => match wt_handle w with HdClosing => if idle then Some (on_close w) else None | _ => None end
  | WNext => Some (mkWatcher (wt_started w) (wt_closing w) (wt_closed w) (wt_queue w) (wt_handle w) (wt_loop w) (wt_closer w) (wt_scheduled w) (wt_nexts w ++ [NxTry]))
  | WNextStep k => next_step k w
  | WTryNext => Some (snd (try_next w))
  end.
Fixpoint watch_run (ls : list watch_label) (w : Watcher) : option Watcher :=
  match ls with
  | [] => Some w
  | l :: ls => match watch_step l w with Some w => watch_run ls w | None => None end
  end.

Lemma watch_run_app ls1 ls2 w : watch_run (ls1 ++ ls2) w = match watch_run ls1 w with Some w' => watch_run ls2 w' | None => None end.
Proof. revert w. induction ls1 as [|l ls1 IH]; intros w; simpl; [done|]. by destruct (watch_step l w). Qed.

(** What rule induction over a run needs: a property of the start that every
    step keeps. *)
Lemma watch_run_inv (I : Watcher -> Prop) (ok : watch_label -> Watcher -> bool) (allowed : list watch_label -> Watcher -> bool) :
  (forall l ls w, allowed (l :: ls) w = true -> ok l w = true /\ forall w', watch_step l w = Some w' -> allowed ls w' = true) ->
  (forall l w w', I w -> ok l w = true -> watch_step l w = Some w' -> I w') ->
  forall ls w w', I w -> allowed ls w = true -> watch_run ls w = Some w' -> I w'.
Proof.
  intros Hal Hstep ls. induction ls as [|l ls IH]; intros w w' HI Ha Hr; simpl in Hr; [by simplify_eq|].
  destruct (watch_step l w) as [w1|] eqn:Hs; [|done]. destruct (Hal _ _ _ Ha) as [Hok Hrest]. eauto.
Qed.

(** ** Filters *)

(** [next] with a filter returns the first event that matches, or the end when
    it comes before. *)
Lemma next_filtered_first f before x rest :
  (forall y, y ∈ before -> exists e, y = Some e /\ matches e f = false) ->
  match x with Some e => matches e f = true | None => True end ->
  next_filtered f (before ++ x :: rest) = Some (x, rest).
Proof.
  intros Hb Hx. induction before as [|y before IH]; simpl.
  - destruct x as [e|]; [by rewrite Hx | done].
  - destruct (Hb y ltac:(left)) as (e & -> & ->). apply IH. intros z Hz. apply Hb. by right.
Qed.

(** ** Nothing is lost while the watcher is open *)

(** What a run reported, and what the calls of [next] and [try_next] in it
    returned, in the order of time: a call of [next] when it ends, with
    whatever it returns; a call of [try_next] when it returns something. *)
Fixpoint events_reported (ls : list watch_label) : list WatchEvent :=
  match ls with
  | [] => []
  | WEvent e :: ls => e :: events_reported ls
  | _ :: ls => events_reported ls
  end.
Definition taken_by (l : watch_label) (w w' : Watcher) : list (option WatchEvent) :=
  match l with
  | WTryNext => match fst (try_next w) with Some e => [Some e] | None => [] end
  | WNextStep k => match wt_nexts w' !! k with Some (NxDone r) => [r] | _ => [] end
  | _ => []
  end.
Fixpoint taken (ls : list watch_label) (w : Watcher) : list (option WatchEvent) :=
  match ls with
  | [] => []
  | l :: ls => match watch_step l w with Some w' => taken_by l w w' ++ taken ls w' | None => [] end
  end.
Definition is_close (l : watch_label) : bool := match l with WClose => true | _ => false end.

(** An open watcher that nobody closes. *)
Record watch_open (w : Watcher) : Prop := {
  wopen_closing : wt_closing w = false;
  wopen_closed : wt_closed w = false;
  wopen_closer : wt_closer w = ClIdle;
  wopen_scheduled : wt_scheduled w = false;
  wopen_handle : wt_handle w = HdOpen;
  wopen_queue : Forall is_Some (wt_queue w);
  wopen_loop : wt_loop w <> Some None
}.
Definition in_watcher (w : Watcher) : list (option WatchEvent) := wt_queue w ++ from_option (fun x => [x]) [] (wt_loop w).

Lemma watch_open_step l w w' :
  watch_open w -> is_close l = false -> watch_step l w = Some w' ->
  watch_open w' /\ taken_by l w w' ++ in_watcher w' = in_watcher w ++ map Some (events_reported [l]).
Proof.
  intros [H1 H2 H3 H4 H5 H6 H7] Hl Hs. destruct w as [st cg cd q h lp cl sc nx]. simpl in *. subst.
  destruct l as [e| | | | | | | | |k|]; try (by destruct lp).
  - destruct lp; [done|]. simpl in Hs. simplify_eq. unfold on_event, in_watcher. simpl. rewrite app_nil_r. split; [by constructor | done].
  - destruct lp as [[e|]|]; [|done|done]. simpl in Hs. simplify_eq. unfold loop_push, in_watcher. simpl. rewrite !app_nil_r. split; [|done].
    constructor; simpl; try done. apply Forall_app. split; [done|]. by constructor.
  - simpl in Hs. simplify_eq. unfold in_watcher. simpl. rewrite app_nil_r. split; [by constructor | done].
  - simpl in Hs. unfold next_step in Hs. unfold in_watcher. simpl in *. destruct (nx !! k) as [pc|] eqn:Hk; [|done].
    pose proof (lookup_lt_Some _ _ _ Hk) as Hlt.
    destruct pc; [destruct q as [|x q] | | destruct q as [|x q] | done]; simplify_eq; simpl; rewrite list_lookup_insert_eq by done; simpl;
      rewrite ?andb_false_r, ?app_nil_r; (split; [constructor; simpl; try done; by inversion H6 | done]).
  - simpl in Hs. unfold try_next, in_watcher in *. simpl in *. destruct q as [|x q]; simplify_eq; simpl; rewrite ?app_nil_r; [done|].
    inversion H6 as [|? ? [e ->] Hq]; subst. split; [by constructor | done].
Qed.

Lemma watch_open_run ls w w' :
  watch_open w -> forallb (negb ∘ is_close) ls = true -> watch_run ls w = Some w' ->
  watch_open w' /\ taken ls w ++ in_watcher w' = in_watcher w ++ map Some (events_reported ls).
Proof.
  revert w. induction ls as [|l ls IH]; intros w Hw Hc Hr; simpl in *; [simplify_eq; by rewrite app_nil_r|].
  apply andb_prop in Hc as [Hc Hcs]. apply negb_true_iff in Hc.
  destruct (watch_step l w) as [w1|] eqn:Hs; [|done]. destruct (watch_open_step _ _ _ Hw Hc Hs) as [Hw1 E1].
  destruct (IH _ Hw1 Hcs Hr) as [Hw' E2]. split; [done|].
  rewrite <- app_assoc, E2, app_assoc, E1, <- app_assoc. f_equal. by destruct l.
Qed.

(** ** Closing *)

(** The steps the watcher makes by itself once it is being closed: libuv and
    the executor run what they accepted. *)
Definition internal (l : watch_label) : bool :=
  match l with
  | WPush | WDrain | WEnd | WRun | WOnClose | WSchedule (OnLoop | Accepted) => true
  | _ => false
  end.
Definition refuses (l : watch_label) : bool := match l with WSchedule Refused => true | _ => false end.

(** What the flags say of the handle, the closing thread and the loop. *)
Record watch_inv (w : Watcher) : Prop := {
  wi_closer : wt_closer w = ClIdle <-> wt_closing w = false;
  wi_before : wt_closer w <> ClDone -> wt_handle w = HdOpen /\ wt_scheduled w = false;
  wi_handle : wt_closer w = ClDone -> wt_handle w = HdOpen -> wt_scheduled w = true;
  wi_closed : wt_closed w = true <-> wt_handle w = HdClosed;
  wi_end : wt_loop w = Some None -> wt_handle w = HdClosed
}.

Lemma watch_inv_step l w w' : watch_inv w -> refuses l = false -> watch_step l w = Some w' -> watch_inv w'.
Proof.
  intros [H1 H2 H3 H4 H5] Hl Hs. destruct w as [st cg cd q h lp cl sc nx]. simpl in *.
  destruct l as [| | | | |[]| | | | |]; simpl in *; try done.
  all: unfold loop_idle, on_event, loop_push, request_close, drain_step, schedule_step, run_scheduled, close_on_loop, next_step, try_next in *; simpl in *.
  all: simplify_eq; repeat (simpl in *; case_match; simplify_eq); constructor; simpl; naive_solver.
Qed.

(** How much an internal step can still do. *)
Definition watch_work (w : Watcher) : nat :=
  (match wt_closer w with ClIdle | ClDone => 0 | ClSchedule => 6 | ClPush => 7 | ClDrain => 8 + length (wt_queue w) end
   + (if wt_scheduled w then 4 else 0) + match wt_handle w with HdClosing => 3 | _ => 0 end
   + match wt_loop w with Some _ => 2 | None => 0 end)%nat.

Lemma internal_decreases l w w' : internal l = true -> watch_step l w = Some w' -> (watch_work w' < watch_work w)%nat.
Proof.
  intros Hl Hs. destruct w as [st cg cd q h lp cl sc nx].
  destruct l as [| | | | |[]| | | | |]; simpl in *; try done.
  all: unfold loop_idle, loop_push, drain_step, schedule_step, run_scheduled, close_on_loop, watch_work in *; simpl in *.
  all: simplify_eq; repeat (simpl in *; case_match; simplify_eq); simpl; rewrite ?length_app; simpl; lia.
Qed.

(** While something is left, the watcher can go on. *)
Lemma internal_progress w :
  watch_inv w -> wt_closing w = true -> watch_work w <> 0%nat ->
  exists l w', internal l = true /\ watch_step l w = Some w'.
Proof.
  intros [H1 H2 H3 H4 H5] Hc Hw. destruct w as [st cg cd q h lp cl sc nx]. unfold watch_work in Hw. simpl in *.
  destruct lp as [x|]; [by exists WPush; eexists|].
  destruct cl; [naive_solver | by exists WDrain; eexists | by exists WEnd; eexists | by exists (WSchedule Accepted); eexists |].
  destruct sc; [by exists WRun; eexists|]. destruct h; [naive_solver | by exists WOnClose; eexists | done].
Qed.

Lemma closing_stays l w w' : wt_closing w = true -> watch_step l w = Some w' -> wt_closing w' = true.
Proof.
  intros Hc Hs. destruct w as [st cg cd q h lp cl sc nx]. destruct l as [| | | | |[]| | | | |]; simpl in *; try done.
  all: unfold loop_idle, on_event, loop_push, request_close, drain_step, schedule_step, run_scheduled, close_on_loop, next_step, try_next in *; simpl in *.
  all: subst; simplify_eq; repeat (simpl in *; case_match; simplify_eq); done.
Qed.

(** The watcher winds down by itself. *)
Lemma watch_winds_down w :
  watch_inv w -> wt_closing w = true ->
  exists ls w', forallb internal ls = true /\ (length ls <= watch_work w)%nat /\ watch_run ls w = Some w' /\
    watch_inv w' /\ wt_closing w' = true /\ watch_work w' = 0%nat.
Proof.
  remember (watch_work w) as n eqn:Hn. revert w Hn. induction n as [n IH] using lt_wf_ind. intros w -> Hi Hc.
  destruct (decide (watch_work w = 0%nat)) as [Hz|Hz]; [exists [], w; rewrite Hz; naive_solver lia|].
  destruct (internal_progress w Hi Hc Hz) as (l & w1 & Hl & Hs). pose proof (internal_decreases _ _ _ Hl Hs) as Hlt.
  destruct (IH _ Hlt w1 eq_refl) as (ls & w' & Hls & Hlen & Hr & Hrest).
  { apply (watch_inv_step l w); [done | by destruct l as [| | | | |[]| | | | |] | done]. }
  { by eapply closing_stays. }
  exists (l :: ls), w'. simpl. rewrite Hl, Hls, Hs. split; [done|]. split; [lia | done].
Qed.

(** A watcher that has wound down is closed. *)
Lemma wound_down_closed w : watch_inv w -> wt_closing w = true -> watch_work w = 0%nat -> wt_closed w = true /\ wt_handle w = HdClosed /\ wt_loop w = None.
Proof.
  intros [H1 H2 H3 H4 H5] Hc Hw. destruct w as [st cg cd q h lp cl sc nx]. unfold watch_work in Hw. simpl in *.
  destruct lp, cl, sc, h; simpl in *; try lia; naive_solver.
Qed.

(** *** A sole consumer *)

Definition nx_active (pc : next_pc) : bool := match pc with NxDone _ => false | _ => true end.
(** One task consumes: it calls [next] or [try_next] only when no [next] is
    under way. *)
Definition sole_step (l : watch_label) (w : Watcher) : bool :=
  match l with WNext | WTryNext => Nat.eqb (count nx_active (wt_nexts w)) 0 | _ => true end.
Fixpoint sole_run (ls : list watch_label) (w : Watcher) : bool :=
  match ls with
  | [] => true
  | l :: ls => sole_step l w && match watch_step l w with Some w' => sole_run ls w' | None => true end
  end.

Record consumer_inv (w : Watcher) : Prop := {
  ci_inv : watch_inv w;
  ci_loop : wt_handle w = HdClosed -> forall e, wt_loop w <> Some (Some e);
  ci_one : (count nx_active (wt_nexts w) <= 1)%nat;
  ci_pop : wt_handle w = HdClosed -> wt_loop w = None -> forall k, wt_nexts w !! k = Some NxPop -> wt_queue w <> []
}.

(** The only [next] under way is the one that steps. *)
Lemma sole_active (nx : list next_pc) k j pc pc' :
  (count nx_active nx <= 1)%nat -> nx !! k = Some pc -> nx_active pc = true ->
  <[k := NxDone pc']> nx !! j <> Some NxPop.
Proof.
  intros Hc Hk Ha Hj. pose proof (count_insert nx_active nx k pc (NxDone pc') Hk) as Hi. rewrite Ha in Hi. simpl in Hi.
  pose proof (count_zero nx_active (<[k := NxDone pc']> nx) NxPop (list_elem_of_lookup_2 _ _ _ Hj) eq_refl). lia.
Qed.

Lemma none_active (nx : list next_pc) j : count nx_active nx = 0%nat -> nx !! j <> Some NxPop.
Proof. intros Hc Hj. by apply (count_zero nx_active nx NxPop (list_elem_of_lookup_2 _ _ _ Hj) eq_refl). Qed.

Lemma consumer_inv_next k w w' : consumer_inv w -> next_step k w = Some w' -> consumer_inv w'.
Proof.
  intros [Hi Hl Ho Hp] Hs.
  assert (watch_inv w') as Hi' by (by apply (watch_inv_step (WNextStep k) w)).
  destruct w as [st cg cd q h lp cl sc nx]. unfold next_step in Hs. simpl in *.
  destruct (nx !! k) as [pc|] eqn:Hk; [|done].
  assert (forall r, (count nx_active (<[k := NxDone r]> nx) <= 1)%nat) as Hd.
  { intros r. pose proof (count_insert nx_active nx k pc (NxDone r) Hk) as Hc. simpl in Hc. lia. }
  assert (forall pc', nx_active pc = true -> (count nx_active (<[k := pc']> nx) <= 1)%nat) as Ha.
  { intros pc' Hpc. pose proof (count_insert nx_active nx k pc pc' Hk) as Hc. rewrite Hpc in Hc. destruct (nx_active pc'); lia. }
  destruct pc; [destruct q as [|x q] | | destruct q as [|x q] | done]; simplify_eq; simpl in *.
  all: constructor; simpl in *; auto.
  all: intros Hh Hlp j Hj.
  all: try (by destruct (sole_active nx k j _ _ Ho Hk eq_refl Hj)).
  - apply list_lookup_insert_Some in Hj as [(_ & ? & _)|[? Hj]]; [done | by eapply Hp].
  - destruct (wi_closed _ Hi) as [_ Hcl]. simpl in Hcl. unfold watcher_is_open in Hj. simpl in Hj. rewrite (Hcl Hh), !andb_false_r in Hj. simpl in Hj.
    by destruct (sole_active nx k j _ _ Ho Hk eq_refl Hj).
Qed.

Lemma consumer_inv_step l w w' :
  consumer_inv w -> sole_step l w = true -> refuses l = false -> watch_step l w = Some w' -> consumer_inv w'.
Proof.
  intros HC Hl Hrf Hs. assert (watch_inv w') as Hi'.
  { apply (watch_inv_step l w); [apply HC | | done]. destruct l as [| | | | |[]| | | | |]; done. }
  destruct l as [| | | | |[]| | | |k|]; try done;
    lazymatch type of Hs with watch_step (WNextStep _) _ = _ => exact (consumer_inv_next k w w' HC Hs) | _ => idtac end.
  all: destruct HC as [Hi Hlp Ho Hp]; pose proof (wi_before _ Hi) as Hb; destruct w as [st cg cd q h lp cl sc nx]; simpl in *; try done.
  all: unfold loop_idle, on_event, loop_push, request_close, drain_step, schedule_step, run_scheduled, close_on_loop, try_next in *; simpl in *.
  all: simplify_eq; repeat (simpl in *; case_match; simplify_eq); constructor; simpl in *; try done; try lia; try naive_solver.
  all: try (intros; by destruct q).
  all: rewrite ?count_snoc; simpl; try (apply Nat.eqb_eq in Hl; lia).
  all: intros _ _ j Hj; apply Nat.eqb_eq in Hl.
  - apply lookup_app_Some in Hj as [Hj|[_ Hj]]; [by destruct (none_active _ _ Hl Hj) | by destruct (j - length nx)%nat].
  - by destruct (none_active _ _ Hl Hj).
Qed.

(** *** An executor that refuses *)

(** The executor took nothing: the flag is all that [request_close] sets, and
    nobody will ever close the handle. *)
Record refused (w : Watcher) : Prop := {
  rf_closing : wt_closing w = true;
  rf_closed : wt_closed w = true;
  rf_closer : wt_closer w = ClDone;
  rf_scheduled : wt_scheduled w = false;
  rf_handle : wt_handle w = HdOpen
}.

Lemma refuse_step w w' : watch_inv w -> watch_step (WSchedule Refused) w = Some w' -> refused w'.
Proof.
  intros [H1 H2 _ _ _]. destruct w as [st cg cd q h lp cl sc nx]. simpl in *. destruct cl; try done. intros [= <-].
  destruct (H2 ltac:(done)) as [-> ->]. constructor; simpl; try done. destruct cg; [done|]. by destruct H1 as [_ ?%(fun f => f eq_refl)].
Qed.

Lemma refused_step l w w' : refused w -> watch_step l w = Some w' -> refused w'.
Proof.
  intros [H1 H2 H3 H4 H5] Hs. destruct w as [st cg cd q h lp cl sc nx]. simpl in *. subst.
  destruct l as [| | | | |a| | | | |]; simpl in *; try done.
  all: unfold loop_idle, on_event, loop_push, next_step, try_next in *; simpl in *.
  all: simplify_eq; repeat (simpl in *; case_match; simplify_eq); by constructor.
Qed.

Lemma refused_run ls w w' : refused w -> watch_run ls w = Some w' -> refused w'.
Proof.
  revert w. induction ls as [|l ls IH]; intros w Hw Hr; simpl in Hr; [by simplify_eq|].
  destruct (watch_step l w) as [w1|] eqn:E; [|done]. eapply IH; [by eapply refused_step | done].
Qed.

(** A run with one consumer, with or without a refusal. *)
Lemma sole_run_state ls w w' :
  consumer_inv w -> sole_run ls w = true -> watch_run ls w = Some w' ->
  if existsb refuses ls then refused w' else consumer_inv w'.
Proof.
  revert w. induction ls as [|l ls IH]; intros w Hw Hs Hr; simpl in *; [by simplify_eq|].
  apply andb_prop in Hs as [Hl Hs]. destruct (watch_step l w) as [w1|] eqn:E; [|done].
  destruct (refuses l) eqn:Er; simpl.
  - destruct l as [| | | | |[]| | | | |]; try done. eapply refused_run; [|done]. eapply refuse_step; [apply Hw | done].
  - apply (IH w1); [by eapply consumer_inv_step | done | done].
Qed.

(** ** The theorems *)

(** [watch] gives a watcher only with an open handle, and a failed call leaves
    none open: what it initialized it closes. *)
Lemma watch_no_leak uv_strerror ex backend init_rc start_rc :
  match watch uv_strerror ex backend init_rc start_rc with
  | (Ok w, h) => w = watching /\ h = Some HdOpen
  | (_, h) => h <> Some HdOpen
  end.
Proof.
  unfold watch, watch_loop_call, start_watch. destruct ex as [[]|]; simpl; try done.
  all: destruct (init_rc =? 0) eqn:Ei; simpl; [|by rewrite Ei]; destruct (start_rc =? 0) eqn:Es; simpl; by rewrite ?Es.
Qed.

Lemma watching_open : watch_open watching.
Proof. by constructor. Qed.

Lemma watching_consumer_inv : consumer_inv watching.
Proof. constructor; simpl; try done; try lia. by constructor. Qed.

(** C39: As long as nobody closes the watcher, what the calls of [next] and
    [try_next] have returned, followed by what is still in the queue and by
    what the callback is about to push, is what libuv reported: every event,
    once, in order; and no [next] returns the end. *)
Theorem watcher_events_in_order ls w :
  forallb (negb ∘ is_close) ls = true -> watch_run ls watching = Some w ->
  taken ls watching ++ in_watcher w = map Some (events_reported ls).
Proof. intros Hc Hr. by destruct (watch_open_run ls watching w watching_open Hc Hr) as [_ E]. Qed.

Definition some_event (status : Z) : WatchEvent := mkEvent [] None UV_CHANGE status.

Lemma watcher_events_in_order_witness :
  exists w, watch_run [WNext; WNextStep 0; WNextStep 0; WEvent (some_event 0); WPush; WEvent (some_event (-1)); WNextStep 0] watching = Some w /\
    taken [WNext; WNextStep 0; WNextStep 0; WEvent (some_event 0); WPush; WEvent (some_event (-1)); WNextStep 0] watching ++ in_watcher w =
      [Some (some_event 0); Some (some_event (-1))].
Proof. eexists. split; [reflexivity|]. apply watcher_events_in_order; reflexivity. Defined.


Definition waits (k : nat) : list watch_label := [WNext; WNextStep k; WNextStep k].


(** ** What is not intended *)

(** The executor has shut down when [close] is called: it refuses, the handle
    stays open for ever, and so does what libuv keeps for it. *)
Theorem watcher_refused_close_leaks :
  exists w, watch_run [WClose; WDrain; WEnd; WSchedule Refused] watching = Some w /\ watcher_is_open w = false /\ wt_closed w = true /\
    forall ls w', watch_run ls w = Some w' -> wt_handle w' = HdOpen.
Proof.
  eexists. split; [reflexivity|]. split; [done|]. split; [done|]. intros ls w' Hr. eapply rf_handle, refused_run; [|exact Hr]. by constructor.
Qed.

(** The end is pushed twice, by [request_close] and by [on_close]: of three
    consumers that wait, two are released and the third waits for ever,
    whatever else happens. *)
Definition three_waiters : list watch_label :=
  waits 0 ++ waits 1 ++ waits 2 ++ [WClose; WDrain; WEnd; WSchedule Accepted; WRun; WOnClose; WPush; WNextStep 0; WNextStep 1].

Record stranded (k : nat) (w : Watcher) : Prop := {
  sd_queue : wt_queue w = [];
  sd_handle : wt_handle w = HdClosed;
  sd_loop : wt_loop w = None;
  sd_closing : wt_closing w = true;
  sd_closer : wt_closer w = ClDone;
  sd_next : wt_nexts w !! k = Some NxPop
}.

Lemma stranded_step k l w w' : stranded k w -> watch_step l w = Some w' -> stranded k w'.
Proof.
  intros [H1 H2 H3 H4 H5 H6] Hs. destruct w as [st cg cd q h lp cl sc nx]. simpl in *. subst.
  destruct l as [| | | | |a| | | |j|]; simpl in *; try done.
  - by simplify_eq.
  - destruct sc; [|done]. simplify_eq. unfold run_scheduled, close_on_loop. simpl. by destruct cd.
  - simplify_eq. constructor; simpl; try done. by apply lookup_app_l_Some.
  - unfold next_step in Hs. simpl in Hs. destruct (nx !! j) as [[]|] eqn:Hj; try done; simplify_eq; constructor; simpl; try done.
    all: rewrite list_lookup_insert_ne; [done | congruence].
  - by simplify_eq.
Qed.

Theorem watcher_strands_third_waiter :
  exists w, watch_run three_waiters watching = Some w /\ wt_closed w = true /\
    forall ls w', watch_run ls w = Some w' -> wt_nexts w' !! 2%nat = Some NxPop.
Proof.
  eexists. split; [vm_compute; reflexivity|]. split; [done|].
  intros ls w' Hr. refine (sd_next _ _ (watch_run_inv (stranded 2) (fun _ _ => true) (fun _ _ => true) _ _ ls _ w' _ eq_refl Hr)).
  - done.
  - intros l w0 w1 H _. by apply stranded_step.
  - by constructor.
Qed.

(** A callback that passed the test of [closing] pushes its event after the end
    that [request_close] pushed: a consumer that stops at the end does not
    see the event, and one that reads on sees an event after the end. *)
Theorem watcher_event_after_end e :
  option_map wt_queue (watch_run [WEvent e; WClose; WDrain; WEnd; WPush] watching) = Some [None; Some e].
Proof. reflexivity. Qed.
