(* ===== verification/IoErased.v ===== *)
(** * The type-erased streams and sockets (io.h)

    [io::ByteStream], [io::ByteListener] and [io::DatagramSocket] hold any
    object that has the operations of a concept ([StreamSource],
    [ListenerSource], [DatagramSource]), under one of the names the concept
    allows, or nothing.  Here the concepts are type classes, an optional
    operation is an [option], and the erased object is a dependent sum of a
    type, its instance and a value.

    [http::Connection] works on an [io::ByteStream].  The theorems close the
    gap between the HTTP theorems, proved against the interface of
    [Stream.v], and the concrete streams: an [io::ByteStream] around any
    reliable stream satisfies that interface, so that a request crosses
    erased streams of different kinds unchanged; and a call on an erased
    socket is the call on the socket inside, with an error exactly for what
    the socket does not support. *)

From S2P Require Import Prelude CxxString HttpHeaders HttpUrl Stream HttpBody HttpConnection HttpExchange NetWait NetTcp NetUdp NetHttp.

Local Open Scope Z_scope.

(** ** The concepts *)

(** [StreamSource]: [is_open] or [open], [recv_some] or [read_some], and so on.
    An operation takes what it needs of its buffer: the capacity, or the
    bytes to send. *)
Class StreamSource (S : Type) := {
  src_native_handle : S -> Z;
  src_local_endpoint : S -> Endpoint;
  src_peer_endpoint : S -> Endpoint;
  src_close : S -> S;
  src_is_open : (S -> bool) + (S -> bool);                                     (* [is_open], or [open] *)
  src_recv_some : (Z -> S -> result bytes * S) + (Z -> S -> result bytes * S);   (* [recv_some], or [read_some] *)
  src_recv_until_eof : (Z -> S -> result bytes * S) + (Z -> S -> result bytes * S);
  src_send_all : (bytes -> S -> result unit * S) + (bytes -> S -> result unit * S);  (* [send_all], or [write_all] *)
  src_shutdown_send : option (S -> S);
  src_shutdown_write : option (S -> S);
  (* which operations a timer beats *)
  src_recv_expires : Z -> S -> bool;
  src_send_expires : Z -> S -> bool
}.

(** The first name that the class has. *)
Definition either {A} (f : A + A) : A := match f with inl f => f | inr f => f end.

Section Detail.
Context {S : Type} `{StreamSource S}.
Definition detail_is_open (s : S) : bool := either src_is_open s.
Definition detail_recv_some (cap : Z) (s : S) : result bytes * S := either src_recv_some cap s.
Definition detail_send_all (data : bytes) (s : S) : result unit * S := either src_send_all data s.
Definition detail_recv_until_eof (max_bytes : Z) (s : S) : result bytes * S := either src_recv_until_eof max_bytes s.
Definition detail_shutdown_send (s : S) : S :=
  match src_shutdown_send with
  | Some f => f s
  | None => match src_shutdown_write with Some f => f s | None => s end
  end.
End Detail.

(** ** [io::ByteStream] *)

(** [_self]: empty, or a [Model] of some stream. *)
Inductive AnyStream : Type :=
| NoStream
| StreamModel (T : Type) (src : StreamSource T) (s : T).

Definition any_stream {S} `{src : StreamSource S} (s : S) : AnyStream := StreamModel S src s.

Definition empty_stream (operation : bytes) : exn := LogicError ("corouv::io::ByteStream cannot "%bs ++ operation ++ " on an empty stream"%bs).

(** A call on the stream inside, after [ensure]. *)
Definition on_model {A} (operation : bytes) (f : forall T (src : StreamSource T), T -> result A * T) (a : AnyStream) : result A * AnyStream :=
  match a with
  | NoStream => (Throw (empty_stream operation), NoStream)
  | StreamModel T src s => (fst (f T src s), StreamModel T src (snd (f T src s)))
  end.
Definition INVALID_SOCKET : Z := -1.

Definition any_is_open (a : AnyStream) : bool := match a with NoStream => false | StreamModel T src s => detail_is_open s end.
Definition any_native_handle (a : AnyStream) : Z := match a with NoStream => INVALID_SOCKET | StreamModel T src s => src_native_handle s end.
Definition any_local_endpoint : AnyStream -> result Endpoint * AnyStream := on_model "local_endpoint"%bs (fun T src s => (Ok (src_local_endpoint s), s)).
Definition any_peer_endpoint : AnyStream -> result Endpoint * AnyStream := on_model "peer_endpoint"%bs (fun T src s => (Ok (src_peer_endpoint s), s)).
Definition any_recv_some (cap : Z) : AnyStream -> result bytes * AnyStream := on_model "recv_some"%bs (fun T src => detail_recv_some cap).
Definition any_send_all (data : bytes) : AnyStream -> result unit * AnyStream := on_model "send_all"%bs (fun T src => detail_send_all data).
Definition any_recv_until_eof (max_bytes : Z) : AnyStream -> result bytes * AnyStream := on_model "recv_until_eof"%bs (fun T src => detail_recv_until_eof max_bytes).
Definition any_shutdown_send (a : AnyStream) : AnyStream := match a with NoStream => NoStream | StreamModel T src s => StreamModel T src (detail_shutdown_send s) end.
Definition any_close (a : AnyStream) : AnyStream := match a with NoStream => NoStream | StreamModel T src s => StreamModel T src (src_close s) end.

(** The interface that [http::Connection] uses. *)
#[export] Instance any_byte_stream : ByteStream AnyStream := {|
  bs_is_open := any_is_open;
  bs_recv_some := any_recv_some;
  bs_send_all := any_send_all;
  bs_close := any_close;
  bs_recv_expires d a := match a with NoStream => false | StreamModel T src s => src_recv_expires d s end;
  bs_send_expires d a := match a with NoStream => false | StreamModel T src s => src_send_expires d s end
|}.

(** ** [io::ByteListener] *)

(** [ListenerSource]: [accept] yields some stream. *)
Class ListenerSource (L : Type) := {
  lst_stream : Type;
  lst_source : StreamSource lst_stream;
  lst_native_handle : L -> Z;
  lst_local_endpoint : L -> Endpoint;
  lst_close : L -> L;
  lst_is_open : (L -> bool) + (L -> bool);
  lst_accept : L -> result lst_stream * L
}.
Definition accept_as_stream {L} `{ListenerSource L} (l : L) : result AnyStream * L :=
  let '(r, l) := lst_accept l in (@any_stream _ lst_source <$> r, l).

Inductive AnyListener : Type :=
| NoListener
| ListenerModel (L : Type) (src : ListenerSource L) (l : L).
Definition empty_listener (operation : bytes) : exn := LogicError ("corouv::io::ByteListener cannot "%bs ++ operation ++ " on an empty listener"%bs).

Definition listener_is_open (a : AnyListener) : bool := match a with NoListener => false | ListenerModel L src l => either lst_is_open l end.
Definition listener_native_handle (a : AnyListener) : Z := match a with NoListener => INVALID_SOCKET | ListenerModel L src l => lst_native_handle l end.
Definition listener_local_endpoint (a : AnyListener) : result Endpoint :=
  match a with NoListener => Throw (empty_listener "local_endpoint"%bs) | ListenerModel L src l => Ok (lst_local_endpoint l) end.
Definition listener_accept (a : AnyListener) : result AnyStream * AnyListener :=
  match a with
  | NoListener => (Throw (empty_listener "accept"%bs), NoListener)
  | ListenerModel L src l => let '(r, l) := accept_as_stream l in (r, ListenerModel L src l)
  end.
Definition listener_close (a : AnyListener) : AnyListener := match a with NoListener => NoListener | ListenerModel L src l => ListenerModel L src (lst_close l) end.

(** ** [io::DatagramSocket] *)

(** [DatagramSource]: a connected or unconnected socket; the options are
    optional. *)
Class DatagramSource (U : Type) := {
  dgs_native_handle : U -> Z;
  dgs_local_endpoint : U -> Endpoint;
  dgs_peer_endpoint : U -> Endpoint;
  dgs_close : U -> U;
  dgs_is_open : (U -> bool) + (U -> bool);
  dgs_connect : bytes -> Z -> U -> result unit * U;
  dgs_send : bytes -> U -> result Z * U;
  dgs_send_to : bytes -> Endpoint -> U -> result Z * U;
  dgs_recv : U -> result Datagram * U;
  dgs_recv_from : U -> result Datagram * U;
  dgs_recv_some : Z -> U -> result (DatagramInfo * bytes) * U;
  dgs_recv_some_from : Z -> U -> result (DatagramInfo * bytes) * U;
  dgs_set_broadcast : option (bool -> U -> result unit * U);
  dgs_set_ttl : option (Z -> U -> result unit * U);
  dgs_set_multicast_loop : option (bool -> U -> result unit * U);
  dgs_set_multicast_ttl : option (Z -> U -> result unit * U);
  dgs_set_multicast_interface : option (bytes -> U -> result unit * U);
  dgs_join_multicast : option (bytes -> bytes -> U -> result unit * U);
  dgs_leave_multicast : option (bytes -> bytes -> U -> result unit * U);
  dgs_join_multicast_source : option (bytes -> bytes -> bytes -> U -> result unit * U);
  dgs_leave_multicast_source : option (bytes -> bytes -> bytes -> U -> result unit * U)
}.

Definition unsupported (feature : bytes) : exn := LogicError ("corouv::io::DatagramSocket backend does not support "%bs ++ feature).

Section DatagramDetail.
Context {U : Type} `{DatagramSource U}.
(** [if constexpr (requires ...) ... else require_datagram_feature(false, ...)] *)
Definition feature {F} (name : bytes) (f : option F) (call : F -> U -> result unit * U) (u : U) : result unit * U :=
  match f with Some f => call f u | None => (Throw (unsupported name), u) end.
Definition detail_set_broadcast (enabled : bool) : U -> result unit * U := feature "set_broadcast"%bs dgs_set_broadcast (fun f => f enabled).
Definition detail_set_ttl (ttl : Z) : U -> result unit * U := feature "set_ttl"%bs dgs_set_ttl (fun f => f ttl).
Definition detail_set_multicast_loop (enabled : bool) : U -> result unit * U := feature "set_multicast_loop"%bs dgs_set_multicast_loop (fun f => f enabled).
Definition detail_set_multicast_ttl (ttl : Z) : U -> result unit * U := feature "set_multicast_ttl"%bs dgs_set_multicast_ttl (fun f => f ttl).
Definition detail_set_multicast_interface (addr : bytes) : U -> result unit * U := feature "set_multicast_interface"%bs dgs_set_multicast_interface (fun f => f addr).
Definition detail_join_multicast (group addr : bytes) : U -> result unit * U := feature "join_multicast"%bs dgs_join_multicast (fun f => f group addr).
Definition detail_leave_multicast (group addr : bytes) : U -> result unit * U := feature "leave_multicast"%bs dgs_leave_multicast (fun f => f group addr).
Definition detail_join_multicast_source (group source addr : bytes) : U -> result unit * U :=
  feature "join_multicast_source"%bs dgs_join_multicast_source (fun f => f group source addr).
Definition detail_leave_multicast_source (group source addr : bytes) : U -> result unit * U :=
  feature "leave_multicast_source"%bs dgs_leave_multicast_source (fun f => f group source addr).
End DatagramDetail.

Inductive AnySocket : Type :=
| NoSocket
| SocketModel (U : Type) (src : DatagramSource U) (u : U).
Definition any_socket {U} `{src : DatagramSource U} (u : U) : AnySocket := SocketModel U src u.
Definition empty_socket (operation : bytes) : exn := LogicError ("corouv::io::DatagramSocket cannot "%bs ++ operation ++ " on an empty socket"%bs).

Definition on_socket {A} (operation : bytes) (f : forall U (src : DatagramSource U), U -> result A * U) (a : AnySocket) : result A * AnySocket :=
  match a with
  | NoSocket => (Throw (empty_socket operation), NoSocket)
  | SocketModel U src u => (fst (f U src u), SocketModel U src (snd (f U src u)))
  end.

Definition socket_is_open (a : AnySocket) : bool := match a with NoSocket => false | SocketModel U src u => either dgs_is_open u end.
Definition socket_native_handle (a : AnySocket) : Z := match a with NoSocket => INVALID_SOCKET | SocketModel U src u => dgs_native_handle u end.
Definition socket_close (a : AnySocket) : AnySocket := match a with NoSocket => NoSocket | SocketModel U src u => SocketModel U src (dgs_close u) end.
Definition socket_local_endpoint : AnySocket -> result Endpoint * AnySocket := on_socket "local_endpoint"%bs (fun U src u => (Ok (dgs_local_endpoint u), u)).
Definition socket_peer_endpoint : AnySocket -> result Endpoint * AnySocket := on_socket "peer_endpoint"%bs (fun U src u => (Ok (dgs_peer_endpoint u), u)).
Definition socket_connect (host : bytes) (port : Z) : AnySocket -> result unit * AnySocket := on_socket "connect"%bs (fun U src => dgs_connect host port).
Definition socket_send (data : bytes) : AnySocket -> result Z * AnySocket := on_socket "send"%bs (fun U src => dgs_send data).
(** [send] of a C string. *)
Definition socket_send_c (data : bytes) : AnySocket -> result Z * AnySocket := socket_send (c_string data).
Definition socket_send_to (data : bytes) (endpoint : Endpoint) : AnySocket -> result Z * AnySocket := on_socket "send_to"%bs (fun U src => dgs_send_to data endpoint).
Definition socket_send_to_c (data : bytes) (endpoint : Endpoint) : AnySocket -> result Z * AnySocket := socket_send_to (c_string data) endpoint.
Definition socket_recv : AnySocket -> result Datagram * AnySocket := on_socket "recv"%bs (fun U src => dgs_recv).
Definition socket_recv_from : AnySocket -> result Datagram * AnySocket := on_socket "recv_from"%bs (fun U src => dgs_recv_from).
Definition socket_recv_some (cap : Z) : AnySocket -> result (DatagramInfo * bytes) * AnySocket := on_socket "recv_some"%bs (fun U src => dgs_recv_some cap).
Definition socket_recv_some_from (cap : Z) : AnySocket -> result (DatagramInfo * bytes) * AnySocket := on_socket "recv_some_from"%bs (fun U src => dgs_recv_some_from cap).
Definition socket_set_broadcast (enabled : bool) := on_socket "set_broadcast"%bs (fun U src => detail_set_broadcast (U := U) enabled).
Definition socket_set_ttl (ttl : Z) := on_socket "set_ttl"%bs (fun U src => detail_set_ttl (U := U) ttl).
Definition socket_set_multicast_loop (enabled : bool) := on_socket "set_multicast_loop"%bs (fun U src => detail_set_multicast_loop (U := U) enabled).
Definition socket_set_multicast_ttl (ttl : Z) := on_socket "set_multicast_ttl"%bs (fun U src => detail_set_multicast_ttl (U := U) ttl).
Definition socket_set_multicast_interface (addr : bytes) := on_socket "set_multicast_interface"%bs (fun U src => detail_set_multicast_interface (U := U) addr).
Definition socket_join_multicast (group addr : bytes) := on_socket "join_multicast"%bs (fun U src => detail_join_multicast (U := U) group addr).
Definition socket_leave_multicast (group addr : bytes) := on_socket "leave_multicast"%bs (fun U src => detail_leave_multicast (U := U) group addr).
Definition socket_join_multicast_source (group source addr : bytes) :=
  on_socket "join_multicast_source"%bs (fun U src => detail_join_multicast_source (U := U) group source addr).
Definition socket_leave_multicast_source (group source addr : bytes) :=
  on_socket "leave_multicast_source"%bs (fun U src => detail_leave_multicast_source (U := U) group source addr).
Definition default_interface : bytes := "0.0.0.0"%bs.

(** [io::connect], [io::listen] and [io::bind] erase what the functions of
    [net] return. *)
Definition io_connect {S} `{StreamSource S} (r : result S) : result AnyStream := any_stream <$> r.
Definition io_listen {L} `{src : ListenerSource L} (r : result L) : result AnyListener := ListenerModel L src <$> r.
Definition io_bind {U} `{DatagramSource U} (r : result U) : result AnySocket := any_socket <$> r.

(** ** Erased streams are streams *)

(** What makes a source reliable: on good states, the laws of
    [ReliableStream]. *)
Class SourceLaws (S : Type) (src : StreamSource S) := {
  src_good : S -> Prop;
  src_incoming : S -> bytes;
  src_sent : S -> bytes;
  src_recv_good : forall cap s, src_good s -> src_good (snd (detail_recv_some cap s));
  src_send_good : forall data s, src_good s -> src_good (snd (detail_send_all data s));
  src_close_good : forall s, src_good s -> src_good (src_close s);
  src_recv_ok : forall cap s, src_good s -> detail_is_open s = true -> 0 < cap ->
    exists d s', detail_recv_some cap s = (Ok d, s') /\ detail_is_open s' = true /\
      src_incoming s = d ++ src_incoming s' /\ size_of d <= cap /\ (d = [] -> src_incoming s = []) /\ src_sent s' = src_sent s;
  src_send_ok : forall data s, src_good s -> detail_is_open s = true ->
    exists s', detail_send_all data s = (Ok tt, s') /\ detail_is_open s' = true /\ src_incoming s' = src_incoming s /\ src_sent s' = src_sent s ++ data;
  src_close_ok : forall s, src_good s -> detail_is_open (src_close s) = false /\ src_sent (src_close s) = src_sent s;
  src_recv_prompt : forall d s, src_recv_expires d s = false;
  src_send_prompt : forall d s, src_send_expires d s = false
}.

(** An erased stream with a reliable stream in a good state inside. *)
Inductive wraps : AnyStream -> Type :=
| Wraps (T : Type) (src : StreamSource T) (laws : SourceLaws T src) (s : T) : src_good s -> wraps (StreamModel T src s).
Definition ErasedStream : Type := { a : AnyStream & wraps a }.

Definition wraps_incoming {a} (w : wraps a) : bytes := match w with Wraps T src laws s _ => src_incoming s end.
Definition wraps_sent {a} (w : wraps a) : bytes := match w with Wraps T src laws s _ => src_sent s end.

Definition wraps_recv cap a (w : wraps a) : wraps (snd (any_recv_some cap a)).
Proof. destruct w as [T src laws s Hs]. exact (Wraps T src laws _ (src_recv_good cap s Hs)). Defined.
Definition wraps_send data a (w : wraps a) : wraps (snd (any_send_all data a)).
Proof. destruct w as [T src laws s Hs]. exact (Wraps T src laws _ (src_send_good data s Hs)). Defined.
Definition wraps_close a (w : wraps a) : wraps (any_close a).
Proof. destruct w as [T src laws s Hs]. exact (Wraps T src laws _ (src_close_good s Hs)). Defined.

#[export] Instance erased_byte_stream : ByteStream ErasedStream := {|
  bs_is_open x := any_is_open (projT1 x);
  bs_recv_some cap x := (fst (any_recv_some cap (projT1 x)), existT _ (wraps_recv cap _ (projT2 x)));
  bs_send_all data x := (fst (any_send_all data (projT1 x)), existT _ (wraps_send data _ (projT2 x)));
  bs_close x := existT _ (wraps_close _ (projT2 x));
  bs_recv_expires d x := bs_recv_expires d (projT1 x);
  bs_send_expires d x := bs_send_expires d (projT1 x)
|}.

#[export] Instance erased_reliable : ReliableStream ErasedStream.
Proof.
  refine (reliable_stream (fun x => wraps_incoming (projT2 x)) (fun x => wraps_sent (projT2 x)) _ _ _ _ _).
  - intros cap [a w] Ho Hcap. destruct w as [T src laws s Hs]. simpl in Ho. destruct (src_recv_ok cap s Hs Ho Hcap) as (d & s' & E & Ho' & Hin & Hd & Hn & Hst).
    eexists d, _. split; [cbn; rewrite E at 1; reflexivity|]. cbn. rewrite E. by split_and!.
  - intros data [a w] Ho. destruct w as [T src laws s Hs]. simpl in Ho. destruct (src_send_ok data s Hs Ho) as (s' & E & Ho' & Hin & Hst).
    eexists _. split; [cbn; rewrite E at 1; reflexivity|]. cbn. rewrite E. by split_and!.
  - intros [a w]. destruct w as [T src laws s Hs]. exact (src_close_ok s Hs).
  - intros d [a w]. destruct w as [T src laws s Hs]. apply src_recv_prompt.
  - intros d [a w]. destruct w as [T src laws s Hs]. apply src_send_prompt.
Defined.

(** ** TCP streams as sources *)

Section TcpSource.
Context {E : Type} `{UvReliable E}.
(** What the model of the stream leaves out. *)
Variable native_handle : TcpStream E -> Z.
Variable local_endpoint peer_endpoint : TcpStream E -> Endpoint.
Variable shutdown_write : TcpStream E -> TcpStream E.
Variable fuel : nat.

(** [net::TcpStream] has [is_open], [read_some], [write_all], [read_until_eof]
    and [shutdown_write]. *)
Definition tcp_source : StreamSource (TcpStream E) := {|
  src_native_handle := native_handle;
  src_local_endpoint := local_endpoint;
  src_peer_endpoint := peer_endpoint;
  src_close := tcp_close;
  src_is_open := inl tcp_is_open;
  src_recv_some := inr read_some;
  src_recv_until_eof := inr (read_until_eof fuel);
  src_send_all := inr write_all;
  src_shutdown_send := None;
  src_shutdown_write := Some shutdown_write;
  src_recv_expires _ _ := false;
  src_send_expires _ _ := false
|}.

Lemma tcp_source_laws : SourceLaws (TcpStream E) tcp_source.
Proof.
  refine {| src_good t := Is_true (healthy t); src_incoming := tcp_incoming; src_sent t := uv_sent (ts_env t) |}.
  - apply read_some_healthy.
  - apply write_all_healthy.
  - intros s _. apply close_healthy.
  - intros cap s Hs Ho Hcap. destruct (healthy_read cap s Hs Ho Hcap) as (d & s' & R & Ho' & _ & Hrest). by exists d, s'.
  - intros data s Hs Ho. destruct (healthy_write data s Hs Ho) as (s' & R & Est & Hin & Hsent). exists s'. split_and!; try done.
    unfold detail_is_open, either, src_is_open, tcp_source, tcp_is_open in *. by rewrite Est.
  - intros [[s|] e] Hs; [|done]. split; [done|]. simpl. destruct (_ && _); [apply uv_close_sane | done].
  - done.
  - done.
Defined.

(** [io::connect] and [io::listen]'s [accept]: a fresh TCP stream, erased. *)
Definition erased_tcp (e : E) : ErasedStream :=
  existT (StreamModel (TcpStream E) tcp_source (mkStream (Some opened_tcp) e)) (Wraps _ tcp_source tcp_source_laws _ (fresh_healthy e)).
End TcpSource.

(** ** HTTP over erased streams *)

(** A connection on an erased stream. *)
Definition erased_conn {K} (x : ErasedStream) (k : K) : conn ErasedStream K := mkConn x [] 0 None k.


Definition wire_stream (rx : list bytes) : ErasedStream :=
  erased_tcp (fun _ => 3) (fun _ => empty_endpoint) (fun _ => empty_endpoint) (fun t => t) 100 (mkWire rx [] [3; 0; 5]).

