(* ===== verification/DatagramChannel.v ===== *)
(** * The datagram channel (datagram_channel.h)

    [net::DatagramChannel] is a queue of datagrams with a task, [pump], that
    fills it from a socket.  The queue is [AsyncQueue], whose operations
    deliver in order (see [AsyncQueue]); here it is the list of what was pushed
    and not taken, with its capacity: a [push] to a full queue suspends until
    a consumer has made room.  How much the consumers take during a suspension
    is a question to the environment, [consumed].  The socket is any erased socket of [IoErased].

    The theorems: what [pump] received is in the queue or was taken, in order,
    however it ends; on a socket that is closed in the end it returns, and any
    other failure of the socket is thrown. *)

From S2P Require Import Prelude CxxString Coroutine HttpUrl HttpServer NetUdp IoErased.

Local Open Scope Z_scope.

(** The channel: what waits in the queue, what the consumers have taken, and
    the capacity ([None]: unbounded). *)
Record DatagramChannel := mkChannel { ch_queue : list Datagram; ch_taken : list Datagram; ch_capacity : option nat }.
Definition new_channel (capacity : option nat) : DatagramChannel := mkChannel [] [] capacity.

Definition ch_full (c : DatagramChannel) : bool := match ch_capacity c with Some n => Nat.leb n (length (ch_queue c)) | None => false end.
Definition ch_empty (c : DatagramChannel) : bool := match ch_queue c with [] => true | _ => false end.
Definition ch_size (c : DatagramChannel) : nat := length (ch_queue c).
Definition ch_bounded (c : DatagramChannel) : bool := match ch_capacity c with Some _ => true | None => false end.

Definition ch_append (d : Datagram) (c : DatagramChannel) : DatagramChannel := mkChannel (ch_queue c ++ [d]) (ch_taken c) (ch_capacity c).
Definition try_push_datagram (d : Datagram) (c : DatagramChannel) : bool * DatagramChannel := if ch_full c then (false, c) else (true, ch_append d c).
Definition try_recv_datagram (c : DatagramChannel) : option Datagram * DatagramChannel :=
  match ch_queue c with
  | d :: ds => (Some d, mkChannel ds (ch_taken c ++ [d]) (ch_capacity c))
  | [] => (None, c)
  end.
(** What consumers take while [push] or [recv_from] is suspended. *)
Definition ch_consume (n : nat) (c : DatagramChannel) : DatagramChannel :=
  mkChannel (drop n (ch_queue c)) (ch_taken c ++ take n (ch_queue c)) (ch_capacity c).

Section Pump.
(** [consumed k]: how many datagrams the consumers take while the [k]-th
    suspension lasts; a [push] to a full queue lasts until there is room. *)
Variable consumed : nat -> nat.

(** [push]: with room it does not suspend. *)
Definition push_datagram (k : nat) (d : Datagram) (c : DatagramChannel) : DatagramChannel :=
  if ch_full c then ch_append d (ch_consume (S (consumed k)) c) else ch_append d c.

(** [pump]: the loop, with the number of the suspension.  [push] itself throws
    only when the task is cancelled, which is not modelled. *)
Fixpoint pump (fuel k : nat) (x : AnySocket * DatagramChannel) : result unit * (AnySocket * DatagramChannel) :=
  let '(socket, c) := x in
  if negb (socket_is_open socket) then (Ok tt, x)
  else
    match fuel with
    | O => (OutOfFuel, x)
    | S fuel =>
        let '(r, socket) := socket_recv_from socket in
        let c := ch_consume (consumed k) c in
        match r with
        | Ok d => pump fuel (k + 2) (socket, push_datagram (k + 1) d c)
        | Throw e => if is_logic_error e then (if negb (socket_is_open socket) then (Ok tt, (socket, c)) else (Throw e, (socket, c)))
                     else (Throw e, (socket, c))
        | OutOfFuel => (OutOfFuel, (socket, c))
        end
    end.

(** All that went through the channel. *)
Definition ch_history (c : DatagramChannel) : list Datagram := ch_taken c ++ ch_queue c.

Lemma ch_consume_history n c : ch_history (ch_consume n c) = ch_history c.
Proof. unfold ch_history, ch_consume. simpl. by rewrite <- app_assoc, take_drop. Qed.
Lemma push_datagram_history k d c : ch_history (push_datagram k d c) = ch_history c ++ [d].
Proof.
  unfold push_datagram. destruct (ch_full c).
  - rewrite <- (ch_consume_history (S (consumed k)) c) at 1. unfold ch_history, ch_append. simpl. by rewrite !app_assoc.
  - unfold ch_history, ch_append. simpl. by rewrite app_assoc.
Qed.

(** A bounded channel keeps its bound. *)
Lemma push_datagram_bound k d c n :
  ch_capacity c = Some (S n) -> (length (ch_queue c) <= S n)%nat ->
  ch_capacity (push_datagram k d c) = Some (S n) /\ (length (ch_queue (push_datagram k d c)) <= S n)%nat.
Proof.
  intros Hc Hl. unfold push_datagram, ch_full. rewrite Hc. destruct (Nat.leb_spec (S n) (length (ch_queue c))); simpl.
  - split; [done|]. rewrite length_app, length_drop. simpl. lia.
  - split; [done|]. rewrite length_app. simpl. lia.
Qed.
End Pump.

(** What the socket gives: the datagrams of its first [recv_from]s, and how the
    next one ends. *)
Inductive receives : AnySocket -> list Datagram -> AnySocket -> Prop :=
| ReceivesNone s : receives s [] s
| ReceivesOne s d s1 ds s2 : socket_is_open s = true -> socket_recv_from s = (Ok d, s1) -> receives s1 ds s2 -> receives s (d :: ds) s2.

(** [pump] puts every datagram the socket gives into the channel, in order,
    whatever the consumers do meanwhile.  When the socket is closed it returns;
    when it fails while it is open the exception is thrown. *)
Theorem pump_exact consumed s ds s1 fuel k c :
  receives s ds s1 -> (length ds < fuel)%nat ->
  (socket_is_open s1 = false \/ exists e, fst (socket_recv_from s1) = Throw e) ->
  let s2 := if socket_is_open s1 then snd (socket_recv_from s1) else s1 in
  exists c', pump consumed fuel k (s, c) =
      (match fst (socket_recv_from s1) with
       | Throw e => if socket_is_open s1 && negb (is_logic_error e && negb (socket_is_open s2)) then Throw e else Ok tt
       | _ => Ok tt
       end, (s2, c')) /\
    ch_history c' = ch_history c ++ ds.
Proof.
  intros Hr. revert fuel k c. induction Hr as [s|s d s' ds s1 Ho Hd Hr IH]; intros fuel k c Hf Hend.
  - destruct fuel as [|fuel]; [simpl in Hf; lia|]. cbn [pump]. destruct (socket_is_open s) eqn:Ho; simpl.
    + destruct Hend as [?|[e He]]; [done|]. destruct (socket_recv_from s) as [r s']. simpl in *. subst r.
      exists (ch_consume (consumed k) c). rewrite ch_consume_history, app_nil_r. split; [|done].
      by destruct (is_logic_error e), (socket_is_open s').
    + exists c. rewrite app_nil_r. split; [|done]. by destruct (fst (socket_recv_from s)).
  - destruct fuel as [|fuel]; [simpl in Hf; lia|]. cbn [pump]. rewrite Ho, Hd. simpl.
    destruct (IH fuel (k + 2)%nat (push_datagram consumed (k + 1) d (ch_consume (consumed k) c)) ltac:(simpl in Hf; lia) Hend) as (c' & E & Hh).
    exists c'. split; [done|]. by rewrite Hh, push_datagram_history, ch_consume_history, <- app_assoc.
Qed.

(** A socket that gives what arrived, and is closed then. *)
Record Arrived := mkArrived { ar_rest : list Datagram; ar_open : bool }.
Definition arrived_recv (u : Arrived) : result Datagram * Arrived :=
  match ar_rest u with
  | d :: rest => (Ok d, mkArrived rest true)
  | [] => (Throw (LogicError "closed"%bs), mkArrived [] false)
  end.
Definition arrived_source : DatagramSource Arrived := {|
  dgs_native_handle _ := 3; dgs_local_endpoint _ := empty_endpoint; dgs_peer_endpoint _ := empty_endpoint;
  dgs_close u := mkArrived (ar_rest u) false; dgs_is_open := inl ar_open;
  dgs_connect _ _ u := (Ok tt, u); dgs_send data u := (Ok (size_of data), u); dgs_send_to data _ u := (Ok (size_of data), u);
  dgs_recv := arrived_recv; dgs_recv_from := arrived_recv;
  dgs_recv_some _ u := (Throw OtherException, u); dgs_recv_some_from _ u := (Throw OtherException, u);
  dgs_set_broadcast := None; dgs_set_ttl := None; dgs_set_multicast_loop := None; dgs_set_multicast_ttl := None; dgs_set_multicast_interface := None;
  dgs_join_multicast := None; dgs_leave_multicast := None; dgs_join_multicast_source := None; dgs_leave_multicast_source := None
|}.
Definition some_datagram (text : bytes) : Datagram := mkDatagram empty_endpoint text 0.

(** Two datagrams through a channel with room for one. *)
Lemma pump_exact_witness :
  let s n := SocketModel Arrived arrived_source (mkArrived n true) in
  let ds := [some_datagram "a"%bs; some_datagram "b"%bs] in
  exists c', pump (fun _ => 0%nat) 3 0 (s ds, new_channel (Some 1%nat)) = (Ok tt, (SocketModel Arrived arrived_source (mkArrived [] false), c')) /\ ch_history c' = ds.
Proof.
  intros s ds. assert (receives (s ds) ds (s [])) as Hr by (do 2 (eapply ReceivesOne; [reflexivity | reflexivity|]); apply ReceivesNone).
  apply (pump_exact (fun _ => 0%nat) (s ds) ds (s []) 3 0 (new_channel (Some 1%nat)) Hr); [simpl; lia | right; by eexists].
Defined.
